(* ===== verification/_CoqProject ===== *)
-Q . S2P
Prelude.v
Decimal.v
Double.v
Slice.v
Coding.v
SliceTransform.v
Comparator.v
DbFormat.v
IterKey.v
OnBoard.v
Tables.v
PriorityQueue.v
QueueOrder.v
Merger.v
StreamMerger.v
StringUtil.v
HumanText.v
ParseDouble.v
TimeText.v
DebugString.v
Cleanable.v
PinnableSlice.v
KVMap.v
KeyGen.v
GenFiles.v
Bench.v
Random.v
Status.v
StatusChecked.v
Runs.v
Port.v
RWMutex.v
LockRuns.v
