(* ===== verification/Prelude.v ===== *)
(** * Verification of the compaction benchmark

    The program compares ways to compact the sorted tables of a key-value
    store: it generates key-value files in several table formats, merges them
    with a filter for redundant entries on the host, and prepares blocks in a
    layout that an FPGA can read.  It contains a cut-down copy of the utilities
    of RocksDB.  This library models the C++ code under src/ as functions on
    byte strings, integers and explicit state, and proves what its parts do.

    ** Files, bottom up

    - [Prelude]: bytes and machine words, little-endian representation, the
      outcome of C++ code, lists, tactics.  [Decimal]: printing and reading
      decimal numbers as [std::to_string] and [std::stoull] do.
    - [Slice] (include/slice.h, utils/slice.cc): comparison, prefixes, hex.
    - [Coding] (utils/coding.h, utils/coding.cc): fixed-width integers on
      hosts of either byte order (class [Platform]), varints, zigzag,
      length-prefixed strings.
    - [SliceTransform] (include/slice_transform.h, utils/slice.cc) and
      [Comparator] (include/comparator.h, include/user_comparator_wrapper.h):
      the interfaces as classes, their documented contracts as the classes
      [SliceTransformLaws] and [ComparatorLaws], and the implementations.
    - [DbFormat] (db_format/dbformat.h, db_format/dbformat.cc,
      db_format/types.h): internal keys, a user key with a footer of sequence
      number and type; their codec, order and separators, range tombstones.
      The theorems are proved for every lawful user [Comparator].
    - [IterKey] (db_format/dbformat.h, class [IterKey]): a key in an inline
      buffer, a heap buffer or pinned memory, refined to an abstract key.
    - [OnBoard] (db_format/on_board_format.h, db_format/on_board_fomat.cc,
      tables/gear_table/gear_table.cc): the 8 KiB blocks of the gear table and
      of the device; a slice into a block is a [view], an offset and a length.
    - [Tables] (include/tables/, tables/): the four table classes and their
      files.  System calls are the class [Posix], their documented behaviour
      the class [PosixLaws], and [MemPosix] is a system that has it.
    - [PriorityQueue]: the heap of [std::priority_queue], which the mergers use
      with comparators that are not orders; [QueueOrder]: in which order it pops,
      for a strict weak order and for the comparators of the mergers.
    - [Merger] (include/merger.h, include/merger.cc) and [StreamMerger]
      (include/stream_merger.cc, include/tables/plain_table.h): the merges and
      their filters, and the loop that feeds the device.
    - [StringUtil] (utils/string_util.cc), [Cleanable] (utils/cleanable.h,
      utils/cleanable.cc), [PinnableSlice] (include/slice.h, utils/slice.cc,
      on top of [Cleanable]), [Random] (include/random.h), [Status]
      (include/status.h): utilities; [StatusChecked]: [Status] in the build with
      ROCKSDB_ASSERT_STATUS_CHECKED.  [HumanText] (utils/string_util.cc):
      durations and sizes for people, on top of [Double], the rounding of
      binary64 numbers and of [printf]; [ParseDouble] and [TimeText] (the same
      file): [std::stod], and times of day over the class [LocalTime].
      [DebugString] (db_format/dbformat.cc): internal keys for people.
    - [Port] (port/port_posix.h, port/port_posix.cc): mutexes and condition
      variables over the class [Pthread], with threads as interleaved lists of
      actions; [RWMutex]: the readers-writer lock over [PthreadRwlock];
      [LockRuns]: their runs end, with what [Runs] says of step relations.
    - [KVMap] (utils/kv_map.h): the map ordered by a [Comparator].  [KeyGen]
      (include/gear_bench_classes.h, tools/gear_bench_classes.cc): generators of
      keys.  [GenFiles] and [Bench] (tools/gear_bench_tool.cc): the generator of
      the input files, and the drivers of the benchmarks up to [main], over the
      class [Shell] of commands and directories.

    Calls go up this list: the tables build blocks with the encoders, the
    mergers parse the keys of the tables with the functions of dbformat.h, and
    the benchmark generates keys for tables.  A client uses an interface
    through its class, and its theorems assume only the laws of the class.

    ** Conventions

    A definition has the name of the function it models, prefixed by the class
    where two classes share it.  Byte strings, [std::string]s and the contents
    of slices are [bytes]; a word is a [Z] and every operation that can wrap
    says so ([u32], [u64], [signed]).  Code that can stop at an assertion, read
    out of bounds, use freed memory, throw or miss a return returns an [outcome]:
    [Ret] or the [fault] that ends the run.  The assertions are those of a Debug build.
    Output parameters are returned; where a failing function leaves one
    untouched the model returns the old value.  Indeterminate memory (an
    uninitialised variable, the rest of a buffer) is a parameter, so that the
    theorems hold for every content.

    Loops that are not structural take fuel.  It is the length of the input
    ([DoFilter], the arbitration loop), the number of digits or bytes of a word
    (the varint loops), or one more than the number of entries (the block
    loops), and the theorems about these functions state the result, so the
    fuel is enough.  The loop of the FPGA merger, the one of the file generator
    and the scan of [GetSliceUntil] may not end: their results say whether the
    fuel is gone, and the theorems for which inputs this happens for every fuel.
    The file generator needs at most one turn per entry ([generate_files_counts]).

    ** What the theorems show

    - Encodings: the fixed, varint, zigzag, length-prefixed, hexadecimal,
      option-string, decimal and integer-vector codecs round-trip, with the
      exact domain of the decoders; the encodings and the debug strings of
      internal keys are injective, and the encodings parse back; the plain
      table is read back by the merge.
    - Orders: [Slice::compare] and the comparator of internal keys are total
      orders that agree with their parsed form; separators and bounds of keys
      lie where the documentation says; generated keys sort as their numbers,
      and the sequences of keys a generator gives are the ones of its mode.
    - State: [IterKey], [Status] and the ordered map refine abstract
      specifications for any sequence of operations; the checked [Status] aborts
      exactly for a status destroyed unread; clean-ups run exactly once;
      transfers to and from files move the bytes that the system reports; in
      every interleaving a mutex has one holder, its debug flag is right and the
      deadlines of its waits are valid, sections of a readers-writer lock have no
      data race, and every run is finite and ends only when all threads are
      finished or in a wait without a deadline.
    - Layout: every byte of the blocks of the gear table and of the device, so
      where every entry is; what the readers of the blocks show instead.
    - Merging: the queue loses and adds no entry; it sorts under a strict weak
      order, and under the comparators of the mergers, which only say whether
      two keys differ, it pops in an order fixed by the number of entries; what
      each filter keeps and abandons; which steps end in a fault, and that a
      whole compaction with an entry is one of them.
    - The whole program: the benchmark "baseline" reads every file it names,
      pops every entry of every table ([Bench.baseline_merges_files], from the
      names of the files to the answers of the filter, and in which order), and
      then runs into the end of [BaselineMerger::DoCompaction], which has no
      return; what the tool does with its number of threads, which all make the
      same range of keys; which files the generator writes.
    - Text: what durations, sizes, times and trimmed or split strings look
      like; fifteen digits survive printing and [ParseDouble].
    - Divergences: where the code does not do what it means to (the views into
      blocks, the comparators read as booleans, the filters on empty vectors,
      the slices of destroyed strings, the start positions of the threads, the
      missing return, the blocks written past their end), the theorem states
      what it does.

    ** Not modelled

    status.cc, the bytewise comparator and [Random::GetTLSInstance] are not in
    the repository: the first two are class parameters with laws.  The parsing
    of the command line (gflags), timers and messages are calls of libraries and
    of the system.  The bodies of the device interface are empty but for an
    assertion ([SendToFPGA]).

    What is left of the sources has no behaviour of its own: comments, includes,
    declarations of what is defined elsewhere, macros and type aliases, the
    second copies of the types of db_format/types.h in include/types.h, and the
    branches for Windows. *)
From stdpp Require Export base list list_numbers numbers option strings gmap sorting.
From Stdlib Require Export ZArith Lia.
From Stdlib Require Import Strings.Byte.
#[global] Open Scope Z_scope.

(** ** Bytes and machine words *)

Abbreviation byte := Init.Byte.byte.
(** The character ['\0']. *)
Abbreviation NUL := Init.Byte.x00.
(** A contiguous piece of memory, a [std::string] or what a [Slice] views. *)
Abbreviation bytes := (list Init.Byte.byte).

#[global] Instance byte_eq_dec : EqDecision byte.
Proof. intros x y. destruct (Byte.byte_eq_dec x y); [left|right]; done. Defined.
#[global] Instance byte_inhabited : Inhabited byte := populate x00.

(** The value of an [unsigned char] and the truncating store into one. *)
Definition b2z (b : byte) : Z := Z.of_N (Byte.to_N b).
Definition z2b (z : Z) : byte :=
  match Byte.of_N (Z.to_N (z mod 256)) with Some b => b | None => x00 end.

Definition u16 (z : Z) : Z := z mod 2 ^ 16.
Definition u32 (z : Z) : Z := z mod 2 ^ 32.
Definition u64 (z : Z) : Z := z mod 2 ^ 64.
(** The two's complement reading of a [w]-bit word. *)
Definition signed (w z : Z) : Z :=
  let m := z mod 2 ^ w in if m <? 2 ^ (w - 1) then m else m - 2 ^ w.

(** [size()] of a string, vector or slice. *)
Definition zlen {A} (l : list A) : Z := Z.of_nat (length l).
(** [ptr[i]] as an unsigned char. *)
Definition byte_at (p : bytes) (i : nat) : Z := b2z (nth i p x00).

Lemma b2z_range b : 0 <= b2z b < 256.
Proof. unfold b2z. pose proof (Byte.to_N_bounded b). lia. Qed.

Lemma b2z_z2b z : b2z (z2b z) = z mod 256.
Proof.
  pose proof (Z.mod_pos_bound z 256 ltac:(lia)).
  unfold b2z, z2b. destruct (Byte.of_N _) as [b|] eqn:Hb.
  - apply Byte.to_of_N in Hb. rewrite Hb. lia.
  - apply Byte.of_N_None_iff in Hb. lia.
Qed.

Lemma b2z_inj b1 b2 : b2z b1 = b2z b2 → b1 = b2.
Proof.
  unfold b2z. intros H%N2Z.inj.
  assert (Some b1 = Some b2) as [=]; [|done].
  rewrite <-(Byte.of_to_N b1), <-(Byte.of_to_N b2). by rewrite H.
Qed.

Lemma z2b_b2z b : z2b (b2z b) = b.
Proof.
  apply b2z_inj. rewrite b2z_z2b. apply Z.mod_small. apply b2z_range.
Qed.

Lemma z2b_mod_eq x y : x mod 256 = y mod 256 → z2b x = z2b y.
Proof. intros H. apply b2z_inj. by rewrite !b2z_z2b. Qed.

(** ** Bit-level arithmetic *)

(** Joining disjoint bit fields with [|] is addition. *)
Lemma lor_shiftl_add a b n :
  0 ≤ n → 0 ≤ a < 2 ^ n → Z.lor a (Z.shiftl b n) = a + b * 2 ^ n.
Proof.
  intros Hn Ha.
  assert (Z.land a (Z.shiftl b n) = 0) as Hl.
  { apply Z.bits_inj'. intros i Hi. rewrite Z.land_spec, Z.bits_0.
    destruct (decide (i < n)) as [Hin|Hin].
    { by rewrite Z.shiftl_spec_low, andb_false_r by lia. }
    rewrite andb_false_iff. left.
    destruct (decide (a = 0)) as [->|]; [apply Z.bits_0|].
    apply Z.bits_above_log2; [lia|].
    apply Z.lt_le_trans with n; [|lia]. apply Z.log2_lt_pow2; lia. }
  rewrite <-Z.lxor_lor, <-Z.add_nocarry_lxor, Z.shiftl_mul_pow2 by done. done.
Qed.

Lemma shiftl_lor_add a b n :
  0 ≤ n → 0 ≤ a < 2 ^ n → Z.lor (Z.shiftl b n) a = b * 2 ^ n + a.
Proof. intros. rewrite Z.lor_comm, lor_shiftl_add by done. lia. Qed.

Lemma land_1 z : Z.land z 1 = z mod 2.
Proof. change 1 with (Z.ones 1). by rewrite Z.land_ones. Qed.
Lemma land_127 z : Z.land z 127 = z mod 128.
Proof. change 127 with (Z.ones 7). by rewrite Z.land_ones. Qed.
Lemma land_255 z : Z.land z 255 = z mod 256.
Proof. change 255 with (Z.ones 8). by rewrite Z.land_ones. Qed.
Lemma land_128_byte z : 0 ≤ z < 256 → (Z.land z 128 =? 0) = (z <? 128).
Proof.
  intros Hz. change 128 with (Z.shiftl 1 7) at 1.
  assert (Hl : Z.land z (Z.shiftl 1 7) = Z.shiftl (z / 128) 7).
  { change 128 with (2 ^ 7). rewrite <-Z.shiftr_div_pow2 by lia.
    apply Z.bits_inj'. intros i Hi. rewrite Z.land_spec.
    destruct (decide (i < 7)) as [Hi7|Hi7].
    - rewrite !Z.shiftl_spec_low by lia. by rewrite andb_false_r.
    - rewrite !Z.shiftl_spec_high by lia. rewrite Z.shiftr_spec by lia.
      replace (i - 7 + 7) with i by lia.
      destruct (decide (i = 7)) as [->|]; [by rewrite andb_true_r|].
      assert (Z.testbit z i = false) as ->; [|done].
      destruct (decide (z = 0)) as [->|]; [apply Z.bits_0|].
      apply Z.bits_above_log2; [lia|].
      assert (Z.log2 z < 8); [|lia]. apply Z.log2_lt_pow2; lia. }
  rewrite Hl, Z.shiftl_mul_pow2 by lia.
  destruct (Z.ltb_spec z 128).
  - by rewrite Z.div_small by lia.
  - assert (z / 128 = 1) as -> by (symmetry; apply (Z.div_unique _ _ _ (z - 128)); lia). done.
Qed.

Lemma lor_128_mod z : Z.lor z 128 mod 256 = z mod 128 + 128.
Proof.
  rewrite <-land_255, Z.land_lor_distr_l, land_255.
  change (Z.land 128 255) with (Z.shiftl 1 7).
  assert (Z.lor (z mod 256) (Z.shiftl 1 7) = Z.lor (z mod 128) (Z.shiftl 1 7)) as ->.
  { apply Z.bits_inj'. intros i Hi. rewrite !Z.lor_spec.
    change 256 with (2 ^ 8). change 128 with (2 ^ 7).
    destruct (decide (i < 7)); [by rewrite !Z.mod_pow2_bits_low by lia|].
    destruct (decide (i = 7)) as [->|]; [by rewrite !orb_true_r|].
    by rewrite !Z.mod_pow2_bits_high by lia. }
  apply lor_shiftl_add; [lia|]. apply Z.mod_pos_bound. lia.
Qed.

Lemma shiftl_pow2 z n : 0 ≤ n → Z.shiftl z n = z * 2 ^ n.
Proof. apply Z.shiftl_mul_pow2. Qed.
Lemma shiftr_pow2 z n : 0 ≤ n → Z.shiftr z n = z / 2 ^ n.
Proof. apply Z.shiftr_div_pow2. Qed.

Lemma u32_range z : 0 ≤ u32 z < 2 ^ 32.
Proof. apply Z.mod_pos_bound. lia. Qed.
Lemma u64_range z : 0 ≤ u64 z < 2 ^ 64.
Proof. apply Z.mod_pos_bound. lia. Qed.
Lemma u32_small z : 0 ≤ z < 2 ^ 32 → u32 z = z.
Proof. apply Z.mod_small. Qed.
Lemma u64_small z : 0 ≤ z < 2 ^ 64 → u64 z = z.
Proof. apply Z.mod_small. Qed.

(** ** Little-endian object representation *)

Fixpoint le_bytes (n : nat) (v : Z) : bytes :=
  match n with
  | O => []
  | S n => z2b v :: le_bytes n (Z.shiftr v 8)
  end.

Fixpoint le_val (l : bytes) : Z :=
  match l with
  | [] => 0
  | b :: l => b2z b + 256 * le_val l
  end.

Lemma length_le_bytes n v : length (le_bytes n v) = n.
Proof. revert v. induction n; intros v; simpl; [done|]. by rewrite IHn. Qed.

Lemma le_val_le_bytes n v : le_val (le_bytes n v) = v mod 2 ^ (8 * Z.of_nat n).
Proof.
  revert v. induction n as [|n IH]; intros v; [by rewrite Z.mod_1_r|].
  cbn [le_val le_bytes]. rewrite IH, b2z_z2b, shiftr_pow2 by lia.
  replace (8 * Z.of_nat (S n)) with (8 + 8 * Z.of_nat n) by lia.
  rewrite Z.pow_add_r, (Z.rem_mul_r v (2 ^ 8)) by lia. reflexivity.
Qed.

Lemma le_val_range l : 0 ≤ le_val l < 2 ^ (8 * zlen l).
Proof.
  unfold zlen. induction l as [|b l IH]; [by compute|].
  cbn [le_val length]. pose proof (b2z_range b).
  replace (8 * Z.of_nat (S (length l))) with (8 + 8 * Z.of_nat (length l)) by lia.
  rewrite Z.pow_add_r by lia. change (2 ^ 8) with 256. lia.
Qed.

Lemma le_bytes_le_val l : le_bytes (length l) (le_val l) = l.
Proof.
  induction l as [|b l IH]; [done|]. cbn [le_val length le_bytes].
  pose proof (b2z_range b). f_equal.
  - apply b2z_inj. rewrite b2z_z2b, Z.mul_comm, Z.mod_add, Z.mod_small; lia.
  - rewrite shiftr_pow2 by lia. change (2 ^ 8) with 256.
    rewrite Z.mul_comm, Z.div_add, Z.div_small, Z.add_0_l by lia. done.
Qed.

Lemma le_bytes_inj n v w :
  0 ≤ v < 2 ^ (8 * Z.of_nat n) → 0 ≤ w < 2 ^ (8 * Z.of_nat n) →
  le_bytes n v = le_bytes n w → v = w.
Proof.
  intros Hv Hw H. apply (f_equal le_val) in H.
  by rewrite !le_val_le_bytes, !Z.mod_small in H.
Qed.

(** Element [i] of the representation is the byte [v >> 8*i]. *)
Lemma le_bytes_cons n v : le_bytes (S n) v = z2b v :: le_bytes n (Z.shiftr v 8).
Proof. done. Qed.

(** ** Outcomes of C++ code: a value, or the fault that ends the run *)

Inductive fault : Set :=
  | AssertionFailed   (** an [assert] of the code is false (Debug build) *)
  | OutOfBounds       (** an access outside the object the pointer points into *)
  | EmptyVector       (** [back()] or [pop_back()] of an empty vector *)
  | UseAfterFree      (** a read through a pointer whose storage is gone *)
  | DivideByZero
  | Abort             (** a call of [abort] *)
  | ThrowInvalidArgument
  | ThrowOutOfRange
  | ThrowLengthError  (** a container asked for more than [max_size()] *)
  | ThrowBadArrayNewLength  (** [new] of an array of negative length *)
  | SignedOverflow    (** arithmetic the language does not define *)
  | MissingReturn.    (** a function that has a result ends without a [return] *)

Inductive outcome (A : Type) : Type :=
  | Ret (a : A)
  | Fault (f : fault).
Arguments Ret {A} a.
Arguments Fault {A} f.

#[global] Instance fault_eq_dec : EqDecision fault.
Proof. solve_decision. Defined.
#[global] Instance outcome_ret : MRet outcome := @Ret.
#[global] Instance outcome_bind : MBind outcome := λ A B k m,
  match m with Ret a => k a | Fault f => Fault f end.
#[global] Instance outcome_fmap : FMap outcome := λ A B g m,
  match m with Ret a => Ret (g a) | Fault f => Fault f end.

(** [assert(b)] *)
Definition assert_that (b : bool) : outcome unit :=
  if b then Ret tt else Fault AssertionFailed.

Declare Scope outcome_scope.
Delimit Scope outcome_scope with O.
Notation "'assert!' b ;; k" := (mbind (M:=outcome) (λ _ : unit, k) (assert_that b))
  (at level 100, b at level 99, k at level 200, right associativity,
   format "'assert!'  b  ;; '//' k") : outcome_scope.
#[global] Open Scope outcome_scope.

Lemma outcome_bind_Ret {A B} (m : outcome A) (k : A → outcome B) y :
  (m ≫= k) = Ret y ↔ ∃ x, m = Ret x ∧ k x = Ret y.
Proof. destruct m; cbn; split; [eauto|by intros (?&[= <-]&?)|done|by intros (?&?&?)]. Qed.
Lemma outcome_fmap_Ret {A B} (m : outcome A) (g : A → B) y :
  (g <$> m) = Ret y ↔ ∃ x, m = Ret x ∧ g x = y.
Proof.
  destruct m; cbn; split; [intros [= <-]; eauto|by intros (?&[= <-]&<-)|done|by intros (?&?&?)].
Qed.
Lemma assert_that_Ret b x : assert_that b = Ret x ↔ b = true ∧ x = tt.
Proof. destruct b, x; split; try done; by intros []. Qed.

(** Runs the code of every element in order, as a range-based [for] does. *)
Fixpoint foldM {A S} (f : S → A → outcome S) (s : S) (l : list A) : outcome S :=
  match l with
  | [] => Ret s
  | a :: l => f s a ≫= λ s, foldM f s l
  end.

Lemma foldM_app {A S} (f : S → A → outcome S) s l1 l2 :
  foldM f s (l1 ++ l2) = foldM f s l1 ≫= λ s, foldM f s l2.
Proof.
  revert s. induction l1 as [|a l1 IH]; intros s; [done|]. simpl.
  destruct (f s a); simpl; [apply IH|done].
Qed.

Lemma foldM_Ret {A S} (f : S → A → outcome S) (g : S → A → S) s l :
  (∀ s a, a ∈ l → f s a = Ret (g s a)) → foldM f s l = Ret (foldl g s l).
Proof.
  revert s. induction l as [|a l IH]; intros s Hf; [done|]. simpl.
  rewrite Hf by (by left). simpl. apply IH. intros. apply Hf. by right.
Qed.

(** An invariant of the loop state holds at the end of the loop. *)
Lemma foldM_invariant {A S} (I : S → Prop) (f : S → A → outcome S) s s' l :
  I s → (∀ s a s', a ∈ l → I s → f s a = Ret s' → I s') →
  foldM f s l = Ret s' → I s'.
Proof.
  revert s. induction l as [|a l IH]; intros s Hs Hstep; simpl.
  { by intros [= <-]. }
  intros (s1 & Hf & Hl)%outcome_bind_Ret. apply (IH s1); [|clear IH|done].
  - apply (Hstep s a); [by left|done..].
  - intros s2 b s3 ?. apply Hstep. by right.
Qed.

(** A loop that appends the result of every element. *)
Lemma foldM_collect {A B} (f : A → outcome B) (l : list A) (l' acc : list B) :
  Forall2 (λ a b, f a = Ret b) l l' →
  foldM (λ acc a, b ← f a; Ret (acc ++ [b])) acc l = Ret (acc ++ l').
Proof.
  intros Hall. revert acc. induction Hall as [|a b l l' Hf _ IH]; intros acc; simpl.
  { by rewrite app_nil_r. }
  rewrite Hf. simpl. by rewrite IH, <-app_assoc.
Qed.

(** ** Lists *)

Lemma zlen_nil {A} : zlen (@nil A) = 0.
Proof. done. Qed.
Lemma zlen_cons {A} (x : A) l : zlen (x :: l) = 1 + zlen l.
Proof. unfold zlen. simpl length. lia. Qed.
Lemma zlen_single {A} (x : A) : zlen [x] = 1.
Proof. done. Qed.
Lemma zlen_app {A} (l k : list A) : zlen (l ++ k) = zlen l + zlen k.
Proof. unfold zlen. rewrite length_app. lia. Qed.
Lemma zlen_nonneg {A} (l : list A) : 0 ≤ zlen l.
Proof. unfold zlen. lia. Qed.
Lemma zlen_zero {A} (l : list A) : zlen l = 0 → l = [].
Proof. destruct l; [done|]. rewrite zlen_cons. pose proof (zlen_nonneg l). lia. Qed.
Lemma zlen_reverse {A} (l : list A) : zlen (reverse l) = zlen l.
Proof. unfold zlen. by rewrite length_reverse. Qed.
Lemma zlen_take {A} (l : list A) n : zlen (take n l) = Z.min (Z.of_nat n) (zlen l).
Proof. unfold zlen. rewrite length_take. lia. Qed.
Lemma zlen_drop {A} (l : list A) n : zlen (drop n l) = Z.max 0 (zlen l - Z.of_nat n).
Proof. unfold zlen. rewrite length_drop. lia. Qed.
Lemma zlen_le_bytes n v : zlen (le_bytes n v) = Z.of_nat n.
Proof. unfold zlen. by rewrite length_le_bytes. Qed.
Lemma zlen_replicate {A} n (x : A) : zlen (replicate n x) = Z.of_nat n.
Proof. unfold zlen. by rewrite length_replicate. Qed.
Lemma zlen_fmap {A B} (g : A → B) l : zlen (g <$> l) = zlen l.
Proof. unfold zlen. by rewrite length_fmap. Qed.

Lemma take_zlen_app {A} n (l k : list A) : zlen l = Z.of_nat n → take n (l ++ k) = l.
Proof. unfold zlen. intros H. apply take_app_length'. lia. Qed.
Lemma drop_zlen_app {A} n (l k : list A) : zlen l = Z.of_nat n → drop n (l ++ k) = k.
Proof. unfold zlen. intros H. apply drop_app_length'. lia. Qed.

(** Sums of lengths of a list of strings. *)
Lemma zlen_concat_const {A} (n : Z) (ll : list (list A)) :
  Forall (λ l, zlen l = n) ll → zlen (concat ll) = n * zlen ll.
Proof.
  induction 1 as [|l ll Hl _ IH]; [unfold zlen; simpl; lia|].
  cbn [concat]. rewrite zlen_app, zlen_cons, Hl, IH. lia.
Qed.

(** ** Automation *)

Create Rewrite HintDb zlen.
#[export] Hint Rewrite @zlen_nil @zlen_single @zlen_cons @zlen_app @zlen_reverse @zlen_take
  @zlen_drop zlen_le_bytes @zlen_replicate @zlen_fmap : zlen.

(** Linear arithmetic over the lengths of strings and vectors. *)
Ltac zlen_pose :=
  repeat match goal with
  | H : context [zlen ?l] |- _ =>
      lazymatch goal with
      | _ : 0 ≤ zlen l |- _ => fail
      | _ => pose proof (zlen_nonneg l)
      end
  | |- context [zlen ?l] =>
      lazymatch goal with
      | _ : 0 ≤ zlen l |- _ => fail
      | _ => pose proof (zlen_nonneg l)
      end
  end.
Ltac zlen := autorewrite with zlen in *; zlen_pose; lia.

(** Takes apart the binds of a run that is known to return. *)
Ltac invert_run :=
  repeat match goal with
  | H : mbind _ _ = Ret _ |- _ =>
      apply outcome_bind_Ret in H; destruct H as (? & ? & H)
  | H : assert_that _ = Ret _ |- _ => apply assert_that_Ret in H; destruct H as [H ->]
  | H : Ret _ = Ret _ |- _ => injection H as H
  | H : mret _ = Ret _ |- _ => injection H as H
  | H : Fault _ = Ret _ |- _ => discriminate H
  end; subst.

(** Decides the boolean comparisons of the goal by arithmetic. *)
Ltac zbool :=
  repeat match goal with
  | |- context [?x <? ?y] => destruct (Z.ltb_spec x y)
  | |- context [?x <=? ?y] => destruct (Z.leb_spec x y)
  | |- context [?x =? ?y] => destruct (Z.eqb_spec x y)
  | |- context [?x >? ?y] => rewrite (Z.gtb_ltb x y)
  | |- context [?x >=? ?y] => rewrite (Z.geb_leb x y)
  end.

(** Proves a decidable proposition by evaluating its decision. *)
Ltac by_decide := apply (bool_decide_eq_true_1 _); vm_compute; reflexivity.
