(* ===== verification/Decimal.v ===== *)
(** * Decimal numbers, as the C and C++ libraries print and read them

    [%PRIu64], [operator<<] and [std::to_string] print the digits of a number;
    [std::stoull], [std::stoll] and [std::stoi] skip white space, take an
    optional sign and the longest run of digits, throw [invalid_argument]
    without a digit and [out_of_range] when the number does not fit, and report
    how many characters they took. *)
From S2P Require Import Prelude.

(** The bytes of a string literal. *)
Definition lit (s : string) : bytes := String.list_byte_of_string s.

(** ** Printing *)

(** The decimal digits of [n], at most [fuel] of them, before [acc]. *)
Fixpoint decimal (fuel : nat) (n : Z) (acc : bytes) : bytes :=
  match fuel with
  | O => acc
  | S fuel =>
      let acc := z2b (48 + n mod 10) :: acc in
      if n / 10 =? 0 then acc else decimal fuel (n / 10) acc
  end.

(** [%PRIu64] of a 64-bit number, and [std::to_string] of a 32-bit one. *)
Definition print_u64 (n : Z) : bytes := decimal 20 n [].
Definition to_string (n : Z) : bytes :=
  if n <? 0 then z2b 45 :: decimal 10 (- n) [] else decimal 10 n [].

(** ** Reading *)

Definition is_digit (c : byte) : bool := (48 <=? b2z c) && (b2z c <=? 57).
(** [isspace] in the C locale. *)
Definition is_space (c : byte) : bool := (b2z c =? 32) || ((9 <=? b2z c) && (b2z c <=? 13)).

(** [tolower] in the C locale. *)
Definition to_lower (c : byte) : byte :=
  if (65 <=? b2z c) && (b2z c <=? 90) then z2b (b2z c + 32) else c.

(** The longest prefix of characters that satisfy [p], and the rest. *)
Fixpoint span (p : byte → bool) (s : bytes) : bytes * bytes :=
  match s with
  | c :: s' => if p c then let '(a, b) := span p s' in (c :: a, b) else ([], s)
  | [] => ([], [])
  end.

(** Sign, digits and the number of characters taken; [None] without a digit. *)
Definition read_number (s : bytes) : option (bool * bytes * Z) :=
  let '(blanks, s) := span is_space s in
  let '(neg, signs, s) :=
    match s with
    | c :: s' => if b2z c =? 45 then (true, 1, s') else if b2z c =? 43 then (false, 1, s')
                 else (false, 0, s)
    | [] => (false, 0, s)
    end in
  let '(digits, _) := span is_digit s in
  match digits with
  | [] => None
  | _ => Some (neg, digits, zlen blanks + signs + zlen digits)
  end.

(** The number a string of decimal digits spells, after [a]. *)
Definition digits_val (a : Z) (s : bytes) : Z := foldl (λ a d, a * 10 + (b2z d - 48)) a s.

(** [std::stoull]: a negative number is negated modulo [2^64]. *)
Definition stoull (s : bytes) : outcome (Z * Z) :=
  match read_number s with
  | None => Fault ThrowInvalidArgument
  | Some (neg, digits, n) =>
      let v := digits_val 0 digits in
      if 2 ^ 64 <=? v then Fault ThrowOutOfRange
      else Ret (if neg : bool then u64 (- v) else v, n)
  end.

(** A signed number of [w] bits: [std::stoll] and [std::stoi]. *)
Definition read_signed (w : Z) (s : bytes) : outcome (Z * Z) :=
  match read_number s with
  | None => Fault ThrowInvalidArgument
  | Some (neg, digits, n) =>
      let v := if neg : bool then - digits_val 0 digits else digits_val 0 digits in
      if (v <? - 2 ^ (w - 1)) || (2 ^ (w - 1) <=? v) then Fault ThrowOutOfRange else Ret (v, n)
  end.
Definition stoll := read_signed 64.
Definition stoi := read_signed 32.

(** ** Lemmas *)

Lemma digits_val_decimal fuel n acc :
  0 ≤ n < 10 ^ Z.of_nat fuel → digits_val 0 (decimal fuel n acc) = digits_val n acc.
Proof.
  revert n acc. induction fuel as [|fuel IH]; intros n acc Hn.
  { change (10 ^ Z.of_nat 0) with 1 in Hn. by replace n with 0 by lia. }
  cbn [decimal]. pose proof (Z.div_mod n 10 ltac:(lia)).
  pose proof (Z.mod_pos_bound n 10 ltac:(lia)). pose proof (Z.div_pos n 10 ltac:(lia) ltac:(lia)).
  assert (∀ a, digits_val a (z2b (48 + n mod 10) :: acc) = digits_val (a * 10 + n mod 10) acc) as Hstep.
  { intros a. cbn. rewrite b2z_z2b, (Z.mod_small (48 + _)) by lia. f_equal. lia. }
  destruct (Z.eqb_spec (n / 10) 0).
  - rewrite Hstep. f_equal. lia.
  - rewrite IH, Hstep; [f_equal; lia|]. split; [done|]. apply Z.div_lt_upper_bound; [lia|].
    rewrite Nat2Z.inj_succ, Z.pow_succ_r in Hn by lia. lia.
Qed.

Lemma decimal_length fuel n acc k :
  0 ≤ n < 10 ^ Z.of_nat k → (1 ≤ k)%nat → (length (decimal fuel n acc) ≤ k + length acc)%nat.
Proof.
  revert n acc k. induction fuel as [|fuel IH]; intros n acc k Hn Hk; cbn [decimal]; [lia|].
  destruct (Z.eqb_spec (n / 10) 0); [simpl; lia|].
  destruct k as [|[|k]]; [lia| |].
  { change (10 ^ Z.of_nat 1) with 10 in Hn. rewrite Z.div_small in *; lia. }
  etrans; [apply (IH (n / 10) _ (S k))|simpl; lia]; [|lia].
  pose proof (Z.div_pos n 10 ltac:(lia) ltac:(lia)). split; [done|].
  apply Z.div_lt_upper_bound; [lia|]. rewrite Nat2Z.inj_succ, Z.pow_succ_r in Hn by lia. lia.
Qed.

Lemma digits_val_zeros k s : digits_val 0 (replicate k (z2b 48) ++ s) = digits_val 0 s.
Proof. induction k as [|k IH]; [done|]. exact IH. Qed.


Lemma is_digit_z2b n : 0 ≤ n < 10 → is_digit (z2b (48 + n)) = true.
Proof. intros Hn. unfold is_digit. rewrite b2z_z2b, Z.mod_small by lia. zbool; lia. Qed.

Lemma is_digit_range c : is_digit c = true → 48 ≤ b2z c ≤ 57.
Proof. unfold is_digit. rewrite andb_true_iff, !Z.leb_le. done. Qed.

Lemma decimal_all_digits fuel n acc :
  Forall (λ c, is_digit c = true) acc → Forall (λ c, is_digit c = true) (decimal fuel n acc).
Proof.
  revert n acc. induction fuel as [|fuel IH]; intros n acc Hacc; [done|]. cbn [decimal].
  assert (Forall (λ c, is_digit c = true) (z2b (48 + n mod 10) :: acc)) as Hacc'.
  { constructor; [|done]. apply is_digit_z2b, Z.mod_pos_bound. lia. }
  destruct (n / 10 =? 0); [done|]. by apply IH.
Qed.

Lemma decimal_grows fuel n acc : (length acc ≤ length (decimal fuel n acc))%nat.
Proof.
  revert n acc. induction fuel as [|fuel IH]; intros n acc; [done|]. cbn [decimal].
  destruct (n / 10 =? 0); [simpl; lia|]. etrans; [|apply IH]. simpl. lia.
Qed.

Lemma decimal_not_nil fuel n : decimal (S fuel) n [] ≠ [].
Proof.
  cbn [decimal]. destruct (n / 10 =? 0); [done|].
  pose proof (decimal_grows fuel (n / 10) [z2b (48 + n mod 10)]) as Hg.
  intros He. rewrite He in Hg. simpl in Hg. lia.
Qed.

Lemma digits_val_app a s t : digits_val a (s ++ t) = digits_val (digits_val a s) t.
Proof. apply foldl_app. Qed.

Lemma digits_val_nonneg a s :
  0 ≤ a → Forall (λ c, is_digit c = true) s → a ≤ digits_val a s.
Proof.
  intros Ha Hs. revert a Ha. induction Hs as [|c s Hc _ IH]; intros a Ha; [done|].
  cbn [digits_val foldl]. apply is_digit_range in Hc. etrans; [|apply IH]; lia.
Qed.

Lemma digits_val_shift a s : digits_val a s = a * 10 ^ zlen s + digits_val 0 s.
Proof.
  revert a. induction s as [|c s IH]; intros a; [rewrite zlen_nil; cbn [digits_val foldl]; lia|].
  cbn [digits_val foldl].
  fold (digits_val (a * 10 + (b2z c - 48)) s). fold (digits_val (0 * 10 + (b2z c - 48)) s).
  rewrite IH, (IH (0 * 10 + _)), zlen_cons, Z.pow_add_r by (pose proof (zlen_nonneg s); lia). ring.
Qed.

Lemma digits_val_bound s : Forall (λ c, is_digit c = true) s → digits_val 0 s < 10 ^ zlen s.
Proof.
  induction 1 as [|c s Hc _ IH]; [done|]. apply is_digit_range in Hc. cbn [digits_val foldl].
  fold (digits_val (0 * 10 + (b2z c - 48)) s). pose proof (zlen_nonneg s).
  rewrite digits_val_shift, zlen_cons, Z.pow_add_r by lia. nia.
Qed.

(** Where a run of characters ends. *)
Definition stops (p : byte → bool) (s : bytes) : Prop :=
  match s with [] => True | c :: _ => p c = false end.

Lemma span_app p a s : Forall (λ c, p c = true) a → stops p s → span p (a ++ s) = (a, s).
Proof.
  induction 1 as [|c a Hc _ IH]; intros Hs; cbn [app span].
  - destruct s as [|c s]; [done|]. cbn in Hs. cbn. by rewrite Hs.
  - by rewrite Hc, IH.
Qed.

Lemma span_stops p s : stops p s → span p s = ([], s).
Proof. exact (span_app p [] s (Forall_nil_2 _)). Qed.

Lemma read_number_digits digits rest :
  Forall (λ c, is_digit c = true) digits → digits ≠ [] → stops is_digit rest →
  read_number (digits ++ rest) = Some (false, digits, zlen digits).
Proof.
  intros Hd Hne Hr. unfold read_number. destruct digits as [|c digits]; [done|].
  inversion Hd as [|?? Hc _]; subst. pose proof (is_digit_range c Hc).
  assert (is_space c = false) as Hs by (unfold is_space; zbool; (lia || done)).
  rewrite span_stops by done.
  cbn [app]. rewrite (proj2 (Z.eqb_neq _ 45)), (proj2 (Z.eqb_neq _ 43)) by lia.
  change (c :: digits ++ rest) with ((c :: digits) ++ rest). by rewrite span_app.
Qed.

Lemma read_number_minus digits rest :
  Forall (λ c, is_digit c = true) digits → digits ≠ [] → stops is_digit rest →
  read_number (z2b 45 :: digits ++ rest) = Some (true, digits, 1 + zlen digits).
Proof.
  intros Hd Hne Hr. unfold read_number.
  rewrite span_stops by done. rewrite b2z_z2b.
  change (45 mod 256 =? 45) with true. cbn iota. rewrite span_app by done. by destruct digits.
Qed.

Lemma print_u64_digits n : Forall (λ c, is_digit c = true) (print_u64 n).
Proof. by apply decimal_all_digits. Qed.
Lemma print_u64_val n : 0 ≤ n < 2 ^ 64 → digits_val 0 (print_u64 n) = n.
Proof. intros Hn. unfold print_u64. rewrite digits_val_decimal; [done|lia]. Qed.

Lemma stoull_print n rest :
  0 ≤ n < 2 ^ 64 → stops is_digit rest →
  stoull (print_u64 n ++ rest) = Ret (n, zlen (print_u64 n)).
Proof.
  intros Hn Hr. unfold stoull. rewrite read_number_digits, print_u64_val;
    [|done|apply print_u64_digits|apply decimal_not_nil|done].
  by rewrite (proj2 (Z.leb_gt _ _)) by lia.
Qed.

Lemma stoi_to_string n rest :
  - 2 ^ 31 ≤ n < 2 ^ 31 → stops is_digit rest →
  stoi (to_string n ++ rest) = Ret (n, zlen (to_string n)).
Proof.
  intros Hn Hr. unfold stoi, read_signed, to_string. destruct (Z.ltb_spec n 0).
  - cbn [app]. rewrite read_number_minus; [|by apply decimal_all_digits|apply decimal_not_nil|done].
    rewrite digits_val_decimal by lia. cbn [digits_val foldl].
    rewrite Z.opp_involutive, zlen_cons. zbool; try lia. done.
  - rewrite read_number_digits; [|by apply decimal_all_digits|apply decimal_not_nil|done].
    rewrite digits_val_decimal by lia. cbn [digits_val foldl]. zbool; try lia. done.
Qed.
