(* ===== verification/Double.v ===== *)
(** * Non-negative binary64 numbers, and how [printf] prints them

    What the code does with a [double]: it converts an integer, divides by an
    integer, compares with one and prints with [%.kf].  Every operation rounds
    to the nearest number of 53 significant bits, ties to even, as IEEE 754
    says; [printf] rounds the exact value to [k] decimals in the same way.  The
    numbers are far from the ends of the exponent range, which is not modelled. *)
From S2P Require Import Prelude Decimal.

(** The integer nearest to [n / d], the even one of two. *)
Definition rne (n d : Z) : Z :=
  let q := n / d in
  let r := n mod d in
  if 2 * r <? d then q else if d <? 2 * r then q + 1 else if Z.even q then q else q + 1.

(** [dbl_mant * 2 ^ dbl_expo] *)
Record double := mkDouble { dbl_mant : Z; dbl_expo : Z }.

(** The double nearest to [n / d]. *)
Definition dbl_round (n d : Z) : double :=
  if n =? 0 then mkDouble 0 0 else
  let scaled_n e := n * 2 ^ Z.max 0 (- e) in
  let scaled_d e := d * 2 ^ Z.max 0 e in
  let e0 := Z.log2 n - Z.log2 d - 52 in
  let e := if scaled_n e0 <? 2 ^ 52 * scaled_d e0 then e0 - 1 else e0 in
  mkDouble (rne (scaled_n e) (scaled_d e)) e.

(** [static_cast<double>(n)] *)
Definition dbl_of_Z (n : Z) : double := dbl_round n 1.
(** [x / d] and [x >= d] for an integer [d]. *)
Definition dbl_div (x : double) (d : Z) : double :=
  dbl_round (dbl_mant x * 2 ^ Z.max 0 (dbl_expo x)) (d * 2 ^ Z.max 0 (- dbl_expo x)).
Definition dbl_ge (x : double) (d : Z) : bool :=
  d * 2 ^ Z.max 0 (- dbl_expo x) <=? dbl_mant x * 2 ^ Z.max 0 (dbl_expo x).

(** The number [%.kf] prints, in units of [10 ^ - k], and its text. *)
Definition dbl_fixed (k : Z) (x : double) : Z :=
  rne (dbl_mant x * 10 ^ k * 2 ^ Z.max 0 (dbl_expo x)) (2 ^ Z.max 0 (- dbl_expo x)).
(** Zeros in front, up to [width] characters. *)
Definition pad0 (width : nat) (s : bytes) : bytes := replicate (width - length s) (z2b 48) ++ s.
Definition fixed_text (k : nat) (n : Z) : bytes :=
  print_u64 (n / 10 ^ Z.of_nat k) ++ [z2b 46] ++ pad0 k (print_u64 (n mod 10 ^ Z.of_nat k)).

(** ** Lemmas *)

Lemma rne_error n d : 0 < d → 2 * Z.abs (rne n d * d - n) ≤ d.
Proof.
  intros Hd. unfold rne. pose proof (Z.div_mod n d ltac:(lia)). pose proof (Z.mod_pos_bound n d Hd).
  destruct (Z.ltb_spec (2 * (n mod d)) d), (Z.ltb_spec d (2 * (n mod d))), (Z.even (n / d)); nia.
Qed.

Lemma rne_exact q d : 0 < d → rne (q * d) d = q.
Proof.
  intros Hd. unfold rne. rewrite Z.div_mul, Z.mod_mul by lia. rewrite (proj2 (Z.ltb_lt _ _)); lia.
Qed.

Lemma rne_scale n d c : 0 < d → 0 < c → rne (n * c) (d * c) = rne n d.
Proof.
  intros Hd Hc. unfold rne. rewrite Z.div_mul_cancel_r, Z.mul_mod_distr_r by lia.
  assert (∀ x y, (x * c <? y * c) = (x <? y)) as Hlt.
  { intros x y. destruct (Z.ltb_spec x y), (Z.ltb_spec (x * c) (y * c)); nia. }
  by rewrite !Z.mul_assoc, !Hlt.
Qed.

Lemma pow2_pos k : 0 ≤ k → 0 < 2 ^ k.
Proof. intros. apply Z.pow_pos_nonneg; lia. Qed.

Lemma dbl_round_zero d : dbl_round 0 d = mkDouble 0 0.
Proof. done. Qed.

(** Common factors do not matter. *)
Lemma dbl_round_scale n d k : 0 ≤ n → 0 < d → 0 ≤ k → dbl_round (n * 2 ^ k) (d * 2 ^ k) = dbl_round n d.
Proof.
  intros Hn Hd Hk. pose proof (pow2_pos k Hk). unfold dbl_round. cbv zeta.
  destruct (Z.eqb_spec n 0) as [->|Hne]; [done|]. rewrite (proj2 (Z.eqb_neq _ 0)) by nia.
  rewrite !Z.log2_mul_pow2 by lia.
  replace (k + Z.log2 n - (k + Z.log2 d) - 52) with (Z.log2 n - Z.log2 d - 52) by lia.
  set (e0 := Z.log2 n - Z.log2 d - 52).
  assert (∀ x a, x * 2 ^ k * 2 ^ a = x * 2 ^ a * 2 ^ k) as Hc by (intros; ring).
  rewrite (Hc n (Z.max 0 (- e0))), (Hc d (Z.max 0 e0)).
  assert ((n * 2 ^ Z.max 0 (- e0) * 2 ^ k <? 2 ^ 52 * (d * 2 ^ Z.max 0 e0 * 2 ^ k)) =
    (n * 2 ^ Z.max 0 (- e0) <? 2 ^ 52 * (d * 2 ^ Z.max 0 e0))) as ->.
  { apply eq_true_iff_eq. rewrite !Z.ltb_lt, Z.mul_assoc. symmetry. apply Z.mul_lt_mono_pos_r. done. }
  set (e := if _ <? _ then _ else _). f_equal. rewrite (Hc n (Z.max 0 (- e))), (Hc d (Z.max 0 e)). apply rne_scale; [|done].
  pose proof (pow2_pos (Z.max 0 e) ltac:(lia)). nia.
Qed.

(** A quotient below [2 ^ 52], as an integer over a power of two. *)
Lemma dbl_round_error n d :
  0 ≤ n → 0 < d → Z.log2 n ≤ Z.log2 d + 52 →
  let x := dbl_round n d in
  dbl_expo x ≤ 0 ∧ 0 ≤ dbl_mant x ∧
  2 * Z.abs (dbl_mant x * d - n * 2 ^ (- dbl_expo x)) ≤ d ∧
  (0 < n → 52 + Z.log2 d - Z.log2 n ≤ - dbl_expo x).
Proof.
  cbv zeta. intros Hn Hd Hlog. unfold dbl_round. destruct (Z.eqb_spec n 0) as [->|Hne].
  { cbn. split; [lia|]. split; [lia|]. split; [lia|lia]. }
  set (e0 := Z.log2 n - Z.log2 d - 52). cbv zeta. set (e := if _ <? _ then _ else _).
  assert (e ≤ e0) as He by (unfold e; destruct (_ <? _); lia).
  rewrite (Z.max_r 0 (- e)), (Z.max_l 0 e), Z.mul_1_r by lia. cbn [dbl_expo dbl_mant].
  pose proof (pow2_pos (- e) ltac:(lia)). split; [lia|].
  pose proof (rne_error (n * 2 ^ (- e)) d Hd) as Herr.
  split; [|split; [exact Herr|lia]].
  destruct (Z.le_gt_cases 0 (rne (n * 2 ^ (- e)) d)) as [|Hneg]; [done|].
  assert (0 ≤ n * 2 ^ (- e)) by nia. nia.
Qed.

Lemma dbl_of_Z_exact n :
  0 ≤ n < 2 ^ 53 → let x := dbl_of_Z n in dbl_expo x ≤ 0 ∧ dbl_mant x = n * 2 ^ (- dbl_expo x).
Proof.
  cbv zeta. intros Hn. unfold dbl_of_Z.
  destruct (dbl_round_error n 1) as (He & _ & Herr & _); [lia..| |].
  { change (Z.log2 1) with 0. destruct (decide (n = 0)) as [->|]; [done|].
    assert (Z.log2 n < 53); [|lia]. apply Z.log2_lt_pow2; lia. }
  split; [done|]. lia.
Qed.

(** Dividing an integer is rounding the quotient. *)
Lemma dbl_div_of_Z n d : 0 ≤ n < 2 ^ 53 → 0 < d → dbl_div (dbl_of_Z n) d = dbl_round n d.
Proof.
  intros Hn Hd. destruct (dbl_of_Z_exact n Hn) as [He Hm]. unfold dbl_div. rewrite Hm.
  rewrite (Z.max_l 0 (dbl_expo _)), (Z.max_r 0 (- dbl_expo _)) by lia.
  rewrite Z.mul_1_r. apply dbl_round_scale; lia.
Qed.

(** Three decimals of a quotient are the nearest number of thousandths. *)
Lemma dbl_fixed_quotient n d :
  0 ≤ n < 2 ^ 32 → 0 < d → 2 * Z.abs (dbl_fixed 3 (dbl_round n d) * d - 1000 * n) ≤ d.
Proof.
  intros Hn Hd. destruct (decide (n = 0)) as [->|Hne].
  { change (dbl_fixed 3 (dbl_round 0 d)) with 0. lia. }
  assert (Z.log2 n < 32) as Hlog by (apply Z.log2_lt_pow2; lia).
  pose proof (Z.log2_nonneg d). pose proof (Z.log2_spec d Hd) as [_ Hdlog].
  destruct (dbl_round_error n d) as (He & Hm & Herr & Hp); [lia..|].
  unfold dbl_fixed. set (m := dbl_mant _) in *. set (e := dbl_expo _) in *.
  specialize (Hp ltac:(lia)). rewrite (Z.max_l 0 e), (Z.max_r 0 (- e)), Z.mul_1_r by lia.
  set (P := 2 ^ (- e)) in *. assert (1000 * d < P) as HP.
  { apply Z.lt_le_trans with (2 ^ (20 + Z.log2 d)); [|apply Z.pow_le_mono_r; lia].
    rewrite Z.pow_succ_r in Hdlog by lia. rewrite Z.pow_add_r by lia. change (2 ^ 20) with 1048576. lia. }
  pose proof (rne_error (m * 10 ^ 3) P ltac:(lia)) as HN. set (N := rne _ _) in *.
  change (10 ^ 3) with 1000 in *. clearbody N m P. clear Hlog Hdlog Hp.
  assert (2 * Z.abs (N * d - 1000 * n) * P ≤ d * P + 1000 * d) as Hsum.
  { assert (2 * Z.abs (N * P * d - m * 1000 * d) ≤ P * d) as H1.
    { replace (N * P * d - m * 1000 * d) with ((N * P - m * 1000) * d) by ring.
      rewrite Z.abs_mul, (Z.abs_eq d) by lia. nia. }
    assert (2 * Z.abs (m * d * 1000 - n * P * 1000) ≤ d * 1000) as H2.
    { replace (m * d * 1000 - n * P * 1000) with ((m * d - n * P) * 1000) by ring. lia. }
    replace (2 * Z.abs (N * d - 1000 * n) * P) with (2 * Z.abs (N * P * d - n * P * 1000)); [lia|].
    replace (N * P * d - n * P * 1000) with ((N * d - 1000 * n) * P) by ring.
    rewrite Z.abs_mul, (Z.abs_eq P) by lia. ring. }
  nia.
Qed.

(** A dyadic quotient below [2 ^ 53] is exact. *)
Lemma dbl_round_dyadic n j :
  0 ≤ n < 2 ^ 53 → 0 ≤ j →
  let x := dbl_round n (2 ^ j) in dbl_expo x ≤ 0 ∧ dbl_mant x * 2 ^ j = n * 2 ^ (- dbl_expo x).
Proof.
  cbv zeta. intros Hn Hj. pose proof (pow2_pos j Hj).
  destruct (decide (n = 0)) as [->|Hne]; [split; cbn; lia|].
  assert (Z.log2 n < 53) as Hlog by (apply Z.log2_lt_pow2; lia).
  destruct (dbl_round_error n (2 ^ j)) as (He & Hm & Herr & Hp); [lia..| |].
  { rewrite Z.log2_pow2 by lia. lia. }
  split; [done|]. rewrite Z.log2_pow2 in Hp by lia. specialize (Hp ltac:(lia)).
  set (e := dbl_expo _) in *. set (m := dbl_mant _) in *.
  assert (2 ^ (- e) = 2 ^ (- e - j) * 2 ^ j) as E by (rewrite <-Z.pow_add_r by lia; f_equal; lia).
  rewrite E in *. set (k := 2 ^ (- e - j)) in *. clearbody k m.
  replace (m * 2 ^ j - n * (k * 2 ^ j)) with ((m - n * k) * 2 ^ j) in Herr by ring.
  rewrite Z.abs_mul, (Z.abs_eq (2 ^ j)) in Herr by lia. assert (m = n * k) as -> by nia. ring.
Qed.

Lemma dbl_div_dyadic n j k :
  0 ≤ n < 2 ^ 53 → 0 ≤ j → 0 ≤ k → dbl_div (dbl_round n (2 ^ j)) (2 ^ k) = dbl_round n (2 ^ (j + k)).
Proof.
  intros Hn Hj Hk. destruct (dbl_round_dyadic n j Hn Hj) as [He Hm].
  destruct (dbl_round_error n (2 ^ j)) as (_ & Hm0 & _); [lia|by apply pow2_pos| |].
  { rewrite Z.log2_pow2 by lia. destruct (decide (n = 0)) as [->|]; [cbn; lia|].
    assert (Z.log2 n < 53); [|lia]. apply Z.log2_lt_pow2; lia. }
  unfold dbl_div. set (e := dbl_expo _) in *. set (m := dbl_mant _) in *.
  rewrite (Z.max_l 0 e), (Z.max_r 0 (- e)), Z.mul_1_r by lia.
  pose proof (pow2_pos k Hk). pose proof (pow2_pos (- e) ltac:(lia)). pose proof (pow2_pos j Hj).
  rewrite <-(dbl_round_scale m _ j) by nia. rewrite Hm.
  replace (2 ^ k * 2 ^ (- e) * 2 ^ j) with (2 ^ (j + k) * 2 ^ (- e)) by (rewrite Z.pow_add_r by lia; ring).
  apply dbl_round_scale; [lia|apply pow2_pos; lia|lia].
Qed.

Lemma dbl_ge_dyadic n j c :
  0 ≤ n < 2 ^ 53 → 0 ≤ j → dbl_ge (dbl_round n (2 ^ j)) c = (c * 2 ^ j <=? n).
Proof.
  intros Hn Hj. destruct (dbl_round_dyadic n j Hn Hj) as [He Hm]. unfold dbl_ge.
  set (e := dbl_expo _) in *. set (m := dbl_mant _) in *.
  rewrite (Z.max_l 0 e), (Z.max_r 0 (- e)), Z.mul_1_r by lia.
  pose proof (pow2_pos (- e) ltac:(lia)). pose proof (pow2_pos j Hj).
  apply eq_true_iff_eq. rewrite !Z.leb_le. split; intros Hle; nia.
Qed.

Lemma dbl_fixed_dyadic k n j :
  0 ≤ n < 2 ^ 53 → 0 ≤ j → dbl_fixed k (dbl_round n (2 ^ j)) = rne (10 ^ k * n) (2 ^ j).
Proof.
  intros Hn Hj. destruct (dbl_round_dyadic n j Hn Hj) as [He Hm]. unfold dbl_fixed.
  set (e := dbl_expo _) in *. set (m := dbl_mant _) in *.
  rewrite (Z.max_l 0 e), (Z.max_r 0 (- e)), Z.mul_1_r by lia.
  pose proof (pow2_pos (- e) ltac:(lia)). pose proof (pow2_pos j Hj).
  rewrite <-(rne_scale (m * 10 ^ k) _ (2 ^ j)) by lia. rewrite <-(rne_scale (10 ^ k * n) _ (2 ^ (- e))) by lia.
  f_equal; [|ring]. replace (m * 10 ^ k * 2 ^ j) with (m * 2 ^ j * 10 ^ k) by ring. rewrite Hm. ring.
Qed.
