(* ===== verification/Slice.v ===== *)
(** * Slices (include/slice.h, utils/slice.cc)

    A [Slice] is a pointer and a size; here it is the bytes it views, and
    the operations that move its ends ([remove_prefix], [remove_suffix])
    return the new view.  The file models the comparisons, the prefix and
    suffix tests and the hexadecimal codec; it shows that [compare] is the
    total lexicographic order with equality [==], that the prefix and
    suffix tests decide the list relations, and that the codec round-trips
    and accepts exactly the even-length strings of hex digits. *)
From S2P Require Import Prelude.

(** ** The C library functions the code calls *)

(** The sign of [memcmp(a, b, n)]: the bytes compare as unsigned chars. *)
Fixpoint memcmp (n : nat) (a b : bytes) : Z :=
  match n, a, b with
  | S n, x :: a, y :: b =>
      if b2z x <? b2z y then -1
      else if b2z y <? b2z x then 1
      else memcmp n a b
  | _, _, _ => 0
  end.

(** [strlen] at a pointer: the run stops at the first NUL, and reading past
    the end of the object is out of bounds. *)
Fixpoint strlen (p : bytes) : outcome Z :=
  match p with
  | [] => Fault OutOfBounds
  | c :: p => if b2z c =? 0 then Ret 0 else n ← strlen p; Ret (1 + n)
  end.

(** ** class Slice *)

(** [Slice(const char *s)]: the bytes up to the terminator. *)
Definition Slice_of_cstr (s : bytes) : outcome bytes :=
  n ← strlen s; Ret (take (Z.to_nat n) s).

Definition Slice_empty (s : bytes) : bool := zlen s =? 0.

(** [operator[]], with its assertion. *)
Definition Slice_at (s : bytes) (n : Z) : outcome byte :=
  assert! n <? zlen s ;;
  match s !! Z.to_nat n with Some c => Ret c | None => Fault OutOfBounds end.

Definition Slice_remove_prefix (s : bytes) (n : Z) : outcome bytes :=
  assert! n <=? zlen s ;; Ret (drop (Z.to_nat n) s).

Definition Slice_remove_suffix (s : bytes) (n : Z) : outcome bytes :=
  assert! n <=? zlen s ;; Ret (take (Z.to_nat (zlen s - n)) s).

Definition Slice_starts_with (s x : bytes) : bool :=
  (zlen s >=? zlen x) && (memcmp (length x) s x =? 0).

Definition Slice_ends_with (s x : bytes) : bool :=
  (zlen s >=? zlen x) &&
  (memcmp (length x) (drop (Z.to_nat (zlen s - zlen x)) s) x =? 0).

(** [operator==] *)
Definition Slice_eqb (x y : bytes) : bool :=
  (zlen x =? zlen y) && (memcmp (length x) x y =? 0).

(** [operator!=] *)
Definition Slice_neqb (x y : bytes) : bool := negb (Slice_eqb x y).

Definition Slice_compare (s b : bytes) : Z :=
  let min_len := if zlen s <? zlen b then length s else length b in
  let r := memcmp min_len s b in
  if r =? 0 then
    if zlen s <? zlen b then -1
    else if zlen s >? zlen b then 1
    else r
  else r.

(** The loop of [difference_offset]: [off] runs to the first difference. *)
Fixpoint difference_offset_loop (off : Z) (len : nat) (a b : bytes) : Z :=
  match len, a, b with
  | S len, x :: a, y :: b =>
      if b2z x =? b2z y then difference_offset_loop (off + 1) len a b else off
  | _, _, _ => off
  end.

Definition Slice_difference_offset (s b : bytes) : Z :=
  let len := if zlen s <? zlen b then length s else length b in
  difference_offset_loop 0 len s b.

(** ** Hexadecimal strings *)

Definition toHex (v : Z) : byte :=
  if v <=? 9 then z2b (48 + v) else z2b (65 + v - 10).

(** [c] is a signed char; a lower-case digit is first made upper-case. *)
Definition fromHex (ch : byte) : Z :=
  let c := signed 8 (b2z ch) in
  let c := if (c >=? 97) && (c <=? 102) then c - 32 else c in
  if (c <? 48) || ((c >? 57) && ((c <? 65) || (c >? 70))) then -1
  else if c <=? 57 then c - 48
  else c - 65 + 10.

Definition Slice_ToString (hex : bool) (s : bytes) : bytes :=
  if hex then
    s ≫= λ c, [toHex (Z.shiftr (b2z c) 4); toHex (Z.land (b2z c) 15)]
  else s.

Fixpoint decode_hex_loop (s result : bytes) : bool * bytes :=
  match s with
  | c1 :: c2 :: s =>
      let h1 := fromHex c1 in
      if h1 <? 0 then (false, result) else
      let h2 := fromHex c2 in
      if h2 <? 0 then (false, result) else
      decode_hex_loop s (result ++ [z2b (Z.lor (Z.shiftl h1 4) h2)])
  | _ => (true, result)
  end.

(** [DecodeHex(result)]; [None] is the null pointer.  The second component
    is the string [*result] holds on return. *)
Definition Slice_DecodeHex (s : bytes) (result : option bytes) : bool * option bytes :=
  if negb (zlen s mod 2 =? 0) then (false, result) else
  match result with
  | None => (false, None)
  | Some _ => let '(ok, r) := decode_hex_loop s [] in (ok, Some r)
  end.

(** [Slice(parts, buf)]: the parts are appended to [buf], and the slice
    views all of [buf]. *)
Definition Slice_of_SliceParts (parts : list bytes) (buf : bytes) : bytes * bytes :=
  let buf := foldl (λ buf part, buf ++ part) buf parts in (buf, buf).

(** ** Comparison *)

(** The lexicographic order as one recursion: the specification. *)
Fixpoint lex_compare (a b : bytes) : Z :=
  match a, b with
  | [], [] => 0
  | [], _ :: _ => -1
  | _ :: _, [] => 1
  | x :: a, y :: b =>
      if b2z x <? b2z y then -1
      else if b2z y <? b2z x then 1
      else lex_compare a b
  end.

Lemma Slice_compare_cons x y a b :
  Slice_compare (x :: a) (y :: b) =
  if b2z x <? b2z y then -1 else if b2z y <? b2z x then 1 else Slice_compare a b.
Proof.
  unfold Slice_compare. rewrite !zlen_cons.
  replace (if 1 + zlen a <? 1 + zlen b then length (x :: a) else length (y :: b))
    with (S (if zlen a <? zlen b then length a else length b)) by (zbool; done || lia).
  cbn [memcmp]. rewrite !Z.gtb_ltb.
  destruct (b2z x <? b2z y) eqn:?, (b2z y <? b2z x) eqn:?; try done.
  replace (1 + zlen a <? 1 + zlen b) with (zlen a <? zlen b) by (zbool; done || lia).
  replace (1 + zlen b <? 1 + zlen a) with (zlen b <? zlen a) by (zbool; done || lia).
  done.
Qed.

Lemma Slice_compare_lex a b : Slice_compare a b = lex_compare a b.
Proof.
  revert b. induction a as [|x a IH]; intros [|y b].
  - done.
  - unfold Slice_compare. rewrite zlen_cons, zlen_nil. pose proof (zlen_nonneg b).
    by destruct (Z.ltb_spec 0 (1 + zlen b)); [|lia].
  - unfold Slice_compare. rewrite zlen_cons, zlen_nil, Z.gtb_ltb.
    pose proof (zlen_nonneg a).
    destruct (Z.ltb_spec (1 + zlen a) 0); [lia|].
    by destruct (Z.ltb_spec 0 (1 + zlen a)); [|lia].
  - by rewrite Slice_compare_cons, IH.
Qed.

Lemma lex_compare_range a b : lex_compare a b = -1 ∨ lex_compare a b = 0 ∨ lex_compare a b = 1.
Proof.
  revert b. induction a as [|x a IH]; intros [|y b]; simpl; auto.
  destruct (b2z x <? b2z y), (b2z y <? b2z x); auto.
Qed.

Lemma lex_compare_eq a b : lex_compare a b = 0 ↔ a = b.
Proof.
  revert b. induction a as [|x a IH]; intros [|y b]; simpl; try done.
  destruct (Z.ltb_spec (b2z x) (b2z y)); [split; [done|intros [= -> ->]; lia]|].
  destruct (Z.ltb_spec (b2z y) (b2z x)); [split; [done|intros [= -> ->]; lia]|].
  rewrite IH. split; [|by intros [= -> ->]].
  intros ->. f_equal. apply b2z_inj. lia.
Qed.

Lemma lex_compare_sym a b : lex_compare b a = - lex_compare a b.
Proof.
  revert b. induction a as [|x a IH]; intros [|y b]; simpl; try done.
  destruct (Z.ltb_spec (b2z x) (b2z y)), (Z.ltb_spec (b2z y) (b2z x));
    try done; lia.
Qed.

Lemma lex_compare_trans a b c :
  lex_compare a b ≤ 0 → lex_compare b c ≤ 0 → lex_compare a c ≤ 0.
Proof.
  revert b c. induction a as [|x a IH]; intros [|y b] [|z c]; simpl; try (lia || done).
  repeat match goal with
  | |- context [b2z ?p <? b2z ?q] => destruct (Z.ltb_spec (b2z p) (b2z q))
  end; try lia; eauto.
Qed.

(** A proper prefix sorts first. *)
Lemma lex_compare_app_nonpos a k : lex_compare a (a ++ k) ≤ 0.
Proof.
  induction a as [|x a IH]; simpl; [by destruct k|].
  rewrite Z.ltb_irrefl. done.
Qed.

(** A difference in heads of one length decides. *)
Lemma lex_compare_app_lt a b s t :
  length a = length b → lex_compare a b < 0 → lex_compare (a ++ s) (b ++ t) < 0.
Proof.
  revert b. induction a as [|x a IH]; intros [|y b]; simpl; try (done || lia).
  intros [= Hl]. destruct (b2z x <? b2z y); [done|]. destruct (b2z y <? b2z x); [done|]. by apply IH.
Qed.

Lemma lex_compare_lt_app_r a b k :
  lex_compare a b < 0 → ¬ a `prefix_of` b → lex_compare (a ++ k) b < 0.
Proof.
  revert b. induction a as [|x a IH]; intros [|y b]; simpl; try (done || lia).
  { intros _ []. apply prefix_nil. }
  destruct (Z.ltb_spec (b2z x) (b2z y)); [done|].
  destruct (Z.ltb_spec (b2z y) (b2z x)); [lia|].
  intros Hlt Hp. apply IH; [done|]. intros Hp'. apply Hp.
  assert (x = y) as -> by (apply b2z_inj; lia). by apply prefix_cons.
Qed.

Lemma memcmp_eq n a b :
  (n ≤ length a)%nat → (n ≤ length b)%nat → memcmp n a b = 0 ↔ take n a = take n b.
Proof.
  revert a b. induction n as [|n IH]; intros [|x a] [|y b] Ha Hb; simpl in *;
    try (done || lia).
  destruct (Z.ltb_spec (b2z x) (b2z y)); [split; [done|intros [= -> ?]; lia]|].
  destruct (Z.ltb_spec (b2z y) (b2z x)); [split; [done|intros [= -> ?]; lia]|].
  rewrite IH by lia. split; [|by intros [= -> ?]].
  intros ->. f_equal. apply b2z_inj. lia.
Qed.

Lemma Slice_eqb_eq x y : Slice_eqb x y = true ↔ x = y.
Proof.
  unfold Slice_eqb. rewrite andb_true_iff, !Z.eqb_eq. split.
  - intros [Hlen Hm]. unfold zlen in Hlen.
    rewrite memcmp_eq, !firstn_all2 in Hm by lia. done.
  - intros ->. split; [done|]. by apply memcmp_eq.
Qed.

Lemma Slice_starts_with_spec s x : Slice_starts_with s x = true ↔ x `prefix_of` s.
Proof.
  unfold Slice_starts_with. rewrite Z.geb_leb, andb_true_iff, Z.leb_le, Z.eqb_eq.
  unfold zlen. split.
  - intros [Hlen Hm]. rewrite memcmp_eq, (firstn_all2 x) in Hm by lia.
    exists (drop (length x) s). rewrite <-Hm at 1. by rewrite take_drop.
  - intros [k ->]. rewrite length_app. split; [lia|].
    apply memcmp_eq; [rewrite length_app; lia|done|].
    by rewrite take_app_length, firstn_all.
Qed.

Lemma Slice_ends_with_spec s x : Slice_ends_with s x = true ↔ x `suffix_of` s.
Proof.
  unfold Slice_ends_with. rewrite Z.geb_leb, andb_true_iff, Z.leb_le, Z.eqb_eq.
  unfold zlen. split.
  - intros [Hlen Hm].
    rewrite memcmp_eq, (firstn_all2 x), firstn_all2 in Hm
      by (rewrite ?length_drop; lia).
    exists (take (Z.to_nat (Z.of_nat (length s) - Z.of_nat (length x))) s).
    rewrite <-Hm at 2. by rewrite take_drop.
  - intros [k ->]. rewrite length_app. split; [lia|].
    replace (Z.to_nat _) with (length k) by lia. rewrite drop_app_length.
    by apply memcmp_eq.
Qed.

Lemma Slice_difference_offset_loop_spec a b off :
  let len := if zlen a <? zlen b then length a else length b in
  let d := Z.to_nat (difference_offset_loop off len a b - off) in
  off ≤ difference_offset_loop off len a b ∧
  (d ≤ length a)%nat ∧ (d ≤ length b)%nat ∧
  take d a = take d b ∧
  (∀ x y, a !! d = Some x → b !! d = Some y → x ≠ y).
Proof.
  cbv zeta. revert b off. induction a as [|x a IH]; intros [|y b] off.
  - simpl. rewrite Z.sub_diag. repeat split; lia || done.
  - assert ((if zlen (@nil byte) <? zlen (y :: b) then length (@nil byte)
             else length (y :: b)) = 0%nat) as -> by (zbool; [done|zlen]).
    simpl. rewrite Z.sub_diag. repeat split; simpl; lia || done.
  - assert ((if zlen (x :: a) <? zlen (@nil byte) then length (x :: a)
             else length (@nil byte)) = 0%nat) as -> by (zbool; [zlen|done]).
    simpl. rewrite Z.sub_diag. repeat split; simpl; lia || done.
  - assert ((if zlen (x :: a) <? zlen (y :: b) then length (x :: a)
             else length (y :: b)) =
            S (if zlen a <? zlen b then length a else length b)) as ->
      by (rewrite !zlen_cons; zbool; done || lia).
    cbn [difference_offset_loop]. destruct (Z.eqb_spec (b2z x) (b2z y)) as [Hxy|Hxy].
    + apply b2z_inj in Hxy as ->.
      destruct (IH b (off + 1)) as (Hle & Ha & Hb & Ht & Hd).
      set (o := difference_offset_loop (off + 1) _ a b) in *.
      replace (Z.to_nat (o - off)) with (S (Z.to_nat (o - (off + 1)))) by lia.
      simpl. repeat split; try lia; [by f_equal|done].
    + rewrite Z.sub_diag. simpl. repeat split; try lia.
      intros ? ? [= <-] [= <-] ->. done.
Qed.

(** What [compare] answers from the first byte where the slices differ. *)
Definition verdict_at (ox oy : option byte) : Z :=
  match ox, oy with
  | None, None => 0
  | None, Some _ => -1
  | Some _, None => 1
  | Some x, Some y => if b2z x <? b2z y then -1 else 1
  end.

Lemma lex_compare_verdict d a b :
  take d a = take d b → (d ≤ length a)%nat → (d ≤ length b)%nat →
  (∀ x y, a !! d = Some x → b !! d = Some y → x ≠ y) →
  lex_compare a b = verdict_at (a !! d) (b !! d).
Proof.
  revert a b. induction d as [|d IH]; intros [|x a] [|y b] Ht Ha Hb Hd;
    simpl in *; try (done || lia).
  - destruct (Z.ltb_spec (b2z x) (b2z y)); [done|].
    destruct (Z.ltb_spec (b2z y) (b2z x)); [done|].
    destruct (Hd x y); [done..|]. apply b2z_inj. lia.
  - injection Ht as -> Ht. rewrite Z.ltb_irrefl. apply IH; auto with lia.
Qed.

(** ** Hexadecimal codec *)

(** The characters [DecodeHex] accepts. *)
Definition is_hex_digit (c : byte) : bool :=
  let c := b2z c in
  ((48 <=? c) && (c <=? 57)) || ((65 <=? c) && (c <=? 70)) || ((97 <=? c) && (c <=? 102)).

Lemma fromHex_digit c : (fromHex c <? 0) = negb (is_hex_digit c).
Proof. by destruct c. Qed.
Lemma fromHex_hi b : fromHex (toHex (Z.shiftr (b2z b) 4)) = Z.shiftr (b2z b) 4.
Proof. by destruct b. Qed.
Lemma fromHex_lo b : fromHex (toHex (Z.land (b2z b) 15)) = Z.land (b2z b) 15.
Proof. by destruct b. Qed.
Lemma hex_nibbles b :
  z2b (Z.lor (Z.shiftl (Z.shiftr (b2z b) 4) 4) (Z.land (b2z b) 15)) = b.
Proof. by destruct b. Qed.

Lemma Slice_ToString_hex_cons b s :
  Slice_ToString true (b :: s) =
  toHex (Z.shiftr (b2z b) 4) :: toHex (Z.land (b2z b) 15) :: Slice_ToString true s.
Proof. done. Qed.

Lemma length_ToString_hex s : length (Slice_ToString true s) = (2 * length s)%nat.
Proof.
  induction s as [|b s IH]; [done|].
  rewrite Slice_ToString_hex_cons. cbn [length]. rewrite IH. lia.
Qed.

Lemma decode_hex_loop_ToString s acc :
  decode_hex_loop (Slice_ToString true s) acc = (true, acc ++ s).
Proof.
  revert acc. induction s as [|b s IH]; intros acc; [by rewrite app_nil_r|].
  rewrite Slice_ToString_hex_cons. cbn [decode_hex_loop].
  assert ((fromHex (toHex (Z.shiftr (b2z b) 4)) <? 0) = false) as -> by by destruct b.
  assert ((fromHex (toHex (Z.land (b2z b) 15)) <? 0) = false) as -> by by destruct b.
  by rewrite fromHex_hi, fromHex_lo, hex_nibbles, IH, <-app_assoc.
Qed.

(** Induction two characters at a time. *)
Lemma pairs_ind {A} (P : list A → Prop) :
  P [] → (∀ x, P [x]) → (∀ x y l, P l → P (x :: y :: l)) → ∀ l, P l.
Proof.
  intros H0 H1 H2 l. cut (P l ∧ ∀ x, P (x :: l)); [by intros []|].
  induction l as [|y l [IHl IHc]]; [auto|]. split; [auto|]. intros x. auto.
Qed.

Lemma decode_hex_loop_accepts s acc :
  Nat.even (length s) = true →
  (decode_hex_loop s acc).1 = forallb is_hex_digit s.
Proof.
  revert acc. induction s as [|c|c1 c2 s IH] using pairs_ind; intros acc; [done..|].
  intros He. cbn [decode_hex_loop forallb]. rewrite !fromHex_digit.
  destruct (is_hex_digit c1), (is_hex_digit c2); cbn [negb andb]; try done.
  by apply IH.
Qed.

Lemma even_zlen {A} (s : list A) : (zlen s mod 2 =? 0) = Nat.even (length s).
Proof.
  induction s as [|x|x y s IH] using pairs_ind; [done..|].
  cbn [length]. simpl Nat.even. rewrite <-IH, !zlen_cons.
  replace (1 + (1 + zlen s)) with (zlen s + 1 * 2) by lia. by rewrite Z.mod_add by lia.
Qed.

(** ** Properties *)

(** [Slice::compare] is a total order on byte strings whose equality is
    [operator==]: it answers 0 exactly on equal slices, swapping the operands
    negates the answer, and it is transitive. *)
Theorem Slice_compare_total_order a b c :
  (Slice_compare a b = 0 ↔ Slice_eqb a b = true) ∧
  (Slice_eqb a b = true ↔ a = b) ∧
  Slice_compare b a = - Slice_compare a b ∧
  (Slice_compare a b ≤ 0 ∧ Slice_compare b c ≤ 0 → Slice_compare a c ≤ 0).
Proof.
  rewrite !Slice_compare_lex, Slice_eqb_eq, lex_compare_eq.
  split_and!; [done..|apply lex_compare_sym|].
  intros []. by eapply lex_compare_trans.
Qed.

(** [difference_offset] finds the first place where two slices differ,
    and [compare] is the verdict at that place: a slice that ends there sorts
    first, otherwise the smaller unsigned byte does. *)
Lemma Slice_compare_at_difference a b :
  let d := Z.to_nat (Slice_difference_offset a b) in
  take d a = take d b ∧
  (∀ x y, a !! d = Some x → b !! d = Some y → x ≠ y) ∧
  Slice_compare a b = verdict_at (a !! d) (b !! d).
Proof.
  cbv zeta. rewrite Slice_compare_lex.
  destruct (Slice_difference_offset_loop_spec a b 0) as (_ & Ha & Hb & Ht & Hd).
  unfold Slice_difference_offset. rewrite Z.sub_0_r in *.
  split_and!; [done..|]. by apply lex_compare_verdict.
Qed.

(** The hexadecimal codec: decoding an encoded string gives it back, and
    [DecodeHex] succeeds exactly on the even-length strings of hex digits
    (of either case). *)
Theorem Slice_hex_codec s r :
  Slice_DecodeHex (Slice_ToString true s) (Some r) = (true, Some s) ∧
  (Slice_DecodeHex s (Some r)).1 = Nat.even (length s) && forallb is_hex_digit s.
Proof.
  unfold Slice_DecodeHex. rewrite !even_zlen. split.
  - rewrite length_ToString_hex, decode_hex_loop_ToString.
    assert (Nat.even (2 * length s) = true) as -> by (by rewrite Nat.even_mul).
    done.
  - destruct (Nat.even (length s)) eqn:He; [|done]. cbn [negb andb].
    rewrite <-(decode_hex_loop_accepts s []) by done.
    by destruct (decode_hex_loop s []).
Qed.
