(* ===== verification/Coding.v ===== *)
(** * Fixed-width and variable-length integer coding (utils/coding.h, utils/coding.cc)

    The [Encode...] functions write at a [char*] and return the pointer past
    the last byte written; here they return the bytes written, so that the
    returned pointer is their number.  The [Put...] functions append to a
    string.  The pointer-based [Get...Ptr] functions scan [p..limit-1]; here
    they take those bytes and return the value with the bytes left, [None]
    being the null pointer.  [GetLengthPrefixedSlice] can fail after it moved
    its input, so it returns its input too.

    Every function that the source writes twice, once for hosts with
    [port::kLittleEndian] and once without, is modelled with both branches
    over the [Platform] class; the theorems show that the encodings do not
    depend on it, that the codecs round-trip, that varints fit the buffers
    the code allocates, and what malformed input does. *)
From S2P Require Import Prelude Slice.

(** ** The host *)

Class Platform := kLittleEndian : bool.
Definition LittleEndianHost : Platform := true.
Definition BigEndianHost : Platform := false.

(** [memcpy] between an integer object and a buffer. *)
Definition host_bytes `{Platform} (n : nat) (v : Z) : bytes :=
  if kLittleEndian then le_bytes n v else reverse (le_bytes n v).
Definition host_val `{Platform} (l : bytes) : Z :=
  if kLittleEndian then le_val l else le_val (reverse l).

(** [shr_byte v k] is [(v >> k) & 0xff] stored into a char. *)
Definition shr_byte (v k : Z) : byte := z2b (Z.land (Z.shiftr v k) 255).

Section fixed.
Context `{Platform}.

Definition EncodeFixed16 (value : Z) : bytes :=
  if kLittleEndian then host_bytes 2 value
  else [z2b (Z.land value 255); shr_byte value 8].

Definition EncodeFixed32 (value : Z) : bytes :=
  if kLittleEndian then host_bytes 4 value
  else [z2b (Z.land value 255); shr_byte value 8; shr_byte value 16; shr_byte value 24].

Definition EncodeFixed64 (value : Z) : bytes :=
  if kLittleEndian then host_bytes 8 value
  else [z2b (Z.land value 255); shr_byte value 8; shr_byte value 16; shr_byte value 24;
        shr_byte value 32; shr_byte value 40; shr_byte value 48; shr_byte value 56].

(** The decoders read at [ptr] with no bounds check: the callers have one. *)
Definition DecodeFixed16 (ptr : bytes) : Z :=
  if kLittleEndian then host_val (take 2 ptr)
  else u16 (Z.lor (byte_at ptr 0) (Z.shiftl (byte_at ptr 1) 8)).

Definition DecodeFixed32 (ptr : bytes) : Z :=
  if kLittleEndian then host_val (take 4 ptr)
  else Z.lor (Z.lor (Z.lor (byte_at ptr 0)
         (u32 (Z.shiftl (byte_at ptr 1) 8)))
         (u32 (Z.shiftl (byte_at ptr 2) 16)))
         (u32 (Z.shiftl (byte_at ptr 3) 24)).

Definition DecodeFixed64 (ptr : bytes) : Z :=
  if kLittleEndian then host_val (take 8 ptr)
  else
    let lo := DecodeFixed32 ptr in
    let hi := DecodeFixed32 (drop 4 ptr) in
    Z.lor (u64 (Z.shiftl hi 32)) lo.

Definition PutFixed16 (dst : bytes) (value : Z) : bytes :=
  if kLittleEndian then dst ++ host_bytes 2 value else dst ++ EncodeFixed16 value.
Definition PutFixed32 (dst : bytes) (value : Z) : bytes :=
  if kLittleEndian then dst ++ host_bytes 4 value else dst ++ EncodeFixed32 value.
Definition PutFixed64 (dst : bytes) (value : Z) : bytes :=
  if kLittleEndian then dst ++ host_bytes 8 value else dst ++ EncodeFixed64 value.

Definition GetFixed64 (input : bytes) : option (Z * bytes) :=
  if zlen input <? 8 then None else Some (DecodeFixed64 input, drop 8 input).
Definition GetFixed32 (input : bytes) : option (Z * bytes) :=
  if zlen input <? 4 then None else Some (DecodeFixed32 input, drop 4 input).
Definition GetFixed16 (input : bytes) : option (Z * bytes) :=
  if zlen input <? 2 then None else Some (DecodeFixed16 input, drop 2 input).

(** [PutUnaligned] and [GetUnaligned] of a type of [n] bytes, as stores to and
    loads from the memory of the host. *)
Definition PutUnaligned (n : nat) (memory : bytes) (value : Z) : bytes :=
  host_bytes n value ++ drop n memory.
Definition GetUnaligned (n : nat) (memory : bytes) : Z := host_val (take n memory).
End fixed.

(** ** Varints *)

Definition kMaxVarint64Length : Z := 10.

(** The unrolled encoder of utils/coding.cc; a store keeps the low 8 bits. *)
Definition EncodeVarint32 (v : Z) : bytes :=
  let B := 128 in
  if v <? Z.shiftl 1 7 then [z2b v]
  else if v <? Z.shiftl 1 14 then [z2b (Z.lor v B); z2b (Z.shiftr v 7)]
  else if v <? Z.shiftl 1 21 then
    [z2b (Z.lor v B); z2b (Z.lor (Z.shiftr v 7) B); z2b (Z.shiftr v 14)]
  else if v <? Z.shiftl 1 28 then
    [z2b (Z.lor v B); z2b (Z.lor (Z.shiftr v 7) B); z2b (Z.lor (Z.shiftr v 14) B);
     z2b (Z.shiftr v 21)]
  else
    [z2b (Z.lor v B); z2b (Z.lor (Z.shiftr v 7) B); z2b (Z.lor (Z.shiftr v 14) B);
     z2b (Z.lor (Z.shiftr v 21) B); z2b (Z.shiftr v 28)].

(** The loop of [EncodeVarint64].  A 64-bit value goes through at most nine
    [v >>= 7] before it is below 128 ([EncodeVarint64_unfold]). *)
Fixpoint EncodeVarint64_loop (fuel : nat) (v : Z) : bytes :=
  match fuel with
  | O => []
  | S fuel =>
      let B := 128 in
      if v >=? B then
        z2b (Z.lor (Z.land v (B - 1)) B) :: EncodeVarint64_loop fuel (Z.shiftr v 7)
      else [z2b v]
  end.
Definition EncodeVarint64 (v : Z) : bytes := EncodeVarint64_loop 10 v.

Fixpoint VarintLength_loop (fuel : nat) (v len : Z) : Z :=
  match fuel with
  | O => len
  | S fuel =>
      if v >=? 128 then VarintLength_loop fuel (Z.shiftr v 7) (len + 1) else len
  end.
Definition VarintLength (v : Z) : Z := VarintLength_loop 10 v 1.

Definition PutVarint32 (dst : bytes) (v : Z) : bytes := dst ++ EncodeVarint32 v.
Definition PutVarint32Varint32 (dst : bytes) (v1 v2 : Z) : bytes :=
  dst ++ (EncodeVarint32 v1 ++ EncodeVarint32 v2).
Definition PutVarint32Varint32Varint32 (dst : bytes) (v1 v2 v3 : Z) : bytes :=
  dst ++ (EncodeVarint32 v1 ++ EncodeVarint32 v2 ++ EncodeVarint32 v3).
Definition PutVarint64 (dst : bytes) (v : Z) : bytes := dst ++ EncodeVarint64 v.
Definition PutVarint64Varint64 (dst : bytes) (v1 v2 : Z) : bytes :=
  dst ++ (EncodeVarint64 v1 ++ EncodeVarint64 v2).
Definition PutVarint32Varint64 (dst : bytes) (v1 v2 : Z) : bytes :=
  dst ++ (EncodeVarint32 v1 ++ EncodeVarint64 v2).
Definition PutVarint32Varint32Varint64 (dst : bytes) (v1 v2 v3 : Z) : bytes :=
  dst ++ (EncodeVarint32 v1 ++ EncodeVarint32 v2 ++ EncodeVarint64 v3).

(** The loop of the two parsers, which differ in the width [w] of [result]
    and in the last shift: [shift <= last && p < limit]. *)
Fixpoint GetVarint_loop (w last shift result : Z) (p : bytes) : option (Z * bytes) :=
  match p with
  | [] => None
  | b :: p =>
      if shift <=? last then
        let byte := b2z b in
        if negb (Z.land byte 128 =? 0) then
          (* more bytes are present *)
          GetVarint_loop w last (shift + 7)
            (Z.lor result (Z.shiftl (Z.land byte 127) shift mod 2 ^ w)) p
        else Some (Z.lor result (Z.shiftl byte shift mod 2 ^ w), p)
      else None
  end.

Definition GetVarint32PtrFallback (p : bytes) : option (Z * bytes) :=
  GetVarint_loop 32 28 0 0 p.

Definition GetVarint32Ptr (p : bytes) : option (Z * bytes) :=
  match p with
  | b :: p' =>
      let result := b2z b in
      if Z.land result 128 =? 0 then Some (result, p') else GetVarint32PtrFallback p
  | [] => GetVarint32PtrFallback p
  end.

Definition GetVarint64Ptr (p : bytes) : option (Z * bytes) :=
  GetVarint_loop 64 63 0 0 p.

Definition GetVarint32 (input : bytes) : option (Z * bytes) := GetVarint32Ptr input.
Definition GetVarint64 (input : bytes) : option (Z * bytes) := GetVarint64Ptr input.

(** ** Signed varints *)

(** [l >> 63] is an arithmetic shift. *)
Definition i64ToZigzag (l : Z) : Z :=
  Z.lxor (u64 (Z.shiftl (u64 l) 1)) (u64 (Z.shiftr l 63)).
Definition zigzagToI64 (n : Z) : Z :=
  signed 64 (Z.lxor (Z.shiftr n 1) (u64 (- Z.land n 1))).

Definition PutVarsignedint64 (dst : bytes) (v : Z) : bytes :=
  dst ++ EncodeVarint64 (i64ToZigzag v).

(** [*value] is stored on failure too, from [u = 0]. *)
Definition GetVarsignedint64Ptr (p : bytes) : Z * option bytes :=
  match GetVarint64Ptr p with
  | Some (u, q) => (zigzagToI64 u, Some q)
  | None => (zigzagToI64 0, None)
  end.
Definition GetVarsignedint64 (input : bytes) : bool * Z * bytes :=
  match GetVarsignedint64Ptr input with
  | (value, Some q) => (true, value, q)
  | (value, None) => (false, value, input)
  end.

(** ** Length-prefixed strings *)

Definition PutLengthPrefixedSlice (dst value : bytes) : bytes :=
  PutVarint32 dst (u32 (zlen value)) ++ value.

Definition PutLengthPrefixedSliceParts_total (dst : bytes) (total_bytes : Z)
    (parts : list bytes) : bytes :=
  let total_bytes := foldl (λ t part, u64 (t + zlen part)) total_bytes parts in
  foldl (λ dst part, dst ++ part) (PutVarint32 dst (u32 total_bytes)) parts.
Definition PutLengthPrefixedSliceParts (dst : bytes) (parts : list bytes) : bytes :=
  PutLengthPrefixedSliceParts_total dst 0 parts.
Definition PutLengthPrefixedSlicePartsWithPadding (dst : bytes) (parts : list bytes)
    (pad_sz : Z) : bytes :=
  PutLengthPrefixedSliceParts_total dst pad_sz parts ++ replicate (Z.to_nat pad_sz) NUL.

(** The result slice ([None]: false was returned) and what [*input] is then. *)
Definition GetLengthPrefixedSlice (input : bytes) : option bytes * bytes :=
  match GetVarint32 input with
  | Some (len, input) =>
      if zlen input >=? len then
        (Some (take (Z.to_nat len) input), drop (Z.to_nat len) input)
      else (None, input)
  | None => (None, input)
  end.

(** The overload on [const char*], for data that is assumed well-formed: the
    limit is [data + 5]; a null pointer gives no slice. *)
Definition GetLengthPrefixedSlice_data (data : bytes) : option bytes :=
  let limit := take 5 data in
  match GetVarint32Ptr limit with
  | Some (len, q) =>
      let p := drop (length limit - length q) data in
      Some (take (Z.to_nat len) p)
  | None => None
  end.

(** The scan of [GetSliceUntil]; [len] is a [uint32_t].  [None] is a scan that
    has not ended after [fuel] bytes. *)
Fixpoint until_loop (fuel : nat) (slice : bytes) (delimiter : byte) (len : Z) : option Z :=
  match fuel with
  | O => None
  | S fuel =>
      match slice !! Z.to_nat len with
      | Some c => if b2z c =? b2z delimiter then Some len
                  else until_loop fuel slice delimiter (u32 (len + 1))
      | None => Some len
      end
  end.

(** The slice up to the delimiter, and the input past it; [None] does not end. *)
Definition GetSliceUntil (slice : bytes) (delimiter : byte) : option (bytes * bytes) :=
  match until_loop (S (length slice)) slice delimiter 0 with
  | None => None
  | Some len =>
      let ret := take (Z.to_nat len) slice in
      Some (ret, drop (Z.to_nat (len + (if len <? zlen slice then 1 else 0))) slice)
  end.

(** ** Byte swapping *)

(** gcc's [__builtin_bswap16/32/64] on an [n]-byte word. *)
Definition builtin_bswap (n : nat) (v : Z) : Z := le_val (reverse (le_bytes n v)).

(** The portable loop of [EndianSwapValue] on a type of [n] bytes. *)
Definition EndianSwapValue_loop (n : nat) (v : Z) : Z :=
  foldl (λ ret i,
    Z.lor ret (Z.shiftl (Z.land (Z.shiftr v (8 * Z.of_nat i)) 255)
                        (8 * (Z.of_nat n - 1 - Z.of_nat i))))
    0 (seq 0 n).

Definition EndianSwapValue (n : nat) (v : Z) : Z :=
  if (n =? 2)%nat then builtin_bswap 2 (u16 v)
  else if (n =? 4)%nat then builtin_bswap 4 (u32 v)
  else if (n =? 8)%nat then builtin_bswap 8 (u64 v)
  else EndianSwapValue_loop n v.

(** ** Fixed-width lemmas *)

Lemma shr_byte_z2b v k : shr_byte v k = z2b (Z.shiftr v k).
Proof. apply z2b_mod_eq. by rewrite land_255, Z.mod_mod by lia. Qed.
Lemma z2b_land_255 v : z2b (Z.land v 255) = z2b v.
Proof. apply z2b_mod_eq. by rewrite land_255, Z.mod_mod by lia. Qed.

Section fixed_lemmas.
Context `{Platform}.

Lemma host_val_bytes n v : host_val (host_bytes n v) = v mod 2 ^ (8 * Z.of_nat n).
Proof.
  unfold host_val, host_bytes. destruct kLittleEndian;
    rewrite ?reverse_involutive; apply le_val_le_bytes.
Qed.

Lemma GetUnaligned_Put n memory v :
  GetUnaligned n (PutUnaligned n memory v) = v mod 2 ^ (8 * Z.of_nat n).
Proof.
  unfold GetUnaligned, PutUnaligned. rewrite take_zlen_app; [apply host_val_bytes|].
  unfold host_bytes. destruct kLittleEndian; zlen.
Qed.

Lemma EncodeFixed16_le v : EncodeFixed16 v = le_bytes 2 v.
Proof.
  unfold EncodeFixed16, host_bytes. destruct kLittleEndian; [done|].
  by rewrite !shr_byte_z2b, z2b_land_255.
Qed.
Lemma EncodeFixed32_le v : EncodeFixed32 v = le_bytes 4 v.
Proof.
  unfold EncodeFixed32, host_bytes. destruct kLittleEndian; [done|].
  cbn [le_bytes]. rewrite !shr_byte_z2b, z2b_land_255, !Z.shiftr_shiftr by lia. done.
Qed.
Lemma EncodeFixed64_le v : EncodeFixed64 v = le_bytes 8 v.
Proof.
  unfold EncodeFixed64, host_bytes. destruct kLittleEndian; [done|].
  cbn [le_bytes]. rewrite !shr_byte_z2b, z2b_land_255, !Z.shiftr_shiftr by lia. done.
Qed.

Lemma PutFixed16_le dst v : PutFixed16 dst v = dst ++ le_bytes 2 v.
Proof.
  unfold PutFixed16. rewrite EncodeFixed16_le. unfold host_bytes.
  by destruct kLittleEndian.
Qed.
Lemma PutFixed32_le dst v : PutFixed32 dst v = dst ++ le_bytes 4 v.
Proof.
  unfold PutFixed32. rewrite EncodeFixed32_le. unfold host_bytes.
  by destruct kLittleEndian.
Qed.
Lemma PutFixed64_le dst v : PutFixed64 dst v = dst ++ le_bytes 8 v.
Proof.
  unfold PutFixed64. rewrite EncodeFixed64_le. unfold host_bytes.
  by destruct kLittleEndian.
Qed.

(** The two branches of a decoder read the same bytes. *)
Lemma host_val_take_le n ptr :
  kLittleEndian = true → host_val (take n ptr) = le_val (take n ptr).
Proof. unfold host_val. by intros ->. Qed.

Lemma u32_shiftl_byte b k : 0 ≤ k ≤ 24 → u32 (Z.shiftl (b2z b) k) = b2z b * 2 ^ k.
Proof.
  intros Hk. pose proof (b2z_range b).
  rewrite shiftl_pow2 by lia. apply u32_small.
  assert (0 < 2 ^ k ≤ 2 ^ 24).
  { split; [by apply Z.pow_pos_nonneg; lia|by apply Z.pow_le_mono_r; lia]. }
  change (2 ^ 32) with (256 * 2 ^ 24). nia.
Qed.

Lemma DecodeFixed16_le ptr : 2 ≤ zlen ptr → DecodeFixed16 ptr = le_val (take 2 ptr).
Proof.
  intros Hlen. unfold DecodeFixed16, host_val. destruct kLittleEndian; [done|].
  destruct ptr as [|b0 [|b1 ptr]]; [zlen|zlen|].
  unfold byte_at. cbn [nth firstn le_val]. rewrite take_0. cbn [le_val].
  pose proof (b2z_range b0). pose proof (b2z_range b1).
  rewrite lor_shiftl_add by (change (2 ^ 8) with 256; lia).
  unfold u16. change (2 ^ 8) with 256. change (2 ^ 16) with 65536.
  rewrite Z.mod_small; lia.
Qed.

Lemma DecodeFixed32_le ptr : 4 ≤ zlen ptr → DecodeFixed32 ptr = le_val (take 4 ptr).
Proof.
  intros Hlen. unfold DecodeFixed32, host_val. destruct kLittleEndian; [done|].
  destruct ptr as [|b0 [|b1 [|b2 [|b3 ptr]]]]; try zlen.
  unfold byte_at. cbn [nth firstn le_val]. rewrite take_0. cbn [le_val].
  pose proof (b2z_range b0). pose proof (b2z_range b1).
  pose proof (b2z_range b2). pose proof (b2z_range b3).
  rewrite !u32_shiftl_byte, <-!shiftl_pow2 by lia.
  rewrite (lor_shiftl_add _ _ 8), (lor_shiftl_add _ _ 16), (lor_shiftl_add _ _ 24)
    by (change (2 ^ 8) with 256; change (2 ^ 16) with 65536;
        change (2 ^ 24) with 16777216; lia).
  change (2 ^ 8) with 256; change (2 ^ 16) with 65536; change (2 ^ 24) with 16777216. lia.
Qed.

Lemma le_val_app l k : le_val (l ++ k) = le_val l + 2 ^ (8 * zlen l) * le_val k.
Proof.
  induction l as [|b l IH]; [cbn [app le_val]; change (2 ^ (8 * zlen (@nil byte))) with 1; lia|].
  cbn [app le_val]. rewrite IH, zlen_cons.
  replace (8 * (1 + zlen l)) with (8 + 8 * zlen l) by lia.
  pose proof (zlen_nonneg l). rewrite Z.pow_add_r by lia. change (2 ^ 8) with 256. lia.
Qed.

Lemma take_drop_4 (l : bytes) : take 8 l = take 4 l ++ take 4 (drop 4 l).
Proof. change 8%nat with (4 + 4)%nat. by rewrite <-(take_take_drop l 4 4). Qed.

Lemma DecodeFixed64_le ptr : 8 ≤ zlen ptr → DecodeFixed64 ptr = le_val (take 8 ptr).
Proof.
  intros Hlen. unfold DecodeFixed64, host_val. destruct kLittleEndian eqn:He; [done|].
  rewrite !DecodeFixed32_le by zlen.
  rewrite take_drop_4, le_val_app.
  pose proof (le_val_range (take 4 ptr)) as H1.
  pose proof (le_val_range (take 4 (drop 4 ptr))) as H2.
  assert (zlen (take 4 ptr) = 4) as E1 by zlen.
  assert (zlen (take 4 (drop 4 ptr)) = 4) as E2 by zlen.
  rewrite E1 in *. rewrite E2 in *. change (8 * 4) with 32 in *.
  rewrite shiftl_pow2 by lia. rewrite u64_small by lia.
  rewrite <-shiftl_pow2, shiftl_lor_add by lia. lia.
Qed.

Lemma DecodeFixed64_app v rest : DecodeFixed64 (le_bytes 8 v ++ rest) = u64 v.
Proof.
  rewrite DecodeFixed64_le by zlen. rewrite take_zlen_app by zlen. apply le_val_le_bytes.
Qed.
Lemma DecodeFixed32_app v rest : DecodeFixed32 (le_bytes 4 v ++ rest) = u32 v.
Proof.
  rewrite DecodeFixed32_le by zlen. rewrite take_zlen_app by zlen. apply le_val_le_bytes.
Qed.
Lemma DecodeFixed16_app v rest : DecodeFixed16 (le_bytes 2 v ++ rest) = u16 v.
Proof.
  rewrite DecodeFixed16_le by zlen. rewrite take_zlen_app by zlen. apply le_val_le_bytes.
Qed.

Lemma DecodeFixed64_range ptr : 8 ≤ zlen ptr → 0 ≤ DecodeFixed64 ptr < 2 ^ 64.
Proof.
  intros Hlen. rewrite DecodeFixed64_le by done.
  pose proof (le_val_range (take 8 ptr)). assert (zlen (take 8 ptr) = 8) as E by zlen.
  rewrite E in *. done.
Qed.
End fixed_lemmas.

(** ** Varint lemmas *)

Lemma z2b_lor_128 v : z2b (Z.lor v 128) = z2b (v mod 128 + 128).
Proof.
  apply z2b_mod_eq. rewrite lor_128_mod. symmetry. apply Z.mod_small.
  pose proof (Z.mod_pos_bound v 128). lia.
Qed.
Lemma z2b_lor_land_128 v : z2b (Z.lor (Z.land v 127) 128) = z2b (v mod 128 + 128).
Proof. by rewrite z2b_lor_128, land_127, Z.mod_mod by lia. Qed.

Lemma pow2_7S n : 2 ^ (7 * Z.of_nat (S n)) = 128 * 2 ^ (7 * Z.of_nat n).
Proof.
  replace (7 * Z.of_nat (S n)) with (7 + 7 * Z.of_nat n) by lia.
  by rewrite Z.pow_add_r by lia.
Qed.

Lemma EncodeVarint64_loop_step f v :
  EncodeVarint64_loop (S f) v =
  if v <? 128 then [z2b v]
  else z2b (v mod 128 + 128) :: EncodeVarint64_loop f (v / 128).
Proof.
  cbn [EncodeVarint64_loop]. change (128 - 1) with 127.
  rewrite Z.geb_leb, Z.leb_antisym, z2b_lor_land_128, shiftr_pow2 by lia.
  by destruct (v <? 128).
Qed.

(** Any fuel that covers the bits of the value gives the same encoding. *)
Lemma EncodeVarint64_loop_fuel f g v :
  0 ≤ v < 2 ^ (7 * Z.of_nat (S f)) → 0 ≤ v < 2 ^ (7 * Z.of_nat (S g)) →
  EncodeVarint64_loop (S f) v = EncodeVarint64_loop (S g) v.
Proof.
  revert g v. induction f as [|f IH]; intros g v Hf Hg;
    rewrite !(EncodeVarint64_loop_step _ v); destruct (Z.ltb_spec v 128); try done.
  { change (2 ^ (7 * Z.of_nat 1)) with 128 in Hf. lia. }
  destruct g as [|g]; [change (2 ^ (7 * Z.of_nat 1)) with 128 in Hg; lia|].
  rewrite (IH g); [done|rewrite pow2_7S in Hf|rewrite pow2_7S in Hg];
    (split; [by apply Z.div_pos; lia|apply Z.div_lt_upper_bound; lia]).
Qed.

(** The loop equation: ten rounds are enough for a 64-bit value. *)
Lemma EncodeVarint64_unfold v :
  0 ≤ v < 2 ^ 64 →
  EncodeVarint64 v =
  if v <? 128 then [z2b v] else z2b (v mod 128 + 128) :: EncodeVarint64 (v / 128).
Proof.
  intros Hv. unfold EncodeVarint64 at 1. rewrite EncodeVarint64_loop_step.
  destruct (Z.ltb_spec v 128); [done|]. f_equal.
  assert (0 ≤ v / 128 < 2 ^ 57).
  { split; [apply Z.div_pos; lia|]. apply Z.div_lt_upper_bound; [lia|].
    change (128 * 2 ^ 57) with (2 ^ 64). lia. }
  apply EncodeVarint64_loop_fuel; (split; [lia|]);
    (apply Z.lt_le_trans with (2 ^ 57); [lia|]; by apply Z.pow_le_mono_r; lia).
Qed.

Lemma GetVarint_loop_cons w last shift result b p :
  shift ≤ last →
  GetVarint_loop w last shift result (b :: p) =
  if b2z b <? 128 then Some (Z.lor result (Z.shiftl (b2z b) shift mod 2 ^ w), p)
  else GetVarint_loop w last (shift + 7)
         (Z.lor result (Z.shiftl (b2z b mod 128) shift mod 2 ^ w)) p.
Proof.
  intros Hs. cbn [GetVarint_loop]. pose proof (b2z_range b).
  destruct (Z.leb_spec shift last); [|lia].
  rewrite land_128_byte, land_127 by done. by destruct (b2z b <? 128).
Qed.

(** Parsing what the encoder wrote, from the middle of a run on. *)
Lemma GetVarint_loop_encode w last f v k result rest :
  (∀ k, 0 ≤ k → 7 * k < w → 7 * k ≤ last) → 0 ≤ w →
  0 ≤ v < 2 ^ (7 * Z.of_nat (S f)) → 0 ≤ k → 7 * k ≤ last →
  0 ≤ result < 2 ^ (7 * k) → v * 2 ^ (7 * k) < 2 ^ w →
  GetVarint_loop w last (7 * k) result (EncodeVarint64_loop (S f) v ++ rest) =
  Some (result + v * 2 ^ (7 * k), rest).
Proof.
  intros Hlast Hw. revert v k result. induction f as [|f IH];
    intros v k result Hv Hk Hkl Hr Hvw; rewrite EncodeVarint64_loop_step;
    assert (0 < 2 ^ (7 * k)) by (apply Z.pow_pos_nonneg; lia);
    destruct (Z.ltb_spec v 128) as [Hs|Hs].
  1, 3: cbn [app]; rewrite GetVarint_loop_cons, b2z_z2b, Z.mod_small by lia;
    destruct (Z.ltb_spec v 128); [|lia];
    rewrite Z.mod_small by (rewrite shiftl_pow2 by lia; nia);
    by rewrite lor_shiftl_add by lia.
  { change (2 ^ (7 * Z.of_nat 1)) with 128 in Hv. lia. }
  pose proof (Z.mod_pos_bound v 128 ltac:(lia)).
  pose proof (Z.div_mod v 128 ltac:(lia)).
  assert (0 < v / 128) by (apply Z.div_str_pos; lia).
  cbn [app]. rewrite GetVarint_loop_cons, b2z_z2b, (Z.mod_small (_ + 128)) by lia.
  destruct (Z.ltb_spec (v mod 128 + 128) 128); [lia|].
  replace ((v mod 128 + 128) mod 128) with (v mod 128)
    by (rewrite <-(Z.mod_add _ 1) at 1 by lia; rewrite Z.mul_1_l, Z.add_mod_idemp_l; done || lia).
  rewrite (Z.mod_small (Z.shiftl _ _)) by (rewrite shiftl_pow2 by lia; nia).
  rewrite lor_shiftl_add by lia.
  replace (7 * k + 7) with (7 * (k + 1)) by lia.
  assert (2 ^ (7 * (k + 1)) = 128 * 2 ^ (7 * k)) as E.
  { replace (7 * (k + 1)) with (7 + 7 * k) by lia. by rewrite Z.pow_add_r by lia. }
  rewrite pow2_7S in Hv.
  set (q := v / 128) in *. set (r := v mod 128) in *. set (P := 2 ^ (7 * k)) in *.
  assert (q * (128 * P) + r * P = v * P) as Hqr by nia.
  assert (0 ≤ r * P ≤ 127 * P) as HrP by nia.
  assert (128 * P ≤ q * (128 * P)) as HqP by nia.
  rewrite IH.
  - rewrite E. do 2 f_equal. lia.
  - lia.
  - lia.
  - apply Hlast; [lia|]. apply (Z.pow_lt_mono_r_iff 2); [lia..|]. rewrite E. lia.
  - rewrite E. lia.
  - rewrite E. lia.
Qed.

(** The encoding of [v] from bit [n] on. *)
Lemma EncodeVarint64_shifted v n :
  0 ≤ v < 2 ^ 32 → 0 ≤ n →
  EncodeVarint64 (v / 2 ^ n) =
  if v <? 2 ^ (n + 7) then [z2b (v / 2 ^ n)]
  else z2b ((v / 2 ^ n) mod 128 + 128) :: EncodeVarint64 (v / 2 ^ (n + 7)).
Proof.
  intros Hv Hn. assert (0 < 2 ^ n) by (apply Z.pow_pos_nonneg; lia).
  rewrite EncodeVarint64_unfold.
  - rewrite Z.pow_add_r, Z.div_div by lia. change (2 ^ 7) with 128.
    replace (v / 2 ^ n <? 128) with (v <? 2 ^ n * 128); [done|].
    destruct (Z.ltb_spec v (2 ^ n * 128)); symmetry.
    + apply Z.ltb_lt. apply Z.div_lt_upper_bound; lia.
    + apply Z.ltb_ge. apply Z.div_le_lower_bound; lia.
  - split; [apply Z.div_pos; lia|].
    apply Z.le_lt_trans with v; [|lia]. apply Z.div_le_upper_bound; nia.
Qed.

(** The unrolled encoder is the loop. *)
Lemma EncodeVarint32_eq v : 0 ≤ v < 2 ^ 32 → EncodeVarint32 v = EncodeVarint64 v.
Proof.
  intros Hv. unfold EncodeVarint32.
  rewrite !z2b_lor_128, !shiftr_pow2, !shiftl_pow2, !Z.mul_1_l by lia.
  assert (v / 2 ^ 0 = v) as E0 by (by rewrite Z.div_1_r).
  rewrite <-(f_equal EncodeVarint64 E0).
  rewrite (EncodeVarint64_shifted v 0), E0 by lia.
  change (0 + 7) with 7. destruct (v <? 2 ^ 7); [done|].
  rewrite EncodeVarint64_shifted by lia.
  change (7 + 7) with 14. destruct (v <? 2 ^ 14); [done|].
  rewrite EncodeVarint64_shifted by lia.
  change (14 + 7) with 21. destruct (v <? 2 ^ 21); [done|].
  rewrite EncodeVarint64_shifted by lia.
  change (21 + 7) with 28. destruct (v <? 2 ^ 28); [done|].
  rewrite EncodeVarint64_shifted by lia.
  change (28 + 7) with 35. destruct (Z.ltb_spec v (2 ^ 35)); [done|lia].
Qed.

Lemma EncodeVarint64_not_nil v : EncodeVarint64 v ≠ [].
Proof. unfold EncodeVarint64. cbn [EncodeVarint64_loop]. by destruct (_ >=? _). Qed.

Lemma VarintLength_loop_step f v len :
  VarintLength_loop (S f) v len =
  if v <? 128 then len else VarintLength_loop f (v / 128) (len + 1).
Proof.
  cbn [VarintLength_loop]. rewrite Z.geb_leb, Z.leb_antisym, shiftr_pow2 by lia.
  by destruct (v <? 128).
Qed.

Lemma EncodeVarint64_loop_length f v :
  1 ≤ Z.of_nat f → 0 ≤ v < 2 ^ (7 * Z.of_nat f) →
  1 ≤ zlen (EncodeVarint64_loop f v) ≤ Z.of_nat f ∧
  VarintLength_loop f v 1 = zlen (EncodeVarint64_loop f v) ∧
  v < 2 ^ (7 * zlen (EncodeVarint64_loop f v)).
Proof.
  intros Hf. cut (∀ len, 0 ≤ v < 2 ^ (7 * Z.of_nat f) →
    1 ≤ zlen (EncodeVarint64_loop f v) ≤ Z.of_nat f ∧
    VarintLength_loop f v len = zlen (EncodeVarint64_loop f v) + len - 1 ∧
    v < 2 ^ (7 * zlen (EncodeVarint64_loop f v))).
  { intros H Hv. destruct (H 1 Hv) as (? & ? & ?). split_and!; lia. }
  revert v. destruct f as [|f]; [lia|]. clear Hf.
  induction f as [|f IH]; intros v len Hv;
    rewrite VarintLength_loop_step, EncodeVarint64_loop_step;
    destruct (Z.ltb_spec v 128);
    try (rewrite zlen_cons, zlen_nil; change (2 ^ (7 * (1 + 0))) with 128; lia).
  { change (2 ^ (7 * Z.of_nat 1)) with 128 in Hv. lia. }
  rewrite pow2_7S in Hv.
  destruct (IH (v / 128) (len + 1)) as (Hl & Hvl & Hb).
  { split; [apply Z.div_pos; lia|apply Z.div_lt_upper_bound; lia]. }
  rewrite zlen_cons. set (n := zlen _) in *. split_and!; [lia..|].
  replace (7 * (1 + n)) with (7 + 7 * n) by lia. rewrite Z.pow_add_r by lia.
  change (2 ^ 7) with 128. pose proof (Z.div_mod v 128). pose proof (Z.mod_pos_bound v 128). lia.
Qed.

(** The fast path of [GetVarint32Ptr] agrees with the general loop. *)
Lemma GetVarint32Ptr_fallback p : GetVarint32Ptr p = GetVarint32PtrFallback p.
Proof.
  destruct p as [|b p]; [done|]. unfold GetVarint32Ptr.
  pose proof (b2z_range b). rewrite land_128_byte by done.
  destruct (Z.ltb_spec (b2z b) 128); [|done].
  unfold GetVarint32PtrFallback. rewrite GetVarint_loop_cons by lia.
  destruct (Z.ltb_spec (b2z b) 128); [|lia].
  rewrite Z.shiftl_0_r, Z.mod_small, Z.lor_0_l by lia. done.
Qed.

Lemma GetVarint64Ptr_encode v rest :
  0 ≤ v < 2 ^ 64 → GetVarint64Ptr (EncodeVarint64 v ++ rest) = Some (v, rest).
Proof.
  intros Hv. unfold GetVarint64Ptr, EncodeVarint64. change 0 with (7 * 0) at 1.
  rewrite GetVarint_loop_encode; change (2 ^ (7 * 0)) with 1; try lia.
  by rewrite Z.mul_1_r.
Qed.

Lemma GetVarint32Ptr_encode v rest :
  0 ≤ v < 2 ^ 32 → GetVarint32Ptr (EncodeVarint32 v ++ rest) = Some (v, rest).
Proof.
  intros Hv. rewrite GetVarint32Ptr_fallback, EncodeVarint32_eq by done.
  unfold GetVarint32PtrFallback, EncodeVarint64. change 0 with (7 * 0) at 1.
  rewrite GetVarint_loop_encode; change (2 ^ (7 * 0)) with 1; try lia.
  by rewrite Z.mul_1_r.
Qed.

(** A run of the parser that returns consumed a prefix of the input, at most
    one byte per shift, and its value fits the word. *)
Lemma lor_bound a b n : 0 ≤ n → 0 ≤ a < 2 ^ n → 0 ≤ b < 2 ^ n → 0 ≤ Z.lor a b < 2 ^ n.
Proof.
  intros Hn Ha Hb.
  assert (Z.lor a b = Z.lor a b mod 2 ^ n) as ->; [|by apply Z.mod_pos_bound; lia].
  rewrite <-Z.land_ones, Z.land_lor_distr_l, !Z.land_ones, !Z.mod_small by lia. done.
Qed.

Lemma GetVarint_loop_consumes w last shift result p v q :
  0 ≤ w → 0 ≤ result < 2 ^ w →
  GetVarint_loop w last shift result p = Some (v, q) →
  0 ≤ v < 2 ^ w ∧
  ∃ used, p = used ++ q ∧ used ≠ [] ∧ shift + 7 * (zlen used - 1) ≤ last.
Proof.
  intros Hw. revert shift result. induction p as [|b p IH]; intros shift result Hr;
    cbn [GetVarint_loop]; [done|].
  destruct (Z.leb_spec shift last) as [Hs|]; [|done].
  assert (∀ x, 0 ≤ Z.lor result (x mod 2 ^ w) < 2 ^ w) as Hx.
  { intros x. apply lor_bound; [done..|]. apply Z.mod_pos_bound, Z.pow_pos_nonneg; lia. }
  destruct (negb _).
  - intros (? & used & -> & Hne & Hle)%IH; [|done]. split; [done|].
    exists (b :: used). rewrite zlen_cons. split_and!; [done..|lia].
  - intros [= <- <-]. split; [done|]. exists [b]. rewrite zlen_single.
    split_and!; [done..|lia].
Qed.

(** A byte of a varint with more bytes after it. *)
Definition has_more (b : byte) : bool := negb (Z.land (b2z b) 128 =? 0).

(** The parser gives up exactly when the bytes it may look at all announce
    another one. *)
Lemma GetVarint_loop_fails w last n k result p :
  0 ≤ k → (∀ j, 0 ≤ j → 7 * j ≤ last ↔ j < n) → k ≤ n →
  GetVarint_loop w last (7 * k) result p = None ↔
  forallb has_more (take (Z.to_nat (n - k)) p) = true.
Proof.
  intros Hk Hn. revert k result Hk. induction p as [|b p IH]; intros k result Hk Hkn.
  { by rewrite firstn_nil. }
  cbn [GetVarint_loop]. pose proof (Hn k Hk).
  destruct (Z.leb_spec (7 * k) last).
  - replace (Z.to_nat (n - k)) with (S (Z.to_nat (n - (k + 1)))) by lia.
    cbn [firstn forallb]. unfold has_more at 1.
    destruct (negb _); [|by split].
    replace (7 * k + 7) with (7 * (k + 1)) by lia. apply IH; lia.
  - replace (Z.to_nat (n - k)) with 0%nat by lia. by rewrite take_0.
Qed.

(** ** Zigzag *)

Lemma zigzag_nonneg l : 0 ≤ l < 2 ^ 63 → i64ToZigzag l = 2 * l.
Proof.
  intros Hl. unfold i64ToZigzag. rewrite (u64_small l) by lia.
  rewrite !shiftl_pow2, shiftr_pow2 by lia.
  rewrite (Z.div_small l) by lia. change (u64 0) with 0.
  rewrite Z.lxor_0_r, u64_small by lia. lia.
Qed.

Lemma lxor_ones_64 x : 0 ≤ x < 2 ^ 64 → Z.lxor x (2 ^ 64 - 1) = 2 ^ 64 - 1 - x.
Proof.
  intros Hx. change (2 ^ 64 - 1) with (Z.ones 64).
  assert (Z.lxor x (Z.ones 64) = Z.land (Z.lnot x) (Z.ones 64)) as ->.
  { apply Z.bits_inj'. intros i Hi. rewrite Z.lxor_spec, Z.land_spec, Z.lnot_spec by lia.
    rewrite Z.testbit_ones_nonneg by lia.
    destruct (Z.ltb_spec i 64); [by destruct (Z.testbit x i)|].
    rewrite andb_false_r, xorb_false_r.
    destruct (decide (x = 0)) as [->|]; [apply Z.bits_0|].
    apply Z.bits_above_log2; [lia|]. apply Z.lt_le_trans with 64; [|lia].
    apply Z.log2_lt_pow2; lia. }
  rewrite Z.land_ones by lia. unfold Z.lnot. rewrite <-Z.sub_1_r.
  change (Z.ones 64) with (2 ^ 64 - 1).
  rewrite <-(Z.mod_add _ 1), Z.mod_small by lia. lia.
Qed.

Lemma zigzag_neg l : - 2 ^ 63 ≤ l < 0 → i64ToZigzag l = - 2 * l - 1.
Proof.
  intros Hl. unfold i64ToZigzag. rewrite !shiftl_pow2, shiftr_pow2 by lia.
  assert (l / 2 ^ 63 = -1) as -> by (symmetry; apply (Z.div_unique_pos _ _ _ (l + 2 ^ 63)); lia).
  change (u64 (-1)) with (2 ^ 64 - 1).
  rewrite lxor_ones_64 by apply u64_range.
  assert (u64 (u64 l * 2 ^ 1) = 2 ^ 64 + 2 * l) as ->; [|lia].
  unfold u64. rewrite Z.mul_mod_idemp_l by lia.
  rewrite <-(Z.mod_add _ 1), Z.mod_small by lia. lia.
Qed.

Lemma zigzag_range l : - 2 ^ 63 ≤ l < 2 ^ 63 → 0 ≤ i64ToZigzag l < 2 ^ 64.
Proof.
  intros Hl. destruct (decide (0 ≤ l)).
  - rewrite zigzag_nonneg by lia. lia.
  - rewrite zigzag_neg by lia. lia.
Qed.

Lemma signed_64_id l : - 2 ^ 63 ≤ l < 2 ^ 63 → signed 64 l = l.
Proof.
  intros Hl. unfold signed. change (2 ^ (64 - 1)) with (2 ^ 63).
  destruct (decide (0 ≤ l)).
  - rewrite Z.mod_small by lia. destruct (Z.ltb_spec l (2 ^ 63)); lia.
  - rewrite <-(Z.mod_add _ 1), Z.mod_small by lia.
    destruct (Z.ltb_spec (l + 1 * 2 ^ 64) (2 ^ 63)); lia.
Qed.

Lemma zigzagToI64_even n : 0 ≤ n < 2 ^ 63 → zigzagToI64 (2 * n) = n.
Proof.
  intros Hn. unfold zigzagToI64.
  rewrite land_1, shiftr_pow2 by lia.
  change (2 ^ 1) with 2. rewrite Z.mul_comm, Z.mod_mul, Z.div_mul by lia.
  change (u64 (- 0)) with 0. rewrite Z.lxor_0_r. apply signed_64_id. lia.
Qed.

Lemma zigzagToI64_odd n : 0 ≤ n < 2 ^ 63 → zigzagToI64 (2 * n + 1) = - n - 1.
Proof.
  intros Hn. unfold zigzagToI64.
  rewrite land_1, shiftr_pow2 by lia.
  change (2 ^ 1) with 2.
  replace (2 * n + 1) with (1 + n * 2) by lia.
  rewrite Z.mod_add, Z.div_add by lia. change (1 mod 2) with 1. change (1 / 2) with 0.
  change (u64 (- (1))) with (2 ^ 64 - 1). rewrite lxor_ones_64 by lia.
  unfold signed. change (2 ^ (64 - 1)) with (2 ^ 63).
  rewrite Z.mod_small by lia. destruct (Z.ltb_spec (2 ^ 64 - 1 - (0 + n)) (2 ^ 63)); lia.
Qed.

Lemma zigzag_roundtrip l : - 2 ^ 63 ≤ l < 2 ^ 63 → zigzagToI64 (i64ToZigzag l) = l.
Proof.
  intros Hl. destruct (decide (0 ≤ l)).
  - rewrite zigzag_nonneg by lia. apply zigzagToI64_even. lia.
  - rewrite zigzag_neg by lia. replace (-2 * l - 1) with (2 * (- l - 1) + 1) by lia.
    rewrite zigzagToI64_odd by lia. lia.
Qed.

(** ** Length-prefixed strings *)

Lemma foldl_app_concat (dst : bytes) parts :
  foldl (λ dst part, dst ++ part) dst parts = dst ++ concat parts.
Proof.
  revert dst. induction parts as [|part parts IH]; intros dst; simpl;
    [by rewrite app_nil_r|]. by rewrite IH, <-app_assoc.
Qed.

Lemma foldl_u64_total total (parts : list bytes) :
  0 ≤ total → total + zlen (concat parts) < 2 ^ 64 →
  foldl (λ t part, u64 (t + zlen part)) total parts = total + zlen (concat parts).
Proof.
  revert total. induction parts as [|part parts IH]; intros total Ht Hlt; simpl in *.
  { rewrite zlen_nil. lia. }
  rewrite zlen_app in Hlt |- *.
  pose proof (zlen_nonneg part). pose proof (zlen_nonneg (concat parts)).
  rewrite u64_small by lia. rewrite IH; lia.
Qed.

Lemma GetVarint32_encode v rest :
  0 ≤ v < 2 ^ 32 → GetVarint32 (EncodeVarint32 v ++ rest) = Some (v, rest).
Proof. apply GetVarint32Ptr_encode. Qed.

Lemma EncodeVarint32_length v :
  0 ≤ v < 2 ^ 32 → 1 ≤ zlen (EncodeVarint32 v) ≤ 5 ∧ VarintLength v = zlen (EncodeVarint32 v).
Proof.
  intros Hv. rewrite EncodeVarint32_eq by done.
  destruct (EncodeVarint64_loop_length 10 v) as (? & HV & _); [lia..|].
  unfold EncodeVarint64, VarintLength in *. split; [|done]. split; [lia|].
  rewrite (EncodeVarint64_loop_fuel 9 4) by lia.
  destruct (EncodeVarint64_loop_length 5 v); lia.
Qed.

Lemma take_5_prefixed v k :
  0 ≤ v < 2 ^ 32 →
  ∃ q, take 5 (EncodeVarint32 v ++ k) = EncodeVarint32 v ++ q ∧
       q = take (5 - length (EncodeVarint32 v)) k.
Proof.
  intros Hv. destruct (EncodeVarint32_length v Hv) as [Hl _]. unfold zlen in Hl.
  eexists. split; [|done]. rewrite take_app, firstn_all2 by lia. done.
Qed.

(** The bytes before the first delimiter. *)
Fixpoint until_length (delimiter : byte) (s : bytes) : nat :=
  match s with
  | [] => O
  | c :: s => if b2z c =? b2z delimiter then O else S (until_length delimiter s)
  end.

Lemma until_length_lookup d slice i :
  (i ≤ until_length d slice)%nat →
  match slice !! i with Some c => i = until_length d slice ↔ c = d | None => i = until_length d slice end.
Proof.
  revert i. induction slice as [|c slice IH]; intros i; cbn [until_length]; [rewrite lookup_nil; lia|].
  destruct (Z.eqb_spec (b2z c) (b2z d)) as [Hc|Hc].
  - intros Hi. replace i with O by lia. apply b2z_inj in Hc. cbn. done.
  - destruct i as [|i]; intros Hi; cbn; [by split; [|intros ->]|].
    specialize (IH i ltac:(lia)). destruct (slice !! i); [rewrite <-IH; lia|by rewrite IH].
Qed.

(** The scan ends at the first delimiter or the end of the slice, if that is
    below 2^32; otherwise its counter wraps around and it never ends. *)
Lemma until_loop_spec d slice fuel (i : nat) :
  (i ≤ until_length d slice)%nat → Z.of_nat i < 2 ^ 32 →
  until_loop fuel slice d (Z.of_nat i) =
  if (Z.of_nat (until_length d slice) <? 2 ^ 32) && (until_length d slice - i <? fuel)%nat
  then Some (Z.of_nat (until_length d slice)) else None.
Proof.
  revert i. induction fuel as [|fuel IH]; intros i Hi Hi32; [by rewrite andb_false_r|].
  cbn [until_loop]. rewrite Nat2Z.id. pose proof (until_length_lookup d slice i Hi) as Hl.
  destruct (decide (i = until_length d slice)) as [E|E].
  - rewrite <-E, Nat.sub_diag. rewrite (proj2 (Z.ltb_lt _ _)) by done. cbn.
    destruct (slice !! i) as [c|]; [|done]. by rewrite (proj1 Hl E), Z.eqb_refl.
  - destruct (slice !! i) as [c|]; [|done]. rewrite (proj2 (Z.eqb_neq _ _)).
    2:{ intros Hc%b2z_inj. by apply E, Hl. }
    destruct (decide (Z.of_nat (S i) < 2 ^ 32)) as [H32|H32].
    + replace (u32 (Z.of_nat i + 1)) with (Z.of_nat (S i)) by (rewrite u32_small by lia; lia).
      rewrite IH by lia. destruct (_ <? 2 ^ 32) eqn:E32; [|done]. cbn [andb].
      destruct (Nat.ltb_spec (until_length d slice - S i) fuel), (Nat.ltb_spec (until_length d slice - i) (S fuel));
        done || lia.
    + replace (Z.of_nat i + 1) with (2 ^ 32) by lia. change (u32 (2 ^ 32)) with (Z.of_nat 0).
      rewrite IH by lia. rewrite (proj2 (Z.ltb_ge _ _)) by lia. done.
Qed.

Lemma until_length_bound d slice : (until_length d slice ≤ length slice)%nat.
Proof. induction slice as [|c slice IH]; cbn [until_length length]; [lia|]. destruct (_ =? _); lia. Qed.

Lemma GetSliceUntil_spec slice d :
  (zlen slice < 2 ^ 32 → ∃ ret rest, GetSliceUntil slice d = Some (ret, rest) ∧
     (d ∉ ret) ∧ (slice = ret ++ (d :: rest) ∨ slice = ret ∧ rest = [])) ∧
  (2 ^ 32 ≤ Z.of_nat (until_length d slice) →
     GetSliceUntil slice d = None ∧ ∀ fuel, until_loop fuel slice d 0 = None).
Proof.
  pose proof (until_length_bound d slice). unfold GetSliceUntil. split; intros Hz.
  - change 0 with (Z.of_nat 0) at 1. rewrite until_loop_spec, Nat.sub_0_r by lia.
    rewrite (proj2 (Z.ltb_lt _ _)), (proj2 (Nat.ltb_lt _ _)) by (unfold zlen in Hz; lia). cbn [andb].
    eexists _, _. split; [reflexivity|]. rewrite Nat2Z.id. clear.
    replace (Z.to_nat (Z.of_nat (until_length d slice) + (if Z.of_nat (until_length d slice) <? zlen slice then 1 else 0)))
      with (until_length d slice + (if (until_length d slice <? length slice)%nat then 1 else 0))%nat.
    2:{ unfold zlen. destruct (Z.ltb_spec (Z.of_nat (until_length d slice)) (Z.of_nat (length slice))),
          (Nat.ltb_spec (until_length d slice) (length slice)); lia. }
    induction slice as [|c slice IH]; simpl.
    { split; [apply not_elem_of_nil|by right]. }
    destruct (Z.eqb_spec (b2z c) (b2z d)) as [Hc|Hc].
    + apply b2z_inj in Hc as ->. simpl. split; [apply not_elem_of_nil|].
      left. by rewrite drop_0.
    + cbn [firstn]. destruct IH as [Hnot Hsplit]. split.
      { apply not_elem_of_cons. split; [|done]. by intros ->. }
      replace (S (until_length d slice) <? S (length slice))%nat
        with (until_length d slice <? length slice)%nat by done.
      cbn [plus skipn]. destruct Hsplit as [Hs|[Hs Hd]]; [left|right]; simpl; by rewrite <-?Hs.
  - assert (∀ fuel, until_loop fuel slice d 0 = None) as Hn.
    { intros fuel. change 0 with (Z.of_nat 0). rewrite until_loop_spec by lia.
      by rewrite (proj2 (Z.ltb_ge _ _)) by lia. }
    by rewrite Hn.
Qed.

(** ** Byte swapping *)

Lemma le_bytes_snoc n v :
  le_bytes (S n) v = le_bytes n v ++ [z2b (Z.shiftr v (8 * Z.of_nat n))].
Proof.
  revert v. induction n as [|n IH]; intros v; [done|].
  rewrite (le_bytes_cons (S n)), (IH (Z.shiftr v 8)), (le_bytes_cons n v), Z.shiftr_shiftr by lia.
  replace (8 * Z.of_nat (S n)) with (8 + 8 * Z.of_nat n) by lia. done.
Qed.

Lemma EndianSwapValue_loop_prefix n i v :
  (i ≤ n)%nat →
  foldl (λ ret i, Z.lor ret (Z.shiftl (Z.land (Z.shiftr v (8 * Z.of_nat i)) 255)
                               (8 * (Z.of_nat n - 1 - Z.of_nat i)))) 0 (seq 0 i) =
  le_val (reverse (le_bytes i v)) * 2 ^ (8 * (Z.of_nat n - Z.of_nat i)).
Proof.
  induction i as [|i IH]; intros Hi; [done|].
  rewrite seq_S, foldl_app, IH, le_bytes_snoc, reverse_app by lia.
  cbn [foldl reverse rev_append app le_val plus].
  rewrite b2z_z2b, land_255, (shiftl_pow2 (_ mod 256)) by lia.
  set (t := _ mod 256). set (A := le_val _).
  assert (0 ≤ t < 256) by (apply Z.mod_pos_bound; lia).
  replace (8 * (Z.of_nat n - Z.of_nat i)) with (8 + 8 * (Z.of_nat n - 1 - Z.of_nat i)) by lia.
  replace (8 * (Z.of_nat n - Z.of_nat (S i))) with (8 * (Z.of_nat n - 1 - Z.of_nat i)) by lia.
  set (e := 8 * (Z.of_nat n - 1 - Z.of_nat i)).
  assert (0 < 2 ^ e) by (apply Z.pow_pos_nonneg; lia).
  assert (2 ^ (8 + e) = 256 * 2 ^ e) as E by (by rewrite Z.pow_add_r by lia).
  rewrite <-(shiftl_pow2 A (8 + e)) by lia.
  rewrite shiftl_lor_add; [rewrite E; lia|lia|rewrite E; nia].
Qed.

(** The portable loop computes the builtin, for every width. *)
Lemma EndianSwapValue_loop_bswap n v : EndianSwapValue_loop n v = builtin_bswap n v.
Proof.
  unfold EndianSwapValue_loop, builtin_bswap.
  by rewrite EndianSwapValue_loop_prefix, Z.sub_diag, Z.mul_1_r by lia.
Qed.

Lemma builtin_bswap_involutive n v :
  builtin_bswap n (builtin_bswap n v) = v mod 2 ^ (8 * Z.of_nat n).
Proof.
  unfold builtin_bswap.
  assert (∀ l, length l = n → le_bytes n (le_val l) = l) as E.
  { intros l <-. apply le_bytes_le_val. }
  rewrite E by (by rewrite length_reverse, length_le_bytes).
  by rewrite reverse_involutive, le_val_le_bytes.
Qed.

(** ** Properties *)

(** The fixed-width encodings do not depend on the byte order of the
    host, and a value written on one host is read back on any other, wherever
    it is followed by more data. *)
Theorem fixed_coding_portable (P1 P2 : Platform) dst v rest :
  @PutFixed64 P1 dst v = @PutFixed64 P2 dst v ∧
  @PutFixed32 P1 dst v = @PutFixed32 P2 dst v ∧
  @PutFixed16 P1 dst v = @PutFixed16 P2 dst v ∧
  @PutFixed64 P1 dst v = dst ++ @EncodeFixed64 P2 v ∧
  @GetFixed64 P2 (@PutFixed64 P1 [] v ++ rest) = Some (u64 v, rest) ∧
  @GetFixed32 P2 (@PutFixed32 P1 [] v ++ rest) = Some (u32 v, rest) ∧
  @GetFixed16 P2 (@PutFixed16 P1 [] v ++ rest) = Some (u16 v, rest).
Proof.
  rewrite !PutFixed64_le, !PutFixed32_le, !PutFixed16_le, EncodeFixed64_le.
  unfold GetFixed64, GetFixed32, GetFixed16. cbn [app].
  rewrite DecodeFixed64_app, DecodeFixed32_app, DecodeFixed16_app.
  split_and!; try done;
    (zbool; [zlen|by rewrite drop_zlen_app by zlen]).
Qed.

(** C5: a 64-bit varint round-trips, it needs between 1 and
    [kMaxVarint64Length] bytes, so the buffer of [PutVarint64] holds it, and
    [VarintLength] is its exact length. *)
Theorem varint64_roundtrip v rest :
  0 ≤ v < 2 ^ 64 →
  GetVarint64 (PutVarint64 [] v ++ rest) = Some (v, rest) ∧
  VarintLength v = zlen (EncodeVarint64 v) ∧
  1 ≤ zlen (EncodeVarint64 v) ≤ kMaxVarint64Length.
Proof.
  intros Hv. split; [by apply GetVarint64Ptr_encode|].
  destruct (EncodeVarint64_loop_length 10 v) as (? & ? & _); [lia..|].
  unfold VarintLength, EncodeVarint64, kMaxVarint64Length. done.
Qed.

Lemma varint64_roundtrip_witness :
  GetVarint64 (PutVarint64 [] 300 ++ [NUL]) = Some (300, [NUL]) ∧
  VarintLength 300 = 2 ∧ zlen (EncodeVarint64 300) = 2.
Proof.
  destruct (varint64_roundtrip 300 [NUL]) as (H1 & H2 & H3); [lia|].
  split; [exact H1|]. split; reflexivity.
Defined.

(** C31: the unrolled [EncodeVarint32] is the [EncodeVarint64] loop on 32-bit
    values, the fast path of [GetVarint32Ptr] is the general loop, and the
    32-bit varint round-trips through at most 5 bytes. *)
Theorem varint32_unrolled v rest p :
  0 ≤ v < 2 ^ 32 →
  EncodeVarint32 v = EncodeVarint64 v ∧
  GetVarint32Ptr p = GetVarint32PtrFallback p ∧
  GetVarint32 (PutVarint32 [] v ++ rest) = Some (v, rest) ∧
  1 ≤ zlen (EncodeVarint32 v) ≤ 5.
Proof.
  intros Hv. split; [by apply EncodeVarint32_eq|].
  split; [apply GetVarint32Ptr_fallback|].
  split; [by apply GetVarint32_encode|]. by apply EncodeVarint32_length.
Qed.

Lemma varint32_unrolled_witness :
  EncodeVarint32 (2 ^ 32 - 1) = EncodeVarint64 (2 ^ 32 - 1) ∧
  zlen (EncodeVarint32 (2 ^ 32 - 1)) = 5.
Proof.
  destruct (varint32_unrolled (2 ^ 32 - 1) [] []) as (H1 & _); [lia|].
  split; [exact H1|reflexivity].
Defined.

(** C26: the varint parsers on arbitrary input.  They fail exactly when the
    bytes they may look at (10 for 64 bits, 5 for 32) all announce another
    byte; otherwise they return a value of the word size and the input past a
    non-empty prefix no longer than that. *)
Theorem varint_parser_total p :
  (GetVarint64Ptr p = None ↔ forallb has_more (take 10 p) = true) ∧
  (GetVarint32Ptr p = None ↔ forallb has_more (take 5 p) = true) ∧
  (∀ v q, GetVarint64Ptr p = Some (v, q) →
     0 ≤ v < 2 ^ 64 ∧ ∃ used, p = used ++ q ∧ 1 ≤ zlen used ≤ 10) ∧
  (∀ v q, GetVarint32Ptr p = Some (v, q) →
     0 ≤ v < 2 ^ 32 ∧ ∃ used, p = used ++ q ∧ 1 ≤ zlen used ≤ 5).
Proof.
  assert (∀ (used : bytes), used ≠ [] → 1 ≤ zlen used) as Hne.
  { intros [|c used] ?; [done|]. zlen. }
  split_and!.
  - apply (GetVarint_loop_fails 64 63 10 0); lia.
  - rewrite GetVarint32Ptr_fallback. apply (GetVarint_loop_fails 32 28 5 0); lia.
  - intros v q (Hv & used & -> & ? & ?)%GetVarint_loop_consumes; [|lia..].
    split; [done|]. exists used. split; [done|]. split; [by apply Hne|lia].
  - intros v q. rewrite GetVarint32Ptr_fallback.
    intros (Hv & used & -> & ? & ?)%GetVarint_loop_consumes; [|lia..].
    split; [done|]. exists used. split; [done|]. split; [by apply Hne|lia].
Qed.

(** C29: zigzag maps the signed 64-bit integers one to one to the unsigned
    ones (non-negative to even, negative to odd), and signed varints
    round-trip. *)
Theorem zigzag_bijection l n rest :
  - 2 ^ 63 ≤ l < 2 ^ 63 → 0 ≤ n < 2 ^ 64 →
  i64ToZigzag l = (if 0 <=? l then 2 * l else - 2 * l - 1) ∧
  zigzagToI64 (i64ToZigzag l) = l ∧
  i64ToZigzag (zigzagToI64 n) = n ∧
  GetVarsignedint64 (PutVarsignedint64 [] l ++ rest) = (true, l, rest).
Proof.
  intros Hl Hn. split_and!.
  - destruct (Z.leb_spec 0 l); [apply zigzag_nonneg|apply zigzag_neg]; lia.
  - by apply zigzag_roundtrip.
  - pose proof (Z.div_mod n 2 ltac:(lia)). pose proof (Z.mod_pos_bound n 2 ltac:(lia)).
    destruct (decide (n mod 2 = 0)) as [E|E].
    + replace n with (2 * (n / 2)) by lia. rewrite zigzagToI64_even, zigzag_nonneg; lia.
    + replace n with (2 * (n / 2) + 1) by lia. rewrite zigzagToI64_odd, zigzag_neg; lia.
  - unfold GetVarsignedint64, GetVarsignedint64Ptr, PutVarsignedint64. cbn [app].
    rewrite GetVarint64Ptr_encode by (by apply zigzag_range).
    by rewrite zigzag_roundtrip.
Qed.

Lemma zigzag_bijection_witness :
  i64ToZigzag (-3) = 5 ∧
  GetVarsignedint64 (PutVarsignedint64 [] (-3)) = (true, -3, []).
Proof.
  destruct (zigzag_bijection (-3) 5 []) as (H1 & _ & _ & H4); [lia..|].
  split; [exact H1|]. rewrite app_nil_r in H4. exact H4.
Defined.

(** C33: length-prefixed strings round-trip through both readers, and writing
    parts, with or without padding, writes their concatenation. *)
Theorem length_prefixed_roundtrip dst s parts pad rest :
  zlen s < 2 ^ 32 → 0 ≤ pad → pad + zlen (concat parts) < 2 ^ 32 →
  GetLengthPrefixedSlice (PutLengthPrefixedSlice [] s ++ rest) = (Some s, rest) ∧
  GetLengthPrefixedSlice_data (PutLengthPrefixedSlice [] s ++ rest) = Some s ∧
  PutLengthPrefixedSliceParts dst parts = PutLengthPrefixedSlice dst (concat parts) ∧
  PutLengthPrefixedSlicePartsWithPadding dst parts pad =
    PutLengthPrefixedSlice dst (concat parts ++ replicate (Z.to_nat pad) NUL).
Proof.
  intros Hs Hpad Hparts. pose proof (zlen_nonneg s). pose proof (zlen_nonneg (concat parts)).
  unfold PutLengthPrefixedSlice, PutVarint32. rewrite (u32_small (zlen s)) by lia.
  cbn [app]. rewrite <-app_assoc. split_and!.
  - unfold GetLengthPrefixedSlice. rewrite GetVarint32_encode by lia.
    rewrite Z.geb_leb. destruct (Z.leb_spec (zlen s) (zlen (s ++ rest))); [|zlen].
    by rewrite take_zlen_app, drop_zlen_app by zlen.
  - unfold GetLengthPrefixedSlice_data.
    destruct (take_5_prefixed (zlen s) (s ++ rest)) as (q & -> & ->); [lia|].
    rewrite GetVarint32Ptr_encode by lia. rewrite length_app.
    replace (_ + _ - _)%nat with (length (EncodeVarint32 (zlen s))) by lia.
    by rewrite drop_app_length, take_zlen_app by zlen.
  - unfold PutLengthPrefixedSliceParts, PutLengthPrefixedSliceParts_total.
    unfold PutVarint32. by rewrite foldl_app_concat, foldl_u64_total, Z.add_0_l by lia.
  - unfold PutLengthPrefixedSlicePartsWithPadding, PutLengthPrefixedSliceParts_total.
    rewrite foldl_app_concat, foldl_u64_total by lia.
    rewrite zlen_app, zlen_replicate, Z2Nat.id, (Z.add_comm pad) by lia.
    unfold PutVarint32. by rewrite <-!app_assoc.
Qed.

Lemma length_prefixed_roundtrip_witness :
  GetLengthPrefixedSlice (PutLengthPrefixedSlice [] [z2b 97; z2b 98] ++ [NUL]) =
  (Some [z2b 97; z2b 98], [NUL]).
Proof.
  destruct (length_prefixed_roundtrip [] [z2b 97; z2b 98] [[z2b 99]] 2 [NUL]) as (H & _);
    [reflexivity|lia|reflexivity|exact H].
Defined.
