(* ===== verification/SliceTransform.v ===== *)
(** * Prefix extractors (include/slice_transform.h, utils/slice.cc)

    The interface [SliceTransform] is a class of the operations, its documented
    contract a second class; the three transforms of utils/slice.cc are
    instances and discharge it. *)
From stdpp Require Import pretty.
From S2P Require Import Prelude Slice.

(** ** The interface *)

Class SliceTransform := {
  st_Name : string;
  st_Transform : bytes → outcome bytes;
  st_InDomain : bytes → outcome bool;
  st_InRange : bytes → outcome bool;
  (** [FullLengthEnabled(size_t *len)]: [Some len] when it returns true. *)
  st_FullLengthEnabled : option Z;
  st_SameResultWhenAppended : bytes → bool;
}.

(** What include/slice_transform.h promises of an implementation. *)
Class SliceTransformLaws (T : SliceTransform) : Prop := {
  (** a key in the domain has a transform, which is a prefix of it *)
  st_transform_prefix key :
    st_InDomain key = Ret true → ∃ p, st_Transform key = Ret p ∧ p `prefix_of` key;
  (** [Transform(s) = Transform(prefix)] for any [s] with [prefix] as a prefix *)
  st_same_result prefix s :
    st_SameResultWhenAppended prefix = true → prefix `prefix_of` s →
    st_InDomain s = Ret true ∧ st_Transform s = st_Transform prefix;
  (** transforms of keys of the domain are in the range *)
  st_transform_range key p :
    st_InDomain key = Ret true → st_Transform key = Ret p → st_InRange p = Ret true;
}.

(** ** The transforms of utils/slice.cc *)

Definition FixedPrefixTransform (prefix_len_ : Z) : SliceTransform := {|
  st_Name := "rocksdb.FixedPrefix." +:+ pretty prefix_len_;
  st_Transform src :=
    assert! zlen src >=? prefix_len_ ;; Ret (take (Z.to_nat prefix_len_) src);
  st_InDomain src := Ret (zlen src >=? prefix_len_);
  st_InRange dst := Ret (zlen dst =? prefix_len_);
  st_FullLengthEnabled := Some prefix_len_;
  st_SameResultWhenAppended prefix := zlen prefix >=? prefix_len_;
|}.

Definition CappedPrefixTransform (cap_len_ : Z) : SliceTransform := {|
  st_Name := "rocksdb.CappedPrefix." +:+ pretty cap_len_;
  st_Transform src :=
    assert! true ;; Ret (take (Z.to_nat (Z.min cap_len_ (zlen src))) src);
  st_InDomain _ := Ret true;
  st_InRange dst := Ret (zlen dst <=? cap_len_);
  st_FullLengthEnabled := Some cap_len_;
  st_SameResultWhenAppended prefix := zlen prefix >=? cap_len_;
|}.

Definition NoopTransform : SliceTransform := {|
  st_Name := "rocksdb.Noop";
  st_Transform src := Ret src;
  st_InDomain _ := Ret true;
  st_InRange _ := Ret true;
  st_FullLengthEnabled := None;
  st_SameResultWhenAppended _ := false;
|}.

(** The functions that make them. *)
Definition NewFixedPrefixTransform (prefix_len : Z) : SliceTransform := FixedPrefixTransform prefix_len.
Definition NewCappedPrefixTransform (cap_len : Z) : SliceTransform := CappedPrefixTransform cap_len.
Definition NewNoopTransform : SliceTransform := NoopTransform.

(** ** The contract holds *)

Lemma take_prefix_of {A} n (l : list A) : take n l `prefix_of` l.
Proof. exists (drop n l). by rewrite take_drop. Qed.

Lemma FixedPrefixTransform_laws n : 0 ≤ n → SliceTransformLaws (FixedPrefixTransform n).
Proof.
  intros Hn. split; simpl.
  - intros key [= ->]. eexists. split; [done|]. apply take_prefix_of.
  - intros p s. rewrite !Z.geb_leb. intros Hp [k ->].
    apply Z.leb_le in Hp as Hp'. rewrite Hp.
    assert ((n <=? zlen (p ++ k)) = true) as -> by (apply Z.leb_le; zlen).
    split; [done|]. simpl. rewrite take_app_le; [done|]. unfold zlen in Hp'. lia.
  - intros key p [= Hd]. rewrite Hd. intros [= <-].
    rewrite Z.geb_leb in Hd. apply Z.leb_le in Hd. f_equal. apply Z.eqb_eq. zlen.
Qed.

Lemma CappedPrefixTransform_laws n : 0 ≤ n → SliceTransformLaws (CappedPrefixTransform n).
Proof.
  intros Hn. split; simpl.
  - intros key _. eexists. split; [done|]. apply take_prefix_of.
  - intros p s. rewrite Z.geb_leb. intros Hp%Z.leb_le [k ->]. split; [done|].
    rewrite !Z.min_l by zlen. rewrite take_app_le; [done|]. unfold zlen in Hp. lia.
  - intros key p _ [= <-]. f_equal. apply Z.leb_le. zlen.
Qed.

Lemma NoopTransform_laws : SliceTransformLaws NoopTransform.
Proof. split; simpl; [intros key _; by exists key|done..]. Qed.

(** ** Properties *)

(** C36: the three prefix extractors keep the contract of the interface: on
    their domain they return a prefix of the key that is in their range, and
    [SameResultWhenAppended(p)] implies that every extension of [p] has the
    transform of [p]. *)
Theorem slice_transforms_lawful n :
  0 ≤ n →
  SliceTransformLaws (FixedPrefixTransform n) ∧
  SliceTransformLaws (CappedPrefixTransform n) ∧
  SliceTransformLaws NoopTransform.
Proof.
  intros Hn. split_and!; [by apply FixedPrefixTransform_laws|
    by apply CappedPrefixTransform_laws|apply NoopTransform_laws].
Qed.

Lemma slice_transforms_lawful_witness :
  SliceTransformLaws (FixedPrefixTransform 3) ∧
  @st_Transform (FixedPrefixTransform 3) (NUL :: NUL :: NUL :: NUL :: nil)
    = Ret (NUL :: NUL :: NUL :: nil).
Proof. split; [apply (slice_transforms_lawful 3); lia|reflexivity]. Defined.
