(* ===== verification/Comparator.v ===== *)
(** * Comparators (include/comparator.h, include/user_comparator_wrapper.h, utils/kv_map.h)

    The virtual class [Comparator] is a class of its operations;
    [ComparatorLaws] is the contract its comments give.  The clients
    (InternalKeyComparator in DbFormat, the ordered map of utils/kv_map.h) are
    proved against the contract.  The built-in comparators
    [BytewiseComparator()] and [ReverseBytewiseComparator()] are declared in
    the header and defined outside the repository: they stay parameters of
    what uses them.  [SliceComparator], the comparator that orders by
    [Slice::compare] and shortens nothing, shows that the contract can be met. *)
From S2P Require Import Prelude Slice.

(** ** The interface *)

Class Comparator := {
  timestamp_size : Z;
  Compare : bytes → bytes → Z;
  Equal : bytes → bytes → bool;
  Name : string;
  FindShortestSeparator : bytes → bytes → bytes;
  FindShortSuccessor : bytes → bytes;
  IsSameLengthImmediateSuccessor : bytes → bytes → bool;
  CanKeysWithDifferentByteContentsBeEqual : bool;
  CompareTimestamp : bytes → bytes → Z;
  CompareWithoutTimestamp : bytes → bool → bytes → bool → Z;
}.

(** The non-virtual overload with both operands timestamped. *)
Definition CompareWithoutTimestamp_both (c : Comparator) (a b : bytes) : Z :=
  CompareWithoutTimestamp a true b true.

(** The default bodies of the virtual functions. *)
Definition Comparator_Equal (Compare : bytes → bytes → Z) (a b : bytes) : bool :=
  Compare a b =? 0.
Definition Comparator_IsSameLengthImmediateSuccessor (s t : bytes) : bool := false.
Definition Comparator_CanKeysWithDifferentByteContentsBeEqual : bool := true.
Definition Comparator_CompareTimestamp (ts1 ts2 : bytes) : Z := 0.
Definition Comparator_CompareWithoutTimestamp (Compare : bytes → bytes → Z)
    (a : bytes) (a_has_ts : bool) (b : bytes) (b_has_ts : bool) : Z := Compare a b.

(** The contract of include/comparator.h. *)
Class ComparatorLaws (c : Comparator) : Prop := {
  Compare_refl a : Compare a a = 0;
  Compare_sgn_sym a b : Z.sgn (Compare b a) = - Z.sgn (Compare a b);
  Compare_trans a b d : Compare a b ≤ 0 → Compare b d ≤ 0 → Compare a d ≤ 0;
  Equal_Compare a b : Equal a b = (Compare a b =? 0);
  (** If [*start < limit], changes [*start] to a string in [start, limit). *)
  FindShortestSeparator_range start limit :
    Compare start limit < 0 →
    Compare start (FindShortestSeparator start limit) ≤ 0 ∧
    Compare (FindShortestSeparator start limit) limit < 0;
  (** Changes [*key] to a string [>= *key]. *)
  FindShortSuccessor_range key : Compare key (FindShortSuccessor key) ≤ 0;
}.

(** [UserComparatorWrapper] forwards every call to the user's comparator. *)
Definition UserComparatorWrapper (user_comparator_ : Comparator) : Comparator := {|
  timestamp_size := @timestamp_size user_comparator_;
  Compare := @Compare user_comparator_;
  Equal := @Equal user_comparator_;
  Name := @Name user_comparator_;
  FindShortestSeparator := @FindShortestSeparator user_comparator_;
  FindShortSuccessor := @FindShortSuccessor user_comparator_;
  IsSameLengthImmediateSuccessor := @IsSameLengthImmediateSuccessor user_comparator_;
  CanKeysWithDifferentByteContentsBeEqual :=
    @CanKeysWithDifferentByteContentsBeEqual user_comparator_;
  CompareTimestamp := @CompareTimestamp user_comparator_;
  CompareWithoutTimestamp := @CompareWithoutTimestamp user_comparator_;
|}.

(** The copy of the class in utils/user_comparator_wrapper.h. *)
Definition utils_UserComparatorWrapper (user_comparator_ : Comparator) : Comparator := {|
  timestamp_size := @timestamp_size user_comparator_;
  Compare a b := @Compare user_comparator_ a b;
  Equal a b := @Equal user_comparator_ a b;
  Name := @Name user_comparator_;
  FindShortestSeparator start limit := @FindShortestSeparator user_comparator_ start limit;
  FindShortSuccessor key := @FindShortSuccessor user_comparator_ key;
  IsSameLengthImmediateSuccessor s t := @IsSameLengthImmediateSuccessor user_comparator_ s t;
  CanKeysWithDifferentByteContentsBeEqual :=
    @CanKeysWithDifferentByteContentsBeEqual user_comparator_;
  CompareTimestamp ts1 ts2 := @CompareTimestamp user_comparator_ ts1 ts2;
  CompareWithoutTimestamp a a_has_ts b b_has_ts :=
    @CompareWithoutTimestamp user_comparator_ a a_has_ts b b_has_ts;
|}.

(** The two copies are the same comparator. *)
Lemma utils_UserComparatorWrapper_same c : utils_UserComparatorWrapper c = UserComparatorWrapper c.
Proof. done. Qed.

(** *** Root comparators

    Which object [GetRootComparator] gives: a comparator of the user is its own
    root, a wrapper asks the object it wraps. *)
Inductive comparator_object :=
  | UserObject (c : Comparator)
  | WrapperObject (user_comparator_ : comparator_object).

Fixpoint operations (o : comparator_object) : Comparator :=
  match o with
  | UserObject c => c
  | WrapperObject user_comparator_ => UserComparatorWrapper (operations user_comparator_)
  end.

Fixpoint GetRootComparator (o : comparator_object) : comparator_object :=
  match o with
  | UserObject _ => o
  | WrapperObject user_comparator_ => GetRootComparator user_comparator_
  end.

(** [user_comparator()] of a wrapper. *)
Definition wrapped_comparator (o : comparator_object) : option comparator_object :=
  match o with UserObject _ => None | WrapperObject user_comparator_ => Some user_comparator_ end.

(** The root is no wrapper, is its own root, and has the same operations. *)
Lemma root_comparator o :
  wrapped_comparator (GetRootComparator o) = None ∧
  GetRootComparator (GetRootComparator o) = GetRootComparator o ∧
  operations (GetRootComparator o) = operations o.
Proof.
  induction o as [c|o (IH1 & IH2 & IH3)]; [done|]. cbn. split_and!; [done..|].
  rewrite IH3. by destruct (operations o).
Qed.

#[export] Instance UserComparatorWrapper_laws c :
  ComparatorLaws c → ComparatorLaws (UserComparatorWrapper c).
Proof. intros []. by split. Qed.

(** ** A comparator that meets the contract *)

Definition SliceComparator : Comparator := {|
  timestamp_size := 0;
  Compare := Slice_compare;
  Equal := Comparator_Equal Slice_compare;
  Name := "SliceComparator";
  FindShortestSeparator start limit := start;
  FindShortSuccessor key := key;
  IsSameLengthImmediateSuccessor := Comparator_IsSameLengthImmediateSuccessor;
  CanKeysWithDifferentByteContentsBeEqual :=
    Comparator_CanKeysWithDifferentByteContentsBeEqual;
  CompareTimestamp := Comparator_CompareTimestamp;
  CompareWithoutTimestamp := Comparator_CompareWithoutTimestamp Slice_compare;
|}.

#[export] Instance SliceComparator_laws : ComparatorLaws SliceComparator.
Proof.
  split; simpl; intros *; rewrite ?Slice_compare_lex.
  - by apply lex_compare_eq.
  - by rewrite lex_compare_sym, Z.sgn_opp.
  - apply lex_compare_trans.
  - unfold Comparator_Equal. by rewrite Slice_compare_lex.
  - intros Hlt. split; [|done]. by rewrite (proj2 (lex_compare_eq start start)).
  - by rewrite (proj2 (lex_compare_eq key key)).
Qed.

(** ** The order of a lawful comparator *)

Section order.
Context (c : Comparator) `{!ComparatorLaws c}.

(** Keys the comparator does not tell apart, and its strict order. *)
Definition key_equiv (a b : bytes) : Prop := Compare a b = 0.
Definition key_lt (a b : bytes) : Prop := Compare a b < 0.

Lemma Compare_neg a b : Compare b a < 0 ↔ 0 < Compare a b.
Proof. pose proof (Compare_sgn_sym a b). lia. Qed.
Lemma Compare_zero_sym a b : Compare b a = 0 ↔ Compare a b = 0.
Proof. pose proof (Compare_sgn_sym a b). lia. Qed.
Lemma Compare_le_flip a b : Compare b a ≤ 0 ↔ 0 ≤ Compare a b.
Proof. pose proof (Compare_sgn_sym a b). lia. Qed.

Lemma Compare_lt_le_trans a b d : Compare a b < 0 → Compare b d ≤ 0 → Compare a d < 0.
Proof.
  intros Hab Hbd. assert (Compare a d ≤ 0) by (eapply Compare_trans; eauto; lia).
  destruct (decide (Compare a d = 0)) as [E|]; [|lia].
  assert (Compare b a ≤ 0) as Hba.
  { apply (Compare_trans b d a); [done|]. apply Compare_le_flip. lia. }
  apply Compare_le_flip in Hba. lia.
Qed.
Lemma Compare_le_lt_trans a b d : Compare a b ≤ 0 → Compare b d < 0 → Compare a d < 0.
Proof.
  intros Hab Hbd. assert (Compare a d ≤ 0) by (eapply Compare_trans; eauto; lia).
  destruct (decide (Compare a d = 0)) as [E|]; [|lia].
  assert (Compare d b ≤ 0) as Hdb.
  { apply (Compare_trans d a b); [|done]. apply Compare_le_flip. lia. }
  apply Compare_le_flip in Hdb. lia.
Qed.

#[export] Instance key_equiv_equivalence : Equivalence key_equiv.
Proof.
  unfold key_equiv. split.
  - intros a. apply Compare_refl.
  - intros a b. apply Compare_zero_sym.
  - intros a b d Hab Hbd. assert (Compare a d ≤ 0) by (apply (Compare_trans a b d); lia).
    assert (Compare d a ≤ 0) as H0.
    { apply (Compare_trans d b a); apply Compare_le_flip; lia. }
    apply Compare_le_flip in H0. lia.
Qed.

#[export] Instance key_lt_strict : StrictOrder key_lt.
Proof.
  unfold key_lt. split.
  - intros a Ha. rewrite Compare_refl in Ha. lia.
  - intros a b d Hab Hbd. apply (Compare_lt_le_trans a b d); lia.
Qed.

(** The sign of [Compare] depends on its operands only up to [key_equiv]. *)
#[export] Instance Compare_sgn_proper :
  Proper (key_equiv ==> key_equiv ==> eq) (λ a b, Z.sgn (Compare a b)).
Proof.
  intros a a' Ha b b' Hb. cbv beta. unfold key_equiv in *.
  apply Compare_zero_sym in Ha as Ha'. apply Compare_zero_sym in Hb as Hb'.
  destruct (Z.compare_spec (Compare a b) 0) as [E|L|G].
  - assert (key_equiv a' b') as E'; [|unfold key_equiv in E'; by rewrite E, E'].
    transitivity a; [done|]. by transitivity b.
  - assert (Compare a' b' < 0); [|lia].
    apply (Compare_lt_le_trans _ b); [|lia]. apply (Compare_le_lt_trans _ a); lia.
  - assert (Compare b a < 0) by (apply Compare_neg; lia).
    assert (Compare b' a' < 0) as G'; [|apply Compare_neg in G'; lia].
    apply (Compare_lt_le_trans _ a); [|lia]. apply (Compare_le_lt_trans _ b); lia.
Qed.
End order.
