(* ===== verification/DbFormat.v ===== *)
(** * Internal keys (db_format/dbformat.h, db_format/dbformat.cc, db_format/types.h)

    An internal key is a user key followed by an eight-byte footer that packs
    a 56-bit sequence number and a value type.  The file models the packing,
    the parser, the class [InternalKey], the comparator of internal keys over
    a user comparator, range tombstones and the internal prefix extractor.
    Assertions are the Debug build's: they end the run ([AssertionFailed]).
    Functions that write through a pointer return what they leave there. *)
From S2P Require Import Prelude Slice Coding SliceTransform Comparator.

(** ** Value types *)

(** An [unsigned char]: any byte can be cast to the enum, so it is a number. *)
Abbreviation ValueType := Z (only parsing).
Definition kTypeDeletion : ValueType := 0x0.
Definition kTypeValue : ValueType := 0x1.
Definition kTypeMerge : ValueType := 0x2.
Definition kTypeLogData : ValueType := 0x3.
Definition kTypeColumnFamilyDeletion : ValueType := 0x4.
Definition kTypeColumnFamilyValue : ValueType := 0x5.
Definition kTypeColumnFamilyMerge : ValueType := 0x6.
Definition kTypeSingleDeletion : ValueType := 0x7.
Definition kTypeColumnFamilySingleDeletion : ValueType := 0x8.
Definition kTypeBeginPrepareXID : ValueType := 0x9.
Definition kTypeEndPrepareXID : ValueType := 0xA.
Definition kTypeCommitXID : ValueType := 0xB.
Definition kTypeRollbackXID : ValueType := 0xC.
Definition kTypeNoop : ValueType := 0xD.
Definition kTypeColumnFamilyRangeDeletion : ValueType := 0xE.
Definition kTypeRangeDeletion : ValueType := 0xF.
Definition kTypeColumnFamilyBlobIndex : ValueType := 0x10.
Definition kTypeBlobIndex : ValueType := 0x11.
Definition kTypeBeginPersistedPrepareXID : ValueType := 0x12.
Definition kTypeBeginUnprepareXID : ValueType := 0x13.
Definition kTypeDeletionWithTimestamp : ValueType := 0x14.
Definition kMaxValue : ValueType := 0x7F.

Definition kValueTypeForSeek : ValueType := kTypeDeletionWithTimestamp.
Definition kValueTypeForSeekForPrev : ValueType := kTypeDeletion.

Definition IsValueType (t : ValueType) : bool :=
  (t <=? kTypeMerge) || (t =? kTypeSingleDeletion) || (t =? kTypeBlobIndex) ||
  (kTypeDeletionWithTimestamp =? t).

Definition IsExtendedValueType (t : ValueType) : bool :=
  IsValueType t || (t =? kTypeRangeDeletion).

(** [(0x1ull << 56) - 1] *)
(** Sequence number 0 is always committed. *)
Definition kMinUnCommittedSeq : Z := 1.
Definition kMaxSequenceNumber : Z := u64 (Z.shiftl 1 56) - 1.
Definition kDisableGlobalSequenceNumber : Z := 2 ^ 64 - 1.

Inductive EntryType :=
  | kEntryPut | kEntryDelete | kEntrySingleDelete | kEntryMerge
  | kEntryRangeDeletion | kEntryBlobIndex | kEntryOther.

Definition GetEntryType (value_type : ValueType) : EntryType :=
  if value_type =? kTypeValue then kEntryPut
  else if value_type =? kTypeDeletion then kEntryDelete
  else if value_type =? kTypeSingleDeletion then kEntrySingleDelete
  else if value_type =? kTypeMerge then kEntryMerge
  else if value_type =? kTypeRangeDeletion then kEntryRangeDeletion
  else if value_type =? kTypeBlobIndex then kEntryBlobIndex
  else kEntryOther.

(** ** Parsed keys *)

Record ParsedInternalKey := mkParsedInternalKey {
  user_key : bytes;
  sequence : Z;
  type : ValueType;
}.

#[global] Instance ParsedInternalKey_eq_dec : EqDecision ParsedInternalKey.
Proof. solve_decision. Defined.

Record FullKey := mkFullKey {
  fk_user_key : bytes;
  fk_sequence : Z;
  fk_type : EntryType;
}.

(** [ParsedInternalKey::clear] *)
Definition ParsedInternalKey_clear : ParsedInternalKey :=
  mkParsedInternalKey [] 0 kTypeDeletion.

Definition FullKey_clear : FullKey := mkFullKey [] 0 kEntryPut.

Definition InternalKeyEncodingLength (key : ParsedInternalKey) : Z :=
  zlen (user_key key) + 8.

Definition PackSequenceAndType (seq : Z) (t : ValueType) : outcome Z :=
  assert! seq <=? kMaxSequenceNumber ;;
  assert! IsExtendedValueType t ;;
  Ret (Z.lor (u64 (Z.shiftl seq 8)) t).

Definition UnPackSequenceAndType (packed : Z) : outcome (Z * ValueType) :=
  let seq := Z.shiftr packed 8 in
  let t := Z.land packed 255 in
  assert! seq <=? kMaxSequenceNumber ;;
  assert! IsExtendedValueType t ;;
  Ret (seq, t).

Section keys.
Context `{Platform}.

Definition AppendInternalKey (result : bytes) (key : ParsedInternalKey) : outcome bytes :=
  let result := result ++ user_key key in
  packed ← PackSequenceAndType (sequence key) (type key);
  Ret (PutFixed64 result packed).

Definition AppendInternalKeyWithDifferentTimestamp (result : bytes)
    (key : ParsedInternalKey) (ts : bytes) : outcome bytes :=
  assert! zlen (user_key key) >=? zlen ts ;;
  let result := result ++ take (Z.to_nat (zlen (user_key key) - zlen ts)) (user_key key) in
  let result := result ++ ts in
  packed ← PackSequenceAndType (sequence key) (type key);
  Ret (PutFixed64 result packed).

Definition AppendInternalKeyFooter (result : bytes) (s : Z) (t : ValueType) :
    outcome bytes :=
  packed ← PackSequenceAndType s t;
  Ret (PutFixed64 result packed).

(** The bytes at [data() + n - 8], [n] the size. *)
Definition footer_of (internal_key : bytes) : bytes :=
  drop (Z.to_nat (zlen internal_key - 8)) internal_key.

(** [Slice(data(), n - 8)] *)
Definition without_footer (internal_key : bytes) : bytes :=
  take (Z.to_nat (zlen internal_key - 8)) internal_key.

(** Returns the bool, and [*result] as it is left: untouched when the key is
    too short, filled when only the type is invalid. *)
Definition ParseInternalKey (internal_key : bytes) (result : ParsedInternalKey) :
    bool * ParsedInternalKey :=
  let n := zlen internal_key in
  if n <? 8 then (false, result) else
  let num := DecodeFixed64 (footer_of internal_key) in
  let c := Z.land num 255 in
  let result := mkParsedInternalKey (without_footer internal_key) (Z.shiftr num 8) c in
  (IsExtendedValueType (type result), result).

Definition ParseFullKey (internal_key : bytes) (ikey0 : ParsedInternalKey)
    (fkey : FullKey) : bool * FullKey :=
  match ParseInternalKey internal_key ikey0 with
  | (false, _) => (false, fkey)
  | (true, ikey) =>
      (true, mkFullKey (user_key ikey) (sequence ikey) (GetEntryType (type ikey)))
  end.

Definition ExtractUserKey (internal_key : bytes) : outcome bytes :=
  assert! zlen internal_key >=? 8 ;; Ret (without_footer internal_key).

Definition ExtractUserKeyAndStripTimestamp (internal_key : bytes) (ts_sz : Z) :
    outcome bytes :=
  assert! zlen internal_key >=? 8 + ts_sz ;;
  Ret (take (Z.to_nat (zlen internal_key - 8 - ts_sz)) internal_key).

Definition StripTimestampFromUserKey (user_key : bytes) (ts_sz : Z) : outcome bytes :=
  assert! zlen user_key >=? ts_sz ;;
  Ret (take (Z.to_nat (zlen user_key - ts_sz)) user_key).

Definition ExtractTimestampFromUserKey (user_key : bytes) (ts_sz : Z) : outcome bytes :=
  assert! zlen user_key >=? ts_sz ;;
  Ret (take (Z.to_nat ts_sz) (drop (Z.to_nat (zlen user_key - ts_sz)) user_key)).

Definition ExtractInternalKeyFooter (internal_key : bytes) : outcome Z :=
  assert! zlen internal_key >=? 8 ;;
  Ret (DecodeFixed64 (footer_of internal_key)).

Definition ExtractValueType (internal_key : bytes) : outcome ValueType :=
  num ← ExtractInternalKeyFooter internal_key;
  Ret (Z.land num 255).

(** The new footer is stored over the last eight bytes. *)
Definition UpdateInternalKey (ikey : bytes) (seq : Z) (t : ValueType) : outcome bytes :=
  let ikey_sz := zlen ikey in
  assert! ikey_sz >=? 8 ;;
  let newval := Z.lor (u64 (Z.shiftl seq 8)) t in
  Ret (take (Z.to_nat (ikey_sz - 8)) ikey ++ EncodeFixed64 newval).

Definition GetInternalKeySeqno (internal_key : bytes) : outcome Z :=
  let n := zlen internal_key in
  assert! n >=? 8 ;;
  let num := DecodeFixed64 (footer_of internal_key) in
  Ret (Z.shiftr num 8).

(** ** class InternalKey: the state is [rep_] *)

Definition InternalKey_make (_user_key : bytes) (s : Z) (t : ValueType) : outcome bytes :=
  AppendInternalKey [] (mkParsedInternalKey _user_key s t).

Definition SetMaxPossibleForUserKey (rep_ _user_key : bytes) : outcome bytes :=
  AppendInternalKey rep_ (mkParsedInternalKey _user_key 0 0).

Definition SetMinPossibleForUserKey (rep_ _user_key : bytes) : outcome bytes :=
  AppendInternalKey rep_ (mkParsedInternalKey _user_key kMaxSequenceNumber kValueTypeForSeek).

(** [parsed] is uninitialised but for its sequence number. *)
Definition InternalKey_Valid (rep_ : bytes) (parsed : ParsedInternalKey) : bool :=
  (ParseInternalKey rep_ parsed).1.

Definition InternalKey_DecodeFrom (s : bytes) : bytes := s.

Definition InternalKey_Encode (rep_ : bytes) : outcome bytes :=
  assert! negb (zlen rep_ =? 0) ;; Ret rep_.

Definition InternalKey_user_key (rep_ : bytes) : outcome bytes := ExtractUserKey rep_.
Definition InternalKey_size (rep_ : bytes) : Z := zlen rep_.

Definition InternalKey_SetFrom (rep_ : bytes) (p : ParsedInternalKey) : outcome bytes :=
  let rep_ := [] in AppendInternalKey rep_ p.
Definition InternalKey_Set (rep_ _user_key : bytes) (s : Z) (t : ValueType) :
    outcome bytes :=
  InternalKey_SetFrom rep_ (mkParsedInternalKey _user_key s t).
Definition InternalKey_Clear : bytes := [].
Definition ConvertFromUserKey (rep_ : bytes) (s : Z) (t : ValueType) : outcome bytes :=
  AppendInternalKeyFooter rep_ s t.
End keys.

(** ** class InternalKeyComparator, over the user's comparator *)

Section comparator.
Context `{Platform} (c : Comparator).

Definition user_comparator_ : Comparator := UserComparatorWrapper c.

(** [user_comparator()] and [GetRootComparator()] of the comparator that wraps
    the user's comparator [o]. *)
Definition InternalKeyComparator_user_comparator (o : comparator_object) : option comparator_object :=
  wrapped_comparator (WrapperObject o).
Definition InternalKeyComparator_GetRootComparator (o : comparator_object) : comparator_object :=
  GetRootComparator (WrapperObject o).

Definition InternalKeyComparator_Name : string :=
  "rocksdb.InternalKeyComparator:" +:+ @Name user_comparator_.

(** Decreasing order of two numbers, as the answer of a comparison. *)
Definition decreasing (anum bnum r : Z) : Z :=
  if anum >? bnum then -1 else if anum <? bnum then 1 else r.

Definition InternalKeyComparator_Compare (akey bkey : bytes) : outcome Z :=
  ua ← ExtractUserKey akey;
  ub ← ExtractUserKey bkey;
  let r := @Compare user_comparator_ ua ub in
  if r =? 0 then
    let anum := DecodeFixed64 (footer_of akey) in
    let bnum := DecodeFixed64 (footer_of bkey) in
    Ret (decreasing anum bnum r)
  else Ret r.

Definition CompareKeySeq (akey bkey : bytes) : outcome Z :=
  ua ← ExtractUserKey akey;
  ub ← ExtractUserKey bkey;
  let r := @Compare user_comparator_ ua ub in
  if r =? 0 then
    let anum := Z.shiftr (DecodeFixed64 (footer_of akey)) 8 in
    let bnum := Z.shiftr (DecodeFixed64 (footer_of bkey)) 8 in
    Ret (decreasing anum bnum r)
  else Ret r.

(** [Compare(const ParsedInternalKey &, const ParsedInternalKey &)] *)
Definition Compare_parsed (a b : ParsedInternalKey) : Z :=
  let r := @Compare user_comparator_ (user_key a) (user_key b) in
  if r =? 0 then
    if sequence a >? sequence b then -1
    else if sequence a <? sequence b then 1
    else if type a >? type b then -1
    else if type a <? type b then 1
    else r
  else r.

(** [Compare(const InternalKey &, const InternalKey &)] *)
Definition Compare_InternalKey (a b : bytes) : outcome Z :=
  ea ← InternalKey_Encode a;
  eb ← InternalKey_Encode b;
  InternalKeyComparator_Compare ea eb.

Definition ParsedInternalKeyComparator (a b : ParsedInternalKey) : bool :=
  Compare_parsed a b <? 0.

Definition InternalKeyComparator_FindShortestSeparator (start limit : bytes) :
    outcome bytes :=
  user_start ← ExtractUserKey start;
  user_limit ← ExtractUserKey limit;
  let tmp := @FindShortestSeparator user_comparator_ user_start user_limit in
  if (zlen tmp <=? zlen user_start) && (@Compare user_comparator_ user_start tmp <? 0)
  then
    packed ← PackSequenceAndType kMaxSequenceNumber kValueTypeForSeek;
    let tmp := PutFixed64 tmp packed in
    r1 ← InternalKeyComparator_Compare start tmp;
    assert! r1 <? 0 ;;
    r2 ← InternalKeyComparator_Compare tmp limit;
    assert! r2 <? 0 ;;
    Ret tmp
  else Ret start.

Definition InternalKeyComparator_FindShortSuccessor (key : bytes) : outcome bytes :=
  user_key ← ExtractUserKey key;
  let tmp := @FindShortSuccessor user_comparator_ user_key in
  if (zlen tmp <=? zlen user_key) && (@Compare user_comparator_ user_key tmp <? 0)
  then
    packed ← PackSequenceAndType kMaxSequenceNumber kValueTypeForSeek;
    let tmp := PutFixed64 tmp packed in
    r1 ← InternalKeyComparator_Compare key tmp;
    assert! r1 <? 0 ;;
    Ret tmp
  else Ret key.
End comparator.

(** ** Range tombstones *)

Record RangeTombstone := mkRangeTombstone {
  start_key_ : bytes;
  end_key_ : bytes;
  seq_ : Z;
}.

Definition RangeTombstone_of_parsed (parsed_key : ParsedInternalKey) (value : bytes) :
    RangeTombstone :=
  mkRangeTombstone (user_key parsed_key) value (sequence parsed_key).

Definition RangeTombstone_Serialize `{Platform} (t : RangeTombstone) :
    outcome (bytes * bytes) :=
  key ← InternalKey_make (start_key_ t) (seq_ t) kTypeRangeDeletion;
  Ret (key, end_key_ t).
Definition RangeTombstone_SerializeKey `{Platform} (t : RangeTombstone) : outcome bytes :=
  InternalKey_make (start_key_ t) (seq_ t) kTypeRangeDeletion.
Definition RangeTombstone_SerializeEndKey `{Platform} (t : RangeTombstone) :
    outcome bytes :=
  InternalKey_make (end_key_ t) kMaxSequenceNumber kTypeRangeDeletion.

(** ** class InternalKeySliceTransform: the user's transform on the user key *)

Definition InternalKeySliceTransform (transform_ : SliceTransform) : SliceTransform := {|
  st_Name := @st_Name transform_;
  st_Transform src := user_key ← ExtractUserKey src; @st_Transform transform_ user_key;
  st_InDomain src := user_key ← ExtractUserKey src; @st_InDomain transform_ user_key;
  st_InRange dst := user_key ← ExtractUserKey dst; @st_InRange transform_ user_key;
  st_FullLengthEnabled := None;
  st_SameResultWhenAppended _ := false;
|}.

(** ** Well-formed keys and their encoding *)

(** What the assertions of [PackSequenceAndType] require of a key. *)
Definition valid_key (p : ParsedInternalKey) : Prop :=
  0 ≤ sequence p ≤ kMaxSequenceNumber ∧ 0 ≤ type p ∧ IsExtendedValueType (type p) = true.

(** The number in the footer. *)
Definition packed (p : ParsedInternalKey) : Z := sequence p * 256 + type p.

(** The specification of the encoding: the user key, then the footer, least
    significant byte first. *)
Definition encode_key (p : ParsedInternalKey) : bytes :=
  user_key p ++ le_bytes 8 (packed p).

#[export] Instance valid_key_dec p : Decision (valid_key p).
Proof. unfold valid_key. apply _. Defined.

Lemma kMaxSequenceNumber_eq : kMaxSequenceNumber = 2 ^ 56 - 1.
Proof. done. Qed.

Lemma IsExtendedValueType_bound t : IsExtendedValueType t = true → t ≤ 0x14.
Proof.
  unfold IsExtendedValueType, IsValueType, kTypeMerge, kTypeSingleDeletion, kTypeBlobIndex,
    kTypeDeletionWithTimestamp, kTypeRangeDeletion.
  rewrite !orb_true_iff, !Z.eqb_eq, Z.leb_le. lia.
Qed.

Lemma valid_key_bounds p :
  valid_key p → 0 ≤ sequence p < 2 ^ 56 ∧ 0 ≤ type p ≤ 0x14 ∧ 0 ≤ packed p < 2 ^ 64.
Proof.
  intros ((? & Hs) & ? & Ht). rewrite kMaxSequenceNumber_eq in Hs.
  apply IsExtendedValueType_bound in Ht. unfold packed.
  change (2 ^ 64) with (2 ^ 56 * 256). lia.
Qed.

Lemma packed_div_mod p :
  valid_key p → packed p / 256 = sequence p ∧ packed p mod 256 = type p.
Proof.
  intros (? & ? & _)%valid_key_bounds. unfold packed.
  rewrite Z.add_comm, Z.div_add, Z.mod_add, Z.div_small, Z.mod_small by lia. lia.
Qed.

Lemma footer_number p :
  valid_key p → Z.lor (u64 (Z.shiftl (sequence p) 8)) (type p) = packed p.
Proof.
  intros (? & ? & ?)%valid_key_bounds.
  rewrite u64_small by (rewrite shiftl_pow2 by lia; lia).
  by rewrite shiftl_lor_add by lia.
Qed.

Lemma pack_valid p :
  valid_key p → PackSequenceAndType (sequence p) (type p) = Ret (packed p).
Proof.
  intros Hp. rewrite <-(footer_number p Hp). destruct Hp as ((_ & Hs) & _ & He).
  unfold PackSequenceAndType. apply Z.leb_le in Hs. by rewrite Hs, He.
Qed.

Lemma unpack_packed p : valid_key p → UnPackSequenceAndType (packed p) = Ret (sequence p, type p).
Proof.
  intros Hp. unfold UnPackSequenceAndType.
  rewrite shiftr_pow2, land_255 by lia. change (2 ^ 8) with 256.
  destruct (packed_div_mod p Hp) as [-> ->]. destruct Hp as ((_ & Hs) & _ & He).
  apply Z.leb_le in Hs. by rewrite Hs, He.
Qed.

Lemma pack_invalid seq t :
  kMaxSequenceNumber < seq ∨ IsExtendedValueType t = false →
  PackSequenceAndType seq t = Fault AssertionFailed.
Proof.
  unfold PackSequenceAndType. intros H.
  destruct (Z.leb_spec seq kMaxSequenceNumber); [|done].
  destruct H as [| ->]; [lia|done].
Qed.

Section key_lemmas.
Context `{Platform}.

Lemma AppendInternalKey_valid result p :
  valid_key p → AppendInternalKey result p = Ret (result ++ encode_key p).
Proof.
  intros Hp. unfold AppendInternalKey. rewrite pack_valid by done. cbn.
  rewrite PutFixed64_le. unfold encode_key. by rewrite <-app_assoc.
Qed.

Lemma split_footer k : 8 ≤ zlen k → k = without_footer k ++ footer_of k.
Proof. intros _. unfold without_footer, footer_of. by rewrite take_drop. Qed.
Lemma zlen_footer_of k : 8 ≤ zlen k → zlen (footer_of k) = 8.
Proof. intros ?. unfold footer_of. zlen. Qed.
Lemma zlen_without_footer k : 8 ≤ zlen k → zlen (without_footer k) = zlen k - 8.
Proof. intros ?. unfold without_footer. zlen. Qed.

Lemma footer_of_app uk f : zlen f = 8 → footer_of (uk ++ f) = f.
Proof. intros Hf. unfold footer_of. apply drop_zlen_app. zlen. Qed.
Lemma without_footer_app uk f : zlen f = 8 → without_footer (uk ++ f) = uk.
Proof. intros Hf. unfold without_footer. apply take_zlen_app. zlen. Qed.

Lemma DecodeFixed64_exact v : 0 ≤ v < 2 ^ 64 → DecodeFixed64 (le_bytes 8 v) = v.
Proof.
  intros Hv. rewrite <-(app_nil_r (le_bytes 8 v)), DecodeFixed64_app. by apply u64_small.
Qed.

Lemma zlen_encode_key p : zlen (encode_key p) = InternalKeyEncodingLength p.
Proof. unfold encode_key, InternalKeyEncodingLength. zlen. Qed.
Lemma zlen_encode_key_ge p : 8 ≤ zlen (encode_key p).
Proof. rewrite zlen_encode_key. unfold InternalKeyEncodingLength. zlen. Qed.

Lemma footer_encode_key p :
  valid_key p →
  DecodeFixed64 (footer_of (encode_key p)) = packed p ∧
  without_footer (encode_key p) = user_key p.
Proof.
  intros (_ & _ & ?)%valid_key_bounds. unfold encode_key.
  rewrite footer_of_app, without_footer_app by zlen. by rewrite DecodeFixed64_exact.
Qed.

Lemma parse_footer n : Z.shiftr n 8 = n / 256 ∧ Z.land n 255 = n mod 256.
Proof. rewrite shiftr_pow2, land_255 by lia. done. Qed.

Lemma ParseInternalKey_encode p r :
  valid_key p → ParseInternalKey (encode_key p) r = (true, p).
Proof.
  intros Hp. unfold ParseInternalKey. pose proof (zlen_encode_key_ge p).
  destruct (Z.ltb_spec (zlen (encode_key p)) 8); [lia|].
  destruct (footer_encode_key p Hp) as [-> ->].
  destruct (parse_footer (packed p)) as [-> ->].
  destruct (packed_div_mod p Hp) as [-> ->]. destruct Hp as (_ & _ & Ht), p. cbn in *.
  by rewrite Ht.
Qed.

(** The parse of a key that is long enough, whatever its footer. *)
Lemma ParseInternalKey_long k r :
  8 ≤ zlen k →
  let n := DecodeFixed64 (footer_of k) in
  ParseInternalKey k r =
  (IsExtendedValueType (n mod 256), mkParsedInternalKey (without_footer k) (n / 256) (n mod 256)).
Proof.
  intros Hk n. unfold ParseInternalKey. destruct (Z.ltb_spec (zlen k) 8); [lia|].
  fold n. by destruct (parse_footer n) as [-> ->].
Qed.

Lemma ParseInternalKey_valid k r p :
  ParseInternalKey k r = (true, p) → valid_key p ∧ encode_key p = k.
Proof.
  destruct (decide (zlen k < 8)) as [Hs|Hl].
  { unfold ParseInternalKey. destruct (Z.ltb_spec (zlen k) 8); [intros [=]|lia]. }
  rewrite ParseInternalKey_long by lia. set (n := DecodeFixed64 (footer_of k)).
  intros [= Ht <-].
  assert (0 ≤ n < 2 ^ 64) by (apply DecodeFixed64_range; rewrite zlen_footer_of; lia).
  pose proof (Z.div_mod n 256 ltac:(lia)). pose proof (Z.mod_pos_bound n 256 ltac:(lia)).
  split.
  - split_and!; cbn; [| |lia|done].
    + apply Z.div_pos; lia.
    + assert (n / 256 < 2 ^ 56); [|rewrite kMaxSequenceNumber_eq; lia].
      apply Z.div_lt_upper_bound; [lia|]. change (256 * 2 ^ 56) with (2 ^ 64). lia.
  - unfold encode_key, packed. cbn [user_key sequence type].
    replace (n / 256 * 256 + n mod 256) with n by lia.
    rewrite (split_footer k) at 2 by lia. f_equal. unfold n.
    rewrite DecodeFixed64_le by (rewrite zlen_footer_of; lia).
    rewrite firstn_all2 by (pose proof (zlen_footer_of k); unfold zlen in *; lia).
    assert (length (footer_of k) = 8%nat) as <-
      by (pose proof (zlen_footer_of k); unfold zlen in *; lia).
    apply le_bytes_le_val.
Qed.

Lemma ExtractUserKey_long k : 8 ≤ zlen k → ExtractUserKey k = Ret (without_footer k).
Proof.
  intros Hk. unfold ExtractUserKey. rewrite Z.geb_leb.
  by destruct (Z.leb_spec 8 (zlen k)); [|lia].
Qed.
Lemma ExtractUserKey_encode p : valid_key p → ExtractUserKey (encode_key p) = Ret (user_key p).
Proof.
  intros Hp. rewrite ExtractUserKey_long by apply zlen_encode_key_ge.
  by destruct (footer_encode_key p Hp) as [_ ->].
Qed.
End key_lemmas.

(** ** The order of internal keys *)

#[global] Arguments InternalKeyComparator_Compare : simpl never.
#[global] Arguments encode_key : simpl never.
#[global] Arguments ParseInternalKey : simpl never.

Section order_lemmas.
Context `{Platform} (c : Comparator) `{!ComparatorLaws c}.

(** The specification: user key increasing, then packed number decreasing. *)
Definition ik_order (ua : bytes) (na : Z) (ub : bytes) (nb : Z) : Z :=
  let r := @Compare c ua ub in if r =? 0 then decreasing na nb 0 else r.

Lemma ik_order_le ua na ub nb :
  ik_order ua na ub nb ≤ 0 ↔
  @Compare c ua ub < 0 ∨ @Compare c ua ub = 0 ∧ nb ≤ na.
Proof. unfold ik_order, decreasing. cbv zeta. zbool; lia. Qed.
Lemma ik_order_lt ua na ub nb :
  ik_order ua na ub nb < 0 ↔
  @Compare c ua ub < 0 ∨ @Compare c ua ub = 0 ∧ nb < na.
Proof. unfold ik_order, decreasing. cbv zeta. zbool; lia. Qed.
Lemma ik_order_eq ua na ub nb :
  ik_order ua na ub nb = 0 ↔ @Compare c ua ub = 0 ∧ na = nb.
Proof. unfold ik_order, decreasing. cbv zeta. zbool; lia. Qed.

Lemma ik_order_sgn_sym ua na ub nb :
  Z.sgn (ik_order ub nb ua na) = - Z.sgn (ik_order ua na ub nb).
Proof.
  unfold ik_order, decreasing. cbv zeta. pose proof (Compare_sgn_sym ua ub).
  zbool; lia.
Qed.

Lemma ik_order_trans ua na ub nb ud nd :
  ik_order ua na ub nb ≤ 0 → ik_order ub nb ud nd ≤ 0 → ik_order ua na ud nd ≤ 0.
Proof.
  rewrite !ik_order_le.
  intros [Hab|[Hab ?]] [Hbd|[Hbd ?]].
  - left. apply (Compare_lt_le_trans c _ ub); lia.
  - left. apply (Compare_lt_le_trans c _ ub); lia.
  - left. apply (Compare_le_lt_trans c _ ub); lia.
  - right. split; [|lia]. exact (transitivity (R:=key_equiv c) Hab Hbd).
Qed.

Lemma InternalKeyComparator_Compare_long a b :
  8 ≤ zlen a → 8 ≤ zlen b →
  InternalKeyComparator_Compare c a b =
  Ret (ik_order (without_footer a) (DecodeFixed64 (footer_of a))
                (without_footer b) (DecodeFixed64 (footer_of b))).
Proof.
  intros Ha Hb. unfold InternalKeyComparator_Compare, ik_order.
  rewrite !ExtractUserKey_long by done. cbn.
  destruct (Z.eqb_spec (@Compare c (without_footer a) (without_footer b)) 0) as [-> |]; done.
Qed.

Lemma CompareKeySeq_long a b :
  8 ≤ zlen a → 8 ≤ zlen b →
  CompareKeySeq c a b =
  Ret (ik_order (without_footer a) (DecodeFixed64 (footer_of a) / 256)
                (without_footer b) (DecodeFixed64 (footer_of b) / 256)).
Proof.
  intros Ha Hb. unfold CompareKeySeq, ik_order.
  rewrite !ExtractUserKey_long, !shiftr_pow2 by (done || lia). cbn.
  destruct (Z.eqb_spec (@Compare c (without_footer a) (without_footer b)) 0) as [-> |]; done.
Qed.

Lemma InternalKeyComparator_Compare_encode p q :
  valid_key p → valid_key q →
  InternalKeyComparator_Compare c (encode_key p) (encode_key q) =
  Ret (ik_order (user_key p) (packed p) (user_key q) (packed q)).
Proof.
  intros Hp Hq. rewrite InternalKeyComparator_Compare_long by apply zlen_encode_key_ge.
  destruct (footer_encode_key p Hp) as [-> ->]. by destruct (footer_encode_key q Hq) as [-> ->].
Qed.

(** Comparing packed numbers is comparing sequence numbers, then types. *)
Lemma Compare_parsed_packed p q :
  valid_key p → valid_key q →
  Compare_parsed c p q = ik_order (user_key p) (packed p) (user_key q) (packed q).
Proof.
  intros (_ & Hp & _)%valid_key_bounds (_ & Hq & _)%valid_key_bounds.
  unfold Compare_parsed, ik_order, packed, decreasing. cbn.
  destruct (Z.eqb_spec (@Compare c (user_key p) (user_key q)) 0) as [-> |]; [|done].
  zbool; lia.
Qed.

(** The key a seek starts from. *)
Definition seek_key (uk : bytes) : ParsedInternalKey :=
  mkParsedInternalKey uk kMaxSequenceNumber kValueTypeForSeek.

Lemma valid_seek_key uk : valid_key (seek_key uk).
Proof. by repeat split. Qed.

Lemma packed_seek_key_max uk p : valid_key p → packed p ≤ packed (seek_key uk).
Proof.
  intros (? & ? & _)%valid_key_bounds. unfold packed. cbn.
  rewrite kMaxSequenceNumber_eq. unfold kValueTypeForSeek, kTypeDeletionWithTimestamp. lia.
Qed.

(** The footer the shorteners tack on. *)
Lemma shorten_append tmp :
  (packed ← PackSequenceAndType kMaxSequenceNumber kValueTypeForSeek;
   Ret (PutFixed64 tmp packed)) = Ret (encode_key (seek_key tmp)).
Proof.
  pose proof (pack_valid (seek_key tmp) (valid_seek_key tmp)) as E. cbn in E.
  rewrite E. cbn. by rewrite PutFixed64_le.
Qed.

Lemma pack_seek tmp :
  PackSequenceAndType kMaxSequenceNumber kValueTypeForSeek = Ret (packed (seek_key tmp)).
Proof. apply (pack_valid (seek_key tmp) (valid_seek_key tmp)). Qed.
Lemma put_seek tmp : PutFixed64 tmp (packed (seek_key tmp)) = encode_key (seek_key tmp).
Proof. by rewrite PutFixed64_le. Qed.

Lemma Compare_below_seek start tmp :
  8 ≤ zlen start → @Compare c (without_footer start) tmp < 0 →
  ∃ r, InternalKeyComparator_Compare c start (encode_key (seek_key tmp)) = Ret r ∧ r < 0.
Proof.
  intros Hs Htmp. eexists.
  rewrite InternalKeyComparator_Compare_long by (done || apply zlen_encode_key_ge).
  split; [done|]. apply ik_order_lt. left.
  by destruct (footer_encode_key (seek_key tmp) (valid_seek_key tmp)) as [_ ->].
Qed.
Lemma Compare_seek_below tmp limit :
  8 ≤ zlen limit → @Compare c tmp (without_footer limit) < 0 →
  ∃ r, InternalKeyComparator_Compare c (encode_key (seek_key tmp)) limit = Ret r ∧ r < 0.
Proof.
  intros Hl Htmp. eexists.
  rewrite InternalKeyComparator_Compare_long by (done || apply zlen_encode_key_ge).
  split; [done|]. apply ik_order_lt. left.
  by destruct (footer_encode_key (seek_key tmp) (valid_seek_key tmp)) as [_ ->].
Qed.
Lemma Compare_same start :
  8 ≤ zlen start → InternalKeyComparator_Compare c start start = Ret 0.
Proof.
  intros Hs. rewrite InternalKeyComparator_Compare_long by done.
  f_equal. apply ik_order_eq. split; [apply Compare_refl|done].
Qed.

Lemma zlen_seek_key start tmp :
  8 ≤ zlen start → zlen tmp ≤ zlen (without_footer start) →
  zlen (encode_key (seek_key tmp)) ≤ zlen start.
Proof.
  intros Hs. rewrite zlen_encode_key, zlen_without_footer by done.
  unfold InternalKeyEncodingLength. cbn. lia.
Qed.

(** The separator is [*start] itself or the seek key of the shorter user key. *)
Lemma FindShortestSeparator_cases start limit :
  8 ≤ zlen start → 8 ≤ zlen limit →
  @Compare c (without_footer start) (without_footer limit) < 0 →
  InternalKeyComparator_FindShortestSeparator c start limit = Ret start ∨
  ∃ tmp,
    InternalKeyComparator_FindShortestSeparator c start limit
      = Ret (encode_key (seek_key tmp)) ∧
    zlen tmp ≤ zlen (without_footer start) ∧
    @Compare c (without_footer start) tmp < 0 ∧
    @Compare c tmp (without_footer limit) < 0.
Proof.
  intros Hs Hl Hlt. unfold InternalKeyComparator_FindShortestSeparator.
  rewrite !ExtractUserKey_long by done. cbn.
  destruct (FindShortestSeparator_range _ _ Hlt) as [_ Hlow].
  set (tmp := @FindShortestSeparator c _ _) in *.
  destruct (andb _ _) eqn:Hb; [right; exists tmp|by left].
  apply andb_true_iff in Hb as [Hsz%Z.leb_le Hcmp%Z.ltb_lt].
  destruct (Compare_below_seek start tmp) as (r1 & E1 & Hr1%Z.ltb_lt); [done..|].
  destruct (Compare_seek_below tmp limit) as (r2 & E2 & Hr2%Z.ltb_lt); [done..|].
  rewrite (pack_seek tmp). cbn. rewrite put_seek, E1. cbn. rewrite Hr1. cbn.
  rewrite E2. cbn. by rewrite Hr2.
Qed.

(** A user key that is not below the limit: a shortened key fails the second
    assertion. *)
Lemma FindShortestSeparator_not_below start limit :
  8 ≤ zlen start → 8 ≤ zlen limit →
  0 ≤ @Compare c (without_footer start) (without_footer limit) →
  let tmp := @FindShortestSeparator c (without_footer start) (without_footer limit) in
  InternalKeyComparator_FindShortestSeparator c start limit =
  if (zlen tmp <=? zlen (without_footer start)) && (@Compare c (without_footer start) tmp <? 0)
  then Fault AssertionFailed else Ret start.
Proof.
  intros Hs Hl Hge tmp. unfold InternalKeyComparator_FindShortestSeparator.
  rewrite !ExtractUserKey_long by done. cbn. fold tmp.
  destruct (andb _ _) eqn:Hb; [|done]. apply andb_true_iff in Hb as [_ Hcmp%Z.ltb_lt].
  destruct (Compare_below_seek start tmp) as (r1 & E1 & Hr1%Z.ltb_lt); [done..|].
  rewrite (pack_seek tmp). cbn. rewrite put_seek, E1. cbn. rewrite Hr1. cbn.
  assert (@Compare c (without_footer limit) tmp < 0) as Hlt.
  { apply (Compare_le_lt_trans c _ (without_footer start)); [by apply Compare_le_flip|done]. }
  destruct (Compare_below_seek limit tmp Hl Hlt) as (r2 & E2 & Hr2).
  rewrite InternalKeyComparator_Compare_long in E2 |- * by (done || apply zlen_encode_key_ge).
  injection E2 as E2. cbn [mbind outcome_bind]. rewrite (proj2 (Z.ltb_ge _ _)); [done|].
  match type of E2 with ik_order ?ua ?na ?ub ?nb = _ =>
    pose proof (ik_order_sgn_sym ua na ub nb) as Hsym end. lia.
Qed.

Lemma FindShortSuccessor_cases key :
  8 ≤ zlen key →
  InternalKeyComparator_FindShortSuccessor c key = Ret key ∨
  ∃ tmp,
    InternalKeyComparator_FindShortSuccessor c key = Ret (encode_key (seek_key tmp)) ∧
    zlen tmp ≤ zlen (without_footer key) ∧
    @Compare c (without_footer key) tmp < 0.
Proof.
  intros Hs. unfold InternalKeyComparator_FindShortSuccessor.
  rewrite !ExtractUserKey_long by done. cbn.
  set (tmp := @FindShortSuccessor c _) in *.
  destruct (andb _ _) eqn:Hb; [right; exists tmp|by left].
  apply andb_true_iff in Hb as [Hsz%Z.leb_le Hcmp%Z.ltb_lt].
  destruct (Compare_below_seek key tmp) as (r1 & E1 & Hr1%Z.ltb_lt); [done..|].
  rewrite (pack_seek tmp). cbn. rewrite put_seek, E1. cbn. by rewrite Hr1.
Qed.
End order_lemmas.

(** ** Properties *)

(** C2: the internal-key codec.  A key that meets the assertions is encoded
    as its user key and the little-endian footer, of the announced length, and
    parses back; a key that parses is valid and encodes to the bytes it was
    parsed from, so two keys never share an encoding; a string shorter than
    the footer is refused with [*result] untouched; and a key that is not
    valid stops at an assertion. *)
Theorem internal_key_codec `{Platform} k p r result :
  (valid_key p →
     AppendInternalKey result p = Ret (result ++ encode_key p) ∧
     zlen (encode_key p) = InternalKeyEncodingLength p ∧
     ParseInternalKey (encode_key p) r = (true, p)) ∧
  (ParseInternalKey k r = (true, p) → valid_key p ∧ AppendInternalKey [] p = Ret k) ∧
  (zlen k < 8 → ParseInternalKey k r = (false, r)) ∧
  (kMaxSequenceNumber < sequence p ∨ IsExtendedValueType (type p) = false →
     AppendInternalKey result p = Fault AssertionFailed).
Proof.
  split_and!.
  - intros Hp. split; [by apply AppendInternalKey_valid|].
    split; [apply zlen_encode_key|by apply ParseInternalKey_encode].
  - intros [Hp <-]%ParseInternalKey_valid. split; [done|]. by apply AppendInternalKey_valid.
  - intros Hk. unfold ParseInternalKey. by destruct (Z.ltb_spec (zlen k) 8); [|lia].
  - intros Hp. unfold AppendInternalKey. by rewrite pack_invalid.
Qed.

(** C32: every accessor agrees with the parse of an encoded key: the user
    key, the footer and its unpacking, the type, the sequence number and the
    full key; and [UpdateInternalKey] replaces the sequence number and type
    in place, keeping the user key. *)
Theorem internal_key_accessors `{Platform} p r fkey s t :
  valid_key p → valid_key (mkParsedInternalKey (user_key p) s t) →
  ExtractUserKey (encode_key p) = Ret (user_key p) ∧
  (ExtractInternalKeyFooter (encode_key p) ≫= UnPackSequenceAndType) =
    Ret (sequence p, type p) ∧
  ExtractValueType (encode_key p) = Ret (type p) ∧
  GetInternalKeySeqno (encode_key p) = Ret (sequence p) ∧
  ParseFullKey (encode_key p) r fkey =
    (true, mkFullKey (user_key p) (sequence p) (GetEntryType (type p))) ∧
  UpdateInternalKey (encode_key p) s t =
    Ret (encode_key (mkParsedInternalKey (user_key p) s t)).
Proof.
  intros Hp Hp'. pose proof (zlen_encode_key_ge p) as Hlen.
  destruct (footer_encode_key p Hp) as [Hf Hu].
  destruct (parse_footer (packed p)) as [Hs Ht].
  destruct (packed_div_mod p Hp) as [Hs' Ht'].
  unfold ExtractValueType, ExtractInternalKeyFooter, GetInternalKeySeqno, ParseFullKey,
    UpdateInternalKey.
  rewrite ExtractUserKey_encode, ParseInternalKey_encode by done.
  rewrite Z.geb_leb. destruct (Z.leb_spec 8 (zlen (encode_key p))); [|lia]. cbn.
  rewrite Hf, unpack_packed, Hs, Ht, Hs', Ht' by done.
  split_and!; try done.
  fold (without_footer (encode_key p)). rewrite Hu, EncodeFixed64_le.
  pose proof (footer_number _ Hp') as E. cbn in E. by rewrite E.
Qed.

Lemma internal_key_accessors_witness :
  let P := LittleEndianHost in
  let p := mkParsedInternalKey [z2b 97] 5 kTypeValue in
  ExtractUserKey (encode_key p) = Ret [z2b 97] ∧
  UpdateInternalKey (encode_key p) 6 kTypeDeletion =
    Ret (encode_key (mkParsedInternalKey [z2b 97] 6 kTypeDeletion)).
Proof.
  intros P p.
  destruct (internal_key_accessors p p (mkFullKey [] 0 kEntryOther) 6 kTypeDeletion)
    as (H1 & _ & _ & _ & _ & H6).
  - by_decide.
  - by_decide.
  - split; [exact H1|exact H6].
Defined.

(** C3: the two ways to compare internal keys agree: comparing encoded keys
    by their footers is comparing the parsed keys by sequence number and then
    type.  On keys of at least eight bytes the comparison never stops at an
    assertion and is a total order: user key increasing, footer decreasing;
    [CompareKeySeq] is the coarser order without the type. *)
Theorem internal_key_order `{Platform} (c : Comparator) `{!ComparatorLaws c} p q a b d :
  valid_key p → valid_key q → 8 ≤ zlen a → 8 ≤ zlen b → 8 ≤ zlen d →
  InternalKeyComparator_Compare c (encode_key p) (encode_key q) = Ret (Compare_parsed c p q) ∧
  ∃ ab ba bd ad ab',
    InternalKeyComparator_Compare c a b = Ret ab ∧
    InternalKeyComparator_Compare c b a = Ret ba ∧
    InternalKeyComparator_Compare c b d = Ret bd ∧
    InternalKeyComparator_Compare c a d = Ret ad ∧
    CompareKeySeq c a b = Ret ab' ∧
    (ab = 0 ↔ key_equiv c (without_footer a) (without_footer b) ∧ footer_of a = footer_of b) ∧
    Z.sgn ba = - Z.sgn ab ∧
    (ab ≤ 0 ∧ bd ≤ 0 → ad ≤ 0) ∧
    (ab' < 0 → ab < 0) ∧ (0 < ab' → 0 < ab).
Proof.
  intros Hp Hq Ha Hb Hd. split.
  { by rewrite InternalKeyComparator_Compare_encode, Compare_parsed_packed. }
  rewrite !InternalKeyComparator_Compare_long, CompareKeySeq_long by done.
  do 5 eexists. do 5 (split; [done|]).
  assert (DecodeFixed64 (footer_of a) = DecodeFixed64 (footer_of b) ↔
          footer_of a = footer_of b) as Hinj.
  { split; [|by intros ->]. rewrite !DecodeFixed64_le by (rewrite zlen_footer_of; lia).
    pose proof (zlen_footer_of a Ha) as La. pose proof (zlen_footer_of b Hb) as Lb.
    unfold zlen in La, Lb. rewrite !firstn_all2 by lia. intros E.
    rewrite <-(le_bytes_le_val (footer_of a)), <-(le_bytes_le_val (footer_of b)), E.
    f_equal. lia. }
  split_and!.
  - rewrite ik_order_eq, Hinj. done.
  - by apply ik_order_sgn_sym.
  - intros []. by eapply ik_order_trans.
  - rewrite !ik_order_lt. intros [|[? Hlt]]; [by left|right]. split; [done|].
    apply Z.nle_gt. intros Hle. apply (Z.div_le_mono _ _ 256) in Hle; lia.
  - intros Hgt. apply Z.nle_gt. rewrite ik_order_le. intros Hle.
    apply Z.nle_gt in Hgt. apply Hgt. rewrite ik_order_le.
    destruct Hle as [|[? Hle]]; [by left|right]. split; [done|].
    apply Z.div_le_mono; lia.
Qed.

Lemma internal_key_order_witness :
  let P := LittleEndianHost in
  InternalKeyComparator_Compare SliceComparator
    (encode_key (mkParsedInternalKey [z2b 97] 7 kTypeValue))
    (encode_key (mkParsedInternalKey [z2b 97] 5 kTypeValue)) = Ret (-1).
Proof.
  intros P.
  set (p := mkParsedInternalKey [z2b 97] 7 kTypeValue).
  set (q := mkParsedInternalKey [z2b 97] 5 kTypeValue).
  assert (8 ≤ zlen (encode_key p)) as Hl by by_decide.
  assert (valid_key p) as Hp by by_decide.
  assert (valid_key q) as Hq by by_decide.
  destruct (internal_key_order SliceComparator p q _ _ _ Hp Hq Hl Hl Hl) as [E _].
  rewrite E. reflexivity.
Defined.

(** C16: the key shorteners, for every user comparator that keeps its contract.
    The short successor of any key is computed without an assertion firing, is
    not below the key and not longer.  The separator depends on the user keys.
    When that of [*start] is below that of [limit], no assertion fires, and the
    separator is no longer than [*start] and lies in [start, limit) in the order
    of internal keys.  When it is not (it is equal for a key and an older version
    of it), the contract says nothing of the user comparator's separator: one
    that is not longer than the user key and above it fails an assertion, and
    any other leaves [*start] as it is. *)
Theorem internal_key_shorteners `{Platform} (c : Comparator) `{!ComparatorLaws c} start :
  8 ≤ zlen start →
  (∃ s r,
    InternalKeyComparator_FindShortSuccessor c start = Ret s ∧
    zlen s ≤ zlen start ∧
    InternalKeyComparator_Compare c start s = Ret r ∧ r ≤ 0) ∧
  (∀ limit, 8 ≤ zlen limit →
   let user_start := without_footer start in
   let user_limit := without_footer limit in
   (@Compare c user_start user_limit < 0 → ∃ s r1 r2,
      InternalKeyComparator_FindShortestSeparator c start limit = Ret s ∧
      zlen s ≤ zlen start ∧
      InternalKeyComparator_Compare c start s = Ret r1 ∧ r1 ≤ 0 ∧
      InternalKeyComparator_Compare c s limit = Ret r2 ∧ r2 < 0) ∧
   (0 ≤ @Compare c user_start user_limit →
      let tmp := @FindShortestSeparator c user_start user_limit in
      InternalKeyComparator_FindShortestSeparator c start limit =
      if (zlen tmp <=? zlen user_start) && (@Compare c user_start tmp <? 0)
      then Fault AssertionFailed else Ret start)).
Proof.
  intros Hs. split; [|intros limit Hl user_start user_limit; split; intros Hlt].
  - destruct (FindShortSuccessor_cases c start) as [E|(tmp & E & ? & Hup)]; [done| |].
    + exists start, 0. rewrite Compare_same by done. by split_and!.
    + destruct (Compare_below_seek c start tmp) as (r1 & ? & ?); [done..|].
      exists (encode_key (seek_key tmp)), r1.
      split_and!; [done|by apply zlen_seek_key|done|lia].
  - destruct (FindShortestSeparator_cases c start limit) as [E|(tmp & E & ? & Hup & Hdn)];
      [done..| |].
    + exists start, 0. eexists. rewrite Compare_same by done.
      rewrite InternalKeyComparator_Compare_long by done.
      split_and!; [done..|]. apply ik_order_lt. by left.
    + destruct (Compare_below_seek c start tmp) as (r1 & ? & ?); [done..|].
      destruct (Compare_seek_below c tmp limit) as (r2 & ? & ?); [done..|].
      exists (encode_key (seek_key tmp)), r1, r2.
      split_and!; [done|by apply zlen_seek_key|done|lia|done..].
  - by apply FindShortestSeparator_not_below.
Qed.

Lemma internal_key_shorteners_witness :
  let P := LittleEndianHost in
  let start := encode_key (mkParsedInternalKey [z2b 97] 7 kTypeValue) in
  let limit := encode_key (mkParsedInternalKey [z2b 99] 5 kTypeValue) in
  (∃ s r, InternalKeyComparator_FindShortSuccessor SliceComparator start = Ret s ∧
     InternalKeyComparator_Compare SliceComparator start s = Ret r ∧ r ≤ 0) ∧
  (∃ s r, InternalKeyComparator_FindShortestSeparator SliceComparator start limit = Ret s ∧
     InternalKeyComparator_Compare SliceComparator s limit = Ret r ∧ r < 0) ∧
  InternalKeyComparator_FindShortestSeparator SliceComparator limit start = Ret limit.
Proof.
  intros P start limit.
  destruct (internal_key_shorteners SliceComparator start) as [(s & r & H1 & _ & H2 & H3) Hsep]; [by_decide|].
  destruct (Hsep limit) as [Hlt _]; [by_decide|].
  destruct (internal_key_shorteners SliceComparator limit) as [_ Hsep']; [by_decide|].
  destruct (Hsep' start) as [_ Hge]; [by_decide|].
  split; [exists s, r; by split_and!|]. split.
  - destruct Hlt as (s' & r1 & r2 & E & _ & _ & _ & E2 & Hr); [by_decide|].
    exists s', r2. split; [exact E|]. split; [exact E2|exact Hr].
  - rewrite Hge by by_decide. reflexivity.
Defined.

(** The bounds of a user key.  Among all valid keys with a given user
    key, the one [SetMinPossibleForUserKey] builds comes first and the one of
    [SetMaxPossibleForUserKey] comes last, as the comments of [InternalKey]
    say. *)
Theorem user_key_bounds `{Platform} (c : Comparator) `{!ComparatorLaws c} p :
  valid_key p →
  ∃ kmin kmax r1 r2,
    SetMinPossibleForUserKey [] (user_key p) = Ret kmin ∧
    SetMaxPossibleForUserKey [] (user_key p) = Ret kmax ∧
    InternalKeyComparator_Compare c kmin (encode_key p) = Ret r1 ∧ r1 ≤ 0 ∧
    InternalKeyComparator_Compare c (encode_key p) kmax = Ret r2 ∧ r2 ≤ 0.
Proof.
  intros Hp. set (pmax := mkParsedInternalKey (user_key p) 0 0).
  assert (valid_key pmax) as Hmax by by repeat split.
  pose proof (valid_seek_key (user_key p)) as Hmin.
  exists (encode_key (seek_key (user_key p))), (encode_key pmax). do 2 eexists.
  unfold SetMinPossibleForUserKey, SetMaxPossibleForUserKey.
  rewrite (AppendInternalKey_valid [] (seek_key (user_key p))) by done.
  rewrite (AppendInternalKey_valid [] pmax) by done.
  rewrite !InternalKeyComparator_Compare_encode by done.
  pose proof (packed_seek_key_max (user_key p) p Hp).
  destruct (valid_key_bounds p Hp) as (? & ? & _).
  split_and!; [done..| |done|]; apply ik_order_le; right; (split; [apply Compare_refl|]);
    [done|unfold packed; cbn; lia].
Qed.

Lemma user_key_bounds_witness :
  let P := BigEndianHost in
  let p := mkParsedInternalKey [z2b 97] 7 kTypeValue in
  ∃ kmin r, SetMinPossibleForUserKey [] (user_key p) = Ret kmin ∧
    InternalKeyComparator_Compare SliceComparator kmin (encode_key p) = Ret r ∧ r ≤ 0.
Proof.
  intros P p. assert (valid_key p) as Hp by by_decide.
  destruct (user_key_bounds SliceComparator p Hp) as (kmin & _ & r & _ & H1 & _ & H3 & H4 & _).
  exists kmin, r. split; [exact H1|]. split; [exact H3|exact H4].
Defined.

(** C38: the serialized end key of a range tombstone.  It sorts before a key
    with the same user key exactly when that key's sequence number is below
    the maximum, or its type is below [kTypeRangeDeletion]; the keys at the
    maximal sequence number with a larger type (a seek key, for one) sort
    before it, although the comment says it compares less than any other. *)
Theorem tombstone_end_key `{Platform} (c : Comparator) `{!ComparatorLaws c} t p :
  valid_key p → user_key p = end_key_ t →
  ∃ ek r,
    RangeTombstone_SerializeEndKey t = Ret ek ∧
    InternalKeyComparator_Compare c ek (encode_key p) = Ret r ∧
    (r < 0 ↔ sequence p < kMaxSequenceNumber ∨ type p < kTypeRangeDeletion) ∧
    ∃ r', InternalKeyComparator_Compare c (encode_key (seek_key (end_key_ t))) ek = Ret r' ∧
          r' < 0.
Proof.
  intros Hp Hu.
  set (pe := mkParsedInternalKey (end_key_ t) kMaxSequenceNumber kTypeRangeDeletion).
  assert (valid_key pe) as He by by repeat split.
  unfold RangeTombstone_SerializeEndKey, InternalKey_make.
  rewrite (AppendInternalKey_valid [] pe) by done.
  exists (encode_key pe). eexists. split; [done|].
  rewrite !InternalKeyComparator_Compare_encode by (done || apply valid_seek_key).
  split; [done|]. rewrite ik_order_lt. cbn [user_key pe]. rewrite Hu, Compare_refl.
  destruct (valid_key_bounds p Hp) as (? & ? & _).
  assert (kMaxSequenceNumber = 2 ^ 56 - 1) as Hmax by done.
  unfold packed, kTypeRangeDeletion, kValueTypeForSeek, kTypeDeletionWithTimestamp in *.
  cbn [sequence type pe]. split; [lia|].
  eexists. split; [done|]. apply ik_order_lt. right. split; [apply Compare_refl|].
  cbn [sequence type seek_key].
  unfold kValueTypeForSeek, kTypeDeletionWithTimestamp, kTypeRangeDeletion. lia.
Qed.

Lemma tombstone_end_key_witness :
  let P := LittleEndianHost in
  let t := mkRangeTombstone [z2b 97] [z2b 98] 3 in
  ∃ ek r', RangeTombstone_SerializeEndKey t = Ret ek ∧
    InternalKeyComparator_Compare SliceComparator (encode_key (seek_key [z2b 98])) ek = Ret r' ∧
    r' < 0.
Proof.
  intros P t. set (p := mkParsedInternalKey [z2b 98] 7 kTypeValue).
  assert (valid_key p) as Hp by by_decide.
  destruct (tombstone_end_key SliceComparator t p Hp eq_refl) as (ek & r & H1 & _ & _ & r' & H2 & H3).
  exists ek, r'. split; [exact H1|]. split; [exact H2|exact H3].
Defined.
