(* ===== verification/IterKey.v ===== *)
(** * IterKey (db_format/dbformat.h, db_format/dbformat.cc)

    [IterKey] holds a key in a 32-byte buffer inside the object, in a buffer on
    the heap when the key is longer, or as a pointer to memory it does not own
    (a pinned key).  The model has the pointers: an address is the inner buffer
    [Space], a heap buffer by the number of its allocation, or memory outside.
    Reading a heap buffer that was deleted is the fault [UseAfterFree]; a copy
    past the end of a buffer is [OutOfBounds].

    The contract is a specification on the key alone ([spec_step]); the
    refinement theorem says that every sequence of operations that the
    specification allows runs without a fault and holds the specified key.
    Arguments are memory outside the object: passing a slice of the key's own
    buffer is not modelled.  Sizes do not wrap around. *)
From S2P Require Import Prelude Slice Coding DbFormat.

(** ** Data *)

Inductive address :=
  | Space
  | Heap (id : nat)
  | Ext (mem : bytes).

#[global] Instance address_eq_dec : EqDecision address.
Proof. solve_decision. Defined.

(** [heap_] is the memory [buf_] points to when it is on the heap; [next_id]
    numbers the allocations. *)
Record IterKey := mkIterKey {
  buf_ : address;
  key_ : address;
  key_size_ : nat;
  buf_size_ : nat;
  space_ : bytes;
  heap_ : bytes;
  next_id : nat;
  is_user_key_ : bool;
}.

Definition with_key (key : address) (size : nat) (k : IterKey) : IterKey :=
  mkIterKey (buf_ k) key size (buf_size_ k) (space_ k) (heap_ k) (next_id k) (is_user_key_ k).
Definition SetIsUserKey (k : IterKey) (is_user_key : bool) : IterKey :=
  mkIterKey (buf_ k) (key_ k) (key_size_ k) (buf_size_ k) (space_ k) (heap_ k) (next_id k) is_user_key.

(** The memory [buf_] points to. *)
Definition buffer (k : IterKey) : bytes :=
  match buf_ k with Space => space_ k | Heap _ => heap_ k | Ext _ => [] end.

(** Reading [n] bytes at an address. *)
Definition read_at (k : IterKey) (a : address) (n : nat) : outcome bytes :=
  match a with
  | Space => if (n <=? length (space_ k))%nat then Ret (take n (space_ k)) else Fault OutOfBounds
  | Heap id =>
      if decide (buf_ k = Heap id) then
        if (n <=? length (heap_ k))%nat then Ret (take n (heap_ k)) else Fault OutOfBounds
      else Fault UseAfterFree
  | Ext mem => if (n <=? length mem)%nat then Ret (take n mem) else Fault OutOfBounds
  end.

(** [memcpy(buf_ + off, data, size)] *)
Definition write_buf (k : IterKey) (off : nat) (data : bytes) : outcome IterKey :=
  let b := buffer k in
  if (off + length data <=? length b)%nat then
    let b := take off b ++ data ++ drop (off + length data) b in
    match buf_ k with
    | Space => Ret (mkIterKey (buf_ k) (key_ k) (key_size_ k) (buf_size_ k) b (heap_ k) (next_id k)
                      (is_user_key_ k))
    | _ => Ret (mkIterKey (buf_ k) (key_ k) (key_size_ k) (buf_size_ k) (space_ k) b (next_id k)
                  (is_user_key_ k))
    end
  else Fault OutOfBounds.

(** ** Operations *)

(** The constructor; [space_] is not initialised. *)
Definition IterKey_new (space : bytes) : IterKey := mkIterKey Space Space 0 32 space [] 0 true.

Definition IsKeyPinned (k : IterKey) : bool := negb (bool_decide (key_ k = buf_ k)).
Definition GetKey (k : IterKey) : outcome bytes := read_at k (key_ k) (key_size_ k).
Definition GetInternalKey (k : IterKey) : outcome bytes :=
  assert! negb (is_user_key_ k) ;; GetKey k.
Definition GetUserKey (k : IterKey) : outcome bytes :=
  if is_user_key_ k then GetKey k
  else assert! (8 <=? key_size_ k)%nat ;; read_at k (key_ k) (key_size_ k - 8).
Definition Size (k : IterKey) : nat := key_size_ k.
Definition Clear (k : IterKey) : IterKey := with_key (key_ k) 0 k.

(** Deletes a heap buffer: its memory is gone, the inner buffer is current. *)
Definition ResetBuffer (k : IterKey) : IterKey :=
  mkIterKey Space (key_ k) 0 32 (space_ k) [] (next_id k) (is_user_key_ k).

Section ops.
Context `{Platform}.
(** The memory of an allocation of [n] bytes. *)
Context (uninit : nat → nat → bytes).

(** [buf_ = new char[n]], [buf_size_ = n] *)
Definition new_buffer (k : IterKey) (n : nat) : IterKey :=
  mkIterKey (Heap (next_id k)) (key_ k) (key_size_ k) n (space_ k) (uninit (next_id k) n)
    (S (next_id k)) (is_user_key_ k).

Definition EnlargeBuffer (k : IterKey) (key_size : nat) : outcome IterKey :=
  assert! (buf_size_ k <? key_size)%nat ;;
  Ret (new_buffer (ResetBuffer k) key_size).

Definition EnlargeBufferIfNeeded (k : IterKey) (key_size : nat) : outcome IterKey :=
  if (buf_size_ k <? key_size)%nat then EnlargeBuffer k key_size else Ret k.

Definition Reserve (k : IterKey) (size : nat) : outcome IterKey :=
  k ← EnlargeBufferIfNeeded k size;
  Ret (with_key (key_ k) size k).

(** [SetKeyImpl]; the slice it returns is that of [GetKey]. *)
Definition SetKeyImpl (k : IterKey) (key : bytes) (copy : bool) : outcome IterKey :=
  if copy then
    k ← EnlargeBufferIfNeeded k (length key);
    k ← write_buf k 0 key;
    Ret (with_key (buf_ k) (length key) k)
  else Ret (with_key (Ext key) (length key) k).

Definition SetKey (k : IterKey) (key : bytes) (copy : bool) : outcome IterKey :=
  SetKeyImpl k key copy.
Definition SetUserKey (k : IterKey) (key : bytes) (copy : bool) : outcome IterKey :=
  SetKeyImpl (SetIsUserKey k true) key copy.
Definition SetInternalKey_slice (k : IterKey) (key : bytes) (copy : bool) : outcome IterKey :=
  SetKeyImpl (SetIsUserKey k false) key copy.

(** With [ikey]: the user key it is made to refer to, and the key. *)
Definition SetInternalKey_ikey (k : IterKey) (key : bytes) : outcome (IterKey * bytes * bytes) :=
  assert! (8 <=? length key)%nat ;;
  k ← SetInternalKey_slice k key true;
  uk ← read_at k (key_ k) (length key - 8);
  r ← read_at k (key_ k) (length key);
  Ret (k, uk, r).

Definition TrimAppend (k : IterKey) (shared_len : nat) (non_shared_data : bytes) : outcome IterKey :=
  assert! (shared_len <=? key_size_ k)%nat ;;
  let total_size := (shared_len + length non_shared_data)%nat in
  k ← (if IsKeyPinned k then
         k ← EnlargeBufferIfNeeded k total_size;
         shared ← read_at k (key_ k) shared_len;
         write_buf k 0 shared
       else if (buf_size_ k <? total_size)%nat then
         shared ← read_at k (key_ k) shared_len;
         let k := new_buffer k total_size in
         write_buf k 0 shared
       else Ret k);
  k ← write_buf k shared_len non_shared_data;
  Ret (with_key (buf_ k) total_size k).

Definition OwnKey (k : IterKey) : outcome IterKey :=
  assert! IsKeyPinned k ;;
  k ← Reserve k (key_size_ k);
  key ← read_at k (key_ k) (key_size_ k);
  k ← write_buf k 0 key;
  Ret (with_key (buf_ k) (key_size_ k) k).

Definition IterKey_UpdateInternalKey (k : IterKey) (seq : Z) (t : ValueType) : outcome IterKey :=
  assert! negb (IsKeyPinned k) ;;
  assert! (8 <=? key_size_ k)%nat ;;
  let newval := Z.lor (u64 (Z.shiftl seq 8)) t in
  write_buf k (key_size_ k - 8) (EncodeFixed64 newval).

(** [SetInternalKey(key_prefix, user_key, s, value_type, ts)] *)
Definition SetInternalKey (k : IterKey) (key_prefix user_key : bytes) (s : Z) (value_type : ValueType)
    (ts : option bytes) : outcome IterKey :=
  let psize := length key_prefix in
  let usize := length user_key in
  let ts_sz := match ts with Some ts => length ts | None => 0%nat end in
  k ← EnlargeBufferIfNeeded k (psize + usize + 8 + ts_sz);
  k ← (if (0 <? psize)%nat then write_buf k 0 key_prefix else Ret k);
  k ← write_buf k psize user_key;
  k ← match ts with Some ts => write_buf k (psize + usize) ts | None => Ret k end;
  packed ← PackSequenceAndType s value_type;
  k ← write_buf k (usize + psize + ts_sz) (EncodeFixed64 packed);
  Ret (SetIsUserKey (with_key (buf_ k) (psize + usize + 8 + ts_sz) k) false).

(** [SetInternalKey(user_key, s, value_type, ts)] *)
Definition SetInternalKey_user (k : IterKey) (user_key : bytes) (s : Z) (value_type : ValueType)
    (ts : option bytes) : outcome IterKey :=
  SetInternalKey k [] user_key s value_type ts.

Definition SetInternalKey_parsed (k : IterKey) (key_prefix : bytes) (p : ParsedInternalKey) :
    outcome IterKey :=
  SetInternalKey k key_prefix (user_key p) (sequence p) (type p) None.

(** The size of the key is not set. *)
Definition EncodeLengthPrefixedKey (k : IterKey) (key : bytes) : outcome IterKey :=
  let size := length key in
  k ← EnlargeBufferIfNeeded k (size + Z.to_nat (VarintLength (zlen key)));
  let ptr := EncodeVarint32 (u32 (zlen key)) in
  k ← write_buf k 0 ptr;
  k ← write_buf k (length ptr) key;
  Ret (SetIsUserKey (with_key (buf_ k) (key_size_ k) k) true).

(** ** Specification *)

(** The key, whether it is pinned and whether it is a user key. *)
Record key_state := mkKeyState { ks_key : bytes; ks_pinned : bool; ks_user : bool }.

Inductive key_op :=
  | OpSetIsUserKey (b : bool)
  | OpSetKey (key : bytes) (copy : bool)
  | OpSetUserKey (key : bytes) (copy : bool)
  | OpSetInternalKey (key : bytes) (copy : bool)
  | OpClear
  | OpTrimAppend (shared_len : nat) (data : bytes)
  | OpOwnKey
  | OpUpdateInternalKey (seq : Z) (t : ValueType)
  | OpBuildInternalKey (key_prefix user_key : bytes) (s : Z) (t : ValueType) (ts : option bytes).

Definition key_step (k : IterKey) (op : key_op) : outcome IterKey :=
  match op with
  | OpSetIsUserKey b => Ret (SetIsUserKey k b)
  | OpSetKey key copy => SetKey k key copy
  | OpSetUserKey key copy => SetUserKey k key copy
  | OpSetInternalKey key copy => SetInternalKey_slice k key copy
  | OpClear => Ret (Clear k)
  | OpTrimAppend shared_len data => TrimAppend k shared_len data
  | OpOwnKey => OwnKey k
  | OpUpdateInternalKey seq t => IterKey_UpdateInternalKey k seq t
  | OpBuildInternalKey key_prefix user_key s t ts => SetInternalKey k key_prefix user_key s t ts
  end.

(** What each operation does to the key, and its assertions. *)
Definition spec_step (a : key_state) (op : key_op) : outcome key_state :=
  match op with
  | OpSetIsUserKey b => Ret (mkKeyState (ks_key a) (ks_pinned a) b)
  | OpSetKey key copy => Ret (mkKeyState key (negb copy) (ks_user a))
  | OpSetUserKey key copy => Ret (mkKeyState key (negb copy) true)
  | OpSetInternalKey key copy => Ret (mkKeyState key (negb copy) false)
  | OpClear => Ret (mkKeyState [] (ks_pinned a) (ks_user a))
  | OpTrimAppend n data =>
      assert! (n <=? length (ks_key a))%nat ;;
      Ret (mkKeyState (take n (ks_key a) ++ data) false (ks_user a))
  | OpOwnKey => assert! ks_pinned a ;; Ret (mkKeyState (ks_key a) false (ks_user a))
  | OpUpdateInternalKey seq t =>
      assert! negb (ks_pinned a) ;;
      key ← UpdateInternalKey (ks_key a) seq t;
      Ret (mkKeyState key false (ks_user a))
  | OpBuildInternalKey key_prefix user_key s t ts =>
      key ← AppendInternalKeyFooter (key_prefix ++ user_key ++ default [] ts) s t;
      Ret (mkKeyState key false false)
  end.
End ops.

(** ** Invariant *)

(** The buffers have their sizes, and [buf_] is a live one. *)
Definition buf_ok (k : IterKey) : Prop :=
  length (space_ k) = 32%nat ∧ buf_size_ k = length (buffer k) ∧
  match buf_ k with Space => True | Heap id => (id < next_id k)%nat | Ext _ => False end.

(** The key is in the buffer or in memory outside, all of it. *)
Definition key_ok (k : IterKey) : Prop :=
  (key_ k = buf_ k ∧ (key_size_ k ≤ buf_size_ k)%nat) ∨
  ∃ mem, key_ k = Ext mem ∧ (key_size_ k ≤ length mem)%nat.

Definition wf (k : IterKey) : Prop := buf_ok k ∧ key_ok k.

Definition represents (k : IterKey) (a : key_state) : Prop :=
  GetKey k = Ret (ks_key a) ∧ IsKeyPinned k = ks_pinned a ∧ is_user_key_ k = ks_user a.

(** ** Lemmas *)

Section iter_key_lemmas.
Context `{Platform} (uninit : nat → nat → bytes).
Hypothesis uninit_length : ∀ id n, length (uninit id n) = n.

Lemma new_buffer_ok k n :
  buf_ok k → buf_ok (new_buffer uninit k n) ∧ buf_size_ (new_buffer uninit k n) = n.
Proof. intros (? & ? & ?). unfold buf_ok. cbn. rewrite uninit_length. split_and!; auto. Qed.

Lemma enlarge_ok k n :
  buf_ok k → ∃ k', EnlargeBufferIfNeeded uninit k n = Ret k' ∧ buf_ok k' ∧ (n ≤ buf_size_ k')%nat ∧
    key_ k' = key_ k ∧ is_user_key_ k' = is_user_key_ k.
Proof.
  intros Hk. unfold EnlargeBufferIfNeeded, EnlargeBuffer.
  destruct (Nat.ltb_spec (buf_size_ k) n) as [Hn|Hn]; [|exists k; done].
  eexists. split; [done|]. destruct Hk as (Hs & _ & _).
  unfold buf_ok. cbn. rewrite uninit_length. split_and!; auto with lia.
Qed.

Lemma write_ok k off data :
  buf_ok k → (off + length data ≤ buf_size_ k)%nat →
  ∃ k', write_buf k off data = Ret k' ∧ buf_ok k' ∧
    buffer k' = take off (buffer k) ++ data ++ drop (off + length data) (buffer k) ∧
    buf_ k' = buf_ k ∧ key_ k' = key_ k ∧ key_size_ k' = key_size_ k ∧
    buf_size_ k' = buf_size_ k ∧ is_user_key_ k' = is_user_key_ k.
Proof.
  intros (Hs & Hb & Hbuf) Hoff. unfold write_buf. rewrite <-Hb.
  rewrite (proj2 (Nat.leb_le _ _)) by done.
  assert (∀ b : bytes, (off + length data ≤ length b)%nat →
    length (take off b ++ data ++ drop (off + length data) b) = length b) as Hlen.
  { intros b Hle. rewrite !length_app, length_take, length_drop. lia. }
  unfold buf_ok, buffer in *. destruct (buf_ k) eqn:Hbk; rewrite ?Hbk in *; [| |done]; (eexists; split; [done|]); cbn;
    rewrite ?Hlen by lia; split_and!; auto.
Qed.

(** The buffer holds [key] at its start: that is the key afterwards. *)
Lemma represents_buffer k key u :
  buf_ok k → take (length key) (buffer k) = key → is_user_key_ k = u →
  wf (with_key (buf_ k) (length key) k) ∧
  represents (with_key (buf_ k) (length key) k) (mkKeyState key false u).
Proof.
  intros Hk Htake Hu. pose proof Hk as (Hs & Hb & Hbuf).
  assert (length key ≤ length (buffer k))%nat as Hle.
  { apply (f_equal length) in Htake. rewrite length_take in Htake. lia. }
  split; [split; [exact Hk|left; split; [done|cbn; lia]]|]. split_and!; [|by apply negb_false_iff, bool_decide_eq_true|done].
  unfold GetKey, read_at, buffer in *. cbn. clear Hb. destruct (buf_ k) eqn:Hbk; rewrite ?Hbk in *; [| |done].
  - rewrite (proj2 (Nat.leb_le _ _)) by lia. cbn in *. by rewrite Htake.
  - rewrite decide_True, (proj2 (Nat.leb_le _ _)) by (done || lia). by rewrite Htake.
Qed.

(** Reading a prefix of the key. *)
Lemma read_prefix k key n :
  wf k → GetKey k = Ret key → (n ≤ key_size_ k)%nat →
  read_at k (key_ k) n = Ret (take n key) ∧ length key = key_size_ k.
Proof.
  intros [(_ & Hb & Hbuf) Hkey] Hget Hn. unfold GetKey, read_at, buffer in *.
  destruct Hkey as [[Hkb Hs]|(mem & Hkb & Hs)]; rewrite Hkb in *.
  - destruct (buf_ k) eqn:Hbk; rewrite ?Hbk in *; [| |done].
    + rewrite (proj2 (Nat.leb_le _ _)) in Hget by lia.
      rewrite (proj2 (Nat.leb_le _ _)) by lia. cbn in Hget; injection Hget as <-.
      rewrite take_take, length_take. split; [do 2 f_equal; lia|lia].
    + rewrite decide_True in Hget |- * by done.
      rewrite (proj2 (Nat.leb_le _ _)) in Hget by lia.
      rewrite (proj2 (Nat.leb_le _ _)) by lia. cbn in Hget; injection Hget as <-.
      rewrite take_take, length_take. split; [do 2 f_equal; lia|lia].
  - rewrite (proj2 (Nat.leb_le _ _)) in Hget by lia.
      rewrite (proj2 (Nat.leb_le _ _)) by lia. cbn in Hget; injection Hget as <-.
    rewrite take_take, length_take. split; [do 2 f_equal; lia|lia].
Qed.

(** A pinned key is in memory outside, and stays readable when [buf_] changes. *)
Lemma pinned_ext k : wf k → IsKeyPinned k = true → ∃ mem, key_ k = Ext mem ∧ (key_size_ k ≤ length mem)%nat.
Proof.
  intros [_ [[Hk _]|Hext]] Hp; [|done]. unfold IsKeyPinned in Hp.
  by rewrite bool_decide_eq_true_2 in Hp.
Qed.

(** A key that is not pinned is at the start of the buffer. *)
Lemma unpinned_buffer k key :
  wf k → IsKeyPinned k = false → GetKey k = Ret key →
  key_ k = buf_ k ∧ (key_size_ k ≤ buf_size_ k)%nat ∧ take (key_size_ k) (buffer k) = key.
Proof.
  intros [(_ & Hb & Hbuf) Hkey] Hp Hget. apply negb_false_iff, bool_decide_eq_true in Hp.
  destruct Hkey as [[_ Hs]|(mem & Hext & _)]; [|by rewrite Hext in Hp; rewrite <-Hp in Hbuf].
  split; [done|]. split; [done|]. unfold GetKey, read_at, buffer in *. rewrite Hp in Hget.
  destruct (buf_ k) eqn:Hbk; rewrite ?Hbk in *; [| |done]; cbn in *.
  - rewrite (proj2 (Nat.leb_le _ _)) in Hget by lia. by injection Hget.
  - rewrite decide_True, (proj2 (Nat.leb_le _ _)) in Hget by (done || lia). by injection Hget.
Qed.

Lemma SetKeyImpl_ok k key copy u :
  wf k → is_user_key_ k = u →
  ∃ k', SetKeyImpl uninit k key copy = Ret k' ∧ wf k' ∧ represents k' (mkKeyState key (negb copy) u).
Proof.
  intros [Hb Hk] Hu. unfold SetKeyImpl. destruct copy.
  - destruct (enlarge_ok k (length key) Hb) as (k1 & -> & Hb1 & Hn & _ & Hu1). cbn [mbind outcome_bind].
    destruct (write_ok k1 0 key Hb1 Hn) as (k2 & -> & Hb2 & Hbuf & _ & _ & _ & _ & Hu2).
    cbn [mbind outcome_bind]. eexists. split; [done|]. apply represents_buffer; [done| |congruence].
    rewrite Hbuf, take_0, app_nil_l. apply take_app_length.
  - eexists. split; [done|]. split.
    + split; [exact Hb|]. right. by exists key.
    + split_and!; [|apply negb_true_iff, bool_decide_eq_false|done].
      * unfold GetKey, read_at. cbn. by rewrite Nat.leb_refl, firstn_all.
      * cbn. destruct Hb as (_ & _ & Hbuf). intros He. by rewrite <-He in Hbuf.
Qed.

(** Two copies one after the other: the second starts where the first ends. *)
Lemma take_write (b data : bytes) off key :
  length key = off → take off b = key → (off + length data ≤ length b)%nat →
  take (off + length data) (take off b ++ data ++ drop (off + length data) b) = key ++ data.
Proof.
  intros <- Hk Hle. rewrite Hk, app_assoc. apply take_app_length'. by rewrite length_app.
Qed.

Lemma TrimAppend_ok k key n data :
  wf k → GetKey k = Ret key → (n ≤ length key)%nat →
  ∃ k', TrimAppend uninit k n data = Ret k' ∧ wf k' ∧
    represents k' (mkKeyState (take n key ++ data) false (is_user_key_ k)).
Proof.
  intros Hwf Hget Hn. pose proof (read_prefix k key 0 Hwf Hget ltac:(lia)) as [_ Hlen].
  destruct (read_prefix k key n Hwf Hget ltac:(lia)) as [Hread _].
  unfold TrimAppend. rewrite (proj2 (Nat.leb_le _ _)) by lia. cbn [assert_that mbind outcome_bind].
  set (total := (n + length data)%nat).
  assert (length (take n key) = n) as Htn by (rewrite length_take; lia).
  assert (∀ k1, buf_ok k1 → (total ≤ buf_size_ k1)%nat → take n (buffer k1) = take n key →
    is_user_key_ k1 = is_user_key_ k →
    ∃ k', (k ← write_buf k1 n data; Ret (with_key (buf_ k) total k)) = Ret k' ∧ wf k' ∧
      represents k' (mkKeyState (take n key ++ data) false (is_user_key_ k))) as Hlast.
  { intros k1 Hb1 Hs1 Ht1 Hu1.
    destruct (write_ok k1 n data Hb1 Hs1) as (k2 & -> & Hb2 & Hbuf & _ & _ & _ & _ & Hu2).
    cbn [mbind outcome_bind]. eexists. split; [done|].
    replace total with (length (take n key ++ data)) by (rewrite length_app, Htn; done).
    apply represents_buffer; [done| |congruence]. rewrite length_app, Htn, Hbuf.
    apply take_write; [done..|]. destruct Hb1 as (_ & <- & _). done. }
  assert (∀ k1, buf_ok k1 → (total ≤ buf_size_ k1)%nat → ∃ k2, write_buf k1 0 (take n key) = Ret k2 ∧
    buf_ok k2 ∧ (total ≤ buf_size_ k2)%nat ∧ take n (buffer k2) = take n key ∧
    is_user_key_ k2 = is_user_key_ k1) as Hcopy.
  { intros k1 Hb1 Hs1.
    destruct (write_ok k1 0 (take n key) Hb1) as (k2 & Hw & Hb2 & Hbuf & _ & _ & _ & Hsz & Hu2); [lia|].
    exists k2. split_and!; [done|done|lia| |done].
    rewrite Hbuf, take_0, app_nil_l. by apply take_app_length'. }
  destruct (IsKeyPinned k) eqn:Hp; [|destruct (Nat.ltb_spec (buf_size_ k) total) as [Hbig|Hfits]].
  - destruct (enlarge_ok k total (proj1 Hwf)) as (k1 & -> & Hb1 & Hs1 & Hkey1 & Hu1). cbn [mbind outcome_bind].
    destruct (pinned_ext k Hwf Hp) as (mem & Hext & Hmem).
    assert (read_at k1 (key_ k1) n = Ret (take n key)) as -> by (rewrite <-Hread, Hkey1, Hext; done).
    cbn [mbind outcome_bind]. destruct (Hcopy k1 Hb1 Hs1) as (k2 & -> & ? & ? & ? & ?).
    apply Hlast; [done..|congruence].
  - rewrite Hread. cbn [mbind outcome_bind].
    destruct (new_buffer_ok k total (proj1 Hwf)) as [Hb1 Hs1].
    destruct (Hcopy _ Hb1) as (k2 & -> & ? & ? & ? & ?); [lia|]. apply Hlast; done.
  - cbn [mbind outcome_bind]. destruct (unpinned_buffer k key Hwf Hp Hget) as (_ & _ & Hbuf).
    apply Hlast; [apply Hwf|done| |done].
    rewrite <-Hbuf, take_take. f_equal. lia.
Qed.

Lemma OwnKey_ok k key :
  wf k → GetKey k = Ret key → IsKeyPinned k = true →
  ∃ k', OwnKey uninit k = Ret k' ∧ wf k' ∧ represents k' (mkKeyState key false (is_user_key_ k)).
Proof.
  intros Hwf Hget Hp. pose proof (read_prefix k key 0 Hwf Hget ltac:(lia)) as [_ Hlen].
  unfold OwnKey, Reserve. rewrite Hp. cbn [assert_that mbind outcome_bind].
  destruct (enlarge_ok k (key_size_ k) (proj1 Hwf)) as (k1 & -> & Hb1 & Hs1 & Hkey1 & Hu1).
  cbn [mbind outcome_bind]. destruct (pinned_ext k Hwf Hp) as (mem & Hext & Hmem).
  set (k2 := with_key (key_ k1) (key_size_ k) k1).
  assert (read_at k2 (key_ k2) (key_size_ k2) = Ret key) as ->.
  { rewrite <-Hget. unfold GetKey, k2. cbn. by rewrite Hkey1, Hext. }
  cbn [mbind outcome_bind].
  destruct (write_ok k2 0 key Hb1) as (k3 & -> & Hb3 & Hbuf & _ & _ & Hsz & _ & Hu3); [cbn; lia|].
  cbn [mbind outcome_bind]. eexists. split; [done|].
  rewrite Hsz. cbn [k2 key_size_ with_key]. rewrite <-Hlen.
  apply represents_buffer; [done| |cbn in Hu3; congruence]. rewrite Hbuf, take_0, app_nil_l. apply take_app_length.
Qed.

Lemma IterKey_UpdateInternalKey_ok k key seq t :
  wf k → GetKey k = Ret key → IsKeyPinned k = false →
  match UpdateInternalKey key seq t with
  | Ret key' => ∃ k', IterKey_UpdateInternalKey k seq t = Ret k' ∧ wf k' ∧
      represents k' (mkKeyState key' false (is_user_key_ k))
  | Fault f => IterKey_UpdateInternalKey k seq t = Fault f
  end.
Proof.
  intros Hwf Hget Hp. destruct (unpinned_buffer k key Hwf Hp Hget) as (Hkb & Hs & Hbuf).
  pose proof (read_prefix k key 0 Hwf Hget ltac:(lia)) as [_ Hlen].
  unfold UpdateInternalKey, IterKey_UpdateInternalKey. rewrite Hp.
  cbn [negb assert_that mbind outcome_bind]. rewrite Z.geb_leb.
  destruct (Z.leb_spec 8 (zlen key)) as [H8|H8], (Nat.leb_spec 8 (key_size_ k)) as [H8'|H8'];
    unfold zlen in H8; try lia; cbn [assert_that mbind outcome_bind]; [|done].
  set (f := EncodeFixed64 _).
  assert (length f = 8%nat) as Hf by (unfold f; rewrite EncodeFixed64_le; apply length_le_bytes).
  destruct (write_ok k (key_size_ k - 8) f (proj1 Hwf)) as (k1 & -> & Hb1 & Hbuf1 & Hbk & Hkey & Hsz & Hbs & Hu);
    [lia|].
  exists k1. split; [done|].
  replace (Z.to_nat (zlen key - 8)) with (length key - 8)%nat by (unfold zlen; lia).
  set (key' := take (length key - 8) key ++ f).
  assert (length key' = key_size_ k) as Hl' by (unfold key'; rewrite length_app, length_take, Hf; lia).
  assert (with_key (buf_ k1) (length key') k1 = k1) as <-.
  { destruct k1; cbn in *. unfold with_key. cbn. congruence. }
  apply represents_buffer; [done| |done].
  rewrite Hl', Hbuf1. replace (key_size_ k) with (key_size_ k - 8 + length f)%nat at 1 by lia.
  unfold key'. rewrite Hlen. apply take_write.
  - rewrite length_take. lia.
  - rewrite <-Hbuf, take_take. f_equal. lia.
  - destruct Hwf as [(_ & <- & _) _]. lia.
Qed.

(** Appending to what the buffer holds. *)
Lemma write_next k acc data :
  buf_ok k → take (length acc) (buffer k) = acc → (length acc + length data ≤ buf_size_ k)%nat →
  ∃ k', write_buf k (length acc) data = Ret k' ∧ buf_ok k' ∧
    take (length (acc ++ data)) (buffer k') = acc ++ data ∧
    buf_size_ k' = buf_size_ k ∧ key_size_ k' = key_size_ k ∧ is_user_key_ k' = is_user_key_ k.
Proof.
  intros Hb Hacc Hle. destruct (write_ok k (length acc) data Hb Hle) as (k' & ? & ? & Hbuf & ? & ? & ? & ? & ?).
  exists k'. split_and!; try done. rewrite Hbuf, length_app. apply take_write; [done..|].
  by destruct Hb as (_ & <- & _).
Qed.

Lemma SetInternalKey_ok k pre uk s t ts :
  wf k →
  match AppendInternalKeyFooter (pre ++ uk ++ default [] ts) s t with
  | Ret key => ∃ k', SetInternalKey uninit k pre uk s t ts = Ret k' ∧ wf k' ∧
      represents k' (mkKeyState key false false)
  | Fault f => SetInternalKey uninit k pre uk s t ts = Fault f
  end.
Proof.
  intros Hwf. unfold SetInternalKey, AppendInternalKeyFooter.
  set (total := (length pre + length uk + 8 + match ts with Some ts => length ts | None => 0 end)%nat).
  destruct (enlarge_ok k total (proj1 Hwf)) as (k1 & -> & Hb1 & Hs1 & _ & _). cbn [mbind outcome_bind].
  assert (∃ k2, (if (0 <? length pre)%nat then write_buf k1 0 pre else Ret k1) = Ret k2 ∧ buf_ok k2 ∧
    take (length pre) (buffer k2) = pre ∧ buf_size_ k2 = buf_size_ k1) as (k2 & -> & Hb2 & Ht2 & Hs2).
  { destruct pre as [|c pre]; [by exists k1|].
    destruct (write_next k1 [] (c :: pre) Hb1) as (k2 & ? & ? & ? & ? & _); [done|unfold total in *; simpl in *; lia|].
    by exists k2. }
  cbn [mbind outcome_bind].
  destruct (write_next k2 pre uk Hb2 Ht2) as (k3 & -> & Hb3 & Ht3 & Hs3 & _); [unfold total in *; lia|].
  cbn [mbind outcome_bind].
  assert (∃ k4, match ts with Some ts => write_buf k3 (length pre + length uk) ts | None => Ret k3 end = Ret k4 ∧
    buf_ok k4 ∧ take (length ((pre ++ uk) ++ default [] ts)) (buffer k4) = (pre ++ uk) ++ default [] ts ∧
    buf_size_ k4 = buf_size_ k3) as (k4 & -> & Hb4 & Ht4 & Hs4).
  { rewrite <-length_app. destruct ts as [ts|]; cbn [default].
    - destruct (write_next k3 (pre ++ uk) ts Hb3 Ht3) as (k4 & ? & ? & ? & ? & _);
        [rewrite length_app; unfold total in *; lia|]. by exists k4.
    - exists k3. rewrite app_nil_r. done. }
  cbn [mbind outcome_bind]. rewrite <-app_assoc in Ht4.
  destruct (PackSequenceAndType s t) as [packed|f]; [|done]. cbn [mbind outcome_bind].
  rewrite PutFixed64_le, EncodeFixed64_le.
  assert (length pre + length uk + match ts with Some ts => length ts | None => 0 end =
    length (pre ++ uk ++ default [] ts))%nat as Hl by (rewrite !length_app; destruct ts; simpl; lia).
  destruct (write_next k4 (pre ++ uk ++ default [] ts) (le_bytes 8 packed) Hb4 Ht4)
    as (k5 & Hw & Hb5 & Ht5 & _); [rewrite length_le_bytes; unfold total in *; lia|].
  replace (length uk + length pre + match ts with Some ts => length ts | None => 0 end)%nat
    with (length (pre ++ uk ++ default [] ts)) by lia.
  rewrite Hw. cbn [mbind outcome_bind].
  replace total with (length ((pre ++ uk ++ default [] ts) ++ le_bytes 8 packed))
    by (rewrite length_app, length_le_bytes; unfold total; lia).
  eexists. split; [done|].
  destruct (represents_buffer k5 _ (is_user_key_ k5) Hb5 Ht5 eq_refl) as [[? Hk5] (Hg & Hp & _)].
  split; [split; [done|exact Hk5]|]. by split_and!.
Qed.
End iter_key_lemmas.

(** ** Properties *)

(** C1: [IterKey] implements the specification of a key, for its operations
    [key_op].  From an object whose buffers are well formed, one of them faults exactly when the specification
    says that one of its assertions fails; otherwise it ends in a well-formed
    object that holds the specified key, in the inner buffer, on the heap or
    pinned, and every getter reads it back. *)
Theorem iter_key_refines `{Platform} uninit k a op :
  (∀ id n, length (uninit id n) = n) → wf k → represents k a →
  match spec_step a op with
  | Ret a' => ∃ k', key_step uninit k op = Ret k' ∧ wf k' ∧ represents k' a' ∧
      Size k' = length (ks_key a') ∧
      (ks_user a' = true → GetUserKey k' = Ret (ks_key a')) ∧
      (ks_user a' = false → GetInternalKey k' = Ret (ks_key a')) ∧
      (ks_user a' = false → 8 ≤ zlen (ks_key a') → GetUserKey k' = Ret (without_footer (ks_key a')))
  | Fault f => key_step uninit k op = Fault f
  end.
Proof.
  intros Hun Hwf Hrep. pose proof Hrep as (Hget & Hpin & Huser).
  assert (match spec_step a op with
    | Ret a' => ∃ k', key_step uninit k op = Ret k' ∧ wf k' ∧ represents k' a'
    | Fault f => key_step uninit k op = Fault f
    end) as Hstep.
  { destruct op as [b|key copy|key copy|key copy| |n data| |sq t|pre uk s t ts]; cbn [spec_step key_step].
    - exists (SetIsUserKey k b). split; [done|]. split; [exact Hwf|]. by split_and!.
    - by apply SetKeyImpl_ok.
    - apply SetKeyImpl_ok; done.
    - apply SetKeyImpl_ok; done.
    - exists (Clear k). destruct Hwf as [Hb Hk]. split; [done|]. split.
      + split; [exact Hb|]. destruct Hk as [[? _]|(mem & ? & _)]; [left|right; exists mem]; cbn;
          (split; [done|lia]).
      + split_and!; [|done|done]. destruct Hb as (_ & _ & Hbuf). unfold GetKey, read_at. cbn.
        destruct Hk as [[-> _]|(mem & -> & _)]; [|done]. destruct (buf_ k); [done| |done].
        by rewrite decide_True.
    - destruct (Nat.leb_spec n (length (ks_key a))) as [Hn|Hn]; cbn [assert_that mbind outcome_bind].
      + rewrite <-Huser. by apply TrimAppend_ok.
      + unfold TrimAppend. destruct (read_prefix k (ks_key a) 0 Hwf Hget ltac:(lia)) as [_ Hlen].
        by rewrite (proj2 (Nat.leb_gt _ _)) by lia.
    - rewrite <-Hpin. destruct (IsKeyPinned k) eqn:Hp; cbn [assert_that mbind outcome_bind].
      + rewrite <-Huser. by apply OwnKey_ok.
      + unfold OwnKey. by rewrite Hp.
    - rewrite <-Hpin. destruct (IsKeyPinned k) eqn:Hp; cbn [negb assert_that mbind outcome_bind].
      + unfold IterKey_UpdateInternalKey. by rewrite Hp.
      + pose proof (IterKey_UpdateInternalKey_ok k _ sq t Hwf Hget Hp) as Hup. rewrite <-Huser.
        by destruct (UpdateInternalKey (ks_key a) sq t).
    - pose proof (SetInternalKey_ok uninit Hun k pre uk s t ts Hwf) as Hset.
      by destruct (AppendInternalKeyFooter _ s t). }
  destruct (spec_step a op) as [a'|f]; [|done]. destruct Hstep as (k' & Hrun & Hwf' & Hrep').
  exists k'. split; [done|]. split; [done|]. split; [done|]. destruct Hrep' as (Hg & _ & Hu).
  destruct (read_prefix k' (ks_key a') 0 Hwf' Hg ltac:(lia)) as [_ Hlen].
  unfold Size, GetUserKey, GetInternalKey. rewrite Hu. split; [done|]. split; [by intros ->|].
  split; [by intros ->|]. intros -> H8. unfold zlen in H8.
  rewrite (proj2 (Nat.leb_le _ _)) by lia. cbn [assert_that mbind outcome_bind].
  destruct (read_prefix k' (ks_key a') (key_size_ k' - 8) Hwf' Hg ltac:(lia)) as [-> _].
  unfold without_footer, zlen. do 2 f_equal. lia.
Qed.

Lemma iter_key_refines_witness :
  let k := IterKey_new (replicate 32 NUL) in
  let a := mkKeyState [] false true in
  wf k ∧ represents k a ∧
  ∃ k', key_step (H:=LittleEndianHost) (λ _ n, replicate n NUL) k (OpSetUserKey (replicate 40 (z2b 97)) true)
    = Ret k' ∧ GetUserKey k' = Ret (replicate 40 (z2b 97)).
Proof.
  cbv zeta.
  assert (wf (IterKey_new (replicate 32 NUL))) as Hwf.
  { split; [split; [reflexivity|split; [reflexivity|exact I]]|]. left. split; [reflexivity|vm_compute; lia]. }
  assert (represents (IterKey_new (replicate 32 NUL)) (mkKeyState [] false true)) as Hr
    by (split; [reflexivity|split; reflexivity]).
  split; [exact Hwf|]. split; [exact Hr|].
  destruct (iter_key_refines (H:=LittleEndianHost) (λ _ n, replicate n NUL) _ _
    (OpSetUserKey (replicate 40 (z2b 97)) true) (λ _ n, length_replicate n NUL) Hwf Hr)
    as (k' & Hrun & _ & _ & _ & Hu & _).
  exists k'. split; [exact Hrun|]. apply Hu. reflexivity.
Defined.

(** [EncodeLengthPrefixedKey] writes the length and the key into the buffer
    and makes it a user key, but leaves the size: the key that is read back is
    cut to the size of the key before, or is empty when the buffer had to grow. *)
Lemma length_prefixed_key_stale `{Platform} uninit k key :
  (∀ id n, length (uninit id n) = n) → wf k → zlen key < 2 ^ 28 →
  let data := EncodeVarint32 (zlen key) ++ key in
  let grows := (buf_size_ k <? length key + Z.to_nat (VarintLength (zlen key)))%nat in
  ∃ k', EncodeLengthPrefixedKey uninit k key = Ret k' ∧
    take (length data) (buffer k') = data ∧ is_user_key_ k' = true ∧ IsKeyPinned k' = false ∧
    key_size_ k' = if grows then 0%nat else key_size_ k.
Proof.
  intros Hun Hwf Hlen. cbv zeta. unfold EncodeLengthPrefixedKey. cbv zeta.
  pose proof (zlen_nonneg key). rewrite u32_small by lia.
  destruct (EncodeVarint32_length (zlen key)) as [_ Hv]; [lia|].
  assert (length (EncodeVarint32 (zlen key)) = Z.to_nat (VarintLength (zlen key))) as Hl
    by (rewrite Hv; unfold zlen; lia).
  set (n := (length key + Z.to_nat (VarintLength (zlen key)))%nat).
  assert (∃ k1, EnlargeBufferIfNeeded uninit k n = Ret k1 ∧ buf_ok k1 ∧ (n ≤ buf_size_ k1)%nat ∧
    key_size_ k1 = if (buf_size_ k <? n)%nat then 0%nat else key_size_ k) as (k1 & -> & Hb1 & Hs1 & Hk1).
  { destruct (enlarge_ok uninit Hun k n (proj1 Hwf)) as (k1 & Hrun & ? & ? & _). exists k1.
    split_and!; try done. unfold EnlargeBufferIfNeeded, EnlargeBuffer in Hrun.
    destruct (Nat.ltb_spec (buf_size_ k) n) as [Hlt|]; [|by injection Hrun as <-].
    cbn in Hrun. by injection Hrun as <-. }
  cbn [mbind outcome_bind].
  destruct (write_next k1 [] (EncodeVarint32 (zlen key)) Hb1) as (k2 & Hw2 & Hb2 & Ht2 & Hs2 & Hk2 & _);
    [done|simpl; lia|]. rewrite app_nil_l in Ht2. cbn [length] in Hw2. rewrite Hw2. cbn [mbind outcome_bind].
  destruct (write_next k2 (EncodeVarint32 (zlen key)) key Hb2 Ht2) as (k3 & -> & _ & Ht3 & _ & Hk3 & _); [lia|].
  cbn [mbind outcome_bind]. eexists. split; [done|]. split; [exact Ht3|].
  split; [done|]. split; [by apply negb_false_iff, bool_decide_eq_true|].
  transitivity (key_size_ k3); [done|]. by rewrite Hk3, Hk2, Hk1.
Qed.

Lemma length_prefixed_key_stale_witness :
  let k := IterKey_new (replicate 32 NUL) in
  let key := [z2b 97; z2b 98] in
  wf k ∧ zlen key < 2 ^ 28 ∧
  ∃ k', EncodeLengthPrefixedKey (λ _ n, replicate n NUL) k key = Ret k' ∧ key_size_ k' = 0%nat.
Proof.
  cbv zeta.
  assert (wf (IterKey_new (replicate 32 NUL))) as Hwf.
  { split; [split; [reflexivity|split; [reflexivity|exact I]]|]. left. split; [reflexivity|vm_compute; lia]. }
  split; [exact Hwf|]. split; [reflexivity|].
  destruct (length_prefixed_key_stale (H:=LittleEndianHost) (λ _ n, replicate n NUL) _ [z2b 97; z2b 98]
    (λ _ n, length_replicate n NUL) Hwf ltac:(reflexivity)) as (k' & Hrun & _ & _ & _ & Hs).
  exists k'. split; [exact Hrun|exact Hs].
Defined.
