(* ===== verification/OnBoard.v ===== *)
(** * On-board blocks (db_format/on_board_format.h, db_format/on_board_fomat.cc,
      tables/gear_table/gear_table.cc)

    The 8 KiB blocks shared with the accelerator: a 64-byte header, the values
    in order, and the keys in reverse order at the end.  [OnBoardBlock] and
    the [GearBlock] of the gear table have the same fields; their
    [ComposeResults] differ in the placeholder between values and keys, which
    only the gear block appends.

    The macros of the header are unparenthesised: [BLOCK_SIZE] is [8*1024] and
    [FULL_KEY_LENGTH] is [8 + 8], expanded in place.  Where an expansion
    changes what an expression means, the model has the expanded expression.

    A slice a reader makes into its input is kept as the offset and length it
    points to ([view]); its bytes are read by [view_bytes], which is out of
    bounds where the view is. *)
From S2P Require Import Prelude Slice Coding.

(** ** Constants *)

Definition BLOCK_SIZE : Z := 8 * 1024.
Definition HEADER_LENGTH : Z := 64.
Definition KEY_CONTENT_LENGTH : Z := 8.
Definition KEY_SUFFIX_LENGTH : Z := 8.
Definition VALUE_LENGTH : Z := 10.
(** As a whole operand; see the note on macros. *)
Definition FULL_KEY_LENGTH : Z := KEY_CONTENT_LENGTH + KEY_SUFFIX_LENGTH.
Definition MAX_ENTRY_IN_BLOCK : nat := 312.

(** ** Blocks *)

Record Block := mkBlock {
  content_block : bytes;
  key_content : bytes;
  value_content : bytes;
  num_of_entries : Z;
  block_id_ : Z;
}.

(** The constructors [OnBoardBlock(block_id)] and [GearBlock(block_id)]. *)
Definition new_block (block_id : Z) : Block := mkBlock [] [] [] 0 block_id.

(** The loop of [AddBlock]: keys from the last to the first, values in order. *)
Definition append_entries (keys values : list bytes) (num_of_entries : Z) (b : Block) : Block :=
  foldl (λ b i,
    mkBlock (content_block b)
      (key_content b ++ nth (Z.to_nat num_of_entries - i - 1) keys [])
      (value_content b ++ nth i values [])
      num_of_entries (block_id_ b))
    b (seq 0 (Z.to_nat num_of_entries)).

Section compose.
Context `{Platform}.

(** [uint32_t placeholder_length] *)
Definition placeholder_length (b : Block) : Z :=
  u32 (8 * 1024 - (HEADER_LENGTH + zlen (key_content b) + zlen (value_content b))).

(** The sixteen [PutFixed32] of both [ComposeResults]. *)
Definition put_header (b : Block) : bytes :=
  let content := PutFixed32 (content_block b) (block_id_ b) in
  let content := PutFixed32 content (num_of_entries b) in
  let content := PutFixed32 content (u32 (zlen (key_content b))) in
  let content := PutFixed32 content (u32 (zlen (value_content b))) in
  let content := PutFixed32 content (placeholder_length b) in
  foldl (λ content _, PutFixed32 content 0) content (seq 0 11).

(** [OnBoardBlock::ComposeResults]: the placeholder is built, not appended. *)
Definition OnBoardBlock_ComposeResults (b : Block) : Block :=
  let content := put_header b in
  let content := content ++ value_content b in
  let content := content ++ key_content b in
  mkBlock content (key_content b) (value_content b) (num_of_entries b) (block_id_ b).

(** [GearBlock::ComposeResults] *)
Definition GearBlock_ComposeResults (b : Block) : Block :=
  let content := put_header b in
  let content := content ++ value_content b in
  let placeholder := replicate (Z.to_nat (placeholder_length b)) (z2b 104) in
  let content := content ++ placeholder in
  let content := content ++ key_content b in
  mkBlock content (key_content b) (value_content b) (num_of_entries b) (block_id_ b).

(** [AddBlock] of both classes, with their [ComposeResults]. *)
Definition AddBlock (ComposeResults : Block → Block) (b : Block) (keys values : list bytes) :
    outcome Block :=
  assert! zlen keys =? zlen values ;;
  let n := signed 32 (zlen keys) in
  let b := mkBlock (content_block b) (key_content b) (value_content b) n (block_id_ b) in
  Ret (ComposeResults (append_entries keys values n b)).

Definition OnBoardBlock_AddBlock := AddBlock OnBoardBlock_ComposeResults.
Definition GearBlock_AddBlock := AddBlock GearBlock_ComposeResults.

(** The loop of [ComposeOnBoardBlock] and of [GearTable::ToDiskFormat]: a block
    for every [MAX_ENTRY_IN_BLOCK] entries from [i] on.  The [block_id] of the
    source is set to 0 before the loop and never changed. *)
Fixpoint block_loop (add : Block → list bytes → list bytes → outcome Block)
    (fuel i : nat) (keys values : list bytes) (block_list : list Block) :
    outcome (list Block) :=
  match fuel with
  | O => Ret block_list
  | S fuel =>
      if (i <? length keys)%nat then
        let block_id := 0 in
        assert! zlen keys =? zlen values ;;
        let end_posi :=
          if (length keys <? i + MAX_ENTRY_IN_BLOCK)%nat then length keys
          else (i + MAX_ENTRY_IN_BLOCK)%nat in
        let sub_key := take (end_posi - i) (drop i keys) in
        let sub_value := take (end_posi - i) (drop i values) in
        b ← add (new_block block_id) sub_key sub_value;
        block_loop add fuel (i + MAX_ENTRY_IN_BLOCK) keys values (block_list ++ [b])
      else Ret block_list
  end.

Definition ComposeOnBoardBlock (keys values : list bytes) (block_list : list Block) :
    outcome (list Block) :=
  block_loop OnBoardBlock_AddBlock (S (length keys)) 0 keys values block_list.

(** [GearTable::ToDiskFormat(buffer)]: the buffer afterwards; the size of it
    is what the code returns, converted to [int]. *)
Definition GearTable_ToDiskFormat (key_list value_list : list bytes)
    (disk_format_buffer : bytes) : outcome (bytes * Z) :=
  blocks ← block_loop GearBlock_AddBlock (S (length key_list)) 0 key_list value_list [];
  let buffer := foldl (λ buf b, buf ++ content_block b) disk_format_buffer blocks in
  Ret (buffer, signed 32 (zlen buffer)).

(** [AppendToFile]: [write] is handed [BLOCK_SIZE] bytes from [c_str()], whose
    object is the content and its terminator. *)
Definition AppendToFile (write : bytes → bytes → bytes * Z) (b : Block) (file : bytes) :
    outcome (bytes * Z) :=
  let object := content_block b ++ [NUL] in
  if zlen object <? BLOCK_SIZE then Fault OutOfBounds
  else Ret (write file (take (Z.to_nat BLOCK_SIZE) object)).
End compose.

(** ** Readers *)

Record view := mkView { v_off : Z; v_len : Z }.

Definition view_bytes (mem : bytes) (v : view) : outcome bytes :=
  if (0 <=? v_off v) && (v_off v + v_len v <=? zlen mem)
  then Ret (take (Z.to_nat (v_len v)) (drop (Z.to_nat (v_off v)) mem))
  else Fault OutOfBounds.

Section readers.
Context `{Platform}.

(** [GetFixed32] on a slice whose size says there are enough bytes: the read
    itself is out of bounds when the memory ends before. *)
Definition get32 (p : bytes) : outcome (Z * bytes) :=
  match GetFixed32 p with Some r => Ret r | None => Fault OutOfBounds end.

(** The twelve header reads of [ComposeEntryVector]: the entry count and the
    number of bytes the slice advanced. *)
Definition read_board_header (p : bytes) : outcome (Z * Z) :=
  '(block_id, p) ← get32 p;
  '(block_entries, p) ← get32 p;
  '(key_content_size, p) ← get32 p;
  '(value_content_size, p) ← get32 p;
  '(placeholder_length, p) ← get32 p;
  '(useless_attributes, p) ← get32 p;
  '(useless_attributes, p) ← get32 p;
  '(useless_attributes, p) ← get32 p;
  '(placeholder_length, p) ← get32 p;
  '(useless_attributes, p) ← get32 p;
  '(useless_attributes, p) ← get32 p;
  '(useless_attributes, p) ← get32 p;
  Ret (block_entries, 12 * 4).

(** The views of entry [entry_posi] of the block whose slice starts at [data]:
    [entry_posi * FULL_KEY_LENGTH] expands to [entry_posi * 8 + 8]. *)
Definition board_key_view (data entry_posi : Z) : view :=
  mkView (data + 8 * 1024 - u32 (entry_posi * KEY_CONTENT_LENGTH) + KEY_SUFFIX_LENGTH)
         (KEY_CONTENT_LENGTH + KEY_SUFFIX_LENGTH).
Definition board_value_view (data entry_posi : Z) : view :=
  mkView (data + u32 (entry_posi * VALUE_LENGTH)) VALUE_LENGTH.

(** The loop of [ComposeEntryVector] over the blocks from [i] on. *)
Fixpoint entry_vector_loop (fuel : nat) (i : Z) (input : bytes) (total_entries : Z)
    (key_array value_array : list view) : outcome (Z * list view * list view) :=
  match fuel with
  | O => Ret (total_entries, key_array, value_array)
  | S fuel =>
      if i <? zlen input then
        '(block_entries, used) ← read_board_header (drop (Z.to_nat i) input);
        let data := i + used in
        let entries := Z.of_nat <$> seq 0 (Z.to_nat block_entries) in
        entry_vector_loop fuel (i + 8 * 1024) input (u32 (total_entries + block_entries))
          (key_array ++ (board_key_view data <$> entries))
          (value_array ++ (board_value_view data <$> entries))
      else Ret (total_entries, key_array, value_array)
  end.

(** [total_entries] is not initialised in the source: its first value is an
    argument.  The assertion at the end compares it to the key count. *)
Definition ComposeEntryVector (total_entries : Z) (key_array value_array : list view)
    (input_blocks : bytes) : outcome (list view * list view) :=
  '(total_entries, key_array, value_array) ←
    entry_vector_loop (S (length input_blocks)) 0 input_blocks total_entries
      key_array value_array;
  assert! zlen key_array =? total_entries ;;
  Ret (key_array, value_array).
End readers.

(** ** Specification: where an entry of a block is *)

(** Keys and values of the sizes the format is for, as many of each. *)
Record entries_ok (keys values : list bytes) : Prop := {
  ok_keys : Forall (λ k, zlen k = FULL_KEY_LENGTH) keys;
  ok_values : Forall (λ v, zlen v = VALUE_LENGTH) values;
  ok_length : length keys = length values;
}.

(** Key and value [e] of a block that starts at [base]. *)
Definition key_at (base e : Z) : view := mkView (base + 8192 - 16 * (e + 1)) 16.
Definition value_at (base e : Z) : view := mkView (base + 64 + 10 * e) 10.

(** The bytes of the header of a block. *)
Definition header_bytes (block_id n : Z) : bytes :=
  le_bytes 4 block_id ++ le_bytes 4 n ++ le_bytes 4 (16 * n) ++ le_bytes 4 (10 * n) ++
  le_bytes 4 (8128 - 26 * n) ++ replicate 44 NUL.

#[local] Arguments header_bytes : simpl never.

(** The bytes of a gear block. *)
Definition gear_block_bytes (block_id : Z) (keys values : list bytes) : bytes :=
  header_bytes block_id (zlen keys) ++ concat values ++
  replicate (Z.to_nat (8128 - 26 * zlen keys)) (z2b 104) ++ concat (reverse keys).

(** ** Lemmas *)

Lemma concat_snoc {A} (ll : list (list A)) (l : list A) : concat (ll ++ [l]) = concat ll ++ l.
Proof. rewrite concat_app. simpl. by rewrite app_nil_r. Qed.

Lemma lookup_nth {A} (l : list A) i d x : l !! i = Some x → nth i l d = x.
Proof. intros H. rewrite nth_lookup, H. done. Qed.

(** Element [i] of a list of equally long strings, in their concatenation. *)
Lemma take_drop_concat {A} (n : nat) (ll : list (list A)) i x :
  Forall (λ l, length l = n) ll → ll !! i = Some x →
  take n (drop (i * n) (concat ll)) = x.
Proof.
  intros Hll. revert i. induction Hll as [|l ll Hl _ IH]; intros [|i] Hx; simpl in *;
    [discriminate Hx|discriminate Hx| |].
  - change (Some l = Some x) in Hx. injection Hx as <-. rewrite drop_0. by apply take_app_length'.
  - rewrite drop_app_ge by lia. replace (n + i * n - length l)%nat with (i * n)%nat by lia.
    by apply IH.
Qed.

Lemma view_bytes_app_r l1 l2 v :
  zlen l1 ≤ v_off v → 0 ≤ v_len v →
  view_bytes (l1 ++ l2) v = view_bytes l2 (mkView (v_off v - zlen l1) (v_len v)).
Proof.
  intros H Hl. unfold view_bytes. simpl. rewrite zlen_app.
  replace ((0 <=? v_off v) && (v_off v + v_len v <=? zlen l1 + zlen l2))
    with ((0 <=? v_off v - zlen l1) && (v_off v - zlen l1 + v_len v <=? zlen l2)).
  2:{ pose proof (zlen_nonneg l1). apply eq_bool_prop_intro. rewrite !andb_True, !Is_true_true.
      rewrite !Z.leb_le. lia. }
  case_match; [|done]. f_equal. f_equal. rewrite drop_app_ge by (unfold zlen in *; lia).
  f_equal. unfold zlen. lia.
Qed.

Lemma view_bytes_app_l l1 l2 v :
  0 ≤ v_off v → 0 ≤ v_len v → v_off v + v_len v ≤ zlen l1 →
  view_bytes (l1 ++ l2) v = view_bytes l1 v.
Proof.
  intros H0 Hl H. unfold view_bytes. rewrite zlen_app. pose proof (zlen_nonneg l2).
  rewrite !(proj2 (Z.leb_le _ _)) by lia. simpl. f_equal.
  rewrite drop_app_le, take_app_le; [done| |unfold zlen in *; lia].
  rewrite length_drop. unfold zlen in *. lia.
Qed.

Lemma view_bytes_concat (n : Z) (ll : list bytes) i x :
  Forall (λ l, zlen l = n) ll → ll !! i = Some x →
  view_bytes (concat ll) (mkView (n * Z.of_nat i) n) = Ret x.
Proof.
  intros Hll Hx. assert (0 ≤ n) as Hn.
  { rewrite Forall_lookup in Hll. rewrite <-(Hll _ _ Hx). apply zlen_nonneg. }
  pose proof (lookup_lt_Some _ _ _ Hx) as Hi.
  unfold view_bytes. simpl. rewrite (zlen_concat_const n ll Hll).
  rewrite !(proj2 (Z.leb_le _ _)) by (unfold zlen; nia). simpl. f_equal.
  replace (Z.to_nat (n * Z.of_nat i)) with (i * Z.to_nat n)%nat by lia.
  apply take_drop_concat; [|done].
  eapply Forall_impl; [exact Hll|]. unfold zlen. simpl. intros. lia.
Qed.

Lemma append_entries_prefix keys values n b m :
  length keys = length values → n = zlen keys → (m ≤ length keys)%nat →
  foldl (λ b i,
    mkBlock (content_block b)
      (key_content b ++ nth (Z.to_nat n - i - 1) keys [])
      (value_content b ++ nth i values [])
      n (block_id_ b)) b (seq 0 m) =
  mkBlock (content_block b) (key_content b ++ concat (take m (reverse keys)))
    (value_content b ++ concat (take m values))
    (if decide (m = 0%nat) then num_of_entries b else n) (block_id_ b).
Proof.
  intros Hlen -> Hm. unfold zlen. rewrite Nat2Z.id.
  induction m as [|m IH]; [by destruct b; rewrite !app_nil_r|].
  rewrite seq_S, foldl_app, IH by lia. simpl.
  assert (is_Some (reverse keys !! m)) as [k Hk].
  { apply lookup_lt_is_Some. rewrite length_reverse. lia. }
  assert (is_Some (values !! m)) as [v Hv] by (apply lookup_lt_is_Some; lia).
  rewrite (take_S_r _ _ _ Hk), (take_S_r _ _ _ Hv), !concat_snoc, !app_assoc.
  rewrite (lookup_nth _ _ _ _ Hv).
  rewrite reverse_lookup_Some in Hk. destruct Hk as [Hk _].
  replace (length keys - m - 1)%nat with (length keys - S m)%nat by lia.
  by rewrite (lookup_nth _ _ _ _ Hk).
Qed.

Lemma append_entries_spec keys values b :
  length keys = length values →
  append_entries keys values (zlen keys) (mkBlock (content_block b) (key_content b)
    (value_content b) (zlen keys) (block_id_ b)) =
  mkBlock (content_block b) (key_content b ++ concat (reverse keys))
    (value_content b ++ concat values) (zlen keys) (block_id_ b).
Proof.
  intros Hlen. unfold append_entries. rewrite append_entries_prefix by (unfold zlen; lia).
  simpl. unfold zlen. rewrite Nat2Z.id.
  rewrite take_ge by (rewrite length_reverse; lia). rewrite take_ge by lia.
  by case_decide.
Qed.

Section compose_lemmas.
Context `{Platform}.

Lemma entries_ok_zlen keys values :
  entries_ok keys values →
  zlen (concat (reverse keys)) = 16 * zlen keys ∧ zlen (concat values) = 10 * zlen keys.
Proof.
  intros [Hk Hv Hl]. split.
  - rewrite (zlen_concat_const 16); [by rewrite zlen_reverse|].
    apply Forall_reverse. exact Hk.
  - rewrite (zlen_concat_const 10) by exact Hv. unfold zlen. lia.
Qed.

Lemma placeholder_length_spec c keys values n id :
  entries_ok keys values → zlen keys ≤ 312 →
  placeholder_length (mkBlock c (concat (reverse keys)) (concat values) n id) =
  8128 - 26 * zlen keys.
Proof.
  intros Hok Hn. destruct (entries_ok_zlen _ _ Hok) as [Hk Hv].
  unfold placeholder_length. simpl. rewrite Hk, Hv. pose proof (zlen_nonneg keys).
  unfold HEADER_LENGTH. rewrite u32_small by lia. lia.
Qed.

Lemma put_header_spec keys values id :
  entries_ok keys values → zlen keys ≤ 312 →
  put_header (mkBlock [] (concat (reverse keys)) (concat values) (zlen keys) id) =
  header_bytes id (zlen keys).
Proof.
  intros Hok Hn. unfold put_header, header_bytes.
  rewrite placeholder_length_spec by done.
  destruct (entries_ok_zlen _ _ Hok) as [Hk Hv].
  cbn [block_id_ num_of_entries key_content value_content content_block].
  rewrite Hk, Hv. pose proof (zlen_nonneg keys). rewrite !u32_small by lia.
  cbn [seq foldl]. rewrite !PutFixed32_le, <-!app_assoc. simpl app at 1.
  repeat f_equal.
Qed.

Lemma zlen_header_bytes id n : zlen (header_bytes id n) = 64.
Proof. unfold header_bytes. autorewrite with zlen. lia. Qed.

Lemma new_block_AddBlock Compose keys values id :
  entries_ok keys values → zlen keys < 2 ^ 31 →
  AddBlock Compose (new_block id) keys values =
  Ret (Compose (mkBlock [] (concat (reverse keys)) (concat values) (zlen keys) id)).
Proof.
  intros Hok Hn. pose proof (zlen_nonneg keys).
  assert (signed 32 (zlen keys) = zlen keys) as Hs.
  { unfold signed. rewrite Z.mod_small by lia. zbool; lia. }
  unfold AddBlock. destruct Hok as [_ _ Hl].
  replace (zlen keys =? zlen values) with true by (symmetry; apply Z.eqb_eq; unfold zlen; lia).
  simpl. rewrite Hs. f_equal. f_equal.
  exact (append_entries_spec keys values (new_block id) Hl).
Qed.

Lemma GearBlock_AddBlock_spec keys values id :
  entries_ok keys values → zlen keys ≤ 312 →
  ∃ b, GearBlock_AddBlock (new_block id) keys values = Ret b ∧
       content_block b = gear_block_bytes id keys values.
Proof.
  intros Hok Hn. eexists. unfold GearBlock_AddBlock.
  rewrite new_block_AddBlock by (done || lia). split; [done|].
  unfold GearBlock_ComposeResults. simpl.
  by rewrite put_header_spec, placeholder_length_spec, <-!app_assoc.
Qed.

Lemma OnBoardBlock_AddBlock_spec keys values id :
  entries_ok keys values → zlen keys ≤ 312 →
  ∃ b, OnBoardBlock_AddBlock (new_block id) keys values = Ret b ∧ num_of_entries b = zlen keys ∧
       content_block b = header_bytes id (zlen keys) ++ concat values ++ concat (reverse keys).
Proof.
  intros Hok Hn. eexists. unfold OnBoardBlock_AddBlock.
  rewrite new_block_AddBlock by (done || lia). split; [done|]. split; [done|].
  unfold OnBoardBlock_ComposeResults. simpl. by rewrite put_header_spec, <-!app_assoc.
Qed.
End compose_lemmas.

Lemma zlen_gear_block_bytes id keys values :
  entries_ok keys values → zlen keys ≤ 312 → zlen (gear_block_bytes id keys values) = 8192.
Proof.
  intros Hok Hn. destruct (entries_ok_zlen _ _ Hok) as [Hk Hv].
  unfold gear_block_bytes. rewrite !zlen_app, zlen_header_bytes, zlen_replicate, Hk, Hv. lia.
Qed.

Lemma gear_block_key id keys values e k :
  entries_ok keys values → zlen keys ≤ 312 → keys !! e = Some k →
  view_bytes (gear_block_bytes id keys values) (key_at 0 (Z.of_nat e)) = Ret k.
Proof.
  intros Hok Hn Hk. destruct (entries_ok_zlen _ _ Hok) as [Hkl Hvl].
  pose proof (lookup_lt_Some _ _ _ Hk) as He.
  assert (zlen keys = Z.of_nat (length keys)) as Hlen by done.
  unfold gear_block_bytes, key_at.
  rewrite (app_assoc (header_bytes _ _)), (app_assoc (_ ++ concat values)), view_bytes_app_r;
    cbn [v_off v_len]; rewrite ?zlen_app, ?zlen_header_bytes,
    ?zlen_replicate, ?Hvl; try lia.
  destruct Hok as [Hks _ _].
  rewrite <-(view_bytes_concat 16 (reverse keys) (length keys - 1 - e) k).
  - f_equal. f_equal. lia.
  - apply Forall_reverse, Hks.
  - apply reverse_lookup_Some. split; [|lia]. rewrite <-Hk. f_equal. lia.
Qed.

Lemma gear_block_value id keys values e v :
  entries_ok keys values → zlen keys ≤ 312 → values !! e = Some v →
  view_bytes (gear_block_bytes id keys values) (value_at 0 (Z.of_nat e)) = Ret v.
Proof.
  intros Hok Hn Hv. destruct (entries_ok_zlen _ _ Hok) as [Hkl Hvl].
  pose proof (lookup_lt_Some _ _ _ Hv). destruct Hok as [_ Hvs Hl].
  unfold gear_block_bytes, value_at.
  rewrite view_bytes_app_r; cbn [v_off v_len]; rewrite ?zlen_header_bytes; try lia.
  rewrite view_bytes_app_l; cbn [v_off v_len]; rewrite ?Hvl; unfold zlen; try lia.
  rewrite <-(view_bytes_concat 10 values e v) by done. f_equal. f_equal. lia.
Qed.

(** *** The block loop *)

Lemma entries_ok_chunk keys values i n :
  entries_ok keys values → entries_ok (take n (drop i keys)) (take n (drop i values)).
Proof.
  intros [Hk Hv Hl]. split.
  - apply Forall_take, Forall_drop, Hk.
  - apply Forall_take, Forall_drop, Hv.
  - rewrite !length_take, !length_drop. lia.
Qed.

Lemma take_to_end {A} (l : list A) m i n :
  m = length l → (i < m)%nat →
  take ((if (m <? i + n)%nat then m else i + n) - i) (drop i l) = take n (drop i l).
Proof.
  intros -> Hi. destruct (Nat.ltb_spec (length l) (i + n)).
  - rewrite !take_ge; [done|rewrite length_drop; lia..].
  - f_equal. lia.
Qed.

Lemma ceil_div_S (a : nat) : (0 < a → (a + 311) / 312 = S ((a - 312 + 311) / 312))%nat.
Proof.
  intros Ha. destruct (decide (a ≤ 312)%nat) as [H|H].
  - replace (a - 312)%nat with 0%nat by lia. symmetry.
    apply (Nat.div_unique _ _ _ (a - 1)); [lia|]. change ((0 + 311) / 312)%nat with 0%nat. lia.
  - replace (a + 311)%nat with (a - 312 + 311 + 1 * 312)%nat by lia.
    rewrite Nat.div_add by lia. lia.
Qed.

Section block_loop.
Context `{Platform} (add : Block → list bytes → list bytes → outcome Block).
Context (P : list bytes → list bytes → Block → Prop).
Hypothesis add_ok : ∀ keys values, entries_ok keys values → zlen keys ≤ 312 →
  ∃ b, add (new_block 0) keys values = Ret b ∧ P keys values b.

(** Block [j] holds entries [312 j] to [312 j + 311]; the last block may be shorter. *)
Lemma block_loop_spec fuel i keys values acc :
  entries_ok keys values → (length keys - i < fuel)%nat →
  ∃ bs, block_loop add fuel i keys values acc = Ret (acc ++ bs) ∧
    length bs = ((length keys - i + 311) / 312)%nat ∧
    ∀ j, (j < length bs)%nat → ∃ b, bs !! j = Some b ∧
      P (take 312 (drop (i + 312 * j) keys)) (take 312 (drop (i + 312 * j) values)) b.
Proof.
  intros Hok. revert i acc. induction fuel as [|fuel IH]; intros i acc Hfuel; [lia|].
  cbn [block_loop]. pose proof (ok_length _ _ Hok) as Hl.
  destruct (Nat.ltb_spec i (length keys)) as [Hi|Hi].
  2:{ exists []. rewrite app_nil_r. split; [done|]. split; [|simpl; intros; lia].
      replace (length keys - i)%nat with 0%nat by lia. done. }
  replace (zlen keys =? zlen values) with true by (symmetry; apply Z.eqb_eq; unfold zlen; lia).
  unfold MAX_ENTRY_IN_BLOCK. cbn [assert_that mbind outcome_bind].
  rewrite !take_to_end by lia.
  destruct (add_ok (take 312 (drop i keys)) (take 312 (drop i values))) as (b & Hb & HP).
  { by apply entries_ok_chunk. } { rewrite zlen_take. lia. }
  rewrite Hb. cbn [mbind outcome_bind].
  destruct (IH (i + 312)%nat (acc ++ [b])) as (bs & -> & Hlen & Hbs); [lia|].
  exists (b :: bs). rewrite <-app_assoc. split; [done|]. split.
  { cbn [length]. rewrite Hlen, (ceil_div_S (length keys - i)) by lia. f_equal. f_equal. lia. }
  intros [|j] Hj; [exists b; rewrite Nat.mul_0_r, Nat.add_0_r; done|].
  destruct (Hbs j) as (b' & Hb' & HP'); [simpl in Hj; lia|]. exists b'. split; [done|].
  by replace (i + 312 * S j)%nat with (i + 312 + 312 * j)%nat by lia.
Qed.
End block_loop.

Lemma view_bytes_block (n : Z) (ll : list bytes) j x v :
  Forall (λ l, zlen l = n) ll → ll !! j = Some x →
  0 ≤ v_off v → 0 ≤ v_len v → v_off v + v_len v ≤ n →
  view_bytes (concat ll) (mkView (n * Z.of_nat j + v_off v) (v_len v)) = view_bytes x v.
Proof.
  intros Hll Hx H0 Hl Hn. destruct v as [o len]. simpl in *.
  rewrite <-(take_drop_middle _ _ _ Hx), concat_app. cbn [concat].
  assert (zlen (concat (take j ll)) = n * Z.of_nat j) as Hpre.
  { rewrite (zlen_concat_const n) by (by apply Forall_take).
    pose proof (lookup_lt_Some _ _ _ Hx). rewrite zlen_take. unfold zlen. lia. }
  rewrite view_bytes_app_r; cbn [v_off v_len]; [|lia..].
  rewrite view_bytes_app_l; cbn [v_off v_len]; [f_equal; f_equal; lia|lia|lia|].
  rewrite Forall_lookup in Hll. rewrite (Hll _ _ Hx). lia.
Qed.

Lemma foldl_content_concat (buf : bytes) bs :
  foldl (λ buf b, buf ++ content_block b) buf bs = buf ++ concat (content_block <$> bs).
Proof.
  revert buf. induction bs as [|b bs IH]; intros buf; simpl; [by rewrite app_nil_r|].
  by rewrite IH, <-app_assoc.
Qed.

(** *** The readers *)

Section reader_lemmas.
Context `{Platform}.

Lemma get32_app v rest : get32 (le_bytes 4 v ++ rest) = Ret (u32 v, rest).
Proof.
  unfold get32, GetFixed32.
  replace (zlen (le_bytes 4 v ++ rest) <? 4) with false.
  2:{ symmetry. apply Z.ltb_ge. rewrite zlen_app, zlen_le_bytes. pose proof (zlen_nonneg rest). lia. }
  by rewrite DecodeFixed32_app, drop_zlen_app by (by rewrite zlen_le_bytes).
Qed.

Lemma read_board_header_spec id n rest :
  0 ≤ n ≤ 312 → read_board_header (header_bytes id n ++ rest) = Ret (n, 48).
Proof.
  intros Hn. unfold header_bytes.
  change (replicate 44 NUL) with
    (le_bytes 4 0 ++ le_bytes 4 0 ++ le_bytes 4 0 ++ le_bytes 4 0 ++ le_bytes 4 0 ++ le_bytes 4 0 ++
     le_bytes 4 0 ++ replicate 16 NUL).
  unfold read_board_header. rewrite <-!app_assoc.
  do 12 (rewrite get32_app; cbn [mbind outcome_bind]).
  by rewrite u32_small by lia.
Qed.

Lemma read_gear_header id keys values :
  zlen keys ≤ 312 → read_board_header (gear_block_bytes id keys values) = Ret (zlen keys, 48).
Proof. intros. apply read_board_header_spec. pose proof (zlen_nonneg keys). lia. Qed.

(** The numbers of the entries of a block of [n]. *)
Definition entry_numbers (n : Z) : list Z := Z.of_nat <$> seq 0 (Z.to_nat n).

Lemma zlen_entry_numbers n : 0 ≤ n → zlen (entry_numbers n) = n.
Proof. intros Hn. unfold entry_numbers, zlen. rewrite length_fmap, length_seq. lia. Qed.

(** A block that announces [n] entries. *)
Definition block_of (b : bytes) (n : Z) : Prop :=
  zlen b = 8192 ∧ 0 ≤ n ≤ 312 ∧ ∃ id rest, b = header_bytes id n ++ rest.

Lemma entry_vector_step fuel pre b n rest total ks vs :
  block_of b n →
  entry_vector_loop (S fuel) (zlen pre) (pre ++ b ++ rest) total ks vs =
  entry_vector_loop fuel (zlen (pre ++ b)) ((pre ++ b) ++ rest) (u32 (total + n))
    (ks ++ (board_key_view (zlen pre + 48) <$> entry_numbers n))
    (vs ++ (board_value_view (zlen pre + 48) <$> entry_numbers n)).
Proof.
  intros (Hb & Hn & id & body & ->). cbn [entry_vector_loop]. rewrite (proj2 (Z.ltb_lt _ _)).
  2:{ rewrite !zlen_app in *. pose proof (zlen_nonneg rest). lia. }
  replace (Z.to_nat (zlen pre)) with (length pre) by (unfold zlen; lia).
  rewrite drop_app_length, <-(app_assoc (header_bytes id n)), read_board_header_spec by done.
  cbn [mbind outcome_bind].
  replace (zlen (pre ++ header_bytes id n ++ body)) with (zlen pre + 8 * 1024)
    by (rewrite (zlen_app pre), Hb; lia).
  by rewrite <-!app_assoc.
Qed.

Lemma entry_vector_blocks blocks counts fuel pre total ks vs :
  Forall2 block_of blocks counts → (length blocks < fuel)%nat →
  let views f := concat (imap (λ j n, f (zlen pre + 8192 * Z.of_nat j + 48) <$> entry_numbers n) counts) in
  entry_vector_loop fuel (zlen pre) (pre ++ concat blocks) total ks vs =
  Ret (foldl (λ total n, u32 (total + n)) total counts,
       ks ++ views board_key_view, vs ++ views board_value_view).
Proof.
  intros Hall. revert fuel pre total ks vs.
  induction Hall as [|b n blocks counts Hb Hall IH]; intros fuel pre total ks vs Hfuel;
    (destruct fuel as [|fuel]; [simpl in Hfuel; lia|]).
  - cbn [entry_vector_loop concat imap]. by rewrite !app_nil_r, Z.ltb_irrefl.
  - cbn [length concat foldl] in *. rewrite (entry_vector_step _ _ _ n) by done.
    rewrite IH by lia. cbn [imap concat]. change (Z.of_nat 0) with 0. rewrite Z.mul_0_r, Z.add_0_r.
    rewrite <-!app_assoc.
    assert (∀ f : Z → Z → view,
      imap (λ j m, f (zlen (pre ++ b) + 8192 * Z.of_nat j + 48) <$> entry_numbers m) counts =
      imap ((λ j m, f (zlen pre + 8192 * Z.of_nat j + 48) <$> entry_numbers m) ∘ S) counts) as E.
    { intros f. apply imap_ext. intros j m _. cbn. rewrite zlen_app, (proj1 Hb). do 2 f_equal. lia. }
    by rewrite !E.
Qed.

(** The counter of the entries, once a block is read. *)
Lemma counter_sum total counts :
  counts ≠ [] → foldl (λ total n, u32 (total + n)) total counts = u32 (total + foldr Z.add 0 counts).
Proof.
  destruct counts as [|n counts]; [done|intros _]. revert total n.
  induction counts as [|m counts IH]; intros total n; [cbn; f_equal; lia|].
  cbn [foldl foldr]. change (foldl _ (u32 (u32 (total + n) + m)) counts) with
    (foldl (λ total n, u32 (total + n)) (u32 (total + n)) (m :: counts)). rewrite IH.
  cbn [foldr]. unfold u32. rewrite Zplus_mod_idemp_l. f_equal. lia.
Qed.

Lemma sum_nonneg (counts : list Z) : Forall (λ n, 0 ≤ n) counts → 0 ≤ foldr Z.add 0 counts.
Proof. induction 1; simpl; lia. Qed.

End reader_lemmas.

(** The blocks of a gear table, as a list of their bytes. *)
Definition table_blocks (keys values : list bytes) (blocks : list bytes) : Prop :=
  length blocks = ((length keys + 311) / 312)%nat ∧
  ∀ j, (j < length blocks)%nat → blocks !! j = Some (gear_block_bytes 0
    (take 312 (drop (312 * j) keys)) (take 312 (drop (312 * j) values))).

Lemma GearTable_blocks `{Platform} keys values buf :
  entries_ok keys values →
  ∃ blocks, table_blocks keys values blocks ∧
    GearTable_ToDiskFormat keys values buf =
    Ret (buf ++ concat blocks, signed 32 (zlen (buf ++ concat blocks))).
Proof.
  intros Hok.
  destruct (block_loop_spec GearBlock_AddBlock
    (λ ks vs b, content_block b = gear_block_bytes 0 ks vs) (λ ks vs, GearBlock_AddBlock_spec ks vs 0)
    (S (length keys)) 0 keys values [] Hok ltac:(lia)) as (bs & Hrun & Hlen & Hbs).
  exists (content_block <$> bs). split; [split|].
  - by rewrite length_fmap, Hlen, Nat.sub_0_r.
  - intros j Hj. rewrite length_fmap in Hj. destruct (Hbs j Hj) as (b & Hb & HP).
    rewrite list_lookup_fmap, Hb. exact (f_equal Some HP).
  - unfold GearTable_ToDiskFormat. rewrite Hrun. cbn [mbind outcome_bind].
    by rewrite foldl_content_concat.
Qed.

Lemma table_blocks_size keys values blocks :
  entries_ok keys values → table_blocks keys values blocks →
  Forall (λ l, zlen l = 8192) blocks.
Proof.
  intros Hok [_ Hb]. apply Forall_lookup. intros j b Hj.
  pose proof (lookup_lt_Some _ _ _ Hj) as Hlt. rewrite (Hb _ Hlt) in Hj. injection Hj as <-.
  apply zlen_gear_block_bytes; [by apply entries_ok_chunk|]. rewrite zlen_take. lia.
Qed.

(** Entries per block add up to all entries. *)
Lemma sum_chunks {A} (l : list A) m :
  foldr Z.add 0 ((λ j, zlen (take 312 (drop (312 * j) l))) <$> seq 0 m) =
  Z.min (zlen l) (312 * Z.of_nat m).
Proof.
  induction m as [|m IH]; [simpl; pose proof (zlen_nonneg l); lia|].
  rewrite seq_S, fmap_app, foldr_app. cbn [foldr fmap list_fmap].
  assert (∀ x k, foldr Z.add x k = foldr Z.add 0 k + x) as Hx.
  { intros x k. induction k; simpl; lia. }
  rewrite Hx, IH, zlen_take, zlen_drop. pose proof (zlen_nonneg l). lia.
Qed.

(** The number of entries of every block. *)
Definition block_counts {A} (keys : list A) (m : nat) : list Z :=
  (λ j, zlen (take 312 (drop (312 * j) keys))) <$> seq 0 m.

Lemma table_blocks_counts keys values blocks :
  entries_ok keys values → table_blocks keys values blocks →
  Forall2 block_of blocks (block_counts keys (length blocks)).
Proof.
  unfold block_counts. intros Hok Htb. pose proof (table_blocks_size _ _ _ Hok Htb) as Hall.
  apply Forall2_same_length_lookup. split; [by rewrite length_fmap, length_seq|].
  intros j b n Hb Hn. apply list_lookup_fmap_Some in Hn as (j' & -> & [-> Hj]%lookup_seq).
  rewrite Forall_lookup in Hall. split; [by apply (Hall _ _ Hb)|].
  destruct Htb as [_ Htb]. rewrite (Htb _ Hj) in Hb. injection Hb as <-.
  split; [rewrite zlen_take; pose proof (zlen_nonneg (drop (312 * (0 + j)) keys)); lia|].
  exists 0. eexists. reflexivity.
Qed.

(** Two neighbouring views and the one in the middle. *)
Lemma view_bytes_middle mem o k1 k2 :
  view_bytes mem (mkView o 16) = Ret k1 → view_bytes mem (mkView (o + 16) 16) = Ret k2 →
  view_bytes mem (mkView (o + 8) 16) = Ret (drop 8 k1 ++ take 8 k2).
Proof.
  unfold view_bytes. cbn [v_off v_len]. destruct (Z.leb_spec 0 o); [|done].
  destruct (Z.leb_spec (o + 16 + 16) (zlen mem)); [|by rewrite andb_false_r].
  rewrite !(proj2 (Z.leb_le _ _)) by lia. cbn [andb].
  change (Z.to_nat 16) with 16%nat. intros [= <-] [= <-]. f_equal.
  replace (Z.to_nat (o + 8)) with (Z.to_nat o + 8)%nat by lia.
  replace (Z.to_nat (o + 16)) with (Z.to_nat o + 8 + 8)%nat by lia.
  rewrite <-!drop_drop. set (m := drop (Z.to_nat o) mem).
  change 16%nat with (8 + 8)%nat at 1. rewrite <-take_take_drop, take_take. f_equal.
  by rewrite skipn_firstn_comm.
Qed.

Lemma lookup_chunk {A} (l : list A) e x :
  l !! e = Some x → take 312 (drop (312 * (e / 312)) l) !! (e mod 312)%nat = Some x.
Proof.
  intros Hx. pose proof (Nat.div_mod_eq e 312). pose proof (Nat.mod_upper_bound e 312 ltac:(lia)).
  rewrite lookup_take_lt, lookup_drop by lia. rewrite <-Hx. f_equal. lia.
Qed.

Lemma table_blocks_index keys values blocks e k :
  table_blocks keys values blocks → keys !! e = Some k → (e / 312 < length blocks)%nat.
Proof.
  intros [-> _] He%lookup_lt_Some. apply Nat.Div0.div_lt_upper_bound.
  pose proof (Nat.div_mod_eq (length keys + 311) 312).
  pose proof (Nat.mod_upper_bound (length keys + 311) 312 ltac:(lia)). lia.
Qed.

Lemma table_blocks_entry keys values blocks e k v :
  entries_ok keys values → table_blocks keys values blocks →
  keys !! e = Some k → values !! e = Some v →
  let base := 8192 * Z.of_nat (e / 312) in
  let i := Z.of_nat (e mod 312) in
  view_bytes (concat blocks) (key_at base i) = Ret k ∧
  view_bytes (concat blocks) (value_at base i) = Ret v.
Proof.
  intros Hok Htb Hk Hv. pose proof (table_blocks_size _ _ _ Hok Htb) as Hall.
  pose proof (table_blocks_index _ _ _ _ _ Htb Hk) as Hj. destruct Htb as [_ Hb].
  specialize (Hb _ Hj). pose proof (Nat.mod_upper_bound e 312 ltac:(lia)).
  pose proof (entries_ok_chunk _ _ (312 * (e / 312)) 312 Hok) as Hok'.
  assert (zlen (take 312 (drop (312 * (e / 312)) keys)) ≤ 312) as H312 by (rewrite zlen_take; lia).
  pose proof (view_bytes_block 8192 _ _ _ (key_at 0 (Z.of_nat (e mod 312))) Hall Hb) as Vk.
  pose proof (view_bytes_block 8192 _ _ _ (value_at 0 (Z.of_nat (e mod 312))) Hall Hb) as Vv.
  rewrite (gear_block_key 0 _ _ _ k Hok' H312 (lookup_chunk _ _ _ Hk)) in Vk.
  rewrite (gear_block_value 0 _ _ _ v Hok' H312 (lookup_chunk _ _ _ Hv)) in Vv.
  unfold key_at, value_at in *. cbn [v_off v_len] in *.
  split; [rewrite <-Vk by lia|rewrite <-Vv by lia]; f_equal; f_equal; lia.
Qed.

Lemma table_blocks_total keys values blocks :
  table_blocks keys values blocks → foldr Z.add 0 (block_counts keys (length blocks)) = zlen keys.
Proof.
  intros [-> _]. unfold block_counts. rewrite sum_chunks.
  pose proof (Nat.div_mod_eq (length keys + 311) 312).
  pose proof (Nat.mod_upper_bound (length keys + 311) 312 ltac:(lia)). unfold zlen. lia.
Qed.

Lemma table_blocks_key keys values blocks j d k :
  entries_ok keys values → table_blocks keys values blocks → (d < 312)%nat →
  keys !! (312 * j + d)%nat = Some k →
  view_bytes (concat blocks) (key_at (8192 * Z.of_nat j) (Z.of_nat d)) = Ret k.
Proof.
  intros Hok Htb Hd Hk.
  destruct (lookup_lt_is_Some_2 values (312 * j + d)%nat) as [v Hv].
  { rewrite <-(ok_length _ _ Hok). by eapply lookup_lt_Some. }
  destruct (table_blocks_entry _ _ _ _ k v Hok Htb Hk Hv) as [E _].
  replace ((312 * j + d) / 312)%nat with j in E by (apply (Nat.div_unique _ _ _ d); lia).
  replace ((312 * j + d) mod 312)%nat with d in E by (apply (Nat.mod_unique _ _ j); lia). done.
Qed.

(** The key views of a block that starts at [base], from entry 9 on. *)
Lemma key_view_odd base d :
  (d < 312)%nat → board_key_view (base + 48) (2 * Z.of_nat d + 9) = key_at base (Z.of_nat d).
Proof.
  intros Hd. unfold board_key_view, key_at, KEY_CONTENT_LENGTH, KEY_SUFFIX_LENGTH.
  rewrite u32_small by lia. f_equal; lia.
Qed.

Lemma key_view_even base d :
  (d < 312)%nat → board_key_view (base + 48) (2 * Z.of_nat d + 10) =
    mkView (v_off (key_at base (Z.of_nat (d + 1))) + 8) 16.
Proof.
  intros Hd. unfold board_key_view, key_at, KEY_CONTENT_LENGTH, KEY_SUFFIX_LENGTH. cbn [v_off].
  rewrite u32_small by lia. f_equal; lia.
Qed.

Lemma imap_fmap_seq {A B} (f : nat → A → B) (g : nat → A) m :
  imap f (g <$> seq 0 m) = (λ j, f j (g j)) <$> seq 0 m.
Proof.
  apply list_eq. intros i. rewrite list_lookup_imap, !list_lookup_fmap.
  destruct (decide (i < m)%nat); [by rewrite lookup_seq_lt by lia|].
  by rewrite lookup_seq_ge by lia.
Qed.

(** The views of all blocks of a table. *)
Definition table_views (f : Z → Z → view) (keys : list bytes) (m : nat) : list view :=
  concat ((λ j, f (8192 * Z.of_nat j + 48) <$>
    entry_numbers (zlen (take 312 (drop (312 * j) keys)))) <$> seq 0 m).

Lemma ComposeEntryVector_blocks `{Platform} keys values blocks total :
  entries_ok keys values → table_blocks keys values blocks → 1 ≤ zlen keys →
  zlen (table_views board_key_view keys (length blocks)) = zlen keys ∧
  ComposeEntryVector total [] [] (concat blocks) =
    assert! zlen keys =? u32 (total + zlen keys) ;;
    Ret (table_views board_key_view keys (length blocks), table_views board_value_view keys (length blocks)).
Proof.
  intros Hok Htb Hn. pose proof (table_blocks_counts _ _ _ Hok Htb) as Hcounts.
  pose proof (zlen_concat_const _ _ (table_blocks_size _ _ _ Hok Htb)) as Hz.
  pose proof (table_blocks_total _ _ _ Htb) as Hsum.
  assert (block_counts keys (length blocks) ≠ []) as Hne.
  { intros E. rewrite E in Hsum. cbn in Hsum. lia. }
  assert (zlen (table_views board_key_view keys (length blocks)) = zlen keys) as Hviews.
  { unfold table_views. rewrite <-Hsum. unfold block_counts. generalize (seq 0 (length blocks)).
    intros js. induction js as [|j js IH]; [done|]. rewrite !fmap_cons. cbn [concat foldr].
    rewrite zlen_app, IH, zlen_fmap, zlen_entry_numbers by apply zlen_nonneg. done. }
  split; [done|]. unfold ComposeEntryVector.
  pose proof (entry_vector_blocks blocks _ (S (length (concat blocks))) [] total [] [] Hcounts) as Hrun.
  rewrite !app_nil_l in Hrun. change (zlen []) with 0 in Hrun. cbv zeta in Hrun.
  rewrite Hrun by (unfold zlen in Hz; lia). cbn [mbind outcome_bind]. rewrite counter_sum, Hsum by done.
  assert (∀ f, concat (imap (λ j n, f (0 + 8192 * Z.of_nat j + 48) <$> entry_numbers n)
    (block_counts keys (length blocks))) = table_views f keys (length blocks)) as Hv.
  { intros f. unfold block_counts. by rewrite imap_fmap_seq. }
  by rewrite !Hv, !app_nil_l, Hviews.
Qed.

(** ** Properties *)

(** C6: [GearTable::ToDiskFormat] packs 16-byte keys and 10-byte values into
    8 KiB blocks.  It returns; the buffer grows by one block for every started
    group of 312 entries; every block is the five numbers of its header (block id
    0, its number [n] of entries, [16 n], [10 n] and the [8128 - 26 n] bytes left,
    each in four bytes) and 44 zeros, its values in order, as many letters h as
    bytes are left, and its keys in reverse order.  So entry [e] is in block
    [e / 312], its value at [64 + 10 i] and its key at [8192 - 16 (i + 1)] for
    [i = e mod 312]. *)
Theorem gear_table_layout (P : Platform) keys values buf :
  entries_ok keys values →
  ∃ blocks, let data := concat blocks in
    GearTable_ToDiskFormat keys values buf = Ret (buf ++ data, signed 32 (zlen (buf ++ data))) ∧
    zlen blocks = (zlen keys + 311) / 312 ∧
    zlen data = 8192 * ((zlen keys + 311) / 312) ∧
    (∀ j b, blocks !! j = Some b →
       let n := Z.min 312 (zlen keys - 312 * Z.of_nat j) in
       zlen b = 8192 ∧
       b = le_bytes 4 0 ++ le_bytes 4 n ++ le_bytes 4 (16 * n) ++ le_bytes 4 (10 * n) ++
           le_bytes 4 (8128 - 26 * n) ++ replicate 44 NUL ++
           concat (take 312 (drop (312 * j) values)) ++
           replicate (Z.to_nat (8128 - 26 * n)) (z2b 104) ++
           concat (reverse (take 312 (drop (312 * j) keys))) ∧
       read_board_header b = Ret (n, 48)) ∧
    (∀ (e : nat) k v, keys !! e = Some k → values !! e = Some v →
       let base := 8192 * Z.of_nat (e / 312) in
       let i := Z.of_nat (e mod 312) in
       view_bytes data (key_at base i) = Ret k ∧ view_bytes data (value_at base i) = Ret v).
Proof.
  intros Hok. destruct (GearTable_blocks keys values buf Hok) as (blocks & Htb & Hrun).
  pose proof (table_blocks_size _ _ _ Hok Htb) as Hall.
  assert (zlen blocks = (zlen keys + 311) / 312) as Hcount.
  { unfold zlen. rewrite (proj1 Htb), Nat2Z.inj_div. f_equal. lia. }
  exists blocks. cbv zeta. split; [done|]. split; [done|]. split; [|split].
  - by rewrite (zlen_concat_const _ _ Hall), Hcount.
  - intros j b Hj. pose proof (lookup_lt_Some _ _ _ Hj) as Hlt.
    rewrite Forall_lookup in Hall. split; [by eapply Hall|].
    destruct Htb as [Hlen Hb]. rewrite (Hb _ Hlt) in Hj. apply (inj Some) in Hj as <-.
    rewrite Hlen in Hlt. rewrite read_gear_header by (rewrite zlen_take; lia).
    assert (zlen (take 312 (drop (312 * j) keys)) = Z.min 312 (zlen keys - 312 * Z.of_nat j)) as Hn.
    { rewrite zlen_take, zlen_drop.
      pose proof (Nat.Div0.mul_div_le (length keys + 311) 312). unfold zlen. lia. }
    unfold gear_block_bytes, header_bytes. rewrite Hn, <-!app_assoc. done.
  - intros e k v Hk Hv. by apply (table_blocks_entry keys values).
Qed.

Lemma gear_table_layout_witness :
  let ks := [replicate 16 (z2b 1); replicate 16 (z2b 2)] in
  let vs := [replicate 10 (z2b 3); replicate 10 (z2b 4)] in
  entries_ok ks vs ∧ ∃ blocks,
    GearTable_ToDiskFormat (H:=LittleEndianHost) ks vs [] = Ret (concat blocks, signed 32 (zlen (concat blocks))).
Proof.
  cbv zeta.
  assert (entries_ok [replicate 16 (z2b 1); replicate 16 (z2b 2)]
    [replicate 10 (z2b 3); replicate 10 (z2b 4)]) as Hok
    by (split; [repeat constructor|repeat constructor|reflexivity]).
  split; [exact Hok|].
  destruct (gear_table_layout LittleEndianHost _ _ [] Hok) as (blocks & Hrun & _).
  exists blocks. exact Hrun.
Defined.

(** C10: [ComposeOnBoardBlock] cuts the entries into the same groups of 312, all
    with block id 0, but its blocks have no placeholder: a block of [n] entries
    has [64 + 26 n] bytes, less than [BLOCK_SIZE] for every [n] that fits, so
    that [AppendToFile], which always writes [BLOCK_SIZE] bytes, reads past the
    end of the block. *)
Theorem on_board_blocks_short (P : Platform) keys values :
  entries_ok keys values →
  ∃ bs, ComposeOnBoardBlock keys values [] = Ret bs ∧
    length bs = ((length keys + 311) / 312)%nat ∧
    ∀ j b, bs !! j = Some b →
      let ks := take 312 (drop (312 * j) keys) in
      let vs := take 312 (drop (312 * j) values) in
      content_block b = header_bytes 0 (zlen ks) ++ concat vs ++ concat (reverse ks) ∧
      zlen (content_block b) = 64 + 26 * zlen ks ∧
      ∀ write file, AppendToFile write b file = Fault OutOfBounds.
Proof.
  intros Hok.
  destruct (block_loop_spec OnBoardBlock_AddBlock (λ ks vs b, num_of_entries b = zlen ks ∧
      content_block b = header_bytes 0 (zlen ks) ++ concat vs ++ concat (reverse ks))
    (λ ks vs, OnBoardBlock_AddBlock_spec ks vs 0) (S (length keys)) 0 keys values [] Hok
    ltac:(lia)) as (bs & Hrun & Hlen & Hbs).
  exists bs. split; [done|]. split; [by rewrite Hlen, Nat.sub_0_r|].
  intros j b Hj. cbv zeta.
  destruct (Hbs j) as (b' & Hb' & _ & HP); [by eapply lookup_lt_Some|].
  rewrite Hj in Hb'. injection Hb' as <-. rewrite Nat.add_0_l in HP.
  destruct (entries_ok_zlen _ _ (entries_ok_chunk _ _ (312 * j) 312 Hok)) as [Hk Hv].
  assert (zlen (content_block b) = 64 + 26 * zlen (take 312 (drop (312 * j) keys))) as Hz.
  { rewrite HP, !zlen_app, zlen_header_bytes, Hk, Hv. lia. }
  split; [done|]. split; [done|]. intros write file.
  unfold AppendToFile. rewrite zlen_app, zlen_single, Hz.
  rewrite (proj2 (Z.ltb_lt _ _)); [done|]. unfold BLOCK_SIZE.
  rewrite zlen_take. lia.
Qed.

Lemma on_board_blocks_short_witness :
  let ks := [replicate 16 (z2b 1)] in let vs := [replicate 10 (z2b 3)] in
  entries_ok ks vs ∧ ∃ bs, ComposeOnBoardBlock (H:=LittleEndianHost) ks vs [] = Ret bs ∧ length bs = 1%nat.
Proof.
  cbv zeta.
  assert (entries_ok [replicate 16 (z2b 1)] [replicate 10 (z2b 3)]) as Hok
    by (split; [repeat constructor|repeat constructor|reflexivity]).
  split; [exact Hok|].
  destruct (on_board_blocks_short LittleEndianHost _ _ Hok) as (bs & Hrun & Hlen & _).
  exists bs. split; [exact Hrun|exact Hlen].
Defined.

(** C35: [ComposeEntryVector] on the blocks of a gear table with a 32-bit number
    of entries, at least one.  It returns exactly when its uninitialised counter
    started at 0 modulo [2^32], and fails its assertion otherwise; it makes a key
    and a value view for every entry of every block.  The views are not the
    entries: value view [e] of a block starts 16 bytes before value [e].  Key view
    [e] reaches behind the block for [e < 9], which in the last block is out of
    bounds; it is key [d] of the block for [e = 2 d + 9], and the second half of
    key [d + 1] with the first half of key [d] for [e = 2 d + 10]. *)
Theorem entry_vector_views (P : Platform) keys values blocks total :
  entries_ok keys values → table_blocks keys values blocks → 1 ≤ zlen keys < 2 ^ 32 →
  let input := concat blocks in
  let views f := concat ((λ j, f (8192 * Z.of_nat j + 48) <$>
    entry_numbers (zlen (take 312 (drop (312 * j) keys)))) <$> seq 0 (length blocks)) in
  let result := ComposeEntryVector total [] [] input in
  (u32 total = 0 → result = Ret (views board_key_view, views board_value_view)) ∧
  (u32 total ≠ 0 → result = Fault AssertionFailed) ∧
  zlen (views board_key_view) = zlen keys ∧
  (∀ base e, 0 ≤ e < 312 → v_off (board_value_view (base + 48) e) = v_off (value_at base e) - 16) ∧
  (∀ base e, 0 ≤ e < 9 →
     base + 8192 < v_off (board_key_view (base + 48) e) + v_len (board_key_view (base + 48) e)) ∧
  (∀ e, 0 ≤ e < 9 →
     view_bytes input (board_key_view (8192 * (zlen blocks - 1) + 48) e) = Fault OutOfBounds) ∧
  (∀ j d k, (d < 312)%nat → keys !! (312 * j + d)%nat = Some k →
     view_bytes input (board_key_view (8192 * Z.of_nat j + 48) (2 * Z.of_nat d + 9)) = Ret k ∧
     ∀ k', (d + 1 < 312)%nat → keys !! (312 * j + d + 1)%nat = Some k' →
       view_bytes input (board_key_view (8192 * Z.of_nat j + 48) (2 * Z.of_nat d + 10)) =
       Ret (drop 8 k' ++ take 8 k)).
Proof.
  intros Hok Htb Hn input views result.
  pose proof (zlen_concat_const _ _ (table_blocks_size _ _ _ Hok Htb)) as Hz.
  destruct (ComposeEntryVector_blocks keys values blocks total Hok Htb ltac:(lia)) as [Hviews Hres].
  fold input result in Hres. unfold table_views in *. fold (views board_key_view) (views board_value_view) in *.
  rewrite Hres. unfold u32.
  assert ((total + zlen keys) mod 2 ^ 32 = zlen keys ↔ total mod 2 ^ 32 = 0) as Hu.
  { pose proof (Z.mod_pos_bound (total + zlen keys) (2 ^ 32)). pose proof (Z.mod_pos_bound total (2 ^ 32)).
    pose proof (Z.div_mod (total + zlen keys) (2 ^ 32)). pose proof (Z.div_mod total (2 ^ 32)). nia. }
  split_and!.
  - intros H0. by rewrite (proj2 Hu H0), Z.eqb_refl.
  - intros H0. rewrite (proj2 (Z.eqb_neq _ _)); [done|]. intros E. by apply H0, Hu.
  - done.
  - intros base e He. unfold board_value_view, value_at, VALUE_LENGTH. simpl. rewrite u32_small by lia. lia.
  - intros base e He. unfold board_key_view, KEY_CONTENT_LENGTH, KEY_SUFFIX_LENGTH. cbn [v_off v_len].
    rewrite u32_small by lia. lia.
  - intros e He. unfold view_bytes, board_key_view, KEY_CONTENT_LENGTH, KEY_SUFFIX_LENGTH.
    cbn [v_off v_len]. unfold input. rewrite Hz, u32_small by lia.
    rewrite (proj2 (Z.leb_gt _ (8192 * zlen blocks))), andb_false_r by lia. done.
  - intros j d k Hd Hk. split; [|intros k' Hd' Hk'].
    + by rewrite <-(table_blocks_key _ _ _ j d k Hok Htb Hd Hk), key_view_odd.
    + rewrite key_view_even by done. apply view_bytes_middle.
      * rewrite <-Nat.add_assoc in Hk'.
        exact (table_blocks_key keys values blocks j (d + 1) k' Hok Htb Hd' Hk').
      * etrans; [|by apply (table_blocks_key keys values blocks j d)]. f_equal. unfold key_at. cbn [v_off]. f_equal. lia.
Qed.

Lemma entry_vector_views_witness :
  let ks := replicate 313 (replicate 16 (z2b 1)) in let vs := replicate 313 (replicate 10 (z2b 3)) in
  entries_ok ks vs ∧ 1 ≤ zlen ks < 2 ^ 32 ∧
  ∃ blocks, table_blocks ks vs blocks ∧ zlen blocks = 2 ∧
    view_bytes (concat blocks) (board_key_view (8192 * 1 + 48) 0) = Fault OutOfBounds ∧
    view_bytes (concat blocks) (board_key_view (8192 * 1 + 48) 9) = Ret (replicate 16 (z2b 1)).
Proof.
  cbv zeta. set (ks := replicate 313 (replicate 16 (z2b 1))). set (vs := replicate 313 (replicate 10 (z2b 3))).
  assert (entries_ok ks vs) as Hok.
  { split; [by apply Forall_replicate|by apply Forall_replicate|reflexivity]. }
  assert (1 ≤ zlen ks < 2 ^ 32) as Hn by (split; vm_compute; congruence).
  split; [exact Hok|]. split; [exact Hn|].
  exists [gear_block_bytes 0 (take 312 ks) (take 312 vs); gear_block_bytes 0 (drop 312 ks) (drop 312 vs)].
  match goal with |- table_blocks _ _ ?b ∧ _ => set (blocks := b) end.
  assert (table_blocks ks vs blocks) as Htb.
  { split; [reflexivity|]. intros [|[|j]] Hj; [reflexivity|reflexivity|]. simpl in Hj. lia. }
  split; [exact Htb|]. split; [reflexivity|].
  destruct (entry_vector_views LittleEndianHost ks vs blocks 0 Hok Htb Hn)
    as (_ & _ & _ & _ & _ & Hv & Hk). split.
  - apply (Hv 0). lia.
  - apply (Hk 1%nat 0%nat); [lia|reflexivity].
Defined.
