(* ===== verification/Tables.v ===== *)
(** * Tables (include/tables/, tables/)

    The base class [Table] with its file, the four table formats, and the
    readers and writers of board blocks that the base class has.

    The operating system is behind the class [Posix]: what the calls return is
    not the program's, and [PosixLaws] states the documented behaviour the
    theorems use.  [MemFile] is a file in memory that satisfies the laws.

    The slices of [key_list] and [value_list] are a parameter [S] of the
    record: [ToDiskFormat] and [ToOnBoardFormat] read the bytes they view
    ([S = bytes]), [FromOnBoardBlocks] makes new ones ([S = view], into its
    argument). *)
From S2P Require Import Prelude Slice Coding OnBoard.

(** ** The operating system *)

(** The two ways the constructor of [Table] calls [open]. *)
Inductive open_flags : Set :=
  | O_RDONLY
  | O_CREAT_WRONLY.

#[global] Instance open_flags_eq_dec : EqDecision open_flags.
Proof. solve_decision. Defined.

(** [F] is what a descriptor stands for: an open file with its offset.  A
    result [None] is the [-1] of the call. *)
Class Posix (F : Type) := {
  sys_open : bytes → open_flags → option F;
  sys_read : F → Z → F * option bytes;
  sys_write : F → bytes → F * option Z;
  sys_fdatasync : F → F;
  sys_fsync : F → F;
}.

Class PosixLaws (F : Type) `{Posix F} := {
  fd_flags : F → open_flags;
  fd_offset : F → nat;
  fd_content : F → bytes;
  open_flags_kept name fl f : sys_open name fl = Some f → fd_flags f = fl ∧ fd_offset f = 0%nat;
  (** EBADF *)
  read_write_only f n : fd_flags f = O_CREAT_WRONLY → (sys_read f n).2 = None;
  write_read_only f data : fd_flags f = O_RDONLY → (sys_write f data).2 = None;
  (** A read returns at most the bytes asked for, from the offset on. *)
  read_bytes f n f' bs : sys_read f n = (f', Some bs) →
    zlen bs ≤ n ∧ bs = take (length bs) (drop (fd_offset f) (fd_content f)) ∧
    fd_offset f' = (fd_offset f + length bs)%nat ∧ fd_content f' = fd_content f;
  (** A write reports at most the bytes given; from an offset inside the file it
      puts as many there. *)
  write_count f data f' n : sys_write f data = (f', Some n) → 0 ≤ n ≤ zlen data;
  write_bytes f data f' n : sys_write f data = (f', Some n) →
    (fd_offset f ≤ length (fd_content f))%nat →
    fd_offset f' = (fd_offset f + Z.to_nat n)%nat ∧
    fd_content f' = take (fd_offset f) (fd_content f) ++ take (Z.to_nat n) data ++
                    drop (fd_offset f + Z.to_nat n) (fd_content f);
  fdatasync_kept f : fd_content (sys_fdatasync f) = fd_content f ∧
                     fd_offset (sys_fdatasync f) = fd_offset f;
  fsync_kept f : fd_content (sys_fsync f) = fd_content f ∧ fd_offset (sys_fsync f) = fd_offset f;
}.

(** ** Table *)

Record Table (S F : Type) := mkTable {
  key_list : list S;
  value_list : list S;
  target_fd : F;
  file_name : bytes;
  num_of_blocks : Z;
}.
Arguments mkTable {S F}.
Arguments key_list {S F}.
Arguments value_list {S F}.
Arguments target_fd {S F}.
Arguments file_name {S F}.
Arguments num_of_blocks {S F}.

Definition with_fd {S F} (fd : F) (t : Table S F) : Table S F :=
  mkTable (key_list t) (value_list t) fd (file_name t) (num_of_blocks t).

Section table.
Context {F : Type} `{Posix F}.

(** [Table::Table] *)
Definition Table_ctor {S} (fname : bytes) (read : bool) : outcome (Table S F) :=
  match sys_open fname (if read then O_RDONLY else O_CREAT_WRONLY) with
  | Some fd => Ret (mkTable [] [] fd fname 0)
  | None => Fault AssertionFailed
  end.

(** [Table::Flush() const] *)
Definition Flush {S} (t : Table S F) : Table S F :=
  with_fd (sys_fsync (sys_fdatasync (target_fd t))) t.

(** [Table::WriteToDisk] *)
Definition WriteToDisk {S} (t : Table S F) (data_pack : bytes) : outcome (Table S F * Z) :=
  match sys_write (target_fd t) data_pack with
  | (_, None) => Fault AssertionFailed
  | (fd, Some written) => Ret (Flush (with_fd fd t), signed 32 written)
  end.

(** [Table::ReadFromDisk]: [buffer] is the memory of [new char[file_length]],
    whose bytes are indeterminate; the result string is all of it. *)
Definition ReadFromDisk {S} (t : Table S F) (buffer : bytes) (file_length : Z) :
    outcome (Table S F * bytes * Z) :=
  match sys_read (target_fd t) file_length with
  | (_, None) => Fault AssertionFailed
  | (fd, Some readed) =>
      Ret (with_fd fd t, readed ++ drop (length readed) buffer, u64 (zlen readed))
  end.
End table.

(** ** Board blocks *)

Section board.
Context `{Platform} {F : Type}.

(** [Table::ToOnBoardFormat] *)
Definition ToOnBoardFormat (t : Table bytes F) (result_buffer : bytes) : outcome bytes :=
  result_list ← ComposeOnBoardBlock (key_list t) (value_list t) [];
  Ret (foldl (λ buf b, buf ++ content_block b) result_buffer result_list).

(** The slices of entry [j]: both are made from [data_pack.data()], whichever
    the block of the entry is. *)
Definition board_key (j : Z) : view :=
  mkView (8 * 1024 - u32 (j * (KEY_CONTENT_LENGTH + KEY_SUFFIX_LENGTH)))
         (KEY_SUFFIX_LENGTH + KEY_CONTENT_LENGTH).
Definition board_value (j : Z) : view := mkView (u32 (j * VALUE_LENGTH)) VALUE_LENGTH.

(** The loop of [FromOnBoardBlocks] from byte [i] on. *)
Fixpoint from_board_loop (fuel : nat) (i : Z) (data_pack : bytes) (t : Table view F)
    (last num_entries : Z) : outcome (Table view F * Z * Z) :=
  match fuel with
  | O => Ret (t, last, num_entries)
  | S fuel =>
      if i <? zlen data_pack then
        let temp := drop (Z.to_nat i) data_pack in
        '(fixed_32_read_pos, temp) ← get32 temp;
        '(last, temp) ← get32 temp;
        '(key_length, temp) ← get32 temp;
        '(value_length, temp) ← get32 temp;
        '(placeholder_length, temp) ← get32 temp;
        let js := Z.of_nat <$> seq 0 (Z.to_nat last) in
        let t := mkTable (key_list t ++ (board_key <$> js)) (value_list t ++ (board_value <$> js))
          (target_fd t) (file_name t) (signed 32 (num_of_blocks t + 1)) in
        from_board_loop fuel (i + 8 * 1024) data_pack t last (u64 (num_entries + zlen js))
      else Ret (t, last, num_entries)
  end.

(** [Table::FromOnBoardBlocks]: the table, [*last] and the result. *)
Definition FromOnBoardBlocks (t : Table view F) (data_pack : bytes) (last : Z) :
    outcome (Table view F * Z * Z) :=
  let t := mkTable (key_list t) (value_list t) (target_fd t) (file_name t) 0 in
  from_board_loop (S (length data_pack)) 0 data_pack t last 0.
End board.

(** ** The formats *)

(** The enum of merger.h. *)
Inductive TableFormat : Set :=
  | kGear
  | kBlockBased
  | kPlain
  | kCuckoo.

#[global] Instance TableFormat_eq_dec : EqDecision TableFormat.
Proof. solve_decision. Defined.

Section formats.
Context `{Platform} {F : Type} `{Posix F}.

(** [PlainTable::ToDiskFormat]: each key and its value, in order. *)
Definition PlainTable_ToDiskFormat (t : Table bytes F) (disk_format_buffer : bytes) :
    outcome (bytes * Z) :=
  buffer ← foldM (λ buf i,
    match key_list t !! i, value_list t !! i with
    | Some k, Some v => Ret (buf ++ k ++ v)
    | _, _ => Fault OutOfBounds
    end) disk_format_buffer (seq 0 (length (key_list t)));
  Ret (buffer, 0).

Definition BlockBasedTable_ToDiskFormat (t : Table bytes F) (disk_format_buffer : bytes) :
    outcome (bytes * Z) := Ret (disk_format_buffer, 0).
Definition CuckooTable_ToDiskFormat (t : Table bytes F) (disk_format_buffer : bytes) :
    outcome (bytes * Z) := Ret (disk_format_buffer, 0).

(** The virtual call. *)
Definition ToDiskFormat (format : TableFormat) (t : Table bytes F) (buffer : bytes) :
    outcome (bytes * Z) :=
  match format with
  | kGear => GearTable_ToDiskFormat (key_list t) (value_list t) buffer
  | kBlockBased => BlockBasedTable_ToDiskFormat t buffer
  | kPlain => PlainTable_ToDiskFormat t buffer
  | kCuckoo => CuckooTable_ToDiskFormat t buffer
  end.

(** [FromDiskFormat] of all four: the table and [*last_entry_count] stay. *)
Definition FromDiskFormat (format : TableFormat) (t : Table bytes F) (data_pack : bytes)
    (last_entry_count : Z) : Table bytes F * Z * Z :=
  (t, last_entry_count, 0).

(** The constructors, called with [(fname, read)]; the one of
    [BlockBasedTable] does not pass [read] on. *)
Definition GearTable_ctor {S} (fname : bytes) (read : bool) : outcome (Table S F) :=
  Table_ctor fname read.
Definition BlockBasedTable_ctor {S} (fname : bytes) (b : bool) : outcome (Table S F) :=
  Table_ctor fname false.
Definition PlainTable_ctor {S} (fname : bytes) (read : bool) : outcome (Table S F) :=
  Table_ctor fname read.
Definition CuckooTable_ctor {S} (fname : bytes) (b : bool) : outcome (Table S F) :=
  Table_ctor fname b.

(** [Merger::CreateFilePointerFromName] *)
Definition CreateFilePointerFromName {S} (format : TableFormat) (fname : bytes) :
    outcome (Table S F) :=
  match format with
  | kGear => GearTable_ctor fname true
  | kBlockBased => BlockBasedTable_ctor fname true
  | kPlain => PlainTable_ctor fname true
  | kCuckoo => CuckooTable_ctor fname true
  end.
End formats.

(** ** A file in memory *)

Record MemFile := mkMemFile { mf_flags : open_flags; mf_offset : nat; mf_content : bytes }.

Lemma take_length_take {A} n (l : list A) : take n l = take (length (take n l)) l.
Proof.
  rewrite length_take. destruct (Nat.min_spec n (length l)) as [[? ->]|[? ->]]; [done|].
  by rewrite !take_ge by lia.
Qed.

(** Every name opens a file with the same content; calls transfer all they can. *)
Definition MemPosix (content : bytes) : Posix MemFile := {|
  sys_open name fl := Some (mkMemFile fl 0 content);
  sys_read f n :=
    if decide (mf_flags f = O_RDONLY) then
      let bs := take (Z.to_nat n) (drop (mf_offset f) (mf_content f)) in
      (mkMemFile (mf_flags f) (mf_offset f + length bs) (mf_content f),
       if n <? 0 then None else Some bs)
    else (f, None);
  sys_write f data :=
    if decide (mf_flags f = O_RDONLY) then (f, None)
    else (mkMemFile (mf_flags f) (mf_offset f + length data)
            (take (mf_offset f) (mf_content f) ++ data ++
             drop (mf_offset f + length data) (mf_content f)), Some (zlen data));
  sys_fdatasync f := f;
  sys_fsync f := f;
|}.

#[export] Instance MemPosix_laws content : @PosixLaws MemFile (MemPosix content).
Proof.
  refine {| fd_flags := mf_flags : _ → _; fd_offset := mf_offset; fd_content := mf_content |};
    simpl.
  - intros name fl f [= <-]. done.
  - intros f n Hf. by rewrite Hf.
  - intros f data Hf. by rewrite Hf.
  - intros f n f' bs. case_decide; [|done]. intros [= <- Hbs].
    destruct (Z.ltb_spec n 0); [done|]. injection Hbs as <-. cbn [mf_offset mf_content].
    rewrite zlen_take. split; [lia|]. split; [|done].
    apply take_length_take.
  - intros f data f' n. case_decide; [done|]. intros [= <- <-]. pose proof (zlen_nonneg data). lia.
  - intros f data f' n. case_decide; [done|]. intros [= <- <-] _. unfold zlen.
    rewrite Nat2Z.id. cbn [mf_offset mf_content]. by rewrite (take_ge data) by lia.
  - done.
  - done.
Defined.

(** ** Lemmas *)

Section table_lemmas.
Context `{Platform} {F : Type}.

(** The slices [FromOnBoardBlocks] makes for a block of [n] entries. *)
Definition views_of (f : Z → view) (n : Z) : list view := f <$> (Z.of_nat <$> seq 0 (Z.to_nat n)).

Lemma signed_32_small z : 0 ≤ z < 2 ^ 31 → signed 32 z = z.
Proof. intros Hz. unfold signed. rewrite Z.mod_small by lia. zbool; lia. Qed.

Lemma from_board_step (fuel : nat) pre b n rest (t : Table view F) last num :
  block_of b n → 0 ≤ num_of_blocks t < 2 ^ 31 - 1 → 0 ≤ num → num + n < 2 ^ 64 →
  from_board_loop (S fuel) (zlen pre) (pre ++ b ++ rest) t last num =
  from_board_loop fuel (zlen (pre ++ b)) ((pre ++ b) ++ rest)
    (mkTable (key_list t ++ views_of board_key n) (value_list t ++ views_of board_value n)
       (target_fd t) (file_name t) (num_of_blocks t + 1)) n (num + n).
Proof.
  intros (Hb & Hn & id & body & ->) Ht Hnum Hbound.
  cbn [from_board_loop]. rewrite (proj2 (Z.ltb_lt _ _)).
  2:{ rewrite !zlen_app in *. pose proof (zlen_nonneg rest). lia. }
  replace (Z.to_nat (zlen pre)) with (length pre) by (unfold zlen; lia).
  assert (∃ tail, (header_bytes id n ++ body) ++ rest = le_bytes 4 id ++ le_bytes 4 n ++
    le_bytes 4 (16 * n) ++ le_bytes 4 (10 * n) ++ le_bytes 4 (8128 - 26 * n) ++ tail) as [tail Ht'].
  { unfold header_bytes. eexists. by rewrite <-!app_assoc. }
  rewrite drop_app_length, Ht'.
  rewrite get32_app; cbn [mbind outcome_bind]. rewrite get32_app; cbn [mbind outcome_bind].
  rewrite get32_app; cbn [mbind outcome_bind]. rewrite get32_app; cbn [mbind outcome_bind].
  rewrite get32_app; cbn [mbind outcome_bind].
  rewrite (u32_small n), signed_32_small, !zlen_fmap, u64_small by
    (unfold zlen; rewrite ?length_fmap, ?length_seq; lia).
  replace (zlen (seq 0 (Z.to_nat n))) with n by (unfold zlen; rewrite length_seq; lia).
  replace (zlen (pre ++ header_bytes id n ++ body)) with (zlen pre + 8 * 1024)
    by (rewrite (zlen_app pre), Hb; lia).
  by rewrite <-Ht', (app_assoc pre).
Qed.

Lemma from_board_blocks blocks counts fuel pre (t : Table view F) last num :
  Forall2 block_of blocks counts → (length blocks < fuel)%nat →
  0 ≤ num_of_blocks t → num_of_blocks t + zlen blocks < 2 ^ 31 →
  0 ≤ num → num + foldr Z.add 0 counts < 2 ^ 64 →
  from_board_loop fuel (zlen pre) (pre ++ concat blocks) t last num =
  Ret (mkTable (key_list t ++ concat (views_of board_key <$> counts))
         (value_list t ++ concat (views_of board_value <$> counts))
         (target_fd t) (file_name t) (num_of_blocks t + zlen blocks),
       default last (list.last counts), num + foldr Z.add 0 counts).
Proof.
  intros Hall. revert fuel pre t last num.
  induction Hall as [|b n blocks counts Hb Hall IH]; intros fuel pre t last num Hfuel Ht Htb Hnum Hb64;
    (destruct fuel as [|fuel]; [simpl in Hfuel; lia|]).
  - cbn [from_board_loop concat]. rewrite app_nil_r, Z.ltb_irrefl. destruct t. simpl.
    by rewrite !app_nil_r, !Z.add_0_r.
  - cbn [concat foldr length] in *. rewrite zlen_cons in *. pose proof (zlen_nonneg blocks).
    assert (0 ≤ foldr Z.add 0 counts) as Hsum.
    { apply sum_nonneg. clear -Hall. induction Hall as [|???? (_ & ? & _)]; constructor; [lia|done]. }
    assert (0 ≤ n) as Hn by (destruct Hb as (_ & ? & _); lia).
    rewrite (from_board_step _ _ _ n) by (done || lia).
    rewrite IH; cbn [num_of_blocks key_list value_list target_fd file_name]; [|lia..].
    rewrite <-!app_assoc, !fmap_cons. cbn [concat].
    rewrite <-!Z.add_assoc. rewrite last_cons. by destruct (list.last counts).
Qed.
End table_lemmas.

Lemma last_fmap_seq {A} (f : nat → A) n : list.last (f <$> seq 0 (S n)) = Some (f n).
Proof. rewrite seq_S, fmap_app. apply last_snoc. Qed.

Lemma zip_entries (keys values : list bytes) buf n :
  (n ≤ length keys)%nat → (n ≤ length values)%nat →
  foldM (λ buf i, match keys !! i, values !! i with
    | Some k, Some v => Ret (buf ++ k ++ v)
    | _, _ => Fault OutOfBounds
    end) buf (seq 0 n) = Ret (buf ++ concat (take n (zip_with app keys values))).
Proof.
  induction n as [|n IH]; intros Hn Hn'; [by rewrite take_0, app_nil_r|].
  rewrite seq_S, foldM_app, IH by lia. cbn [mbind outcome_bind foldM].
  destruct (lookup_lt_is_Some_2 keys n) as [k Hk]; [lia|].
  destruct (lookup_lt_is_Some_2 values n) as [v Hv]; [lia|].
  rewrite Nat.add_0_l, Hk, Hv. cbn [mbind outcome_bind foldM].
  rewrite (take_S_r _ n (k ++ v)), concat_snoc by (by rewrite lookup_zip_with, Hk; simpl; rewrite Hv).
  by rewrite <-app_assoc.
Qed.

(** ** Properties *)

(** C34: [FromOnBoardBlocks] on the blocks of a gear table of [n] entries counts
    every block and every entry and leaves the entry count of the last block in
    [*last].  The slices it makes restart at the first block for every block,
    and are not the entries: slice [j] of the keys is key [j - 1] of the first
    block, slice 0 begins where the block ends, and the slices of the values
    begin 64 bytes early, in the header. *)
Theorem from_board_views (P : Platform) {F} (t : Table view F) keys values blocks last :
  entries_ok keys values → table_blocks keys values blocks →
  1 ≤ zlen keys < 2 ^ 31 →
  let data := concat blocks in
  let per_block f := concat ((λ j,
    views_of f (zlen (take 312 (drop (312 * j) keys)))) <$> seq 0 (length blocks)) in
  FromOnBoardBlocks t data last =
    Ret (mkTable (key_list t ++ per_block board_key) (value_list t ++ per_block board_value)
           (target_fd t) (file_name t) (zlen blocks),
         zlen (take 312 (drop (312 * (length blocks - 1)) keys)), zlen keys) ∧
  (∀ j k, (j < 311)%nat → keys !! j = Some k →
     view_bytes data (board_key (Z.of_nat j + 1)) = Ret k) ∧
  v_off (board_key 0) = 8192 ∧
  (∀ j, 0 ≤ j < 312 → v_off (board_value j) = v_off (value_at 0 j) - 64).
Proof.
  intros Hok Htb Hn. cbv zeta. pose proof (table_blocks_counts _ _ _ Hok Htb) as Hcounts.
  unfold block_counts in Hcounts.
  pose proof (proj1 Htb) as Hlen.
  pose proof (Nat.div_mod_eq (length keys + 311) 312).
  pose proof (Nat.mod_upper_bound (length keys + 311) 312 ltac:(lia)).
  assert (zlen blocks = Z.of_nat (length blocks) ∧ zlen keys = Z.of_nat (length keys)) as [Hz Hzk] by done.
  split; [|split; [|split]].
  - unfold FromOnBoardBlocks.
    pose proof (from_board_blocks blocks _ (S (length (concat blocks))) [] (mkTable (key_list t)
      (value_list t) (target_fd t) (file_name t) 0) last 0 Hcounts) as Hrun.
    rewrite app_nil_l in Hrun. change (zlen []) with 0 in Hrun.
    pose proof (zlen_concat_const _ _ (table_blocks_size _ _ _ Hok Htb)) as Hc.
    rewrite sum_chunks in Hrun. unfold zlen in Hc.
    rewrite Hrun; cbn [num_of_blocks]; [|lia..]. cbn [key_list value_list target_fd file_name].
    rewrite <-!list_fmap_compose, !Z.add_0_l. f_equal. f_equal; [f_equal|lia].
    replace (length blocks) with (S (length blocks - 1)) at 1 by lia.
    by rewrite last_fmap_seq.
  - intros j k Hj Hk.
    destruct (table_blocks_entry _ _ _ _ k (default [] (values !! j)) Hok Htb Hk) as [Hv _].
    { destruct (lookup_lt_is_Some_2 values j) as [v ->]; [|done].
      rewrite <-(ok_length _ _ Hok). by eapply lookup_lt_Some. }
    rewrite <-Hv. unfold board_key, key_at, KEY_CONTENT_LENGTH, KEY_SUFFIX_LENGTH.
    rewrite Nat.div_small, Nat.mod_small, u32_small by lia. f_equal. f_equal. lia.
  - done.
  - intros j Hj. unfold board_value, value_at, VALUE_LENGTH. simpl.
    rewrite u32_small by lia. lia.
Qed.

Lemma from_board_views_witness :
  let ks := [replicate 16 (z2b 1)] in let vs := [replicate 10 (z2b 3)] in
  let blocks := [gear_block_bytes 0 ks vs] in
  entries_ok ks vs ∧ table_blocks ks vs blocks ∧ 1 ≤ zlen ks < 2 ^ 31 ∧
  view_bytes (concat blocks) (board_key 1) = Ret (replicate 16 (z2b 1)).
Proof.
  cbv zeta.
  assert (entries_ok [replicate 16 (z2b 1)] [replicate 10 (z2b 3)]) as Hok
    by (split; [repeat constructor|repeat constructor|reflexivity]).
  assert (table_blocks [replicate 16 (z2b 1)] [replicate 10 (z2b 3)]
    [gear_block_bytes 0 [replicate 16 (z2b 1)] [replicate 10 (z2b 3)]]) as Htb.
  { split; [reflexivity|]. intros [|j] Hj; [reflexivity|]. simpl in Hj. lia. }
  assert (1 ≤ zlen [replicate 16 (z2b 1)] < 2 ^ 31) as Hn by (split; vm_compute; congruence).
  split; [exact Hok|]. split; [exact Htb|]. split; [exact Hn|].
  destruct (from_board_views LittleEndianHost (mkTable [] [] tt [] 0) _ _ _ 0 Hok Htb Hn)
    as (_ & Hk & _). apply (Hk 0%nat); [lia|reflexivity].
Defined.

(** [PlainTable::ToDiskFormat] appends each key followed by its value; with
    16-byte keys and 10-byte values entry [e] is the 26 bytes at [26 e].  With
    fewer values than keys it reads past the end of [value_list]. *)
Lemma plain_table_layout {F} (t : Table bytes F) buf :
  (length (key_list t) = length (value_list t) →
   PlainTable_ToDiskFormat t buf =
   Ret (buf ++ concat (zip_with app (key_list t) (value_list t)), 0)) ∧
  ((length (value_list t) < length (key_list t))%nat →
   PlainTable_ToDiskFormat t buf = Fault OutOfBounds) ∧
  (entries_ok (key_list t) (value_list t) → ∀ e k v,
     key_list t !! e = Some k → value_list t !! e = Some v →
     view_bytes (concat (zip_with app (key_list t) (value_list t)))
       (mkView (26 * Z.of_nat e) 26) = Ret (k ++ v)).
Proof.
  unfold PlainTable_ToDiskFormat. split; [|split].
  - intros Hl. rewrite zip_entries by lia. cbn [mbind outcome_bind].
    by rewrite take_ge by (rewrite length_zip_with; lia).
  - intros Hl. set (n := length (value_list t)) in *.
    replace (length (key_list t)) with (n + S (length (key_list t) - n - 1))%nat by lia.
    rewrite seq_app, foldM_app. cbn [seq foldM].
    rewrite zip_entries by lia. cbn [mbind outcome_bind foldM].
    rewrite (lookup_ge_None_2 (value_list t)) by lia. by destruct (key_list t !! _).
  - intros [Hk Hv Hl] e k v He Hve. apply view_bytes_concat.
    + apply Forall_lookup. intros i x (a & b & -> & Ha & Hb)%lookup_zip_with_Some.
      rewrite Forall_lookup in Hk, Hv. rewrite zlen_app, (Hk _ _ Ha), (Hv _ _ Hb). done.
    + by rewrite lookup_zip_with, He; simpl; rewrite Hve.
Qed.

(** [WriteToDisk] and [ReadFromDisk] over any system that behaves as
    documented.  A write at the end of the file appends what the system took
    and returns its count.  A read returns a string of exactly the length
    asked for: the bytes of the file the system delivered, then the
    indeterminate bytes of the buffer; the delivered bytes are as many as the
    result says, and start at the offset of the descriptor. *)
Theorem disk_transfer {F} `{PosixLaws F} {S} (t : Table S F) data buffer len t' n tr result r :
  (WriteToDisk t data = Ret (t', n) →
   fd_offset (target_fd t) = length (fd_content (target_fd t)) → zlen data < 2 ^ 31 →
   0 ≤ n ≤ zlen data ∧
   fd_content (target_fd t') = fd_content (target_fd t) ++ take (Z.to_nat n) data ∧
   fd_offset (target_fd t') = length (fd_content (target_fd t'))) ∧
  (ReadFromDisk t buffer len = Ret (tr, result, r) →
   zlen buffer = len → len < 2 ^ 64 →
   zlen result = len ∧ 0 ≤ r ≤ len ∧
   take (Z.to_nat r) result =
     take (Z.to_nat r) (drop (fd_offset (target_fd t)) (fd_content (target_fd t))) ∧
   drop (Z.to_nat r) result = drop (Z.to_nat r) buffer ∧
   fd_offset (target_fd tr) = (fd_offset (target_fd t) + Z.to_nat r)%nat).
Proof.
  split.
  - unfold WriteToDisk. destruct (sys_write _ _) as [fd [w|]] eqn:Hw; [|done].
    intros [= <- <-] Hoff Hlen. pose proof (write_count _ _ _ _ Hw).
    destruct (write_bytes _ _ _ _ Hw) as [Ho Hc]; [lia|].
    rewrite signed_32_small by lia. unfold Flush, with_fd. cbn [target_fd].
    destruct (fsync_kept (sys_fdatasync fd)) as [-> ->].
    destruct (fdatasync_kept fd) as [-> ->]. rewrite Ho, Hc, Hoff.
    rewrite take_ge, drop_ge, app_nil_r, length_app, length_take by lia.
    split; [done|]. split; [done|]. unfold zlen in *. lia.
  - unfold ReadFromDisk. destruct (sys_read _ _) as [fd [bs|]] eqn:Hr; [|done].
    intros [= <- <- <-] Hlen Hbound. destruct (read_bytes _ _ _ _ Hr) as (Hle & Hbs & Ho & _).
    pose proof (zlen_nonneg bs). rewrite u64_small by lia.
    replace (Z.to_nat (zlen bs)) with (length bs) by (unfold zlen; lia).
    rewrite take_app_length, drop_app_length, zlen_app, zlen_drop.
    split; [unfold zlen in *; lia|]. split; [lia|]. by split.
Qed.

Lemma disk_transfer_witness :
  let t : Table bytes MemFile := mkTable [] [] (mkMemFile O_RDONLY 0 [z2b 7; z2b 8]) [] 0 in
  zlen (replicate 3 NUL) = 3 ∧
  ∃ tr result r, ReadFromDisk (H:=MemPosix []) t (replicate 3 NUL) 3 = Ret (tr, result, r) ∧
    zlen result = 3 ∧ result = [z2b 7; z2b 8; NUL] ∧ r = 2.
Proof.
  cbv zeta. split; [reflexivity|].
  exists (mkTable [] [] (mkMemFile O_RDONLY 2 [z2b 7; z2b 8]) [] 0), [z2b 7; z2b 8; NUL], 2.
  split; [reflexivity|]. destruct (disk_transfer (H0:=MemPosix_laws []) (S:=bytes)
    (mkTable [] [] (mkMemFile O_RDONLY 0 [z2b 7; z2b 8]) [] 0) [] (replicate 3 NUL) 3
    (mkTable [] [] (mkMemFile O_RDONLY 0 []) [] 0) 0
    (mkTable [] [] (mkMemFile O_RDONLY 2 [z2b 7; z2b 8]) [] 0) [z2b 7; z2b 8; NUL] 2) as [_ Hr].
  destruct (Hr eq_refl) as (Hlen & _); [reflexivity|lia|].
  split; [exact Hlen|]. split; reflexivity.
Defined.

(** Of the tables [CreateFilePointerFromName] opens for a merge, those of
    the block-based format are opened for writing, because their constructor
    drops the [read] flag: every [ReadFromDisk] of one fails its assertion.
    The three other formats are opened for reading, and refuse writes. *)
Theorem merge_input_mode {F} `{PosixLaws F} {S} format fname (t : Table S F) :
  CreateFilePointerFromName format fname = Ret t →
  fd_offset (target_fd t) = 0%nat ∧
  (format = kBlockBased → fd_flags (target_fd t) = O_CREAT_WRONLY ∧
     ∀ buffer len, ReadFromDisk t buffer len = Fault AssertionFailed) ∧
  (format ≠ kBlockBased → fd_flags (target_fd t) = O_RDONLY ∧
     ∀ data, WriteToDisk t data = Fault AssertionFailed).
Proof.
  intros Ht.
  assert (∃ read : bool, read = negb (bool_decide (format = kBlockBased)) ∧
    Table_ctor fname read = Ret t) as (read & Hread & Hopen).
  { destruct format; eexists; split; reflexivity || exact Ht. }
  unfold Table_ctor in Hopen. destruct (sys_open _ _) as [fd|] eqn:Hfd; [|done].
  injection Hopen as <-. destruct (open_flags_kept _ _ _ Hfd) as [Hfl Hoff].
  cbn [target_fd]. split; [done|]. rewrite Hfl, Hread. split; intros Hf.
  - rewrite bool_decide_eq_true_2 by done. split; [done|]. intros buffer len.
    unfold ReadFromDisk. cbn [target_fd].
    pose proof (read_write_only fd len) as Hr. rewrite Hfl, Hread, bool_decide_eq_true_2 in Hr by done.
    destruct (sys_read _ _) as [? ?]. simpl in Hr. by rewrite Hr.
  - rewrite bool_decide_eq_false_2 by done. split; [done|]. intros data.
    unfold WriteToDisk. cbn [target_fd].
    pose proof (write_read_only fd data) as Hr. rewrite Hfl, Hread, bool_decide_eq_false_2 in Hr by done.
    destruct (sys_write _ _) as [? ?]. simpl in Hr. by rewrite Hr.
Qed.

Lemma merge_input_mode_witness :
  ∃ t : Table bytes MemFile,
    CreateFilePointerFromName (H0:=MemPosix []) kBlockBased [] = Ret t ∧
    ReadFromDisk (H:=MemPosix []) t [] 0 = Fault AssertionFailed.
Proof.
  eexists. split; [reflexivity|].
  destruct (merge_input_mode (H0:=MemPosix_laws []) (S:=bytes) kBlockBased []
    (mkTable [] [] (mkMemFile O_CREAT_WRONLY 0 []) [] 0) eq_refl) as (_ & Hb & _).
  destruct (Hb eq_refl) as [_ Hr]. apply Hr.
Defined.
