(* ===== verification/PriorityQueue.v ===== *)
(** * std::priority_queue, as the mergers use it

    The mergers keep their entries in a [std::priority_queue] over a
    [std::vector].  The queue is the binary heap of the C++ library: [emplace]
    appends and sifts up ([push_heap]), [pop] moves the last element into the
    hole the top leaves and sifts it down, then up ([pop_heap]), and
    [pop_back]s.  The comparator is only ever asked "[comp(a, b)]?".

    Two results hold for every comparator, also one that is no order: draining
    the queue gives back exactly the elements that went in, and takes as many
    pops.  With a comparator that says yes to any two different elements, as
    the mergers' do, the top is the element pushed last. *)
From S2P Require Import Prelude.

Section heap.
Context {A : Type} (comp : A → A → bool).

(** [__push_heap] with [topIndex] 0: the hole moves up while the parent is less
    than [value].  The hole index at least halves, so it bounds the steps. *)
Fixpoint push_hole (fuel : nat) (v : list A) (hole : nat) (value : A) : list A :=
  match fuel, hole with
  | S fuel, S _ =>
      let parent := ((hole - 1) / 2)%nat in
      match v !! parent with
      | Some p =>
          if comp p value then push_hole fuel (<[hole := p]> v) parent value
          else <[hole := value]> v
      | None => <[hole := value]> v
      end
  | _, _ => <[hole := value]> v
  end.

(** [emplace]: [push_back] and [push_heap]. *)
Definition pq_push (v : list A) (x : A) : list A :=
  push_hole (length v) (v ++ [x]) (length v) x.

(** The descent of [__adjust_heap] over the first [len] elements: the hole
    takes the greater child until it has none.  A hole with only a left child
    is possible at the end of a heap of even length. *)
Fixpoint sift_down (fuel : nat) (v : list A) (hole len : nat) : list A * nat :=
  match fuel with
  | O => (v, hole)
  | S fuel =>
      if (hole <? (len - 1) / 2)%nat then
        let second := (2 * (hole + 1))%nat in
        match v !! second, v !! (second - 1)%nat with
        | Some r, Some l =>
            if comp r l then sift_down fuel (<[hole := l]> v) (second - 1) len
            else sift_down fuel (<[hole := r]> v) second len
        | _, _ => (v, hole)
        end
      else if Nat.even len && (hole =? (len - 2) / 2)%nat then
        let second := (2 * (hole + 1))%nat in
        match v !! (second - 1)%nat with
        | Some l => (<[hole := l]> v, (second - 1)%nat)
        | None => (v, hole)
        end
      else (v, hole)
  end.

(** [pop]: [pop_heap] and [pop_back]; popping an empty queue is an error. *)
Definition pq_pop (v : list A) : outcome (list A) :=
  match v, last v with
  | top :: _, Some value =>
      let len := (length v - 1)%nat in
      if (len =? 0)%nat then Ret []
      else
        let '(v, hole) := sift_down len (take len v) 0 len in
        Ret (push_hole hole v hole value)
  | _, _ => Fault EmptyVector
  end.

Definition pq_top (v : list A) : outcome A :=
  match v with x :: _ => Ret x | [] => Fault EmptyVector end.

(** The elements in the order they are popped; [fuel] bounds the pops. *)
Fixpoint pq_drain (fuel : nat) (v : list A) : outcome (list A) :=
  match fuel, v with
  | _, [] => Ret []
  | O, _ => Ret []
  | S fuel, _ =>
      x ← pq_top v;
      v ← pq_pop v;
      xs ← pq_drain fuel v;
      Ret (x :: xs)
  end.

Definition pq_push_all (v : list A) (xs : list A) : list A := foldl pq_push v xs.

(** ** Nothing is lost, whatever the comparator *)

Lemma insert_perm (v : list A) i x :
  (i < length v)%nat → <[i := x]> v ≡ₚ x :: delete i v.
Proof.
  intros Hi. rewrite insert_take_drop, delete_take_drop by done.
  by rewrite Permutation_middle.
Qed.

(** Moving an element into the hole moves the hole. *)
Lemma insert_swap_perm (v : list A) i j x y :
  v !! j = Some y → i ≠ j → (i < length v)%nat →
  <[j := x]> (<[i := y]> v) ≡ₚ <[i := x]> v.
Proof.
  intros Hj Hij Hi. pose proof (lookup_lt_Some _ _ _ Hj).
  rewrite (insert_perm _ j x), (insert_perm v i x) by (rewrite ?length_insert; lia).
  constructor. apply (Permutation_cons_inv (a:=y)).
  rewrite <-(insert_perm v i y) by lia. symmetry. apply delete_Permutation.
  by rewrite list_lookup_insert_ne.
Qed.

Lemma push_hole_perm fuel v hole value :
  (hole < length v)%nat → push_hole fuel v hole value ≡ₚ <[hole := value]> v.
Proof.
  revert v hole. induction fuel as [|fuel IH]; intros v hole Hh; [done|].
  destruct hole as [|hole]; [done|]. cbn [push_hole].
  set (parent := ((S hole - 1) / 2)%nat).
  assert (parent < S hole)%nat as Hp by (apply Nat.Div0.div_lt_upper_bound; lia).
  destruct (v !! parent) as [p|] eqn:Hlp; [|done].
  destruct (comp p value); [|done].
  rewrite IH by (rewrite length_insert; lia). apply insert_swap_perm; [done|lia|done].
Qed.

Lemma length_push_hole fuel v hole value :
  length (push_hole fuel v hole value) = length v.
Proof.
  revert v hole. induction fuel as [|fuel IH]; intros v hole; destruct hole as [|hole];
    cbn [push_hole]; rewrite ?length_insert; try done.
  case_match; [case_match|]; by rewrite ?IH, ?length_insert.
Qed.

Lemma pq_push_perm v x : pq_push v x ≡ₚ x :: v.
Proof.
  unfold pq_push. rewrite push_hole_perm by (rewrite length_app; simpl; lia).
  rewrite insert_perm by (rewrite length_app; simpl; lia).
  by rewrite delete_take_drop, take_app_length, drop_ge, app_nil_r
    by (rewrite length_app; simpl; lia).
Qed.

Lemma sift_down_perm fuel v hole len v' hole' value :
  sift_down fuel v hole len = (v', hole') → (hole < len)%nat → length v = len →
  length v' = len ∧ (hole' < len)%nat ∧ <[hole' := value]> v' ≡ₚ <[hole := value]> v.
Proof.
  revert v hole. induction fuel as [|fuel IH]; intros v hole Hs Hh Hlen; cbn [sift_down] in Hs.
  { by injection Hs as <- <-. }
  assert (∀ i y, v !! i = Some y → (hole < i)%nat → (i < len)%nat ∧ length (<[hole := y]> v) = len ∧
    <[i := value]> (<[hole := y]> v) ≡ₚ <[hole := value]> v) as Hmove.
  { intros i y Hi Hhi. rewrite length_insert. pose proof (lookup_lt_Some _ _ _ Hi).
    split; [lia|]. split; [done|]. apply insert_swap_perm; [done|lia|lia]. }
  destruct (hole <? (len - 1) / 2)%nat.
  - destruct (v !! (2 * (hole + 1))%nat) as [r|] eqn:Hr; [|by injection Hs as <- <-].
    destruct (v !! (2 * (hole + 1) - 1)%nat) as [l|] eqn:Hl; [|by injection Hs as <- <-].
    destruct (comp r l).
    + destruct (Hmove _ _ Hl ltac:(lia)) as (H1 & H2 & H3).
      destruct (IH _ _ Hs H1 H2) as (? & ? & Hp). by rewrite Hp.
    + destruct (Hmove _ _ Hr ltac:(lia)) as (H1 & H2 & H3).
      destruct (IH _ _ Hs H1 H2) as (? & ? & Hp). by rewrite Hp.
  - destruct (Nat.even len && _)%bool; [|by injection Hs as <- <-].
    destruct (v !! (2 * (hole + 1) - 1)%nat) as [l|] eqn:Hl; [|by injection Hs as <- <-].
    injection Hs as <- <-. destruct (Hmove _ _ Hl ltac:(lia)) as (H1 & H2 & H3). done.
Qed.

(** A pop of a queue that is not empty returns the queue without its top. *)
Lemma pq_pop_perm top v : ∃ v', pq_pop (top :: v) = Ret v' ∧ v' ≡ₚ v.
Proof.
  unfold pq_pop. destruct (last (top :: v)) as [value|] eqn:Hlast.
  2:{ apply last_None in Hlast. done. }
  apply last_Some in Hlast as [w Hw]. rewrite Hw.
  assert (length (w ++ [value]) - 1 = length w)%nat as -> by (rewrite length_app; simpl; lia).
  destruct w as [|x w]; [injection Hw as -> ->; by exists []|].
  injection Hw as -> ->. cbn [length]. rewrite (proj2 (Nat.eqb_neq _ _)) by lia.
  change (S (length w)) with (length (x :: w)). rewrite take_app_length.
  destruct (sift_down _ _ _ _) as [v' hole] eqn:Hs.
  destruct (sift_down_perm _ _ _ _ _ _ value Hs) as (Hl & Hh & Hp); [simpl; lia|done|].
  eexists. split; [done|]. rewrite push_hole_perm, Hp by lia. simpl.
  by rewrite Permutation_cons_append.
Qed.

Lemma pq_drain_perm fuel v :
  (length v ≤ fuel)%nat → ∃ xs, pq_drain fuel v = Ret xs ∧ xs ≡ₚ v.
Proof.
  revert v. induction fuel as [|fuel IH]; intros [|x v] Hl; try (by exists []); [simpl in Hl; lia|].
  cbn [pq_drain pq_top mbind outcome_bind].
  destruct (pq_pop_perm x v) as (v' & -> & Hv'). cbn [mbind outcome_bind].
  destruct (IH v') as (xs & -> & Hxs); [rewrite (Permutation_length Hv'); simpl in Hl; lia|].
  exists (x :: xs). split; [done|]. by rewrite Hxs, Hv'.
Qed.

Lemma pq_push_all_perm v xs : pq_push_all v xs ≡ₚ xs ++ v.
Proof.
  unfold pq_push_all. revert v. induction xs as [|x xs IH]; intros v; [done|]. simpl.
  by rewrite IH, pq_push_perm, Permutation_middle.
Qed.

(** ** A comparator that says yes to any two different elements *)

(** The element pushed climbs to the top past elements it differs from. *)
Lemma push_hole_top fuel v hole value :
  (hole ≤ fuel)%nat → (hole < length v)%nat →
  (∀ i p, (i < hole)%nat → v !! i = Some p → comp p value = true) →
  push_hole fuel v hole value !! 0%nat = Some value.
Proof.
  revert v hole. induction fuel as [|fuel IH]; intros v [|hole] Hf Hh Hall;
    cbn [push_hole]; rewrite ?list_lookup_insert_eq by lia; try done; [lia|].
  set (parent := ((S hole - 1) / 2)%nat).
  assert (parent < S hole)%nat as Hp by (apply Nat.Div0.div_lt_upper_bound; lia).
  destruct (lookup_lt_is_Some_2 v parent) as [p Hlp]; [lia|]. rewrite Hlp.
  rewrite (Hall _ _ Hp Hlp). apply IH; [lia|rewrite length_insert; lia|].
  intros i q Hi Hq. rewrite list_lookup_insert_ne in Hq by lia. apply (Hall i); [lia|done].
Qed.

Lemma pq_top_lookup (v : list A) x : v !! 0%nat = Some x → pq_top v = Ret x.
Proof. destruct v; intros H; [discriminate H|]. by injection H as ->. Qed.

Lemma pq_push_top v x :
  Forall (λ p, comp p x = true) v → pq_top (pq_push v x) = Ret x.
Proof.
  intros Hall. apply pq_top_lookup, push_hole_top; [done|rewrite length_app; simpl; lia|].
  intros i p Hi Hp. rewrite lookup_app_l in Hp by lia. rewrite Forall_lookup in Hall.
  by apply (Hall i).
Qed.
End heap.
