(* ===== verification/QueueOrder.v ===== *)
(** * The order in which the queue gives its elements back

    Three answers for the heap of PriorityQueue, by what the comparator says:
    under a strict weak order the elements come out greatest first; a queue of
    images of elements under [f] behaves as the queue of the elements; and under
    a comparator that says yes to any two different elements, as the mergers'
    do, they come out in an order that depends on their number only
    ([queue_order]). *)
From S2P Require Import Prelude PriorityQueue.

(** The index of the parent of a node of the heap. *)
Abbreviation parent i := ((i - 1) / 2)%nat.

Lemma parent_lt i : (0 < i)%nat → (parent i < i)%nat.
Proof. intros. apply Nat.Div0.div_lt_upper_bound. lia. Qed.

Lemma parent_children i j :
  (0 < i)%nat → parent i = j ↔ i = (2 * (j + 1) - 1)%nat ∨ i = (2 * (j + 1))%nat.
Proof.
  intros Hi. pose proof (Nat.div_mod_eq (i - 1) 2). pose proof (Nat.mod_upper_bound (i - 1) 2 ltac:(lia)).
  lia.
Qed.

Lemma parent_left j : parent (2 * (j + 1) - 1) = j.
Proof. apply parent_children; lia. Qed.
Lemma parent_right j : parent (2 * (j + 1)) = j.
Proof. apply parent_children; lia. Qed.

(** ** Under a strict weak order *)

(** The comparator of a [std::priority_queue] as the standard asks for it: a
    "less" that is asymmetric and whose negation is transitive. *)
Class StrictWeakOrder {A} (comp : A → A → bool) : Prop := {
  swo_asymm x y : comp x y = true → comp y x = false;
  swo_trans x y z : comp x y = false → comp y z = false → comp x z = false;
}.

Section order.
Context {A : Type} (comp : A → A → bool) `{!StrictWeakOrder comp}.

(** No element is less than one of its children. *)
Definition heap_ordered (v : list A) : Prop :=
  ∀ i x p, (0 < i)%nat → v !! i = Some x → v !! parent i = Some p → comp p x = false.

(** The heap with a hole at [hole]: what is there does not matter. *)
Record hole_ordered (v : list A) (hole : nat) : Prop := {
  ho_edges i x p : (0 < i)%nat → i ≠ hole → parent i ≠ hole →
    v !! i = Some x → v !! parent i = Some p → comp p x = false;
  ho_grand i x g : (0 < i)%nat → (0 < hole)%nat → parent i = hole →
    v !! i = Some x → v !! parent hole = Some g → comp g x = false;
}.
(** The children of the hole are not greater than [value]. *)
Definition covers (value : A) (v : list A) (hole : nat) : Prop :=
  ∀ i x, (0 < i)%nat → parent i = hole → v !! i = Some x → comp value x = false.

Lemma swo_irrefl x : comp x x = false.
Proof. destruct (comp x x) eqn:H; [|done]. by rewrite (swo_asymm _ _ H) in H. Qed.

Lemma heap_hole v i : heap_ordered v → hole_ordered v i.
Proof.
  intros Hv. split; [by intros; eapply Hv|]. intros j x g Hj Hi Hp Hx Hg.
  assert (parent j < length v)%nat as [y Hy]%lookup_lt_is_Some.
  { pose proof (lookup_lt_Some _ _ _ Hx). pose proof (parent_lt j Hj). lia. }
  apply swo_trans with y; [|by apply (Hv j)]. rewrite Hp in Hy. by apply (Hv i).
Qed.

(** Filling a hole with a value between its parent and its children. *)
Lemma fill_hole v hole value :
  hole_ordered v hole → covers value v hole → (hole < length v)%nat →
  ((0 < hole)%nat → ∀ p, v !! parent hole = Some p → comp p value = false) →
  heap_ordered (<[hole := value]> v).
Proof.
  intros Hv Hc Hh Hp i x p Hi. pose proof (parent_lt i Hi).
  destruct (decide (i = hole)) as [->|].
  - rewrite list_lookup_insert_eq, list_lookup_insert_ne by lia. intros [= <-]. eauto.
  - rewrite (list_lookup_insert_ne _ _ i) by done. intros Hx.
    destruct (decide (parent i = hole)) as [He|].
    + rewrite He, list_lookup_insert_eq by lia. intros [= <-]. by eapply Hc.
    + rewrite list_lookup_insert_ne by done. by eapply ho_edges.
Qed.

(** Moving the parent down into the hole. *)
Lemma hole_up v hole value p :
  hole_ordered v hole → covers value v hole → (0 < hole < length v)%nat →
  v !! parent hole = Some p → comp p value = true →
  hole_ordered (<[hole := p]> v) (parent hole) ∧ covers value (<[hole := p]> v) (parent hole).
Proof.
  intros Hv Hc Hh Hp Hlt. pose proof (parent_lt hole ltac:(lia)) as Hph.
  assert (∀ i x, (0 < i)%nat → parent i = parent hole → <[hole := p]> v !! i = Some x → comp p x = false)
    as Hsib.
  { intros i x Hi He. destruct (decide (i = hole)) as [->|].
    - rewrite list_lookup_insert_eq by lia. intros [= <-]. apply swo_irrefl.
    - rewrite list_lookup_insert_ne by done. intros Hx.
      eapply (ho_edges _ _ Hv i); eauto; [lia|]. by rewrite He. }
  split; [split|].
  - intros i x q Hi Hne1 Hne2. pose proof (parent_lt i Hi). destruct (decide (i = hole)) as [->|]; [done|].
    rewrite (list_lookup_insert_ne _ _ i) by done. intros Hx. destruct (decide (parent i = hole)) as [He|].
    + rewrite He, list_lookup_insert_eq by lia. intros [= <-]. eapply (ho_grand _ _ Hv i); eauto. lia.
    + rewrite list_lookup_insert_ne by done. by eapply ho_edges.
  - intros i x g Hi Hh0 He Hx. pose proof (parent_lt _ Hh0).
    rewrite list_lookup_insert_ne by lia. intros Hg. apply swo_trans with p; [|by apply (Hsib i)].
    eapply (ho_edges _ _ Hv (parent hole)); eauto; lia.
  - intros i x Hi He Hx. apply swo_trans with p; [by apply swo_asymm|by apply (Hsib i)].
Qed.

Lemma push_hole_ordered fuel v hole value :
  hole_ordered v hole → covers value v hole → (hole < length v)%nat → (hole ≤ fuel)%nat →
  heap_ordered (push_hole comp fuel v hole value).
Proof.
  revert v hole. induction fuel as [|fuel IH]; intros v [|hole] Hv Hc Hh Hf; cbn [push_hole];
    try (apply fill_hole; [done..|lia]).
  pose proof (parent_lt (S hole) ltac:(lia)) as Hlt.
  destruct (lookup_lt_is_Some_2 v (parent (S hole))) as [p Hp]; [lia|]. rewrite Hp.
  destruct (comp p value) eqn:Hcomp.
  - destruct (hole_up v (S hole) value p) as [? ?]; [done..|lia|done|done|].
    apply IH; [done..|rewrite length_insert; lia|lia].
  - apply fill_hole; [done..|]. intros _ q Hq. congruence.
Qed.

Lemma pq_push_ordered v x : heap_ordered v → heap_ordered (pq_push comp v x).
Proof.
  intros Hv. apply push_hole_ordered; [| |rewrite length_app; simpl; lia|lia].
  - split.
    + intros i y p Hi Hne _ Hy Hp. pose proof (lookup_lt_Some _ _ _ Hy) as Hl.
      rewrite length_app in Hl. simpl in Hl. pose proof (parent_lt i Hi).
      rewrite lookup_app_l in Hy, Hp by lia. by eapply Hv.
    + intros i y g Hi _ He Hy _. apply lookup_lt_Some in Hy. rewrite length_app in Hy. simpl in Hy.
      pose proof (parent_lt i Hi). lia.
  - intros i y Hi He Hy. apply lookup_lt_Some in Hy. rewrite length_app in Hy. simpl in Hy.
    pose proof (parent_lt i Hi). lia.
Qed.

Lemma pq_push_all_ordered v xs : heap_ordered v → heap_ordered (pq_push_all comp v xs).
Proof.
  unfold pq_push_all. revert v. induction xs as [|x xs IH]; intros v Hv; [done|].
  by apply IH, pq_push_ordered.
Qed.

(** Moving a child that is not less than its sibling up into the hole. *)
Lemma hole_down v hole c y :
  hole_ordered v hole → (0 < c)%nat → parent c = hole → v !! c = Some y →
  (∀ i x, (0 < i)%nat → parent i = hole → v !! i = Some x → comp y x = false) →
  hole_ordered (<[hole := y]> v) c.
Proof.
  intros Hv Hc0 Hc Hy Hsib. pose proof (parent_lt c Hc0). pose proof (lookup_lt_Some _ _ _ Hy). split.
  - intros i x p Hi Hne1 Hne2. pose proof (parent_lt i Hi). destruct (decide (i = hole)) as [->|].
    + rewrite list_lookup_insert_eq, list_lookup_insert_ne by lia. intros [= <-] Hp.
      by eapply (ho_grand _ _ Hv c).
    + rewrite (list_lookup_insert_ne _ _ i) by done. intros Hx. destruct (decide (parent i = hole)) as [He|].
      * rewrite He, list_lookup_insert_eq by lia. intros [= <-]. by eapply Hsib.
      * rewrite list_lookup_insert_ne by done. by eapply ho_edges.
  - intros i x g Hi _ He. pose proof (parent_lt i Hi). rewrite Hc, list_lookup_insert_eq by lia.
    rewrite list_lookup_insert_ne by lia. intros Hx [= <-].
    eapply (ho_edges _ _ Hv i); eauto; [lia|lia|by rewrite He].
Qed.

Lemma sift_down_ordered fuel v hole len v' hole' :
  sift_down comp fuel v hole len = (v', hole') → length v = len → (hole < len)%nat →
  (len ≤ hole + fuel)%nat → hole_ordered v hole →
  hole_ordered v' hole' ∧ ∀ value, covers value v' hole'.
Proof.
  revert v hole. induction fuel as [|fuel IH]; intros v hole Hs Hl Hh Hf Hv; [lia|].
  cbn [sift_down] in Hs.
  assert (∀ i x, (0 < i)%nat → parent i = hole → v !! i = Some x →
    i = (2 * (hole + 1) - 1)%nat ∨ i = (2 * (hole + 1))%nat) as Hchild.
  { intros i x Hi He _. by apply parent_children. }
  destruct (Nat.ltb_spec hole ((len - 1) / 2)) as [Hin|Hout].
  - pose proof (Nat.div_mod_eq (len - 1) 2).
    destruct (lookup_lt_is_Some_2 v (2 * (hole + 1))) as [r Hr]; [lia|].
    destruct (lookup_lt_is_Some_2 v (2 * (hole + 1) - 1)) as [l Hlk]; [lia|].
    rewrite Hr, Hlk in Hs. pose proof (parent_left hole). pose proof (parent_right hole).
    destruct (comp r l) eqn:Hcomp; (eapply IH; [exact Hs|rewrite ?length_insert; lia|lia|lia|]);
      (eapply hole_down; eauto; [lia|]); intros i x Hi He Hx;
      destruct (Hchild i x Hi He Hx) as [-> | ->]; simplify_eq;
      first [done | apply swo_irrefl | by apply swo_asymm].
  - pose proof (Nat.div_mod_eq (len - 1) 2). pose proof (Nat.mod_upper_bound (len - 1) 2 ltac:(lia)).
    destruct (Nat.even len) eqn:Heven; cbn [andb] in Hs; [destruct (Nat.eqb_spec hole ((len - 2) / 2)) as [He|Hne]|].
    + apply Nat.even_spec in Heven as [k Hk]. subst len.
      assert (hole = k - 1)%nat as ->.
      { rewrite He. symmetry. apply Nat.div_unique with 0%nat; lia. }
      destruct (lookup_lt_is_Some_2 v (2 * (k - 1 + 1) - 1)) as [l Hlk]; [lia|].
      rewrite Hlk in Hs. injection Hs as <- <-. pose proof (parent_left (k - 1)). split.
      * eapply hole_down; eauto; [lia|]. intros i x Hi He' Hx. pose proof (lookup_lt_Some _ _ _ Hx).
        destruct (Hchild i x Hi He' Hx) as [-> | ->]; [|lia]. simplify_eq. apply swo_irrefl.
      * intros value i x Hi He' Hx%lookup_lt_Some. rewrite length_insert in Hx.
        apply parent_children in He'; lia.
    + injection Hs as <- <-. split; [done|]. intros value i x Hi He' Hx.
      pose proof (lookup_lt_Some _ _ _ Hx). apply Nat.even_spec in Heven as [k Hk].
      assert ((len - 2) / 2 = k - 1)%nat by (symmetry; apply Nat.div_unique with 0%nat; lia).
      destruct (Hchild i x Hi He' Hx); lia.
    + injection Hs as <- <-. split; [done|]. intros value i x Hi He' Hx.
      pose proof (lookup_lt_Some _ _ _ Hx).
      assert (Nat.odd len = true) as [k Hk]%Nat.odd_spec by (unfold Nat.odd; by rewrite Heven).
      destruct (Hchild i x Hi He' Hx); lia.
Qed.

(** The top is not less than any element. *)
Lemma heap_top top v : heap_ordered (top :: v) → Forall (λ x, comp top x = false) (top :: v).
Proof.
  intros Hv. apply Forall_lookup. intros i. induction i as [i IH] using lt_wf_ind. intros x Hx.
  destruct i as [|i]; [injection Hx as <-; apply swo_irrefl|].
  pose proof (parent_lt (S i) ltac:(lia)). pose proof (lookup_lt_Some _ _ _ Hx).
  destruct (lookup_lt_is_Some_2 (top :: v) (parent (S i))) as [p Hp]; [lia|].
  apply swo_trans with p; [by apply (IH (parent (S i)))|]. apply (Hv (S i)); [lia|done..].
Qed.

Lemma heap_take n v : heap_ordered v → heap_ordered (take n v).
Proof.
  intros Hv i x p Hi [Hx _]%lookup_take_Some [Hp _]%lookup_take_Some. by eapply Hv.
Qed.

Lemma pq_pop_ordered v v' : heap_ordered v → pq_pop comp v = Ret v' → heap_ordered v'.
Proof.
  intros Hv. unfold pq_pop. destruct v as [|top v]; [done|].
  destruct (last (top :: v)) as [value|] eqn:Hlast; [|done].
  destruct (Nat.eqb_spec (length (top :: v) - 1) 0); [by intros [= <-]|].
  set (len := (length (top :: v) - 1)%nat) in *.
  destruct (sift_down comp len (take len (top :: v)) 0 len) as [w hole] eqn:Hs. intros [= <-].
  assert (length (take len (top :: v)) = len) as Hlen by (rewrite length_take; lia).
  destruct (sift_down_perm comp _ _ _ _ _ _ value Hs) as (Hl & Hh & _); [lia|done|].
  destruct (sift_down_ordered _ _ _ _ _ _ Hs) as (Hw & Hc); [done|lia|lia|by apply heap_hole, heap_take|].
  by apply push_hole_ordered; [..|lia|].
Qed.

(** Draining a heap gives its elements in descending order. *)
Lemma pq_drain_sorted v :
  heap_ordered v →
  ∃ xs, pq_drain comp (length v) v = Ret xs ∧ xs ≡ₚ v ∧ StronglySorted (λ x y, comp x y = false) xs.
Proof.
  intros Hv. remember (length v) as n eqn:Hn. revert v Hn Hv.
  induction n as [|n IH]; intros [|top v] Hn Hv; try discriminate Hn.
  { exists []. by repeat constructor. }
  cbn [pq_drain pq_top mbind outcome_bind].
  destruct (pq_pop_perm comp top v) as (v' & Hpop & Hperm). rewrite Hpop. cbn [mbind outcome_bind].
  destruct (IH v') as (xs & -> & Hxs & Hsorted).
  { rewrite Hperm. by injection Hn. }
  { by eapply pq_pop_ordered. }
  exists (top :: xs). split; [done|]. split; [by rewrite Hxs, Hperm|]. constructor; [done|].
  rewrite Hxs, Hperm. apply heap_top in Hv. by inversion Hv.
Qed.
End order.

(** A sorted list of elements that [g] tells apart is strictly sorted. *)
Lemma StronglySorted_strict {A B} (R R' : A → A → Prop) (g : A → B) (P : A → Prop) l :
  (∀ x y, P x → P y → g x ≠ g y → R x y → R' x y) →
  Forall P l → NoDup (g <$> l) → StronglySorted R l → StronglySorted R' l.
Proof.
  intros HR HP Hnd Hs. induction Hs as [|x l _ IH Hx]; [constructor|].
  inversion HP as [|?? Px Pl]; subst. inversion Hnd as [|?? Hin Hnd']; subst.
  constructor; [by apply IH|]. rewrite Forall_forall in Hx, Pl |- *. intros y Hy.
  apply HR; [done|by apply Pl| |by apply Hx]. intros He. apply Hin. rewrite He. by apply list_elem_of_fmap_2.
Qed.

(** ** Queues of images *)

(** [comp] answers for images as [comp'] does for the elements. *)
Section images.
Context {A B : Type} (comp : A → A → bool) (comp' : B → B → bool) (f : B → A) (P : B → Prop).
Hypothesis Hcomp : ∀ x y, P x → P y → comp (f x) (f y) = comp' x y.

Lemma push_hole_fmap fuel v hole value :
  Forall P v → P value →
  push_hole comp fuel (f <$> v) hole (f value) = f <$> push_hole comp' fuel v hole value.
Proof.
  revert v hole. induction fuel as [|fuel IH]; intros v [|hole] Hv Hx; cbn [push_hole];
    rewrite ?list_fmap_insert; try done.
  rewrite list_lookup_fmap. destruct (v !! parent (S hole)) as [p|] eqn:Hp; cbn [fmap option_fmap option_map];
    [|by rewrite list_fmap_insert].
  assert (P p) as HPp by (by eapply Forall_lookup_1). rewrite Hcomp by done.
  destruct (comp' p value); [|by rewrite list_fmap_insert].
  rewrite <-list_fmap_insert. apply IH; [by apply Forall_insert|done].
Qed.

Lemma pq_push_fmap v x :
  Forall P v → P x → pq_push comp (f <$> v) (f x) = f <$> pq_push comp' v x.
Proof.
  intros Hv Hx. unfold pq_push. rewrite length_fmap, <-push_hole_fmap, fmap_app; [done| |done].
  by apply Forall_app_2; [|constructor].
Qed.

Lemma pq_push_all_fmap v xs :
  Forall P v → Forall P xs → pq_push_all comp (f <$> v) (f <$> xs) = f <$> pq_push_all comp' v xs.
Proof.
  unfold pq_push_all. intros Hv Hxs. revert v Hv. induction Hxs as [|x xs Hx _ IH]; intros v Hv; [done|].
  cbn [fmap list_fmap foldl]. rewrite pq_push_fmap by done. apply IH. rewrite pq_push_perm. by constructor.
Qed.

Lemma sift_down_fmap fuel v hole len :
  Forall P v →
  sift_down comp fuel (f <$> v) hole len = prod_map (fmap (M:=list) f) id (sift_down comp' fuel v hole len).
Proof.
  revert v hole. induction fuel as [|fuel IH]; intros v hole Hv; [done|]. cbn [sift_down].
  rewrite !list_lookup_fmap.
  destruct (hole <? (len - 1) / 2)%nat.
  - destruct (v !! (2 * (hole + 1))%nat) as [r|] eqn:Hr; [|done].
    destruct (v !! (2 * (hole + 1) - 1)%nat) as [l|] eqn:Hl; [|done]. cbn [fmap option_fmap option_map].
    assert (P r ∧ P l) as [HPr HPl] by (split; by eapply Forall_lookup_1).
    rewrite Hcomp, <-!list_fmap_insert by done.
    destruct (comp' r l); apply IH; by apply Forall_insert.
  - destruct (Nat.even len && _)%bool; [|done].
    destruct (v !! (2 * (hole + 1) - 1)%nat); [|done]. cbn. by rewrite list_fmap_insert.
Qed.

Lemma sift_down_Forall fuel v hole len :
  Forall P v → Forall P (sift_down comp' fuel v hole len).1.
Proof.
  revert v hole. induction fuel as [|fuel IH]; intros v hole Hv; [done|]. cbn [sift_down].
  repeat case_match; try done; simplify_eq; try apply IH; apply Forall_insert; try done;
    by eapply Forall_lookup_1.
Qed.

Lemma pq_pop_fmap v : Forall P v → pq_pop comp (f <$> v) = fmap (M:=list) f <$> pq_pop comp' v.
Proof.
  intros Hv. destruct v as [|top v]; [done|]. unfold pq_pop.
  change (f <$> top :: v) with (f top :: (f <$> v)) at 1. cbv beta iota.
  change (last (f top :: (f <$> v))) with (last (f <$> top :: v)).
  rewrite fmap_last, length_fmap.
  destruct (last (top :: v)) as [value|] eqn:Hlast; [|done]. cbn [fmap option_fmap option_map].
  destruct (_ =? 0)%nat; [done|].
  rewrite <-fmap_take. set (n := (length (top :: v) - 1)%nat).
  assert (Forall P (take n (top :: v))) as Ht by (by apply Forall_take).
  rewrite sift_down_fmap by done. pose proof (sift_down_Forall n _ 0 n Ht) as Hw.
  destruct (sift_down comp' n _ 0 n) as [w hole]. cbn in Hw |- *. rewrite push_hole_fmap; [done..|].
  apply last_Some in Hlast as [w' Hw']. rewrite Hw' in Hv. apply Forall_app in Hv as [_ Hv]. by inversion Hv.
Qed.

Lemma pq_drain_fmap fuel v :
  Forall P v → pq_drain comp fuel (f <$> v) = fmap (M:=list) f <$> pq_drain comp' fuel v.
Proof.
  revert v. induction fuel as [|fuel IH]; intros [|top v] Hv; try done.
  change (pq_drain comp (S fuel) (f <$> top :: v)) with
    (w ← pq_pop comp (f <$> top :: v); xs ← pq_drain comp fuel w; Ret (f top :: xs)).
  rewrite pq_pop_fmap by done. cbn [pq_drain pq_top mbind outcome_bind].
  destruct (pq_pop_perm comp' top v) as (v' & -> & Hperm). cbn [fmap outcome_fmap mbind outcome_bind].
  inversion Hv. rewrite IH by (by rewrite Hperm).
  by destruct (pq_drain comp' fuel v').
Qed.
End images.

(** ** Under a comparator that tells elements apart, and no more *)

Section unequal.
Context {A : Type} (comp : A → A → bool).

(** From the hole on, the content of the hole does not matter, nor do spare steps. *)
Lemma push_hole_shadow fuel v hole x value :
  push_hole comp fuel (<[hole := x]> v) hole value = push_hole comp fuel v hole value.
Proof.
  destruct fuel as [|fuel], hole as [|hole]; cbn [push_hole]; rewrite ?list_insert_insert_eq; try done.
  pose proof (parent_lt (S hole) ltac:(lia)). rewrite list_lookup_insert_ne by lia.
  repeat case_match; by rewrite ?list_insert_insert_eq.
Qed.

Lemma push_hole_fuel fuel fuel' v hole value :
  (hole ≤ fuel)%nat → (hole ≤ fuel')%nat →
  push_hole comp fuel v hole value = push_hole comp fuel' v hole value.
Proof.
  revert fuel' v hole. induction fuel as [|fuel IH]; intros [|fuel'] v [|hole] H H'; try lia; try done.
  cbn [push_hole]. pose proof (parent_lt (S hole) ltac:(lia)).
  repeat case_match; [|done..]. apply IH; lia.
Qed.

(** A value that goes up past everything brings back what was sifted up. *)
Lemma sift_push fuel v hole len v' hole' value :
  sift_down comp fuel v hole len = (v', hole') → (hole < length v)%nat →
  Forall (λ p, comp p value = true) v →
  push_hole comp hole' v' hole' value = push_hole comp hole v hole value.
Proof.
  revert v hole. induction fuel as [|fuel IH]; intros v hole Hs Hh Hv; cbn [sift_down] in Hs;
    [by injection Hs as <- <-|].
  assert (∀ c y, v !! c = Some y → (0 < c)%nat → parent c = hole →
    push_hole comp c (<[hole := y]> v) c value = push_hole comp hole v hole value) as Hback.
  { intros c y Hy Hc Hp. pose proof (parent_lt c Hc). destruct c as [|c]; [lia|]. cbn [push_hole].
    rewrite Hp, list_lookup_insert_eq by lia. rewrite (Forall_lookup_1 _ _ _ _ Hv Hy).
    rewrite list_insert_insert_ne, push_hole_shadow, list_insert_id by (done || lia).
    apply push_hole_fuel; lia. }
  assert (∀ c y, v !! c = Some y → (hole < c)%nat → parent c = hole →
    sift_down comp fuel (<[hole := y]> v) c len = (v', hole') →
    push_hole comp hole' v' hole' value = push_hole comp hole v hole value) as Hgo.
  { intros c y Hy Hc Hp Hs'. pose proof (lookup_lt_Some _ _ _ Hy).
    rewrite (IH _ _ Hs').
    - apply Hback; [done|lia|done].
    - by rewrite length_insert.
    - apply Forall_insert; [done|]. exact (Forall_lookup_1 _ _ _ _ Hv Hy). }
  pose proof (parent_left hole). pose proof (parent_right hole).
  repeat case_match; simplify_eq; try done.
  - eapply Hgo; [| | |exact Hs]; [done|lia|done].
  - eapply Hgo; [| | |exact Hs]; [done|lia|done].
  - eapply Hback; [eassumption|lia|done].
Qed.

(** A pop puts the last element at the top. *)
Lemma pq_pop_unequal top w value :
  Forall (λ p, comp p value = true) (top :: w) →
  pq_pop comp ((top :: w) ++ [value]) = Ret (value :: w).
Proof.
  intros Hv. cbn [app]. unfold pq_pop.
  change (last (top :: w ++ [value])) with (last ((top :: w) ++ [value])).
  change (length (top :: w ++ [value])) with (length ((top :: w) ++ [value])).
  rewrite last_snoc, length_app, Nat.add_sub.
  rewrite (proj2 (Nat.eqb_neq _ _)) by (cbn; lia).
  change (top :: w ++ [value]) with ((top :: w) ++ [value]). rewrite take_app_length.
  destruct (sift_down comp _ _ _ _) as [v' hole] eqn:Hs. f_equal.
  by rewrite (sift_push _ _ _ _ _ _ value Hs) by (done || (cbn; lia)).
Qed.

(** The queue gives the element at its top, then the others from the last. *)
Lemma pq_drain_unequal top w :
  (∀ x y, x ∈ top :: w → y ∈ top :: w → x ≠ y → comp x y = true) → NoDup (top :: w) →
  pq_drain comp (S (length w)) (top :: w) = Ret (top :: reverse w).
Proof.
  remember (length w) as n eqn:Hn. revert top w Hn. induction n as [|n IH]; intros top w Hn Hc Hnd.
  { destruct w; [done|discriminate Hn]. }
  destruct w as [|value w _] using rev_ind; [discriminate Hn|].
  rewrite length_app in Hn. cbn in Hn.
  change (top :: w ++ [value]) with ((top :: w) ++ [value]) in *.
  apply NoDup_app in Hnd as (Hnd & Hout & _).
  change (pq_drain comp (S (S n)) _) with
    (v ← pq_pop comp ((top :: w) ++ [value]); xs ← pq_drain comp (S n) v; Ret (top :: xs)).
  rewrite pq_pop_unequal; [cbn [mbind outcome_bind]|].
  - rewrite IH; [by rewrite reverse_snoc|lia| |].
    + intros x y Hx Hy. apply Hc; set_solver.
    + inversion Hnd; subst. constructor; [|done]. intros Hin. apply (Hout value); set_solver.
  - apply Forall_forall. intros p Hp. apply Hc; [set_solver..|]. intros ->. apply (Hout value); set_solver.
Qed.
End unequal.

Definition unequal (i j : nat) : bool := negb (i =? j)%nat.

(** The places of the array after the places of [n] elements were pushed, and
    the order in which they are popped. *)
Definition queue_array (n : nat) : list nat := pq_push_all unequal [] (seq 0 n).
Definition queue_order (n : nat) : list nat :=
  match queue_array n with [] => [] | top :: w => top :: reverse w end.

Lemma queue_array_perm n : queue_array n ≡ₚ seq 0 n.
Proof. unfold queue_array. by rewrite pq_push_all_perm, app_nil_r. Qed.

Lemma queue_order_drain n : pq_drain unequal n (queue_array n) = Ret (queue_order n).
Proof.
  unfold queue_order. pose proof (queue_array_perm n) as Hp.
  assert (NoDup (queue_array n)) as Hnd by (rewrite Hp; apply NoDup_seq).
  apply Permutation_length in Hp. rewrite length_seq in Hp.
  destruct (queue_array n) as [|top w]; cbn in Hp; subst n; [done|].
  apply pq_drain_unequal; [|done]. intros x y _ _ Hne. unfold unequal. by apply negb_true_iff, Nat.eqb_neq.
Qed.

Lemma queue_order_perm n : queue_order n ≡ₚ seq 0 n.
Proof.
  rewrite <-queue_array_perm. unfold queue_order. destruct (queue_array n); [done|].
  by rewrite reverse_Permutation.
Qed.

(** The element pushed last is the first to come out. *)
Lemma queue_order_first n : head (queue_order (S n)) = Some n.
Proof.
  unfold queue_order, queue_array. rewrite seq_S. unfold pq_push_all. rewrite foldl_app. cbn [foldl].
  change (foldl _ [] (seq 0 n)) with (queue_array n).
  assert (pq_top (pq_push unequal (queue_array n) (0 + n)%nat) = Ret (0 + n)%nat) as Ht.
  { apply pq_push_top. rewrite queue_array_perm. apply Forall_forall. intros i [_ Hi]%elem_of_seq.
    unfold unequal. apply negb_true_iff, Nat.eqb_neq. lia. }
  destruct (pq_push _ _ _); [done|]. by injection Ht as ->.
Qed.

Lemma Forall2_places {A} (d : A) (xs : list A) places ys :
  Forall2 (λ i y, xs !! i = Some y) places ys → ys = (λ i, nth i xs d) <$> places.
Proof.
  intros Hall. induction Hall as [|i y places ys Hi _ IH]; [done|]. cbn. rewrite IH. f_equal.
  symmetry. by apply nth_lookup_Some.
Qed.

(** Any elements that the comparator tells apart are popped in this order. *)
Lemma pq_drain_positions {A} (comp : A → A → bool) (xs : list A) :
  (∀ i j x y, xs !! i = Some x → xs !! j = Some y → comp x y = negb (i =? j)%nat) →
  ∃ ys, pq_drain comp (length xs) (pq_push_all comp [] xs) = Ret ys ∧
    Forall2 (λ i y, xs !! i = Some y) (queue_order (length xs)) ys.
Proof.
  intros Hcomp. destruct xs as [|x0 xs']; [by exists []; repeat constructor|].
  set (xs := x0 :: xs') in *. set (f i := nth i xs x0).
  assert (∀ i, (i < length xs)%nat → xs !! i = Some (f i)) as Hf.
  { intros i Hi. destruct (nth_lookup_or_length xs i x0) as [?|?]; [done|lia]. }
  exists (f <$> queue_order (length xs)).
  assert (Forall (λ i, (i < length xs)%nat) (seq 0 (length xs))) as Hseq.
  { apply Forall_forall. intros i ?%elem_of_seq. lia. }
  split.
  - assert (xs = f <$> seq 0 (length xs)) as Hxs.
    { apply list_eq. intros i. rewrite list_lookup_fmap. destruct (decide (i < length xs)%nat).
      - by rewrite lookup_seq_lt, Hf.
      - by rewrite (lookup_ge_None_2 xs), (lookup_ge_None_2 (seq _ _)) by (rewrite ?length_seq; lia). }
    assert (∀ i j, (i < length xs)%nat → (j < length xs)%nat → comp (f i) (f j) = unequal i j) as Hc.
    { intros i j Hi Hj. by apply Hcomp; apply Hf. }
    rewrite Hxs at 2. change [] with (f <$> []).
    rewrite (pq_push_all_fmap _ _ _ _ Hc) by done. fold (queue_array (length xs)).
    rewrite (pq_drain_fmap _ _ _ _ Hc), queue_order_drain; [done|]. by rewrite queue_array_perm.
  - apply Forall2_fmap_r, Forall_Forall2_diag. apply Forall_forall. intros i. rewrite queue_order_perm.
    intros ?%elem_of_seq. apply Hf. lia.
Qed.
