(* ===== verification/Merger.v ===== *)
(** * The merger base class (include/merger.h, include/merger.cc)

    [Merger] opens its input tables, pushes all their entries into a priority
    queue ([MergeEntries]) and pops them through a filter ([DoFilter]).  The
    state of the object is the record [Merger]; a queued pair of slice pointers
    is the key and, where [value_list] has one at the same index, the value.
    [back()] and [pop_back()] of an empty vector are the fault [EmptyVector]. *)
From S2P Require Import Prelude Decimal Slice Coding Comparator DbFormat Tables PriorityQueue QueueOrder.

(** ** Data *)

Inductive FilterLogic : Set :=
  | kRemoveRedundant
  | kDeletePrefix
  | kDeleteVersion.

Record FilterArgs := mkFilterArgs { seq : Z; prefix : bytes }.

(** [kv_pair]: [None] is the address past the end of [value_list]. *)
Definition kv_pair : Type := bytes * option bytes.

Record Merger (F : Type) := mkMerger {
  input_files : list (Table bytes F);
  result_keys : list bytes;
  result_values : list bytes;
  abandoned_values : list (bytes * bytes);
  redundant_user_keys : list (bytes * bytes);
  pq : list kv_pair;
  logic_ : FilterLogic;
  bound_ : FilterArgs;
  format : TableFormat;
}.
Arguments mkMerger {F}.
Arguments input_files {F}.
Arguments result_keys {F}.
Arguments result_values {F}.
Arguments abandoned_values {F}.
Arguments redundant_user_keys {F}.
Arguments pq {F}.
Arguments logic_ {F}.
Arguments bound_ {F}.
Arguments format {F}.

Definition with_results {F} (ks vs : list bytes) (ab : list (bytes * bytes)) (m : Merger F) :
    Merger F :=
  mkMerger (input_files m) ks vs ab (redundant_user_keys m) (pq m) (logic_ m) (bound_ m) (format m).
Definition with_redundant {F} (r : list (bytes * bytes)) (m : Merger F) : Merger F :=
  mkMerger (input_files m) (result_keys m) (result_values m) (abandoned_values m) r (pq m)
    (logic_ m) (bound_ m) (format m).
Definition with_pq {F} (q : list kv_pair) (m : Merger F) : Merger F :=
  mkMerger (input_files m) (result_keys m) (result_values m) (abandoned_values m)
    (redundant_user_keys m) q (logic_ m) (bound_ m) (format m).

(** [back()] and [pop_back()] *)
Definition back {A} (l : list A) : outcome A :=
  match last l with Some x => Ret x | None => Fault EmptyVector end.
Definition pop_back {A} (l : list A) : outcome (list A) :=
  match l with [] => Fault EmptyVector | _ => Ret (take (length l - 1) l) end.
(** [*p] *)
Definition deref {A} (p : option A) : outcome A :=
  match p with Some x => Ret x | None => Fault OutOfBounds end.

(** [ParsedInternalKey()]: the type is not initialised. *)
Definition ParsedInternalKey_new (uninit : ValueType) : ParsedInternalKey :=
  mkParsedInternalKey [] kMaxSequenceNumber uninit.

(** ** FileNameCreator *)

(** [ostr << n] of an [int], right-adjusted to [width] with ['0']. *)
Definition print_int (width : nat) (n : Z) : bytes :=
  let s := if n <? 0 then z2b 45 :: decimal 10 (- n) [] else decimal 10 n [] in
  replicate (width - length s) (z2b 48) ++ s.

(** A [FileNameCreator]: the directory and [file_number]. *)
Definition FileNameCreator_ctor (dir_name : bytes) : bytes * Z := (dir_name, 0).

(** [NextFileName]: the name, and [file_number] after [fetch_add(1)]. *)
Definition NextFileName (base_dir : bytes) (file_number : Z) : bytes * Z :=
  (base_dir ++ [z2b 47] ++ print_int 8 file_number ++ [z2b 46; z2b 115; z2b 115; z2b 116],
   signed 32 (file_number + 1)).

(** The names of [n] successive calls. *)
Fixpoint NextFileNames (n : nat) (base_dir : bytes) (file_number : Z) : list bytes :=
  match n with
  | O => []
  | S n => let '(name, next) := NextFileName base_dir file_number in
           name :: NextFileNames n base_dir next
  end.

Section merger.
Context `{Platform}.
(** The uninitialised types of the keys the comparator parses into. *)
Context (uninit1 uninit2 : ValueType).

(** [heap_merger::KeyComparor::operator()]: an [int]. *)
Definition KeyComparor (p1 p2 : kv_pair) : Z :=
  let p1_key := (ParseInternalKey p1.1 (ParsedInternalKey_new uninit1)).2 in
  let p2_key := (ParseInternalKey p2.1 (ParsedInternalKey_new uninit2)).2 in
  let r := Slice_compare (user_key p1_key) (user_key p2_key) in
  if r =? 0 then
    if sequence p1_key >? sequence p2_key then -1
    else if sequence p1_key <? sequence p2_key then 1
    else if type p1_key >? type p2_key then -1
    else if type p1_key <? type p2_key then 1
    else r
  else r.

(** What the queue makes of the answer: a non-zero [int] is true. *)
Definition comes_before (p1 p2 : kv_pair) : bool := negb (KeyComparor p1 p2 =? 0).

(** [merge_by_min_heap] *)
Definition merge_by_min_heap {F} (files : list (Table bytes F)) (pq : list kv_pair) :
    list kv_pair :=
  foldl (λ pq file,
    foldl (λ pq i, pq_push comes_before pq (nth i (key_list file) [], value_list file !! i))
      pq (List.seq 0 (length (key_list file))))
    pq files.

Definition GenerateFilterArgs {F} (m : Merger F) (judgement_logic : FilterLogic)
    (judement_arg : FilterArgs) : Merger F :=
  mkMerger (input_files m) (result_keys m) (result_values m) (abandoned_values m)
    (redundant_user_keys m) (pq m) judgement_logic judement_arg (format m).

(** [Merger::MergeEntries] *)
Definition MergeEntries {F} (m : Merger F) : Merger F :=
  let m := with_results [] [] (abandoned_values m) m in
  with_pq (merge_by_min_heap (input_files m) (pq m)) m.

(** [DropRedundantKeys]: both keys are parsed into [parsed_current];
    [parsed_last] keeps its default, an empty user key. *)
Definition DropRedundantKeys {F} (m : Merger F) (current_pair : kv_pair) (last_key : bytes) :
    outcome (Merger F) :=
  let parsed_current := ParsedInternalKey_new uninit1 in
  let parsed_last := ParsedInternalKey_new uninit2 in
  let parsed_current := (ParseInternalKey current_pair.1 parsed_current).2 in
  let parsed_current := (ParseInternalKey last_key parsed_current).2 in
  m ← (if Slice_eqb (user_key parsed_current) (user_key parsed_last) then
         k ← back (result_keys m);
         v ← back (result_values m);
         ks ← pop_back (result_keys m);
         vs ← pop_back (result_values m);
         Ret (with_results ks vs (abandoned_values m ++ [(k, v)]) m)
       else Ret m);
  v ← deref current_pair.2;
  Ret (with_results (result_keys m ++ [current_pair.1]) (result_values m ++ [v])
         (abandoned_values m) m).

Definition DropWithPrefix {F} (m : Merger F) (current_pair : kv_pair) : outcome (Merger F) :=
  let parsed_current :=
    (ParseInternalKey current_pair.1 (ParsedInternalKey_new uninit1)).2 in
  if Slice_starts_with (user_key parsed_current) (prefix (bound_ m)) then
    v ← deref current_pair.2;
    Ret (with_results (result_keys m) (result_values m)
           (abandoned_values m ++ [(current_pair.1, v)]) m)
  else Ret m.

Definition PickUniqueVersion {F} (m : Merger F) (current_pair : kv_pair) (last_key : bytes) :
    outcome (Merger F) :=
  let parsed_current := ParsedInternalKey_new uninit1 in
  let parsed_current := (ParseInternalKey current_pair.1 parsed_current).2 in
  let parsed_current := (ParseInternalKey last_key parsed_current).2 in
  m ← (if Slice_starts_with (user_key parsed_current) (prefix (bound_ m)) &&
          (sequence parsed_current <=? seq (bound_ m)) then
         r ← back (redundant_user_keys m);
         m ← (if Slice_eqb r.1 (user_key parsed_current) then
                rs ← pop_back (redundant_user_keys m);
                Ret (with_redundant rs (with_results (result_keys m) (result_values m)
                  (abandoned_values m ++ [r]) m))
              else Ret m);
         k ← back (result_keys m);
         v ← back (result_values m);
         let m := with_redundant (redundant_user_keys m ++ [(k, v)]) m in
         ks ← pop_back (result_keys m);
         vs ← pop_back (result_values m);
         Ret (with_results ks vs (abandoned_values m) m)
       else Ret m);
  v ← deref current_pair.2;
  Ret (with_results (result_keys m ++ [current_pair.1]) (result_values m ++ [v])
         (abandoned_values m) m).

(** One turn of the loop of [DoFilter]. *)
Definition filter_step {F} (m : Merger F) : outcome (Merger F) :=
  current_pair ← pq_top (pq m);
  last_pair ← back (result_keys m);
  m ← match logic_ m with
      | kRemoveRedundant => DropRedundantKeys m current_pair last_pair
      | kDeletePrefix => DropWithPrefix m current_pair
      | kDeleteVersion => PickUniqueVersion m current_pair last_pair
      end;
  q ← pq_pop comes_before (pq m);
  Ret (with_pq q m).

Fixpoint filter_loop {F} (fuel : nat) (m : Merger F) : outcome (Merger F) :=
  match fuel, pq m with
  | S fuel, _ :: _ => m ← filter_step m; filter_loop fuel m
  | _, _ => Ret m
  end.

(** [Merger::DoFilter]: a turn pops one pair, so the queue bounds the turns. *)
Definition DoFilter {F} (m : Merger F) : outcome (Merger F) := filter_loop (length (pq m)) m.

(** [Merger::DoCompaction] between the virtual [PrepareFiles] and
    [WriteOutResult] of a subclass. *)
Definition DoCompaction {F} (PrepareFiles WriteOutResult : Merger F → outcome (Merger F))
    (m : Merger F) : outcome (Merger F) :=
  m ← PrepareFiles m;
  let m := MergeEntries m in
  m ← DoFilter m;
  WriteOutResult m.
End merger.

(** [Merger::Merger]: opens every input; [logic_] and [bound_] are what the
    memory holds. *)
Definition Merger_ctor {F} `{Posix F} (input_fnames : list bytes) (tableFormat : TableFormat)
    (logic0 : FilterLogic) (bound0 : FilterArgs) : outcome (Merger F) :=
  files ← foldM (λ files fname,
    t ← CreateFilePointerFromName tableFormat fname; Ret (files ++ [t])) [] input_fnames;
  Ret (mkMerger files [] [] [] [] [] logic0 bound0 tableFormat).

(** ** Lemmas *)

(** *** The numbers in file names *)

Lemma print_int_val width n : 0 ≤ n < 10 ^ 10 → digits_val 0 (print_int width n) = n.
Proof.
  intros Hn. unfold print_int. rewrite (proj2 (Z.ltb_ge _ _)) by lia.
  by rewrite digits_val_zeros, digits_val_decimal.
Qed.

Lemma print_int_length n : 0 ≤ n < 10 ^ 8 → length (print_int 8 n) = 8%nat.
Proof.
  intros Hn. unfold print_int. rewrite (proj2 (Z.ltb_ge _ _)) by lia.
  pose proof (decimal_length 10 n [] 8 Hn ltac:(lia)). simpl in *.
  rewrite length_app, length_replicate. lia.
Qed.

Lemma NextFileName_inj base a b :
  0 ≤ a < 2 ^ 31 → 0 ≤ b < 2 ^ 31 →
  (NextFileName base a).1 = (NextFileName base b).1 → a = b.
Proof.
  intros Ha Hb H. cbn [NextFileName fst] in H. apply app_inv_head, app_inv_head, app_inv_tail in H.
  apply (f_equal (digits_val 0)) in H. by rewrite !print_int_val in H by lia.
Qed.

Lemma NextFileNames_lookup n base start i name :
  0 ≤ start → start + Z.of_nat n ≤ 2 ^ 31 → NextFileNames n base start !! i = Some name →
  (i < n)%nat ∧ name = (NextFileName base (start + Z.of_nat i)).1.
Proof.
  revert start i. induction n as [|n IH]; intros start i H0 Hn Hi; [discriminate Hi|].
  cbn [NextFileNames NextFileName] in Hi. destruct i as [|i].
  - injection Hi as <-. rewrite Z.add_0_r. split; [lia|done].
  - change (NextFileNames n base (signed 32 (start + 1)) !! i = Some name) in Hi.
    destruct n as [|n]; [discriminate Hi|].
    rewrite signed_32_small in Hi by lia.
    destruct (IH (start + 1) i) as [? ->]; [lia|lia|done|]. split; [lia|]. do 2 f_equal. lia.
Qed.

(** *** Vectors *)

Lemma back_snoc {A} (l : list A) x : back (l ++ [x]) = Ret x.
Proof. unfold back. by rewrite last_snoc. Qed.
Lemma pop_back_snoc {A} (l : list A) x : pop_back (l ++ [x]) = Ret l.
Proof.
  unfold pop_back. destruct (l ++ [x]) eqn:H; [by destruct l|]. rewrite <-H, length_app. simpl.
  by rewrite Nat.add_sub, take_app_length.
Qed.

(** *** The queue of a merge *)

(** The pairs of a table, and of all tables, as they are pushed. *)
Definition table_pairs {F} (t : Table bytes F) : list kv_pair :=
  (λ i, (nth i (key_list t) [], value_list t !! i)) <$> List.seq 0 (length (key_list t)).
Definition all_pairs {F} (files : list (Table bytes F)) : list kv_pair :=
  concat (table_pairs <$> files).

Section merger_lemmas.
Context `{Platform} (u1 u2 : ValueType).

Lemma foldl_fmap {A B S} (g : A → B) (f : S → B → S) s l :
  foldl f s (g <$> l) = foldl (λ s a, f s (g a)) s l.
Proof. revert s. induction l as [|a l IH]; intros s; [done|]. apply IH. Qed.

Lemma merge_by_min_heap_all {F} (files : list (Table bytes F)) q :
  merge_by_min_heap u1 u2 files q = pq_push_all (comes_before u1 u2) q (all_pairs files).
Proof.
  unfold merge_by_min_heap, pq_push_all, all_pairs. revert q.
  induction files as [|t files IH]; intros q; [done|].
  cbn [foldl concat fmap list_fmap]. rewrite IH, foldl_app. f_equal.
  unfold table_pairs. by rewrite foldl_fmap.
Qed.

Lemma parse_long_user_key k r :
  9 ≤ zlen k → Slice_eqb (user_key (ParseInternalKey k r).2) [] = false.
Proof.
  intros Hk. rewrite ParseInternalKey_long by lia. cbn.
  destruct (Slice_eqb _ _) eqn:He; [|done]. apply Slice_eqb_eq in He.
  pose proof (zlen_without_footer k ltac:(lia)) as Hz. rewrite He, zlen_nil in Hz. lia.
Qed.

Lemma DropRedundantKeys_long {F} (m : Merger F) k v last_key :
  9 ≤ zlen last_key →
  DropRedundantKeys u1 u2 m (k, Some v) last_key =
  Ret (with_results (result_keys m ++ [k]) (result_values m ++ [v]) (abandoned_values m) m).
Proof.
  intros Hl. unfold DropRedundantKeys. cbn [ParsedInternalKey_new user_key].
  rewrite (parse_long_user_key last_key) by done. done.
Qed.

(** The key and the value of a queued pair that has both. *)
Definition pair_ok (p : kv_pair) : Prop := 9 ≤ zlen p.1 ∧ is_Some p.2.

Lemma KeyComparor_valid p q v w :
  valid_key p → valid_key q →
  KeyComparor u1 u2 (encode_key p, v) (encode_key q, w) = Compare_parsed SliceComparator p q.
Proof. intros Hp Hq. unfold KeyComparor. cbn [fst]. by rewrite !ParseInternalKey_encode. Qed.

Lemma comes_before_valid p q v w :
  valid_key p → valid_key q →
  comes_before u1 u2 (encode_key p, v) (encode_key q, w) = negb (bool_decide (p = q)).
Proof.
  intros Hp Hq. unfold comes_before. rewrite KeyComparor_valid by done.
  f_equal. apply eq_bool_prop_intro. rewrite !Is_true_true, bool_decide_eq_true, Z.eqb_eq.
  unfold Compare_parsed. cbn.
  destruct (Z.eqb_spec (Slice_compare (user_key p) (user_key q)) 0) as [He|He].
  - pose proof He as Hc. rewrite Slice_compare_lex in He. apply lex_compare_eq in He.
    destruct p as [pu ps pt], q as [qu qs qt]; cbn in *. subst qu.
    zbool; (split; [intros; try lia; f_equal; lia|intros [= -> ->]; lia]).
  - split; [lia|]. intros ->. rewrite Slice_compare_lex in He. destruct He.
    by apply lex_compare_eq.
Qed.

(** *** The order of the queue *)

(** A queued pair, and the question a queue of the smallest key has to ask. *)
Definition kv_of (e : ParsedInternalKey * option bytes) : kv_pair := (encode_key e.1, e.2).
Definition greater (p1 p2 : kv_pair) : bool := 0 <? KeyComparor u1 u2 p1 p2.

(** The order of parsed keys, descending, as a comparator. *)
Definition ik_greater (x y : ParsedInternalKey * option bytes) : bool :=
  0 <? ik_order SliceComparator (user_key x.1) (packed x.1) (user_key y.1) (packed y.1).

#[local] Instance ik_greater_swo : StrictWeakOrder ik_greater.
Proof.
  split; unfold ik_greater.
  - intros x y. rewrite Z.ltb_lt, Z.ltb_ge.
    pose proof (ik_order_sgn_sym SliceComparator (user_key x.1) (packed x.1) (user_key y.1) (packed y.1)).
    lia.
  - intros x y z. rewrite !Z.ltb_ge. apply ik_order_trans, _.
Qed.

Lemma greater_valid x y :
  valid_key x.1 → valid_key y.1 → greater (kv_of x) (kv_of y) = ik_greater x y.
Proof.
  intros Hx Hy. unfold greater, ik_greater, kv_of. by rewrite KeyComparor_valid, Compare_parsed_packed.
Qed.

(** Asked for the greater key, the queue gives the pairs in ascending order. *)
Lemma greater_queue_sorts entries :
  Forall (λ e, valid_key e.1) entries → NoDup entries.*1 →
  ∃ sorted, sorted ≡ₚ entries ∧
    StronglySorted (λ x y, Compare_parsed SliceComparator x.1 y.1 < 0) sorted ∧
    pq_drain greater (length entries) (pq_push_all greater [] (kv_of <$> entries)) = Ret (kv_of <$> sorted).
Proof.
  intros Hv Hnd. set (P e := valid_key (e : ParsedInternalKey * option bytes).1).
  set (heap := pq_push_all ik_greater [] entries).
  assert (heap ≡ₚ entries) as Hheap by (unfold heap; by rewrite pq_push_all_perm, app_nil_r).
  destruct (pq_drain_sorted ik_greater heap) as (sorted & Hd & Hp & Hs).
  { apply pq_push_all_ordered; [apply _|]. intros i x p _ Hx. by rewrite lookup_nil in Hx. }
  exists sorted. split; [by rewrite Hp|]. split.
  - eapply (StronglySorted_strict _ _ fst P); [|by rewrite Hp, Hheap|by rewrite Hp, Hheap|exact Hs].
    intros x y Hx Hy Hne. unfold ik_greater. rewrite <-Compare_parsed_packed, Z.ltb_ge by done.
    pose proof (comes_before_valid x.1 y.1 None None Hx Hy) as Hc. unfold comes_before in Hc.
    rewrite KeyComparor_valid, bool_decide_eq_false_2 in Hc by done.
    apply negb_true_iff, Z.eqb_neq in Hc. lia.
  - rewrite (Permutation_length Hheap) in Hd. change [] with (kv_of <$> []).
    rewrite (pq_push_all_fmap greater ik_greater kv_of P) by (done || (intros; by apply greater_valid)).
    fold heap. rewrite (pq_drain_fmap greater ik_greater kv_of P); [by rewrite Hd|by apply greater_valid|].
    by rewrite Hheap.
Qed.

(** *** The filter loop *)

Section loop.
Context {F : Type} (I : Merger F → Prop) (Q : kv_pair → Prop) (g : Merger F → kv_pair → Merger F).
Hypothesis step_ok : ∀ m p, I m → pq_top (pq m) = Ret p → Q p →
  filter_step u1 u2 m = q ← pq_pop (comes_before u1 u2) (pq m); Ret (with_pq q (g m p)).
Hypothesis g_inv : ∀ m p q, I m → Q p → I (with_pq q (g m p)).
Hypothesis g_pq : ∀ m p q, g (with_pq q m) p = with_pq q (g m p).

Lemma with_pq_twice q q' (m : Merger F) : with_pq q (with_pq q' m) = with_pq q m.
Proof. done. Qed.
Lemma with_pq_id (m : Merger F) : with_pq (pq m) m = m.
Proof. by destruct m. Qed.

Lemma foldl_with_pq q m xs : foldl g (with_pq q m) xs = with_pq q (foldl g m xs).
Proof. revert m. induction xs as [|x xs IH]; intros m; [done|]. simpl. by rewrite g_pq, IH. Qed.

(** A loop whose body is [g] handles the pairs in the order of the queue. *)
Lemma filter_loop_drain fuel m :
  (length (pq m) ≤ fuel)%nat → I m → Forall Q (pq m) →
  ∃ xs, pq_drain (comes_before u1 u2) fuel (pq m) = Ret xs ∧ xs ≡ₚ pq m ∧
        filter_loop u1 u2 fuel m = Ret (with_pq [] (foldl g m xs)).
Proof.
  revert m. induction fuel as [|fuel IH]; intros m Hlen HI HQ.
  { exists []. destruct (pq m) as [|p q] eqn:Hq; [|simpl in Hlen; lia]. simpl.
    by rewrite <-Hq, with_pq_id. }
  cbn [pq_drain filter_loop]. destruct (pq m) as [|p q] eqn:Hq.
  { exists []. simpl. by rewrite <-Hq, with_pq_id. }
  inversion HQ as [|?? HQp HQq]; subst.
  rewrite (step_ok m p HI) by (done || by rewrite Hq). rewrite Hq.
  destruct (pq_pop_perm (comes_before u1 u2) p q) as (q' & Hpop & Hperm).
  cbn [pq_top]. rewrite Hpop. cbn [mbind outcome_bind].
  destruct (IH (with_pq q' (g m p))) as (xs & Hd & Hxs & Hl); cbn [pq with_pq].
  - rewrite (Permutation_length Hperm). simpl in Hlen. lia.
  - by apply g_inv.
  - by rewrite Hperm.
  - cbn [pq with_pq] in *. rewrite Hd. cbn [mbind outcome_bind]. exists (p :: xs).
    split; [done|]. split; [by rewrite Hxs, Hperm|]. by rewrite Hl, foldl_with_pq.
Qed.
End loop.

(** The results with the pairs [xs] appended, and the abandoned pairs with
    those of [xs] that have a prefix. *)
Definition appended {F} (m : Merger F) (p : kv_pair) : Merger F :=
  with_results (result_keys m ++ [p.1]) (result_values m ++ [default [] p.2]) (abandoned_values m) m.
Definition pair_bytes (p : kv_pair) : bytes * bytes := (p.1, default [] p.2).
Definition has_prefix (pre : bytes) (p : kv_pair) : bool :=
  Slice_starts_with (without_footer p.1) pre.
Definition abandoned {F} (m : Merger F) (p : kv_pair) : Merger F :=
  if has_prefix (prefix (bound_ m)) p then
    with_results (result_keys m) (result_values m) (abandoned_values m ++ [pair_bytes p]) m
  else m.

Lemma foldl_appended {F} (m : Merger F) xs :
  foldl appended m xs =
  with_results (result_keys m ++ xs.*1) (result_values m ++ (default [] <$> xs.*2))
    (abandoned_values m) m.
Proof.
  revert m. induction xs as [|x xs IH]; intros m; cbn [foldl fmap list_fmap].
  - rewrite !app_nil_r. by destruct m.
  - rewrite IH. unfold appended. cbn. by rewrite <-!app_assoc.
Qed.

Lemma foldl_abandoned {F} (m : Merger F) xs :
  foldl abandoned m xs =
  with_results (result_keys m) (result_values m)
    (abandoned_values m ++ (pair_bytes <$> filter (λ p, has_prefix (prefix (bound_ m)) p) xs)) m.
Proof.
  revert m. induction xs as [|x xs IH]; intros m; cbn [foldl fmap list_fmap].
  - rewrite app_nil_r. by destruct m.
  - rewrite IH. unfold abandoned. rewrite filter_cons. 
    destruct (has_prefix (prefix (bound_ m)) x) eqn:Hp; cbn; rewrite ?Hp; [|done].
    by rewrite decide_True, fmap_cons, <-app_assoc by done.
Qed.
End merger_lemmas.

(** ** Properties *)

(** C14: A whole [Merger::DoCompaction], whatever the subclass does in
    [PrepareFiles] and [WriteOutResult].  [MergeEntries] empties the results and
    queues every key of every input with the value at its index: nothing is lost
    or added.  [DoFilter] then reads [result_keys.back()] of the empty vector as
    soon as the queue has a pair, so a compaction with an entry never gets to
    [WriteOutResult]; one without writes out no results. *)
Theorem compaction_stops `{Platform} u1 u2 {F} (PrepareFiles WriteOutResult : Merger F → outcome (Merger F)) m m1 :
  PrepareFiles m = Ret m1 →
  let m2 := MergeEntries u1 u2 m1 in
  result_keys m2 = [] ∧ result_values m2 = [] ∧ pq m2 ≡ₚ all_pairs (input_files m1) ++ pq m1 ∧
  (all_pairs (input_files m1) ++ pq m1 ≠ [] →
     DoCompaction u1 u2 PrepareFiles WriteOutResult m = Fault EmptyVector) ∧
  (all_pairs (input_files m1) ++ pq m1 = [] →
     DoCompaction u1 u2 PrepareFiles WriteOutResult m = WriteOutResult m2).
Proof.
  intros Hm m2. split; [done|]. split; [done|].
  assert (pq m2 ≡ₚ all_pairs (input_files m1) ++ pq m1) as Hpq.
  { unfold m2, MergeEntries. cbn [pq with_pq with_results input_files].
    by rewrite merge_by_min_heap_all, pq_push_all_perm. }
  split; [done|]. unfold DoCompaction. rewrite Hm. cbn [mbind outcome_bind]. fold m2. unfold DoFilter. split.
  - intros Hne. destruct (pq m2) as [|p q] eqn:Hq; [by apply Permutation_nil in Hpq|].
    cbn [length filter_loop]. rewrite Hq. unfold filter_step. by rewrite Hq.
  - intros He. rewrite He in Hpq. apply Permutation_nil_r in Hpq. by rewrite Hpq.
Qed.

(** An input with one key, of which nothing is left. *)
Lemma compaction_stops_witness :
  let k := encode_key (mkParsedInternalKey [z2b 97] 1 kTypeValue) in
  let m ks : Merger unit := mkMerger [mkTable ks [] tt [] 0] [] [] [] [] [] kDeletePrefix (mkFilterArgs 0 []) kPlain in
  DoCompaction (H:=LittleEndianHost) 0 0 Ret Ret (m [k]) = Fault EmptyVector ∧
  DoCompaction (H:=LittleEndianHost) 0 0 Ret Ret (m []) = Ret (m []).
Proof.
  cbv zeta. set (k := encode_key (mkParsedInternalKey [z2b 97] 1 kTypeValue)). split.
  - destruct (compaction_stops (H:=LittleEndianHost) 0 0 (F:=unit) Ret Ret
      (mkMerger [mkTable [k] [] tt [] 0] [] [] [] [] [] kDeletePrefix (mkFilterArgs 0 []) kPlain) _ eq_refl)
      as (_ & _ & _ & Hd & _). apply Hd. discriminate.
  - destruct (compaction_stops (H:=LittleEndianHost) 0 0 (F:=unit) Ret Ret
      (mkMerger [mkTable [] [] tt [] 0] [] [] [] [] [] kDeletePrefix (mkFilterArgs 0 []) kPlain) _ eq_refl)
      as (_ & _ & _ & _ & Hd). apply Hd. reflexivity.
Defined.

(** C15: The order in which the queue of [MergeEntries] gives its pairs back,
    when their keys are valid and pairwise different.  The queue reads the [int]
    of its comparator as a bool, which is true for any two of them, so the order
    is a fixed permutation of their places in the inputs ([queue_order]) and has
    nothing to do with the keys.  The [int] itself is right: a queue that asked
    whether it is positive would give the pairs in strictly ascending order of
    their internal keys. *)
Theorem merge_queue_order `{Platform} u1 u2 {F} (m : Merger F) entries :
  Forall (λ e, valid_key e.1) entries → NoDup entries.*1 →
  all_pairs (input_files m) = kv_of <$> entries → pq m = [] →
  let pairs := all_pairs (input_files m) in
  (∃ popped, pq_drain (comes_before u1 u2) (length pairs) (pq (MergeEntries u1 u2 m)) = Ret popped ∧
     Forall2 (λ i p, pairs !! i = Some p) (queue_order (length pairs)) popped) ∧
  (∃ sorted, pq_drain (greater u1 u2) (length pairs) (pq_push_all (greater u1 u2) [] pairs) =
       Ret (kv_of <$> sorted) ∧ sorted ≡ₚ entries ∧
     StronglySorted (λ x y, Compare_parsed SliceComparator x.1 y.1 < 0) sorted).
Proof.
  intros Hv Hnd Hpairs Hpq pairs. split.
  - unfold MergeEntries. cbn [pq with_pq with_results input_files].
    rewrite merge_by_min_heap_all, Hpq. apply pq_drain_positions. unfold pairs. rewrite Hpairs.
    intros i j x y (a & -> & Ha)%list_lookup_fmap_Some (b & -> & Hb)%list_lookup_fmap_Some.
    unfold kv_of. rewrite comes_before_valid by (by eapply Forall_lookup_1 in Hv). f_equal.
    apply eq_bool_prop_intro. rewrite !Is_true_true, bool_decide_eq_true, Nat.eqb_eq.
    split; [|intros ->; congruence]. intros He.
    eapply (NoDup_lookup entries.*1); [done| |]; rewrite list_lookup_fmap; [by rewrite Ha|by rewrite Hb, He].
  - unfold pairs. rewrite Hpairs, length_fmap.
    destruct (greater_queue_sorts u1 u2 entries Hv Hnd) as (sorted & Hp & Hs & Hd). by exists sorted.
Qed.

(** Four pairs with ascending keys: the fourth comes out first. *)
Lemma merge_queue_order_witness :
  let key b := mkParsedInternalKey [z2b b] 1 kTypeValue in
  let ks := [encode_key (key 97); encode_key (key 98); encode_key (key 99); encode_key (key 100)] in
  let m : Merger unit := mkMerger [mkTable ks [] tt [] 0] [] [] [] [] [] kRemoveRedundant
    (mkFilterArgs 0 []) kPlain in
  ∃ popped, pq_drain (comes_before (H:=LittleEndianHost) 0 0) 4
      (pq (MergeEntries (H:=LittleEndianHost) 0 0 m)) = Ret popped ∧
    popped.*1 = [encode_key (key 100); encode_key (key 97); encode_key (key 98); encode_key (key 99)].
Proof.
  cbv zeta. set (key b := mkParsedInternalKey [z2b b] 1 kTypeValue).
  set (ks := [encode_key (key 97); encode_key (key 98); encode_key (key 99); encode_key (key 100)]).
  destruct (merge_queue_order (H:=LittleEndianHost) 0 0 (F:=unit)
    (mkMerger [mkTable ks [] tt [] 0] [] [] [] [] [] kRemoveRedundant (mkFilterArgs 0 []) kPlain)
    [(key 97, None); (key 98, None); (key 99, None); (key 100, None)])
    as ((popped & Hd & Hpos) & _).
  - repeat (constructor; [by_decide|]). constructor.
  - by_decide.
  - vm_compute. reflexivity.
  - reflexivity.
  - exists popped. split; [exact Hd|]. rewrite (Forall2_places ([], None) _ _ _ Hpos). vm_compute. reflexivity.
Defined.

(** C7: From a state with a result, and with keys of at least nine bytes,
    [DoFilter] with one of the policies that remove redundant keys or delete a
    prefix handles every queued pair once, in the order of the queue, and empties
    it.  Removing redundant keys appends
    every pair to the results and abandons none, also when user keys repeat,
    because the key it compares with is never filled in.  Deleting a prefix
    abandons exactly the pairs whose user key has it, and adds no pair to the
    results. *)
Theorem filter_drains_queue `{Platform} u1 u2 {F} (m : Merger F) ks k0 :
  result_keys m = ks ++ [k0] → 9 ≤ zlen k0 → Forall pair_ok (pq m) →
  ∃ xs, pq_drain (comes_before u1 u2) (length (pq m)) (pq m) = Ret xs ∧ xs ≡ₚ pq m ∧
  (logic_ m = kRemoveRedundant → DoFilter u1 u2 m =
     Ret (with_pq [] (with_results (result_keys m ++ xs.*1)
       (result_values m ++ (default [] <$> xs.*2)) (abandoned_values m) m))) ∧
  (logic_ m = kDeletePrefix → DoFilter u1 u2 m =
     Ret (with_pq [] (with_results (result_keys m) (result_values m)
       (abandoned_values m ++ (pair_bytes <$> filter (λ p, has_prefix (prefix (bound_ m)) p) xs)) m))).
Proof.
  intros Hks Hk0 Hpq.
  destruct (pq_drain_perm (comes_before u1 u2) (length (pq m)) (pq m)) as (xs & Hd & Hxs); [done|].
  exists xs. split; [done|]. split; [done|]. split; intros Hlogic.
  - destruct (filter_loop_drain u1 u2 (λ m : Merger F, logic_ m = kRemoveRedundant ∧
      ∃ ks k, result_keys m = ks ++ [k] ∧ 9 ≤ zlen k) pair_ok appended) with (length (pq m)) m
      as (xs' & Hd' & _ & Hl); try done.
    + intros m' [k v] [Hm' (ks' & k' & Hk' & Hlen)] Htop [_ [v' Hv']]. cbn in Hv'. subst v.
      unfold filter_step.
      rewrite Htop, Hm', Hk', back_snoc. cbn [mbind outcome_bind].
      rewrite DropRedundantKeys_long by done. unfold appended. cbn. by rewrite Hk'.
    + intros m' p q [Hm' _] [Hp _]. split; [done|]. exists (result_keys m'), p.1. done.
    + split; [done|]. by exists ks, k0.
    + unfold DoFilter. rewrite Hl, foldl_appended. congruence.
  - destruct (filter_loop_drain u1 u2 (λ m : Merger F, logic_ m = kDeletePrefix ∧
      ∃ ks k, result_keys m = ks ++ [k]) pair_ok abandoned) with (length (pq m)) m
      as (xs' & Hd' & _ & Hl); try done.
    + intros m' [k v] [Hm' (ks' & k' & Hk')] Htop [Hlen [v' Hv']]. cbn in Hlen, Hv'. subst v.
      unfold filter_step.
      rewrite Htop, Hm', Hk', back_snoc. cbn [mbind outcome_bind].
      unfold DropWithPrefix, abandoned, has_prefix. cbn in *.
      rewrite ParseInternalKey_long by lia. cbn. by case_match.
    + intros m' p q [Hm' Hk'] _. unfold abandoned. by case_match.
    + intros m' p q. unfold abandoned. cbn. by case_match.
    + split; [done|]. by exists ks, k0.
    + unfold DoFilter. rewrite Hl, foldl_abandoned. congruence.
Qed.

Lemma filter_drains_queue_witness :
  let k := encode_key (mkParsedInternalKey [z2b 97] 1 kTypeValue) in
  let m : Merger unit := mkMerger [] [k] [[]] [] [] [(k, Some [])] kRemoveRedundant
    (mkFilterArgs 0 []) kPlain in
  9 ≤ zlen k ∧ Forall pair_ok (pq m) ∧ ∃ m', DoFilter (H:=LittleEndianHost) 0 0 m = Ret m' ∧
    result_keys m' = [k; k].
Proof.
  cbv zeta. set (k := encode_key (mkParsedInternalKey [z2b 97] 1 kTypeValue)).
  assert (9 ≤ zlen k) as Hk by (vm_compute; discriminate).
  assert (Forall pair_ok [(k, Some ([] : bytes))]) as Hall
    by (constructor; [split; [exact Hk|by eexists]|constructor]).
  split; [exact Hk|]. split; [exact Hall|].
  destruct (filter_drains_queue (H:=LittleEndianHost) 0 0 (F:=unit) (mkMerger [] [k] [[]] [] []
    [(k, Some [])] kRemoveRedundant (mkFilterArgs 0 []) kPlain) [] k eq_refl Hk Hall)
    as (xs & Hd & _ & Hr & _).
  eexists. split; [exact (Hr eq_refl)|]. injection Hd as <-. reflexivity.
Defined.

(** [PickUniqueVersion] on every branch, for a last key with a footer:
    outside the prefix or above the sequence bound it appends the pair; inside,
    it stops on the empty vector of redundant keys it has not filled yet, and
    otherwise moves the last result to the redundant keys, abandoning the last
    redundant pair where its key is the user key of the last result. *)
Lemma pick_unique_version_branches `{Platform} u1 {F} (m : Merger F) k v ks vs k0 v0 :
  result_keys m = ks ++ [k0] → result_values m = vs ++ [v0] → 8 ≤ zlen k0 →
  let uk := without_footer k0 in
  let in_range := Slice_starts_with uk (prefix (bound_ m)) &&
                  (DecodeFixed64 (footer_of k0) / 256 <=? seq (bound_ m)) in
  let picked reds ab := with_redundant (reds ++ [(k0, v0)]) (with_results (ks ++ [k]) (vs ++ [v]) ab m) in
  (in_range = false → PickUniqueVersion u1 m (k, Some v) k0 =
     Ret (with_results (result_keys m ++ [k]) (result_values m ++ [v]) (abandoned_values m) m)) ∧
  (in_range = true → redundant_user_keys m = [] →
     PickUniqueVersion u1 m (k, Some v) k0 = Fault EmptyVector) ∧
  (in_range = true → ∀ reds r, redundant_user_keys m = reds ++ [r] →
     PickUniqueVersion u1 m (k, Some v) k0 =
     Ret (if decide (r.1 = uk) then picked reds (abandoned_values m ++ [r])
          else picked (reds ++ [r]) (abandoned_values m))).
Proof.
  intros Hks Hvs Hk0. cbv zeta. unfold PickUniqueVersion. rewrite (ParseInternalKey_long k0) by done.
  cbn [fst snd user_key sequence]. split; [|split].
  - intros ->. done.
  - intros -> Hr. by rewrite Hr.
  - intros -> reds r Hr. rewrite Hr, back_snoc. cbn [mbind outcome_bind].
    destruct (decide (r.1 = without_footer k0)) as [He|He].
    + rewrite (proj2 (Slice_eqb_eq _ _) He), pop_back_snoc. cbn. rewrite Hks, Hvs.
      rewrite !back_snoc. cbn. by rewrite !pop_back_snoc.
    + assert (Slice_eqb r.1 (without_footer k0) = false) as ->.
      { apply not_true_is_false. by rewrite Slice_eqb_eq. }
      cbn. rewrite Hks, Hvs, !back_snoc. cbn. rewrite !pop_back_snoc. cbn. by rewrite Hr.
Qed.

Lemma pick_unique_version_branches_witness :
  let k := encode_key (mkParsedInternalKey [z2b 97] 1 kTypeValue) in
  let m : Merger unit := mkMerger [] [k] [[]] [] [] [] kDeleteVersion (mkFilterArgs 5 []) kPlain in
  8 ≤ zlen k ∧ PickUniqueVersion (H:=LittleEndianHost) 0 m (k, Some []) k = Fault EmptyVector.
Proof.
  cbv zeta. set (k := encode_key (mkParsedInternalKey [z2b 97] 1 kTypeValue)).
  assert (8 ≤ zlen k) as Hk by (vm_compute; discriminate). split; [exact Hk|].
  destruct (pick_unique_version_branches (H:=LittleEndianHost) 0 (F:=unit) (mkMerger [] [k] [[]] []
    [] [] kDeleteVersion (mkFilterArgs 5 []) kPlain) k [] [] [] k [] eq_refl eq_refl Hk)
    as (_ & He & _).
  apply He; reflexivity.
Defined.

(** [NextFileName] numbers the output files: successive calls on one
    directory give pairwise different names until the counter reaches [2^31];
    below [10^8] every name has exactly eight digits, zero-padded. *)
Theorem file_names_distinct base_dir start n :
  0 ≤ start → start + Z.of_nat n ≤ 2 ^ 31 →
  NoDup (NextFileNames n base_dir start) ∧
  ∀ k, 0 ≤ k < 10 ^ 8 → zlen (NextFileName base_dir k).1 = zlen base_dir + 13.
Proof.
  intros Hs Hn. split.
  - apply NoDup_alt. intros i j name Hi Hj.
    destruct (NextFileNames_lookup _ _ _ _ _ Hs Hn Hi) as [Hin ->].
    destruct (NextFileNames_lookup _ _ _ _ _ Hs Hn Hj) as [Hjn He].
    apply NextFileName_inj in He; lia.
  - intros k Hk. cbn [NextFileName fst]. pose proof (print_int_length k Hk) as Hl.
    rewrite !zlen_app. unfold zlen at 3. rewrite Hl. unfold zlen. simpl. lia.
Qed.

Lemma file_names_distinct_witness :
  0 ≤ 7 ∧ 7 + Z.of_nat 2 ≤ 2 ^ 31 ∧ NoDup (NextFileNames 2 [z2b 46] 7).
Proof.
  assert (0 ≤ 7) as Ha by lia. assert (7 + Z.of_nat 2 ≤ 2 ^ 31) as Hb by lia.
  split; [exact Ha|]. split; [exact Hb|]. apply (file_names_distinct [z2b 46] 7 2 Ha Hb).
Defined.
