(* ===== verification/StreamMerger.v ===== *)
(** * The stream mergers (include/stream_merger.cc, include/merger.h)

    [BaselineMerger] loads plain tables, pushes their 26-byte entries into a
    queue and pops them through [Arbitration]; [FPGA_Stream_Merger] streams
    windows of its files to the accelerator.

    A slice into a loaded file or a string is the memory from its first byte to
    the end of the object ([bytes]); its size is what the code passes along
    with it.  A slice to a local string that is gone is [Dangling]. *)
From S2P Require Import Prelude Slice Coding Comparator DbFormat OnBoard Tables PriorityQueue QueueOrder Merger.

(** ** Data *)

(** [FULL_KEY_LENGTH + VALUE_LENGTH] *)
Definition ENTRY_LENGTH : Z := 8 + 8 + 10.

Record PlainTable (F : Type) := mkPlainTable {
  pt_table : Table bytes F;
  readed_entries : Z;
  file_content : bytes;
  file_size : Z;
}.
Arguments mkPlainTable {F}.
Arguments pt_table {F}.
Arguments readed_entries {F}.
Arguments file_content {F}.
Arguments file_size {F}.

Inductive ArbitrationAction : Set :=
  | kDeleteLast
  | kAcceptEntry
  | kDeleteCurrent.

(** The slice [Arbitration] leaves in [result_buffer]. *)
Inductive slice_ref :=
  | Live (b : bytes)
  | Dangling (was : bytes).

(** The bytes of a slice when they are read. *)
Definition slice_bytes (s : slice_ref) : outcome bytes :=
  match s with Live b => Ret b | Dangling _ => Fault UseAfterFree end.

Record BaselineMerger (F : Type) := mkBaselineMerger {
  input_plain_files : list (PlainTable F);
  abandoned_entries : list bytes;
  last_entry : bytes;
  bm_logic : FilterLogic;
  bm_bound : FilterArgs;
}.
Arguments mkBaselineMerger {F}.
Arguments input_plain_files {F}.
Arguments abandoned_entries {F}.
Arguments last_entry {F}.
Arguments bm_logic {F}.
Arguments bm_bound {F}.

Definition with_abandoned {F} (l : list bytes) (m : BaselineMerger F) : BaselineMerger F :=
  mkBaselineMerger (input_plain_files m) l (last_entry m) (bm_logic m) (bm_bound m).
Definition with_files {F} (l : list (PlainTable F)) (m : BaselineMerger F) : BaselineMerger F :=
  mkBaselineMerger l (abandoned_entries m) (last_entry m) (bm_logic m) (bm_bound m).

(** The object of a [std::string]: its characters and the terminator. *)
Definition c_object (s : bytes) : bytes := s ++ [NUL].

(** ** NextEntry *)

(** The entry slice, the table afterwards and the result. *)
Definition NextEntry {F} (table : PlainTable F) : outcome (bytes * PlainTable F * Z) :=
  let off := readed_entries table * (FULL_KEY_LENGTH + VALUE_LENGTH) in
  let object := c_object (file_content table) in
  if zlen object <? off then Fault OutOfBounds else
  let entry := drop (Z.to_nat off) object in
  let t := mkPlainTable (pt_table table) (readed_entries table + 1)
             (file_content table) (file_size table) in
  Ret (entry, t, u64 (readed_entries t * (FULL_KEY_LENGTH + VALUE_LENGTH))).

Section arbitration.
Context `{Platform}.
(** The uninitialised types of default-constructed parsed keys. *)
Context (uninit1 uninit2 : ValueType).

(** The order of two parsed keys all three comparators compute. *)
Definition compare_parsed_keys (p1_key p2_key : ParsedInternalKey) : Z :=
  let r := Slice_compare (user_key p1_key) (user_key p2_key) in
  if r =? 0 then
    if sequence p1_key >? sequence p2_key then -1
    else if sequence p1_key <? sequence p2_key then 1
    else if type p1_key >? type p2_key then -1
    else if type p1_key <? type p2_key then 1
    else r
  else r.

(** The key of an entry: [Slice(p.data(), FULL_KEY_LENGTH)], parsed. *)
Definition entry_key (p : bytes) (uninit : ValueType) : ParsedInternalKey :=
  (ParseInternalKey (take 16 p) (ParsedInternalKey_new uninit)).2.

(** [stream_merger_heap::KeyComparor]: both keys are parsed from [p1]. *)
Definition stream_KeyComparor (p1 p2 : bytes * Z) : Z :=
  compare_parsed_keys (entry_key p1.1 uninit1) (entry_key p1.1 uninit2).

(** [slice_merge_heap::KeyComparor] *)
Definition slice_KeyComparor (p1 p2 : bytes) : Z :=
  compare_parsed_keys (entry_key p1 uninit1) (entry_key p2 uninit2).

(** What [std::priority_queue] makes of it. *)
Definition entry_before (p1 p2 : bytes) : bool := negb (slice_KeyComparor p1 p2 =? 0).

(** [EncodeDeletedKey]: the string is a local, so the slice it returns
    dangles; the constructor asserts that the key packs. *)
Definition EncodeDeletedKey (deleted_key : ParsedInternalKey) (last_entry : bytes) :
    outcome slice_ref :=
  rep ← InternalKey_make (user_key deleted_key) (sequence deleted_key) kTypeDeletion;
  last_key ← InternalKey_Encode rep;
  if zlen (c_object last_entry) <? ENTRY_LENGTH then Fault OutOfBounds else
  let last_key := last_key ++ take 10 (drop 16 (c_object last_entry)) in
  Ret (Dangling last_key).

(** [BaselineMerger::Arbitration]: the action, [result_buffer] and the merger
    afterwards.  [current_size] is the size of the slice [current_entry]. *)
Definition Arbitration {F} (m : BaselineMerger F) (current_entry : bytes) (current_size : Z)
    (result_buffer : slice_ref) : outcome (ArbitrationAction * slice_ref * BaselineMerger F) :=
  if (current_size =? 0) || (zlen (last_entry m) =? 0) then Ret (kAcceptEntry, result_buffer, m)
  else
  if (zlen (c_object (last_entry m)) <? 16) || (zlen current_entry <? 16)
  then Fault OutOfBounds else
  let last := entry_key (c_object (last_entry m)) uninit1 in
  let current := entry_key current_entry uninit2 in
  let delete_last :=
    let m := with_abandoned (abandoned_entries m ++ [last_entry m]) m in
    r ← EncodeDeletedKey last (last_entry m);
    Ret (kDeleteLast, r, m) in
  let accept := Ret (kAcceptEntry, Live (last_entry m), m) in
  match bm_logic m with
  | kRemoveRedundant =>
      if Slice_eqb (user_key last) (user_key current) then delete_last else accept
  | kDeletePrefix =>
      if Slice_starts_with (user_key last) (prefix (bm_bound m)) then delete_last else accept
  | kDeleteVersion =>
      if Slice_starts_with (user_key last) (prefix (bm_bound m)) then
        if Slice_eqb (user_key last) (user_key current) then
          if sequence last <? seq (bm_bound m) then delete_last else accept
        else accept
      else accept
  end.

(** ** BaselineMerger::MergeEntries *)

(** [emplace]: as soon as two entries are queued, keys are read. *)
Definition emplace (heap : list bytes) (e : bytes) : outcome (list bytes) :=
  if (length heap =? 0)%nat || forallb (λ e, 16 <=? zlen e) (e :: heap)
  then Ret (pq_push entry_before heap e) else Fault OutOfBounds.

(** The [while] over one file: every turn adds an entry, and the result of
    [NextEntry] grows by [ENTRY_LENGTH]. *)
Fixpoint entry_loop {F} (fuel : nat) (readed_len : Z) (file : PlainTable F) (heap : list bytes) :
    outcome (PlainTable F * list bytes) :=
  match fuel with
  | O => Ret (file, heap)
  | S fuel =>
      if readed_len <? file_size file then
        '(temp, file, readed_len) ← NextEntry file;
        heap ← emplace heap temp;
        entry_loop fuel readed_len file heap
      else Ret (file, heap)
  end.

Definition collect_entries {F} (files : list (PlainTable F)) (heap : list bytes) :
    outcome (list (PlainTable F) * list bytes) :=
  foldM (λ '(done, heap) file,
    '(file, heap) ← entry_loop (S (Z.to_nat (file_size file))) 0 file heap;
    Ret (done ++ [file], heap)) ([], heap) files.

(** The pop loop.  [Arbitration] is handed [currenct_entry.data()], a
    [const char *]: the slice it gets is as long as [strlen] says.  The third
    component records the answers. *)
Fixpoint arbitration_loop {F} (fuel : nat) (m : BaselineMerger F) (heap : list bytes)
    (result : slice_ref) (trace : list (bytes * ArbitrationAction)) :
    outcome (BaselineMerger F * slice_ref * list (bytes * ArbitrationAction)) :=
  match fuel, heap with
  | S fuel, _ :: _ =>
      currenct_entry ← pq_top heap;
      n ← strlen currenct_entry;
      '(action, result, m) ← Arbitration m currenct_entry n result;
      heap ← pq_pop entry_before heap;
      arbitration_loop fuel m heap result (trace ++ [(currenct_entry, action)])
  | _, _ => Ret (m, result, trace)
  end.

(** The part of [MergeEntries] after the files are loaded. *)
Definition merge_loaded {F} (m : BaselineMerger F) :
    outcome (BaselineMerger F * list (bytes * ArbitrationAction)) :=
  '(files, merger) ← collect_entries (input_plain_files m) [];
  let m := with_files files m in
  '(m, result, trace) ← arbitration_loop (length merger) m merger (Live []) [];
  Ret (m, trace).

Definition FILE_BUFFER : Z := 512 * 1024 * 1024.

(** Loading a file, and the two [std::reverse] calls.  [uninit] is the memory
    of the read buffer. *)
Definition load_file {F} `{Posix F} (uninit : bytes) (file : PlainTable F) :
    outcome (PlainTable F) :=
  '(t, content, size) ← ReadFromDisk (pt_table file) uninit FILE_BUFFER;
  Ret (mkPlainTable t (readed_entries file) (reverse (reverse content)) size).

(** [MergeEntries]: the result is always 0.  The third component records the
    answers of [Arbitration]. *)
Definition Baseline_MergeEntries {F} `{Posix F} (uninit : bytes) (m : BaselineMerger F) :
    outcome (BaselineMerger F * Z * list (bytes * ArbitrationAction)) :=
  files ← foldM (λ done file, f ← load_file uninit file; Ret (done ++ [f])) [] (input_plain_files m);
  '(m, trace) ← merge_loaded (with_files files m);
  Ret (m, 0, trace).

(** The constructor: the files of the base class, opened as plain tables, and
    an object whose filter is what the memory holds. *)
Definition BaselineMerger_ctor {F} `{Posix F} (input_files : list bytes) (logic0 : FilterLogic)
    (bound0 : FilterArgs) : outcome (list (Table bytes F) * BaselineMerger F) :=
  base ← Merger_ctor input_files kPlain logic0 bound0;
  Ret (Merger.input_files base, mkBaselineMerger [] [] [] (logic_ base) (bound_ base)).

(** [GenerateFilterArgs] of the base class. *)
Definition Baseline_GenerateFilterArgs {F} (logic : FilterLogic) (args : FilterArgs)
    (m : BaselineMerger F) : BaselineMerger F :=
  mkBaselineMerger (input_plain_files m) (abandoned_entries m) (last_entry m) logic args.

(** [PrepareFiles]: every input file is a [PlainTable]. *)
Definition Baseline_PrepareFiles {F} (files : list (Table bytes F)) (m : BaselineMerger F) :
    BaselineMerger F :=
  with_files (input_plain_files m ++ ((λ t, mkPlainTable t 0 [] 0) <$> files)) m.

(** [BaselineMerger::DoCompaction]: the merger and the [uint64_t].  The function
    has no [return], so a run that gets to its end is undefined there. *)
Definition Baseline_DoCompaction {F} `{Posix F} (uninit : bytes) (files : list (Table bytes F))
    (m : BaselineMerger F) : outcome (BaselineMerger F * Z) :=
  let m := Baseline_PrepareFiles files m in
  _ ← Baseline_MergeEntries uninit m;
  Fault MissingReturn.
End arbitration.

(** [BaselineMerger::AppendOutput], which nothing calls. *)
Definition AppendOutput {F} `{Posix F} (output_file : PlainTable F) (result_block : bytes) :
    outcome (PlainTable F * Z) :=
  '(t, n) ← WriteToDisk (pt_table output_file) result_block;
  Ret (mkPlainTable t (readed_entries output_file) (file_content output_file) (file_size output_file),
       u64 n).

(** ** FPGA_Stream_Merger *)

(** [FPGA_interfaces::SendToFPGA]: the number of tables is an [int], compared as a [size_t]. *)
Definition SendToFPGA (SST_num : Z) (sst_content : list bytes) : outcome unit :=
  assert! (zlen sst_content =? u64 SST_num) ;; Ret tt.

(** The constructor computes a window from its parameter and assigns it to the
    parameter, which hides the member: the member keeps what its memory held. *)
Definition FPGA_window (file_window_size member : Z) : Z * Z :=
  let block_num := u32 (Z.quot file_window_size 8 * 1024) in
  let file_window_size := u32 (8 * 1024 * block_num) in
  (file_window_size, member).

Section fpga.
Context {F : Type} `{Posix F}.

(** The constructor: the base, and the window the object keeps. *)
Definition FPGA_ctor (input_files : list bytes) (format : TableFormat) (file_window_size member : Z)
    (logic0 : FilterLogic) (bound0 : FilterArgs) : outcome (Merger F * Z) :=
  base ← Merger_ctor input_files format logic0 bound0;
  Ret (base, (FPGA_window file_window_size member).2).

(** [MergeEntries] answers -1, as a [uint64_t]. *)
Definition FPGA_MergeEntries : Z := u64 (-1).

(** [WriteOutResult] of the baseline merger writes nothing. *)
Definition Baseline_WriteOutResult : Z := 0.

(** One turn of the loop of [DoCompaction]: the files and the buffer.  [mem]
    is the memory of the read buffers. *)
Definition read_windows (file_window_size : Z) (mem : nat → bytes) (files : list (Table bytes F)) :
    outcome (list (Table bytes F) * bytes) :=
  foldM (λ '(done, buffer) file,
    '(file, read_buffer, current_ouput) ←
      ReadFromDisk file (mem (length done)) file_window_size;
    let read_buffer := reverse (reverse read_buffer) in
    Ret (done ++ [file], buffer ++ read_buffer)) ([], []) files.

(** The loop: whether it ended within [fuel] turns, the files, and the buffers
    that were sent to the device. *)
Fixpoint fpga_loop (fuel : nat) (file_window_size : Z) (mem : nat → nat → bytes)
    (files : list (Table bytes F)) (read_bytes : Z) (sent : list bytes) :
    outcome (bool * list (Table bytes F) * list bytes) :=
  if read_bytes =? 0 then Ret (true, files, sent) else
  match fuel with
  | O => Ret (false, files, sent)
  | S fuel =>
      '(files, buffer) ← read_windows file_window_size (mem fuel) files;
      fpga_loop fuel file_window_size mem files (signed 32 (zlen buffer)) (sent ++ [buffer])
  end.

Definition FPGA_DoCompaction (fuel : nat) (file_window_size : Z) (mem : nat → nat → bytes)
    (files : list (Table bytes F)) : outcome (bool * list (Table bytes F) * list bytes) :=
  fpga_loop fuel file_window_size mem files (-1) [].
End fpga.

(** ** Lemmas *)

#[local] Arguments c_object : simpl never.

(** The entries of a file, each the memory from its first byte on: those that
    start below [file_size]. *)
Definition entry_count (file_size : Z) : nat := Z.to_nat ((file_size + 25) / 26).
Definition file_entries {F} (f : PlainTable F) : list bytes :=
  (λ i, drop (26 * i) (c_object (file_content f))) <$> List.seq 0 (entry_count (file_size f)).

(** A loaded file before the merge: its entries are inside its content. *)
Record loaded {F} (f : PlainTable F) : Prop := {
  loaded_start : readed_entries f = 0;
  loaded_size : 0 ≤ file_size f;
  loaded_content : 26 * Z.of_nat (entry_count (file_size f)) ≤ zlen (file_content f);
  loaded_bound : zlen (file_content f) < 2 ^ 31;
}.

Definition read_all {F} (f : PlainTable F) : PlainTable F :=
  mkPlainTable (pt_table f) (Z.of_nat (entry_count (file_size f))) (file_content f) (file_size f).

Lemma entry_count_spec size i :
  0 ≤ size → (26 * Z.of_nat i < size ↔ (i < entry_count size)%nat).
Proof.
  intros Hs. unfold entry_count. pose proof (Z.div_mod (size + 25) 26 ltac:(lia)).
  pose proof (Z.mod_pos_bound (size + 25) 26 ltac:(lia)). lia.
Qed.

Lemma zlen_c_object s : zlen (c_object s) = zlen s + 1.
Proof. unfold c_object. by rewrite zlen_app, zlen_single. Qed.

Lemma strlen_terminated s : NUL ∈ s → ∃ n, strlen s = Ret n.
Proof.
  induction s as [|c s IH]; intros Hs; [by apply not_elem_of_nil in Hs|]. cbn [strlen].
  destruct (Z.eqb_spec (b2z c) 0) as [Hc|Hc]; [by exists 0|].
  apply elem_of_cons in Hs as [<-|Hs]; [done|].
  destruct (IH Hs) as [n ->]. by exists (1 + n).
Qed.

Lemma drop_c_object i s : (i ≤ length s)%nat → NUL ∈ drop i (c_object s).
Proof.
  intros Hi. unfold c_object. rewrite drop_app_le by done. apply elem_of_app. right. by left.
Qed.

Section lemmas.
Context `{Platform} (u1 u2 : ValueType).

Lemma compare_parsed_keys_order p q :
  compare_parsed_keys p q = Compare_parsed SliceComparator p q.
Proof. done. Qed.

Lemma entry_key_encode p v u :
  valid_key p → zlen (user_key p) = 8 → entry_key (encode_key p ++ v) u = p.
Proof.
  intros Hp Hu. unfold entry_key. rewrite take_zlen_app.
  - by rewrite ParseInternalKey_encode.
  - rewrite zlen_encode_key. unfold InternalKeyEncodingLength. lia.
Qed.

Lemma emplace_ok heap e :
  Forall (λ e, 16 ≤ zlen e) (e :: heap) →
  emplace u1 u2 heap e = Ret (pq_push (entry_before u1 u2) heap e).
Proof.
  intros Hall. unfold emplace. replace (forallb _ _) with true; [by rewrite orb_true_r|].
  symmetry. apply forallb_forall. intros x Hx%list_elem_of_In. rewrite Forall_forall in Hall.
  apply Z.leb_le. by apply Hall.
Qed.

Lemma NextEntry_spec {F} (f : PlainTable F) i :
  readed_entries f = Z.of_nat i → 26 * Z.of_nat i ≤ zlen (file_content f) →
  zlen (file_content f) < 2 ^ 31 →
  NextEntry f = Ret (drop (26 * i) (c_object (file_content f)),
    mkPlainTable (pt_table f) (Z.of_nat (S i)) (file_content f) (file_size f),
    26 * Z.of_nat (S i)).
Proof.
  intros Hr Hi Hb. unfold NextEntry, FULL_KEY_LENGTH, KEY_CONTENT_LENGTH, KEY_SUFFIX_LENGTH, VALUE_LENGTH.
  cbn [readed_entries]. rewrite Hr, zlen_c_object.
  rewrite (proj2 (Z.ltb_ge _ _)) by lia. rewrite u64_small by lia.
  replace (Z.to_nat (Z.of_nat i * (8 + 8 + 10))) with (26 * i)%nat by lia.
  replace (Z.of_nat i + 1) with (Z.of_nat (S i)) by lia. f_equal. f_equal. lia.
Qed.

(** The loop over one file queues the entries from the [i]-th on. *)
Lemma entry_loop_spec {F} fuel i (f : PlainTable F) heap :
  let n := entry_count (file_size f) in
  readed_entries f = Z.of_nat i → 0 ≤ file_size f → 26 * Z.of_nat n ≤ zlen (file_content f) →
  zlen (file_content f) < 2 ^ 31 → Forall (λ e, 16 ≤ zlen e) heap →
  (i ≤ n)%nat → (n - i < fuel)%nat →
  entry_loop u1 u2 fuel (26 * Z.of_nat i) f heap = Ret (read_all f,
    pq_push_all (entry_before u1 u2) heap
      ((λ i, drop (26 * i) (c_object (file_content f))) <$> List.seq i (n - i))).
Proof.
  intros n. revert i f heap n. induction fuel as [|fuel IH]; intros i f heap n Hr Hs Hc Hb Hheap Hi Hf; [lia|].
  cbn [entry_loop]. destruct (Z.ltb_spec (26 * Z.of_nat i) (file_size f)) as [Hlt|Hge].
  - apply entry_count_spec in Hlt as Hin; [|done]. fold n in Hin.
    rewrite (NextEntry_spec f i) by (done || lia). cbn [mbind outcome_bind].
    set (e := drop (26 * i) (c_object (file_content f))).
    assert (16 ≤ zlen e) as He by (unfold e; rewrite zlen_drop, zlen_c_object; lia).
    rewrite emplace_ok by (by constructor). cbn [mbind outcome_bind].
    rewrite (IH (S i) (mkPlainTable (pt_table f) (Z.of_nat (S i)) (file_content f) (file_size f))
      (pq_push (entry_before u1 u2) heap e)); cbn [readed_entries file_size file_content];
      fold n; try (done || lia).
    + by replace (n - i)%nat with (S (n - S i)) by lia.
    + rewrite pq_push_perm. by constructor.
  - assert (i = n) as ->.
    { destruct (decide (i = n)); [done|]. assert (i < n)%nat as Hlt by lia.
      apply (entry_count_spec (file_size f)) in Hlt; lia. }
    rewrite Nat.sub_diag. unfold read_all. fold n. rewrite <-Hr. by destruct f.
Qed.

Lemma file_entries_long {F} (f : PlainTable F) :
  loaded f → Forall (λ e, 16 ≤ zlen e) (file_entries f).
Proof.
  intros [_ Hs Hc _]. apply Forall_forall. intros e (i & -> & Hi)%list_elem_of_fmap.
  apply elem_of_seq in Hi. rewrite zlen_drop, zlen_c_object. lia.
Qed.

Lemma collect_entries_spec {F} (files : list (PlainTable F)) done heap :
  Forall loaded files → Forall (λ e, 16 ≤ zlen e) heap →
  foldM (λ '(done, heap) file,
      '(file, heap) ← entry_loop u1 u2 (S (Z.to_nat (file_size file))) 0 file heap;
      Ret (done ++ [file], heap)) (done, heap) files =
  Ret (done ++ (read_all <$> files),
       pq_push_all (entry_before u1 u2) heap (concat (file_entries <$> files))).
Proof.
  intros Hall. revert done heap. induction Hall as [|f files Hf Hall IH]; intros done heap Hheap.
  { cbn. by rewrite app_nil_r. }
  cbn [foldM]. pose proof (entry_loop_spec (S (Z.to_nat (file_size f))) 0 f heap) as Hl.
  cbv zeta in Hl. change (26 * Z.of_nat 0) with 0 in Hl. rewrite Hl; [|by destruct Hf..|done|lia|].
  2:{ destruct Hf as [_ Hs _ _]. unfold entry_count.
    assert ((file_size f + 25) / 26 < file_size f + 1); [|lia].
    apply Z.div_lt_upper_bound; lia. }
  cbn [mbind outcome_bind]. rewrite Nat.sub_0_r. fold (file_entries f). rewrite IH.
  - cbn [concat fmap list_fmap]. unfold pq_push_all. by rewrite foldl_app, <-app_assoc.
  - rewrite pq_push_all_perm. apply Forall_app. by split; [apply file_entries_long|].
Qed.

(** With no last entry every entry is popped, accepted, and nothing changes. *)
Lemma arbitration_loop_accepts {F} fuel (m : BaselineMerger F) heap result trace :
  last_entry m = [] → Forall (λ e, NUL ∈ e) heap → (length heap ≤ fuel)%nat →
  ∃ popped, popped ≡ₚ heap ∧ pq_drain (entry_before u1 u2) fuel heap = Ret popped ∧
    arbitration_loop u1 u2 fuel m heap result trace =
    Ret (m, result, trace ++ ((λ e, (e, kAcceptEntry)) <$> popped)).
Proof.
  intros Hl. revert heap trace. induction fuel as [|fuel IH]; intros [|e heap] trace Hnul Hlen;
    try (exists []; cbn; by rewrite app_nil_r); [simpl in Hlen; lia|].
  cbn [arbitration_loop pq_drain pq_top mbind outcome_bind]. inversion Hnul as [|?? He Hheap]; subst.
  destruct (strlen_terminated e He) as [n ->]. cbn [mbind outcome_bind].
  unfold Arbitration. rewrite Hl, orb_true_r. cbn [mbind outcome_bind].
  destruct (pq_pop_perm (entry_before u1 u2) e heap) as (h & -> & Hp). cbn [mbind outcome_bind].
  destruct (IH h (trace ++ [(e, kAcceptEntry)])) as (popped & Hpp & Hd & ->).
  - by rewrite Hp. - rewrite (Permutation_length Hp). simpl in Hlen. lia.
  - exists (e :: popped). rewrite Hd. split; [by rewrite Hpp, Hp|]. by rewrite <-app_assoc.
Qed.

Lemma file_entries_terminated {F} (f : PlainTable F) :
  loaded f → Forall (λ e, NUL ∈ e) (file_entries f).
Proof.
  intros [_ Hs Hc _]. apply Forall_forall. intros e (i & -> & Hi)%list_elem_of_fmap.
  apply elem_of_seq in Hi. apply drop_c_object. unfold zlen in Hc. lia.
Qed.

Lemma all_entries_terminated {F} (files : list (PlainTable F)) :
  Forall loaded files → Forall (λ e, NUL ∈ e) (concat (file_entries <$> files)).
Proof.
  intros Hall. apply Forall_concat, Forall_fmap. eapply Forall_impl; [exact Hall|].
  intros f Hf. by apply file_entries_terminated.
Qed.
End lemmas.

(** Entries with valid keys that are pairwise different. *)
Definition keys_apart (entries : list bytes) : Prop :=
  ∃ ps, NoDup ps ∧
    Forall2 (λ e p, valid_key p ∧ zlen (user_key p) = 8 ∧ encode_key p `prefix_of` e) entries ps.

(** [popped] is [entries] in the order of the queue for this number of them. *)
Definition in_queue_order (entries popped : list bytes) : Prop :=
  Forall2 (λ i e, entries !! i = Some e) (queue_order (length entries)) popped.

Lemma in_queue_order_fmap f entries popped :
  in_queue_order entries popped → in_queue_order (f <$> entries) (f <$> popped).
Proof.
  unfold in_queue_order. rewrite length_fmap. intros Hall. apply Forall2_fmap_r.
  eapply Forall2_impl; [exact Hall|]. cbn. intros i e He. by rewrite list_lookup_fmap, He.
Qed.

Lemma entry_before_valid `{Platform} u1 u2 p q v w :
  valid_key p → zlen (user_key p) = 8 → valid_key q → zlen (user_key q) = 8 →
  entry_before u1 u2 (encode_key p ++ v) (encode_key q ++ w) = negb (bool_decide (p = q)).
Proof.
  intros Hp Hpu Hq Hqu. unfold entry_before, slice_KeyComparor. rewrite !entry_key_encode by done.
  rewrite compare_parsed_keys_order, <-(comes_before_valid u1 u2 p q None None) by done.
  unfold comes_before. by rewrite KeyComparor_valid.
Qed.

(** After loading, every entry is popped and accepted. *)
Lemma merge_loaded_spec `{Platform} u1 u2 {F} (m : BaselineMerger F) :
  let entries := concat (file_entries <$> input_plain_files m) in
  last_entry m = [] → Forall loaded (input_plain_files m) →
  ∃ popped, popped ≡ₚ entries ∧ (keys_apart entries → in_queue_order entries popped) ∧
    merge_loaded u1 u2 m =
    Ret (with_files (read_all <$> input_plain_files m) m, (λ e, (e, kAcceptEntry)) <$> popped).
Proof.
  intros entries Hl Hall. pose proof (all_entries_terminated _ Hall) as Hnul. fold entries in Hnul.
  set (heap := pq_push_all (entry_before u1 u2) [] entries).
  assert (heap ≡ₚ entries) as Hheap by (unfold heap; by rewrite pq_push_all_perm, app_nil_r).
  destruct (arbitration_loop_accepts u1 u2 (length heap)
    (with_files (read_all <$> input_plain_files m) m) heap (Live []) [] Hl) as (popped & Hp & Hd & Hrun);
    [by rewrite Hheap|done|].
  exists popped. split; [by rewrite Hp|]. split.
  - intros (ps & Hnd & Hps). rewrite (Permutation_length Hheap) in Hd.
    destruct (pq_drain_positions (entry_before u1 u2) entries) as (ys & Hys & Hpos);
      [|unfold in_queue_order; subst heap; congruence].
    intros i j x y Hx Hy.
    destruct (Forall2_lookup_l _ _ _ _ _ Hps Hx) as (p & Hpi & Hpv & Hpu & v & ->).
    destruct (Forall2_lookup_l _ _ _ _ _ Hps Hy) as (q & Hqj & Hqv & Hqu & w & ->).
    rewrite entry_before_valid by done. f_equal. apply eq_bool_prop_intro.
    rewrite !Is_true_true, bool_decide_eq_true, Nat.eqb_eq.
    split; [intros ->; by eapply NoDup_lookup|intros ->; congruence].
  - unfold merge_loaded, collect_entries. rewrite collect_entries_spec by done.
    cbn [mbind outcome_bind]. rewrite app_nil_l. fold entries heap. by rewrite Hrun.
Qed.

(** Slicing a string of equally long entries gives the entries. *)
Lemma slices_concat (ll : list bytes) (n : nat) rest :
  Forall (λ l, length l = n) ll →
  (λ i, take n (drop (n * i) (concat ll ++ rest))) <$> List.seq 0 (length ll) = ll.
Proof.
  intros Hall. apply list_eq. intros i. rewrite list_lookup_fmap.
  destruct (ll !! i) as [x|] eqn:Hi.
  - pose proof (lookup_lt_Some _ _ _ Hi) as Hlt.
    rewrite lookup_seq_lt by done. cbn. f_equal.
    assert (length (concat ll) = n * length ll)%nat as Hlen.
    { clear -Hall. induction Hall as [|l ll Hl _ IH]; cbn; [lia|].
      rewrite length_app, Hl, IH. lia. }
    rewrite drop_app_le, take_app_le by (rewrite ?length_drop, ?Hlen; nia).
    rewrite Nat.mul_comm. by apply take_drop_concat.
  - by rewrite lookup_ge_None_2 by (rewrite length_seq; by apply lookup_ge_None).
Qed.

(** The file of a plain table: its 26-byte entries in order. *)
Lemma plain_data {F} (t : Table bytes F) data :
  entries_ok (key_list t) (value_list t) → PlainTable_ToDiskFormat t [] = Ret (data, 0) →
  Forall (λ l, length l = 26%nat) (zip_with app (key_list t) (value_list t)) ∧
  length (zip_with app (key_list t) (value_list t)) = length (key_list t) ∧
  data = concat (zip_with app (key_list t) (value_list t)).
Proof.
  intros [Hk Hv Hl] Hdisk. split; [|split].
  - apply Forall_lookup. intros i x (a & b & -> & Ha & Hb)%lookup_zip_with_Some.
    rewrite Forall_lookup in Hk, Hv. specialize (Hk _ _ Ha). specialize (Hv _ _ Hb).
    rewrite length_app. unfold zlen, FULL_KEY_LENGTH, KEY_CONTENT_LENGTH, KEY_SUFFIX_LENGTH,
      VALUE_LENGTH in *. lia.
  - rewrite length_zip_with. lia.
  - unfold PlainTable_ToDiskFormat in Hdisk. rewrite zip_entries in Hdisk by lia.
    cbn [mbind outcome_bind] in Hdisk. rewrite take_ge in Hdisk by (rewrite length_zip_with; lia).
    by injection Hdisk as <-.
Qed.

(** *** The streaming loop *)

(** The next [n] reads of [window] bytes all deliver what the file has left, up
    to [window] bytes. *)
Fixpoint delivers {F} `{PosixLaws F} (window : Z) (n : nat) (f : F) : Prop :=
  match n with
  | O => True
  | S n => ∃ f', sys_read f window =
      (f', Some (take (Z.to_nat window) (drop (fd_offset f) (fd_content f)))) ∧ delivers window n f'
  end.

Section fpga_lemmas.
Context {F : Type} `{PosixLaws F} (window : Z).
Implicit Types t : Table bytes F.

(** Window [i] of a file; the last ones are short or empty. *)
Definition window_of (i : nat) (t : Table bytes F) : bytes :=
  take (Z.to_nat window) (drop (i * Z.to_nat window) (fd_content (target_fd t))).

(** A file whose next window is [i], and which delivers [n] of them. *)
Record at_window (i n : nat) (t : Table bytes F) : Prop := {
  aw_offset : fd_offset (target_fd t) =
    Nat.min (i * Z.to_nat window) (length (fd_content (target_fd t)));
  aw_delivers : delivers window n (target_fd t);
}.

(** The piece of the buffer for one file. *)
Definition shows_window (i : nat) (t : Table bytes F) (c : bytes) : Prop :=
  zlen c = window ∧ take (length (window_of i t)) c = window_of i t.

Section turn.
Context (mem : nat → bytes).
Hypothesis mem_ok : ∀ i, zlen (mem i) = window.

(** A read fails, or its string is as long as the window. *)
Lemma read_window_size t k :
  ReadFromDisk t (mem k) window = Fault AssertionFailed ∨
  ∃ t' c n, ReadFromDisk t (mem k) window = Ret (t', c, n) ∧ zlen c = window.
Proof.
  unfold ReadFromDisk. destruct (sys_read _ _) as [fd [bs|]] eqn:Hr; [right|by left].
  destruct (read_bytes _ _ _ _ Hr) as (Hle & _). eexists _, _, _. split; [reflexivity|].
  rewrite zlen_app, zlen_drop, mem_ok. unfold zlen in *. lia.
Qed.

Lemma read_window i n t k :
  at_window i (S n) t →
  ∃ t' c m, ReadFromDisk t (mem k) window = Ret (t', c, m) ∧ shows_window i t c ∧
    fd_content (target_fd t') = fd_content (target_fd t) ∧ at_window (S i) n t'.
Proof.
  intros [Ho (fd & Hr & Hd)]. destruct (read_bytes _ _ _ _ Hr) as (Hle & _ & Hoff & Hc).
  assert (take (Z.to_nat window) (drop (fd_offset (target_fd t)) (fd_content (target_fd t))) = window_of i t) as E.
  { unfold window_of. rewrite Ho. destruct (Nat.min_spec (i * Z.to_nat window) (length (fd_content (target_fd t))))
      as [[_ ->]|[? ->]]; [done|]. by rewrite !drop_ge by lia. }
  rewrite E in *. unfold ReadFromDisk. rewrite Hr. eexists _, _, _. split; [reflexivity|].
  split; [split|split].
  - rewrite zlen_app, zlen_drop, mem_ok. unfold zlen in *. lia.
  - apply take_app_length.
  - done.
  - split; [|done]. unfold with_fd. cbn [target_fd]. rewrite Hoff, Hc, Ho. unfold window_of.
    rewrite length_take, length_drop. lia.
Qed.

(** One turn of [read_windows], from any point of it on. *)
Notation turn := (foldM (λ '(done, buffer) (file : Table bytes F),
  '(file, read_buffer, current_ouput) ← ReadFromDisk file (mem (length done)) window;
  let read_buffer := reverse (reverse read_buffer) in
  Ret (done ++ [file], buffer ++ read_buffer))).

Lemma turn_size files done buffer :
  turn (done, buffer) files = Fault AssertionFailed ∨
  ∃ files' b, turn (done, buffer) files = Ret (done ++ files', buffer ++ b) ∧
    zlen b = window * zlen files ∧ length files' = length files.
Proof.
  revert done buffer. induction files as [|t files IH]; intros done buffer; cbn [foldM].
  { right. exists [], []. rewrite !app_nil_r. split; [done|]. split; [unfold zlen; cbn; lia|done]. }
  destruct (read_window_size t (length done)) as [->|(t' & c & n & -> & Hc)]; [by left|].
  cbn [mbind outcome_bind]. rewrite reverse_involutive.
  destruct (IH (done ++ [t']) (buffer ++ c)) as [Hf|(fs & b & Hrun & Hb & Hl)]; [by left|right].
  exists (t' :: fs), (c ++ b). split; [etrans; [exact Hrun|by rewrite <-!app_assoc]|].
  rewrite zlen_app, zlen_cons, Hc, Hb. split; [lia|simpl; by rewrite Hl].
Qed.

Lemma turn_write_only files done buffer :
  Exists (λ t, fd_flags (target_fd t) = O_CREAT_WRONLY) files →
  turn (done, buffer) files = Fault AssertionFailed.
Proof.
  intros Hex. revert done buffer. induction Hex as [t files Ht|t files Hex IH]; intros done buffer; cbn [foldM].
  - unfold ReadFromDisk. pose proof (read_write_only (target_fd t) window Ht) as Hr.
    destruct (sys_read _ _) as [? ?]. cbn in Hr. by rewrite Hr.
  - destruct (read_window_size t (length done)) as [->|(t' & c & n & -> & Hc)]; [done|apply IH].
Qed.

Lemma turn_windows i n files done buffer :
  Forall (at_window i (S n)) files →
  ∃ files' chunks, turn (done, buffer) files = Ret (done ++ files', buffer ++ concat chunks) ∧
    Forall2 (shows_window i) files chunks ∧
    Forall2 (λ t t', fd_content (target_fd t') = fd_content (target_fd t) ∧ at_window (S i) n t') files files'.
Proof.
  intros Hall. revert done buffer. induction Hall as [|t files Ht Hall IH]; intros done buffer.
  { exists [], []. rewrite !app_nil_r. by repeat constructor. }
  cbn [foldM]. destruct (read_window i n t (length done) Ht) as (t' & c & m & -> & Hc & Hcont & Ht').
  cbn [mbind outcome_bind]. rewrite reverse_involutive.
  destruct (IH (done ++ [t']) (buffer ++ c)) as (fs & chunks & Hrun & Hch & Hfs).
  exists (t' :: fs), (c :: chunks). cbn [concat].
  split; [etrans; [exact Hrun|by rewrite <-!app_assoc]|]. split; by constructor.
Qed.
End turn.

(** Where the window of a file is in the buffer. *)
Lemma buffer_window i files chunks j t :
  Forall2 (shows_window i) files chunks → files !! j = Some t →
  take (length (window_of i t)) (drop (j * Z.to_nat window) (concat chunks)) = window_of i t.
Proof.
  intros Hall Hj. destruct (Forall2_lookup_l _ _ _ _ _ Hall Hj) as (c & Hc & Hz & Hshow).
  assert (Forall (λ c, length c = Z.to_nat window) chunks) as Hlen.
  { apply Forall_lookup. intros k x Hx. destruct (Forall2_lookup_r _ _ _ _ _ Hall Hx) as (y & _ & Hy & _).
    unfold zlen in Hy. lia. }
  assert (length (window_of i t) ≤ Z.to_nat window)%nat as Hle by (unfold window_of; rewrite length_take; lia).
  rewrite <-Hshow at 2. rewrite <-(take_drop_concat (Z.to_nat window) chunks j c Hlen Hc), take_take.
  by rewrite Nat.min_l by done.
Qed.

Lemma window_of_content i t t' : fd_content (target_fd t') = fd_content (target_fd t) → window_of i t' = window_of i t.
Proof. intros E. unfold window_of. by rewrite E. Qed.

Lemma signed_32_zero z : signed 32 z = 0 ↔ z mod 2 ^ 32 = 0.
Proof. unfold signed. pose proof (Z.mod_pos_bound z (2 ^ 32) ltac:(lia)). zbool; lia. Qed.

Section loop.
Context (mem : nat → nat → bytes).
Hypothesis mem_ok : ∀ i j, zlen (mem i j) = window.

(** Every turn sends a buffer of the same size, unless a read fails. *)
Lemma fpga_loop_sizes fuel files r sent :
  window * zlen files mod 2 ^ 32 ≠ 0 → r ≠ 0 →
  fpga_loop fuel window mem files r sent = Fault AssertionFailed ∨
  ∃ files' new, fpga_loop fuel window mem files r sent = Ret (false, files', sent ++ new) ∧
    length new = fuel ∧ Forall (λ b, zlen b = window * zlen files) new.
Proof.
  intros Htotal. revert files r sent Htotal. induction fuel as [|fuel IH]; intros files r sent Htotal Hr;
    cbn [fpga_loop]; rewrite (proj2 (Z.eqb_neq _ _)) by done.
  { right. exists files, []. by rewrite app_nil_r. }
  destruct (turn_size (mem fuel) (mem_ok fuel) files [] []) as [Hf|(fs & b & Hrun & Hb & Hl)].
  { left. assert (read_windows window (mem fuel) files = Fault AssertionFailed) as -> by exact Hf. done. }
  assert (read_windows window (mem fuel) files = Ret (fs, b)) as -> by exact Hrun.
  cbn [mbind outcome_bind]. assert (zlen fs = zlen files) as Hz by (unfold zlen; by rewrite Hl).
  destruct (IH fs (signed 32 (zlen b)) (sent ++ [b])) as [Hf|(fs' & new & Hrun' & Hn & Hall)];
    [by rewrite Hz|by rewrite signed_32_zero, Hb|by left|right].
  exists fs', (b :: new). split; [by rewrite Hrun', <-app_assoc|]. split; [simpl; lia|].
  rewrite Hz in Hall. by constructor.
Qed.

(** [i] turns on, from the files [files0] of the start. *)
Lemma fpga_loop_windows fuel : ∀ i (files0 files : list (Table bytes F)) r sent,
  Forall (at_window i fuel) files →
  Forall2 (λ t t', fd_content (target_fd t') = fd_content (target_fd t)) files0 files →
  window * zlen files mod 2 ^ 32 ≠ 0 → r ≠ 0 →
  ∃ files' new, fpga_loop fuel window mem files r sent = Ret (false, files', sent ++ new) ∧
    length new = fuel ∧
    ∀ k b j t, new !! k = Some b → files0 !! j = Some t →
      take (length (window_of (i + k) t)) (drop (j * Z.to_nat window) b) = window_of (i + k) t.
Proof.
  induction fuel as [|fuel IH]; intros i files0 files r sent Hfiles Hcont Htotal Hr;
    cbn [fpga_loop]; rewrite (proj2 (Z.eqb_neq _ _)) by done.
  { exists files, []. by rewrite app_nil_r. }
  destruct (turn_windows (mem fuel) (mem_ok fuel) i fuel files [] [] Hfiles)
    as (files' & chunks & Hrun & Hchunks & Hnext).
  assert (read_windows window (mem fuel) files = Ret (files', concat chunks)) as -> by exact Hrun.
  cbn [mbind outcome_bind].
  assert (zlen files' = zlen files) as Hzf by (unfold zlen; by rewrite (Forall2_length _ _ _ Hnext)).
  assert (zlen (concat chunks) = window * zlen files) as Hz.
  { rewrite (zlen_concat_const window); [unfold zlen; by rewrite (Forall2_length _ _ _ Hchunks)|].
    apply Forall_lookup. intros k x Hx. by destruct (Forall2_lookup_r _ _ _ _ _ Hchunks Hx) as (y & _ & Hy & _). }
  destruct (IH (S i) files0 files' (signed 32 (zlen (concat chunks))) (sent ++ [concat chunks]))
    as (files2 & new & Hrun2 & Hlen & Hnew).
  - apply Forall_lookup. intros k x Hx. by destruct (Forall2_lookup_r _ _ _ _ _ Hnext Hx) as (y & _ & _ & Hy).
  - clear -Hcont Hnext. revert files' Hnext.
    induction Hcont as [|t t1 l l1 E _ IH']; intros l2 Hn; inversion Hn as [|? t2 ? ? [E2 _] Hn']; subst;
      constructor; [congruence|by apply IH'].
  - by rewrite Hzf.
  - by rewrite signed_32_zero, Hz.
  - exists files2, (concat chunks :: new). split; [by rewrite Hrun2, <-app_assoc|].
    split; [simpl; lia|]. intros [|k] b j t Hb Hj; cbn in Hb.
    + injection Hb as <-. rewrite Nat.add_0_r.
      destruct (Forall2_lookup_l _ _ _ _ _ Hcont Hj) as (t' & Hj' & Ht').
      rewrite <-(window_of_content i t t' Ht'). by eapply buffer_window.
    + rewrite <-Nat.add_succ_comm. by apply (Hnew k).
Qed.
End loop.
End fpga_lemmas.

(** ** Properties *)

(** On entries with valid internal keys of eight-byte user keys, the
    comparator of the slice heap computes the order of internal keys and is
    read as "different", for any two different keys in both directions; the
    comparator of the stream heap parses its first argument twice, and answers
    0 for any two entries. *)
Lemma stream_comparators `{Platform} u1 u2 p q v w e fid fid' :
  valid_key p → valid_key q → zlen (user_key p) = 8 → zlen (user_key q) = 8 → 16 ≤ zlen e →
  slice_KeyComparor u1 u2 (encode_key p ++ v) (encode_key q ++ w) =
    Compare_parsed SliceComparator p q ∧
  (entry_before u1 u2 (encode_key p ++ v) (encode_key q ++ w) = true ↔ p ≠ q) ∧
  (entry_before u1 u2 (encode_key q ++ w) (encode_key p ++ v) = true ↔ p ≠ q) ∧
  stream_KeyComparor u1 u2 (e, fid) (encode_key p ++ v, fid') = 0.
Proof.
  intros Hp Hq Hpu Hqu He.
  unfold entry_before, slice_KeyComparor. rewrite !entry_key_encode by done.
  rewrite !(compare_parsed_keys_order p q), !(compare_parsed_keys_order q p).
  pose proof (comes_before_valid u1 u2 p q None None Hp Hq) as Hpq.
  pose proof (comes_before_valid u1 u2 q p None None Hq Hp) as Hqp.
  unfold comes_before in Hpq, Hqp. rewrite !KeyComparor_valid in Hpq, Hqp by done.
  rewrite Hpq, Hqp, !negb_true_iff, !bool_decide_eq_false.
  split; [done|]. split; [done|]. split; [split; congruence|].
  unfold stream_KeyComparor, entry_key. cbn [fst].
  rewrite !ParseInternalKey_long by (rewrite zlen_take; lia). cbn [snd].
  unfold compare_parsed_keys. cbn [user_key sequence type].
  rewrite Slice_compare_lex, (proj2 (lex_compare_eq _ _)) by done. cbn.
  by rewrite !Z.gtb_ltb, !Z.ltb_irrefl.
Qed.

Lemma stream_comparators_witness :
  let p := mkParsedInternalKey (replicate 8 (z2b 97)) 1 kTypeValue in
  valid_key p ∧ zlen (user_key p) = 8 ∧ 16 ≤ zlen (replicate 26 NUL) ∧
  stream_KeyComparor (H:=LittleEndianHost) 0 0 (replicate 26 NUL, 0) (encode_key p, 1) = 0.
Proof.
  cbv zeta. set (p := mkParsedInternalKey (replicate 8 (z2b 97)) 1 kTypeValue).
  assert (valid_key p) as Hp by by_decide.
  assert (zlen (user_key p) = 8) as Hu by reflexivity.
  assert (16 ≤ zlen (replicate 26 NUL)) as He by (vm_compute; discriminate).
  split; [exact Hp|]. split; [exact Hu|]. split; [exact He|].
  apply (stream_comparators (H:=LittleEndianHost) 0 0 p p [] [] (replicate 26 NUL) 0 1 Hp Hp Hu Hu He).
Defined.

(** C30: [Arbitration] on every branch.  The last entry is dropped when the
    filter says so (same user key; prefix; prefix, same user key and an older
    sequence number than the bound): it is recorded as abandoned, and the
    result is the 26 bytes of its deletion, in a slice to a string that no
    longer exists, so that reading it is a fault.  Otherwise the last entry is
    the result and nothing is recorded. *)
Theorem arbitration_branches `{Platform} u1 u2 {F} (m : BaselineMerger F) p v q rest n buf :
  valid_key p → zlen (user_key p) = 8 → zlen v = 10 → last_entry m = encode_key p ++ v →
  valid_key q → zlen (user_key q) = 8 → n ≠ 0 →
  let deletion := encode_key (mkParsedInternalKey (user_key p) (sequence p) kTypeDeletion) ++ v in
  let in_prefix := prefix (bm_bound m) `prefix_of` user_key p in
  let drops := match bm_logic m with
    | kRemoveRedundant => user_key p = user_key q
    | kDeletePrefix => in_prefix
    | kDeleteVersion => in_prefix ∧ user_key p = user_key q ∧ sequence p < seq (bm_bound m)
    end in
  (drops → Arbitration u1 u2 m (encode_key q ++ rest) n buf =
     Ret (kDeleteLast, Dangling deletion, with_abandoned (abandoned_entries m ++ [last_entry m]) m)) ∧
  (¬ drops → Arbitration u1 u2 m (encode_key q ++ rest) n buf =
     Ret (kAcceptEntry, Live (last_entry m), m)) ∧
  zlen deletion = 26 ∧ slice_bytes (Dangling deletion) = Fault UseAfterFree.
Proof.
  intros Hp Hpu Hv Hlast Hq Hqu Hn deletion in_prefix drops.
  assert (∀ p', zlen (user_key p') = 8 → zlen (encode_key p') = 16) as Hlen.
  { intros p' Hp'. rewrite zlen_encode_key. unfold InternalKeyEncodingLength. lia. }
  pose proof (Hlen _ Hpu) as Hlp. pose proof (Hlen _ Hqu) as Hlq.
  pose proof (zlen_nonneg rest).
  assert (zlen (last_entry m) = 26) as Hl26 by (rewrite Hlast, zlen_app; lia).
  set (pd := mkParsedInternalKey (user_key p) (sequence p) kTypeDeletion) in *.
  assert (valid_key pd) as Hpd by (unfold valid_key in *; cbn; by intuition).
  assert (EncodeDeletedKey p (last_entry m) = Ret (Dangling deletion)) as Henc.
  { unfold EncodeDeletedKey, InternalKey_make. fold pd.
    rewrite AppendInternalKey_valid by done. rewrite app_nil_l. cbn [mbind outcome_bind].
    unfold InternalKey_Encode. rewrite (proj2 (Z.eqb_neq _ _)) by (rewrite Hlen; [lia|done]).
    cbn [negb assert_that mbind outcome_bind].
    rewrite zlen_c_object, Hl26. change (26 + 1 <? ENTRY_LENGTH) with false. cbn iota.
    unfold c_object. rewrite Hlast, <-app_assoc, drop_zlen_app, take_zlen_app by done. done. }
  assert (zlen deletion = 26) as Hd by (unfold deletion; rewrite zlen_app, Hlen by done; lia).
  unfold Arbitration. rewrite (proj2 (Z.eqb_neq n 0)), (proj2 (Z.eqb_neq (zlen (last_entry m)) 0)) by lia.
  rewrite zlen_c_object, Hl26, zlen_app, Hlq.
  rewrite (proj2 (Z.ltb_ge _ _)), (proj2 (Z.ltb_ge _ _)) by lia. cbn [orb].
  assert (entry_key (c_object (last_entry m)) u1 = p) as Hkp.
  { unfold c_object. rewrite Hlast, <-app_assoc. by apply entry_key_encode. }
  rewrite Hkp, (entry_key_encode q) by done. cbv zeta.
  cbn [last_entry with_abandoned]. rewrite Henc. cbn [mbind outcome_bind].
  split; [|split; [|done]]; unfold drops, in_prefix; destruct (bm_logic m); intros Hdrop;
    rewrite <-?Slice_starts_with_spec, <-?Slice_eqb_eq, <-?Z.ltb_lt in Hdrop.
  all: repeat match goal with
    | |- context [if ?b then _ else _] => destruct b
    end; done || (exfalso; intuition discriminate).
Qed.

Lemma arbitration_branches_witness :
  let p := mkParsedInternalKey (replicate 8 (z2b 97)) 1 kTypeValue in
  let v := replicate 10 (z2b 118) in
  let m : BaselineMerger unit :=
    mkBaselineMerger [] [] (encode_key p ++ v) kRemoveRedundant (mkFilterArgs 0 []) in
  valid_key p ∧ zlen (user_key p) = 8 ∧ zlen v = 10 ∧
  ∃ d, Arbitration (H:=LittleEndianHost) 0 0 m (encode_key p) 1 (Live []) =
    Ret (kDeleteLast, Dangling d, with_abandoned [encode_key p ++ v] m) ∧ zlen d = 26.
Proof.
  cbv zeta. set (p := mkParsedInternalKey (replicate 8 (z2b 97)) 1 kTypeValue).
  set (v := replicate 10 (z2b 118)).
  assert (valid_key p) as Hp by by_decide.
  assert (zlen (user_key p) = 8) as Hu by reflexivity.
  assert (zlen v = 10) as Hv by reflexivity.
  split; [exact Hp|]. split; [exact Hu|]. split; [exact Hv|].
  destruct (arbitration_branches (H:=LittleEndianHost) 0 0 (F:=unit)
    (mkBaselineMerger [] [] (encode_key p ++ v) kRemoveRedundant (mkFilterArgs 0 []))
    p v p [] 1 (Live []) Hp Hu Hv eq_refl Hp Hu ltac:(discriminate)) as (Hd & _ & Hz & _).
  rewrite app_nil_r in Hd. eexists. split; [exact (Hd eq_refl)|exact Hz].
Defined.

(** C13: After loading, [MergeEntries] terminates normally and pops every 26-byte
    entry of every file exactly once; but the last entry is never set, so every
    answer of [Arbitration] is to accept, nothing is abandoned, and the merger
    is as before but for the read positions: no result is kept or written.  When
    the keys are different, the order of the pops is the fixed order of their
    places in the files, whatever the keys are: nothing is sorted. *)
Theorem merge_pops_every_entry `{Platform} u1 u2 {F} (m : BaselineMerger F) :
  let entries := concat (file_entries <$> input_plain_files m) in
  last_entry m = [] → Forall loaded (input_plain_files m) →
  ∃ popped, popped ≡ₚ entries ∧
    (keys_apart entries → Forall2 (λ i e, entries !! i = Some e) (queue_order (length entries)) popped) ∧
    merge_loaded u1 u2 m =
    Ret (with_files (read_all <$> input_plain_files m) m, (λ e, (e, kAcceptEntry)) <$> popped).
Proof. apply merge_loaded_spec. Qed.

(** Four entries with ascending keys: the last one comes first. *)
Lemma merge_pops_every_entry_witness :
  let key b := mkParsedInternalKey (replicate 8 (z2b b)) 1 kTypeValue in
  let entry b := encode_key (key b) ++ replicate 10 (z2b b) in
  let f : PlainTable unit := mkPlainTable (mkTable [] [] tt [] 0) 0 (entry 65 ++ entry 66 ++ entry 67 ++ entry 68) 104 in
  let m := mkBaselineMerger [f] [] [] kRemoveRedundant (mkFilterArgs 0 []) in
  loaded f ∧ ∃ popped, take 26 <$> popped = [entry 68; entry 65; entry 66; entry 67] ∧
    merge_loaded (H:=LittleEndianHost) 0 0 m =
      Ret (with_files [read_all f] m, (λ e, (e, kAcceptEntry)) <$> popped).
Proof.
  cbv zeta. set (key b := mkParsedInternalKey (replicate 8 (z2b b)) 1 kTypeValue).
  set (entry b := encode_key (key b) ++ replicate 10 (z2b b)).
  set (f := mkPlainTable (mkTable [] [] tt [] 0) 0 (entry 65 ++ entry 66 ++ entry 67 ++ entry 68) 104
    : PlainTable unit).
  assert (loaded f) as Hf by (split; vm_compute; congruence).
  split; [exact Hf|].
  destruct (merge_pops_every_entry (H:=LittleEndianHost) 0 0 (F:=unit)
    (mkBaselineMerger [f] [] [] kRemoveRedundant (mkFilterArgs 0 [])) eq_refl)
    as (popped & Hp & Hpos & Hrun); [constructor; [exact Hf|constructor]|].
  exists popped. split; [|exact Hrun]. cbn [input_plain_files fmap list_fmap concat] in Hpos.
  rewrite app_nil_r in Hpos. change (length (file_entries f)) with 4%nat in Hpos.
  change (queue_order 4) with [3; 0; 1; 2]%nat in Hpos.
  assert (keys_apart (file_entries f)) as Hapart.
  { exists [key 65; key 66; key 67; key 68]. split; [by_decide|].
    repeat (constructor; [split; [by_decide|split; [reflexivity|eexists; vm_compute; reflexivity]]|]).
    constructor. }
  rewrite (Forall2_places [] _ _ _ (Hpos Hapart)). vm_compute. reflexivity.
Defined.

(** What [PlainTable::ToDiskFormat] wrote is what the merge reads: of a file
    that starts with it and reports its size, the loop over [NextEntry] queues
    one entry per key, and the 26 bytes of entry [i] are key [i] and value [i]. *)
Theorem plain_file_roundtrip `{Platform} u1 u2 {F} (t : Table bytes F) (f : PlainTable F) data rest :
  entries_ok (key_list t) (value_list t) → zlen (key_list t) < 2 ^ 20 → zlen rest < 2 ^ 30 →
  PlainTable_ToDiskFormat t [] = Ret (data, 0) →
  readed_entries f = 0 → file_content f = data ++ rest → file_size f = zlen data →
  ∃ heap, entry_loop u1 u2 (S (Z.to_nat (file_size f))) 0 f [] =
      Ret (mkPlainTable (pt_table f) (zlen (key_list t)) (file_content f) (file_size f), heap) ∧
    (take 26 <$> heap) ≡ₚ zip_with app (key_list t) (value_list t).
Proof.
  intros Hok Hn Hrest Hdisk Hr Hc Hs. destruct (plain_data t data Hok Hdisk) as (Hents & Hlen & ->).
  set (ents := zip_with app (key_list t) (value_list t)) in *.
  assert (zlen (concat ents) = 26 * zlen (key_list t)) as Hz.
  { rewrite (zlen_concat_const 26); [unfold zlen; by rewrite Hlen|].
    eapply Forall_impl; [exact Hents|]. unfold zlen. simpl. intros. lia. }
  assert (entry_count (file_size f) = length (key_list t)) as Hcount.
  { rewrite Hs, Hz. unfold entry_count, zlen.
    replace (26 * Z.of_nat (length (key_list t)) + 25) with (25 + Z.of_nat (length (key_list t)) * 26) by lia.
    rewrite Z.div_add, Z.div_small by lia. lia. }
  pose proof (zlen_nonneg (key_list t)). pose proof (zlen_nonneg rest).
  assert (0 ≤ file_size f ∧ 26 * Z.of_nat (entry_count (file_size f)) ≤ zlen (file_content f) ∧
    zlen (file_content f) < 2 ^ 31 ∧ (entry_count (file_size f) < S (Z.to_nat (file_size f)))%nat)
    as (? & ? & ? & ?).
  { rewrite Hcount, Hc, zlen_app, Hs, Hz. unfold zlen in *. lia. }
  pose proof (entry_loop_spec u1 u2 (S (Z.to_nat (file_size f))) 0 f []) as Hrun.
  cbv zeta in Hrun. change (26 * Z.of_nat 0) with 0 in Hrun.
  eexists. split; [rewrite Hrun by (done || lia); unfold read_all; by rewrite Hcount|].
  rewrite pq_push_all_perm, app_nil_r, Nat.sub_0_r, <-list_fmap_compose, <-Hlen.
  rewrite <-(slices_concat ents 26 (rest ++ [NUL]) Hents) at 2.
  apply reflexive_eq, list_fmap_ext. intros i x _. unfold c_object. by rewrite Hc, <-app_assoc.
Qed.

Lemma plain_file_roundtrip_witness :
  let t : Table bytes unit := mkTable [replicate 16 (z2b 1)] [replicate 10 (z2b 2)] tt [] 0 in
  let data := replicate 16 (z2b 1) ++ replicate 10 (z2b 2) in
  let f := mkPlainTable t 0 data 26 in
  entries_ok (key_list t) (value_list t) ∧ PlainTable_ToDiskFormat t [] = Ret (data, 0) ∧
  ∃ heap, entry_loop (H:=LittleEndianHost) 0 0 27 0 f [] = Ret (mkPlainTable t 1 data 26, heap).
Proof.
  cbv zeta. set (t := mkTable [replicate 16 (z2b 1)] [replicate 10 (z2b 2)] tt [] 0 : Table bytes unit).
  set (data := replicate 16 (z2b 1) ++ replicate 10 (z2b 2)).
  assert (entries_ok (key_list t) (value_list t)) as Hok
    by (split; [repeat constructor|repeat constructor|reflexivity]).
  assert (PlainTable_ToDiskFormat t [] = Ret (data, 0)) as Hd by reflexivity.
  split; [exact Hok|]. split; [exact Hd|].
  destruct (plain_file_roundtrip (H:=LittleEndianHost) 0 0 t (mkPlainTable t 0 data 26) data [] Hok)
    as (heap & Hrun & _);
    [reflexivity|reflexivity|exact Hd|reflexivity|reflexivity|reflexivity|].
  exists heap. exact Hrun.
Defined.

(** C39: The loop of [FPGA_Stream_Merger::DoCompaction] ends by the size of the
    buffer it sent, as a 32-bit number, and that is the same in every turn: a
    window for each input file, because a read always gives a string of the size
    of the window, at the end of a file too.  When that total is no multiple of
    2^32, in particular when there is an input and the total is below 2^32, no
    run ends: after any number of turns it still runs, or a read has failed its
    assertion.  As long as the reads deliver, it sends in turn [i] window [i] of
    each file, as far as the file goes, and goes on after the last.  When the
    total is a multiple of 2^32 (no input, a window of 0 in the object, which the
    constructor leaves as it found it, or a buffer of 2^32 bytes) the loop ends
    after one turn, or fails in it.  It fails in its first turn when an input is
    opened for writing, as those of the block-based format are. *)
Theorem fpga_loop_diverges {F} `{PosixLaws F} window mem files fuel :
  (∀ i j, zlen (mem i j) = window) →
  let total := window * zlen files in
  (total mod 2 ^ 32 ≠ 0 →
     (FPGA_DoCompaction fuel window mem files = Fault AssertionFailed ∨
      ∃ files' sent, FPGA_DoCompaction fuel window mem files = Ret (false, files', sent) ∧
        length sent = fuel ∧ Forall (λ b, zlen b = total) sent) ∧
     (Forall (λ t, fd_offset (target_fd t) = 0%nat ∧ delivers window fuel (target_fd t)) files →
      ∃ files' sent, FPGA_DoCompaction fuel window mem files = Ret (false, files', sent) ∧
        length sent = fuel ∧
        ∀ i b j t, sent !! i = Some b → files !! j = Some t →
          take (length (window_of window i t)) (drop (j * Z.to_nat window) b) = window_of window i t)) ∧
  (total mod 2 ^ 32 = 0 →
     FPGA_DoCompaction (S fuel) window mem files = Fault AssertionFailed ∨
     ∃ files' b, FPGA_DoCompaction (S fuel) window mem files = Ret (true, files', [b]) ∧ zlen b = total) ∧
  (Exists (λ t, fd_flags (target_fd t) = O_CREAT_WRONLY) files →
     FPGA_DoCompaction (S fuel) window mem files = Fault AssertionFailed).
Proof.
  intros Hmem total. split; [|split]; [intros Htotal; split|intros Htotal|intros Hex].
  - by apply fpga_loop_sizes.
  - intros Hall. apply (fpga_loop_windows window mem Hmem fuel 0 files files (-1) []); [|by apply Forall_Forall2_diag, Forall_true|done..].
    eapply Forall_impl; [exact Hall|]. intros t [Ho Hd]. by split.
  - unfold FPGA_DoCompaction. cbn [fpga_loop Z.eqb].
    destruct (turn_size window (mem fuel) (Hmem fuel) files [] []) as [Hf|(fs & b & Hrun & Hb & _)].
    { left. assert (read_windows window (mem fuel) files = Fault AssertionFailed) as -> by exact Hf. done. }
    assert (read_windows window (mem fuel) files = Ret (fs, b)) as -> by exact Hrun.
    right. exists fs, b. cbn [mbind outcome_bind]. split; [|done]. rewrite Hb.
    rewrite (proj2 (signed_32_zero (window * zlen files)) Htotal). by destruct fuel.
  - pose proof (turn_write_only window (mem fuel) (Hmem fuel) files [] [] Hex) as Hf.
    unfold FPGA_DoCompaction. cbn [fpga_loop Z.eqb].
    assert (read_windows window (mem fuel) files = Fault AssertionFailed) as -> by exact Hf. done.
Qed.

Lemma fpga_loop_diverges_witness :
  let t : Table bytes MemFile := mkTable [] [] (mkMemFile O_RDONLY 0 [z2b 7]) [] 0 in
  let mem : nat → nat → bytes := λ _ _, replicate 4 NUL in
  (∃ files sent, FPGA_DoCompaction (H:=MemPosix []) 1000 4 mem [t] = Ret (false, files, sent) ∧
    length sent = 1000%nat) ∧
  ∃ files b, FPGA_DoCompaction (H:=MemPosix []) 1000 4 mem [] = Ret (true, files, [b]) ∧ zlen b = 0.
Proof.
  cbv zeta. set (t := mkTable [] [] (mkMemFile O_RDONLY 0 [z2b 7]) [] 0 : Table bytes MemFile).
  assert (∀ n f, mf_flags f = O_RDONLY → delivers (H0:=MemPosix_laws []) 4 n f) as Hd.
  { induction n as [|n IH]; intros f Hf; [done|]. cbn. rewrite Hf. eexists. split; [reflexivity|by apply IH]. }
  split.
  - destruct (fpga_loop_diverges (H:=MemPosix []) (H0:=MemPosix_laws []) 4 (λ _ _, replicate 4 NUL) [t] 1000)
      as (Hrun & _); [reflexivity|].
    destruct Hrun as [_ Hrun]; [discriminate|].
    destruct Hrun as (files & sent & Hrun & Hl & _); [constructor; [split; [reflexivity|by apply Hd]|constructor]|].
    exists files, sent. split; [exact Hrun|exact Hl].
  - destruct (fpga_loop_diverges (H:=MemPosix []) (H0:=MemPosix_laws []) 4 (λ _ _, replicate 4 NUL) [] 999)
      as (_ & Hend & _); [reflexivity|].
    destruct (Hend eq_refl) as [Hf|Hrun]; [discriminate Hf|exact Hrun].
Defined.
