(* ===== verification/StringUtil.v ===== *)
(** * String utilities (utils/string_util.cc, utils/string_util.h)

    Splitting and trimming, escaping, human-readable sizes and the parsers of
    numbers in options.  A [char] is signed, which matters to the printable
    range test only.  Exceptions are faults.  The functions that format doubles
    or the local time are not modelled. *)
From S2P Require Import Prelude Decimal Slice.

(** ** Splitting and affixes *)

(** [std::getline] to the end of the stream: a last item without a delimiter
    is an item unless it is empty. *)
Fixpoint getline_loop (delim : byte) (s item : bytes) : list bytes :=
  match s with
  | [] => match item with [] => [] | _ => [item] end
  | c :: s => if decide (c = delim) then item :: getline_loop delim s []
              else getline_loop delim s (item ++ [c])
  end.
Definition StringSplit (arg : bytes) (delim : byte) : list bytes := getline_loop delim arg [].

(** [string.compare(pos, n, pattern) == 0] is equality with the substring. *)
Definition EndsWith (string pattern : bytes) : bool :=
  let plen := length pattern in
  let slen := length string in
  if (plen <=? slen)%nat then bool_decide (take plen (drop (slen - plen) string) = pattern)
  else false.
Definition StartsWith (string pattern : bytes) : bool :=
  bool_decide (take (length pattern) string = pattern).

(** The two loops of [trim]: both stop when [start] meets [end]. *)
Fixpoint trim_start (fuel : nat) (str : bytes) (start end_ : nat) : nat :=
  match fuel with
  | O => start
  | S fuel =>
      if is_space (nth start str NUL) && (start <? end_)%nat
      then trim_start fuel str (S start) end_ else start
  end.
Fixpoint trim_end (fuel : nat) (str : bytes) (start end_ : nat) : nat :=
  match fuel with
  | O => end_
  | S fuel =>
      if is_space (nth end_ str NUL) && (start <? end_)%nat
      then trim_end fuel str start (end_ - 1) else end_
  end.
Definition trim (str : bytes) : bytes :=
  match str with
  | [] => []
  | _ =>
      let start := trim_start (length str) str 0 (length str - 1) in
      let end_ := trim_end (length str) str start (length str - 1) in
      if (start <=? end_)%nat then take (end_ - start + 1) (drop start str) else []
  end.

(** ** Numbers to strings *)

(** The text of [AppendHumanBytes]; [snprintf] stores at most [len - 1]
    characters of it and returns its length. *)
Definition human_bytes_text (bytes : Z) : list byte :=
  if bytes >=? Z.shiftl 10 40 then print_u64 (Z.shiftr bytes 40) ++ lit "TB"
  else if bytes >=? Z.shiftl 10 30 then print_u64 (Z.shiftr bytes 30) ++ lit "GB"
  else if bytes >=? Z.shiftl 10 20 then print_u64 (Z.shiftr bytes 20) ++ lit "MB"
  else if bytes >=? Z.shiftl 10 10 then print_u64 (Z.shiftr bytes 10) ++ lit "KB"
  else print_u64 bytes ++ lit "B".
Definition AppendHumanBytes (bytes len : Z) : list byte * Z :=
  (take (Z.to_nat (len - 1)) (human_bytes_text bytes), zlen (human_bytes_text bytes)).

Definition AppendNumberTo (str : bytes) (num : Z) : bytes := str ++ print_u64 num.
Definition NumberToString (num : Z) : bytes := AppendNumberTo [] num.

(** [%PRIi64] *)
Definition print_i64 (n : Z) : bytes :=
  if n <? 0 then z2b 45 :: decimal 20 (- n) [] else decimal 20 n [].
(** [absnum] of the least number is the number itself, after wrap-around; the
    buffer of 19 bytes cuts its text. *)
Definition NumberToHumanString (num : Z) : bytes :=
  let absnum := if num <? 0 then signed 64 (- num) else num in
  let text :=
    if absnum <? 10000 then print_i64 num
    else if absnum <? 10000000 then print_i64 (Z.quot num 1000) ++ lit "K"
    else if absnum <? 10000000000 then print_i64 (Z.quot num 1000000) ++ lit "M"
    else print_i64 (Z.quot num 1000000000) ++ lit "G" in
  take 18 text.

(** ** Escaping *)

(** A lower-case hex digit. *)
Definition hex_digit (v : Z) : byte := if v <? 10 then z2b (48 + v) else z2b (87 + v).

(** The printable range is tested on a signed [char]. *)
Definition AppendEscapedStringTo (str value : bytes) : bytes :=
  str ++ (value ≫= λ c,
    if (32 <=? signed 8 (b2z c)) && (signed 8 (b2z c) <=? 126) then [c]
    else [z2b 92; z2b 120; hex_digit (Z.shiftr (b2z c) 4); hex_digit (Z.land (b2z c) 15)]).
Definition EscapeString (value : bytes) : bytes := AppendEscapedStringTo [] value.

Definition isSpecialChar (c : byte) : bool :=
  (b2z c =? 92) || (b2z c =? 35) || (b2z c =? 58) || (b2z c =? 13) || (b2z c =? 10).

(** [std::find_if] over the table of pairs. *)
Fixpoint convert (map : list (Z * Z)) (c : byte) : byte :=
  match map with
  | [] => c
  | (k, v) :: map => if b2z c =? k then z2b v else convert map c
  end.
Definition UnescapeChar : byte → byte := convert [(114, 13); (110, 10)].
Definition EscapeChar : byte → byte := convert [(10, 110); (13, 114)].

Definition EscapeOptionString (raw_string : bytes) : bytes :=
  raw_string ≫= λ c, if isSpecialChar c then [z2b 92; EscapeChar c] else [c].

Fixpoint unescape_loop (escaped : bool) (s output : bytes) : bytes :=
  match s with
  | [] => output
  | c :: s =>
      if escaped then unescape_loop false s (output ++ [UnescapeChar c])
      else if b2z c =? 92 then unescape_loop true s output
      else unescape_loop false s (output ++ [c])
  end.
Definition UnescapeOptionString (escaped_string : bytes) : bytes :=
  unescape_loop false escaped_string [].

(** ** Parsers *)

(** [ConsumeDecimalNumber]: the result, [*val] where it is set, and the slice
    as it is left. *)
Fixpoint consume_loop (s : bytes) (v digits : Z) : bool * option Z * bytes :=
  match s with
  | c :: s' =>
      if (48 <=? signed 8 (b2z c)) && (signed 8 (b2z c) <=? 57) then
        let digits := digits + 1 in
        let delta := signed 8 (b2z c) - 48 in
        let kMaxUint64 := 2 ^ 64 - 1 in
        if (v >? kMaxUint64 / 10) || ((v =? kMaxUint64 / 10) && (delta >? kMaxUint64 mod 10))
        then (false, None, s)
        else consume_loop s' (u64 (v * 10 + delta)) digits
      else (digits >? 0, Some v, s)
  | [] => (digits >? 0, Some v, [])
  end.
Definition ConsumeDecimalNumber (s : bytes) : bool * option Z * bytes := consume_loop s 0 0.

Definition ParseBoolean (value : bytes) : outcome bool :=
  if bool_decide (value = lit "true") || bool_decide (value = lit "1") then Ret true
  else if bool_decide (value = lit "false") || bool_decide (value = lit "0") then Ret false
  else Fault ThrowInvalidArgument.

(** The shift of a suffix character. *)
Definition suffix_shift (c : byte) : Z :=
  let c_is u l := (b2z c =? u) || (b2z c =? l) in
  if c_is 107 75 then 10 else if c_is 109 77 then 20 else if c_is 103 71 then 30
  else if c_is 116 84 then 40 else 0.
Definition apply_suffix (value : bytes) (endchar num : Z) : Z :=
  if endchar <? zlen value
  then Z.shiftl num (suffix_shift (nth (Z.to_nat endchar) value NUL)) else num.

Definition ParseUint64 (value : bytes) : outcome Z :=
  '(num, endchar) ← stoull value; Ret (u64 (apply_suffix value endchar num)).
Definition ParseInt64 (value : bytes) : outcome Z :=
  '(num, endchar) ← stoll value; Ret (signed 64 (apply_suffix value endchar num)).
(** Without the suffix [t]. *)
Definition ParseInt (value : bytes) : outcome Z :=
  '(num, endchar) ← stoi value;
  if endchar <? zlen value then
    let c := nth (Z.to_nat endchar) value NUL in
    if suffix_shift c =? 40 then Ret num else Ret (signed 32 (Z.shiftl num (suffix_shift c)))
  else Ret num.

Definition ParseUint32 (value : bytes) : outcome Z :=
  num ← ParseUint64 value;
  if Z.shiftr num 32 =? 0 then Ret (u32 num) else Fault ThrowOutOfRange.
Definition ParseInt32 (value : bytes) : outcome Z :=
  num ← ParseInt64 value;
  if (num <=? 2 ^ 31 - 1) && (- 2 ^ 31 <=? num) then Ret (signed 32 num) else Fault ThrowOutOfRange.
Definition ParseSizeT (value : bytes) : outcome Z := ParseUint64 value.

(** [ParseVectorInt]: items up to the next colon; nothing follows a last one. *)
Fixpoint vector_int_loop (fuel : nat) (s : bytes) (result : list Z) : outcome (list Z) :=
  match fuel, s with
  | S fuel, _ :: _ =>
      let '(item, rest) := span (λ c, negb (b2z c =? 58)) s in
      n ← ParseInt item;
      match rest with
      | [] => Ret (result ++ [n])
      | _ :: rest => vector_int_loop fuel rest (result ++ [n])
      end
  | _, _ => Ret result
  end.
Definition ParseVectorInt (value : bytes) : outcome (list Z) :=
  vector_int_loop (length value) value [].

Definition SerializeIntVector (vec : list Z) : bytes :=
  foldl (λ value i,
    (if (0 <? i)%nat then value ++ lit ":" else value) ++ to_string (nth i vec 0))
    [] (List.seq 0 (length vec)).

(** ** Lemmas *)

Lemma unescape_loop_app e s out : unescape_loop e s out = out ++ unescape_loop e s [].
Proof.
  revert e out. induction s as [|c s IH]; intros e out; cbn [unescape_loop];
    [by rewrite app_nil_r|].
  destruct e; [|destruct (b2z c =? 92)]; rewrite IH; [|done|];
    rewrite (IH _ ([] ++ _)), app_nil_l, app_assoc; done.
Qed.

Lemma special_cases c :
  isSpecialChar c = true → b2z c = 92 ∨ b2z c = 35 ∨ b2z c = 58 ∨ b2z c = 13 ∨ b2z c = 10.
Proof. unfold isSpecialChar. rewrite !orb_true_iff, !Z.eqb_eq. tauto. Qed.

Lemma b2z_eq c n : b2z c = n → c = z2b n.
Proof. intros <-. by rewrite z2b_b2z. Qed.

Lemma unescape_escape_char c : isSpecialChar c = true → UnescapeChar (EscapeChar c) = c.
Proof.
  intros [H|[H|[H|[H|H]]]]%special_cases; apply b2z_eq in H as ->; reflexivity.
Qed.

Lemma signed8_digit c :
  ((48 <=? signed 8 (b2z c)) && (signed 8 (b2z c) <=? 57)) = is_digit c ∧
  (is_digit c = true → signed 8 (b2z c) = b2z c).
Proof.
  pose proof (b2z_range c). unfold signed, is_digit. change (2 ^ 8) with 256.
  rewrite Z.mod_small by lia. change (2 ^ (8 - 1)) with 128.
  destruct (Z.ltb_spec (b2z c) 128); [done|]. split; zbool; try lia; done.
Qed.

(** The loop over a run of digits: overflow is detected exactly. *)
Lemma consume_loop_digits digits rest v n :
  Forall (λ c, is_digit c = true) digits → stops is_digit rest → 0 ≤ v < 2 ^ 64 →
  if digits_val v digits <? 2 ^ 64
  then consume_loop (digits ++ rest) v n = (n + zlen digits >? 0, Some (digits_val v digits), rest)
  else ∃ left, consume_loop (digits ++ rest) v n = (false, None, left).
Proof.
  intros Hd Hr. revert v n. induction Hd as [|c digits Hc Hd IH]; intros v n Hv.
  - cbn [digits_val foldl app]. rewrite (proj2 (Z.ltb_lt _ _)) by lia. rewrite zlen_nil, Z.add_0_r.
    destruct rest as [|c rest]; [done|]. cbn [consume_loop]. cbn in Hr.
    destruct (signed8_digit c) as [-> _]. by rewrite Hr.
  - cbn [app consume_loop]. destruct (signed8_digit c) as [-> Hs]. rewrite Hc, (Hs Hc).
    pose proof (is_digit_range c Hc).
    cbn [digits_val foldl]. fold (digits_val (v * 10 + (b2z c - 48)) digits).
    change ((2 ^ 64 - 1) / 10) with 1844674407370955161. change ((2 ^ 64 - 1) mod 10) with 5.
    destruct ((v >? 1844674407370955161) || _) eqn:Hov.
    + assert (2 ^ 64 ≤ v * 10 + (b2z c - 48)) as Hbig.
      { apply orb_true_iff in Hov. rewrite andb_true_iff, !Z.gtb_lt, Z.eqb_eq in Hov. lia. }
      pose proof (digits_val_nonneg (v * 10 + (b2z c - 48)) digits ltac:(lia) Hd).
      rewrite (proj2 (Z.ltb_ge _ _)) by lia. by eexists.
    + apply orb_false_iff in Hov. rewrite andb_false_iff, !Z.gtb_ltb, !Z.ltb_ge, Z.eqb_neq in Hov.
      rewrite u64_small by lia. specialize (IH (v * 10 + (b2z c - 48)) (n + 1) ltac:(lia)).
      rewrite zlen_cons, Z.add_assoc. exact IH.
Qed.

(** The items after the first, each behind its colon. *)
Definition colon_items (ns : list Z) : bytes := ns ≫= λ n, z2b 58 :: to_string n.

Lemma serialize_prefix vec m :
  (m ≤ length vec)%nat →
  foldl (λ value i, (if (0 <? i)%nat then value ++ lit ":" else value) ++ to_string (nth i vec 0))
    [] (List.seq 0 m) =
  match take m vec with [] => [] | n :: ns => to_string n ++ colon_items ns end.
Proof.
  induction m as [|m IH]; intros Hm; [by rewrite take_0|].
  rewrite seq_S, foldl_app, IH by lia. cbn [foldl Nat.add].
  destruct (lookup_lt_is_Some_2 vec m) as [x Hx]; [lia|].
  rewrite (take_S_r _ _ _ Hx), (nth_lookup vec), Hx. cbn [default].
  destruct m as [|m]; [destruct vec; cbn; by rewrite app_nil_r|].
  destruct vec as [|n ns]; [simpl in Hm; lia|]. cbn [take app Nat.ltb Nat.leb].
  unfold colon_items. rewrite bind_app. cbn [mbind list_bind]. by rewrite app_nil_r, <-!app_assoc.
Qed.

Lemma SerializeIntVector_items vec :
  SerializeIntVector vec = match vec with [] => [] | n :: ns => to_string n ++ colon_items ns end.
Proof. unfold SerializeIntVector. by rewrite serialize_prefix, take_ge. Qed.

Lemma to_string_no_colon n : Forall (λ c, negb (b2z c =? 58) = true) (to_string n).
Proof.
  assert (∀ m, Forall (λ c, negb (b2z c =? 58) = true) (decimal 10 m [])) as Hd.
  { intros m. eapply Forall_impl; [by apply decimal_all_digits|]. simpl. intros c Hc%is_digit_range.
    apply negb_true_iff, Z.eqb_neq. lia. }
  unfold to_string. destruct (n <? 0); [constructor; [done|]|]; apply Hd.
Qed.

Lemma to_string_not_nil n : to_string n ≠ [].
Proof. unfold to_string. destruct (n <? 0); [done|]. apply decimal_not_nil. Qed.

Lemma colon_items_stops ns : stops (λ c, negb (b2z c =? 58)) (colon_items ns).
Proof. by destruct ns. Qed.

Lemma ParseInt_to_string n : - 2 ^ 31 ≤ n < 2 ^ 31 → ParseInt (to_string n) = Ret n.
Proof.
  intros Hn. unfold ParseInt. pose proof (stoi_to_string n [] Hn I) as Hs.
  rewrite app_nil_r in Hs. rewrite Hs. cbn [mbind outcome_bind]. by rewrite Z.ltb_irrefl.
Qed.

Lemma vector_int_loop_items fuel n ns acc :
  Forall (λ n, - 2 ^ 31 ≤ n < 2 ^ 31) (n :: ns) → (length ns < fuel)%nat →
  vector_int_loop fuel (to_string n ++ colon_items ns) acc = Ret (acc ++ n :: ns).
Proof.
  revert n ns acc. induction fuel as [|fuel IH]; intros n ns acc Hall Hf; [lia|].
  inversion Hall as [|?? Hn Hns]; subst. cbn [vector_int_loop].
  destruct (to_string n ++ colon_items ns) as [|c s] eqn:Hs.
  { apply app_eq_nil in Hs as [Hs _]. by apply to_string_not_nil in Hs. }
  rewrite <-Hs, span_app by (apply to_string_no_colon || apply colon_items_stops).
  rewrite ParseInt_to_string by done. cbn [mbind outcome_bind].
  destruct ns as [|m ns]; [done|]. cbn [colon_items mbind list_bind app].
  rewrite IH; [by rewrite <-app_assoc|done|simpl in Hf; lia].
Qed.

Lemma colon_items_length ns : (length ns ≤ length (colon_items ns))%nat.
Proof.
  induction ns as [|n ns IH]; [done|]. cbn [colon_items mbind list_bind].
  rewrite length_app. simpl. unfold colon_items in IH. lia.
Qed.

(** *** Splitting and trimming *)

Lemma getline_loop_item delim x acc s :
  delim ∉ x → getline_loop delim (x ++ delim :: s) acc = (acc ++ x) :: getline_loop delim s [].
Proof.
  revert acc. induction x as [|c x IH]; intros acc Hx; cbn [app getline_loop].
  - by rewrite decide_True, app_nil_r.
  - apply not_elem_of_cons in Hx as [Hc Hx]. rewrite decide_False by congruence.
    by rewrite IH, <-app_assoc.
Qed.

Lemma getline_loop_last delim x acc :
  delim ∉ x → getline_loop delim x acc = match acc ++ x with [] => [] | item => [item] end.
Proof.
  revert acc. induction x as [|c x IH]; intros acc Hx; cbn [getline_loop].
  - rewrite app_nil_r. by destruct acc.
  - apply not_elem_of_cons in Hx as [Hc Hx]. rewrite decide_False by congruence.
    by rewrite IH, <-app_assoc.
Qed.

Lemma trim_start_spec fuel str i j e :
  (i ≤ j ≤ e)%nat → (∀ k, (i ≤ k < j)%nat → is_space (nth k str NUL) = true) →
  is_space (nth j str NUL) = false ∨ j = e → (j - i ≤ fuel)%nat → trim_start fuel str i e = j.
Proof.
  revert i. induction fuel as [|fuel IH]; intros i Hij Hsp Hj Hf; cbn [trim_start]; [lia|].
  destruct (decide (i = j)) as [->|Hne].
  - destruct Hj as [-> | ->]; [done|]. by rewrite Nat.ltb_irrefl, andb_false_r.
  - rewrite Hsp, (proj2 (Nat.ltb_lt i e)) by lia. cbn [andb]. apply IH; [lia| |done|lia].
    intros k Hk. apply Hsp. lia.
Qed.

Lemma trim_end_spec fuel str i j e :
  (i ≤ j ≤ e)%nat → (∀ k, (j < k ≤ e)%nat → is_space (nth k str NUL) = true) →
  is_space (nth j str NUL) = false ∨ j = i → (e - j ≤ fuel)%nat → trim_end fuel str i e = j.
Proof.
  revert e. induction fuel as [|fuel IH]; intros e Hij Hsp Hj Hf; cbn [trim_end]; [lia|].
  destruct (decide (e = j)) as [->|Hne].
  - destruct Hj as [-> | ->]; [done|]. by rewrite Nat.ltb_irrefl, andb_false_r.
  - rewrite Hsp, (proj2 (Nat.ltb_lt i e)) by lia. cbn [andb]. apply IH; [lia| |done|lia].
    intros k Hk. apply Hsp. lia.
Qed.

Lemma nth_spaces l k d : Forall (λ c, is_space c = true) l → (k < length l)%nat → is_space (nth k l d) = true.
Proof. intros Hl Hk. rewrite Forall_forall in Hl. apply Hl. apply list_elem_of_In, nth_In. done. Qed.

(** Blanks around a text that begins and ends with none. *)
Lemma trim_text l x r c d :
  Forall (λ c, is_space c = true) l → Forall (λ c, is_space c = true) r →
  head x = Some c → last x = Some d → is_space c = false → is_space d = false →
  trim (l ++ x ++ r) = x.
Proof.
  intros Hl Hr Hc Hd Hcs Hds. destruct x as [|c0 x]; [done|]. injection Hc as ->.
  set (t := c :: x) in *. set (str := l ++ t ++ r).
  assert (length str = length l + length t + length r)%nat as Hlen by (unfold str; rewrite !length_app; lia).
  assert (0 < length t)%nat as Ht by (simpl; lia).
  assert (nth (length l) str NUL = c) as Hfirst.
  { unfold str. by rewrite app_nth2, Nat.sub_diag by lia. }
  assert (nth (length l + length t - 1) str NUL = d) as Hlast.
  { unfold str. rewrite app_nth2, app_nth1 by lia. apply nth_lookup_Some. rewrite last_lookup in Hd.
    rewrite <-Hd. f_equal. lia. }
  assert (∀ k, (k < length l)%nat → is_space (nth k str NUL) = true) as Hbefore.
  { intros k Hk. unfold str. rewrite app_nth1 by done. by apply nth_spaces. }
  assert (∀ k, (length l + length t ≤ k < length str)%nat → is_space (nth k str NUL) = true) as Hafter.
  { intros k Hk. unfold str. rewrite !app_nth2 by lia. apply nth_spaces; [done|]. lia. }
  unfold trim. destruct str as [|b str'] eqn:E; [simpl in Hlen; lia|]. rewrite <-E in *.
  rewrite (trim_start_spec (length str) str 0 (length l)); [|lia| |left; by rewrite Hfirst|lia].
  2:{ intros k Hk. apply Hbefore. lia. }
  rewrite (trim_end_spec (length str) str _ (length l + length t - 1)); [|lia| |left; by rewrite Hlast|lia].
  2:{ intros k Hk. apply Hafter. lia. }
  rewrite (proj2 (Nat.leb_le _ _)) by lia. unfold str.
  rewrite drop_app_length. apply take_app_length'. lia.
Qed.

Lemma trim_blank s c : Forall (λ c, is_space c = true) (s ++ [c]) → trim (s ++ [c]) = [c].
Proof.
  intros Hs. set (str := s ++ [c]) in *.
  assert (length str = S (length s)) as Hlen by (unfold str; rewrite length_app; simpl; lia).
  unfold trim. destruct str as [|b str'] eqn:E; [done|]. rewrite <-E in *.
  rewrite (trim_start_spec (length str) str 0 (length s)); [|lia| |right; lia|lia].
  2:{ intros k Hk. apply nth_spaces; [done|lia]. }
  rewrite (trim_end_spec (length str) str _ (length s)); [|lia|lia|by right|lia].
  rewrite (proj2 (Nat.leb_le _ _)) by lia. rewrite Nat.sub_diag. unfold str.
  by rewrite drop_app_length.
Qed.

(** ** Properties *)

(** [StringSplit] gives the items of a text in which every item is ended by
    the delimiter, empty ones included, and a last item that is not ended
    unless it is empty.  [trim] takes the blanks from both ends of a text; of a
    text of blanks only it leaves the last one. *)
Theorem split_and_trim delim items x l t r c d s :
  Forall (λ i, delim ∉ i) (x :: items) →
  StringSplit (concat ((λ i, i ++ [delim]) <$> items) ++ x) delim =
    items ++ (if decide (x = []) then [] else [x]) ∧
  (Forall (λ c, is_space c = true) (l ++ r) → head t = Some c → last t = Some d →
   is_space c = false → is_space d = false → trim (l ++ t ++ r) = t) ∧
  (Forall (λ c, is_space c = true) (s ++ [c]) → trim (s ++ [c]) = [c]) ∧ trim [] = [].
Proof.
  intros [Hx Hall]%Forall_cons. split; [|split; [|split; [apply trim_blank|done]]].
  - unfold StringSplit. induction Hall as [|i items Hi _ IH]; cbn [fmap list_fmap concat app].
    + rewrite getline_loop_last by done. cbn [app]. by destruct x.
    + rewrite <-!app_assoc. cbn [app]. by rewrite getline_loop_item, IH by done.
  - intros [Hl Hr]%Forall_app. by apply trim_text.
Qed.

Lemma split_and_trim_witness :
  Forall (λ i, z2b 44 ∉ i) [lit "z"; lit "ab"; []] ∧
  StringSplit (lit "ab,,z") (z2b 44) = [lit "ab"; []; lit "z"] ∧ trim (lit "  a b ") = lit "a b".
Proof.
  assert (Forall (λ i, z2b 44 ∉ i) [lit "z"; lit "ab"; []]) as Hall by by_decide.
  split; [exact Hall|].
  destruct (split_and_trim (z2b 44) [lit "ab"; []] (lit "z") (lit "  ") (lit "a b") (lit " ")
    (z2b 97) (z2b 98) [] Hall) as (Hs & Ht & _).
  split; [exact Hs|]. apply Ht; [repeat constructor|reflexivity..].
Defined.

(** C27: Escaped option strings unescape to the original, for every string, and
    contain no line break. *)
Theorem option_string_roundtrip s :
  UnescapeOptionString (EscapeOptionString s) = s ∧
  (z2b 10 ∉ EscapeOptionString s) ∧ (z2b 13 ∉ EscapeOptionString s).
Proof.
  unfold UnescapeOptionString, EscapeOptionString. induction s as [|c s (IH & IHn & IHr)];
    [split_and!; [done|apply not_elem_of_nil..]|].
  cbn [mbind list_bind] in *. destruct (isSpecialChar c) eqn:Hc.
  - cbn [app unescape_loop]. change (b2z (z2b 92) =? 92) with true. cbn iota.
    rewrite unescape_loop_app, unescape_escape_char by done. rewrite IH. split; [done|].
    apply special_cases in Hc as Hcase.
    assert (z2b 10 ≠ EscapeChar c ∧ z2b 13 ≠ EscapeChar c) as [? ?].
    { destruct Hcase as [H|[H|[H|[H|H]]]]; apply b2z_eq in H as ->; split; discriminate. }
    rewrite !not_elem_of_cons. split_and!; done.
  - cbn [app unescape_loop]. unfold isSpecialChar in Hc. rewrite !orb_false_iff, !Z.eqb_neq in Hc.
    destruct Hc as [[[[H92 _] _] H13] H10]. rewrite (proj2 (Z.eqb_neq _ _)) by done.
    rewrite unescape_loop_app, IH. split; [done|]. rewrite !not_elem_of_cons.
    split_and!; try done; intros <-; by rewrite b2z_z2b in *.
Qed.

(** C28: Numbers in text.  [ConsumeDecimalNumber] takes the longest run of digits
    and answers its value, exactly when there is a digit and the value fits in
    64 bits; it reads back every number [NumberToString] prints.  [ParseUint64]
    reads a printed number, multiplied by the unit of its suffix modulo [2^64],
    and [ParseUint32] accepts it exactly when it is below [2^32]. *)
Theorem decimal_numbers digits rest n c :
  (Forall (λ c, is_digit c = true) digits → stops is_digit rest →
   ConsumeDecimalNumber (digits ++ rest) =
     (bool_decide (digits ≠ []), Some (digits_val 0 digits), rest) ∨
   (2 ^ 64 ≤ digits_val 0 digits ∧
    ∃ left, ConsumeDecimalNumber (digits ++ rest) = (false, None, left))) ∧
  (0 ≤ n < 2 ^ 64 → stops is_digit rest →
   ConsumeDecimalNumber (NumberToString n ++ rest) = (true, Some n, rest) ∧
   ParseUint64 (NumberToString n) = Ret n ∧
   ParseUint32 (NumberToString n) = (if n <? 2 ^ 32 then Ret n else Fault ThrowOutOfRange) ∧
   (is_digit c = false →
    ParseUint64 (NumberToString n ++ [c]) = Ret (u64 (n * 2 ^ suffix_shift c)))).
Proof.
  split.
  - intros Hd Hr. unfold ConsumeDecimalNumber.
    pose proof (consume_loop_digits digits rest 0 0 Hd Hr ltac:(lia)) as Hc.
    destruct (Z.ltb_spec (digits_val 0 digits) (2 ^ 64)); [left|by right].
    rewrite Hc. f_equal. f_equal. pose proof (zlen_nonneg digits). rewrite Z.gtb_ltb.
    apply eq_bool_prop_intro. rewrite !Is_true_true, bool_decide_eq_true, Z.ltb_lt.
    split; [by intros ? ->|]. intros Hne. destruct digits; [done|]. zlen.
  - intros Hn Hr. unfold NumberToString, AppendNumberTo. rewrite app_nil_l.
    assert (∀ s, stops is_digit s → ParseUint64 (print_u64 n ++ s) =
      Ret (u64 (apply_suffix (print_u64 n ++ s) (zlen (print_u64 n)) n))) as Hparse.
    { intros s Hs. unfold ParseUint64. by rewrite stoull_print. }
    assert (ParseUint64 (print_u64 n) = Ret n) as H64.
    { specialize (Hparse [] I). rewrite app_nil_r in Hparse. rewrite Hparse.
      unfold apply_suffix. rewrite Z.ltb_irrefl. by rewrite u64_small. }
    split_and!.
    + pose proof (consume_loop_digits (print_u64 n) rest 0 0 (print_u64_digits n) Hr ltac:(lia)) as Hc.
      rewrite print_u64_val, (proj2 (Z.ltb_lt n _)) in Hc by lia. unfold ConsumeDecimalNumber.
      rewrite Hc. pose proof (decimal_not_nil 19 n) as Hne. unfold print_u64.
      destruct (decimal 20 n []) as [|d ds]; [done|]. rewrite zlen_cons. pose proof (zlen_nonneg ds).
      rewrite (proj2 (Z.gtb_lt _ _)) by lia. done.
    + done.
    + unfold ParseUint32. rewrite H64. cbn [mbind outcome_bind]. rewrite shiftr_pow2 by lia.
      destruct (Z.ltb_spec n (2 ^ 32)).
      * rewrite Z.div_small by lia. cbn. by rewrite u32_small by lia.
      * rewrite (proj2 (Z.eqb_neq _ _)); [done|].
        pose proof (Z.div_le_mono (2 ^ 32) n (2 ^ 32) ltac:(lia) ltac:(lia)) as Hle.
        rewrite Z.div_same in Hle by lia. lia.
    + intros Hc. rewrite (Hparse [c]) by done. unfold apply_suffix.
      rewrite zlen_app, zlen_single, (proj2 (Z.ltb_lt _ _)) by lia.
      replace (Z.to_nat (zlen (print_u64 n))) with (length (print_u64 n)) by (unfold zlen; lia).
      rewrite app_nth2, Nat.sub_diag by lia. cbn [nth]. rewrite shiftl_pow2; [done|].
      unfold suffix_shift. repeat case_match; lia.
Qed.

(** A vector of 32-bit integers serialized with colons parses back to the
    same vector, negative numbers and the empty vector included. *)
Theorem int_vector_roundtrip vec :
  Forall (λ n, - 2 ^ 31 ≤ n < 2 ^ 31) vec → ParseVectorInt (SerializeIntVector vec) = Ret vec.
Proof.
  intros Hall. unfold ParseVectorInt. rewrite SerializeIntVector_items.
  destruct vec as [|n ns]; [done|]. rewrite vector_int_loop_items; [done|done|].
  rewrite length_app. pose proof (colon_items_length ns). pose proof (to_string_not_nil n).
  destruct (to_string n); [done|]. simpl. lia.
Qed.

Lemma int_vector_roundtrip_witness :
  Forall (λ n, - 2 ^ 31 ≤ n < 2 ^ 31) [-5; 0; 123] ∧
  ParseVectorInt (SerializeIntVector [-5; 0; 123]) = Ret [-5; 0; 123].
Proof.
  assert (Forall (λ n, - 2 ^ 31 ≤ n < 2 ^ 31) [-5; 0; 123]) as Hall
    by (repeat constructor; lia).
  split; [exact Hall|]. apply (int_vector_roundtrip [-5; 0; 123] Hall).
Defined.
