(* ===== verification/HumanText.v ===== *)
(** * Times and sizes for people (utils/string_util.cc, lines 36 to 60 and 122 to 139)

    [AppendHumanMicros] and [BytesToHumanString] convert numbers to [double],
    divide and print them.  The properties say what the rounding makes of the
    text. *)
From S2P Require Import Prelude Decimal Double.

(** The text of [AppendHumanMicros]; [snprintf] stores at most [len - 1]
    characters of it ([len] is not negative) and returns its length.  The width 5 of the seconds counts
    the point and the decimals. *)
Definition human_micros_text (micros : Z) (fixed_format : bool) : bytes :=
  if (micros <? 10000) && negb fixed_format then print_u64 micros ++ lit " us"
  else if (micros <? 10000000) && negb fixed_format then
    fixed_text 3 (dbl_fixed 3 (dbl_div (dbl_of_Z micros) 1000)) ++ lit " ms"
  else if (micros <? 1000000 * 60) && negb fixed_format then
    fixed_text 3 (dbl_fixed 3 (dbl_div (dbl_of_Z micros) 1000000)) ++ lit " sec"
  else if (micros <? 1000000 * 60 * 60) && negb fixed_format then
    pad0 2 (print_u64 (micros / 1000000 / 60)) ++ lit ":" ++
    pad0 5 (fixed_text 3 (dbl_fixed 3 (dbl_div (dbl_of_Z (micros mod 60000000)) 1000000))) ++ lit " M:S"
  else
    pad0 2 (print_u64 (micros / 1000000 / 3600)) ++ lit ":" ++
    pad0 2 (print_u64 (micros / 1000000 / 60 mod 60)) ++ lit ":" ++
    pad0 5 (fixed_text 3 (dbl_fixed 3 (dbl_div (dbl_of_Z (micros mod 60000000)) 1000000))) ++ lit " H:M:S".

Definition AppendHumanMicros (micros len : Z) (fixed_format : bool) : bytes * Z :=
  (take (Z.to_nat (len - 1)) (human_micros_text micros fixed_format),
   zlen (human_micros_text micros fixed_format)).

Definition size_name : list bytes := [lit "KB"; lit "MB"; lit "GB"; lit "TB"].

(** The loop of [BytesToHumanString], which makes at most three turns. *)
Fixpoint bytes_loop (fuel : nat) (final_size : double) (size_idx : nat) : double * nat :=
  match fuel with
  | O => (final_size, size_idx)
  | S fuel =>
      if (size_idx <? 3)%nat && dbl_ge final_size 1024
      then bytes_loop fuel (dbl_div final_size 1024) (S size_idx)
      else (final_size, size_idx)
  end.

(** [BytesToHumanString], with its buffer of 20 characters. *)
Definition BytesToHumanString (bytes : Z) : list byte :=
  let '(final_size, size_idx) := bytes_loop 3 (dbl_div (dbl_of_Z bytes) 1024) 0 in
  take 19 (fixed_text 2 (dbl_fixed 2 final_size) ++ lit " " ++ nth size_idx size_name []).

(** ** Lemmas *)

(** The thousandths of a quotient of a whole number of micros. *)
Lemma thousandths n d :
  0 ≤ n < 2 ^ 32 → 0 < d →
  2 * Z.abs (dbl_fixed 3 (dbl_div (dbl_of_Z n) d) * d - 1000 * n) ≤ d.
Proof. intros Hn Hd. rewrite dbl_div_of_Z by lia. by apply dbl_fixed_quotient. Qed.

Lemma thousandths_sec n :
  0 ≤ n < 2 ^ 32 → 2 * Z.abs (dbl_fixed 3 (dbl_div (dbl_of_Z n) 1000000) * 1000 - n) ≤ 1000.
Proof. intros Hn. pose proof (thousandths n 1000000 Hn ltac:(lia)). lia. Qed.

Lemma pad0_long width s : (width ≤ length s)%nat → pad0 width s = s.
Proof. intros Hl. unfold pad0. by replace (width - length s)%nat with 0%nat by lia. Qed.

Lemma print_u64_length n : (1 ≤ length (print_u64 n))%nat.
Proof.
  pose proof (decimal_not_nil 19 n) as Hn. unfold print_u64. destruct (decimal 20 n []); [done|simpl; lia].
Qed.

Lemma fixed_text_length k n : (k + 2 ≤ length (fixed_text k n))%nat.
Proof.
  unfold fixed_text, pad0. rewrite !length_app, length_replicate.
  pose proof (print_u64_length (n / 10 ^ Z.of_nat k)). simpl. lia.
Qed.

Lemma fixed_text_short k n w :
  (1 ≤ w)%nat → 0 ≤ n < 10 ^ Z.of_nat (k + w) → (1 ≤ k)%nat →
  (length (fixed_text k n) ≤ w + 1 + k)%nat.
Proof.
  intros Hw Hn Hk. pose proof (Z.pow_pos_nonneg 10 (Z.of_nat k) ltac:(lia) ltac:(lia)).
  unfold fixed_text, pad0. rewrite !length_app, length_replicate.
  assert (length (print_u64 (n / 10 ^ Z.of_nat k)) ≤ w + 0)%nat.
  { apply decimal_length; [|done]. split; [apply Z.div_pos; lia|].
    apply Z.div_lt_upper_bound; [lia|]. rewrite <-Z.pow_add_r by lia.
    replace (Z.of_nat k + Z.of_nat w) with (Z.of_nat (k + w)) by lia. lia. }
  assert (length (print_u64 (n mod 10 ^ Z.of_nat k)) ≤ k + 0)%nat.
  { apply decimal_length; [|done]. by apply Z.mod_pos_bound. }
  simpl. lia.
Qed.

(** The unit of a size. *)
Definition size_unit (n : Z) : nat :=
  if n <? 2 ^ 20 then 0 else if n <? 2 ^ 30 then 1 else if n <? 2 ^ 40 then 2 else 3.

(** One turn of the loop, where the number is exact. *)
Lemma bytes_loop_turn fuel n j i :
  0 ≤ n < 2 ^ 53 → 0 ≤ j → (i < 3)%nat →
  bytes_loop (S fuel) (dbl_round n (2 ^ j)) i =
  if 2 ^ (j + 10) <=? n then bytes_loop fuel (dbl_round n (2 ^ (j + 10))) (S i)
  else (dbl_round n (2 ^ j), i).
Proof.
  intros Hn Hj Hi. cbn [bytes_loop]. rewrite (proj2 (Nat.ltb_lt i 3)) by done.
  rewrite dbl_ge_dyadic by done. change 1024 with (2 ^ 10).
  rewrite dbl_div_dyadic, Z.mul_comm, <-Z.pow_add_r by lia. done.
Qed.

Lemma bytes_loop_spec n :
  0 ≤ n < 2 ^ 53 →
  bytes_loop 3 (dbl_div (dbl_of_Z n) 1024) 0 =
  (dbl_round n (2 ^ (10 * Z.of_nat (S (size_unit n)))), size_unit n).
Proof.
  intros Hn. rewrite dbl_div_of_Z by lia. change 1024 with (2 ^ 10).
  rewrite (bytes_loop_turn 2 n 10 0) by lia. unfold size_unit. change (10 + 10) with 20.
  destruct (Z.leb_spec (2 ^ 20) n), (Z.ltb_spec n (2 ^ 20)); try lia; [|done].
  rewrite (bytes_loop_turn 1 n 20 1) by lia. change (20 + 10) with 30.
  destruct (Z.leb_spec (2 ^ 30) n), (Z.ltb_spec n (2 ^ 30)); try lia; [|done].
  rewrite (bytes_loop_turn 0 n 30 2) by lia. change (30 + 10) with 40.
  by destruct (Z.leb_spec (2 ^ 40) n), (Z.ltb_spec n (2 ^ 40)); try lia.
Qed.

(** The hundredths fit the buffer. *)
Lemma size_hundredths n :
  0 ≤ n < 2 ^ 53 → 0 ≤ rne (100 * n) (2 ^ (10 * Z.of_nat (S (size_unit n)))) < 10 ^ Z.of_nat (2 + 5).
Proof.
  intros Hn.
  assert (∀ d b, 0 < d → n < b * d → b ≤ 2 ^ 13 →
    0 ≤ rne (100 * n) d < 10 ^ Z.of_nat (2 + 5)) as Hr.
  { intros d b Hd Hlt Hb. pose proof (rne_error (100 * n) d Hd). change (10 ^ Z.of_nat (2 + 5)) with 10000000.
    change (2 ^ 13) with 8192 in Hb. nia. }
  unfold size_unit.
  destruct (Z.ltb_spec n (2 ^ 20)); [apply (Hr _ (2 ^ 10)); cbn; lia|].
  destruct (Z.ltb_spec n (2 ^ 30)); [apply (Hr _ (2 ^ 10)); cbn; lia|].
  destruct (Z.ltb_spec n (2 ^ 40)); [apply (Hr _ (2 ^ 10)); cbn; lia|].
  apply (Hr _ (2 ^ 13)); cbn; lia.
Qed.

(** ** Properties *)

(** C25: the text of [AppendHumanMicros] in every format.  Below ten milliseconds it
    is the number itself, below ten seconds the exact milliseconds with three
    decimals; above, the seconds with a nearest number of thousandths, after
    the minutes below one hour, and after hours and minutes from one hour on or
    when asked for.  The seconds go up to "60.000", and have no zero in front
    below ten. *)
Theorem human_micros micros :
  0 ≤ micros < 2 ^ 64 →
  let s := micros mod 60000000 in
  (micros < 10000 → human_micros_text micros false = print_u64 micros ++ lit " us") ∧
  (10000 ≤ micros < 10000000 → human_micros_text micros false = fixed_text 3 micros ++ lit " ms") ∧
  (10000000 ≤ micros < 60000000 → ∃ n, 2 * Z.abs (n * 1000 - micros) ≤ 1000 ∧
     human_micros_text micros false = fixed_text 3 n ++ lit " sec") ∧
  (60000000 ≤ micros < 3600000000 → ∃ n, 2 * Z.abs (n * 1000 - s) ≤ 1000 ∧
     human_micros_text micros false =
       pad0 2 (print_u64 (micros / 60000000)) ++ lit ":" ++ fixed_text 3 n ++ lit " M:S") ∧
  (∀ fixed, 3600000000 ≤ micros ∨ fixed = true → ∃ n, 2 * Z.abs (n * 1000 - s) ≤ 1000 ∧
     human_micros_text micros fixed =
       pad0 2 (print_u64 (micros / 3600000000)) ++ lit ":" ++
       pad0 2 (print_u64 (micros / 60000000 mod 60)) ++ lit ":" ++ fixed_text 3 n ++ lit " H:M:S") ∧
  human_micros_text 119999600 false = lit "01:60.000 M:S" ∧
  human_micros_text 61500000 false = lit "01:1.500 M:S".
Proof.
  intros Hm s. pose proof (Z.mod_pos_bound micros 60000000 ltac:(lia)) as Hs.
  unfold human_micros_text. fold s. change (1000000 * 60 * 60) with 3600000000.
  change (1000000 * 60) with 60000000. rewrite !Z.div_div by lia.
  change (1000000 * 3600) with 3600000000. change (1000000 * 60) with 60000000.
  assert (∀ k, pad0 5 (fixed_text 3 k) = fixed_text 3 k) as Hpad.
  { intros k. apply pad0_long. apply (fixed_text_length 3). }
  split; [|split; [|split; [|split; [|split; [|split; vm_compute; reflexivity]]]]].
  - intros H1. by rewrite (proj2 (Z.ltb_lt _ _)) by lia.
  - intros H1. rewrite (proj2 (Z.ltb_ge _ _)), (proj2 (Z.ltb_lt _ _)) by lia. cbn [negb andb].
    pose proof (thousandths micros 1000 ltac:(lia) ltac:(lia)) as Ht.
    by replace (dbl_fixed 3 _) with micros by lia.
  - intros H1. exists (dbl_fixed 3 (dbl_div (dbl_of_Z micros) 1000000)).
    split; [apply thousandths_sec; lia|]. zbool; try lia. done.
  - intros H1. exists (dbl_fixed 3 (dbl_div (dbl_of_Z s) 1000000)).
    split; [apply thousandths_sec; unfold s; lia|]. rewrite Hpad. zbool; try lia. done.
  - intros fixed H1. exists (dbl_fixed 3 (dbl_div (dbl_of_Z s) 1000000)).
    split; [apply thousandths_sec; unfold s; lia|]. rewrite Hpad.
    destruct H1 as [H1| ->]; [|by rewrite !andb_false_r]. zbool; try lia. done.
Qed.

Lemma human_micros_witness :
  0 ≤ 2500999 < 2 ^ 64 ∧ human_micros_text 2500999 false = lit "2500.999 ms".
Proof.
  assert (0 ≤ 2500999 < 2 ^ 64) as Hm by lia. split; [exact Hm|].
  destruct (human_micros 2500999 Hm) as (_ & Hms & _). rewrite (Hms ltac:(lia)). reflexivity.
Defined.

(** [BytesToHumanString] of a size below [2^53] shows the nearest number of
    hundredths of a unit: KB below [2^20], and beyond it the largest unit up to
    TB of which there is at least one.  The buffer never cuts the text.  The
    size 1048576 is "1.00 MB". *)
Theorem human_bytes n :
  0 ≤ n < 2 ^ 53 →
  ∃ i hundredths, let unit := 2 ^ (10 * Z.of_nat (S i)) in
    BytesToHumanString n = fixed_text 2 hundredths ++ lit " " ++ nth i size_name [] ∧
    2 * Z.abs (hundredths * unit - 100 * n) ≤ unit ∧
    (i ≤ 3)%nat ∧ (i ≠ 0%nat → unit ≤ n) ∧ (i ≠ 3%nat → n < 1024 * unit) ∧
    BytesToHumanString 1048576 = lit "1.00 MB".
Proof.
  intros Hn. set (i := size_unit n). exists i, (rne (100 * n) (2 ^ (10 * Z.of_nat (S i)))). cbv zeta.
  pose proof (pow2_pos (10 * Z.of_nat (S i)) ltac:(lia)) as Hp.
  split; [|split; [by apply rne_error|]].
  - unfold BytesToHumanString. rewrite bytes_loop_spec by done. fold i.
    rewrite dbl_fixed_dyadic by lia. change (10 ^ 2) with 100.
    apply take_ge. rewrite !length_app.
    pose proof (fixed_text_short 2 (rne (100 * n) (2 ^ (10 * Z.of_nat (S i)))) 5 ltac:(lia)
      (size_hundredths n Hn) ltac:(lia)).
    assert (length (nth i size_name []) ≤ 2)%nat by (by destruct i as [|[|[|[|[]]]]]; cbn; lia).
    change (length (lit " ")) with 1%nat. lia.
  - split; [unfold i, size_unit; zbool; lia|].
    assert (1024 * 2 ^ (10 * Z.of_nat (S i)) = 2 ^ (10 * Z.of_nat (S (S i)))) as ->.
    { change 1024 with (2 ^ 10). rewrite <-Z.pow_add_r by lia. f_equal. lia. }
    clear Hp. unfold i, size_unit.
    destruct (Z.ltb_spec n (2 ^ 20)), (Z.ltb_spec n (2 ^ 30)), (Z.ltb_spec n (2 ^ 40)); cbn; try lia;
      repeat split; try done; lia.
Qed.

Lemma human_bytes_witness :
  0 ≤ 1536 * 1024 < 2 ^ 53 ∧ BytesToHumanString (1536 * 1024) = lit "1.50 MB" ∧
  BytesToHumanString 1048576 = lit "1.00 MB".
Proof.
  assert (0 ≤ 1536 * 1024 < 2 ^ 53) as Hn by lia. split; [exact Hn|]. split; [reflexivity|].
  destruct (human_bytes (1536 * 1024) Hn) as (i & h & _ & _ & _ & _ & _ & He). exact He.
Defined.
