(* ===== verification/ParseDouble.v ===== *)
(** * Reading floating-point numbers (ParseDouble of utils/string_util.cc)

    [std::stod] skips white space, takes a sign and the longest decimal or
    hexadecimal numeral, "inf" or "nan", and gives the nearest [double].  It
    throws [invalid_argument] when there is none of them, and [out_of_range] when
    the number is too large, or too small and not exact.  The theorem says that a
    number of up to fifteen digits survives being printed with [%.kf] and read. *)
From S2P Require Import Prelude Decimal Double.

(** ** Numerals *)

Definition hex_val (c : byte) : option Z :=
  let c := b2z (to_lower c) in
  if (48 <=? c) && (c <=? 57) then Some (c - 48)
  else if (97 <=? c) && (c <=? 102) then Some (c - 87)
  else None.
Definition is_hex (c : byte) : bool := bool_decide (is_Some (hex_val c)).
Definition hex_digits_val (s : bytes) : Z := foldl (λ a d, a * 16 + default 0 (hex_val d)) 0 s.

(** The digits before and after the point, and the rest; [None] without a digit. *)
Definition read_mantissa (digit : byte → bool) (s : bytes) : option (bytes * bytes * bytes) :=
  let '(whole, s) := span digit s in
  let '(frac, s) :=
    match s with
    | c :: s' => if b2z c =? 46 then span digit s' else ([], s)
    | [] => ([], s)
    end in
  match whole ++ frac with [] => None | _ => Some (whole, frac, s) end.

(** A sign, if there is one, and the rest. *)
Definition read_sign (s : bytes) : bool * bytes :=
  match s with
  | c :: s' => if b2z c =? 45 then (true, s') else if b2z c =? 43 then (false, s') else (false, s)
  | [] => (false, s)
  end.

(** The exponent behind [marker], 0 when there is no digit of one. *)
Definition read_exponent (marker : byte) (s : bytes) : Z :=
  match s with
  | c :: s' =>
      if decide (to_lower c = marker) then
        let '(neg, s') := read_sign s' in
        let v := digits_val 0 (span is_digit s').1 in
        if neg : bool then - v else v
      else 0
  | [] => 0
  end.

(** [s] begins with [word] in lower or upper case. *)
Definition begins (word s : bytes) : bool := bool_decide ((to_lower <$> take (length word) s) = word).

(** ** The number *)

Inductive number := Finite (neg : bool) (x : double) | Infinite (neg : bool) | NaN.

(** The double nearest to [n / d], when it is in the range of the type. *)
Definition in_range (n d : Z) : outcome double :=
  if n =? 0 then Ret (mkDouble 0 0) else
  let x := dbl_round n d in
  let num := dbl_mant x * 2 ^ Z.max 0 (dbl_expo x) in
  let den := 2 ^ Z.max 0 (- dbl_expo x) in
  if 2 ^ 1024 * den <=? num then Fault ThrowOutOfRange
  else if num * 2 ^ 1022 <? den then
    let m := rne (n * 2 ^ 1074) d in
    if m * d =? n * 2 ^ 1074 then Ret (mkDouble m (-1074)) else Fault ThrowOutOfRange
  else Ret x.

(** [digits * base ^ k] *)
Definition scaled (digits base k : Z) : outcome double :=
  in_range (digits * base ^ Z.max 0 k) (base ^ Z.max 0 (- k)).

(** [ParseDouble] *)
Definition ParseDouble (value : bytes) : outcome number :=
  let '(neg, s) := read_sign (span is_space value).2 in
  if begins (lit "inf") s then Ret (Infinite neg)
  else if begins (lit "nan") s then Ret NaN
  else
    match (if begins (lit "0x") s then read_mantissa is_hex (drop 2 s) else None) with
    | Some (whole, frac, rest) =>
        Finite neg <$>
          scaled (hex_digits_val (whole ++ frac)) 2 (read_exponent (z2b 112) rest - 4 * zlen frac)
    | None =>
        match read_mantissa is_digit s with
        | Some (whole, frac, rest) =>
            Finite neg <$>
              scaled (digits_val 0 (whole ++ frac)) 10 (read_exponent (z2b 101) rest - zlen frac)
        | None => Fault ThrowInvalidArgument
        end
    end.

(** ** Lemmas *)

(** The integer next to [x / d] when one is less than a half away. *)
Lemma rne_near x q d : 2 * Z.abs (x - q * d) < d → rne x d = q.
Proof. intros Hq. pose proof (rne_error x d ltac:(lia)).
  assert (- d < (rne x d - q) * d < d) by lia. nia. Qed.

Lemma pad0_digits k s :
  Forall (λ c, is_digit c = true) s → Forall (λ c, is_digit c = true) (pad0 k s).
Proof. intros Hs. apply Forall_app_2; [|done]. by apply Forall_replicate. Qed.

Lemma fraction_text k n :
  0 ≤ n < 10 ^ Z.of_nat k → n < 2 ^ 64 → (1 ≤ k)%nat →
  zlen (pad0 k (print_u64 n)) = Z.of_nat k ∧ digits_val 0 (pad0 k (print_u64 n)) = n.
Proof.
  intros Hn Hn' Hk. unfold pad0. split; [|by rewrite digits_val_zeros, print_u64_val by lia].
  pose proof (decimal_length 20 n [] k Hn Hk) as Hlen. fold (print_u64 n) in Hlen.
  unfold zlen. rewrite length_app, length_replicate. simpl in Hlen. lia.
Qed.

(** A text that begins with a digit has no sign and is no word. *)
Lemma begins_digit word s c :
  is_digit c = true → match word with w :: _ => is_digit w = false | [] => False end →
  begins word (c :: s) = false.
Proof.
  intros Hc Hw. destruct word as [|w word]; [done|]. apply bool_decide_eq_false. cbn.
  intros [= Hcw _]. apply is_digit_range in Hc as Hr. unfold to_lower in Hcw.
  rewrite (proj2 (Z.leb_gt 65 (b2z c))) in Hcw by lia. cbn in Hcw. congruence.
Qed.

Lemma begins_0x_digits ds s :
  Forall (λ c, is_digit c = true) ds → ds ≠ [] → begins (lit "0x") (ds ++ z2b 46 :: s) = false.
Proof.
  intros Hds Hne. apply bool_decide_eq_false. destruct ds as [|c [|c' ds]]; [done|by intros [=]|].
  cbn. intros [= _ Hx]. inversion Hds as [|?? _ Hds']; subst. inversion Hds' as [|?? Hc _]; subst.
  apply is_digit_range in Hc as Hr. unfold to_lower in Hx.
  rewrite (proj2 (Z.leb_gt 65 (b2z c'))) in Hx by lia. cbn in Hx. subst c'. done.
Qed.

(** A numeral with digits on both sides of its point. *)
Lemma ParseDouble_numeral whole frac :
  Forall (λ c, is_digit c = true) whole → whole ≠ [] → Forall (λ c, is_digit c = true) frac →
  ParseDouble (whole ++ z2b 46 :: frac) =
    Finite false <$> scaled (digits_val 0 (whole ++ frac)) 10 (- zlen frac).
Proof.
  intros Hw Hne Hf. unfold ParseDouble. destruct whole as [|c whole]; [done|].
  inversion Hw as [|?? Hc _]; subst. pose proof (is_digit_range c Hc) as Hr.
  rewrite <-app_comm_cons, span_stops by (unfold stops, is_space; zbool; (lia || done)).
  cbn [snd read_sign]. rewrite (proj2 (Z.eqb_neq _ 45)), (proj2 (Z.eqb_neq _ 43)) by lia.
  rewrite !(begins_digit _ _ c) by done. rewrite app_comm_cons, begins_0x_digits by done.
  assert (read_mantissa is_digit ((c :: whole) ++ z2b 46 :: frac) = Some (c :: whole, frac, [])) as ->.
  { unfold read_mantissa. rewrite span_app by done. change (b2z (z2b 46) =? 46) with true. cbn iota.
    rewrite <-(app_nil_r frac) at 1. by rewrite span_app. }
  cbn [read_exponent]. by rewrite Z.sub_0_l.
Qed.

(** A quotient far below [2 ^ 1024] and not too small is in the range. *)
Lemma in_range_quotient n d :
  0 ≤ n < 10 ^ 15 → 0 < d ≤ 2 ^ 1000 → in_range n d = Ret (dbl_round n d).
Proof.
  intros Hn Hd. unfold in_range. destruct (Z.eqb_spec n 0) as [->|Hne]; [done|].
  assert (Z.log2 n < 50) as Hlog by (apply Z.log2_lt_pow2; lia).
  pose proof (Z.log2_nonneg d). destruct (dbl_round_error n d) as (He & Hm & Herr & Hp); [lia..|].
  cbv zeta. set (m := dbl_mant _) in *. set (e := dbl_expo _) in *. specialize (Hp ltac:(lia)).
  rewrite (Z.max_l 0 e), (Z.max_r 0 (- e)), Z.mul_1_r by lia.
  set (P := 2 ^ (- e)) in *. assert (d < P) as HP.
  { pose proof (Z.log2_spec d ltac:(lia)) as [_ Hdl].
    apply Z.lt_le_trans with (2 ^ (Z.succ (Z.log2 d))); [done|]. apply Z.pow_le_mono_r; lia. }
  assert (P ≤ m * (2 * d)) as Hlow by nia. assert (m ≤ 2 * n * P) as Hhigh by nia.
  assert (2 * 2 ^ 1000 ≤ 2 ^ 1022) as Hc1 by (apply Z.leb_le; vm_compute; reflexivity).
  assert (2 * 10 ^ 15 < 2 ^ 1024) as Hc2 by (apply Z.ltb_lt; vm_compute; reflexivity).
  generalize dependent (2 ^ 1022). generalize dependent (2 ^ 1024). generalize dependent (2 ^ 1000).
  intros X Hd A HA B HB. rewrite (proj2 (Z.leb_gt _ _)) by nia. by rewrite (proj2 (Z.ltb_ge _ _)) by nia.
Qed.

(** Fifteen digits survive. *)
Lemma dbl_fixed_decimal n k :
  0 ≤ n < 10 ^ 15 → 0 ≤ k → dbl_fixed k (dbl_round n (10 ^ k)) = n.
Proof.
  intros Hn Hk. destruct (decide (n = 0)) as [->|Hne]; [by cbn|].
  assert (0 < 10 ^ k) as Hd by (apply Z.pow_pos_nonneg; lia). unfold dbl_fixed.
  assert (Z.log2 n < 50) as Hlog by (apply Z.log2_lt_pow2; lia).
  pose proof (Z.log2_nonneg (10 ^ k)). set (d := 10 ^ k) in *.
  destruct (dbl_round_error n d) as (He & Hm & Herr & Hp); [lia..|].
  set (m := dbl_mant _) in *. set (e := dbl_expo _) in *. specialize (Hp ltac:(lia)).
  rewrite (Z.max_l 0 e), (Z.max_r 0 (- e)), Z.mul_1_r by lia.
  set (P := 2 ^ (- e)) in *. apply rne_near. apply Z.le_lt_trans with d; [done|].
  pose proof (Z.log2_spec d Hd) as [_ Hdl].
  apply Z.lt_le_trans with (2 ^ (Z.succ (Z.log2 d))); [done|]. apply Z.pow_le_mono_r; lia.
Qed.

(** ** Theorems *)

(** A number of up to fifteen digits, printed with [k] decimals (from one to
    three hundred), is read as the double nearest to it, and printing that double
    with [k] decimals gives the same text again. *)
Theorem parse_print_double (n : Z) (k : nat) :
  0 ≤ n < 10 ^ 15 → (1 ≤ k ≤ 300)%nat →
  let x := dbl_round n (10 ^ Z.of_nat k) in
  ParseDouble (fixed_text k n) = Ret (Finite false x) ∧
  fixed_text k (dbl_fixed (Z.of_nat k) x) = fixed_text k n.
Proof.
  cbv zeta. intros Hn Hk. rewrite dbl_fixed_decimal by lia. split; [|done].
  assert (0 < 10 ^ Z.of_nat k) as Hd by (apply Z.pow_pos_nonneg; lia).
  pose proof (Z.mod_pos_bound n _ Hd) as Hmod. pose proof (Z.div_mod n (10 ^ Z.of_nat k) ltac:(lia)).
  pose proof (Z.mod_le n (10 ^ Z.of_nat k) ltac:(lia) Hd). pose proof (Z.div_pos n _ ltac:(lia) Hd).
  assert (n / 10 ^ Z.of_nat k ≤ n) by (apply Z.div_le_upper_bound; nia).
  destruct (fraction_text k (n mod 10 ^ Z.of_nat k)) as [Hlen Hval]; [lia..|].
  unfold fixed_text. cbn [app]. rewrite ParseDouble_numeral;
    [|apply print_u64_digits|apply decimal_not_nil|apply pad0_digits, print_u64_digits].
  rewrite digits_val_app, digits_val_shift, Hval, Hlen, print_u64_val by lia.
  replace (_ * _ + _) with n by lia. unfold scaled.
  rewrite Z.opp_involutive, (Z.max_l 0 (- _)), (Z.max_r 0 (Z.of_nat k)), Z.mul_1_r by lia.
  rewrite in_range_quotient; [done|lia|]. split; [done|].
  etrans; [apply Z.pow_le_mono_r with (c := 300); lia|]. apply Z.leb_le. vm_compute. reflexivity.
Qed.

Lemma parse_print_double_witness :
  ParseDouble (lit "3.25") = Ret (Finite false (dbl_round 325 (10 ^ 2))) ∧
  fixed_text 2 (dbl_fixed 2 (dbl_round 325 (10 ^ 2))) = fixed_text 2 325.
Proof. exact (parse_print_double 325 2 ltac:(lia) ltac:(lia)). Defined.

(** Without a digit, "inf" or "nan" behind blanks and a sign there is no number. *)
Theorem parse_no_number value :
  let s := (read_sign (span is_space value).2).2 in
  begins (lit "inf") s = false → begins (lit "nan") s = false → read_mantissa is_digit s = None →
  ParseDouble value = Fault ThrowInvalidArgument.
Proof.
  cbv zeta. unfold ParseDouble. destruct (read_sign _) as [neg s]. cbn [snd]. intros -> -> Hs.
  assert (begins (lit "0x") s = false) as ->; [|by rewrite Hs].
  apply bool_decide_eq_false. intros Hx. destruct s as [|c [|c' s]]; [done..|]. cbn in Hx.
  injection Hx as Hc _. assert (c = z2b 48) as ->.
  { unfold to_lower in Hc. destruct (_ && _) eqn:E; [|exact Hc].
    apply andb_true_iff in E as [E1%Z.leb_le E2%Z.leb_le]. apply (f_equal b2z) in Hc.
    rewrite b2z_z2b, Z.mod_small in Hc by lia. change (b2z Init.Byte.x30) with 48 in Hc. lia. }
  revert Hs. unfold read_mantissa. cbn [span]. change (is_digit (z2b 48)) with true. cbn iota.
  destruct (if is_digit c' then _ else _) as [a [|d b]]; [done|].
  destruct (b2z d =? 46); [by destruct (span is_digit b)|done].
Qed.

Example parse_half : ParseDouble (lit " -0.5e0x") = Ret (Finite true (mkDouble (2 ^ 52) (-53))).
Proof. vm_compute. reflexivity. Qed.
Example parse_hex : ParseDouble (lit "0X1.8p1") = Ret (Finite false (mkDouble (3 * 2 ^ 51) (-51))).
Proof. vm_compute. reflexivity. Qed.
Example parse_denorm : ParseDouble (lit "0x1p-1074") = Ret (Finite false (mkDouble 1 (-1074))).
Proof. vm_compute. reflexivity. Qed.
Example parse_big : ParseDouble (lit "1e400") = Fault ThrowOutOfRange.
Proof. vm_compute. reflexivity. Qed.
Example parse_small : ParseDouble (lit "1e-400") = Fault ThrowOutOfRange.
Proof. vm_compute. reflexivity. Qed.
Example parse_none : ParseDouble (lit " x1") = Fault ThrowInvalidArgument.
Proof. vm_compute. reflexivity. Qed.
Example parse_inf : ParseDouble (lit "-INFx") = Ret (Infinite true).
Proof. vm_compute. reflexivity. Qed.
