(* ===== verification/TimeText.v ===== *)
(** * Times of day for people (TimeToHumanString of utils/string_util.cc)

    [localtime_r] depends on the time zone of the environment: it is the class
    [LocalTime], and its documented behaviour for the times an [int] can hold is
    the class [LocalTimeLaws].  [UTC] is a time zone that has it.  The program
    never sets a locale, so [strftime] works in the C locale, where [%c] is
    [%a %b %e %H:%M:%S %Y]. *)
From S2P Require Import Prelude Decimal.

(** [struct tm]: months and days of the week from 0, years from 1900. *)
Record tm := mkTm {
  tm_sec : Z; tm_min : Z; tm_hour : Z; tm_mday : Z; tm_mon : Z; tm_year : Z; tm_wday : Z;
}.

Class LocalTime := localtime_r : Z → option tm.

(** The fields of a broken-down time in the years of a 32-bit [time_t]. *)
Record tm_in_range (t : tm) : Prop := {
  tm_sec_range : 0 ≤ tm_sec t ≤ 60;
  tm_min_range : 0 ≤ tm_min t < 60;
  tm_hour_range : 0 ≤ tm_hour t < 24;
  tm_mday_range : 1 ≤ tm_mday t ≤ 31;
  tm_mon_range : 0 ≤ tm_mon t < 12;
  tm_year_range : 1 ≤ tm_year t ≤ 138;
  tm_wday_range : 0 ≤ tm_wday t < 7;
}.

Class LocalTimeLaws `{LocalTime} : Prop :=
  localtime_r_int : ∀ rawtime, - 2 ^ 31 ≤ rawtime < 2 ^ 31 →
    ∃ t, localtime_r rawtime = Some t ∧ tm_in_range t.

(** ** The text *)

Definition wday_names : list bytes :=
  [lit "Sun"; lit "Mon"; lit "Tue"; lit "Wed"; lit "Thu"; lit "Fri"; lit "Sat"].
Definition month_names : list bytes :=
  [lit "Jan"; lit "Feb"; lit "Mar"; lit "Apr"; lit "May"; lit "Jun";
   lit "Jul"; lit "Aug"; lit "Sep"; lit "Oct"; lit "Nov"; lit "Dec"].

Definition name_of (names : list bytes) (i : Z) : bytes := default (lit "?") (names !! Z.to_nat i).
(** Two places, filled with [fill]. *)
Definition two (fill n : Z) : bytes :=
  let s := to_string n in replicate (2 - length s) (z2b fill) ++ s.

(** [%c] *)
Definition time_text (t : tm) : bytes :=
  name_of wday_names (tm_wday t) ++ lit " " ++ name_of month_names (tm_mon t) ++ lit " " ++
  two 32 (tm_mday t) ++ lit " " ++
  two 48 (tm_hour t) ++ lit ":" ++ two 48 (tm_min t) ++ lit ":" ++ two 48 (tm_sec t) ++ lit " " ++
  to_string (tm_year t + 1900).

(** [strftime] stores the text and a NUL when they fit, and nothing to rely on otherwise. *)
Definition strftime_c (max : Z) (t : tm) : option bytes :=
  if zlen (time_text t) <? max then Some (time_text t) else None.

Definition TimeToHumanString `{LocalTime} (unixtime : Z) : outcome bytes :=
  match localtime_r unixtime with
  | None => Fault AssertionFailed
  | Some timeinfo => match strftime_c 80 timeinfo with Some s => Ret s | None => Fault OutOfBounds end
  end.

(** ** Greenwich *)

(** Day, month and year of a number of days since 1 January 1970; the years of
    the computation begin in March. *)
Definition civil (days : Z) : Z * Z * Z :=
  let z := days + 719468 in
  let doe := z mod 146097 in
  let yoe := (doe - doe / 1460 + doe / 36524 - doe / 146096) / 365 in
  let doy := doe - (365 * yoe + yoe / 4 - yoe / 100) in
  let mp := (5 * doy + 2) / 153 in
  let mon := if mp <? 10 then mp + 2 else mp - 10 in
  (doy - (153 * mp + 2) / 5 + 1, mon, yoe + z / 146097 * 400 + (if mon <? 2 then 1 else 0)).

Definition UTC : LocalTime := λ rawtime,
  let days := rawtime / 86400 in
  let secs := rawtime mod 86400 in
  let '(mday, mon, year) := civil days in
  Some (mkTm (secs mod 60) (secs / 60 mod 60) (secs / 3600) mday mon (year - 1900) ((days + 4) mod 7)).

Example epoch : @TimeToHumanString UTC 0 = Ret (lit "Thu Jan  1 00:00:00 1970").
Proof. vm_compute. reflexivity. Qed.
Example leap : @TimeToHumanString UTC 951782400 = Ret (lit "Tue Feb 29 00:00:00 2000").
Proof. vm_compute. reflexivity. Qed.
Example first_time : @TimeToHumanString UTC (- 2 ^ 31) = Ret (lit "Fri Dec 13 20:45:52 1901").
Proof. vm_compute. reflexivity. Qed.
Example last_time : @TimeToHumanString UTC (2 ^ 31 - 1) = Ret (lit "Tue Jan 19 03:14:07 2038").
Proof. vm_compute. reflexivity. Qed.

(** The days of a 32-bit [time_t], one by one. *)
Definition civil_in_range (days : Z) : bool :=
  let '(mday, mon, year) := civil days in
  (1 <=? mday) && (mday <=? 31) && (0 <=? mon) && (mon <? 12) && (1901 <=? year) && (year <=? 2038).

Fixpoint all_from (p : Z → bool) (fuel : nat) (d : Z) : bool :=
  match fuel with O => true | S fuel => p d && all_from p fuel (d + 1) end.

Lemma all_from_spec p fuel d x : all_from p fuel d = true → d ≤ x < d + Z.of_nat fuel → p x = true.
Proof.
  revert d. induction fuel as [|fuel IH]; intros d; cbn [all_from]; [lia|].
  intros [Hd Hf]%andb_true_iff Hx. destruct (decide (x = d)) as [->|]; [done|].
  apply (IH (d + 1) Hf). lia.
Qed.

Lemma civil_days_in_range : all_from civil_in_range (Z.to_nat 49712) (- 24856) = true.
Proof. vm_compute. reflexivity. Qed.

#[export] Instance UTC_laws : @LocalTimeLaws UTC.
Proof.
  intros rawtime Hr. unfold localtime_r, UTC.
  assert (civil_in_range (rawtime / 86400) = true) as Hc.
  { apply (all_from_spec _ _ _ _ civil_days_in_range). rewrite Z2Nat.id by lia.
    split; [apply Z.div_le_lower_bound|apply Z.div_lt_upper_bound]; lia. }
  unfold civil_in_range in Hc. destruct (civil _) as [[mday mon] year]. eexists. split; [reflexivity|].
  rewrite !andb_true_iff, !Z.leb_le, !Z.ltb_lt in Hc.
  pose proof (Z.mod_pos_bound rawtime 86400 ltac:(lia)) as Hs.
  generalize dependent (rawtime mod 86400). intros secs Hs.
  split; cbn [tm_sec tm_min tm_hour tm_mday tm_mon tm_year tm_wday]; try lia.
  - pose proof (Z.mod_pos_bound secs 60). lia.
  - apply Z.mod_pos_bound. lia.
  - split; [apply Z.div_pos|apply Z.div_lt_upper_bound]; lia.
  - apply Z.mod_pos_bound. lia.
Qed.

(** ** Theorems *)

Lemma to_string_length n k :
  0 ≤ n < 10 ^ Z.of_nat k → (1 ≤ k)%nat → (length (to_string n) ≤ k)%nat.
Proof.
  intros Hn Hk. unfold to_string. rewrite (proj2 (Z.ltb_ge n 0)) by lia.
  pose proof (decimal_length 10 n [] k Hn Hk) as Hl. cbn [length] in Hl. lia.
Qed.

Lemma two_length fill n : 0 ≤ n < 100 → length (two fill n) = 2%nat.
Proof.
  intros Hn. unfold two. pose proof (to_string_length n 2 ltac:(lia) ltac:(lia)).
  rewrite length_app, length_replicate. lia.
Qed.

Lemma name_of_length names i :
  0 ≤ i < zlen names → Forall (λ s, length s = 3%nat) names → length (name_of names i) = 3%nat.
Proof.
  intros Hi Hn. unfold name_of. unfold zlen in Hi.
  destruct (lookup_lt_is_Some_2 names (Z.to_nat i)) as [s Hs]; [lia|].
  rewrite Hs. exact (proj1 (Forall_lookup _ _) Hn _ _ Hs).
Qed.

(** Four digits of a year. *)
Lemma year_length y : 1000 ≤ y < 10000 → length (to_string y) = 4%nat.
Proof.
  intros Hy. pose proof (to_string_length y 4 ltac:(lia) ltac:(lia)) as Hle.
  enough (¬ (length (to_string y) ≤ 3)%nat) by lia. intros Hl.
  unfold to_string in Hl. rewrite (proj2 (Z.ltb_ge y 0)) in Hl by lia.
  pose proof (digits_val_decimal 10 y [] ltac:(lia)) as Hv. cbn [digits_val foldl] in Hv.
  pose proof (digits_val_bound (decimal 10 y []) (decimal_all_digits 10 y [] (Forall_nil_2 _))) as Hb.
  assert (10 ^ zlen (decimal 10 y []) ≤ 10 ^ 3) by (apply Z.pow_le_mono_r; unfold zlen; lia). lia.
Qed.

Lemma time_text_length t : tm_in_range t → zlen (time_text t) = 24.
Proof.
  intros []. unfold time_text, zlen. rewrite !length_app, !two_length, year_length by lia.
  rewrite !name_of_length; [done|done|by repeat constructor|done|by repeat constructor].
Qed.

(** For every time an [int] holds the text has 24 characters, so it fits in
    the buffer, and the function returns it whole. *)
Theorem time_to_human_string `{LocalTimeLaws} unixtime :
  - 2 ^ 31 ≤ unixtime < 2 ^ 31 →
  ∃ t, localtime_r unixtime = Some t ∧ TimeToHumanString unixtime = Ret (time_text t) ∧
    zlen (time_text t) = 24.
Proof.
  intros Hu. destruct (localtime_r_int unixtime Hu) as (t & Ht & Hr). exists t.
  pose proof (time_text_length t Hr) as Hlen. split; [done|]. split; [|done].
  unfold TimeToHumanString, strftime_c. by rewrite Ht, Hlen.
Qed.

Lemma time_to_human_string_witness :
  ∃ t, UTC 951782400 = Some t ∧
    @TimeToHumanString UTC 951782400 = Ret (time_text t) ∧ zlen (time_text t) = 24.
Proof. exact (@time_to_human_string UTC UTC_laws 951782400 ltac:(lia)). Defined.
