(* ===== verification/DebugString.v ===== *)
(** * The debug strings of internal keys (db_format/dbformat.cc, lines 92 to 112)

    The user key, as it is or in hex, between quotes, then the sequence number
    and the type; what does not parse is escaped. *)
From S2P Require Import Prelude Decimal Slice Coding DbFormat Merger StringUtil.

(** What [snprintf] leaves in the buffer of 50 characters. *)
Definition debug_footer (s : Z) (t : ValueType) : bytes :=
  take 49 (lit "' seq:" ++ print_u64 s ++ lit ", type:" ++ to_string t).

(** [ParsedInternalKey::DebugString] *)
Definition ParsedInternalKey_DebugString (hex : bool) (p : ParsedInternalKey) : bytes :=
  lit "'" ++ Slice_ToString hex (user_key p) ++ debug_footer (sequence p) (type p).

(** [InternalKey::DebugString] *)
Definition InternalKey_DebugString `{Platform} (uninit : ValueType) (hex : bool) (rep_ : bytes) : bytes :=
  let '(ok, parsed) := ParseInternalKey rep_ (ParsedInternalKey_new uninit) in
  if ok then ParsedInternalKey_DebugString hex parsed else lit "(bad)" ++ EscapeString rep_.

(** ** Lemmas *)

Definition quote : byte := z2b 39.

(** The number and the type in full. *)
Lemma debug_footer_full s t :
  0 ≤ s < 2 ^ 64 → 0 ≤ t < 256 →
  debug_footer s t = quote :: lit " seq:" ++ print_u64 s ++ lit ", type:" ++ decimal 10 t [].
Proof.
  intros Hs Ht. unfold debug_footer, to_string. rewrite (proj2 (Z.ltb_ge t 0)) by lia.
  etrans; [apply take_ge|done]. rewrite !length_app.
  pose proof (decimal_length 20 s [] 20 ltac:(lia) ltac:(lia)).
  pose proof (decimal_length 10 t [] 3 ltac:(lia) ltac:(lia)).
  unfold print_u64. cbn [length] in *. change (length (lit "' seq:")) with 6%nat.
  change (length (lit ", type:")) with 7%nat. lia.
Qed.

(** The last quote of a string is found from its end. *)
Lemma last_quote a b a' b' :
  Forall (λ c, negb (bool_decide (c = quote)) = true) b →
  Forall (λ c, negb (bool_decide (c = quote)) = true) b' →
  a ++ quote :: b = a' ++ quote :: b' → a = a' ∧ b = b'.
Proof.
  intros Hb Hb' E. apply (f_equal reverse) in E. rewrite !reverse_app, !reverse_cons, <-!app_assoc in E.
  apply Forall_reverse in Hb, Hb'. cbn [app] in E.
  assert (∀ l, stops (λ c, negb (bool_decide (c = quote))) (quote :: l)) as Hq by done.
  pose proof (span_app _ _ _ Hb (Hq (reverse a))) as H1.
  pose proof (span_app _ _ _ Hb' (Hq (reverse a'))) as H2.
  rewrite E, H2 in H1. injection H1 as E1 E2.
  split; apply (inj reverse); congruence.
Qed.

(** Digits, then something else: both parts can be told. *)
Lemma digits_split a s a' s' :
  Forall (λ c, is_digit c = true) a → Forall (λ c, is_digit c = true) a' →
  stops is_digit s → stops is_digit s' → a ++ s = a' ++ s' → a = a' ∧ s = s'.
Proof.
  intros Ha Ha' Hs Hs' E. pose proof (span_app _ _ _ Ha Hs) as H1.
  pose proof (span_app _ _ _ Ha' Hs') as H2. rewrite E, H2 in H1. by injection H1 as -> ->.
Qed.

Lemma digit_no_quote s :
  Forall (λ c, is_digit c = true) s → Forall (λ c, negb (bool_decide (c = quote)) = true) s.
Proof.
  intros Hs. eapply Forall_impl; [exact Hs|]. intros c Hc. simpl in Hc.
  rewrite bool_decide_eq_false_2; [done|]. by intros ->.
Qed.

Lemma debug_footer_inj a s t a' s' t' :
  0 ≤ s < 2 ^ 64 → 0 ≤ t < 256 → 0 ≤ s' < 2 ^ 64 → 0 ≤ t' < 256 →
  a ++ debug_footer s t = a' ++ debug_footer s' t' → a = a' ∧ s = s' ∧ t = t'.
Proof.
  intros Hs Ht Hs' Ht' E. rewrite !debug_footer_full in E by done.
  assert (∀ s t, Forall (λ c, negb (bool_decide (c = quote)) = true)
    (lit " seq:" ++ print_u64 s ++ lit ", type:" ++ decimal 10 t [])) as Hq.
  { intros x y. rewrite !Forall_app. split; [repeat constructor|].
    split; [apply digit_no_quote, print_u64_digits|]. split; [repeat constructor|].
    by apply digit_no_quote, decimal_all_digits. }
  apply last_quote in E as [-> E]; [|apply Hq..]. apply app_inv_head in E. split; [done|].
  apply digits_split in E as [E1 E2]; [|apply print_u64_digits|apply print_u64_digits|done|done].
  apply app_inv_head in E2.
  split.
  - by rewrite <-(print_u64_val s), E1, print_u64_val.
  - apply (f_equal (digits_val 0)) in E2. by rewrite !digits_val_decimal in E2 by lia.
Qed.

Lemma Slice_ToString_inj hex a b : Slice_ToString hex a = Slice_ToString hex b → a = b.
Proof.
  destruct hex; [|done]. intros E. pose proof (decode_hex_loop_ToString a []) as Ha.
  rewrite E, decode_hex_loop_ToString in Ha. by injection Ha.
Qed.

(** ** Properties *)

(** C24: the debug string of an encoded valid key is that of the key; the buffer
    never cuts the number or the type, and two valid keys with one debug string
    are equal, also without hex, whatever bytes are in the user key.  What does
    not parse is shown as "(bad)" and its bytes. *)
Theorem debug_string_injective (P : Platform) uninit hex p q k :
  valid_key p → valid_key q →
  InternalKey_DebugString uninit hex (encode_key p) = ParsedInternalKey_DebugString hex p ∧
  ParsedInternalKey_DebugString hex p =
    lit "'" ++ Slice_ToString hex (user_key p) ++
    lit "' seq:" ++ print_u64 (sequence p) ++ lit ", type:" ++ to_string (type p) ∧
  (ParsedInternalKey_DebugString hex p = ParsedInternalKey_DebugString hex q → p = q) ∧
  ((∀ r, encode_key r = k → ¬ valid_key r) →
     InternalKey_DebugString uninit hex k = lit "(bad)" ++ EscapeString k).
Proof.
  intros Hp Hq. destruct (valid_key_bounds p Hp) as (Hsp & Htp & _).
  destruct (valid_key_bounds q Hq) as (Hsq & Htq & _).
  split; [|split; [|split]].
  - unfold InternalKey_DebugString. by rewrite ParseInternalKey_encode.
  - unfold ParsedInternalKey_DebugString. rewrite debug_footer_full by lia.
    unfold to_string. by rewrite (proj2 (Z.ltb_ge (type p) 0)) by lia.
  - unfold ParsedInternalKey_DebugString. intros E%app_inv_head.
    apply debug_footer_inj in E as (E & Es & Et); [|lia..].
    apply Slice_ToString_inj in E. destruct p, q. cbn in *. by subst.
  - intros Hk. unfold InternalKey_DebugString. destruct (ParseInternalKey k _) as [[] r] eqn:E; [|done].
    apply ParseInternalKey_valid in E as [Hr Hek]. by destruct (Hk r Hek).
Qed.

Lemma debug_string_injective_witness :
  let p := mkParsedInternalKey [z2b 97; z2b 39] 7 kTypeValue in
  valid_key p ∧
  InternalKey_DebugString (H:=LittleEndianHost) 0 false (encode_key p) = lit "'a'' seq:7, type:1".
Proof.
  cbv zeta. set (p := mkParsedInternalKey [z2b 97; z2b 39] 7 kTypeValue).
  assert (valid_key p) as Hp by by_decide. split; [exact Hp|].
  destruct (debug_string_injective LittleEndianHost 0 false p p [] Hp Hp) as (E & _).
  rewrite E. reflexivity.
Defined.
