(* ===== verification/Cleanable.v ===== *)
(** * Cleanable (utils/cleanable.h, utils/cleanable.cc)

    An object that runs registered clean-up calls when it is destroyed or
    reset.  The first call is in the object, the others in a list on the heap
    that the object owns; a null [function] means that there is none.  A call
    (function and its two arguments) is an element of a type [C].

    The theorem follows any number of objects through registrations,
    delegations, moves and resets.  Delegating an object to itself is not
    modelled. *)
From S2P Require Import Prelude PriorityQueue.

Section cleanable.
Context {C : Type}.

(** [cleanup_]: its function and arguments when not null, and [next]. *)
Record Cleanable := mkCleanable { function : option C; next : list C }.

Definition Cleanable_new : Cleanable := mkCleanable None [].

(** [RegisterCleanup(func, arg1, arg2)] and [RegisterCleanup(c)], which differ
    in where the list node comes from. *)
Definition RegisterCleanup (o : Cleanable) (c : C) : Cleanable :=
  match function o with
  | None => mkCleanable (Some c) (next o)
  | Some f => mkCleanable (Some f) (c :: next o)
  end.

(** [DoCleanup]: the calls in the order they run. *)
Definition DoCleanup (o : Cleanable) : list C :=
  match function o with None => [] | Some f => f :: next o end.

Definition Reset (o : Cleanable) : Cleanable * list C := (mkCleanable None [], DoCleanup o).

(** [operator=(Cleanable &&)]: the object and [other] afterwards. *)
Definition move_assign (o other : Cleanable) : Cleanable * Cleanable :=
  (mkCleanable (function other) (next other), mkCleanable None []).

(** [DelegateCleanupsTo]: the object and [other] afterwards. *)
Definition DelegateCleanupsTo (o other : Cleanable) : Cleanable * Cleanable :=
  match function o with
  | None => (o, other)
  | Some f => (mkCleanable None [], foldl RegisterCleanup (RegisterCleanup other f) (next o))
  end.

(** ** Programs over several objects *)

Inductive cleanup_op :=
  | OpRegister (i : nat) (c : C)
  | OpDelegate (i j : nat)   (** [objs[i].DelegateCleanupsTo(&objs[j])] *)
  | OpMove (i j : nat)       (** [objs[j] = std::move(objs[i])] *)
  | OpReset (i : nat).

(** The objects, and the calls that have run. *)
Definition cleanup_step (s : list Cleanable * list C) (op : cleanup_op) : list Cleanable * list C :=
  let '(objs, ran) := s in
  match op with
  | OpRegister i c =>
      match objs !! i with Some o => (<[i := RegisterCleanup o c]> objs, ran) | None => s end
  | OpDelegate i j =>
      match objs !! i, objs !! j with
      | Some o, Some other =>
          let '(o, other) := DelegateCleanupsTo o other in (<[j := other]> (<[i := o]> objs), ran)
      | _, _ => s
      end
  | OpMove i j =>
      if decide (i = j) then s else
      match objs !! i, objs !! j with
      | Some other, Some o =>
          let '(o, other) := move_assign o other in (<[j := o]> (<[i := other]> objs), ran)
      | _, _ => s
      end
  | OpReset i =>
      match objs !! i with
      | Some o => let '(o, calls) := Reset o in (<[i := o]> objs, ran ++ calls)
      | None => s
      end
  end.

(** What an operation registers. *)
Definition registers (objs : list Cleanable) (op : cleanup_op) : list C :=
  match op with
  | OpRegister i c => if decide (i < length objs)%nat then [c] else []
  | _ => []
  end.

(** An object that is moved into has nothing to do. *)
Definition op_allowed (objs : list Cleanable) (op : cleanup_op) : Prop :=
  match op with
  | OpMove i j => i ≠ j → match objs !! j with Some o => DoCleanup o = [] | None => True end
  | OpDelegate i j => i ≠ j
  | _ => True
  end.

(** A program all of whose operations are allowed where they run. *)
Inductive allowed : list Cleanable * list C → list cleanup_op → Prop :=
  | allowed_nil s : allowed s []
  | allowed_cons s op ops : op_allowed s.1 op → allowed (cleanup_step s op) ops → allowed s (op :: ops).

Definition run_ops (s : list Cleanable * list C) (ops : list cleanup_op) : list Cleanable * list C :=
  foldl cleanup_step s ops.
Definition all_registered (n : nat) (ops : list cleanup_op) : list C :=
  ops ≫= λ op, match op with OpRegister i c => if decide (i < n)%nat then [c] else [] | _ => [] end.

(** The calls that wait in the objects. *)
Definition pending (objs : list Cleanable) : list C := objs ≫= DoCleanup.

(** ** Lemmas *)

(** A null function has no list. *)
Definition clean_ok (o : Cleanable) : Prop := function o = None → next o = [].

Lemma Register_pending o c :
  clean_ok o → clean_ok (RegisterCleanup o c) ∧ DoCleanup (RegisterCleanup o c) ≡ₚ c :: DoCleanup o.
Proof.
  destruct o as [[f|] l]; unfold clean_ok; cbn; intros Ho.
  - split; [done|apply Permutation_swap].
  - by rewrite Ho.
Qed.

Lemma foldl_Register_pending o cs :
  clean_ok o → clean_ok (foldl RegisterCleanup o cs) ∧
  DoCleanup (foldl RegisterCleanup o cs) ≡ₚ cs ++ DoCleanup o.
Proof.
  revert o. induction cs as [|c cs IH]; intros o Ho; [done|]. cbn [foldl app].
  destruct (Register_pending o c Ho) as [Ho' Hp]. destruct (IH _ Ho') as [? ->].
  split; [done|]. by rewrite Hp, Permutation_middle.
Qed.

Lemma Delegate_pending o other :
  clean_ok o → clean_ok other →
  let '(o', other') := DelegateCleanupsTo o other in
  clean_ok o' ∧ clean_ok other' ∧ DoCleanup o' = [] ∧ DoCleanup other' ≡ₚ DoCleanup o ++ DoCleanup other.
Proof.
  intros Ho Hother. destruct o as [[f|] l]; cbn; [|by rewrite Ho].
  destruct (Register_pending other f Hother) as [H1 Hp].
  destruct (foldl_Register_pending _ l H1) as [H2 Hp2]. split_and!; try done.
  by rewrite Hp2, Hp, Permutation_middle.
Qed.

Lemma pending_insert objs i o o' :
  objs !! i = Some o → pending (<[i := o']> objs) ++ DoCleanup o ≡ₚ pending objs ++ DoCleanup o'.
Proof.
  intros Hi. unfold pending. rewrite insert_take_drop by (by eapply lookup_lt_Some).
  rewrite <-(take_drop_middle objs i o) at 3 by done. rewrite !bind_app. cbn [mbind list_bind].
  solve_Permutation.
Qed.

Lemma Forall_insert_ok objs i (o : Cleanable) :
  Forall clean_ok objs → clean_ok o → Forall clean_ok (<[i := o]> objs).
Proof. intros. by apply Forall_insert. Qed.

(** Two objects change: the pending calls of the others stay. *)
Lemma pending_insert2 objs i j o o' other other' :
  i ≠ j → objs !! i = Some o → objs !! j = Some other →
  pending (<[j := other']> (<[i := o']> objs)) ++ DoCleanup o ++ DoCleanup other ≡ₚ
  pending objs ++ DoCleanup o' ++ DoCleanup other'.
Proof.
  intros Hij Hi Hj.
  pose proof (pending_insert objs i o o' Hi) as H1.
  pose proof (pending_insert (<[i := o']> objs) j other other') as H2.
  rewrite list_lookup_insert_ne in H2 by done. specialize (H2 Hj).
  rewrite (Permutation_app_comm (DoCleanup o)), app_assoc, H2, <-app_assoc,
    (Permutation_app_comm (DoCleanup other')), app_assoc, H1, <-app_assoc. done.
Qed.

Lemma cleanup_step_conserves objs ran op :
  Forall clean_ok objs → op_allowed objs op →
  let '(objs', ran') := cleanup_step (objs, ran) op in
  Forall clean_ok objs' ∧ length objs' = length objs ∧
  ran' ++ pending objs' ≡ₚ registers objs op ++ ran ++ pending objs.
Proof.
  intros Hok Hop. destruct op as [i c|i j|i j|i]; cbn [cleanup_step registers op_allowed] in *.
  - destruct (objs !! i) as [o|] eqn:Hi.
    + destruct (Register_pending o c) as [Ho Hp]; [by eapply Forall_lookup_1|].
      rewrite decide_True by (by eapply lookup_lt_Some). rewrite length_insert.
      split; [by apply Forall_insert_ok|]. split; [done|].
      pose proof (pending_insert objs i o (RegisterCleanup o c) Hi) as Hins. rewrite Hp in Hins.
      apply (Permutation_app_inv_r (DoCleanup o)). rewrite <-!app_assoc, Hins. solve_Permutation.
    + rewrite decide_False; [done|]. apply lookup_ge_None in Hi. lia.
  - destruct (objs !! i) as [o|] eqn:Hi; [|done]. destruct (objs !! j) as [other|] eqn:Hj; [|done].
    assert (clean_ok o ∧ clean_ok other) as [Ho Hother] by (split; by eapply Forall_lookup_1).
    pose proof (Delegate_pending o other Ho Hother) as Hd.
    destruct (DelegateCleanupsTo o other) as [o' other']. destruct Hd as (Ho' & Hother' & Hnil & Hp).
    rewrite !length_insert. split; [apply Forall_insert_ok; [by apply Forall_insert_ok|done]|]. split; [done|].
    pose proof (pending_insert2 objs i j o o' other other' Hop Hi Hj) as Hins.
    rewrite Hnil, Hp in Hins. apply Permutation_app_inv_r in Hins. by rewrite Hins.
  - case_decide as Hij; [done|]. specialize (Hop Hij).
    destruct (objs !! i) as [other|] eqn:Hi; [|done]. destruct (objs !! j) as [o|] eqn:Hj; [|done].
    cbn [move_assign]. rewrite !length_insert. split; [|split; [done|]].
    + apply Forall_insert_ok; [by apply Forall_insert_ok|].
      apply (Forall_lookup_1 _ _ _ _ Hok) in Hi. by destruct other.
    + pose proof (pending_insert2 objs i j other (mkCleanable None []) o
        (mkCleanable (function other) (next other)) Hij Hi Hj) as Hins.
      rewrite Hop, app_nil_r in Hins. cbn [DoCleanup function next app] in Hins.
      apply (Permutation_app_inv_r (DoCleanup other)). by rewrite <-!app_assoc, Hins.
  - destruct (objs !! i) as [o|] eqn:Hi; [|done]. cbn [Reset]. rewrite length_insert.
    split; [by apply Forall_insert_ok|]. split; [done|].
    pose proof (pending_insert objs i o (mkCleanable None []) Hi) as Hins.
    cbn [DoCleanup function] in Hins. rewrite app_nil_r in Hins.
    rewrite <-app_assoc, (Permutation_app_comm (DoCleanup o)), Hins. done.
Qed.
End cleanable.
Arguments Cleanable C : clear implicits.

(** ** Properties *)

(** C21: Every clean-up call runs exactly once.  Through any program of
    registrations, delegations, moves into objects with nothing to do, and
    resets, the calls that have run and the calls that wait are together the
    calls registered; so when every object has been reset, what ran is a
    permutation of what was registered.  A move into an object that has calls
    loses them: they neither run nor wait. *)
Theorem cleanups_run_once {C} (n : nat) (ops : list (@cleanup_op C)) (c d : C) :
  allowed (replicate n Cleanable_new, []) ops →
  (let '(objs, ran) := run_ops (replicate n Cleanable_new, []) ops in
   ran ++ pending objs ≡ₚ all_registered n ops ∧
   (Forall (λ o, DoCleanup o = []) objs → ran ≡ₚ all_registered n ops)) ∧
  (let '(objs, ran) := run_ops ([Cleanable_new; Cleanable_new], [])
     [OpRegister 0 c; OpRegister 1 d; OpMove 0 1] in ran = [] ∧ pending objs = [c]).
Proof.
  intros Hall. split; [|done].
  assert (∀ (objs : list (Cleanable C)) ran ops, Forall clean_ok objs → length objs = n → allowed (objs, ran) ops →
    let '(objs', ran') := run_ops (objs, ran) ops in
    ran' ++ pending objs' ≡ₚ all_registered n ops ++ ran ++ pending objs) as Hgen.
  { clear ops Hall. intros objs ran ops. revert objs ran.
    induction ops as [|op ops IH]; intros objs ran Hok Hlen Hall; [cbn; reflexivity|].
    inversion Hall as [|? ? ? Hop Hrest]; subst. cbn [run_ops foldl].
    pose proof (cleanup_step_conserves objs ran op Hok Hop) as Hstep.
    destruct (cleanup_step (objs, ran) op) as [objs1 ran1]. destruct Hstep as (Hok1 & Hl1 & Hp1).
    specialize (IH objs1 ran1 Hok1 Hl1 Hrest). unfold run_ops in IH.
    destruct (foldl cleanup_step (objs1, ran1) ops) as [objs2 ran2]. rewrite IH, Hp1.
    unfold all_registered. cbn [mbind list_bind]. unfold registers. destruct op; solve_Permutation. }
  pose proof (Hgen (replicate n Cleanable_new) [] ops) as Hrun.
  destruct (run_ops _ ops) as [objs ran].
  assert (ran ++ pending objs ≡ₚ all_registered n ops) as Hperm.
  { rewrite Hrun; [|by apply Forall_replicate|by apply length_replicate|done].
    replace (pending (replicate n Cleanable_new)) with (@nil C); [by rewrite !app_nil_r|].
    clear. unfold pending. induction n as [|n IH]; [done|]. cbn. exact IH. }
  split; [done|]. intros Hdone. rewrite <-Hperm.
  replace (pending objs) with (@nil C); [by rewrite app_nil_r|].
  clear -Hdone. unfold pending. induction Hdone as [|o objs Ho _ IH]; [done|].
  by rewrite bind_cons, Ho, app_nil_l.
Qed.

Lemma cleanups_run_once_witness :
  let ops := [OpRegister 0 1; OpRegister 0 2; OpDelegate 0 1; OpReset 1] in
  allowed (replicate 2 Cleanable_new, []) ops ∧
  (let '(objs, ran) := run_ops (replicate 2 Cleanable_new, []) ops in ran ≡ₚ [1; 2]).
Proof.
  cbv zeta.
  assert (allowed (replicate 2 Cleanable_new, []) [OpRegister 0 1; OpRegister 0 2; OpDelegate 0 1; OpReset 1])
    as Hall by (repeat constructor; discriminate).
  split; [exact Hall|].
  destruct (cleanups_run_once 2 _ 1 2 Hall) as [[_ H] _]. apply H. repeat constructor.
Defined.
