(* ===== verification/PinnableSlice.v ===== *)
(** * PinnableSlice (include/slice.h, utils/slice.cc)

    A slice that either shows memory that someone else keeps alive (it is
    pinned, and holds the clean-up calls that release the memory) or shows a
    string: its own, or one the caller gave.  The strings of callers are a store
    that all objects share.

    A moved-from object, and an object that was built by a move from a pinned
    one, is where the pointers [buf_] and [data_] matter: they are modelled as
    pointers, and a pointer that was never set is one of their values. *)
From S2P Require Import Prelude Cleanable.

(** [buf_]: the string of the object itself, a caller's, or not initialised. *)
Inductive buf_ptr := BufSelf | BufCaller (i : nat) | BufUninit.
#[global] Instance buf_ptr_eq_dec : EqDecision buf_ptr.
Proof. solve_decision. Defined.

(** [data_]: the literal [""], a place in pinned memory, or the start of a
    string. *)
Inductive data_ptr :=
  | DataLiteral
  | DataPinned (mem : bytes) (off : nat)
  | DataBuf (b : buf_ptr).

(** The strings of callers. *)
Abbreviation strings := (gmap nat bytes).

Section pinnable.
Context {C : Type}.

Record PinnableSlice := mkPinnable {
  cleanable : Cleanable C;
  data_ : data_ptr;
  size_ : nat;
  self_space_ : bytes;
  buf_ : buf_ptr;
  pinned_ : bool;
}.

Definition PinnableSlice_new : PinnableSlice :=
  mkPinnable Cleanable_new DataLiteral 0 [] BufSelf false.
Definition PinnableSlice_on (i : nat) : PinnableSlice :=
  mkPinnable Cleanable_new DataLiteral 0 [] (BufCaller i) false.

(** [*p], for an object with the string [self]. *)
Definition string_at (st : strings) (self : bytes) (p : buf_ptr) : outcome bytes :=
  match p with
  | BufSelf => Ret self
  | BufCaller i => match st !! i with Some s => Ret s | None => Fault UseAfterFree end
  | BufUninit => Fault UseAfterFree
  end.
Definition read_buf (st : strings) (o : PinnableSlice) : outcome bytes :=
  string_at st (self_space_ o) (buf_ o).

(** [*buf_ = s] *)
Definition write_buf (st : strings) (o : PinnableSlice) (s : bytes) : outcome (strings * PinnableSlice) :=
  match buf_ o with
  | BufSelf => Ret (st, mkPinnable (cleanable o) (data_ o) (size_ o) s (buf_ o) (pinned_ o))
  | BufCaller i => match st !! i with Some _ => Ret (<[i := s]> st, o) | None => Fault UseAfterFree end
  | BufUninit => Fault UseAfterFree
  end.

(** The bytes the slice shows. *)
Definition content (st : strings) (o : PinnableSlice) : outcome bytes :=
  s ← match data_ o with
      | DataLiteral => Ret []
      | DataPinned mem off => Ret (drop off mem)
      | DataBuf p => string_at st (self_space_ o) p
      end;
  if (size_ o <=? length s)%nat then Ret (take (size_ o) s) else Fault OutOfBounds.

Definition with_view (d : data_ptr) (n : nat) (pinned : bool) (o : PinnableSlice) : PinnableSlice :=
  mkPinnable (cleanable o) d n (self_space_ o) (buf_ o) pinned.
Definition with_cleanable (c : Cleanable C) (o : PinnableSlice) : PinnableSlice :=
  mkPinnable c (data_ o) (size_ o) (self_space_ o) (buf_ o) (pinned_ o).

(** [PinSlice(s, f, arg1, arg2)] and [PinSlice(s, cleanable)], where [s] shows
    [n] bytes of [mem] from [off]. *)
Definition PinSlice (o : PinnableSlice) (mem : bytes) (off n : nat) (c : C) : outcome PinnableSlice :=
  assert! negb (pinned_ o) ;;
  let o := with_view (DataPinned mem off) n true o in
  Ret (with_cleanable (RegisterCleanup (cleanable o) c) o).
Definition PinSlice_from (o : PinnableSlice) (mem : bytes) (off n : nat) (c : Cleanable C) :
    outcome (PinnableSlice * Cleanable C) :=
  assert! negb (pinned_ o) ;;
  let o := with_view (DataPinned mem off) n true o in
  let '(c, mine) := DelegateCleanupsTo c (cleanable o) in
  Ret (with_cleanable mine o, c).

(** [PinSelf()] and [PinSelf(slice)]. *)
Definition PinSelf (st : strings) (o : PinnableSlice) : outcome PinnableSlice :=
  assert! negb (pinned_ o) ;;
  s ← read_buf st o;
  Ret (with_view (DataBuf (buf_ o)) (length s) (pinned_ o) o).
Definition PinSelf_slice (st : strings) (o : PinnableSlice) (slice : bytes) :
    outcome (strings * PinnableSlice) :=
  assert! negb (pinned_ o) ;;
  '(st, o) ← write_buf st o slice;
  o ← PinSelf st o;
  Ret (st, o).

(** [std::string::erase(pos, n)] *)
Definition string_erase (s : bytes) (pos n : nat) : outcome bytes :=
  if (length s <? pos)%nat then Fault ThrowOutOfRange else Ret (take pos s ++ drop (pos + n) s).

Definition remove_suffix (st : strings) (o : PinnableSlice) (n : nat) : outcome (strings * PinnableSlice) :=
  assert! (n <=? size_ o)%nat ;;
  if pinned_ o then Ret (st, with_view (data_ o) (size_ o - n) true o) else
  s ← read_buf st o;
  s ← string_erase s (size_ o - n) n;
  '(st, o) ← write_buf st o s;
  o ← PinSelf st o;
  Ret (st, o).

Definition data_add (d : data_ptr) (n : nat) : data_ptr :=
  match d with DataPinned mem off => DataPinned mem (off + n) | d => d end.

Definition remove_prefix (st : strings) (o : PinnableSlice) (n : nat) : outcome (strings * PinnableSlice) :=
  assert! (n <=? size_ o)%nat ;;
  if pinned_ o then Ret (st, with_view (data_add (data_ o) n) (size_ o - n) true o) else
  s ← read_buf st o;
  s ← string_erase s 0 n;
  '(st, o) ← write_buf st o s;
  o ← PinSelf st o;
  Ret (st, o).

(** The object and the calls that run. *)
Definition PinnableSlice_Reset (o : PinnableSlice) : PinnableSlice * list C :=
  let '(c, calls) := Cleanable.Reset (cleanable o) in
  (with_view (data_ o) 0 false (with_cleanable c o), calls).

(** [operator=(PinnableSlice &&)] of two different objects: both afterwards, and
    the calls that run. *)
Definition PinnableSlice_move_assign (o other : PinnableSlice) :
    PinnableSlice * PinnableSlice * list C :=
  let '(c, calls) := Cleanable.Reset (cleanable o) in
  let '(c, c') := Cleanable.move_assign c (cleanable other) in
  let o' :=
    if pinned_ other then mkPinnable c (data_ other) (size_ other) (self_space_ o) (buf_ o) true
    else if decide (buf_ other = BufSelf) then
      mkPinnable c (DataBuf BufSelf) (size_ other) (self_space_ other) BufSelf false
    else mkPinnable c (data_ other) (size_ other) (self_space_ o) (buf_ other) false in
  (o', mkPinnable c' (DataBuf BufSelf) 0 [] BufSelf false, calls).

(** [PinnableSlice(PinnableSlice &&)]: [buf_] is not initialised before the
    assignment. *)
Definition PinnableSlice_move (other : PinnableSlice) : PinnableSlice * PinnableSlice :=
  (PinnableSlice_move_assign (mkPinnable Cleanable_new DataLiteral 0 [] BufUninit false) other).1.

(** ** The objects that programs see *)

(** A pinned object shows a part of its memory; another shows all of its string,
    or nothing. *)
Definition shows (st : strings) (o : PinnableSlice) (s : bytes) : Prop :=
  if pinned_ o then ∃ mem off, data_ o = DataPinned mem off ∧ (off + size_ o ≤ length mem)%nat ∧
    s = take (size_ o) (drop off mem)
  else read_buf st o = Ret s ∧ size_ o = length s ∧
    (data_ o = DataBuf (buf_ o) ∨ (data_ o = DataLiteral ∧ s = [])).

(** ** Lemmas *)

Lemma shows_content st o s : shows st o s → content st o = Ret s.
Proof.
  unfold shows, content. destruct (pinned_ o).
  - intros (mem & off & -> & Hle & ->). cbn. rewrite length_drop.
    destruct (Nat.leb_spec (size_ o) (length mem - off)); [done|lia].
  - intros (Hb & Hn & [->|[-> ->]]); cbn.
    + unfold read_buf in Hb. rewrite Hb, Hn. cbn. rewrite Nat.leb_refl, take_ge by lia. done.
    + rewrite Hn. done.
Qed.

Lemma shows_size st o s : shows st o s → size_ o = length s.
Proof.
  unfold shows. destruct (pinned_ o); [|naive_solver].
  intros (mem & off & _ & Hle & ->). rewrite length_take, length_drop. lia.
Qed.

(** A write to the string of an object that has one, followed by [PinSelf]. *)
Lemma write_PinSelf st o s0 s :
  pinned_ o = false → read_buf st o = Ret s0 →
  ∃ st' o', write_buf st o s = Ret (st', o') ∧
    ∃ o2, PinSelf st' o' = Ret o2 ∧ shows st' o2 s ∧ pinned_ o2 = false ∧
      cleanable o2 = cleanable o ∧ buf_ o2 = buf_ o.
Proof.
  intros Hp Hr. unfold read_buf, write_buf, PinSelf, shows, read_buf, string_at in *.
  destruct (buf_ o) as [|i|] eqn:Hb; [| |done].
  - eexists _, _. split; [done|]. cbn. rewrite Hp. cbn. eexists. split; [done|].
    cbn. rewrite ?Hp. auto 10.
  - destruct (st !! i) as [x|] eqn:Hi; [|done]. eexists _, _. split; [done|].
    rewrite Hp, Hb, lookup_insert_eq. cbn. eexists. split; [done|]. cbn.
    rewrite ?Hp, ?Hb, lookup_insert_eq. auto 10.
Qed.

Lemma remove_suffix_shows st o s n :
  shows st o s → (n ≤ length s)%nat →
  ∃ st' o', remove_suffix st o n = Ret (st', o') ∧ shows st' o' (take (length s - n) s) ∧
    pinned_ o' = pinned_ o ∧ cleanable o' = cleanable o.
Proof.
  intros Hs Hn. pose proof (shows_size _ _ _ Hs) as Hsz. unfold remove_suffix.
  rewrite (proj2 (Nat.leb_le n (size_ o))) by lia. cbn. unfold shows in Hs.
  destruct (pinned_ o) eqn:Hp.
  - destruct Hs as (mem & off & Hd & Hle & ->). eexists _, _. split; [done|]. split; [|done].
    exists mem, off. cbn. split; [done|]. split; [lia|]. rewrite <-Hsz, take_take. f_equal. lia.
  - destruct Hs as (Hr & Hl & _). rewrite Hr. cbn. unfold string_erase.
    rewrite (proj2 (Nat.ltb_ge _ _)) by lia. cbn.
    rewrite (drop_ge s), app_nil_r, Hsz by lia.
    destruct (write_PinSelf st o s (take (length s - n) s) Hp Hr) as (st' & o' & -> & o2 & E & ? & ? & ? & ?).
    cbn. rewrite E. cbn. eexists _, _. split; [done|]. split; [done|]. split; congruence.
Qed.

Lemma remove_prefix_shows st o s n :
  shows st o s → (n ≤ length s)%nat →
  ∃ st' o', remove_prefix st o n = Ret (st', o') ∧ shows st' o' (drop n s) ∧
    pinned_ o' = pinned_ o ∧ cleanable o' = cleanable o.
Proof.
  intros Hs Hn. pose proof (shows_size _ _ _ Hs) as Hsz. unfold remove_prefix.
  rewrite (proj2 (Nat.leb_le n (size_ o))) by lia. cbn. unfold shows in Hs.
  destruct (pinned_ o) eqn:Hp.
  - destruct Hs as (mem & off & Hd & Hle & ->). eexists _, _. split; [done|]. split; [|done].
    exists mem, (off + n)%nat. cbn. rewrite Hd. split; [done|]. split; [lia|].
    by rewrite skipn_firstn_comm, drop_drop.
  - destruct Hs as (Hr & Hl & _). rewrite Hr. cbn. change (take 0 s ++ drop n s) with (drop n s).
    destruct (write_PinSelf st o s (drop n s) Hp Hr) as (st' & o' & -> & o2 & E & ? & ? & ? & ?).
    cbn. rewrite E. cbn. eexists _, _. split; [done|]. split; [done|]. split; congruence.
Qed.

(** A move takes over what the other object shows and its calls, and leaves an
    empty object. *)
Lemma move_assign_shows st o other s :
  shows st other s →
  let '(o', other', calls) := PinnableSlice_move_assign o other in
  shows st o' s ∧ shows st other' [] ∧ pinned_ o' = pinned_ other ∧
  calls = DoCleanup (cleanable o) ∧
  DoCleanup (cleanable o') = DoCleanup (cleanable other) ∧ DoCleanup (cleanable other') = [].
Proof.
  unfold shows, PinnableSlice_move_assign. cbn. destruct other as [c d n self b p]. cbn. intros Hs.
  split_and!; try done; [|auto|by destruct p; [|case_decide]|by destruct p; [|case_decide]; destruct c].
  destruct p; cbn; [done|]. case_decide as Hb; cbn; subst; cbn in *.
  - destruct Hs as (? & ? & _). auto.
  - destruct Hs as (Hr & Hn & Hd). unfold read_buf in *. cbn in *. split_and!; auto.
    by destruct b.
Qed.

(** ** Properties *)

(** C17: what a [PinnableSlice] shows.  Pinned or not, [remove_prefix] and
    [remove_suffix] leave the rest of what it showed; [PinSelf] shows the given
    bytes and [PinSlice] the given memory; a reset object is empty and its calls
    have run; a move shows what the other object showed, hands over its calls,
    runs the calls of the target and leaves an empty object.  An object built by
    a move from a pinned one never gets a string: after a reset, [PinSelf] goes
    through a pointer that was not initialised. *)
Theorem pinnable_slice_shows st o s :
  shows st o s →
  content st o = Ret s ∧
  (∀ n, (n ≤ length s)%nat →
     (∃ st' o', remove_suffix st o n = Ret (st', o') ∧ shows st' o' (take (length s - n) s)) ∧
     (∃ st' o', remove_prefix st o n = Ret (st', o') ∧ shows st' o' (drop n s))) ∧
  (pinned_ o = false → ∀ slice, ∃ st' o',
     PinSelf_slice st o slice = Ret (st', o') ∧ shows st' o' slice) ∧
  (pinned_ o = false → ∀ mem off n c, (off + n ≤ length mem)%nat → ∃ o',
     PinSlice o mem off n c = Ret o' ∧ shows st o' (take n (drop off mem)) ∧ pinned_ o' = true) ∧
  (let '(o', calls) := PinnableSlice_Reset o in
   content st o' = Ret [] ∧ pinned_ o' = false ∧ calls = DoCleanup (cleanable o)) ∧
  (∀ target, let '(o', other', calls) := PinnableSlice_move_assign target o in
     shows st o' s ∧ shows st other' [] ∧ calls = DoCleanup (cleanable target) ∧
     DoCleanup (cleanable o') = DoCleanup (cleanable o) ∧ DoCleanup (cleanable other') = []) ∧
  (pinned_ o = true → ∀ slice,
     PinSelf_slice st (PinnableSlice_Reset (PinnableSlice_move o).1).1 slice = Fault UseAfterFree).
Proof.
  intros Hs. split_and!; [by apply shows_content| | | | | |].
  - intros n Hn. destruct (remove_suffix_shows _ _ _ n Hs Hn) as (st1 & o1 & E1 & ? & _).
    destruct (remove_prefix_shows _ _ _ n Hs Hn) as (st2 & o2 & E2 & ? & _). eauto 10.
  - intros Hp slice. unfold PinSelf_slice. rewrite Hp. cbn.
    assert (read_buf st o = Ret s) as Hr by (unfold shows in Hs; rewrite Hp in Hs; naive_solver).
    destruct (write_PinSelf st o s slice Hp Hr) as (st' & o' & -> & o2 & E & ? & _).
    cbn. rewrite E. eauto.
  - intros Hp mem off n c Hle. unfold PinSlice. rewrite Hp. eexists. split; [reflexivity|].
    split; [|done]. exists mem, off. done.
  - destruct (PinnableSlice_Reset o) as [o' calls] eqn:E. injection E as <- <-. split_and!; try done.
    unfold shows, content in *. cbn. destruct (pinned_ o).
    + destruct Hs as (mem & off & -> & _). done.
    + destruct Hs as (Hr & _ & [->|[-> _]]); [|done]. unfold read_buf in Hr. rewrite Hr. done.
  - intros target. pose proof (move_assign_shows st target o s Hs) as Hm.
    destruct (PinnableSlice_move_assign target o) as [[o' other'] calls]. naive_solver.
  - intros Hp slice. unfold PinnableSlice_move, PinnableSlice_move_assign. cbn. rewrite Hp. done.
Qed.
End pinnable.
Arguments PinnableSlice C : clear implicits.

Lemma pinnable_slice_shows_witness :
  let mem := z2b <$> [1; 2; 3; 4] in
  let o : PinnableSlice nat := mkPinnable (mkCleanable (Some 7%nat) []) (DataPinned mem 1) 2 [] BufSelf true in
  shows ∅ o (z2b <$> [2; 3]) ∧ content ∅ o = Ret (z2b <$> [2; 3]) ∧
  (∃ st' o', remove_prefix ∅ o 1 = Ret (st', o') ∧ shows st' o' [z2b 3]).
Proof.
  set (mem := z2b <$> [1; 2; 3; 4]).
  set (o := mkPinnable (mkCleanable (Some 7%nat) []) (DataPinned mem 1) 2 [] BufSelf true : PinnableSlice nat).
  assert (shows ∅ o (z2b <$> [2; 3])) as Hs.
  { exists mem, 1%nat. split; [reflexivity|]. split; [cbn; lia|reflexivity]. }
  split; [exact Hs|].
  destruct (pinnable_slice_shows ∅ o _ Hs) as (Hc & Hr & _).
  split; [exact Hc|]. exact (proj2 (Hr 1%nat ltac:(cbn; lia))).
Defined.
