(* ===== verification/KVMap.v ===== *)
(** * Ordered containers (utils/kv_map.h, include/gear_bench_classes.h)

    [stl_wrappers::KVMap] is a [std::map] ordered by a [Comparator], and the
    numbers of a [SpanningKeyGenerator] are a [std::set].  Both are lists in the
    order of iteration; an insertion finds its place by the order alone, and
    leaves the container as it is when an equivalent element is there.

    A map is refined to the partial function of its lookups, for every lawful
    comparator: two keys are one key when the comparator does not tell them
    apart. *)
From S2P Require Import Prelude Slice Comparator.

(** [LessOfComparator]: both overloads compare the bytes. *)
Definition LessOfComparator (c : Comparator) (a b : bytes) : bool := @Compare c a b <? 0.

(** The pairs in the order of iteration. *)
Definition KVMap : Type := list (bytes * bytes).

(** [emplace]: whether the pair was inserted, and the map. *)
Fixpoint kv_emplace (c : Comparator) (m : KVMap) (k v : bytes) : bool * KVMap :=
  match m with
  | [] => (true, [(k, v)])
  | (k', v') :: m' =>
      if LessOfComparator c k k' then (true, (k, v) :: m)
      else if LessOfComparator c k' k then
        let '(inserted, m') := kv_emplace c m' k v in (inserted, (k', v') :: m')
      else (false, m)
  end.

(** [find] *)
Fixpoint kv_find (c : Comparator) (m : KVMap) (k : bytes) : option bytes :=
  match m with
  | [] => None
  | (k', v') :: m =>
      if LessOfComparator c k k' then None
      else if LessOfComparator c k' k then kv_find c m k
      else Some v'
  end.

(** [std::set<uint64_t>::insert] *)
Fixpoint set_insert (x : Z) (s : list Z) : list Z :=
  match s with
  | [] => [x]
  | y :: s' => if x <? y then x :: s else if y <? x then y :: set_insert x s' else s
  end.

(** The order of iteration is strictly increasing. *)
Definition kv_sorted (c : Comparator) (m : KVMap) : Prop :=
  StronglySorted (λ a b, key_lt c a.1 b.1) m.
Definition set_sorted (s : list Z) : Prop := StronglySorted Z.lt s.

#[export] Instance key_equiv_decision c a b : Decision (key_equiv c a b) := decide (Compare a b = 0).

(** ** Lemmas *)

Section map.
Context (c : Comparator) `{!ComparatorLaws c}.
Implicit Types m : KVMap.

Lemma Less_spec a b : LessOfComparator c a b = true ↔ key_lt c a b.
Proof. unfold LessOfComparator, key_lt. apply Z.ltb_lt. Qed.

(** The outcomes of the two questions an insertion asks. *)
Lemma Less_cases a b :
  (LessOfComparator c a b = true ∧ key_lt c a b) ∨
  (LessOfComparator c a b = false ∧ LessOfComparator c b a = true ∧ key_lt c b a) ∨
  (LessOfComparator c a b = false ∧ LessOfComparator c b a = false ∧ key_equiv c a b).
Proof.
  unfold LessOfComparator, key_lt, key_equiv. pose proof (Compare_sgn_sym (c:=c) a b).
  destruct (Z.ltb_spec (Compare a b) 0), (Z.ltb_spec (Compare b a) 0); lia.
Qed.

Lemma key_lt_equiv_l a a' b : key_equiv c a a' → key_lt c a b ↔ key_lt c a' b.
Proof.
  intros Ha. pose proof (Compare_sgn_proper c a a' Ha b b (reflexivity b)) as E.
  cbv beta in E. unfold key_lt. lia.
Qed.
Lemma key_lt_equiv_r a b b' : key_equiv c b b' → key_lt c a b ↔ key_lt c a b'.
Proof.
  intros Hb. pose proof (Compare_sgn_proper c a a (reflexivity a) b b' Hb) as E.
  cbv beta in E. unfold key_lt. lia.
Qed.
Lemma key_equiv_lt a b : key_equiv c a b → ¬ key_lt c a b.
Proof. unfold key_equiv, key_lt. lia. Qed.

(** A key below all others is not in the map. *)
Lemma kv_find_below m k : Forall (λ e, key_lt c k e.1) m → kv_find c m k = None.
Proof.
  destruct 1 as [|[k' v'] m Hk _]; [done|]. cbn in Hk |- *. by rewrite (proj2 (Less_spec _ _) Hk).
Qed.

Lemma kv_emplace_Forall P m k v :
  Forall P m → P (k, v) → Forall P (kv_emplace c m k v).2.
Proof.
  intros Hm Hk. induction Hm as [|[k' v'] m Hk' Hm IH]; cbn; [by constructor|].
  destruct (LessOfComparator c k k'); [by repeat constructor|].
  destruct (LessOfComparator c k' k); [|by constructor].
  destruct (kv_emplace c m k v) as [b m']. by constructor.
Qed.

Lemma kv_emplace_sorted m k v : kv_sorted c m → kv_sorted c (kv_emplace c m k v).2.
Proof.
  unfold kv_sorted. induction 1 as [|[k' v'] m Hm IH Hall]; cbn; [by repeat constructor|].
  destruct (Less_cases k k') as [[-> Hlt]|[(-> & -> & Hlt)|(-> & -> & _)]].
  - constructor; [by constructor|]. constructor; [done|].
    eapply Forall_impl; [exact Hall|]. intros e He. cbn in *. by transitivity k'.
  - pose proof (kv_emplace_Forall (λ e, key_lt c k' e.1) m k v Hall Hlt) as Hnew.
    destruct (kv_emplace c m k v) as [b m']. by constructor.
  - by constructor.
Qed.

(** Equivalent keys find the same value. *)
Lemma kv_find_equiv m k k' : key_equiv c k k' → kv_find c m k = kv_find c m k'.
Proof.
  intros Hk. induction m as [|[k0 v0] m IH]; [done|]. cbn.
  assert (∀ b1 b2 : bool, (b1 = true ↔ b2 = true) → b1 = b2) as Hb by (intros [] []; intuition congruence).
  rewrite (Hb (LessOfComparator c k k0) (LessOfComparator c k' k0)),
    (Hb (LessOfComparator c k0 k) (LessOfComparator c k0 k')), IH; [done|rewrite !Less_spec..].
  - by apply key_lt_equiv_r.
  - by apply key_lt_equiv_l.
Qed.

(** An insertion keeps the value of a key that is there. *)
Lemma kv_find_emplace m k v k' :
  kv_sorted c m →
  kv_find c (kv_emplace c m k v).2 k' =
    (if decide (key_equiv c k' k) then Some (default v (kv_find c m k)) else kv_find c m k').
Proof.
  unfold kv_sorted. induction 1 as [|[k0 v0] m Hm IH Hall]; cbn.
  - destruct (Less_cases k' k) as [[-> Hlt]|[(-> & -> & Hlt)|(-> & -> & He)]];
      case_decide as Hd; try done.
    + by apply key_equiv_lt in Hd.
    + symmetry in Hd. by apply key_equiv_lt in Hd.
  - destruct (Less_cases k k0) as [[-> Hlt]|[(-> & -> & Hlt)|(-> & -> & He)]].
    + cbn. destruct (Less_cases k' k) as [[-> Hlt']|[(-> & -> & Hlt')|(-> & -> & He')]];
        case_decide as Hd; try done.
      * by apply key_equiv_lt in Hd.
      * assert (key_lt c k' k0) as Hlt0 by (by transitivity k). by rewrite (proj2 (Less_spec _ _) Hlt0).
      * symmetry in Hd. by apply key_equiv_lt in Hd.
    + destruct (kv_emplace c m k v) as [b m'] eqn:E. cbn in IH |- *. rewrite IH.
      destruct (Less_cases k' k0) as [[-> Hlt']|[(-> & -> & Hlt')|(-> & -> & He')]]; try done.
      * case_decide as Hd; [|done]. exfalso. apply (key_lt_equiv_l _ _ k0 Hd) in Hlt'.
        assert (key_lt c k k) as []%(irreflexivity (key_lt c)). by transitivity k0.
      * case_decide as Hd; [|done]. exfalso. apply (key_equiv_lt k0 k); [|done].
        by transitivity k'.
    + cbn. case_decide as Hd; [|done].
      assert (key_equiv c k' k0) as E by (by transitivity k). unfold LessOfComparator, key_equiv in *.
      apply Compare_zero_sym in E as E'; [|done]. by rewrite E, E'.
Qed.

Lemma kv_emplace_inserted m k v :
  kv_sorted c m → (kv_emplace c m k v).1 = bool_decide (kv_find c m k = None) ∧
  length (kv_emplace c m k v).2 = (length m + if (kv_emplace c m k v).1 then 1 else 0)%nat.
Proof.
  unfold kv_sorted. induction 1 as [|[k0 v0] m Hm IH Hall]; cbn; [done|].
  destruct (Less_cases k k0) as [[-> Hlt]|[(-> & -> & Hlt)|(-> & -> & He)]]; cbn.
  - split; [done|lia].
  - destruct (kv_emplace c m k v) as [b m'] eqn:E. cbn in *. destruct IH as [-> ->]. done.
  - split; [done|lia].
Qed.

(** A key above all others goes to the end. *)
Lemma kv_emplace_above m k v :
  Forall (λ e, key_lt c e.1 k) m → kv_emplace c m k v = (true, m ++ [(k, v)]).
Proof.
  induction 1 as [|[k' v'] m Hk _ IH]; [done|]. cbn in Hk |- *.
  destruct (Less_cases k k') as [[_ Hlt]|[(-> & -> & _)|(_ & _ & He)]].
  - assert (key_lt c k k) as []%(irreflexivity (key_lt c)). by transitivity k'.
  - by rewrite IH.
  - symmetry in He. by apply key_equiv_lt in He.
Qed.
End map.

Lemma set_insert_elem x y s : y ∈ set_insert x s ↔ y = x ∨ y ∈ s.
Proof.
  induction s as [|z s IH]; cbn [set_insert].
  - rewrite list_elem_of_singleton, elem_of_nil. tauto.
  - destruct (Z.ltb_spec x z); [rewrite !elem_of_cons; tauto|].
    destruct (Z.ltb_spec z x); [rewrite !elem_of_cons, IH; tauto|].
    assert (x = z) as -> by lia. rewrite !elem_of_cons. tauto.
Qed.

Lemma set_insert_sorted x s : set_sorted s → set_sorted (set_insert x s).
Proof.
  unfold set_sorted. induction 1 as [|z s Hs IH Hall]; cbn; [by repeat constructor|].
  destruct (Z.ltb_spec x z).
  - constructor; [by constructor|]. constructor; [done|].
    eapply Forall_impl; [exact Hall|]. simpl. lia.
  - destruct (Z.ltb_spec z x); [|by constructor]. constructor; [done|].
    apply Forall_forall. intros y [->|Hy]%set_insert_elem; [done|].
    rewrite Forall_forall in Hall. by apply Hall.
Qed.

Lemma length_set_insert x s : (length (set_insert x s) ≤ S (length s))%nat.
Proof. induction s as [|z s IH]; cbn; [lia|]. repeat case_match; simpl; lia. Qed.

(** ** Properties *)

(** C12: a [KVMap] is a partial function on keys up to the equivalence of its
    comparator, for every lawful comparator: [emplace] says whether the key was
    absent, adds it in that case, and changes no value that is there; iteration
    stays strictly increasing, so that no two keys are equivalent. *)
Theorem kv_map_refines (c : Comparator) `{!ComparatorLaws c} m k v :
  kv_sorted c m →
  let '(inserted, m') := kv_emplace c m k v in
  kv_sorted c m' ∧
  inserted = bool_decide (kv_find c m k = None) ∧
  length m' = (length m + if inserted then 1 else 0)%nat ∧
  (∀ k', key_equiv c k' k → kv_find c m' k' = Some (default v (kv_find c m k))) ∧
  (∀ k', ¬ key_equiv c k' k → kv_find c m' k' = kv_find c m k').
Proof.
  intros Hm. pose proof (kv_emplace_sorted c m k v Hm) as Hs.
  pose proof (kv_emplace_inserted c m k v Hm) as [Hi Hl].
  pose proof (λ k', kv_find_emplace c m k v k' Hm) as Hf.
  destruct (kv_emplace c m k v) as [inserted m']. cbn in *. split_and!; try done.
  - intros k' He. rewrite Hf. by case_decide.
  - intros k' He. rewrite Hf. by case_decide.
Qed.

Lemma kv_map_refines_witness :
  let m : KVMap := [([z2b 1], [z2b 7]); ([z2b 3], [])] in
  kv_sorted SliceComparator m ∧
  kv_find SliceComparator (kv_emplace SliceComparator m [z2b 2] [z2b 9]).2 [z2b 2] = Some [z2b 9].
Proof.
  set (m := [([z2b 1], [z2b 7]); ([z2b 3], [])] : KVMap).
  assert (kv_sorted SliceComparator m) as Hm by (repeat constructor; vm_compute; reflexivity).
  split; [exact Hm|].
  pose proof (kv_map_refines SliceComparator m [z2b 2] [z2b 9] Hm) as H.
  destruct (kv_emplace SliceComparator m [z2b 2] [z2b 9]) as [inserted m'].
  destruct H as (_ & _ & _ & Hf & _). cbn [snd]. rewrite (Hf [z2b 2] eq_refl). reflexivity.
Defined.
