(* ===== verification/KeyGen.v ===== *)
(** * The benchmark's keys (include/gear_bench_classes.h, tools/gear_bench_classes.cc)

    [KeyGenerator] makes numbers in one of four ways and turns them into keys; a
    [SpanningKeyGenerator] draws a set of numbers and makes a map of internal
    keys of them.  The random numbers come from the standard engines: they are a
    stream, the shuffle a function. *)
From S2P Require Import Prelude Decimal Slice Coding Comparator KVMap DbFormat.

(** ** Keys from integers *)

(** [AllocateKey]: [uninit] is the memory of the new array. *)
Definition AllocateKey (uninit : nat → bytes) (key_size : Z) : outcome bytes :=
  if key_size <? 0 then Fault ThrowBadArrayNewLength else Ret (uninit (Z.to_nat key_size)).

(** [GenerateKeyFromInt]: [key] is the slice whose bytes are overwritten; the
    result is the slice afterwards.  Without one, the code writes to the empty
    string literal of a default slice. *)
Definition GenerateKeyFromInt `{Platform} (v num_keys : Z) (key : option bytes) (key_size : Z) :
    outcome bytes :=
  temp_buf ← AllocateKey (λ n, replicate n NUL) key_size;
  if num_keys =? 0 then Fault DivideByZero else
  let v := v mod num_keys in
  let buffer := default [] key in
  let bytes_to_fill := Z.min key_size 8 in
  let n := Z.to_nat bytes_to_fill in
  let filled :=
    if kLittleEndian then
      (λ i, z2b (Z.land (Z.shiftr v (Z.shiftl (bytes_to_fill - Z.of_nat i - 1) 3)) 255)) <$> List.seq 0 n
    else take n (host_bytes 8 v) in
  let text := filled ++ replicate (Z.to_nat key_size - n) (z2b 48) in
  if zlen buffer <? zlen text then Fault OutOfBounds
  else Ret (text ++ drop (length text) buffer).

(** ** KeyGenerator *)

Inductive WriteMode : Set :=
  | RANDOM
  | SEQUENTIAL
  | UNIQUE_RANDOM
  | INCREMENTAL_RANDOM.

(** [rand] is what the engine still gives. *)
Record KeyGenerator := mkKeyGenerator {
  mode_ : WriteMode;
  min_ : Z;
  distinct_num_ : Z;
  next_ : Z;
  kg_key_size_ : Z;
  values_ : list Z;
  key_slice_ : bytes;
  rand_ : nat → Z;
}.

Definition with_next (next : Z) (g : KeyGenerator) : KeyGenerator :=
  mkKeyGenerator (mode_ g) (min_ g) (distinct_num_ g) next (kg_key_size_ g) (values_ g) (key_slice_ g)
    (rand_ g).
Definition with_slice (s : bytes) (g : KeyGenerator) : KeyGenerator :=
  mkKeyGenerator (mode_ g) (min_ g) (distinct_num_ g) (next_ g) (kg_key_size_ g) (values_ g) s (rand_ g).
Definition with_rand (r : nat → Z) (g : KeyGenerator) : KeyGenerator :=
  mkKeyGenerator (mode_ g) (min_ g) (distinct_num_ g) (next_ g) (kg_key_size_ g) (values_ g)
    (key_slice_ g) r.

(** [max_size()] of a vector of 64-bit numbers. *)
Definition max_values : Z := 2 ^ 60 - 1.

(** [values_.resize(distinct_num_)], then the loop over the elements from
    [min_value] on. *)
Definition fill_values (num min_value : Z) (value : nat → Z) : outcome (list Z) :=
  if max_values <? num then Fault ThrowLengthError
  else Ret (replicate (Z.to_nat (Z.min min_value num)) 0 ++
            (value <$> List.seq 0 (Z.to_nat (num - min_value)))).

(** The constructor.  [shuffle] is [std::shuffle] with an engine of the seed. *)
Definition KeyGenerator_ctor (rand : nat → Z) (shuffle : Z → list Z → list Z) (uninit : nat → bytes)
    (mode : WriteMode) (num seed key_size min_value : Z) : outcome KeyGenerator :=
  values ←
    match mode with
    | UNIQUE_RANDOM =>
        l ← fill_values num min_value (λ i, min_value + Z.of_nat i);
        Ret (shuffle (u32 seed) l)
    | INCREMENTAL_RANDOM =>
        l ← fill_values num min_value (λ i, u64 (rand i mod num + min_value));
        Ret (merge_sort Z.le l)
    | _ => Ret []
    end;
  key ← AllocateKey uninit key_size;
  let used := match mode with INCREMENTAL_RANDOM => Z.to_nat (num - min_value) | _ => 0%nat end in
  Ret (mkKeyGenerator mode min_value num 0 key_size values key (λ i, rand (used + i)%nat)).

(** [SeqKeyGenerator]: no engine, and [std::pow(256, 7)] numbers. *)
Definition SeqKeyGenerator_ctor (uninit : nat → bytes) (min_value : Z) : outcome KeyGenerator :=
  KeyGenerator_ctor (λ _, 0) (λ _ l, l) uninit SEQUENTIAL (256 ^ 7) 0 8 min_value.

(** [values_[next_++]], behind the assertion *)
Definition next_value (g : KeyGenerator) : outcome (Z * KeyGenerator) :=
  assert! next_ g <? distinct_num_ g ;;
  match values_ g !! Z.to_nat (next_ g) with
  | Some v => Ret (v, with_next (u64 (next_ g + 1)) g)
  | None => Fault OutOfBounds
  end.

(** [KeyGenerator::Next] *)
Definition KeyGenerator_Next (g : KeyGenerator) : outcome (Z * KeyGenerator) :=
  match mode_ g with
  | SEQUENTIAL => Ret (u64 (min_ g + next_ g), with_next (u64 (next_ g + 1)) g)
  | RANDOM =>
      if distinct_num_ g =? 0 then Fault DivideByZero
      else Ret (rand_ g 0%nat mod distinct_num_ g, with_rand (λ i, rand_ g (S i)) g)
  | UNIQUE_RANDOM => next_value g
  | INCREMENTAL_RANDOM => next_value g
  end.

Definition SetNext (next : Z) (g : KeyGenerator) : KeyGenerator := with_next next g.

(** [SeqKeyGenerator::Next]: the larger of the number and the largest one. *)
Definition SeqKeyGenerator_Next (g : KeyGenerator) : outcome (Z * KeyGenerator) :=
  let g := with_next (u64 (next_ g + 1)) g in
  Ret (Z.max (u64 (min_ g + next_ g)) (2 ^ 64 - 1), g).

Section keys.
Context `{Platform}.

(** [GenerateKeyFromInt] of the object writes to its own key. *)
Definition KeyGenerator_GenerateKeyFromInt (v : Z) (g : KeyGenerator) : outcome (bytes * KeyGenerator) :=
  key ← GenerateKeyFromInt v (distinct_num_ g) (Some (key_slice_ g)) (kg_key_size_ g);
  Ret (key, with_slice key g).

(** [NextString], with the [Next] of the class. *)
Definition NextString (Next : KeyGenerator → outcome (Z * KeyGenerator)) (g : KeyGenerator) :
    outcome (bytes * KeyGenerator) :=
  '(v, g) ← Next g;
  KeyGenerator_GenerateKeyFromInt v g.

(** ** SpanningKeyGenerator *)

Inductive DISTRIBUTION_TYPE : Set := kUniform | kOther.

Record SpanningKeyGenerator := mkSpanningKeyGenerator {
  lower_bound_ : Z;
  upper_bound_ : Z;
  result_list : list Z;
}.

(** The constructor; [draw] are the numbers the distribution makes of the engine. *)
Definition SpanningKeyGenerator_ctor (draw : nat → Z) (lower_bound upper_bound num_keys : Z)
    (distribution : DISTRIBUTION_TYPE) : outcome SpanningKeyGenerator :=
  assert! lower_bound <? upper_bound ;;
  Ret (mkSpanningKeyGenerator lower_bound upper_bound
    match distribution with
    | kUniform => foldl (λ s i, set_insert (draw i) s) [] (List.seq 0 (Z.to_nat num_keys))
    | kOther => []
    end).

(** One turn of [GenerateContent]: the sequence number grows by two. *)
Definition content_step (c : Comparator) (st : KVMap * KeyGenerator * Z) (key : Z) :
    outcome (KVMap * KeyGenerator * Z) :=
  let '(content, g, seqno) := st in
  '(k, g) ← KeyGenerator_GenerateKeyFromInt key g;
  let seqno := u64 (seqno + 1) in
  ikey ← InternalKey_make k seqno kTypeValue;
  let seqno := u64 (seqno + 1) in
  enc ← InternalKey_Encode ikey;
  Ret ((kv_emplace c content enc (lit "1234567890")).2, g, seqno).

(** [GenerateContent]: the map, the key generator and the sequence number.  [c]
    is the comparator of a default map. *)
Definition GenerateContent (c : Comparator) (sp : SpanningKeyGenerator) (g : KeyGenerator) (seqno : Z) :
    outcome (KVMap * KeyGenerator * Z) :=
  foldM (content_step c) ([], g, seqno) (result_list sp).
End keys.

(** ** Lemmas *)

(** A big-endian number of [n] bytes. *)
Definition be_bytes (n : nat) (v : Z) : bytes := reverse (le_bytes n v).

Lemma be_bytes_S n v : be_bytes (S n) v = z2b (Z.shiftr v (8 * Z.of_nat n)) :: be_bytes n v.
Proof. unfold be_bytes. by rewrite le_bytes_snoc, reverse_snoc. Qed.

Lemma zlen_be_bytes n v : zlen (be_bytes n v) = Z.of_nat n.
Proof. unfold be_bytes. by rewrite zlen_reverse, zlen_le_bytes. Qed.

Lemma le_bytes_mod n v : le_bytes n (v mod 2 ^ (8 * Z.of_nat n)) = le_bytes n v.
Proof.
  rewrite <-(le_bytes_le_val (le_bytes n v)), length_le_bytes, le_val_le_bytes. done.
Qed.

(** Big-endian numbers compare as numbers. *)
Lemma be_bytes_compare n a b s :
  0 ≤ a < 2 ^ (8 * Z.of_nat n) → 0 ≤ b < 2 ^ (8 * Z.of_nat n) →
  Z.sgn (lex_compare (be_bytes n a ++ s) (be_bytes n b ++ s)) = Z.sgn (a - b).
Proof.
  revert a b. induction n as [|n IH]; intros a b Ha Hb.
  { change (2 ^ (8 * Z.of_nat 0)) with 1 in *. replace (a - b) with 0 by lia.
    cbn. by rewrite (proj2 (lex_compare_eq s s)). }
  rewrite !be_bytes_S. cbn [app lex_compare]. rewrite !b2z_z2b, !shiftr_pow2 by lia.
  replace (8 * Z.of_nat (S n)) with (8 * Z.of_nat n + 8) in Ha, Hb by lia.
  rewrite Z.pow_add_r in Ha, Hb by lia. change (2 ^ 8) with 256 in *.
  set (m := 2 ^ (8 * Z.of_nat n)) in *. assert (0 < m) as Hm by (apply Z.pow_pos_nonneg; lia).
  pose proof (Z.div_mod a m ltac:(lia)). pose proof (Z.mod_pos_bound a m Hm).
  pose proof (Z.div_mod b m ltac:(lia)). pose proof (Z.mod_pos_bound b m Hm).
  assert (0 ≤ a / m < 256) by (split; [apply Z.div_pos; lia|apply Z.div_lt_upper_bound; lia]).
  assert (0 ≤ b / m < 256) by (split; [apply Z.div_pos; lia|apply Z.div_lt_upper_bound; lia]).
  rewrite !Z.mod_small by done.
  destruct (Z.ltb_spec (a / m) (b / m)); [symmetry; apply Z.sgn_neg; nia|].
  destruct (Z.ltb_spec (b / m) (a / m)); [symmetry; apply Z.sgn_pos; nia|].
  specialize (IH (a mod m) (b mod m)). unfold be_bytes in *. fold m in IH.
  rewrite !le_bytes_mod in IH. rewrite IH by done. f_equal. nia.
Qed.

(** The key of a number below the number of keys. *)
Definition number_key (key_size v : Z) : bytes :=
  be_bytes 8 v ++ replicate (Z.to_nat key_size - 8) (z2b 48).

Lemma zlen_number_key key_size v : 8 ≤ key_size → zlen (number_key key_size v) = key_size.
Proof. intros Hk. unfold number_key. rewrite zlen_app, zlen_be_bytes, zlen_replicate. lia. Qed.

(** Keys compare as their numbers. *)
Lemma number_key_compare key_size a b :
  0 ≤ a < 2 ^ 64 → 0 ≤ b < 2 ^ 64 →
  Z.sgn (Slice_compare (number_key key_size a) (number_key key_size b)) = Z.sgn (a - b).
Proof. intros Ha Hb. rewrite Slice_compare_lex. by apply (be_bytes_compare 8). Qed.

Section key_lemmas.
Context `{Platform}.

Lemma GenerateKeyFromInt_spec v num buf key_size :
  0 < num ≤ 2 ^ 64 → 8 ≤ key_size → zlen buf = key_size →
  GenerateKeyFromInt v num (Some buf) key_size = Ret (number_key key_size (v mod num)).
Proof.
  intros Hnum Hk Hbuf. unfold GenerateKeyFromInt, AllocateKey.
  rewrite (proj2 (Z.ltb_ge key_size 0)) by lia. cbn [mbind outcome_bind].
  rewrite (proj2 (Z.eqb_neq _ _)) by lia.
  rewrite (Z.min_r key_size 8) by lia. change (Z.to_nat 8) with 8%nat.
  change (default [] (Some buf)) with buf.
  assert ((if kLittleEndian then (λ i, z2b (Z.land (Z.shiftr (v mod num) (Z.shiftl (8 - Z.of_nat i - 1) 3)) 255))
      <$> List.seq 0 8 else take 8 (host_bytes 8 (v mod num))) = be_bytes 8 (v mod num)) as ->.
  { unfold host_bytes, be_bytes. destruct kLittleEndian.
    - cbn [List.seq fmap list_fmap]. rewrite !z2b_land_255. cbn [le_bytes].
      rewrite !Z.shiftr_shiftr by lia. reflexivity.
    - apply take_ge. by rewrite length_reverse, length_le_bytes. }
  fold (number_key key_size (v mod num)). pose proof (zlen_number_key key_size (v mod num) Hk) as Hz.
  rewrite (proj2 (Z.ltb_ge _ _)) by lia. rewrite drop_ge, app_nil_r; [done|].
  unfold zlen in *. lia.
Qed.

(** *** Successive numbers and keys *)

(** The results of [n] calls in a row. *)
Fixpoint calls {A} (f : KeyGenerator → outcome (A * KeyGenerator)) (n : nat) (g : KeyGenerator) :
    outcome (list A * KeyGenerator) :=
  match n with
  | O => Ret ([], g)
  | S n => '(a, g) ← f g; '(l, g) ← calls f n g; Ret (a :: l, g)
  end.

(** A generator whose keys have room for a number. *)
Record gen_wf (g : KeyGenerator) : Prop := {
  gen_num : 0 < distinct_num_ g < 2 ^ 64;
  gen_size : 8 ≤ kg_key_size_ g;
  gen_slice : zlen (key_slice_ g) = kg_key_size_ g;
}.

(** A generator that has all its values. *)
Record gen_valued (g : KeyGenerator) : Prop := {
  gen_mode : mode_ g = UNIQUE_RANDOM ∨ mode_ g = INCREMENTAL_RANDOM;
  gen_values : zlen (values_ g) = distinct_num_ g;
  gen_next : 0 ≤ next_ g;
}.

Lemma object_key_spec v g :
  gen_wf g →
  KeyGenerator_GenerateKeyFromInt v g =
    Ret (number_key (kg_key_size_ g) (v mod distinct_num_ g),
         with_slice (number_key (kg_key_size_ g) (v mod distinct_num_ g)) g).
Proof.
  intros [Hn Hk Hs]. unfold KeyGenerator_GenerateKeyFromInt. by rewrite GenerateKeyFromInt_spec by lia.
Qed.

Lemma gen_wf_slice g v : gen_wf g → gen_wf (with_slice (number_key (kg_key_size_ g) v) g).
Proof. intros [Hn Hk Hs]. split; [done..|]. by apply zlen_number_key. Qed.

Lemma gen_wf_next g n : gen_wf g → gen_wf (with_next n g).
Proof. by intros []. Qed.

Lemma valued_Next g :
  gen_valued g → distinct_num_ g < 2 ^ 64 → next_ g < distinct_num_ g →
  ∃ v, values_ g !! Z.to_nat (next_ g) = Some v ∧
    KeyGenerator_Next g = Ret (v, with_next (next_ g + 1) g).
Proof.
  intros [Hm Hv Hn] Hnum Hlt.
  destruct (lookup_lt_is_Some_2 (values_ g) (Z.to_nat (next_ g))) as [v Hl]; [unfold zlen in Hv; lia|].
  exists v. split; [done|]. assert (next_value g = Ret (v, with_next (next_ g + 1) g)) as E.
  { unfold next_value. rewrite (proj2 (Z.ltb_lt _ _)), Hl by lia. cbn. by rewrite u64_small by lia. }
  unfold KeyGenerator_Next. by destruct Hm as [-> | ->].
Qed.

Lemma valued_Next_end g :
  gen_valued g → distinct_num_ g ≤ next_ g → KeyGenerator_Next g = Fault AssertionFailed.
Proof.
  intros [Hm Hv Hn] Hle. unfold KeyGenerator_Next, next_value.
  rewrite (proj2 (Z.ltb_ge _ _)) by lia. by destruct Hm as [-> | ->].
Qed.

(** One call of [NextString]. *)
Lemma valued_NextString g :
  gen_wf g → gen_valued g → next_ g < distinct_num_ g →
  ∃ v g', values_ g !! Z.to_nat (next_ g) = Some v ∧
    NextString KeyGenerator_Next g = Ret (number_key (kg_key_size_ g) (v mod distinct_num_ g), g') ∧
    gen_wf g' ∧ gen_valued g' ∧ next_ g' = next_ g + 1 ∧ values_ g' = values_ g ∧
    distinct_num_ g' = distinct_num_ g ∧ kg_key_size_ g' = kg_key_size_ g ∧ rand_ g' = rand_ g.
Proof.
  intros Hwf Hval Hlt. pose proof (gen_num _ Hwf).
  destruct (valued_Next g Hval ltac:(lia) Hlt) as (v & Hv & Hn). unfold NextString. rewrite Hn.
  cbn [mbind outcome_bind]. pose proof (gen_wf_next g (next_ g + 1) Hwf) as Hwf'.
  rewrite object_key_spec by done. eexists _, _. split; [done|]. split; [done|].
  split; [by apply (gen_wf_slice (with_next (next_ g + 1) g))|].
  destruct Hval as [Hm Hz Hpos]. split; [split; cbn; [done..|lia]|]. done.
Qed.

(** The calls that are left give the keys of the values that are left. *)
Lemma valued_strings n g :
  gen_wf g → gen_valued g → next_ g + Z.of_nat n = distinct_num_ g →
  ∃ g', calls (NextString KeyGenerator_Next) n g =
      Ret ((λ v, number_key (kg_key_size_ g) (v mod distinct_num_ g)) <$> drop (Z.to_nat (next_ g)) (values_ g), g') ∧
    NextString KeyGenerator_Next g' = Fault AssertionFailed.
Proof.
  revert g. induction n as [|n IH]; intros g Hwf Hval Hn.
  { exists g. rewrite drop_ge by (pose proof (gen_values _ Hval); unfold zlen in *; lia).
    split; [done|]. unfold NextString. by rewrite valued_Next_end by (done || lia). }
  destruct (valued_NextString g Hwf Hval ltac:(lia))
    as (v & g1 & Hv & E & Hwf1 & Hval1 & Hn1 & Hv1 & Hd1 & Hk1 & _).
  destruct (IH g1 Hwf1 Hval1 ltac:(lia)) as (g' & E' & Hend). exists g'. split; [|done].
  cbn [calls]. rewrite E. cbn [mbind outcome_bind]. rewrite E', Hv1, Hd1, Hk1, Hn1.
  cbn [mbind outcome_bind]. pose proof (gen_next _ Hval).
  replace (Z.to_nat (next_ g + 1)) with (S (Z.to_nat (next_ g))) by lia.
  by rewrite (drop_S _ _ _ Hv).
Qed.

(** Without a lower bound the constructor gives every element a value. *)
Lemma ctor_values rand shuffle uninit mode num seed key_size :
  mode = UNIQUE_RANDOM ∨ mode = INCREMENTAL_RANDOM →
  0 < num ≤ max_values → 8 ≤ key_size → zlen (uninit (Z.to_nat key_size)) = key_size →
  (∀ l, shuffle (u32 seed) l ≡ₚ l) → (∀ i, 0 ≤ rand i) →
  ∃ g, KeyGenerator_ctor rand shuffle uninit mode num seed key_size 0 = Ret g ∧
    gen_wf g ∧ gen_valued g ∧ next_ g = 0 ∧ distinct_num_ g = num ∧ kg_key_size_ g = key_size ∧
    (mode = INCREMENTAL_RANDOM → Sorted Z.le (values_ g)) ∧
    values_ g ≡ₚ (λ i, if mode is INCREMENTAL_RANDOM then rand i mod num else Z.of_nat i)
                 <$> List.seq 0 (Z.to_nat num).
Proof.
  intros Hm Hnum Hk Hu Hsh Hrand. unfold KeyGenerator_ctor, fill_values, AllocateKey, max_values in *.
  rewrite (proj2 (Z.ltb_ge (2 ^ 60 - 1) num)), (proj2 (Z.ltb_ge key_size 0)) by lia.
  rewrite Z.min_l, Z.sub_0_r by lia. change (Z.to_nat 0) with 0%nat. cbn [replicate].
  rewrite !app_nil_l.
  assert ((λ i, u64 (rand i mod num + 0)) <$> List.seq 0 (Z.to_nat num) =
    (λ i, rand i mod num) <$> List.seq 0 (Z.to_nat num)) as ->.
  { apply list_fmap_ext. intros _ i _. pose proof (Z.mod_pos_bound (rand i) num ltac:(lia)).
    rewrite u64_small; lia. }
  assert (∀ f : nat → Z, zlen (f <$> List.seq 0 (Z.to_nat num)) = num) as Hz.
  { intros f. rewrite zlen_fmap. unfold zlen. rewrite length_seq. lia. }
  destruct Hm as [-> | ->]; cbn [mbind outcome_bind]; eexists; split; try reflexivity;
    (split; [split; cbn; lia|]).
  - split; [split; cbn; [by left| |lia]|].
    { unfold zlen. rewrite (Permutation_length (Hsh _)). by apply Hz. }
    do 4 (split; [done|]). apply Hsh.
  - split; [split; cbn; [by right| |lia]|].
    { unfold zlen. rewrite (Permutation_length (merge_sort_Permutation _ _)). by apply Hz. }
    do 3 (split; [done|]). split; [|by apply merge_sort_Permutation].
    intros _. apply Sorted_merge_sort. intros x y. lia.
Qed.

(** *** The map of internal keys *)

Section content.
Context (c : Comparator) `{!ComparatorLaws c}.
(** A comparator that orders keys by their bytes. *)
Hypothesis bytewise : ∀ a b, Z.sgn (@Compare c a b) = Z.sgn (Slice_compare a b).

Definition content_key (key_size v s : Z) : bytes :=
  encode_key (mkParsedInternalKey (number_key key_size v) s kTypeValue).

Lemma content_key_lt key_size v s v' s' :
  0 ≤ v → v < v' → v' < 2 ^ 64 → key_lt c (content_key key_size v s) (content_key key_size v' s').
Proof.
  intros Hv Hlt Hv'. unfold key_lt. apply Z.sgn_neg_iff. rewrite bytewise. apply Z.sgn_neg_iff.
  rewrite Slice_compare_lex. unfold content_key, encode_key. cbn [user_key].
  apply lex_compare_app_lt.
  - unfold number_key, be_bytes. by rewrite !length_app, !length_reverse, !length_le_bytes.
  - apply Z.sgn_neg_iff. rewrite <-Slice_compare_lex, number_key_compare by lia.
    apply Z.sgn_neg_iff. lia.
Qed.

Lemma content_step_spec content g s k :
  gen_wf g → 0 ≤ k < distinct_num_ g → 0 ≤ s → s + 2 ≤ kMaxSequenceNumber →
  Forall (λ e, key_lt c e.1 (content_key (kg_key_size_ g) k (s + 1))) content →
  content_step c (content, g, s) k =
    Ret (content ++ [(content_key (kg_key_size_ g) k (s + 1), lit "1234567890")],
         with_slice (number_key (kg_key_size_ g) k) g, s + 2).
Proof.
  rewrite kMaxSequenceNumber_eq. intros Hwf Hk Hs0 Hs Hcontent. unfold content_step.
  rewrite object_key_spec by done. cbn [mbind outcome_bind]. pose proof (gen_num _ Hwf).
  rewrite (Z.mod_small k), (u64_small (s + 1)) by lia. unfold InternalKey_make.
  rewrite AppendInternalKey_valid by
    (unfold valid_key; cbn; rewrite kMaxSequenceNumber_eq; split; [lia|done]).
  rewrite app_nil_l. cbn [mbind outcome_bind]. unfold InternalKey_Encode.
  fold (content_key (kg_key_size_ g) k (s + 1)). set (e := content_key _ k _) in *.
  assert (8 ≤ zlen e) by apply zlen_encode_key_ge.
  rewrite (proj2 (Z.eqb_neq (zlen e) 0)) by lia. cbn [negb assert_that mbind outcome_bind].
  rewrite kv_emplace_above, u64_small by (done || lia). do 2 f_equal. lia.
Qed.

Lemma content_fold l content g s :
  gen_wf g → StronglySorted Z.lt l → Forall (λ k, 0 ≤ k < distinct_num_ g) l →
  0 ≤ s → s + 2 * zlen l ≤ kMaxSequenceNumber →
  Forall (λ e, ∀ k t, k ∈ l → key_lt c e.1 (content_key (kg_key_size_ g) k t)) content →
  ∃ g', foldM (content_step c) (content, g, s) l =
    Ret (content ++ imap (λ i k, (content_key (kg_key_size_ g) k (s + 1 + 2 * Z.of_nat i), lit "1234567890")) l,
         g', s + 2 * zlen l).
Proof.
  intros Hwf Hsorted. revert content g s Hwf.
  induction Hsorted as [|k l Hsorted IH Hall]; intros content g s Hwf Hl Hs0 Hs Hcontent.
  { exists g. cbn [foldM imap]. change (zlen []) with 0. by rewrite app_nil_r, Z.mul_0_r, Z.add_0_r. }
  apply Forall_cons in Hl as [Hk Hl]. rewrite zlen_cons in *. pose proof (zlen_nonneg l).
  pose proof (gen_num _ Hwf). cbn [foldM]. rewrite content_step_spec; [|done|lia|lia|lia|].
  2:{ eapply Forall_impl; [exact Hcontent|]. intros x Hx. apply Hx. by left. }
  cbn [mbind outcome_bind].
  destruct (IH (content ++ [(content_key (kg_key_size_ g) k (s + 1), lit "1234567890")])
    (with_slice (number_key (kg_key_size_ g) k) g) (s + 2)) as (g' & ->); try done; try lia.
  - by apply gen_wf_slice.
  - apply Forall_app. split.
    + eapply Forall_impl; [exact Hcontent|]. intros x Hx k' t Hk'. apply Hx. by right.
    + constructor; [|done]. intros k' t Hk'. cbn [fst]. rewrite Forall_forall in Hall, Hl.
      specialize (Hl k' Hk'). specialize (Hall k' Hk'). apply content_key_lt; [lia|done|lia].
  - exists g'. rewrite <-app_assoc. cbn [app imap kg_key_size_ with_slice].
    replace (s + 2 + 2 * zlen l) with (s + 2 * (1 + zlen l)) by lia. do 4 f_equal. f_equal.
    + replace (s + 1 + 2 * Z.of_nat 0) with (s + 1) by lia. reflexivity.
    + apply imap_ext. intros i x _. cbn. do 2 f_equal. lia.
Qed.
End content.
End key_lemmas.

Lemma spanning_numbers draw n :
  let s := foldl (λ s i, set_insert (draw i) s) [] (List.seq 0 n) in
  set_sorted s ∧ (∀ x, x ∈ s ↔ ∃ i, (i < n)%nat ∧ x = draw i) ∧ (length s ≤ n)%nat.
Proof.
  cbv zeta. induction n as [|n (Hs & He & Hl)].
  { split; [constructor|]. split; [|done]. intros x. split; [by intros ?%elem_of_nil|].
    intros (i & ? & _). lia. }
  rewrite seq_S, foldl_app. cbn [foldl Nat.add]. set (s := foldl _ [] _) in *.
  split; [by apply set_insert_sorted|]. split.
  - intros x. rewrite set_insert_elem, He. split.
    + intros [-> |(i & Hi & ->)]; [exists n|exists i]; (split; [lia|done]).
    + intros (i & Hi & ->). destruct (decide (i = n)) as [->|]; [by left|]. right.
      exists i. split; [lia|done].
  - pose proof (length_set_insert (draw n) s). lia.
Qed.

(** ** Properties *)

(** [GenerateKeyFromInt] with room for eight bytes gives the number modulo
    the number of keys, most significant byte first, padded with ['0'] to the
    key size; the same on hosts of either byte order; and keys compare as the
    numbers do, so that different numbers give different keys. *)
Theorem int_key_order (P : Platform) a b num buf key_size :
  0 < num ≤ 2 ^ 64 → 8 ≤ key_size → zlen buf = key_size →
  ∃ ka kb, GenerateKeyFromInt a num (Some buf) key_size = Ret ka ∧
    GenerateKeyFromInt b num (Some buf) key_size = Ret kb ∧
    ka = be_bytes 8 (a mod num) ++ replicate (Z.to_nat key_size - 8) (z2b 48) ∧
    zlen ka = key_size ∧
    Z.sgn (Slice_compare ka kb) = Z.sgn (a mod num - b mod num) ∧
    (ka = kb ↔ a mod num = b mod num).
Proof.
  intros Hnum Hk Hbuf. eexists _, _. rewrite !GenerateKeyFromInt_spec by done.
  split; [done|]. split; [done|]. split; [done|].
  pose proof (Z.mod_pos_bound a num ltac:(lia)). pose proof (Z.mod_pos_bound b num ltac:(lia)).
  pose proof (number_key_compare key_size (a mod num) (b mod num) ltac:(lia) ltac:(lia)) as Hcmp.
  split; [by apply zlen_number_key|]. split; [done|]. split; [|by intros ->].
  rewrite Slice_compare_lex in Hcmp. intros Heq%lex_compare_eq. rewrite Heq in Hcmp.
  symmetry in Hcmp. apply Z.sgn_null_iff in Hcmp. lia.
Qed.

Lemma int_key_order_witness :
  0 < 1000 ≤ 2 ^ 64 ∧ zlen (replicate 10 NUL) = 10 ∧
  ∃ k, GenerateKeyFromInt (H:=BigEndianHost) 258 1000 (Some (replicate 10 NUL)) 10 = Ret k ∧ zlen k = 10.
Proof.
  assert (0 < 1000 ≤ 2 ^ 64) as Hn by lia. assert (zlen (replicate 10 NUL) = 10) as Hb by reflexivity.
  split; [exact Hn|]. split; [exact Hb|].
  destruct (int_key_order BigEndianHost 258 0 1000 (replicate 10 NUL) 10 Hn ltac:(lia) Hb)
    as (k & _ & Hk & _ & _ & Hl & _).
  exists k. split; [exact Hk|exact Hl].
Defined.

(** C18: the keys of a generator without a lower bound.  In the mode
    [UNIQUE_RANDOM] the [num] calls of [NextString] give the keys of all numbers
    below [num], in some order; in the mode [INCREMENTAL_RANDOM] the keys of
    [num] draws in increasing order, for both byte orders; the next call stops
    at an assertion.  With a lower bound the increasing mode makes numbers from
    [num] on, whose keys wrap around: three numbers from 1 on give 0, 2, 0. *)
Theorem key_generator_exhausts (P : Platform) rand shuffle uninit mode num seed key_size :
  mode = UNIQUE_RANDOM ∨ mode = INCREMENTAL_RANDOM →
  0 < num ≤ max_values → 8 ≤ key_size → zlen (uninit (Z.to_nat key_size)) = key_size →
  (∀ l, shuffle (u32 seed) l ≡ₚ l) → (∀ i, 0 ≤ rand i) →
  (∃ g g' keys, KeyGenerator_ctor rand shuffle uninit mode num seed key_size 0 = Ret g ∧
    calls (NextString KeyGenerator_Next) (Z.to_nat num) g = Ret (keys, g') ∧
    NextString KeyGenerator_Next g' = Fault AssertionFailed ∧
    keys ≡ₚ (λ i, number_key key_size (if mode is INCREMENTAL_RANDOM then rand i mod num else Z.of_nat i))
            <$> List.seq 0 (Z.to_nat num) ∧
    (mode = INCREMENTAL_RANDOM → StronglySorted (λ a b, Slice_compare a b ≤ 0) keys)) ∧
  (fst <$> (KeyGenerator_ctor (λ i, Z.of_nat i + 1) (λ _ l, l) (λ n, replicate n NUL)
     INCREMENTAL_RANDOM 3 0 8 1 ≫= calls (NextString (H:=LittleEndianHost) KeyGenerator_Next) 3)) =
    Ret (number_key 8 <$> [0; 2; 0]).
Proof.
  intros Hm Hnum Hk Hu Hsh Hrand. split; [|vm_compute; reflexivity].
  destruct (ctor_values rand shuffle uninit mode num seed key_size Hm Hnum Hk Hu Hsh Hrand)
    as (g & Hg & Hwf & Hval & Hn & Hd & Hks & Hsorted & Hp).
  destruct (valued_strings (Z.to_nat num) g Hwf Hval ltac:(lia)) as (g' & Hcalls & Hend).
  rewrite Hn, Hd, Hks in Hcalls. change (Z.to_nat 0) with 0%nat in Hcalls. rewrite drop_0 in Hcalls.
  exists g, g', ((λ v, number_key key_size (v mod num)) <$> values_ g).
  do 3 (split; [done|]).
  assert (Forall (λ v, 0 ≤ v < num) (values_ g)) as Hrange.
  { rewrite Hp. apply Forall_fmap, Forall_seq. intros i Hi. cbn.
    pose proof (Z.mod_pos_bound (rand i) num ltac:(lia)). destruct mode; lia. }
  assert ((λ v, number_key key_size (v mod num)) <$> values_ g = number_key key_size <$> values_ g) as ->.
  { apply Forall_fmap_ext_1. eapply Forall_impl; [exact Hrange|]. intros v Hv. cbn.
    by rewrite Z.mod_small. }
  split; [by rewrite Hp, <-list_fmap_compose|]. intros Hi. unfold max_values in *.
  specialize (Hsorted Hi). apply Sorted_StronglySorted in Hsorted; [|intros ???; lia].
  clear -Hsorted Hrange Hnum. induction Hsorted as [|v l Hsorted IH Hall]; cbn; [constructor|].
  apply Forall_cons in Hrange as [Hv Hl]. constructor; [by apply IH|].
  apply Forall_fmap. rewrite Forall_forall in *. intros w Hw.
  change (Slice_compare (number_key key_size v) (number_key key_size w) ≤ 0).
  specialize (Hall w Hw). specialize (Hl w Hw).
  pose proof (number_key_compare key_size v w ltac:(lia) ltac:(lia)). lia.
Qed.

Lemma key_generator_exhausts_witness :
  UNIQUE_RANDOM = UNIQUE_RANDOM ∧ zlen (replicate 8 NUL) = 8 ∧
  ∃ g g' keys, KeyGenerator_ctor (λ _, 0) (λ _, reverse) (λ n, replicate n NUL) UNIQUE_RANDOM 3 7 8 0 = Ret g ∧
    calls (NextString (H:=BigEndianHost) KeyGenerator_Next) 3 g = Ret (keys, g') ∧ length keys = 3%nat.
Proof.
  split; [reflexivity|]. split; [reflexivity|].
  destruct (key_generator_exhausts BigEndianHost (λ _, 0) (λ _, reverse) (λ n, replicate n NUL)
    UNIQUE_RANDOM 3 7 8) as ((g & g' & keys & Hg & Hc & _ & Hp & _) & _).
  - left. reflexivity.
  - unfold max_values. lia.
  - lia.
  - reflexivity.
  - intros l. apply reverse_Permutation.
  - intros i. lia.
  - exists g, g', keys. split; [exact Hg|]. split; [exact Hc|].
    rewrite (Permutation_length Hp). reflexivity.
Defined.

(** C23: a [SpanningKeyGenerator] over a range below the number of keys holds
    the distinct numbers it drew, in increasing order.  For a comparator that
    orders by bytes, [GenerateContent] never loses one: the map has one entry
    per number, in the order of the numbers, the [i]-th with sequence number
    [s + 1 + 2 i], and [*seqno] is raised by two for every entry. *)
Theorem spanning_content (P : Platform) (c : Comparator) `{!ComparatorLaws c} draw lower upper num_keys g s :
  (∀ a b, Z.sgn (@Compare c a b) = Z.sgn (Slice_compare a b)) →
  (∀ i, lower ≤ draw i ≤ upper) → 0 ≤ lower < upper → upper < distinct_num_ g →
  gen_wf g → 0 ≤ num_keys → 0 ≤ s → s + 2 * num_keys ≤ kMaxSequenceNumber →
  ∃ sp, SpanningKeyGenerator_ctor draw lower upper num_keys kUniform = Ret sp ∧
    set_sorted (result_list sp) ∧
    (∀ x, x ∈ result_list sp ↔ ∃ i, (i < Z.to_nat num_keys)%nat ∧ x = draw i) ∧
    ∃ content g', GenerateContent c sp g s = Ret (content, g', s + 2 * zlen (result_list sp)) ∧
      content = imap (λ i k, (content_key (kg_key_size_ g) k (s + 1 + 2 * Z.of_nat i), lit "1234567890"))
        (result_list sp).
Proof.
  intros Hc Hdraw Hb Hu Hwf Hn Hs Hsum. unfold SpanningKeyGenerator_ctor.
  rewrite (proj2 (Z.ltb_lt lower upper)) by lia. cbn [assert_that mbind outcome_bind].
  eexists. split; [done|]. cbn [result_list].
  destruct (spanning_numbers draw (Z.to_nat num_keys)) as (Hsorted & He & Hlen).
  split; [done|]. split; [done|]. set (l := foldl _ [] _) in *. unfold GenerateContent. cbn [result_list].
  destruct (content_fold c Hc l [] g s Hwf Hsorted) as (g' & ->).
  - apply Forall_forall. intros x (i & _ & ->)%He. specialize (Hdraw i). lia.
  - done.
  - unfold zlen. lia.
  - constructor.
  - eexists _, g'. split; [reflexivity|done].
Qed.

Lemma spanning_content_witness :
  let g := mkKeyGenerator SEQUENTIAL 0 100 0 8 [] (replicate 8 NUL) (λ _, 0) in
  gen_wf g ∧
  ∃ sp, SpanningKeyGenerator_ctor (λ i, 20 - 3 * Z.of_nat (i mod 2)) 10 20 5 kUniform = Ret sp ∧
    ∃ content g', GenerateContent (H:=LittleEndianHost) SliceComparator sp g 6 = Ret (content, g', 10).
Proof.
  cbv zeta. set (g := mkKeyGenerator SEQUENTIAL 0 100 0 8 [] (replicate 8 NUL) (λ _, 0)).
  assert (gen_wf g) as Hg by (split; [split; reflexivity|vm_compute; congruence|reflexivity]).
  split; [exact Hg|].
  destruct (spanning_content LittleEndianHost SliceComparator (λ i, 20 - 3 * Z.of_nat (i mod 2)) 10 20 5 g 6)
    as (sp & Hsp & _ & _ & content & g' & Hc & _); try (reflexivity || exact Hg || lia).
  - intros i. pose proof (Nat.mod_upper_bound i 2 ltac:(lia)). lia.
  - rewrite kMaxSequenceNumber_eq. lia.
  - exists sp. split; [exact Hsp|]. exists content, g'.
    replace 10 with (6 + 2 * zlen (result_list sp)); [exact Hc|].
    injection Hsp as <-. reflexivity.
Defined.
