(* ===== verification/GenFiles.v ===== *)
(** * The files of the benchmark (tools/gear_bench_tool.cc, lines 67 to 139)

    [generate_files] fills tables with the keys of an increasing generator and
    writes them.  The files are behind the class [Posix] of Tables.

    A slice in a table is Live or Dangling, as in StreamMerger: the keys
    [generate_files] pushes view an [InternalKey] that is destroyed at the end
    of the turn that made it. *)
From S2P Require Import Prelude Decimal Slice Coding DbFormat OnBoard Tables Merger StreamMerger KeyGen.

(** [strcasecmp] is equality of the lower-case letters. *)
Definition strcaseeq (a b : bytes) : bool := bool_decide ((to_lower <$> a) = (to_lower <$> b)).

Definition StringToRepFactory (ctype : bytes) : TableFormat :=
  if strcaseeq ctype (lit "gear") then kGear
  else if strcaseeq ctype (lit "block_based") then kBlockBased
  else if strcaseeq ctype (lit "plain") then kPlain
  else if strcaseeq ctype (lit "cuckoo") then kCuckoo
  else kGear.

(** The engines of the standard library, by their seeds, and the memory that is
    not set. *)
Record Engines := mkEngines {
  std_shuffle : Z → list Z → list Z;
  uninit_memory : nat → bytes;
  mt19937_64 : Z → nat → Z;
}.

Section files.
Context `{Platform} {F : Type} `{Posix F} (engines : Engines).

(** [CreateTablePtr]: a table to write to. *)
Definition CreateTablePtr (format : TableFormat) (target_file_name : bytes) :
    outcome (Table slice_ref F) :=
  match format with
  | kGear => GearTable_ctor target_file_name false
  | kBlockBased => BlockBasedTable_ctor target_file_name false
  | kPlain => PlainTable_ctor target_file_name false
  | kCuckoo => CuckooTable_ctor target_file_name false
  end.

(** [ToDiskFormat] of a table of slices: the plain and the gear format read
    every slice, the others none. *)
Definition disk_format (format : TableFormat) (t : Table slice_ref F) : outcome bytes :=
  match format with
  | kGear | kPlain =>
      keys ← foldM (λ ks s, k ← slice_bytes s; Ret (ks ++ [k])) [] (key_list t);
      values ← foldM (λ vs s, v ← slice_bytes s; Ret (vs ++ [v])) [] (value_list t);
      '(buffer, _) ← ToDiskFormat format
        (mkTable keys values (target_fd t) (file_name t) (num_of_blocks t)) [];
      Ret buffer
  | _ => Ret []
  end.

(** [push_back] of a key and its value *)
Definition push_entry (k v : slice_ref) (t : Table slice_ref F) : Table slice_ref F :=
  mkTable (key_list t ++ [k]) (value_list t ++ [v]) (target_fd t) (file_name t) (num_of_blocks t).

(** The entries of one file: at most [n] more, while fewer than [range] are
    generated.  The encoded key dangles when the turn is over. *)
Fixpoint fill_file (n : nat) (range generated_entries : Z) (g : KeyGenerator) (t : Table slice_ref F) :
    outcome (Z * KeyGenerator * Table slice_ref F) :=
  match n with
  | O => Ret (generated_entries, g, t)
  | S n =>
      if generated_entries >=? range then Ret (generated_entries, g, t) else
      '(key, g) ← NextString KeyGenerator_Next g;
      ikey ← InternalKey_Set [] key (kMaxSequenceNumber - 1) kTypeValue;
      enc ← InternalKey_Encode ikey;
      fill_file n range (u64 (generated_entries + 1)) g
        (push_entry (Dangling enc) (Live (lit "v1v2v3v4v5")) t)
  end.

(** What [generate_files] has done: the names, the tables with their files, the
    next file number and the generator. *)
Record GenState := mkGenState {
  gs_names : list bytes;
  gs_tables : list (Table slice_ref F);
  gs_file_number : Z;
  gs_generator : KeyGenerator;
}.

(** One turn of the loop: one file.  The first component is the number of
    entries generated. *)
Definition generate_file (format : TableFormat) (entries_per_file : nat) (base_dir : bytes)
    (range generated_entries : Z) (st : GenState) : outcome (Z * GenState) :=
  let '(target_file_name, file_number) := NextFileName base_dir (gs_file_number st) in
  current_file ← CreateTablePtr format target_file_name;
  '(generated_entries, g, current_file) ←
    fill_file entries_per_file range generated_entries (gs_generator st) current_file;
  disk ← disk_format format current_file;
  '(current_file, _) ← WriteToDisk current_file disk;
  Ret (generated_entries,
       mkGenState (gs_names st ++ [target_file_name]) (gs_tables st ++ [current_file]) file_number g).

(** The loop; [None] is a loop that still runs after [fuel] files. *)
Fixpoint generate_loop (fuel : nat) (format : TableFormat) (entries_per_file : nat) (base_dir : bytes)
    (range generated_entries : Z) (st : GenState) : outcome (option GenState) :=
  match fuel with
  | O => Ret None
  | S fuel =>
      '(generated_entries, st) ← generate_file format entries_per_file base_dir range generated_entries st;
      if generated_entries >=? u64 (range - 1) then Ret (Some st)
      else generate_loop fuel format entries_per_file base_dir range generated_entries st
  end.

(** [generate_files]: [names] are the input files so far, [rand] what the shared
    engine still gives; afterwards it is the [rand_] of the generator. *)
Definition generate_files (fuel : nat) (format : TableFormat) (entries_per_file : nat) (seed : Z)
    (base_dir : bytes) (start_key range : Z) (rand : nat → Z) (file_number : Z) (names : list bytes) :
    outcome (option GenState) :=
  key_gen ← KeyGenerator_ctor rand (std_shuffle engines) (uninit_memory engines) INCREMENTAL_RANDOM
              range seed KEY_CONTENT_LENGTH start_key;
  generate_loop fuel format entries_per_file base_dir range 0 (mkGenState names [] file_number key_gen).
End files.
Arguments GenState : clear implicits.
Arguments mkGenState {F}.
Arguments gs_names {F}.
Arguments gs_tables {F}.
Arguments gs_file_number {F}.
Arguments gs_generator {F}.

(** ** Lemmas *)

Section lemmas.
Context `{Platform} {F : Type} `{Posix F} (engines : Engines).

(** What [generate_files] keeps of its generator after [n] entries. *)
Record gen_at (range n : Z) (g : KeyGenerator) : Prop := {
  at_wf : gen_wf g;
  at_valued : gen_valued g;
  at_range : distinct_num_ g = range;
  at_size : kg_key_size_ g = 8;
  at_next : next_ g = n;
}.

Lemma ctor_gen_at rand seed start_key range :
  0 ≤ start_key → 0 < range ≤ max_values → zlen (uninit_memory engines 8%nat) = 8 →
  ∃ g, KeyGenerator_ctor rand (std_shuffle engines) (uninit_memory engines) INCREMENTAL_RANDOM
         range seed KEY_CONTENT_LENGTH start_key = Ret g ∧ gen_at range 0 g.
Proof.
  intros Hs Hr Hu. unfold KeyGenerator_ctor, fill_values, AllocateKey, max_values in *.
  rewrite (proj2 (Z.ltb_ge (2 ^ 60 - 1) range)) by lia.
  change (KEY_CONTENT_LENGTH <? 0) with false. cbn [mbind outcome_bind].
  eexists. split; [done|]. split; cbn; try done.
  - split; [cbn; lia|cbn; done|done].
  - split; [by right| |done]. cbn. unfold zlen.
    rewrite (Permutation_length (merge_sort_Permutation _ _)), length_app, length_replicate,
      length_fmap, length_seq. lia.
Qed.

(** One file gets [n] entries, or all that are left. *)
Lemma fill_file_spec n range gen g (t : Table slice_ref F) :
  gen_at range gen g → 0 ≤ gen ≤ range →
  let m := Z.to_nat (Z.min (Z.of_nat n) (range - gen)) in
  ∃ g' encs, fill_file n range gen g t =
    Ret (gen + Z.of_nat m, g',
         mkTable (key_list t ++ (Dangling <$> encs)) (value_list t ++ replicate m (Live (lit "v1v2v3v4v5")))
           (target_fd t) (file_name t) (num_of_blocks t)) ∧
    length encs = m ∧ gen_at range (gen + Z.of_nat m) g'.
Proof.
  cbv zeta. revert gen g t. induction n as [|n IH]; intros gen g t Hg Hgen; cbn [fill_file].
  { exists g, []. replace (Z.to_nat _) with 0%nat by lia. rewrite !app_nil_r, Z.add_0_r.
    by destruct t. }
  rewrite Z.geb_leb. destruct (Z.leb_spec range gen).
  { exists g, []. replace (Z.to_nat _) with 0%nat by lia. rewrite !app_nil_r, Z.add_0_r.
    by destruct t. }
  destruct Hg as [Hwf Hval Hd Hk Hn].
  destruct (valued_NextString g Hwf Hval ltac:(lia))
    as (v & g1 & _ & -> & Hwf1 & Hval1 & Hn1 & _ & Hd1 & Hk1 & _).
  cbn [mbind outcome_bind]. set (key := number_key _ _).
  unfold InternalKey_Set, InternalKey_SetFrom.
  rewrite AppendInternalKey_valid by done. rewrite app_nil_l. cbn [mbind outcome_bind].
  set (p := mkParsedInternalKey key (kMaxSequenceNumber - 1) kTypeValue).
  unfold InternalKey_Encode. pose proof (zlen_encode_key_ge p).
  rewrite (proj2 (Z.eqb_neq (zlen (encode_key p)) 0)) by lia.
  cbn [negb assert_that mbind outcome_bind]. pose proof (gen_num _ Hwf).
  rewrite (u64_small (gen + 1)) by lia.
  destruct (IH (gen + 1) g1 (push_entry (Dangling (encode_key p)) (Live (lit "v1v2v3v4v5")) t))
    as (g2 & encs & -> & Hlen & Hat); [split; done || lia|lia|].
  replace (Z.to_nat (Z.min (Z.of_nat (S n)) (range - gen)))
    with (S (Z.to_nat (Z.min (Z.of_nat n) (range - (gen + 1))))) by lia.
  set (m := Z.to_nat (Z.min _ (_ - (_ + _)))) in *.
  exists g2, (encode_key p :: encs). unfold push_entry. cbn [key_list value_list target_fd file_name num_of_blocks].
  split; [|split; [simpl; lia|]]. 
  - rewrite <-!app_assoc. cbn. do 3 f_equal. lia.
  - replace (gen + Z.of_nat (S m)) with (gen + 1 + Z.of_nat m) by lia. done.
Qed.

Lemma CreateTablePtr_open format name fd :
  sys_open name O_CREAT_WRONLY = Some fd →
  CreateTablePtr format name = Ret (mkTable [] [] fd name 0).
Proof.
  intros Hfd. destruct format; unfold CreateTablePtr, PlainTable_ctor, GearTable_ctor,
    BlockBasedTable_ctor, CuckooTable_ctor, Table_ctor; by rewrite Hfd.
Qed.

(** A loop of [generate_files] that keeps [range] entries apart from the last
    one, when the files before it are full. *)
Definition generated_total (range per_file : Z) : Z :=
  if (1 <? range) && ((range - 1) mod per_file =? 0) then range - 1 else range.

Definition entries_of (tables : list (Table slice_ref F)) : Z :=
  foldr Z.add 0 ((λ t, zlen (key_list t)) <$> tables).

(** New files can be opened and take an empty string. *)
Definition files_open : Prop :=
  ∀ name, ∃ fd fd' n, sys_open name O_CREAT_WRONLY = Some fd ∧ sys_write fd [] = (fd', Some n).

Lemma NextFileNames_S n base number :
  NextFileNames (S n) base number =
  (NextFileName base number).1 :: NextFileNames n base (NextFileName base number).2.
Proof. cbn [NextFileNames]. by destruct (NextFileName base number). Qed.

(** The counter after [n] names. *)
Definition number_after (n : nat) (number : Z) : Z := Nat.iter n (λ k, signed 32 (k + 1)) number.

Lemma NextFileNames_app a b base number :
  NextFileNames (a + b) base number = NextFileNames a base number ++ NextFileNames b base (number_after a number).
Proof.
  revert number. induction a as [|a IH]; intros number; [done|].
  cbn [Nat.add]. rewrite !NextFileNames_S, IH. cbn [app]. do 3 f_equal.
  unfold number_after. cbn [Nat.iter]. by rewrite Nat.iter_succ_r.
Qed.

(** One file of a format that writes nothing. *)
Lemma generate_file_spec format per_file base range gen st :
  format = kBlockBased ∨ format = kCuckoo → files_open →
  gen_at range gen (gs_generator st) → 0 ≤ gen ≤ range →
  let m := Z.min (Z.of_nat per_file) (range - gen) in
  ∃ t g, generate_file format per_file base range gen st =
      Ret (gen + m, mkGenState (gs_names st ++ [(NextFileName base (gs_file_number st)).1])
                      (gs_tables st ++ [t]) (NextFileName base (gs_file_number st)).2 g) ∧
    zlen (key_list t) = m ∧ gen_at range (gen + m) g.
Proof.
  cbv zeta. intros Hformat Hopen Hg Hgen. unfold generate_file.
  destruct (NextFileName base (gs_file_number st)) as [name number].
  destruct (Hopen name) as (fd & fd' & n & Hfd & Hw).
  rewrite (CreateTablePtr_open _ _ _ Hfd). cbn [mbind outcome_bind].
  destruct (fill_file_spec per_file range gen (gs_generator st) (mkTable [] [] fd name 0) Hg Hgen)
    as (g & encs & -> & Hlen & Hat). cbn [mbind outcome_bind].
  set (m := Z.to_nat _) in *. replace (Z.min (Z.of_nat per_file) (range - gen)) with (Z.of_nat m) by lia.
  assert (∀ t : Table slice_ref F, disk_format format t = Ret []) as -> by
    (intros t; by destruct Hformat as [-> | ->]).
  cbn [mbind outcome_bind]. unfold WriteToDisk at 1. cbn [target_fd]. rewrite Hw. cbn [mbind outcome_bind].
  eexists _, g. split; [reflexivity|]. split; [|done]. unfold Flush, with_fd. cbn [key_list].
  rewrite app_nil_l, zlen_fmap. unfold zlen. by rewrite Hlen.
Qed.

Lemma generate_loop_counts format per_file base range fuel gen st :
  format = kBlockBased ∨ format = kCuckoo → files_open → (0 < per_file)%nat → range < 2 ^ 64 →
  gen_at range gen (gs_generator st) → 0 ≤ gen → gen mod Z.of_nat per_file = 0 →
  1 ≤ range ∧ (gen = 0 ∨ gen < range - 1) → range - gen ≤ Z.of_nat fuel →
  ∃ st' ts, generate_loop fuel format per_file base range gen st = Ret (Some st') ∧
    gs_tables st' = gs_tables st ++ ts ∧
    gs_names st' = gs_names st ++ NextFileNames (length ts) base (gs_file_number st) ∧
    gs_file_number st' = number_after (length ts) (gs_file_number st) ∧
    Forall (λ t, 1 ≤ zlen (key_list t) ≤ Z.of_nat per_file) ts ∧
    gen + entries_of ts = generated_total range (Z.of_nat per_file).
Proof.
  intros Hformat Hopen Hper Hrange. revert gen st.
  induction fuel as [|fuel IH]; intros gen st Hg Hgen Hmod (Hr & Hlt) Hfuel; [lia|].
  cbn [generate_loop].
  destruct (generate_file_spec format per_file base range gen st Hformat Hopen Hg ltac:(lia))
    as (t & g & -> & Hlen & Hat). cbn [mbind outcome_bind].
  set (per := Z.of_nat per_file) in *. set (m := Z.min per (range - gen)) in *.
  rewrite u64_small, Z.geb_leb by lia.
  pose proof (Z.div_mod gen per ltac:(lia)) as Hdiv. rewrite Hmod, Z.add_0_r in Hdiv.
  destruct (Z.leb_spec (range - 1) (gen + m)) as [Hstop|Hgo].
  - eexists _, [t]. split; [reflexivity|]. split; [done|]. split; [cbn [length]; by rewrite NextFileNames_S|]. split; [done|].
    split; [constructor; [lia|constructor]|]. cbn. rewrite Hlen, Z.add_0_r. unfold generated_total.
    destruct (Z.ltb_spec 1 range) as [H1|H1]; cbn [andb]; [|lia].
    destruct (Z.eqb_spec ((range - 1) mod per) 0) as [Hz|Hz].
    + pose proof (Z.div_mod (range - 1) per ltac:(lia)) as Hd. rewrite Hz, Z.add_0_r in Hd.
      assert (gen / per < (range - 1) / per) by (apply (Z.mul_lt_mono_pos_l per); lia). nia.
    + destruct (decide (gen + m = range)) as [|Hne]; [done|]. destruct Hz.
      replace (range - 1) with (0 + (gen / per + 1) * per) by nia. by rewrite Z.mod_add by lia.
  - assert (m = per) as Hm by lia.
    destruct (IH (gen + m) (mkGenState (gs_names st ++ [(NextFileName base (gs_file_number st)).1])
      (gs_tables st ++ [t]) (NextFileName base (gs_file_number st)).2 g)) as (st' & ts & -> & Ht & Hn & Hnum & Hall & Hsum);
      [done|lia| |lia|lia|].
    { replace (gen + m) with (0 + (gen / per + 1) * per) by nia. by rewrite Z.mod_add by lia. }
    exists st', (t :: ts). split; [done|]. cbn [gs_tables gs_names gs_file_number] in *.
    split; [by rewrite Ht, <-app_assoc|].
    split; [cbn [length]; by rewrite Hn, <-app_assoc, NextFileNames_S|].
    split; [rewrite Hnum; cbn [length]; unfold number_after; by rewrite (Nat.iter_succ_r (length ts))|]. split; [constructor; [lia|done]|].
    unfold entries_of in *. cbn [fmap list_fmap foldr]. lia.
Qed.

Lemma generate_files_spec fuel format per_file seed base start_key range rand number names :
  format = kBlockBased ∨ format = kCuckoo → (0 < per_file)%nat → 0 ≤ start_key → 0 < range ≤ max_values →
  zlen (uninit_memory engines 8%nat) = 8 → files_open → range ≤ Z.of_nat fuel →
  ∃ st, generate_files engines fuel format per_file seed base start_key range rand number names =
      Ret (Some st) ∧
    gs_names st = names ++ NextFileNames (length (gs_tables st)) base number ∧
    gs_file_number st = number_after (length (gs_tables st)) number ∧
    Forall (λ t, 1 ≤ zlen (key_list t) ≤ Z.of_nat per_file) (gs_tables st) ∧
    entries_of (gs_tables st) = generated_total range (Z.of_nat per_file).
Proof.
  intros Hformat Hper Hs Hr Hu Hopen Hfuel. unfold generate_files.
  destruct (ctor_gen_at rand seed start_key range Hs Hr Hu) as (g & -> & Hg).
  cbn [mbind outcome_bind]. unfold max_values in Hr.
  destruct (generate_loop_counts format per_file base range fuel 0 (mkGenState names [] number g))
    as (st & ts & -> & Ht & Hn & Hnum & Hall & Hsum); try (done || lia).
  exists st. cbn [gs_tables gs_names gs_file_number] in *. rewrite app_nil_l in Ht. subst ts.
  rewrite Z.add_0_l in Hsum. done.
Qed.

(** A file that gets no entries. *)
Lemma generate_file_empty format per_file base range gen st :
  format ≠ kGear → files_open → (per_file = 0%nat ∨ range ≤ gen) →
  ∃ st', generate_file format per_file base range gen st = Ret (gen, st') ∧
    gs_generator st' = gs_generator st.
Proof.
  intros Hformat Hopen Hempty. unfold generate_file.
  destruct (NextFileName base (gs_file_number st)) as [name number].
  destruct (Hopen name) as (fd & fd' & n & Hfd & Hw).
  rewrite (CreateTablePtr_open _ _ _ Hfd). cbn [mbind outcome_bind].
  assert (∀ t : Table slice_ref F, fill_file per_file range gen (gs_generator st) t =
    Ret (gen, gs_generator st, t)) as ->.
  { intros t. destruct per_file; [done|]. destruct Hempty; [done|]. cbn [fill_file].
    by rewrite Z.geb_leb, (proj2 (Z.leb_le _ _)) by done. }
  cbn [mbind outcome_bind].
  assert (disk_format format (mkTable [] [] fd name 0) = Ret []) as -> by by destruct format.
  cbn [mbind outcome_bind]. unfold WriteToDisk. cbn [target_fd]. rewrite Hw. cbn.
  eexists. split; reflexivity.
Qed.
(** [generate_files] in the plain and the gear format reads freed memory: a
    table keeps slices of internal keys that are destroyed turn by turn, and
    [ToDiskFormat] of the first file reads them. *)
Lemma generate_files_dangles fuel format per_file seed base start_key range rand number names :
  format = kPlain ∨ format = kGear → (0 < per_file)%nat → 0 ≤ start_key → 0 < range ≤ max_values →
  zlen (uninit_memory engines 8%nat) = 8 → (∀ name, is_Some (sys_open name O_CREAT_WRONLY)) →
  generate_files engines (S fuel) format per_file seed base start_key range rand number names =
    Fault UseAfterFree.
Proof.
  intros Hformat Hper Hs Hr Hu Hopen. unfold generate_files.
  destruct (ctor_gen_at rand seed start_key range Hs Hr Hu) as (g & -> & Hg).
  cbn [mbind outcome_bind generate_loop]. unfold generate_file. cbn [gs_file_number].
  destruct (NextFileName base number) as [name next]. destruct (Hopen name) as [fd Hfd].
  rewrite (CreateTablePtr_open _ _ _ Hfd). cbn [mbind outcome_bind gs_generator].
  destruct (fill_file_spec per_file range 0 g (mkTable [] [] fd name 0) Hg ltac:(lia))
    as (g' & encs & -> & Hlen & _).
  cbn [mbind outcome_bind]. destruct encs as [|e encs]; [simpl in Hlen; lia|].
  by destruct Hformat as [-> | ->].
Qed.

(** [generate_files] writes empty files for ever when there is nothing to
    generate: [range - 1] wraps around for a [range] of 0, and files of no
    entries never reach a [range] of two or more. *)
Lemma generate_files_diverges fuel format per_file seed base start_key range rand number names :
  format ≠ kGear → range = 0 ∨ (per_file = 0%nat ∧ 2 ≤ range ≤ max_values) → files_open →
  generate_files engines fuel format per_file seed base start_key range rand number names = Ret None.
Proof.
  intros Hformat Hr Hopen. unfold generate_files, KeyGenerator_ctor, fill_values, AllocateKey, max_values in *.
  rewrite (proj2 (Z.ltb_ge (2 ^ 60 - 1) range)) by lia.
  change (KEY_CONTENT_LENGTH <? 0) with false. cbn [mbind outcome_bind].
  set (st := mkGenState _ _ _ _). clearbody st. revert st.
  induction fuel as [|fuel IH]; intros st; [done|]. cbn [generate_loop].
  destruct (generate_file_empty format per_file base range 0 st Hformat Hopen ltac:(lia)) as (st' & -> & _).
  cbn [mbind outcome_bind]. rewrite Z.geb_leb, (proj2 (Z.leb_gt _ _)); [apply IH|].
  destruct Hr as [-> |[_ Hr]]; [reflexivity|]. rewrite u64_small; lia.
Qed.
End lemmas.

(** ** Properties *)

(** C19: in the formats that write nothing [generate_files] ends, after at most as
    many files as entries.  No file is empty or has more than [per_file]
    entries, the files have the next names of the counter, and their entries
    are as many as [range], or one less when full files reach [range - 1]. *)
Theorem generate_files_counts (P : Platform) {F} `{Posix F} engines fuel format per_file seed base
    start_key range rand number names :
  format = kBlockBased ∨ format = kCuckoo → (0 < per_file)%nat → 0 ≤ start_key → 0 < range ≤ max_values →
  zlen (uninit_memory engines 8%nat) = 8 → files_open (F:=F) → range ≤ Z.of_nat fuel →
  ∃ st, generate_files (F:=F) engines fuel format per_file seed base start_key range rand number names =
      Ret (Some st) ∧
    gs_names st = names ++ NextFileNames (length (gs_tables st)) base number ∧
    Forall (λ t, 1 ≤ zlen (key_list t) ≤ Z.of_nat per_file) (gs_tables st) ∧
    entries_of (gs_tables st) =
      (if (1 <? range) && ((range - 1) mod Z.of_nat per_file =? 0) then range - 1 else range).
Proof.
  intros Hformat Hper Hs Hr Hu Hopen Hfuel.
  destruct (generate_files_spec engines fuel format per_file seed base start_key range rand number names
    Hformat Hper Hs Hr Hu Hopen Hfuel) as (st & Hrun & Hn & _ & Hall & Hsum).
  by exists st.
Qed.

Lemma generate_files_counts_witness :
  files_open (F:=MemFile) (H0:=MemPosix []) ∧
  ∃ st, generate_files (H:=LittleEndianHost) (F:=MemFile) (H0:=MemPosix [])
    (mkEngines (λ _ l, l) (λ n, replicate n NUL) (λ _ _, 7)) 3 kCuckoo 2 0 [] 0 3 (λ _, 7) 0 [] = Ret (Some st) ∧
    entries_of (gs_tables st) = 2.
Proof.
  assert (files_open (F:=MemFile) (H0:=MemPosix [])) as Hopen
    by (intros name; eexists _, _, _; split; reflexivity).
  split; [exact Hopen|].
  destruct (generate_files_counts LittleEndianHost (F:=MemFile) (H:=MemPosix [])
    (mkEngines (λ _ l, l) (λ n, replicate n NUL) (λ _ _, 7)) 3 kCuckoo 2 0 [] 0 3 (λ _, 7) 0 [])
    as (st & Hst & _ & _ & He).
  - right. reflexivity.
  - lia.
  - lia.
  - unfold max_values. lia.
  - reflexivity.
  - exact Hopen.
  - lia.
  - exists st. split; [exact Hst|exact He].
Defined.
