(* ===== verification/Bench.v ===== *)
(** * The benchmark tool (tools/gear_bench_tool.cc, lines 48 to 65 and 141 to 254)

    The drivers of the tool: they prepare directories, make files in a thread
    that is joined at once, and run the baseline merge.  The shell and the
    directories are behind the class [Shell]; the state of the file system is a
    value [W] that gives the system calls of Tables.  Timers and messages are
    left out. *)
From S2P Require Import Prelude Decimal Slice Coding DbFormat OnBoard Tables QueueOrder Merger StreamMerger.
From S2P Require Import StringUtil KeyGen GenFiles.

(** ** The environment *)

(** [sh_written] is the file system after the tables of [generate_files] were
    written and closed. *)
Class Shell (W F : Type) := {
  sh_system : bytes → W → W;
  sh_create_directories : bytes → W → outcome W;
  sh_posix : W → Posix F;
  sh_written : list (Table slice_ref F) → W → W;
}.

(** What the objects of the merge hold before they are set. *)
Record Indeterminate := mkIndeterminate {
  ind_type1 : ValueType;
  ind_type2 : ValueType;
  ind_logic : FilterLogic;
  ind_bound : FilterArgs;
  ind_buffer : bytes;
}.

(** The flags this model of the tool reads, as gflags leaves them. *)
Record Flags := mkFlags {
  FLAGS_seed : Z;
  FLAGS_db_path : bytes;
  FLAGS_table_format : bytes;
  FLAGS_bench_threads : Z;
  FLAGS_entries_per_file : Z;
  FLAGS_distinct_num : Z;
  FLAGS_benchmark : bytes;
}.

(** The defaults. *)
Definition default_flags : Flags :=
  mkFlags 0 (lit "/tmp/rocksdb/gear") (lit "gear") 1 10324400 (10324400 * 8) (lit "baseline").

(** [split] *)
Definition split (s : bytes) (delim : byte) : list bytes := getline_loop delim s [].

Section bench.
Context `{Platform} {W F : Type} `{Shell W F} (engines : Engines) (ind : Indeterminate) (fl : Flags).

(** [start_posi(FLAGS_bench_threads)]: a vector of zeros. *)
Definition start_vector : outcome (list Z) :=
  if max_values <? u64 (FLAGS_bench_threads fl) then Fault ThrowLengthError
  else Ret (replicate (Z.to_nat (u64 (FLAGS_bench_threads fl))) 0).

(** [FLAGS_distinct_num / FLAGS_bench_threads] *)
Definition range_step_of : outcome Z :=
  if u64 (FLAGS_bench_threads fl) =? 0 then Fault DivideByZero
  else Ret (FLAGS_distinct_num fl / u64 (FLAGS_bench_threads fl)).

(** The names so far, the next file number, what the engine still gives, and
    the file system. *)
Record CreateState := mkCreateState {
  cs_names : list bytes;
  cs_number : Z;
  cs_rand : nat → Z;
  cs_world : W;
}.

(** The loop over the threads from [i] on, [n] of them left; [None] is a run in
    which a thread still makes files after [fuel] of them.  [i] is an [int]. *)
Fixpoint create_files (fuel : nat) (format : TableFormat) (range_step : Z) (n : nat) (i : Z)
    (start_posi : list Z) (cs : CreateState) : outcome (option CreateState) :=
  match n with
  | O => Ret (Some cs)
  | S n =>
      let start_posi := start_posi ++ [range_step] in
      start_key ← match start_posi !! Z.to_nat i with Some k => Ret k | None => Fault OutOfBounds end;
      st ← generate_files (H0:=sh_posix (cs_world cs)) engines fuel format
             (Z.to_nat (FLAGS_entries_per_file fl)) (FLAGS_seed fl) (FLAGS_db_path fl)
             start_key range_step (cs_rand cs) (cs_number cs) (cs_names cs);
      match st with
      | None => Ret None
      | Some st =>
          let cs := mkCreateState (gs_names st) (gs_file_number st) (rand_ (gs_generator st))
                      (sh_written (gs_tables st) (cs_world cs)) in
          if i =? 2 ^ 31 - 1 then Fault SignedOverflow
          else create_files fuel format range_step n (i + 1) start_posi cs
      end
  end.

(** [FPGAMerger] *)
Definition FPGAMerger (fuel : nat) (w : W) : outcome (option CreateState) :=
  w ← sh_create_directories (FLAGS_db_path fl) w;
  start_posi ← start_vector;
  range_step ← range_step_of;
  let format := StringToRepFactory (FLAGS_table_format fl) in
  create_files fuel format range_step (Z.to_nat (FLAGS_bench_threads fl)) 0 start_posi
    (mkCreateState [] 0 (mt19937_64 engines (FLAGS_seed fl)) w).

(** The names of files that are there already; the counter is an [int]. *)
Definition existing_files : outcome (list bytes) :=
  if FLAGS_entries_per_file fl =? 0 then Fault DivideByZero
  else let n := FLAGS_distinct_num fl / FLAGS_entries_per_file fl in
    if 2 ^ 31 - 1 <? n then Fault SignedOverflow
    else Ret (NextFileNames (Z.to_nat n) (FLAGS_db_path fl) 0).

(** The directories before the merge. *)
Definition prepare_directories (merge_only : bool) (w : W) : outcome W :=
  let results := FLAGS_db_path fl ++ lit "/results" in
  w ← (if merge_only then Ret w
       else sh_create_directories (FLAGS_db_path fl)
              (sh_system (lit "rm -rf " ++ FLAGS_db_path fl) w));
  sh_create_directories results (sh_system (lit "rm -rf " ++ results) w).

(** The merge of the named files: the merger and what [DoCompaction] returns,
    which is dropped. *)
Definition run_merger (input_files : list bytes) (w : W) : outcome (BaselineMerger F * Z) :=
  '(files, merger) ← BaselineMerger_ctor (H0:=sh_posix w) input_files (ind_logic ind) (ind_bound ind);
  let merger := Baseline_GenerateFilterArgs kRemoveRedundant (mkFilterArgs 0 []) merger in
  Baseline_DoCompaction (H0:=sh_posix w) (ind_type1 ind) (ind_type2 ind) (ind_buffer ind) files merger.

(** [BaselineMergeTask]: the file system and the merger. *)
Definition BaselineMergeTask (fuel : nat) (merge_only : bool) (w : W) :
    outcome (option (W * BaselineMerger F)) :=
  w ← prepare_directories merge_only w;
  start_posi ← start_vector;
  range_step ← range_step_of;
  cs ← (if merge_only then
          names ← existing_files;
          Ret (Some (mkCreateState names 0 (mt19937_64 engines (FLAGS_seed fl)) w))
        else create_files fuel kPlain range_step (Z.to_nat (FLAGS_bench_threads fl)) 0 start_posi
               (mkCreateState [] 0 (mt19937_64 engines (FLAGS_seed fl)) w));
  match cs with
  | None => Ret None
  | Some cs =>
      '(merger, _) ← run_merger (cs_names cs) (cs_world cs);
      Ret (Some (cs_world cs, merger))
  end.


End bench.

(** ** Lemmas *)


Section merge.
Context `{Platform} {F : Type} `{Posix F}.







End merge.

Section drivers.
Context `{Platform} {W F : Type} `{Shell W F} (engines : Engines) (ind : Indeterminate) (fl : Flags).




Lemma start_vector_ok :
  0 < FLAGS_bench_threads fl ≤ max_values →
  start_vector fl = Ret (replicate (Z.to_nat (FLAGS_bench_threads fl)) 0) ∧
  range_step_of fl = Ret (FLAGS_distinct_num fl / FLAGS_bench_threads fl).
Proof.
  intros Ht. unfold start_vector, range_step_of, max_values in *. rewrite !u64_small by lia.
  rewrite (proj2 (Z.ltb_ge (2 ^ 60 - 1) _)) by lia. by rewrite (proj2 (Z.eqb_neq _ 0)) by lia.
Qed.

Lemma start_vector_negative :
  - 2 ^ 63 ≤ FLAGS_bench_threads fl < 0 → start_vector fl = Fault ThrowLengthError.
Proof.
  intros Ht. unfold start_vector, max_values. replace (u64 _) with (FLAGS_bench_threads fl + 2 ^ 64).
  - by rewrite (proj2 (Z.ltb_lt _ _)) by lia.
  - unfold u64. rewrite <-(Z.mod_add _ 1), Z.mul_1_l, Z.mod_small by lia. done.
Qed.

(** [n] threads that all start at key 0 with a range of [step], one after the
    other; [None] is a run in which one still makes files after [fuel] of them. *)
Fixpoint threads_from_zero (fuel : nat) (format : TableFormat) (step : Z) (n : nat) (cs : CreateState) :
    outcome (option (@CreateState W)) :=
  match n with
  | O => Ret (Some cs)
  | S n =>
      st ← generate_files (H0:=sh_posix (cs_world cs)) engines fuel format
             (Z.to_nat (FLAGS_entries_per_file fl)) (FLAGS_seed fl) (FLAGS_db_path fl) 0 step
             (cs_rand cs) (cs_number cs) (cs_names cs);
      match st with
      | None => Ret None
      | Some st => threads_from_zero fuel format step n
          (mkCreateState (gs_names st) (gs_file_number st) (rand_ (gs_generator st))
             (sh_written (gs_tables st) (cs_world cs)))
      end
  end.

(** The ranges are pushed behind the zeros that the threads read. *)
Lemma create_files_zero fuel format step n i start cs :
  0 ≤ i → i + Z.of_nat n < 2 ^ 31 →
  (∀ j, i ≤ j < i + Z.of_nat n → start !! Z.to_nat j = Some 0) →
  create_files engines fl fuel format step n i start cs = threads_from_zero fuel format step n cs.
Proof.
  revert i start cs. induction n as [|n IH]; intros i start cs Hi Hn Hstart; [done|].
  cbn [create_files threads_from_zero].
  rewrite (lookup_app_l_Some _ _ _ _ (Hstart i ltac:(lia))). cbn [mbind outcome_bind].
  destruct (generate_files _ _ _ _ _ _ _ _ _ _ _) as [[st|]|]; cbn [mbind outcome_bind]; [|done..].
  rewrite (proj2 (Z.eqb_neq i (2 ^ 31 - 1))) by lia. apply IH; [lia..|].
  intros j Hj. apply lookup_app_l_Some, Hstart. lia.
Qed.

(** The threads in a format that writes nothing. *)
Lemma threads_from_zero_spec fuel format step n cs :
  format = kBlockBased ∨ format = kCuckoo → 0 < FLAGS_entries_per_file fl →
  0 < step ≤ max_values → step ≤ Z.of_nat fuel → zlen (uninit_memory engines 8%nat) = 8 →
  (∀ w : W, files_open (H0:=sh_posix w)) →
  ∃ cs' k, threads_from_zero fuel format step n cs = Ret (Some cs') ∧
    (n ≤ k)%nat ∧ cs_number cs' = number_after k (cs_number cs) ∧
    cs_names cs' = cs_names cs ++ NextFileNames k (FLAGS_db_path fl) (cs_number cs).
Proof.
  intros Hformat Hper Hstep Hfuel Hu Hopen. revert cs.
  induction n as [|n IH]; intros cs; [exists cs, 0%nat; by rewrite app_nil_r|]. cbn [threads_from_zero].
  destruct (generate_files_spec (H0:=sh_posix (cs_world cs)) engines fuel format
    (Z.to_nat (FLAGS_entries_per_file fl)) (FLAGS_seed fl) (FLAGS_db_path fl) 0 step (cs_rand cs)
    (cs_number cs) (cs_names cs) Hformat ltac:(lia) ltac:(lia) Hstep Hu (Hopen _) Hfuel)
    as (st & -> & Hnames & Hnumber & Hall & Hsum). cbn [mbind outcome_bind].
  edestruct IH as (cs' & k & -> & Hk & Hnum' & Hnames'). cbn [cs_number cs_names] in *.
  exists cs', (length (gs_tables st) + k)%nat. split; [reflexivity|].
  assert (length (gs_tables st) ≠ 0%nat) as Hne.
  { intros He. destruct (gs_tables st); [|done]. unfold entries_of, generated_total in Hsum. cbn in Hsum.
    destruct (Z.ltb_spec 1 step), (_ =? 0); cbn in Hsum; lia. }
  split; [lia|]. rewrite Hnum', Hnames', Hnumber, Hnames, <-app_assoc, NextFileNames_app.
  split; [|done]. unfold number_after. by rewrite Nat.add_comm, Nat.iter_add.
Qed.
End drivers.

(** ** Properties *)


(** A system whose every file holds [content], and which keeps none. *)
Definition MemShell (content : bytes) : Shell unit MemFile := {|
  sh_system cmd w := w;
  sh_create_directories dir w := Ret w;
  sh_posix w := MemPosix content;
  sh_written tables w := w;
|}.


(** C20: what the tool does with its number of threads.  A negative number asks
    for a vector beyond [max_size()]; none divides by zero, also when the merge
    makes no files.  With fewer keys than threads the first thread writes empty
    files for ever.  With enough keys the benchmark "baseline_full" never gets
    to its merge: the first thread reads the freed keys of its first file. *)
Theorem benchmark_threads (P : Platform) {W F} `{Shell W F} engines ind fl fuel w :
  (∀ d w, ∃ w', sh_create_directories d w = Ret w') →
  (∀ w : W, files_open (H0:=sh_posix w)) → zlen (uninit_memory engines 8%nat) = 8 →
  0 ≤ FLAGS_distinct_num fl < 2 ^ 60 → 0 < FLAGS_entries_per_file fl →
  let threads := FLAGS_bench_threads fl in
  (- 2 ^ 63 ≤ threads < 0 →
     FPGAMerger engines fl fuel w = Fault ThrowLengthError ∧
     ∀ b, BaselineMergeTask engines ind fl fuel b w = Fault ThrowLengthError) ∧
  (threads = 0 →
     FPGAMerger engines fl fuel w = Fault DivideByZero ∧
     ∀ b, BaselineMergeTask engines ind fl fuel b w = Fault DivideByZero) ∧
  (FLAGS_distinct_num fl < threads ≤ max_values →
     BaselineMergeTask engines ind fl fuel false w = Ret None) ∧
  (0 < threads ≤ FLAGS_distinct_num fl →
     BaselineMergeTask engines ind fl (S fuel) false w = Fault UseAfterFree).
Proof.
  intros Hdir Hopen Hu Hd He threads.
  assert (∀ b w, ∃ w', prepare_directories fl b w = Ret w') as Hprep.
  { intros [] v; unfold prepare_directories; cbn [mbind outcome_bind]; [apply Hdir|].
    edestruct Hdir as [v' ->]. cbn [mbind outcome_bind]. apply Hdir. }
  unfold FPGAMerger, BaselineMergeTask. destruct (Hdir (FLAGS_db_path fl) w) as [w1 ->].
  split; [|split; [|split]]; intros Ht.
  - rewrite (start_vector_negative fl Ht). split; [done|]. intros b. by destruct (Hprep b w) as [w2 ->].
  - unfold start_vector, range_step_of. fold threads. rewrite Ht. split; [done|].
    intros b. by destruct (Hprep b w) as [w2 ->].
  - destruct (Hprep false w) as [w2 ->]. cbn [mbind outcome_bind].
    destruct (start_vector_ok fl) as [-> ->]; [fold threads; lia|]. fold threads.
    rewrite Z.div_small by lia. destruct (Z.to_nat threads) as [|n] eqn:En; [lia|].
    cbn [mbind outcome_bind create_files replicate app]. change (Z.to_nat 0) with 0%nat. cbn [lookup list_lookup].
    cbn [mbind outcome_bind]. rewrite generate_files_diverges; [done|discriminate|by left|apply Hopen].
  - destruct (Hprep false w) as [w2 ->]. cbn [mbind outcome_bind].
    destruct (start_vector_ok fl) as [-> ->]; [fold threads; unfold max_values; lia|]. fold threads.
    destruct (Z.to_nat threads) as [|n] eqn:En; [lia|].
    assert (0 < FLAGS_distinct_num fl / threads ≤ max_values) as Hstep.
    { unfold max_values. split; [apply Z.div_str_pos; lia|].
      assert (FLAGS_distinct_num fl / threads ≤ FLAGS_distinct_num fl); [|lia].
      apply Z.div_le_upper_bound; nia. }
    cbn [mbind outcome_bind create_files replicate app]. change (Z.to_nat 0) with 0%nat. cbn [lookup list_lookup].
    cbn [mbind outcome_bind].
    rewrite generate_files_dangles; [done|by left|lia|lia|exact Hstep|exact Hu|].
    intros name. destruct (Hopen (cs_world (mkCreateState [] 0 (mt19937_64 engines (FLAGS_seed fl)) w2)) name)
      as (fd & _ & _ & Hfd & _). by exists fd.
Qed.

Lemma benchmark_threads_witness :
  let fl := mkFlags 0 (lit "/db") (lit "gear") 2 10 100 (lit "baseline_full") in
  files_open (H0:=MemPosix []) ∧
  ∃ ind, BaselineMergeTask (H:=LittleEndianHost) (H0:=MemShell [])
    (mkEngines (λ _ l, l) (λ n, replicate n NUL) (λ _ _, 7)) ind fl 1 false tt = Fault UseAfterFree.
Proof.
  cbv zeta.
  assert (files_open (H0:=MemPosix [])) as Hopen by (intros name; eexists _, _, _; split; reflexivity).
  split; [exact Hopen|].
  exists (mkIndeterminate 0 0 kDeletePrefix (mkFilterArgs 0 []) []).
  apply (benchmark_threads LittleEndianHost (H:=MemShell [])
    (mkEngines (λ _ l, l) (λ n, replicate n NUL) (λ _ _, 7))
    (mkIndeterminate 0 0 kDeletePrefix (mkFilterArgs 0 []) [])
    (mkFlags 0 (lit "/db") (lit "gear") 2 10 100 (lit "baseline_full")) 0 tt).
  - intros d v. eexists. reflexivity.
  - intros v. exact Hopen.
  - reflexivity.
  - cbn. lia.
  - cbn. lia.
  - cbn. lia.
Defined.

(** C40: the benchmark "gear", for a number of threads an [int] can count to.  It
    is what its threads do one after the other, each from key 0 on with the same
    range, in every format: the range is pushed behind the zeros the vector of
    the starts begins with, so no thread starts where another ends.  In the
    block-based and the cuckoo format, which write nothing, it ends, and the
    threads use the consecutive names of one counter, at least one each: no
    thread writes to a file of another. *)
Theorem gear_benchmark_files (P : Platform) {W F} `{Shell W F} engines fl fuel w :
  0 < FLAGS_bench_threads fl < 2 ^ 31 →
  let threads := FLAGS_bench_threads fl in
  let step := FLAGS_distinct_num fl / threads in
  let format := StringToRepFactory (FLAGS_table_format fl) in
  FPGAMerger engines fl fuel w =
    (w1 ← sh_create_directories (FLAGS_db_path fl) w;
     threads_from_zero engines fl fuel format step (Z.to_nat threads)
       (mkCreateState [] 0 (mt19937_64 engines (FLAGS_seed fl)) w1)) ∧
  ((∀ d w, ∃ w', sh_create_directories d w = Ret w') →
   (∀ w : W, files_open (H0:=sh_posix w)) → zlen (uninit_memory engines 8%nat) = 8 →
   format ∈ [kBlockBased; kCuckoo] → threads ≤ FLAGS_distinct_num fl < 2 ^ 60 →
   step ≤ Z.of_nat fuel → 0 < FLAGS_entries_per_file fl →
   ∃ cs, FPGAMerger engines fl fuel w = Ret (Some cs) ∧
     threads ≤ zlen (cs_names cs) ∧
     cs_names cs = NextFileNames (length (cs_names cs)) (FLAGS_db_path fl) 0).
Proof.
  intros Ht threads step format.
  assert (FPGAMerger engines fl fuel w =
    (w1 ← sh_create_directories (FLAGS_db_path fl) w;
     threads_from_zero engines fl fuel format step (Z.to_nat threads)
       (mkCreateState [] 0 (mt19937_64 engines (FLAGS_seed fl)) w1))) as Heq.
  { unfold FPGAMerger. destruct (sh_create_directories _ w) as [w1|]; cbn [mbind outcome_bind]; [|done].
    destruct (start_vector_ok fl) as [-> ->]; [unfold max_values; lia|]. cbn [mbind outcome_bind].
    apply create_files_zero; [lia|fold threads in Ht |- *; lia|].
    intros j Hj. apply lookup_replicate_2. lia. }
  split; [exact Heq|]. intros Hdir Hopen Hu Hformat Hd Hfuel He. rewrite Heq.
  assert (0 < step ≤ max_values) as Hrange.
  { unfold max_values, step. split; [apply Z.div_str_pos; lia|].
    assert (FLAGS_distinct_num fl / threads ≤ FLAGS_distinct_num fl); [|lia].
    apply Z.div_le_upper_bound; nia. }
  destruct (Hdir (FLAGS_db_path fl) w) as [w1 ->]. cbn [mbind outcome_bind].
  edestruct (threads_from_zero_spec engines fl fuel format step (Z.to_nat threads))
    as (cs & k & -> & Hk & _ & Hnames); [set_unfold; tauto|exact He|exact Hrange|exact Hfuel|exact Hu|exact Hopen|].
  exists cs. split; [done|]. cbn [cs_names cs_number] in Hnames. rewrite app_nil_l in Hnames.
  assert (∀ n base number, length (NextFileNames n base number) = n) as Hlen.
  { induction n as [|n IH]; intros base number; [done|]. rewrite NextFileNames_S. cbn. by rewrite IH. }
  rewrite Hnames. unfold zlen. rewrite Hlen. split; [lia|done].
Qed.

Lemma gear_benchmark_files_witness :
  let fl := mkFlags 0 (lit "/db") (lit "Cuckoo") 2 10 20 (lit "gear") in
  files_open (H0:=MemPosix []) ∧
  ∃ cs, FPGAMerger (H:=LittleEndianHost) (H0:=MemShell [])
    (mkEngines (λ _ l, l) (λ n, replicate n NUL) (λ _ _, 7)) fl 10 tt = Ret (Some cs) ∧ 2 ≤ zlen (cs_names cs).
Proof.
  cbv zeta.
  assert (files_open (H0:=MemPosix [])) as Hopen by (intros name; eexists _, _, _; split; reflexivity).
  split; [exact Hopen|].
  destruct (gear_benchmark_files LittleEndianHost (H:=MemShell [])
    (mkEngines (λ _ l, l) (λ n, replicate n NUL) (λ _ _, 7))
    (mkFlags 0 (lit "/db") (lit "Cuckoo") 2 10 20 (lit "gear")) 10 tt) as [_ Hrun]; [cbn; lia|].
  destruct Hrun as (cs & Hcs & Hl & _).
  - intros d v. eexists. reflexivity.
  - intros v. exact Hopen.
  - reflexivity.
  - right. left.
  - cbn. lia.
  - cbn. change (20 / 2) with 10. lia.
  - cbn. lia.
  - exists cs. split; [exact Hcs|exact Hl].
Defined.
