(* ===== verification/Random.v ===== *)
(** * Random numbers (include/random.h)

    [Random] is the minimal standard generator, [seed * 16807 mod 2^31 - 1], with
    the modulus reduced by a shift, a mask and a conditional subtraction.
    [Random32], [Random64] and [RandomShuffle] wrap an engine of the standard
    library, its uniform distribution and [std::shuffle]: the class [Engine],
    with what the standard says of them as laws. *)
From S2P Require Import Prelude.

Definition M : Z := 2147483647.
Definition A : Z := 16807.
Definition kMaxNext : Z := M.

Definition GoodSeed (s : Z) : Z := if negb (Z.land s M =? 0) then Z.land s M else 1.

(** The constructor and [Reset]. *)
Definition Random_Reset (s : Z) : Z := GoodSeed s.

(** [Next]: the new [seed_], which is also the result. *)
Definition Next (seed_ : Z) : Z :=
  let product := u64 (seed_ * A) in
  let seed_ := u32 (Z.shiftr product 31 + Z.land product M) in
  if seed_ >? M then seed_ - M else seed_.

(** The result and the new [seed_]. *)
Definition Uniform (seed_ n : Z) : Z * Z := (Next seed_ mod n, Next seed_).
Definition OneIn (seed_ n : Z) : bool * Z := let '(r, s) := Uniform seed_ n in (r =? 0, s).
(** The second draw happens only for a positive [n]. *)
Definition OneInOpt (seed_ n : Z) : bool * Z :=
  if n >? 0 then OneIn seed_ n else (false, seed_).
Definition PercentTrue (seed_ percentage : Z) : bool * Z :=
  let '(r, s) := Uniform seed_ 100 in (signed 32 r <? percentage, s).
Definition Skewed (seed_ max_log : Z) : Z * Z :=
  let '(r, s) := Uniform seed_ (max_log + 1) in Uniform s (Z.shiftl 1 r).

(** ** The wrappers of the standard engines *)

(** An engine [E] that draws [w]-bit numbers; [uniform lo hi] is the
    distribution over [lo .. hi]. *)
Class Engine (E : Type) (w : Z) := {
  engine_seed : Z → E;
  engine_draw : E → Z * E;
  uniform : Z → Z → E → Z * E;
  std_shuffle : E → list Z → list Z;
}.

Class EngineLaws (E : Type) (w : Z) `{Engine E w} : Prop := {
  draw_range e : 0 ≤ (engine_draw e).1 < 2 ^ w;
  uniform_range lo hi e : lo ≤ hi → lo ≤ (uniform lo hi e).1 ≤ hi;
  shuffle_perm e l : std_shuffle e l ≡ₚ l;
}.

(** [Random32] over [std::mt19937]; each method gives its result and the
    generator. *)
Section random32.
Context {E : Type} `{Engine E 32}.

Definition Random32_ctor (s : Z) : E := engine_seed (u32 s).
Definition Random32_Next (g : E) : Z * E := let '(v, g) := engine_draw g in (u32 v, g).
Definition Random32_Uniform (n : Z) (g : E) : Z * E :=
  let '(v, g) := uniform 0 (u32 (n - 1)) g in (u32 v, g).
Definition Random32_Uniformish (n : Z) (g : E) : Z * E :=
  let '(v, g) := engine_draw g in (u32 (Z.shiftr (u64 (v * n)) 32), g).
Definition Random32_OneIn (n : Z) (g : E) : bool * E := let '(v, g) := Random32_Uniform n g in (v =? 0, g).
(** A shift by 32 or more is not defined. *)
Definition Random32_Skewed (max_log : Z) (g : E) : outcome (Z * E) :=
  let '(base, g) := Random32_Uniform (u32 (max_log + 1)) g in
  if base >=? 32 then Fault SignedOverflow
  else Ret (Random32_Uniform (u32 (Z.shiftl 1 base)) g).
Definition Random32_Seed (new_seed : Z) (g : E) : E := engine_seed (u32 new_seed).

Definition RandomShuffle (l : list Z) (seed : Z) : list Z := std_shuffle (engine_seed (u32 seed)) l.
End random32.

(** [Random64] over [std::mt19937_64] *)
Section random64.
Context {E : Type} `{Engine E 64}.

Definition Random64_ctor (s : Z) : E := engine_seed (u64 s).
Definition Random64_Next (g : E) : Z * E := engine_draw g.
Definition Random64_Uniform (n : Z) (g : E) : Z * E := uniform 0 (u64 (n - 1)) g.
Definition Random64_OneIn (n : Z) (g : E) : bool * E := let '(v, g) := Random64_Uniform n g in (v =? 0, g).
(** [max_log + 1] is an [int] that becomes a [uint64_t]. *)
Definition Random64_Skewed (max_log : Z) (g : E) : outcome (Z * E) :=
  let '(base, g) := Random64_Uniform (u64 (max_log + 1)) g in
  if base >=? 64 then Fault SignedOverflow
  else Ret (Random64_Uniform (u64 (Z.shiftl 1 base)) g).
End random64.

(** ** Lemmas *)

Lemma land_M z : Z.land z M = z mod 2 ^ 31.
Proof. change M with (Z.ones 31). by rewrite Z.land_ones. Qed.

Lemma GoodSeed_range s : 1 ≤ GoodSeed s ≤ M.
Proof.
  unfold GoodSeed. rewrite land_M. pose proof (Z.mod_pos_bound s (2 ^ 31) ltac:(lia)).
  unfold M. destruct (Z.eqb_spec (s mod 2 ^ 31) 0); simpl; lia.
Qed.

(** The reduction computes the remainder of a product that is no multiple. *)
Lemma Next_mod seed :
  1 ≤ seed < M → Next seed = (seed * A) mod M ∧ 1 ≤ Next seed < M.
Proof.
  intros Hs. unfold Next. assert (seed * A < 2 ^ 31 * A) by (unfold M, A in *; lia).
  rewrite u64_small by (unfold A in *; lia). rewrite land_M, shiftr_pow2 by lia.
  set (p := seed * A) in *. assert (0 < p) by (unfold p, A; lia).
  pose proof (Z.div_mod p (2 ^ 31) ltac:(lia)) as Hd.
  pose proof (Z.mod_pos_bound p (2 ^ 31) ltac:(lia)) as Hm.
  assert (0 ≤ p / 2 ^ 31 < A) as Hq.
  { split; [apply Z.div_pos; lia|apply Z.div_lt_upper_bound; lia]. }
  rewrite u32_small by (unfold A in *; lia).
  assert (p mod M ≠ 0) as Hne.
  { intros Hz. apply Z.mod_divide in Hz; [|done]. unfold p in Hz.
    rewrite Z.mul_comm in Hz. apply Z.gauss in Hz; [|reflexivity]. apply Z.divide_pos_le in Hz; lia. }
  assert (p = M * (p / 2 ^ 31) + (p / 2 ^ 31 + p mod 2 ^ 31)) as Hp.
  { change (2 ^ 31) with (M + 1) in *. lia. }
  assert (p mod M = (p / 2 ^ 31 + p mod 2 ^ 31) mod M) as Hmod.
  { rewrite Hp at 1. rewrite Z.add_comm, Z.mul_comm, Z.mod_add by done. done. }
  pose proof (Z.mod_pos_bound p M ltac:(done)) as Hpm.
  assert (0 ≤ p / 2 ^ 31 + p mod 2 ^ 31 < 2 * M) as Hs2 by (unfold A, M in *; lia).
  set (s := p / 2 ^ 31 + p mod 2 ^ 31) in *. rewrite Z.gtb_ltb.
  clearbody s. clear Hp Hd Hm Hq. destruct (Z.ltb_spec M s) as [Hlt|Hle].
  - assert (s mod M = s - M) as Hs' by (symmetry; apply (Z.mod_unique s M 1); lia).
    lia.
  - destruct (decide (s = M)) as [->|Hn]; [rewrite Z.mod_same in Hmod; done|].
    rewrite (Z.mod_small s) in Hmod by lia. lia.
Qed.

Section wrapper_lemmas.
Context {E : Type} `{EngineLaws E 32}.

Lemma Random32_Uniform_range n g : 0 < n < 2 ^ 32 → 0 ≤ (Random32_Uniform n g).1 < n.
Proof.
  intros Hn. unfold Random32_Uniform. rewrite (u32_small (n - 1)) by lia.
  pose proof (uniform_range 0 (n - 1) g ltac:(lia)) as Hr. destruct (uniform _ _ _) as [v g'].
  cbn [fst] in *. rewrite u32_small; lia.
Qed.

Lemma Random32_Uniformish_range n g : 0 < n < 2 ^ 32 → 0 ≤ (Random32_Uniformish n g).1 < n.
Proof.
  intros Hn. unfold Random32_Uniformish. pose proof (draw_range g) as Hr.
  destruct (engine_draw g) as [v g']. cbn [fst] in *. rewrite u64_small by nia.
  rewrite shiftr_pow2 by lia. assert (0 ≤ v * n / 2 ^ 32 < n); [|by rewrite u32_small by lia].
  split; [apply Z.div_pos; nia|apply Z.div_lt_upper_bound; nia].
Qed.

Lemma Random32_Skewed_range max_log g :
  0 ≤ max_log < 32 → ∃ v g', Random32_Skewed max_log g = Ret (v, g') ∧ 0 ≤ v < 2 ^ max_log.
Proof.
  intros Hm. unfold Random32_Skewed. rewrite (u32_small (max_log + 1)) by lia.
  pose proof (Random32_Uniform_range (max_log + 1) g ltac:(lia)) as Hb.
  destruct (Random32_Uniform _ _) as [base g']. cbn [fst] in Hb.
  rewrite Z.geb_leb, (proj2 (Z.leb_gt 32 base)), shiftl_pow2, Z.mul_1_l by lia.
  assert (0 < 2 ^ base < 2 ^ 32) as Hp.
  { split; [apply Z.pow_pos_nonneg; lia|apply Z.pow_lt_mono_r; lia]. }
  assert (2 ^ base ≤ 2 ^ max_log) by (apply Z.pow_le_mono_r; lia).
  rewrite u32_small by lia. pose proof (Random32_Uniform_range (2 ^ base) g' Hp) as Hr.
  destruct (Random32_Uniform (2 ^ base) g') as [v g'']. cbn [fst] in Hr. exists v, g''. split; [done|lia].
Qed.
End wrapper_lemmas.

Section wrapper64_lemmas.
Context {E : Type} `{EngineLaws E 64}.

Lemma Random64_Uniform_range n g : 0 < n < 2 ^ 64 → 0 ≤ (Random64_Uniform n g).1 < n.
Proof.
  intros Hn. unfold Random64_Uniform. rewrite (u64_small (n - 1)) by lia.
  pose proof (uniform_range 0 (n - 1) g ltac:(lia)). lia.
Qed.

Lemma Random64_Skewed_range max_log g :
  0 ≤ max_log < 64 → ∃ v g', Random64_Skewed max_log g = Ret (v, g') ∧ 0 ≤ v < 2 ^ max_log.
Proof.
  intros Hm. unfold Random64_Skewed. rewrite (u64_small (max_log + 1)) by lia.
  pose proof (Random64_Uniform_range (max_log + 1) g ltac:(lia)) as Hb.
  destruct (Random64_Uniform _ _) as [base g']. cbn [fst] in Hb.
  rewrite Z.geb_leb, (proj2 (Z.leb_gt 64 base)), shiftl_pow2, Z.mul_1_l by lia.
  assert (0 < 2 ^ base < 2 ^ 64) as Hp.
  { split; [apply Z.pow_pos_nonneg; lia|apply Z.pow_lt_mono_r; lia]. }
  assert (2 ^ base ≤ 2 ^ max_log) by (apply Z.pow_le_mono_r; lia).
  rewrite u64_small by lia. pose proof (Random64_Uniform_range (2 ^ base) g' Hp) as Hr.
  destruct (Random64_Uniform (2 ^ base) g') as [v g'']. cbn [fst] in Hr. exists v, g''. split; [done|lia].
Qed.
End wrapper64_lemmas.

(** ** Properties *)

(** C37: [Next] computes [seed * 16807 mod 2^31 - 1], stays in [1 .. 2^31 - 2] and
    never maps two seeds to one, so that [Uniform] is in range.  [GoodSeed] lets
    one forbidden seed through: from a seed whose low 31 bits are all ones the
    generator returns [2^31 - 1] for ever. *)
Theorem random_next s1 s2 n seed :
  1 ≤ s1 < M → 1 ≤ s2 < M → 0 < n →
  Next s1 = (s1 * 16807) mod (2 ^ 31 - 1) ∧ 1 ≤ Next s1 < M ∧
  (Next s1 = Next s2 → s1 = s2) ∧ 0 ≤ (Uniform s1 n).1 < n ∧
  (1 ≤ GoodSeed seed ≤ M ∧ (GoodSeed seed = M ↔ seed mod 2 ^ 31 = 2 ^ 31 - 1)) ∧
  Next M = M.
Proof.
  intros H1 H2 Hn. destruct (Next_mod s1 H1) as [E1 R1]. destruct (Next_mod s2 H2) as [E2 _].
  split; [done|]. split; [done|]. split; [|split; [by apply Z.mod_pos_bound|split]].
  - rewrite E1, E2. intros Heq.
    assert ((s1 * A - s2 * A) mod M = 0) as Hz.
    { rewrite Zminus_mod, Heq, Z.sub_diag. done. }
    rewrite <-Z.mul_sub_distr_r in Hz. apply Z.mod_divide in Hz; [|done].
    rewrite Z.mul_comm in Hz. apply (Z.gauss M A) in Hz; [|reflexivity].
    destruct Hz as [k Hk]. unfold M in *. nia.
  - split; [apply GoodSeed_range|]. unfold GoodSeed. rewrite land_M. unfold M.
    destruct (Z.eqb_spec (seed mod 2 ^ 31) 0); simpl; lia.
  - reflexivity.
Qed.

Lemma random_next_witness :
  1 ≤ 1 < M ∧ 1 ≤ 2 < M ∧ 0 < 100 ∧ 0 ≤ (Uniform 1 100).1 < 100 ∧ Next M = M.
Proof.
  assert (1 ≤ 1 < M) as H1 by (unfold M; lia). assert (1 ≤ 2 < M) as H2 by (unfold M; lia).
  assert (0 < 100) as Hn by lia.
  split; [exact H1|]. split; [exact H2|]. split; [exact Hn|].
  destruct (random_next 1 2 100 0 H1 H2 Hn) as (_ & _ & _ & Hu & _ & Hm).
  split; [exact Hu|exact Hm].
Defined.

(** The wrappers of a standard engine that keeps its promises, for every
    positive 32-bit bound: [Uniform] and [Uniformish] stay below it, [Skewed]
    below [2 ^ max_log] for every [max_log] that is a shift of the type, and a
    shuffle permutes.  A bound of 0 asks for the whole range of the type. *)
Theorem random_wrappers {E32 E64} `{EngineLaws E32 32} `{EngineLaws E64 64} n max_log (g : E32) (g64 : E64) l seed :
  0 < n < 2 ^ 32 → 0 ≤ max_log < 32 →
  0 ≤ (Random32_Uniform n g).1 < n ∧ 0 ≤ (Random32_Uniformish n g).1 < n ∧
  0 ≤ (Random64_Uniform n g64).1 < n ∧
  (∃ v g', Random32_Skewed max_log g = Ret (v, g') ∧ 0 ≤ v < 2 ^ max_log) ∧
  (∃ v g', Random64_Skewed (max_log + 32) g64 = Ret (v, g') ∧ 0 ≤ v < 2 ^ (max_log + 32)) ∧
  RandomShuffle (E:=E32) l seed ≡ₚ l ∧
  Random64_Uniform 0 g64 = uniform 0 (2 ^ 64 - 1) g64.
Proof.
  intros Hn Hm. split; [by apply Random32_Uniform_range|]. split; [by apply Random32_Uniformish_range|].
  split; [apply Random64_Uniform_range; lia|]. split; [by apply Random32_Skewed_range|].
  split; [apply Random64_Skewed_range; lia|]. split; [apply shuffle_perm|done].
Qed.

(** An engine that counts. *)
#[global] Instance CountingEngine (w : Z) : Engine Z w := {|
  engine_seed s := s;
  engine_draw e := (e mod 2 ^ w, e + 1);
  uniform lo hi e := (lo + e mod (hi - lo + 1), e + 1);
  std_shuffle e l := reverse l;
|}.

#[global] Instance CountingEngine_laws (w : Z) `{!TCEq (0 <=? w) true} : EngineLaws Z w.
Proof.
  rename select (TCEq _ _) into Hw. apply TCEq_eq, Z.leb_le in Hw. split; cbn.
  - intros e. apply Z.mod_pos_bound, Z.pow_pos_nonneg; lia.
  - intros lo hi e Hle. pose proof (Z.mod_pos_bound e (hi - lo + 1) ltac:(lia)). lia.
  - intros e l. apply reverse_Permutation.
Qed.

Lemma random_wrappers_witness :
  0 < 6 < 2 ^ 32 ∧ 0 ≤ 31 < 32 ∧ 0 ≤ (Random32_Uniform 6 41).1 < 6 ∧
  RandomShuffle (E:=Z) [1; 2] 3 ≡ₚ [1; 2].
Proof.
  assert (0 < 6 < 2 ^ 32) as Hn by lia. assert (0 ≤ 31 < 32) as Hm by lia.
  split; [exact Hn|]. split; [exact Hm|].
  destruct (random_wrappers 6 31 41 41 [1; 2] 3 Hn Hm) as (Hu & _ & _ & _ & _ & Hs & _).
  split; [exact Hu|exact Hs].
Defined.
