(* ===== verification/Status.v ===== *)
(** * Status (include/status.h)

    The result of an operation: a code, a sub-code, a severity and, for an error
    with a message, a buffer on the heap that the object owns.  The copies, the
    moves and the destructor are modelled over an explicit heap of buffers, so
    that a second [delete[]] of a buffer and a copy of a freed one are faults.

    status.cc is not in the repository: [CopyState] and the constructor that
    formats a message are members of the class [StatusMessages], with what
    status.h says of them as laws.  [ToString] is not modelled, and nor are the
    checks of [ROCKSDB_ASSERT_STATUS_CHECKED], which no build file defines.

    The refinement theorem says that the class is a value: objects are
    independent, and buffers are neither leaked nor freed twice. *)
From S2P Require Import Prelude.

Inductive Code :=
  | kOk | kNotFound | kCorruption | kNotSupported | kInvalidArgument | kIOError
  | kMergeInProgress | kIncomplete | kShutdownInProgress | kTimedOut | kAborted | kBusy
  | kExpired | kTryAgain | kCompactionTooLarge | kColumnFamilyDropped | kMaxCode.

Inductive SubCode :=
  | kNone | kMutexTimeout | kLockTimeout | kLockLimit | kNoSpace | kDeadlock | kStaleFile
  | kMemoryLimit | kSpaceLimit | kPathNotFound | KMergeOperandsInsufficientCapacity
  | kManualCompactionPaused | kOverwritten | kTxnNotPrepared | kMaxSubCode.

Inductive Severity :=
  | kNoError | kSoftError | kHardError | kFatalError | kUnrecoverableError | kMaxSeverity.

#[global] Instance Code_eq_dec : EqDecision Code.
Proof. solve_decision. Defined.
#[global] Instance SubCode_eq_dec : EqDecision SubCode.
Proof. solve_decision. Defined.
#[global] Instance Severity_eq_dec : EqDecision Severity.
Proof. solve_decision. Defined.

(** [state_] points to a buffer of the heap, or is null. *)
Record Status := mkStatus {
  code_ : Code;
  subcode_ : SubCode;
  sev_ : Severity;
  state_ : option positive;
}.

(** The buffers allocated by [new char[]], with their contents. *)
Abbreviation buffers := (gmap positive bytes).

(** What status.cc provides: the copy of a buffer, and the constructor from a
    code, a sub-code and two parts of a message. *)
Class StatusMessages := {
  CopyState : buffers → positive → positive * buffers;
  Status_msg : buffers → Code → SubCode → bytes → bytes → Status * buffers;
  format_message : bytes → bytes → bytes;
}.

Class StatusMessagesLaws `{StatusMessages} : Prop := {
  CopyState_law h l m : h !! l = Some m →
    ∃ l', h !! l' = None ∧ CopyState h l = (l', <[l' := m]> h);
  Status_msg_law h c sc m1 m2 :
    ∃ l, h !! l = None ∧ Status_msg h c sc m1 m2 =
         (mkStatus c sc kNoError (Some l), <[l := format_message m1 m2]> h);
}.

Section status.
Context `{StatusMessages}.

(** [Status()] and [Status(code, subcode)]. *)
Definition Status_default : Status := mkStatus kOk kNone kNoError None.
Definition Status_code (c : Code) (sc : SubCode) : Status := mkStatus c sc kNoError None.

(** [delete[] p] *)
Definition delete_buffer (h : buffers) (p : option positive) : outcome buffers :=
  match p with
  | None => Ret h
  | Some l => match h !! l with Some _ => Ret (delete l h) | None => Fault UseAfterFree end
  end.

(** [(p == nullptr) ? nullptr : CopyState(p)] *)
Definition copy_buffer (h : buffers) (p : option positive) : outcome (option positive * buffers) :=
  match p with
  | None => Ret (None, h)
  | Some l => match h !! l with
              | Some _ => let '(l', h') := CopyState h l in Ret (Some l', h')
              | None => Fault UseAfterFree
              end
  end.

Definition Status_destroy (h : buffers) (s : Status) : outcome buffers :=
  delete_buffer h (state_ s).

(** [Status(s, sev)], and [Status(s)]. *)
Definition Status_copy_sev (h : buffers) (s : Status) (sev : Severity) : outcome (Status * buffers) :=
  '(p, h) ← copy_buffer h (state_ s); Ret (mkStatus (code_ s) (subcode_ s) sev p, h).
Definition Status_copy (h : buffers) (s : Status) : outcome (Status * buffers) :=
  '(p, h) ← copy_buffer h (state_ s); Ret (mkStatus (code_ s) (subcode_ s) (sev_ s) p, h).

(** [operator=(const Status &)] of two different objects. *)
Definition Status_assign (h : buffers) (this s : Status) : outcome (Status * buffers) :=
  h ← delete_buffer h (state_ this);
  '(p, h) ← copy_buffer h (state_ s);
  Ret (mkStatus (code_ s) (subcode_ s) (sev_ s) p, h).

(** [operator=(Status &&)] of two different objects: this object and [s]
    afterwards; and the move constructor, which assigns to a default object. *)
Definition Status_move_assign (h : buffers) (this s : Status) : outcome (Status * Status * buffers) :=
  h ← delete_buffer h (state_ this);
  Ret (mkStatus (code_ s) (subcode_ s) (sev_ s) (state_ s), mkStatus kOk kNone kNoError None, h).
Definition Status_move (h : buffers) (s : Status) : outcome (Status * Status * buffers) :=
  Status_move_assign h Status_default s.

Definition Status_eqb (s rhs : Status) : bool := bool_decide (code_ s = code_ rhs).
Definition Status_neqb (s rhs : Status) : bool := negb (Status_eqb s rhs).

(** ** The constructors by name

    The ones with a sub-code only allocate nothing. *)

Definition OK : Status := Status_default.
Definition OkOverwritten : Status := Status_code kOk kOverwritten.
Definition NotFound (msg : SubCode) : Status := Status_code kNotFound msg.
Definition Corruption (msg : SubCode) : Status := Status_code kCorruption msg.
Definition NotSupported (msg : SubCode) : Status := Status_code kNotSupported msg.
Definition InvalidArgument (msg : SubCode) : Status := Status_code kInvalidArgument msg.
Definition IOError (msg : SubCode) : Status := Status_code kIOError msg.
Definition MergeInProgress (msg : SubCode) : Status := Status_code kMergeInProgress msg.
Definition Incomplete (msg : SubCode) : Status := Status_code kIncomplete msg.
Definition ShutdownInProgress (msg : SubCode) : Status := Status_code kShutdownInProgress msg.
Definition Aborted (msg : SubCode) : Status := Status_code kAborted msg.
Definition Busy (msg : SubCode) : Status := Status_code kBusy msg.
Definition TimedOut (msg : SubCode) : Status := Status_code kTimedOut msg.
Definition Expired (msg : SubCode) : Status := Status_code kExpired msg.
Definition TryAgain (msg : SubCode) : Status := Status_code kTryAgain msg.
Definition CompactionTooLarge (msg : SubCode) : Status := Status_code kCompactionTooLarge msg.
Definition ColumnFamilyDropped (msg : SubCode) : Status := Status_code kColumnFamilyDropped msg.
Definition NoSpace : Status := Status_code kIOError kNoSpace.
Definition MemoryLimit : Status := Status_code kAborted kMemoryLimit.
Definition SpaceLimit : Status := Status_code kIOError kSpaceLimit.
Definition PathNotFound : Status := Status_code kIOError kPathNotFound.
Definition TxnNotPrepared : Status := Status_code kInvalidArgument kTxnNotPrepared.

(** With a message. *)
Definition NotFound_msg (h : buffers) (msg msg2 : bytes) := Status_msg h kNotFound kNone msg msg2.
Definition Corruption_msg (h : buffers) (msg msg2 : bytes) := Status_msg h kCorruption kNone msg msg2.
Definition NotSupported_msg (h : buffers) (msg msg2 : bytes) := Status_msg h kNotSupported kNone msg msg2.
Definition InvalidArgument_msg (h : buffers) (msg msg2 : bytes) := Status_msg h kInvalidArgument kNone msg msg2.
Definition IOError_msg (h : buffers) (msg msg2 : bytes) := Status_msg h kIOError kNone msg msg2.
Definition MergeInProgress_msg (h : buffers) (msg msg2 : bytes) := Status_msg h kMergeInProgress kNone msg msg2.
Definition Incomplete_msg (h : buffers) (msg msg2 : bytes) := Status_msg h kIncomplete kNone msg msg2.
Definition ShutdownInProgress_msg (h : buffers) (msg msg2 : bytes) := Status_msg h kShutdownInProgress kNone msg msg2.
Definition Aborted_msg (h : buffers) (msg msg2 : bytes) := Status_msg h kAborted kNone msg msg2.
Definition Busy_msg (h : buffers) (msg msg2 : bytes) := Status_msg h kBusy kNone msg msg2.
Definition TimedOut_msg (h : buffers) (msg msg2 : bytes) := Status_msg h kTimedOut kNone msg msg2.
Definition Expired_msg (h : buffers) (msg msg2 : bytes) := Status_msg h kExpired kNone msg msg2.
Definition TryAgain_msg (h : buffers) (msg msg2 : bytes) := Status_msg h kTryAgain kNone msg msg2.
Definition CompactionTooLarge_msg (h : buffers) (msg msg2 : bytes) := Status_msg h kCompactionTooLarge kNone msg msg2.
Definition ColumnFamilyDropped_msg (h : buffers) (msg msg2 : bytes) := Status_msg h kColumnFamilyDropped kNone msg msg2.
Definition NoSpace_msg (h : buffers) (msg msg2 : bytes) := Status_msg h kIOError kNoSpace msg msg2.
Definition MemoryLimit_msg (h : buffers) (msg msg2 : bytes) := Status_msg h kAborted kMemoryLimit msg msg2.
Definition SpaceLimit_msg (h : buffers) (msg msg2 : bytes) := Status_msg h kIOError kSpaceLimit msg msg2.
Definition PathNotFound_msg (h : buffers) (msg msg2 : bytes) := Status_msg h kIOError kPathNotFound msg msg2.
Definition TxnNotPrepared_msg (h : buffers) (msg msg2 : bytes) := Status_msg h kInvalidArgument kTxnNotPrepared msg msg2.

(** ** The tests *)

Definition ok (s : Status) : bool := bool_decide (code_ s = kOk).
Definition IsOkOverwritten (s : Status) : bool :=
  bool_decide (code_ s = kOk) && bool_decide (subcode_ s = kOverwritten).
Definition IsNotFound (s : Status) : bool := bool_decide (code_ s = kNotFound).
Definition IsCorruption (s : Status) : bool := bool_decide (code_ s = kCorruption).
Definition IsNotSupported (s : Status) : bool := bool_decide (code_ s = kNotSupported).
Definition IsInvalidArgument (s : Status) : bool := bool_decide (code_ s = kInvalidArgument).
Definition IsIOError (s : Status) : bool := bool_decide (code_ s = kIOError).
Definition IsMergeInProgress (s : Status) : bool := bool_decide (code_ s = kMergeInProgress).
Definition IsIncomplete (s : Status) : bool := bool_decide (code_ s = kIncomplete).
Definition IsShutdownInProgress (s : Status) : bool := bool_decide (code_ s = kShutdownInProgress).
Definition IsTimedOut (s : Status) : bool := bool_decide (code_ s = kTimedOut).
Definition IsAborted (s : Status) : bool := bool_decide (code_ s = kAborted).
Definition IsLockLimit (s : Status) : bool :=
  bool_decide (code_ s = kAborted) && bool_decide (subcode_ s = kLockLimit).
Definition IsBusy (s : Status) : bool := bool_decide (code_ s = kBusy).
Definition IsDeadlock (s : Status) : bool :=
  bool_decide (code_ s = kBusy) && bool_decide (subcode_ s = kDeadlock).
Definition IsExpired (s : Status) : bool := bool_decide (code_ s = kExpired).
Definition IsTryAgain (s : Status) : bool := bool_decide (code_ s = kTryAgain).
Definition IsCompactionTooLarge (s : Status) : bool := bool_decide (code_ s = kCompactionTooLarge).
Definition IsColumnFamilyDropped (s : Status) : bool :=
  bool_decide (code_ s = kColumnFamilyDropped).
Definition IsNoSpace (s : Status) : bool :=
  bool_decide (code_ s = kIOError) && bool_decide (subcode_ s = kNoSpace).
Definition IsMemoryLimit (s : Status) : bool :=
  bool_decide (code_ s = kAborted) && bool_decide (subcode_ s = kMemoryLimit).
Definition IsPathNotFound (s : Status) : bool :=
  bool_decide (code_ s = kIOError) && bool_decide (subcode_ s = kPathNotFound).
Definition IsManualCompactionPaused (s : Status) : bool :=
  bool_decide (code_ s = kIncomplete) && bool_decide (subcode_ s = kManualCompactionPaused).
Definition IsTxnNotPrepared (s : Status) : bool :=
  bool_decide (code_ s = kInvalidArgument) && bool_decide (subcode_ s = kTxnNotPrepared).

(** The tests of the code alone. *)
Definition code_tests : list (Status → bool) :=
  [ok; IsNotFound; IsCorruption; IsNotSupported; IsInvalidArgument; IsIOError; IsMergeInProgress;
   IsIncomplete; IsShutdownInProgress; IsTimedOut; IsAborted; IsBusy; IsExpired; IsTryAgain;
   IsCompactionTooLarge; IsColumnFamilyDropped].

(** ** Programs over several objects *)

Inductive status_op :=
  | OpNew (x : nat) (c : Code) (sc : SubCode)            (** [Status x(c, sc)] *)
  | OpMessage (x : nat) (c : Code) (sc : SubCode) (m1 m2 : bytes)
  | OpCopy (x y : nat)                                   (** [Status x(y)] *)
  | OpCopySev (x y : nat) (sev : Severity)               (** [Status x(y, sev)] *)
  | OpMoveNew (x y : nat)                                (** [Status x(std::move(y))] *)
  | OpAssign (x y : nat)                                 (** [x = y] *)
  | OpMoveAssign (x y : nat)                             (** [x = std::move(y)] *)
  | OpDestroy (x : nat).

(** The live objects by name, and the heap. *)
Record world := mkWorld { objs : gmap nat Status; mem : buffers }.

(** Operations on dead objects do nothing here; C++ has no such programs, and
    [in_scope] below excludes them. *)
Definition status_step (w : world) (op : status_op) : outcome world :=
  let os := objs w in let h := mem w in
  match op with
  | OpNew x c sc => Ret (mkWorld (<[x := Status_code c sc]> os) h)
  | OpMessage x c sc m1 m2 => let '(s, h) := Status_msg h c sc m1 m2 in Ret (mkWorld (<[x := s]> os) h)
  | OpCopy x y =>
      match os !! y with
      | Some s => '(t, h) ← Status_copy h s; Ret (mkWorld (<[x := t]> os) h)
      | None => Ret w
      end
  | OpCopySev x y sev =>
      match os !! y with
      | Some s => '(t, h) ← Status_copy_sev h s sev; Ret (mkWorld (<[x := t]> os) h)
      | None => Ret w
      end
  | OpMoveNew x y =>
      match os !! y with
      | Some s => '(t, s, h) ← Status_move h s; Ret (mkWorld (<[x := t]> (<[y := s]> os)) h)
      | None => Ret w
      end
  | OpAssign x y =>
      if decide (x = y) then Ret w else
      match os !! x, os !! y with
      | Some this, Some s => '(t, h) ← Status_assign h this s; Ret (mkWorld (<[x := t]> os) h)
      | _, _ => Ret w
      end
  | OpMoveAssign x y =>
      if decide (x = y) then Ret w else
      match os !! x, os !! y with
      | Some this, Some s =>
          '(t, s, h) ← Status_move_assign h this s; Ret (mkWorld (<[x := t]> (<[y := s]> os)) h)
      | _, _ => Ret w
      end
  | OpDestroy x =>
      match os !! x with
      | Some s => h ← Status_destroy h s; Ret (mkWorld (delete x os) h)
      | None => Ret w
      end
  end.

Definition status_run : world → list status_op → outcome world := foldM status_step.

(** ** The specification: statuses as values *)

Record status_value := mkValue {
  v_code : Code; v_subcode : SubCode; v_sev : Severity; v_message : option bytes
}.

Definition value_of (h : buffers) (s : Status) : status_value :=
  mkValue (code_ s) (subcode_ s) (sev_ s) (state_ s ≫= λ l, h !! l).
Definition ok_value : status_value := mkValue kOk kNone kNoError None.

Definition spec_step (V : gmap nat status_value) (op : status_op) : gmap nat status_value :=
  match op with
  | OpNew x c sc => <[x := mkValue c sc kNoError None]> V
  | OpMessage x c sc m1 m2 => <[x := mkValue c sc kNoError (Some (format_message m1 m2))]> V
  | OpCopy x y | OpAssign x y => match V !! y with Some v => <[x := v]> V | None => V end
  | OpCopySev x y sev =>
      match V !! y with
      | Some v => <[x := mkValue (v_code v) (v_subcode v) sev (v_message v)]> V
      | None => V
      end
  | OpMoveNew x y | OpMoveAssign x y =>
      if decide (x = y) then V else
      match V !! y with Some v => <[x := v]> (<[y := ok_value]> V) | None => V end
  | OpDestroy x => delete x V
  end.

(** A name is bound to a new object when it is free; all others are live. *)
Definition op_in_scope {A} (V : gmap nat A) (op : status_op) : bool :=
  let live x := bool_decide (is_Some (V !! x)) in
  match op with
  | OpNew x _ _ | OpMessage x _ _ _ _ => negb (live x)
  | OpCopy x y | OpCopySev x y _ | OpMoveNew x y => negb (live x) && live y
  | OpAssign x y | OpMoveAssign x y => live x && live y
  | OpDestroy x => live x
  end.

Fixpoint in_scope (V : gmap nat status_value) (ops : list status_op) : bool :=
  match ops with
  | [] => true
  | op :: ops => op_in_scope V op && in_scope (spec_step V op) ops
  end.
Definition spec_run : gmap nat status_value → list status_op → gmap nat status_value :=
  foldl spec_step.

(** Every buffer has exactly one owner. *)
Definition owns (os : gmap nat Status) (x : nat) (l : positive) : Prop :=
  ∃ s, os !! x = Some s ∧ state_ s = Some l.
Definition ownership (os : gmap nat Status) (h : buffers) : Prop :=
  (∀ x l, owns os x l → is_Some (h !! l)) ∧
  (∀ x y l, owns os x l → owns os y l → x = y) ∧
  (∀ l, is_Some (h !! l) → ∃ x, owns os x l).

(** The objects own the heap, and have the values [V]. *)
Definition holds (os : gmap nat Status) (h : buffers) (V : gmap nat status_value) : Prop :=
  ownership os h ∧ value_of h <$> os = V.

(** ** Lemmas *)

Context `{!StatusMessagesLaws}.
Implicit Types (os : gmap nat Status) (h : buffers) (V : gmap nat status_value).

Lemma owns_lookup os x s l : os !! x = Some s → owns os x l ↔ state_ s = Some l.
Proof. unfold owns. intros Hx. split; [by intros (?&?&?); simplify_eq|eauto]. Qed.
Lemma owns_insert os x y s l :
  owns (<[x := s]> os) y l ↔ (x = y ∧ state_ s = Some l) ∨ (x ≠ y ∧ owns os y l).
Proof.
  unfold owns. destruct (decide (x = y)) as [->|].
  - rewrite lookup_insert_eq. naive_solver.
  - rewrite lookup_insert_ne by done. naive_solver.
Qed.
Lemma owns_delete os x y l : owns (delete x os) y l ↔ x ≠ y ∧ owns os y l.
Proof. unfold owns. setoid_rewrite lookup_delete_Some. naive_solver. Qed.

(** A buffer that no live object owns does not matter to the values. *)
Lemma values_stable os h h' :
  (∀ x l, owns os x l → h' !! l = h !! l) → value_of h' <$> os = value_of h <$> os.
Proof.
  intros Hl. apply map_fmap_ext. intros x s Hx. unfold value_of. f_equal.
  destruct (state_ s) as [l|] eqn:Hs; [|done]. apply (Hl x). exists s. done.
Qed.

Lemma holds_delete os h V x s :
  holds os h V → os !! x = Some s →
  ∃ h', delete_buffer h (state_ s) = Ret h' ∧ holds (delete x os) h' (delete x V).
Proof.
  intros [(Hlive & Huniq & Hall) <-] Hx. unfold delete_buffer. rewrite <-fmap_delete.
  destruct (state_ s) as [l|] eqn:Hs.
  - assert (owns os x l) as Hown by (by exists s). destruct (Hlive x l Hown) as [m Hm]. rewrite Hm.
    eexists. split; [done|]. split; [|apply values_stable].
    + split_and!.
      * intros y k [Hne Hy]%owns_delete. rewrite lookup_delete_ne; [eauto|]. naive_solver.
      * intros y z k [_ ?]%owns_delete [_ ?]%owns_delete. eauto.
      * intros k [m' [Hk Hm']%lookup_delete_Some]. destruct (Hall k) as [y Hy]; [eauto|].
        exists y. apply owns_delete. split; [|done]. intros <-. apply Hk.
        apply (owns_lookup _ _ _ _ Hx) in Hy. congruence.
    + intros y k [Hne Hy]%owns_delete. rewrite lookup_delete_ne; naive_solver.
  - exists h. split; [done|]. split; [|done]. split_and!.
    + intros y k [_ ?]%owns_delete. eauto.
    + intros y z k [_ ?]%owns_delete [_ ?]%owns_delete. eauto.
    + intros k Hk. destruct (Hall k Hk) as [y Hy]. exists y. apply owns_delete. split; [|done].
      intros <-. apply (owns_lookup _ _ _ _ Hx) in Hy. congruence.
Qed.

Lemma holds_fresh os h V x s l m :
  holds os h V → os !! x = None → h !! l = None → state_ s = Some l →
  holds (<[x := s]> os) (<[l := m]> h) (<[x := mkValue (code_ s) (subcode_ s) (sev_ s) (Some m)]> V).
Proof.
  intros [(Hlive & Huniq & Hall) <-] Hx Hl Hs.
  assert (∀ y, owns os y l → False) as Hno.
  { intros y Hy. destruct (Hlive y l Hy). congruence. }
  split; [split_and!|].
  - intros y k. rewrite owns_insert. intros [[_ ?]|[_ Hy]].
    + simplify_eq. rewrite lookup_insert_eq. done.
    + rewrite lookup_insert_ne by naive_solver. eauto.
  - intros y z k. rewrite !owns_insert. naive_solver.
  - intros k. destruct (decide (l = k)) as [->|].
    + intros _. exists x. rewrite owns_insert. by left.
    + rewrite lookup_insert_ne by done. intros [y Hy]%Hall. exists y. rewrite owns_insert.
      right. split; [|done]. unfold owns in Hy. naive_solver.
  - rewrite fmap_insert. f_equal.
    + unfold value_of. rewrite Hs. simpl. by rewrite lookup_insert_eq.
    + apply values_stable. intros y k Hy. rewrite lookup_insert_ne; naive_solver.
Qed.

Lemma holds_empty os h V x c sc sev :
  holds os h V → os !! x = None →
  holds (<[x := mkStatus c sc sev None]> os) h (<[x := mkValue c sc sev None]> V).
Proof.
  intros [(Hlive & Huniq & Hall) <-] Hx. split; [split_and!|by rewrite fmap_insert].
  - intros y k. rewrite owns_insert. naive_solver.
  - intros y z k. rewrite !owns_insert. naive_solver.
  - intros k [y Hy]%Hall. exists y. rewrite owns_insert.
    right. split; [|done]. unfold owns in Hy. naive_solver.
Qed.

Lemma holds_move os h V x y s :
  holds os h V → os !! x = None → os !! y = Some s →
  holds (<[x := s]> (<[y := Status_default]> os)) h (<[x := value_of h s]> (<[y := ok_value]> V)).
Proof.
  intros [(Hlive & Huniq & Hall) <-] Hx Hy. assert (x ≠ y) as Hxy by naive_solver.
  assert (∀ k, state_ s = Some k → owns os y k) as Ho by (intros; by exists s).
  split; [split_and!|by rewrite !fmap_insert].
  - intros z k. rewrite !owns_insert. naive_solver.
  - intros z z' k. rewrite !owns_insert. intros Hz Hz'.
    naive_solver.
  - intros k [z Hz]%Hall. destruct (decide (z = y)) as [->|].
    + exists x. rewrite owns_insert. left. split; [done|]. unfold owns in Hz. naive_solver.
    + exists z. rewrite !owns_insert. unfold owns in *. naive_solver.
Qed.

Lemma holds_copy os h V y s :
  holds os h V → os !! y = Some s →
  ∃ p h', copy_buffer h (state_ s) = Ret (p, h') ∧
    ∀ x c sc sev, os !! x = None →
      holds (<[x := mkStatus c sc sev p]> os) h'
        (<[x := mkValue c sc sev (v_message (value_of h s))]> V).
Proof.
  intros Hh Hy. unfold copy_buffer, value_of. destruct (state_ s) as [l|] eqn:Hs; simpl.
  - destruct (proj1 (proj1 Hh) y l) as [m Hm]; [by exists s|]. rewrite Hm.
    destruct (CopyState_law h l m Hm) as (l' & Hl' & ->). eexists _, _. split; [done|].
    intros x c sc sev Hx. by apply (holds_fresh _ _ _ _ (mkStatus c sc sev (Some l'))).
  - eexists _, _. split; [done|]. intros. by apply holds_empty.
Qed.

Lemma holds_live os h V x : holds os h V → V !! x = value_of h <$> os !! x.
Proof. intros [_ <-]. apply lookup_fmap. Qed.

Lemma assign_refines os h V x y :
  holds os h V → is_Some (os !! x) → is_Some (os !! y) →
  ∃ w, status_step (mkWorld os h) (OpAssign x y) = Ret w ∧
       holds (objs w) (mem w) (spec_step V (OpAssign x y)).
Proof.
  intros Hh [this Hx] [s Hy]. cbn. rewrite (holds_live _ _ _ y Hh), Hy, Hx. cbn.
  destruct (decide (x = y)) as [->|Hne].
  - eexists. split; [done|]. rewrite insert_id; [done|]. by rewrite (holds_live _ _ _ y Hh), Hy.
  - unfold Status_assign. destruct (holds_delete _ _ _ _ _ Hh Hx) as (h1 & -> & H1). cbn.
    assert (delete x os !! y = Some s) as Hy1 by (by rewrite lookup_delete_ne).
    destruct (holds_copy _ _ _ _ _ H1 Hy1) as (p & h2 & -> & Hc). eexists. split; [done|].
    specialize (Hc x (code_ s) (subcode_ s) (sev_ s) (lookup_delete_eq _ _)).
    rewrite !insert_delete_eq in Hc. cbn.
    assert (value_of h s = value_of h1 s) as ->; [|done].
    pose proof (holds_live _ _ _ y H1) as E. rewrite lookup_delete_ne, Hy1 in E by done.
    rewrite (holds_live _ _ _ y Hh), Hy in E. cbn in E. congruence.
Qed.

Lemma move_assign_refines os h V x y :
  holds os h V → is_Some (os !! x) → is_Some (os !! y) →
  ∃ w, status_step (mkWorld os h) (OpMoveAssign x y) = Ret w ∧
       holds (objs w) (mem w) (spec_step V (OpMoveAssign x y)).
Proof.
  intros Hh [this Hx] [s Hy]. cbn. rewrite (holds_live _ _ _ y Hh), Hy, Hx. cbn.
  destruct (decide (x = y)) as [->|Hne]; [by eexists|].
  unfold Status_move_assign. destruct (holds_delete _ _ _ _ _ Hh Hx) as (h1 & -> & H1). cbn.
  assert (delete x os !! y = Some s) as Hy1 by (by rewrite lookup_delete_ne).
  eexists. split; [done|]. cbn.
  pose proof (holds_move _ _ _ x y s H1 (lookup_delete_eq _ _) Hy1) as Hm.
  rewrite !(insert_delete_ne _ _ _ _ (not_eq_sym Hne)), !insert_delete_eq in Hm.
  assert (value_of h s = value_of h1 s) as ->; [|by destruct s].
  pose proof (holds_live _ _ _ y H1) as E. rewrite lookup_delete_ne, Hy1 in E by done.
  rewrite (holds_live _ _ _ y Hh), Hy in E. cbn in E. congruence.
Qed.

Ltac dead := match goal with H : is_Some None |- _ => by destruct H end.
Ltac scope_facts :=
  repeat match goal with
  | H : _ && _ = true |- _ => apply andb_true_iff in H; destruct H
  | H : bool_decide _ = true |- _ => apply bool_decide_eq_true in H
  | H : negb (bool_decide _) = true |- _ =>
      apply negb_true_iff, bool_decide_eq_false, eq_None_not_Some in H
  end.

(** One step implements the step of the specification. *)
Lemma status_step_refines os h V op :
  holds os h V → op_in_scope V op = true →
  ∃ w, status_step (mkWorld os h) op = Ret w ∧ holds (objs w) (mem w) (spec_step V op).
Proof.
  intros Hh Hop. assert (∀ x, bool_decide (is_Some (V !! x)) = bool_decide (is_Some (os !! x))) as Hlive.
  { intros x. apply bool_decide_ext. by rewrite (holds_live _ _ _ _ Hh), fmap_is_Some. }
  destruct op as [x c sc|x c sc m1 m2|x y|x y sev|x y|x y|x y|x]; cbn in Hop |- *;
    rewrite ?Hlive in Hop; scope_facts.
  - eexists. split; [done|]. by apply holds_empty.
  - destruct (Status_msg_law h c sc m1 m2) as (l & Hl & ->). eexists. split; [done|].
    by apply (holds_fresh os h V x (mkStatus c sc kNoError (Some l))).
  - destruct (os !! y) as [s|] eqn:Hy; [|dead].
    rewrite (holds_live _ _ _ _ Hh), Hy. unfold Status_copy.
    destruct (holds_copy _ _ _ _ _ Hh Hy) as (p & h' & -> & Hc). eexists. split; [done|].
    by apply Hc.
  - destruct (os !! y) as [s|] eqn:Hy; [|dead].
    rewrite (holds_live _ _ _ _ Hh), Hy. unfold Status_copy_sev.
    destruct (holds_copy _ _ _ _ _ Hh Hy) as (p & h' & -> & Hc). eexists. split; [done|].
    by apply Hc.
  - destruct (os !! y) as [s|] eqn:Hy; [|dead].
    rewrite (holds_live _ _ _ _ Hh), Hy. rewrite decide_False by naive_solver.
    eexists. split; [done|]. cbn. destruct s. by apply holds_move.
  - by apply assign_refines.
  - by apply move_assign_refines.
  - destruct (os !! x) as [s|] eqn:Hx; [|dead].
    destruct (holds_delete _ _ _ _ _ Hh Hx) as (h' & Hd & Hh'). unfold Status_destroy.
    rewrite Hd. by eexists.
Qed.

Lemma status_run_refines os h V ops :
  holds os h V → in_scope V ops = true →
  ∃ w, status_run (mkWorld os h) ops = Ret w ∧ holds (objs w) (mem w) (spec_run V ops).
Proof.
  revert os h V. induction ops as [|op ops IH]; intros os h V Hh Hs; cbn in *; [by eexists|].
  scope_facts. destruct (status_step_refines os h V op) as ([os' h'] & -> & Hw); [done..|].
  by apply IH.
Qed.

(** Among the codes of an error exactly one test holds. *)
Lemma code_tests_partition s :
  code_ s ≠ kMaxCode → length (filter (λ t : Status → bool, t s = true) code_tests) = 1%nat.
Proof. destruct s as [[] sc sev p]; intros ?; done. Qed.

(** [operator==] is the agreement of all these tests. *)
Lemma Status_eqb_tests s t :
  Status_eqb s t = true ↔
  Forall (λ test : Status → bool, test s = test t) code_tests.
Proof.
  unfold Status_eqb. rewrite bool_decide_eq_true. split.
  - intros Hc. unfold code_tests. repeat constructor; cbv beta delta -[bool_decide decide code_]; by rewrite Hc.
  - unfold code_tests. intros Hall. rewrite !Forall_cons in Hall.
    destruct s as [[] ???], t as [[] ???]; try reflexivity; vm_compute in Hall; exfalso;
      repeat (destruct Hall as [Heq Hall]; (discriminate Heq || clear Heq)).
Qed.

(** ** Properties *)

(** C8: a [Status] is a value.  A program of constructions, copies, moves,
    assignments (to itself too) and destructions never frees a buffer twice nor
    copies a freed one; every object has the code, the sub-code, the severity
    and the message that the specification on values gives it, whatever
    happened to the objects it was copied from; every buffer has exactly one
    owner, so that none is left when all objects are destroyed. *)
Theorem status_is_a_value ops :
  in_scope ∅ ops = true →
  ∃ w, status_run (mkWorld ∅ ∅) ops = Ret w ∧
    value_of (mem w) <$> objs w = spec_run ∅ ops ∧
    ownership (objs w) (mem w) ∧
    (spec_run ∅ ops = ∅ → mem w = ∅).
Proof.
  intros Hs. destruct (status_run_refines ∅ ∅ ∅ ops) as (w & Hr & Ho & Hv); [|done|].
  { split; [|done]. split_and!; unfold owns; [naive_solver|naive_solver|].
    intros l [m Hm]. done. }
  exists w. split_and!; [done..|]. rewrite <-Hv. intros He%fmap_empty_inv.
  apply map_eq. intros l. rewrite lookup_empty. destruct (mem w !! l) as [m|] eqn:Hm; [|done].
  destruct (proj2 (proj2 Ho) l) as (x & s & Hx & _); [by eexists|]. by rewrite He in Hx.
Qed.
End status.

(** An allocator that takes the first free place, and joins the parts of a
    message with a colon. *)
#[global] Instance SimpleMessages : StatusMessages := {|
  CopyState h l := let l' := fresh (dom h) in (l', <[l' := default [] (h !! l)]> h);
  format_message m1 m2 := m1 ++ (if decide (m2 = []) then [] else [z2b 58; z2b 32] ++ m2);
  Status_msg h c sc m1 m2 := let l := fresh (dom h) in
    (mkStatus c sc kNoError (Some l),
     <[l := m1 ++ (if decide (m2 = []) then [] else [z2b 58; z2b 32] ++ m2)]> h);
|}.

#[global] Instance SimpleMessages_laws : StatusMessagesLaws.
Proof.
  split.
  - intros h l m Hl. exists (fresh (dom h)). cbn. rewrite Hl. split; [|done].
    apply not_elem_of_dom, is_fresh.
  - intros h c sc m1 m2. exists (fresh (dom h)). split; [|done].
    apply not_elem_of_dom, is_fresh.
Qed.

Lemma status_is_a_value_witness :
  let ops := [OpMessage 0 kIOError kNoSpace [z2b 97] [z2b 98]; OpCopy 1 0; OpAssign 1 1; OpNew 2 kOk kNone;
              OpMoveAssign 2 1; OpAssign 0 1; OpDestroy 0; OpDestroy 2; OpDestroy 1] in
  in_scope ∅ ops = true ∧ ∃ w, status_run (mkWorld ∅ ∅) ops = Ret w ∧ mem w = ∅.
Proof.
  cbv zeta. split; [vm_compute; reflexivity|].
  destruct (status_is_a_value
    [OpMessage 0 kIOError kNoSpace [z2b 97] [z2b 98]; OpCopy 1 0; OpAssign 1 1; OpNew 2 kOk kNone;
     OpMoveAssign 2 1; OpAssign 0 1; OpDestroy 0; OpDestroy 2; OpDestroy 1]
    ltac:(vm_compute; reflexivity)) as (w & Hr & _ & _ & Hm).
  exists w. split; [exact Hr|]. apply Hm. vm_compute. reflexivity.
Defined.
