(* ===== verification/StatusChecked.v ===== *)
(** * Status with ROCKSDB_ASSERT_STATUS_CHECKED (include/status.h)

    With the macro defined every [Status] carries a flag [checked_], and the
    destructor aborts when it is false.  [CStatus] adds the flag to the [Status]
    of Status.v; its operations are those of Status.v with the assignments to
    the flag.  The theorem relates a program in this build to the same program
    without the macro: it aborts exactly when an object is destroyed whose last
    event left it unchecked, and is the same program otherwise. *)
From S2P Require Import Prelude Status.

Record CStatus := mkCStatus { base : Status; checked_ : bool }.

(** [checked_ = true]: what every test, getter and [PermitUncheckedError] does. *)
Definition set_checked (s : CStatus) : CStatus := mkCStatus (base s) true.

Section checked.
Context `{StatusMessages}.

(** A constructor leaves the flag at its default. *)
Definition CStatus_new (s : Status) : CStatus := mkCStatus s false.

(** [~Status()] *)
Definition CStatus_destroy (h : buffers) (s : CStatus) : outcome buffers :=
  if checked_ s then Status_destroy h (base s) else Fault Abort.

(** The copies: the new object, and [s] afterwards. *)
Definition CStatus_copy (h : buffers) (s : CStatus) : outcome (CStatus * CStatus * buffers) :=
  '(t, h) ← Status_copy h (base s); Ret (CStatus_new t, set_checked s, h).
Definition CStatus_copy_sev (h : buffers) (s : CStatus) (sev : Severity) :
    outcome (CStatus * CStatus * buffers) :=
  '(t, h) ← Status_copy_sev h (base s) sev; Ret (CStatus_new t, set_checked s, h).

(** The assignments of two different objects: both afterwards.  The flag of this
    object is overwritten, not tested. *)
Definition CStatus_assign (h : buffers) (this s : CStatus) : outcome (CStatus * CStatus * buffers) :=
  '(t, h) ← Status_assign h (base this) (base s); Ret (mkCStatus t false, set_checked s, h).
Definition CStatus_move_assign (h : buffers) (this s : CStatus) :
    outcome (CStatus * CStatus * buffers) :=
  '(t, s', h) ← Status_move_assign h (base this) (base s); Ret (mkCStatus t false, mkCStatus s' true, h).
(** [Status(Status &&)]: a default object, then the assignment. *)
Definition CStatus_move (h : buffers) (s : CStatus) : outcome (CStatus * CStatus * buffers) :=
  CStatus_move_assign h (CStatus_new Status_default) (set_checked s).

(** [code()], [subcode()], [severity()] and [getState()] *)
Definition code (s : CStatus) : Code * CStatus := (code_ (base s), set_checked s).
Definition subcode (s : CStatus) : SubCode * CStatus := (subcode_ (base s), set_checked s).
Definition severity (s : CStatus) : Severity * CStatus := (sev_ (base s), set_checked s).
Definition getState (s : CStatus) : option positive * CStatus := (state_ (base s), set_checked s).
Definition PermitUncheckedError (s : CStatus) : CStatus := set_checked s.

(** [operator==] and [operator!=] *)
Definition CStatus_eqb (s rhs : CStatus) : bool * CStatus * CStatus :=
  (Status_eqb (base s) (base rhs), set_checked s, set_checked rhs).
Definition CStatus_neqb (s rhs : CStatus) : bool * CStatus * CStatus :=
  let '(e, s, rhs) := CStatus_eqb (set_checked s) (set_checked rhs) in (negb e, s, rhs).

(** ** Programs over several objects *)

Inductive checked_op :=
  | Plain (op : status_op)
  | OpTest (x : nat)          (** a test or getter of [x], or [x.PermitUncheckedError()] *)
  | OpEqual (x y : nat).      (** [x == y] or [x != y] *)

Record cworld := mkCWorld { cobjs : gmap nat CStatus; cmem : buffers }.

(** Both objects of an operation after it. *)
Definition put2 (x y : nat) (w : cworld) (r : CStatus * CStatus * buffers) : cworld :=
  let '(t, s, h) := r in mkCWorld (<[x := t]> (<[y := s]> (cobjs w))) h.

Definition checked_step (w : cworld) (op : checked_op) : outcome cworld :=
  let os := cobjs w in let h := cmem w in
  match op with
  | Plain (OpNew x c sc) => Ret (mkCWorld (<[x := CStatus_new (Status_code c sc)]> os) h)
  | Plain (OpMessage x c sc m1 m2) =>
      let '(s, h) := Status_msg h c sc m1 m2 in Ret (mkCWorld (<[x := CStatus_new s]> os) h)
  | Plain (OpCopy x y) =>
      match os !! y with Some s => put2 x y w <$> CStatus_copy h s | None => Ret w end
  | Plain (OpCopySev x y sev) =>
      match os !! y with Some s => put2 x y w <$> CStatus_copy_sev h s sev | None => Ret w end
  | Plain (OpMoveNew x y) =>
      match os !! y with Some s => put2 x y w <$> CStatus_move h s | None => Ret w end
  | Plain (OpAssign x y) =>
      if decide (x = y) then Ret w else
      match os !! x, os !! y with
      | Some this, Some s => put2 x y w <$> CStatus_assign h this s
      | _, _ => Ret w
      end
  | Plain (OpMoveAssign x y) =>
      if decide (x = y) then Ret w else
      match os !! x, os !! y with
      | Some this, Some s => put2 x y w <$> CStatus_move_assign h this s
      | _, _ => Ret w
      end
  | Plain (OpDestroy x) =>
      match os !! x with
      | Some s => h ← CStatus_destroy h s; Ret (mkCWorld (delete x os) h)
      | None => Ret w
      end
  | OpTest x => Ret (mkCWorld (alter set_checked x os) h)
  | OpEqual x y => Ret (mkCWorld (alter set_checked x (alter set_checked y os)) h)
  end.

Definition checked_run : cworld → list checked_op → outcome cworld := foldM checked_step.

(** ** The specification: the last event of an object *)

(** What an operation does to the flag of [x]. *)
Definition mark (x : nat) (op : checked_op) : option bool :=
  match op with
  | Plain (OpNew y _ _) | Plain (OpMessage y _ _ _ _) => if decide (x = y) then Some false else None
  | Plain (OpCopy y z) | Plain (OpCopySev y z _) | Plain (OpMoveNew y z) =>
      if decide (x = y) then Some false else if decide (x = z) then Some true else None
  | Plain (OpAssign y z) | Plain (OpMoveAssign y z) =>
      if decide (y = z) then None
      else if decide (x = y) then Some false else if decide (x = z) then Some true else None
  | Plain (OpDestroy _) => None
  | OpTest y => if decide (x = y) then Some true else None
  | OpEqual y z => if decide (x = y ∨ x = z) then Some true else None
  end.

(** The last mark of [x] in a program. *)
Definition last_mark (x : nat) (ops : list checked_op) : option bool :=
  foldl (λ b op, match mark x op with Some b' => Some b' | None => b end) None ops.

(** The program without the macro. *)
Definition plain_ops (ops : list checked_op) : list status_op :=
  omap (λ op, match op with Plain op => Some op | _ => None end) ops.
Definition erase (w : cworld) : world := mkWorld (base <$> cobjs w) (cmem w).

(** ** Lemmas *)

Lemma last_mark_snoc x ops op :
  last_mark x (ops ++ [op]) = match mark x op with Some b => Some b | None => last_mark x ops end.
Proof. unfold last_mark. by rewrite foldl_app. Qed.

(** The flags of the objects are the last marks. *)
Definition flags_ok (pre : list checked_op) (w : cworld) : Prop :=
  ∀ x s, cobjs w !! x = Some s → last_mark x pre = Some (checked_ s).

(** An operation in scope either destroys an unchecked object, or does to the
    objects what it does without the macro. *)
Definition step_agrees (w : cworld) (op : checked_op) (v : world) (w' : cworld) : Prop :=
  checked_step w op = Ret w' ∧ erase w' = v ∧
  ∀ x s, cobjs w' !! x = Some s →
    (mark x op = Some (checked_ s)) ∨ (mark x op = None ∧ ∃ s0, cobjs w !! x = Some s0 ∧ checked_ s0 = checked_ s).

Lemma erase_put2 x y w t s' h :
  erase (put2 x y w (t, s', h)) =
  mkWorld (<[x := base t]> (<[y := base s']> (base <$> cobjs w))) h.
Proof. unfold erase, put2. cbn. by rewrite !fmap_insert. Qed.

Lemma put2_flags x y w t s h op :
  checked_ t = false → checked_ s = true → x ≠ y →
  (∀ z, mark z op = if decide (z = x) then Some false else if decide (z = y) then Some true else None) →
  ∀ z u, cobjs (put2 x y w (t, s, h)) !! z = Some u →
    (mark z op = Some (checked_ u)) ∨ (mark z op = None ∧ ∃ u0, cobjs w !! z = Some u0 ∧ checked_ u0 = checked_ u).
Proof.
  intros Ht Hs Hxy Hm z u. cbn. rewrite Hm. intros Hz.
  destruct (decide (z = x)) as [->|Hzx].
  - rewrite lookup_insert_eq in Hz. injection Hz as <-. left. by rewrite Ht.
  - rewrite lookup_insert_ne in Hz by done. destruct (decide (z = y)) as [->|Hzy].
    + rewrite lookup_insert_eq in Hz. injection Hz as <-. left. by rewrite Hs.
    + rewrite lookup_insert_ne in Hz by done. right. split; [done|]. by exists u.
Qed.

Ltac dead := match goal with H : is_Some None |- _ => by destruct H end.
Ltac scope_facts :=
  repeat match goal with
  | H : _ && _ = true |- _ => apply andb_true_iff in H; destruct H
  | H : bool_decide _ = true |- _ => apply bool_decide_eq_true in H
  | H : negb (bool_decide _) = true |- _ =>
      apply negb_true_iff, bool_decide_eq_false, eq_None_not_Some in H
  end.

(** An operation on two objects, for the result [r] without the macro. *)
Lemma put2_agrees x y w op t s' h v :
  x ≠ y → checked_ t = false → checked_ s' = true →
  checked_step w op = Ret (put2 x y w (t, s', h)) →
  v = mkWorld (<[x := base t]> (<[y := base s']> (base <$> cobjs w))) h →
  (∀ z, mark z op = if decide (z = x) then Some false else if decide (z = y) then Some true else None) →
  ∃ w', step_agrees w op v w'.
Proof.
  intros Hxy Ht Hs Hstep -> Hm. eexists. split; [exact Hstep|]. split; [apply erase_put2|].
  by apply put2_flags.
Qed.

Lemma base_put_id (os : gmap nat CStatus) y s :
  os !! y = Some s → <[y := base s]> (base <$> os) = base <$> os.
Proof. intros Hy. apply insert_id. by rewrite lookup_fmap, Hy. Qed.

(** Assigning an object to itself does nothing. *)
Lemma self_agrees w op y :
  op = OpAssign y y ∨ op = OpMoveAssign y y → ∃ w', step_agrees w (Plain op) (erase w) w'.
Proof.
  intros Hop. exists w. split; [|split; [done|]].
  - destruct Hop as [-> | ->]; cbn; by rewrite decide_True.
  - intros z s Hz. right. split; [|by eauto]. destruct Hop as [-> | ->]; cbn; by rewrite decide_True.
Qed.

(** A new object. *)
Lemma put_agrees x w op t h v :
  checked_ t = false → checked_step w op = Ret (mkCWorld (<[x := t]> (cobjs w)) h) →
  v = mkWorld (<[x := base t]> (base <$> cobjs w)) h →
  (∀ z, mark z op = if decide (z = x) then Some false else None) →
  ∃ w', step_agrees w op v w'.
Proof.
  intros Ht Hstep -> Hm. eexists. split; [exact Hstep|]. split.
  - unfold erase. cbn. by rewrite fmap_insert.
  - intros z s. cbn. rewrite Hm. intros [[-> <-]|[? Hz]]%lookup_insert_Some.
    + left. by rewrite decide_True, Ht.
    + right. rewrite decide_False by done. by eauto.
Qed.

(** The end of an object. *)
Lemma destroy_agrees w x s h :
  cobjs w !! x = Some s → Status_destroy (cmem w) (base s) = Ret h → checked_ s = true →
  ∃ w', step_agrees w (Plain (OpDestroy x)) (mkWorld (delete x (base <$> cobjs w)) h) w'.
Proof.
  intros Hx Hd Hs. eexists. split; [|split].
  - cbn. rewrite Hx. unfold CStatus_destroy. by rewrite Hs, Hd.
  - unfold erase. cbn. by rewrite fmap_delete.
  - intros z t. cbn. intros [_ Hz]%lookup_delete_Some. right. by eauto.
Qed.

(** The two assignments, of different objects. *)
Lemma assign_agrees w x y this s op t s' h :
  op = OpAssign x y ∨ op = OpMoveAssign x y → x ≠ y →
  cobjs w !! x = Some this → cobjs w !! y = Some s → checked_ s' = true →
  checked_step w (Plain op) = Ret (put2 x y w (mkCStatus t false, s', h)) →
  ∃ w', step_agrees w (Plain op) (mkWorld (<[x := t]> (<[y := base s']> (base <$> cobjs w))) h) w'.
Proof.
  intros Hop Hne Hx Hy Hs Hstep. eapply (put2_agrees x y w _ (mkCStatus t false) s'); [done|done|exact Hs|exact Hstep|done|].
  intros z. destruct Hop as [-> | ->]; cbn; by rewrite decide_False.
Qed.

Lemma plain_step_agrees w op v :
  op_in_scope (cobjs w) op = true → status_step (erase w) op = Ret v →
  (∃ x s, op = OpDestroy x ∧ cobjs w !! x = Some s ∧ checked_ s = false ∧
     checked_step w (Plain op) = Fault Abort) ∨
  ((∀ x s, op = OpDestroy x → cobjs w !! x = Some s → checked_ s = true) ∧
   ∃ w', step_agrees w (Plain op) v w').
Proof.
  intros Hop Hv.
  assert (∀ y s, cobjs w !! y = Some s → (base <$> cobjs w) !! y = Some (base s)) as Hbase.
  { intros y s Hy. by rewrite lookup_fmap, Hy. }
  destruct op as [x c sc|x c sc m1 m2|x y|x y sev|x y|x y|x y|x]; cbn in Hop, Hv; scope_facts.
  1-2: right; split; [done|].
  3-5: destruct (cobjs w !! y) as [s|] eqn:Hy; [|dead]; right; split; [done|];
    rewrite (Hbase y s Hy) in Hv; cbn in Hv.
  6-7: right; split; [done|]; destruct (decide (x = y)) as [->|Hne];
    [injection Hv as <-; apply self_agrees with y; by auto|];
    destruct (cobjs w !! x) as [this|] eqn:Hx; [|dead]; destruct (cobjs w !! y) as [s|] eqn:Hy; [|dead];
    rewrite (Hbase x this Hx), (Hbase y s Hy) in Hv; cbn in Hv.
  - injection Hv as <-. by eapply (put_agrees x w _ (CStatus_new _)).
  - destruct (Status_msg (cmem w) c sc m1 m2) as [s h] eqn:Hmsg. injection Hv as <-.
    eapply (put_agrees x w _ (CStatus_new s)); [done| |done..]. cbn. by rewrite Hmsg.
  - destruct (Status_copy _ _) as [[t h]|] eqn:Hc; [|discriminate Hv]. injection Hv as <-.
    eapply (put2_agrees x y w _ (CStatus_new t) (set_checked s)); [congruence|done|done| |
      by cbn; rewrite base_put_id|done].
    cbn. rewrite Hy. unfold CStatus_copy. by rewrite Hc.
  - destruct (Status_copy_sev _ _ _) as [[t h]|] eqn:Hc; [|discriminate Hv]. injection Hv as <-.
    eapply (put2_agrees x y w _ (CStatus_new t) (set_checked s)); [congruence|done|done| |
      by cbn; rewrite base_put_id|done].
    cbn. rewrite Hy. unfold CStatus_copy_sev. by rewrite Hc.
  - injection Hv as <-.
    eapply (put2_agrees x y w _ (mkCStatus _ false) (mkCStatus _ true)); [congruence|done|done| |
      reflexivity|done].
    cbn. rewrite Hy. reflexivity.
  - destruct (Status_assign _ _ _) as [[t h]|] eqn:Hc; [|discriminate Hv]. injection Hv as <-.
    destruct (assign_agrees w x y this s (OpAssign x y) t (set_checked s) h) as [w' Hw']; [by auto|done..| |].
    + cbn. rewrite decide_False, Hx, Hy by done. unfold CStatus_assign. by rewrite Hc.
    + exists w'. rewrite <-(base_put_id (cobjs w) y s Hy). exact Hw'.
  - destruct (Status_move_assign _ _ _) as [[[t s'] h]|] eqn:Hc; [|discriminate Hv]. injection Hv as <-.
    eapply (assign_agrees w x y this s _ t (mkCStatus s' true)); [by auto|done..|].
    cbn. rewrite decide_False, Hx, Hy by done. unfold CStatus_move_assign. by rewrite Hc.
  - destruct (cobjs w !! x) as [s|] eqn:Hx; [|dead]. rewrite (Hbase x s Hx) in Hv. cbn in Hv.
    destruct (Status_destroy _ _) as [h|] eqn:Hd; [|discriminate Hv]. injection Hv as <-.
    destruct (checked_ s) eqn:Hs.
    + right. split; [intros y t [= ->] Hy; congruence|]. by eapply destroy_agrees.
    + left. exists x, s. split_and!; [done..|]. cbn. rewrite Hx. unfold CStatus_destroy. by rewrite Hs.
Qed.

(** A test changes flags only. *)
Lemma erase_alter x (os : gmap nat CStatus) : base <$> alter set_checked x os = base <$> os.
Proof.
  apply map_eq. intros z. rewrite !lookup_fmap. destruct (decide (x = z)) as [->|].
  - rewrite lookup_alter_eq. by destruct (os !! z).
  - by rewrite lookup_alter_ne.
Qed.

Lemma test_step_agrees w op :
  (∀ p, op ≠ Plain p) → ∃ w', step_agrees w op (erase w) w'.
Proof.
  intros Hop. destruct op as [p|x|x y]; [by destruct (Hop p)|..]; eexists; (split; [reflexivity|]).
  - split; [unfold erase; cbn; by rewrite erase_alter|]. intros z s. cbn.
    destruct (decide (z = x)) as [->|].
    + rewrite lookup_alter_eq. intros (t & Ht & ->)%fmap_Some. by left.
    + rewrite lookup_alter_ne by done. right. by eauto.
  - split; [unfold erase; cbn; by rewrite !erase_alter|]. intros z s. cbn. rewrite !lookup_alter_Some.
    destruct (decide (z = x ∨ z = y)); naive_solver.
Qed.

Context `{!StatusMessagesLaws}.

Lemma flags_ok_step pre w op v w' :
  flags_ok pre w → step_agrees w op v w' → flags_ok (pre ++ [op]) w'.
Proof.
  intros Hf (_ & _ & Hm) x s Hx. rewrite last_mark_snoc.
  destruct (Hm x s Hx) as [->|(-> & s0 & Hx0 & <-)]; [done|by apply Hf].
Qed.

(** The program destroys an object whose last mark, after [pre], is "unchecked". *)
Definition destroys_unchecked (pre ops : list checked_op) : Prop :=
  ∃ ops1 x ops2, ops = ops1 ++ Plain (OpDestroy x) :: ops2 ∧ last_mark x (pre ++ ops1) = Some false.

Lemma destroys_unchecked_cons pre op ops :
  destroys_unchecked pre (op :: ops) ↔
  (∃ x, op = Plain (OpDestroy x) ∧ last_mark x pre = Some false) ∨ destroys_unchecked (pre ++ [op]) ops.
Proof.
  split.
  - intros ([|op' ops1] & x & ops2 & [= -> ->] & Hm).
    + left. exists x. by rewrite app_nil_r in Hm.
    + right. exists ops1, x, ops2. by rewrite <-app_assoc.
  - intros [(x & -> & Hm)|(ops1 & x & ops2 & -> & Hm)].
    + exists [], x, ops. by rewrite app_nil_r.
    + exists (op :: ops1), x, ops2. by rewrite <-app_assoc in Hm.
Qed.

(** What a run from [w] ends in. *)
Definition run_agrees (pre : list checked_op) (w : cworld) (ops : list checked_op) : Prop :=
  (checked_run w ops = Fault Abort ∧ destroys_unchecked pre ops) ∨
  (¬ destroys_unchecked pre ops ∧ ∃ w', checked_run w ops = Ret w' ∧
     status_run (erase w) (plain_ops ops) = Ret (erase w') ∧ flags_ok (pre ++ ops) w').

Lemma run_agrees_step pre w op ops v w' :
  step_agrees w op v w' → run_agrees (pre ++ [op]) w' ops →
  (∀ x, op = Plain (OpDestroy x) → last_mark x pre ≠ Some false) →
  status_run (erase w) (plain_ops (op :: ops)) = status_run v (plain_ops ops) →
  run_agrees pre w (op :: ops).
Proof.
  intros (Hstep & <- & _) Hrun Hno Hplain. unfold run_agrees in *.
  rewrite destroys_unchecked_cons, Hplain. unfold checked_run in *. cbn [foldM]. rewrite Hstep. cbn [mbind outcome_bind].
  destruct Hrun as [[Hr Hd]|(Hd & w2 & Hr & Hs & Hf)]; [left; by auto|right]. split.
  - intros [(x & -> & Hm)|]; [by eapply Hno|done].
  - exists w2. by rewrite <-app_assoc in Hf.
Qed.

Lemma checked_run_agrees ops pre w V :
  flags_ok pre w → holds (base <$> cobjs w) (cmem w) V → in_scope V (plain_ops ops) = true →
  run_agrees pre w ops.
Proof.
  revert pre w V. induction ops as [|op ops IH]; intros pre w V Hf Hh Hs.
  { right. split; [by intros ([|??] & ? & ? & ? & _)|]. exists w. by rewrite app_nil_r. }
  destruct op as [op|x|x y].
  2,3: match goal with |- run_agrees _ _ (?op :: _) =>
      destruct (test_step_agrees w op) as (w' & Hw'); [done|];
      eapply run_agrees_step; [exact Hw'| |done|done];
      apply (IH _ _ V); [by eapply flags_ok_step| |done];
      destruct Hw' as (_ & He & _); injection He as -> ->; exact Hh
    end.
  cbn in Hs. apply andb_true_iff in Hs as [Hop Hs].
  destruct (status_step_refines _ _ V op Hh Hop) as (v & Hv & Hhv).
  assert (op_in_scope (cobjs w) op = true) as Hop'.
  { rewrite <-Hop. assert (∀ x, is_Some (cobjs w !! x) ↔ is_Some (V !! x)) as Hl.
    { intros x. by rewrite (holds_live _ _ _ _ Hh), lookup_fmap, !fmap_is_Some. }
    destruct op; cbn; repeat f_equal; apply bool_decide_ext, Hl. }
  destruct (plain_step_agrees w op v Hop' Hv) as [(x & s & -> & Hx & Hck & Hstep)|(Hck & w' & Hw')].
  - left. unfold checked_run. cbn [foldM]. rewrite Hstep. split; [done|].
    apply destroys_unchecked_cons. left. exists x. split; [done|]. rewrite (Hf _ _ Hx). by rewrite Hck.
  - eapply run_agrees_step; [exact Hw'| | |].
    + destruct Hw' as (? & He & ?). apply (IH _ _ (spec_step V op)); [by eapply flags_ok_step| |done].
      rewrite <-He in Hhv. exact Hhv.
    + intros x [= ->] Hm. cbn in Hop'. apply bool_decide_eq_true in Hop' as [s Hx].
      rewrite (Hf _ _ Hx) in Hm. injection Hm as Hm. rewrite (Hck x s) in Hm by done. discriminate Hm.
    + cbn. unfold status_run. cbn [foldM]. change (mkWorld (base <$> cobjs w) (cmem w)) with (erase w) in Hv.
      by rewrite Hv.
Qed.

(** ** Property *)

(** C22: With ROCKSDB_ASSERT_STATUS_CHECKED a program aborts exactly when it
    destroys an object whose last event left it unchecked: its construction, or
    an assignment to it.  Tests, getters, comparisons and being copied or moved
    from check an object; nothing asks for a check before an object is assigned
    to, so an error that is overwritten is lost in silence.  A program that does
    not abort has the same objects and buffers as without the macro. *)
Theorem status_checked_discipline ops :
  in_scope ∅ (plain_ops ops) = true →
  (checked_run (mkCWorld ∅ ∅) ops = Fault Abort ↔
     ∃ before x after, ops = before ++ Plain (OpDestroy x) :: after ∧ last_mark x before = Some false) ∧
  (checked_run (mkCWorld ∅ ∅) ops ≠ Fault Abort →
     ∃ w, checked_run (mkCWorld ∅ ∅) ops = Ret w ∧
       status_run (mkWorld ∅ ∅) (plain_ops ops) = Ret (erase w) ∧
       ∀ x s, cobjs w !! x = Some s → last_mark x ops = Some (checked_ s)).
Proof.
  intros Hs. destruct (checked_run_agrees ops [] (mkCWorld ∅ ∅) ∅) as [[Hr Hd]|(Hd & w & Hr & Hw & Hf)];
    [done| |done|..]; rewrite ?Hr.
  - cbn [cobjs cmem]. rewrite fmap_empty. split; [|by rewrite fmap_empty].
    split_and!; unfold owns; [naive_solver..|]. by intros l [m Hm].
  - by split.
  - split; [split; [done|]|].
    + intros Hx. by destruct Hd.
    + intros _. exists w. split; [done|]. split; [|done]. rewrite <-Hw. unfold erase. cbn. by rewrite fmap_empty.
Qed.
End checked.

(** An error that is overwritten unseen does not abort; a copy left unseen does. *)
Lemma status_checked_discipline_witness :
  let lost := [Plain (OpNew 0 kIOError kNoSpace); Plain (OpNew 1 kOk kNone); Plain (OpAssign 0 1);
               OpTest 0; Plain (OpDestroy 0); Plain (OpDestroy 1)] in
  let unseen := [Plain (OpNew 0 kIOError kNone); Plain (OpCopy 1 0); Plain (OpDestroy 0); Plain (OpDestroy 1)] in
  (∃ w, checked_run (mkCWorld ∅ ∅) lost = Ret w) ∧ checked_run (mkCWorld ∅ ∅) unseen = Fault Abort.
Proof.
  cbv zeta. split.
  - destruct (status_checked_discipline
      [Plain (OpNew 0 kIOError kNoSpace); Plain (OpNew 1 kOk kNone); Plain (OpAssign 0 1);
       OpTest 0; Plain (OpDestroy 0); Plain (OpDestroy 1)] ltac:(vm_compute; reflexivity)) as [_ Hr].
    destruct Hr as (w & Hr & _); [vm_compute; discriminate|]. by exists w.
  - apply (status_checked_discipline
      [Plain (OpNew 0 kIOError kNone); Plain (OpCopy 1 0); Plain (OpDestroy 0); Plain (OpDestroy 1)]
      ltac:(vm_compute; reflexivity)).
    exists [Plain (OpNew 0 kIOError kNone); Plain (OpCopy 1 0); Plain (OpDestroy 0)], 1%nat, [].
    split; [reflexivity|vm_compute; reflexivity].
Defined.
