(* ===== verification/Runs.v ===== *)
(** * Runs of a step relation

    What the files on threads share: the runs of a relation that uses up a
    measure are finite and lead to the end, and a measure on the programs of
    all threads goes down when the one of a thread does. *)
From S2P Require Import Prelude.
From stdpp Require Export relations.

(** ** Runs that use up a measure *)

Section runs.
Context {A : Type} (step : relation A) (work : A → nat).

Lemma run_length n x y :
  (∀ x y, step x y → (work y < work x)%nat) → nsteps step n x y → (n + work y ≤ work x)%nat.
Proof.
  intros Hstep Hn. induction Hn as [x|n x y z Hxy _ IH]; [done|]. apply Hstep in Hxy. lia.
Qed.

(** An invariant of the steps holds along a run. *)
Lemma run_invariant (I : A → Prop) n x y :
  (∀ x y, I x → step x y → I y) → nsteps step n x y → I x → I y.
Proof. intros Hstep Hn. induction Hn as [x|n x y z Hxy _ IH]; eauto. Qed.

(** A state that is not at the end has a step, so some run gets there. *)
Lemma run_to_end (I ended : A → Prop) `{!∀ x, Decision (ended x)} x :
  (∀ x y, step x y → (work y < work x)%nat) → (∀ x y, I x → step x y → I y) →
  (∀ x, I x → ¬ ended x → ∃ y, step x y) → I x → ∃ n y, nsteps step n x y ∧ ended y.
Proof.
  intros Hwork HI Hgo. remember (work x) as w eqn:Hw. revert x Hw.
  induction (lt_wf w) as [w _ IH]. intros x -> Hx.
  destruct (decide (ended x)) as [|Hne]; [exists 0%nat, x; split; [constructor|done]|].
  destruct (Hgo x Hx Hne) as [y Hxy].
  destruct (IH (work y) (Hwork x y Hxy) y eq_refl (HI x y Hx Hxy)) as (n & z & Hn & Hz).
  exists (S n), z. split; [by econstructor|done].
Qed.
End runs.

(** ** A measure of all threads *)

Definition map_total {K A} `{Countable K} (f : A → nat) (m : gmap K A) : nat :=
  map_fold (λ _ a n, (f a + n)%nat) 0%nat m.

Section map_total.
Context {K A : Type} `{Countable K} (f : A → nat).

Lemma map_total_insert_new i a (m : gmap K A) :
  m !! i = None → map_total f (<[i := a]> m) = (f a + map_total f m)%nat.
Proof. intros Hi. unfold map_total. rewrite map_fold_insert_L; [done|intros; lia|done]. Qed.

Lemma map_total_update i a b (m : gmap K A) :
  m !! i = Some a → (map_total f (<[i := b]> m) + f a = map_total f m + f b)%nat.
Proof.
  intros Hi. rewrite <-insert_delete_eq, map_total_insert_new by apply lookup_delete_eq.
  rewrite <-(insert_delete_id m i a Hi) at 2. rewrite map_total_insert_new by apply lookup_delete_eq. lia.
Qed.
End map_total.
