(* ===== verification/Port.v ===== *)
(** * Locks (port/port_posix.h, port/port_posix.cc)

    [Mutex] and [CondVar] wrap the calls of pthread.  In a Debug build a mutex
    also keeps a flag [locked_], which [AssertHeld] reads; it is an ordinary
    variable, so it is right only if it is written by the thread that holds the
    mutex.  A method is the list of its atomic actions; threads interleave, and
    a wait is two actions, giving the mutex up and taking it back.

    pthread is the class [Pthread], with what POSIX says of the calls as laws.
    The theorem is about any number of threads that use one mutex in bracketed
    sections. *)
From S2P Require Import Prelude Decimal.

Abbreviation tid := nat.

Record timespec := mkTimespec { tv_sec : Z; tv_nsec : Z }.

(** The conversions of [TimedWait], to two signed 64-bit fields. *)
Definition abs_time (abs_time_us : Z) : timespec :=
  mkTimespec (signed 64 (abs_time_us / 1000000)) (signed 64 (abs_time_us mod 1000000 * 1000)).

(** What POSIX asks of a deadline: its nanoseconds are less than a second. *)
Definition valid_deadline (ts : timespec) : Prop := 0 ≤ tv_nsec ts < 1000000000.

(** pthread's mutex: its states, and the returns of the calls, with the result.
    A wait has a deadline or none.  [wait_enter] is the release of the mutex at
    its start, and [wait_return] its end, for a signal, a timeout or no reason;
    [timedwait_refused] is a timed wait that returns without waiting. *)
Class Pthread := {
  mutex_t : Type;
  mutex_init : mutex_t;
  holder : mutex_t → option tid;
  ETIMEDOUT : Z;
  EINVAL : Z;
  pthread_lock : tid → mutex_t → Z → mutex_t → Prop;
  pthread_unlock : tid → mutex_t → Z → mutex_t → Prop;
  wait_enter : tid → option timespec → mutex_t → mutex_t → Prop;
  timedwait_refused : tid → timespec → mutex_t → Z → Prop;
  wait_return : tid → option timespec → mutex_t → Z → mutex_t → Prop;
  (** The results of waking one waiter, and all: whoever is woken leaves its
      wait by [wait_return]. *)
  pthread_cond_signal : tid → Z → Prop;
  pthread_cond_broadcast : tid → Z → Prop;
}.

Class PthreadLaws `{Pthread} : Prop := {
  ETIMEDOUT_nonzero : ETIMEDOUT ≠ 0;
  EINVAL_error : EINVAL ≠ 0 ∧ EINVAL ≠ ETIMEDOUT;
  init_free : holder mutex_init = None;
  lock_law t m r m' : holder m ≠ Some t → pthread_lock t m r m' →
    r = 0 ∧ holder m = None ∧ holder m' = Some t;
  lock_free t m : holder m = None → ∃ m', pthread_lock t m 0 m';
  unlock_law t m r m' : holder m = Some t → pthread_unlock t m r m' → r = 0 ∧ holder m' = None;
  unlock_own t m : holder m = Some t → ∃ m', pthread_unlock t m 0 m';
  wait_enter_law t d m m' : holder m = Some t → wait_enter t d m m' →
    (∀ ts, d = Some ts → valid_deadline ts) ∧ holder m' = None;
  wait_enter_own t d m : holder m = Some t → (∀ ts, d = Some ts → valid_deadline ts) →
    ∃ m', wait_enter t d m m';
  (** A timed wait is refused for its deadline, and always for an invalid one. *)
  timedwait_refused_law t ts m r : holder m = Some t → timedwait_refused t ts m r →
    r = EINVAL ∧ ¬ valid_deadline ts;
  timedwait_refused_own t ts m : holder m = Some t → ¬ valid_deadline ts →
    timedwait_refused t ts m EINVAL;
  (** Only a wait with a deadline times out. *)
  wait_return_law t d m r m' : holder m ≠ Some t → wait_return t d m r m' →
    (r = 0 ∨ r = ETIMEDOUT ∧ d ≠ None) ∧ holder m = None ∧ holder m' = Some t;
  (** A wait with a deadline ends. *)
  timedwait_returns t ts m : holder m = None → ∃ r m', wait_return t (Some ts) m r m';
  cond_signal_law t r : pthread_cond_signal t r → r = 0;
  cond_signal_returns t : pthread_cond_signal t 0;
  cond_broadcast_law t r : pthread_cond_broadcast t r → r = 0;
  cond_broadcast_returns t : pthread_cond_broadcast t 0;
}.

Section port.
Context `{Pthread}.

Definition PthreadCall (result : Z) : outcome Z :=
  if negb (result =? 0) && negb (result =? ETIMEDOUT) then Fault Abort else Ret result.

(** What [TimedWait] does with the result of the wait. *)
Definition TimedWait_result (err : Z) : outcome bool :=
  if err =? ETIMEDOUT then Ret true else
  if negb (err =? 0) then _ ← PthreadCall err; Ret false else Ret false.

Inductive action :=
  | PthreadLock
  | PthreadUnlock
  | CondWait (deadline : option timespec)    (** the wait begins *)
  | Blocked (deadline : option timespec)     (** the wait goes on *)
  | Signal | Broadcast
  | SetLocked (b : bool)
  | AssertLocked
  | TimedResult (err : Z).

(** The methods, in a Debug build. *)
Definition Mutex_Lock : list action := [PthreadLock; SetLocked true].
Definition Mutex_Unlock : list action := [SetLocked false; PthreadUnlock].
Definition Mutex_AssertHeld : list action := [AssertLocked].
Definition CondVar_Wait : list action := [SetLocked false; CondWait None; SetLocked true].
(** After the wait, [TimedWait] goes on with [after_timedwait]. *)
Definition CondVar_TimedWait (abs_time_us : Z) : list action :=
  [SetLocked false; CondWait (Some (abs_time abs_time_us))].
Definition CondVar_Signal : list action := [Signal].
Definition CondVar_SignalAll : list action := [Broadcast].
Definition after_timedwait (err : Z) : list action := [SetLocked true; TimedResult err].

(** A [Mutex] and what the threads still have to do. *)
Record Mutex := mkMutex { mu_ : mutex_t; locked_ : bool }.
Record system := mkSystem { mutex : Mutex; threads : gmap tid (list action) }.

(** One action of one thread, and how it ends. *)
Inductive thread_step (t : tid) : Mutex → list action → outcome (Mutex * list action) → Prop :=
  | step_lock m r m' b k : pthread_lock t m r m' →
      thread_step t (mkMutex m b) (PthreadLock :: k)
        (_ ← PthreadCall r; Ret (mkMutex m' b, k))
  | step_unlock m r m' b k : pthread_unlock t m r m' →
      thread_step t (mkMutex m b) (PthreadUnlock :: k)
        (_ ← PthreadCall r; Ret (mkMutex m' b, k))
  | step_wait_enter m m' b d k : wait_enter t d m m' →
      thread_step t (mkMutex m b) (CondWait d :: k) (Ret (mkMutex m' b, Blocked d :: k))
  | step_timedwait_refused m r b ts k : timedwait_refused t ts m r →
      thread_step t (mkMutex m b) (CondWait (Some ts) :: k)
        (Ret (mkMutex m b, after_timedwait r ++ k))
  | step_wait_return m r m' b k : wait_return t None m r m' →
      thread_step t (mkMutex m b) (Blocked None :: k)
        (_ ← PthreadCall r; Ret (mkMutex m' b, k))
  | step_timedwait_return m r m' b ts k : wait_return t (Some ts) m r m' →
      thread_step t (mkMutex m b) (Blocked (Some ts) :: k)
        (Ret (mkMutex m' b, after_timedwait r ++ k))
  | step_signal m r b k : pthread_cond_signal t r →
      thread_step t (mkMutex m b) (Signal :: k) (_ ← PthreadCall r; Ret (mkMutex m b, k))
  | step_broadcast m r b k : pthread_cond_broadcast t r →
      thread_step t (mkMutex m b) (Broadcast :: k) (_ ← PthreadCall r; Ret (mkMutex m b, k))
  | step_set m b b' k :
      thread_step t (mkMutex m b) (SetLocked b' :: k) (Ret (mkMutex m b', k))
  | step_assert m b k :
      thread_step t (mkMutex m b) (AssertLocked :: k)
        (assert! b ;; Ret (mkMutex m b, k))
  | step_timed_result m b r k :
      thread_step t (mkMutex m b) (TimedResult r :: k)
        (_ ← TimedWait_result r; Ret (mkMutex m b, k)).

Inductive system_step : system → outcome system → Prop :=
  | system_step_thread s t acts r : threads s !! t = Some acts → thread_step t (mutex s) acts r →
      system_step s ('(m, acts') ← r; Ret (mkSystem m (<[t := acts']> (threads s)))).

Inductive reachable (s0 : system) : system → Prop :=
  | reachable_start : reachable s0 s0
  | reachable_step s s' : reachable s0 s → system_step s (Ret s') → reachable s0 s'.

(** ** Clients that use the mutex in bracketed sections *)

Inductive client_op :=
  | CLock | CUnlock | CAssertHeld | CWait | CTimedWait (abs_time_us : Z) | CSignal | CSignalAll.

Definition op_actions (op : client_op) : list action :=
  match op with
  | CLock => Mutex_Lock
  | CUnlock => Mutex_Unlock
  | CAssertHeld => Mutex_AssertHeld
  | CWait => CondVar_Wait
  | CTimedWait us => CondVar_TimedWait us
  | CSignal => CondVar_Signal
  | CSignalAll => CondVar_SignalAll
  end.
Definition program (ops : list client_op) : list action := ops ≫= op_actions.

(** [held] says whether the thread has the mutex when the program starts; a
    signal may come from anywhere, and the time of a wait is a [uint64_t]. *)
Fixpoint disciplined (held : bool) (ops : list client_op) : bool :=
  match ops with
  | [] => negb held
  | CLock :: ops => negb held && disciplined true ops
  | CUnlock :: ops => held && disciplined false ops
  | (CAssertHeld | CWait) :: ops => held && disciplined true ops
  | CTimedWait us :: ops => held && (0 <=? us) && (us <? 2 ^ 64) && disciplined true ops
  | (CSignal | CSignalAll) :: ops => disciplined held ops
  end.

Definition start (clients : gmap tid (list client_op)) : system :=
  mkSystem (mkMutex mutex_init false) (program <$> clients).

(** A thread that is in a wait, and one that is in a wait without a deadline. *)
Definition is_blocked (acts : list action) : bool :=
  match acts with Blocked _ :: _ => true | _ => false end.
Definition needs_signal (acts : list action) : bool :=
  match acts with Blocked None :: _ => true | _ => false end.

(** ** Construction, once, and other calls of the system *)

(** The constructors and destructors, for the result of the call they make;
    [Mutex_ctor_adaptive] is the constructor with ROCKSDB_PTHREAD_ADAPTIVE_MUTEX,
    which initialises an attribute, sets its type and destroys it. *)
Definition Mutex_ctor (init : Z) : outcome Mutex := _ ← PthreadCall init; Ret (mkMutex mutex_init false).
Definition kDefaultToAdaptiveMutex : bool := false.
Definition Mutex_ctor_adaptive (adaptive : bool) (attr_init settype init attr_destroy : Z) : outcome Mutex :=
  if negb adaptive then Mutex_ctor init
  else
    _ ← PthreadCall attr_init;
    _ ← PthreadCall settype;
    m ← Mutex_ctor init;
    _ ← PthreadCall attr_destroy;
    Ret m.
Definition Mutex_dtor (destroy : Z) : outcome unit := _ ← PthreadCall destroy; Ret tt.
Definition CondVar_ctor (init : Z) : outcome unit := _ ← PthreadCall init; Ret tt.
Definition CondVar_dtor (destroy : Z) : outcome unit := _ ← PthreadCall destroy; Ret tt.

(** [InitOnce]: [pthread_once] says what happens to the flag and the state the
    initializer changes. *)
Definition InitOnce {O S} (pthread_once : O → (S → S) → S → Z * O * S) (once : O)
    (initializer : S → S) (s : S) : outcome (O * S) :=
  let '(r, once, s) := pthread_once once initializer s in
  _ ← PthreadCall r; Ret (once, s).

(** [PhysicalCoreID] where [sched_getcpu] is present, for its answer. *)
Definition PhysicalCoreID (cpuno : Z) : Z := if cpuno <? 0 then -1 else cpuno.
(** [PhysicalCoreID] elsewhere on x86, for the [ebx] that [__get_cpuid] gives. *)
Definition PhysicalCoreID_cpuid (ebx : option Z) : Z :=
  match ebx with None => -1 | Some ebx => Z.shiftr (u32 ebx) 24 end.

(** [cacheline_aligned_alloc], for the result of [posix_memalign] and the
    memory it gives. *)
Definition cacheline_aligned_alloc {A} (errno : Z) (m : A) : option A :=
  if errno =? 0 then Some m else None.

Inductive CpuPriority : Set := kIdle | kLow | kNormal | kHigh.
Inductive sched_policy : Set := SCHED_OTHER | SCHED_IDLE.
Inductive priority_call : Set :=
  | sched_setscheduler (policy : sched_policy) (sched_priority : Z)
  | setpriority (nice : Z).

(** The calls of [SetCpuPriority] on Linux. *)
Definition SetCpuPriority (priority : CpuPriority) : list priority_call :=
  match priority with
  | kHigh => [sched_setscheduler SCHED_OTHER 0; setpriority (-20)]
  | kNormal => [sched_setscheduler SCHED_OTHER 0; setpriority 0]
  | kLow => [sched_setscheduler SCHED_OTHER 0; setpriority 19]
  | kIdle => [sched_setscheduler SCHED_IDLE 0]
  end.

(** ** The limits *)

(** [GetMaxOpenFiles], for the result of [getrlimit], and [GetPageSize] for
    that of [sysconf]. *)
Definition GetMaxOpenFiles (rlim_cur : option Z) : Z :=
  match rlim_cur with
  | None => -1
  | Some l => if u64 l >=? 2 ^ 31 - 1 then 2 ^ 31 - 1 else signed 32 l
  end.
Definition GetPageSize (v : Z) : Z := if v >=? 1024 then u64 v else 4096.

(** [kPageSize], from the same. *)
Definition kPageSize (v : Z) : Z := GetPageSize v.

Definition kMaxUint32 : Z := 2 ^ 32 - 1.
Definition kMaxInt32 : Z := 2 ^ 31 - 1.
Definition kMinInt32 : Z := - 2 ^ 31.
Definition kMaxUint64 : Z := 2 ^ 64 - 1.
Definition kMaxInt64 : Z := 2 ^ 63 - 1.
Definition kMinInt64 : Z := - 2 ^ 63.
Definition kMaxSizet : Z := 2 ^ 64 - 1.

(** ** [Crash] *)

Definition SIGTERM : Z := 15.
(** The characters of a C string. *)
Definition c_chars (s : bytes) : bytes := (span (λ c, negb (b2z c =? 0)) s).1.

(** What [Crash] prints, and its calls: to print, to flush, and to send the
    process a signal; [S] is the state of the system. *)
Definition crash_text (srcfile : bytes) (srcline : Z) : bytes :=
  lit "Crashing at " ++ c_chars srcfile ++ lit ":" ++ to_string srcline ++ [z2b 10].
Definition Crash {S} (fprintf_stdout : bytes → S → S) (fflush_stdout : S → S) (kill_self : Z → S → S)
    (srcfile : bytes) (srcline : Z) (s : S) : S :=
  kill_self SIGTERM (fflush_stdout (fprintf_stdout (crash_text srcfile srcline) s)).

(** [cacheline_aligned_free], for the [free] of the allocator. *)
Definition cacheline_aligned_free {A S} (free : option A → S → S) (memblock : option A) (s : S) : S :=
  free memblock s.

(** ** Lemmas *)

Context `{!PthreadLaws}.

(** The buffer is flushed before the signal, so the message is out, at the end
    of what was printed before, when the process is told to stop. *)
Lemma Crash_message srcfile srcline (out buffered : bytes) :
  Crash (λ t '(out, buffered, signals), (out, buffered ++ t, signals))
        (λ '(out, buffered, signals), (out ++ buffered, [], signals))
        (λ sig '(out, buffered, signals), (out, buffered, signals ++ [sig]))
        srcfile srcline (out, buffered, []) =
  (out ++ buffered ++ crash_text srcfile srcline, [], [SIGTERM]).
Proof. done. Qed.

Lemma abs_time_exact us :
  0 ≤ us < 2 ^ 64 →
  valid_deadline (abs_time us) ∧
  tv_sec (abs_time us) * 1000000000 + tv_nsec (abs_time us) = us * 1000.
Proof.
  intros Hus. unfold valid_deadline, abs_time. cbn [tv_sec tv_nsec].
  pose proof (Z.div_mod us 1000000 ltac:(lia)). pose proof (Z.mod_pos_bound us 1000000 ltac:(lia)).
  assert (0 ≤ us / 1000000 < 2 ^ 63) as Hq.
  { split; [apply Z.div_pos; lia|apply Z.div_lt_upper_bound; lia]. }
  unfold signed. rewrite !(Z.mod_small _ (2 ^ 64)) by lia. zbool; lia.
Qed.

Lemma GetMaxOpenFiles_range l : -1 ≤ GetMaxOpenFiles l < 2 ^ 31.
Proof.
  destruct l as [l|]; cbn; [|lia]. rewrite Z.geb_leb. destruct (Z.leb_spec (2 ^ 31 - 1) (u64 l)); [lia|].
  unfold signed. assert (l mod 2 ^ 32 = u64 l) as ->; [|pose proof (u64_range l); zbool; lia].
  unfold u64 in *. pose proof (Z.mod_pos_bound l (2 ^ 64) ltac:(lia)).
  rewrite <-(Z.mod_small (l mod 2 ^ 64) (2 ^ 32)) by lia.
  change (2 ^ 64) with (2 ^ 32 * 2 ^ 32). rewrite Z.rem_mul_r, Z.mul_comm, Z.mod_add, Z.mod_mod; lia.
Qed.

(** However often [InitOnce] is called, the initializer runs once. *)
Lemma InitOnce_once {S} (pthread_once : bool → (S → S) → S → Z * bool * S) f s n :
  (∀ once f s, pthread_once once f s = (0, true, if once then s else f s)) →
  foldM (λ '(once, s) (_ : nat), InitOnce pthread_once once f s) (false, s) (seq 0 (Datatypes.S n)) =
    Ret (true, f s).
Proof.
  intros Honce.
  assert (∀ once s, InitOnce pthread_once once f s = Ret (true, if once then s else f s)) as Hcall.
  { intros once s'. unfold InitOnce. by rewrite Honce. }
  cbn [seq foldM]. rewrite Hcall. cbn [mbind outcome_bind].
  generalize 1%nat. induction n as [|n IH]; intros k; [done|].
  cbn [seq foldM]. rewrite Hcall. cbn [mbind outcome_bind]. apply IH.
Qed.

(** What a thread may still have to do, whether it holds the mutex, and the
    value of [locked_] if it does. *)
Inductive thread_ok : list action → bool → bool → Prop :=
  | ok_boundary held ops : disciplined held ops → thread_ok (program ops) held held
  | ok_set ops : disciplined true ops → thread_ok (SetLocked true :: program ops) true false
  | ok_unlock ops : disciplined false ops → thread_ok (PthreadUnlock :: program ops) true false
  | ok_wait ops : disciplined true ops →
      thread_ok (CondWait None :: SetLocked true :: program ops) true false
  | ok_blocked ops : disciplined true ops →
      thread_ok (Blocked None :: SetLocked true :: program ops) false false
  | ok_timedwait ts ops : valid_deadline ts → disciplined true ops →
      thread_ok (CondWait (Some ts) :: program ops) true false
  | ok_timedblocked ts ops : disciplined true ops →
      thread_ok (Blocked (Some ts) :: program ops) false false
  | ok_timedset r ops : disciplined true ops → r = 0 ∨ r = ETIMEDOUT →
      thread_ok (after_timedwait r ++ program ops) true false
  | ok_timedresult r ops : disciplined true ops → r = 0 ∨ r = ETIMEDOUT →
      thread_ok (TimedResult r :: program ops) true true.

Definition system_ok (s : system) : Prop :=
  (∀ t acts, threads s !! t = Some acts → ∃ owns flag, thread_ok acts owns flag ∧
     (owns = true ↔ holder (mu_ (mutex s)) = Some t) ∧
     (owns = true → locked_ (mutex s) = flag)) ∧
  (∀ t, holder (mu_ (mutex s)) = Some t → is_Some (threads s !! t)) ∧
  (holder (mu_ (mutex s)) = None → locked_ (mutex s) = false).

(** One action of a thread that holds the mutex or not: it does not fail, and
    it leaves the mutex of the others alone. *)
Definition step_result (t : tid) (m : Mutex) (owns : bool) (r : outcome (Mutex * list action)) : Prop :=
  ∃ m' acts' owns' flag', r = Ret (m', acts') ∧ thread_ok acts' owns' flag' ∧
    holder (mu_ m') = (if owns' then Some t else if owns then None else holder (mu_ m)) ∧
    (owns' = true → owns = false → holder (mu_ m) = None) ∧
    (owns' = true → locked_ m' = flag') ∧
    (owns' = false → locked_ m' = if owns then false else locked_ m).

Lemma PthreadCall_ok r : r = 0 ∨ r = ETIMEDOUT → PthreadCall r = Ret r.
Proof.
  unfold PthreadCall. intros [->| ->]; [done|]. by rewrite Z.eqb_refl, andb_false_r.
Qed.
Lemma TimedWait_result_ok r :
  r = 0 ∨ r = ETIMEDOUT → TimedWait_result r = Ret (bool_decide (r = ETIMEDOUT)).
Proof.
  unfold TimedWait_result. destruct (Z.eqb_spec r ETIMEDOUT) as [->|].
  - by rewrite bool_decide_true.
  - intros [->|?]; [|done]. by rewrite bool_decide_false.
Qed.

(** Takes a step of a thread to the next place of its program. *)
Ltac step_to o :=
  eexists _, _, o, _; split; [reflexivity|]; cbn;
  split; [econstructor; eauto; fail|]; split_and!; naive_solver.

(** A signal changes nothing. *)
Ltac signal_step :=
  match goal with
  | Hc : pthread_cond_signal _ _ |- _ => apply cond_signal_law in Hc as ->
  | Hc : pthread_cond_broadcast _ _ |- _ => apply cond_broadcast_law in Hc as ->
  end;
  rewrite (PthreadCall_ok 0) by auto;
  match goal with |- step_result _ _ ?h _ => eexists _, _, h, h end;
  split; [reflexivity|]; split; [econstructor; eauto; fail|]; cbn; split_and!; naive_solver.

(** The steps of a thread at the start of a method. *)
Lemma boundary_step_ok t m held ops r :
  disciplined held ops → (held = true ↔ holder (mu_ m) = Some t) →
  (held = true → locked_ m = held) → (holder (mu_ m) = None → locked_ m = false) →
  thread_step t m (program ops) r → step_result t m held r.
Proof.
  intros Hd Ho Hf Hfree Hs.
  destruct ops as [|[] ops]; cbn in Hs; [inversion Hs|..]; destruct held; try done; cbn in Hd;
    inversion Hs; subst; cbn in *; try signal_step.
  - destruct (lock_law t m0 r0 m') as (-> & ? & ?); [naive_solver|done|].
    rewrite (PthreadCall_ok 0) by auto. step_to true.
  - step_to true.
  - rewrite Hf by done. eexists _, _, true, true. split; [reflexivity|]. cbn.
    split; [by apply (ok_boundary true)|]. split_and!; naive_solver.
  - step_to true.
  - destruct (0 <=? abs_time_us) eqn:H1, (abs_time_us <? 2 ^ 64) eqn:H2; try done. apply Z.leb_le in H1.
    apply Z.ltb_lt in H2. destruct (abs_time_exact abs_time_us) as [Hts _]; [done|]. step_to true.
Qed.

Lemma thread_step_ok t m acts owns flag r :
  thread_ok acts owns flag → (owns = true ↔ holder (mu_ m) = Some t) →
  (owns = true → locked_ m = flag) → (holder (mu_ m) = None → locked_ m = false) →
  thread_step t m acts r → step_result t m owns r.
Proof.
  intros Hok Ho Hf Hfree Hs.
  destruct Hok as [held ops Hd|ops Hd|ops Hd|ops Hd|ops Hd|ts ops Hts Hd|ts ops Hd|e ops Hd He|e ops Hd He];
    [by eapply boundary_step_ok|inversion Hs; subst; cbn in *..].
  - eexists _, _, true, true. split; [reflexivity|]. cbn.
    split; [by apply (ok_boundary true)|]. split_and!; naive_solver.
  - destruct (unlock_law t m0 r0 m') as (-> & ?); [naive_solver|done|].
    rewrite (PthreadCall_ok 0) by auto. eexists _, _, false, false. split; [reflexivity|]. cbn.
    split; [by apply (ok_boundary false)|]. split_and!; naive_solver.
  - destruct (wait_enter_law t None m0 m') as [_ ?]; [naive_solver|done|]. step_to false.
  - destruct (wait_return_law t None m0 r0 m') as (Hr & ? & ?); [naive_solver|done|].
    rewrite PthreadCall_ok by naive_solver. step_to true.
  - destruct (wait_enter_law t (Some ts) m0 m') as [_ ?]; [naive_solver|done|]. step_to false.
  - destruct (timedwait_refused_law t ts m0 r0) as [_ []]; [naive_solver|done|done].
  - destruct (wait_return_law t (Some ts) m0 r0 m') as (Hr & ? & ?); [naive_solver|done|].
    assert (r0 = 0 ∨ r0 = ETIMEDOUT) by naive_solver.
    eexists _, _, true, false. split; [reflexivity|]. cbn [mu_ locked_].
    split; [by apply ok_timedset|]. split_and!; naive_solver.
  - eexists _, _, true, true. split; [reflexivity|]. cbn.
    split; [by apply ok_timedresult|]. split_and!; naive_solver.
  - rewrite TimedWait_result_ok by done. eexists _, _, true, true. split; [reflexivity|]. cbn.
    split; [by apply (ok_boundary true)|]. split_and!; naive_solver.
Qed.

Lemma system_step_ok s r : system_ok s → system_step s r → ∃ s', r = Ret s' ∧ system_ok s'.
Proof.
  intros (Hth & Hin & Hfree) Hs. destruct Hs as [s t acts r Ht Hr].
  destruct (Hth t acts Ht) as (owns & flag & Hok & Ho & Hf).
  destruct (thread_step_ok _ _ _ _ _ _ Hok Ho Hf Hfree Hr)
    as (m' & acts' & owns' & flag' & -> & Hok' & Hh & Hacq & Hf1 & Hf2).
  eexists. split; [reflexivity|]. split_and!; cbn.
  - intros u acts2 [[-> <-]|[Hne Hu]]%lookup_insert_Some.
    + exists owns', flag'. split; [done|]. split; [|done]. rewrite Hh.
      destruct owns', owns; naive_solver.
    + destruct (Hth u acts2 Hu) as (o2 & f2 & Hok2 & Ho2 & Hf2'). exists o2, f2. split; [done|].
      destruct o2.
      { assert (holder (mu_ (mutex s)) = Some u) as Hhu by by apply Ho2.
        destruct owns; [assert (holder (mu_ (mutex s)) = Some t) by (by apply Ho); congruence|].
        destruct owns'; [rewrite Hacq in Hhu by done; done|]. rewrite Hh, Hf2 by done. done. }
      split; [|done]. split; [done|]. rewrite Hh.
      destruct owns', owns; try done; [congruence..|]. intros Hx. by apply Ho2.
  - intros u. rewrite Hh. intros Hu. apply lookup_insert_is_Some.
    destruct (decide (t = u)) as [->|]; [by left|]. right. split; [done|]. apply Hin.
    destruct owns', owns; congruence.
  - rewrite Hh. destruct owns'; [done|]. intros Hx. rewrite Hf2 by done.
    destruct owns; [done|]. by apply Hfree.
Qed.

Lemma start_ok clients :
  map_Forall (λ _ ops, disciplined false ops = true) clients → system_ok (start clients).
Proof.
  intros Hd. split_and!; cbn; [|rewrite init_free; done|done].
  intros t acts. rewrite lookup_fmap, fmap_Some. intros (ops & Hops & ->).
  exists false, false. split; [apply (ok_boundary false)|rewrite init_free; done].
  rewrite (Hd t ops Hops). done.
Qed.

Lemma reachable_ok s0 s : system_ok s0 → reachable s0 s → system_ok s.
Proof.
  intros H0' Hr. induction Hr as [|s s' _ IH Hs]; [done|].
  destruct (system_step_ok _ _ IH Hs) as (? & [= <-] & ?). done.
Qed.

(** A thread with the mutex always has a step; without, it has one when the
    mutex is free and it is not in a wait that only a signal ends. *)
Lemma thread_can_step t m acts owns flag :
  thread_ok acts owns flag → (owns = true ↔ holder (mu_ m) = Some t) →
  (if owns then True else holder (mu_ m) = None ∧ acts ≠ [] ∧ needs_signal acts = false) →
  ∃ r, thread_step t m acts r.
Proof.
  destruct m as [m b]. intros Hok Ho Hgo. cbn in Ho, Hgo.
  destruct Hok as [held ops Hd|ops Hd|ops Hd|ops Hd|ops Hd|ts ops Hts Hd|ts ops Hd|e ops Hd He|e ops Hd He].
  1: { destruct ops as [|[] ops], held; cbn in *; try done; try (eexists; constructor; fail);
         try (eexists; apply step_signal, cond_signal_returns);
         try (eexists; apply step_broadcast, cond_broadcast_returns).
       - naive_solver.
       - destruct (lock_free t m) as [m' ?]; [naive_solver|]. eexists. by econstructor. }
  all: try (eexists; constructor; fail).
  - destruct (unlock_own t m) as [m' ?]; [naive_solver|]. eexists. by econstructor.
  - destruct (wait_enter_own t None m) as [m' ?]; [naive_solver..|]. eexists. by apply step_wait_enter.
  - naive_solver.
  - destruct (wait_enter_own t (Some ts) m) as [m' ?]; [naive_solver|by intros ? [= <-]|].
    eexists. by apply step_wait_enter.
  - destruct (timedwait_returns t ts m) as (r & m' & ?); [naive_solver|].
    eexists. by apply step_timedwait_return.
Qed.

(** The thread that holds the mutex, or any thread that has work, can go on. *)
Lemma holder_goes_on s t : system_ok s → holder (mu_ (mutex s)) = Some t → ∃ s', system_step s (Ret s').
Proof.
  intros Hok Hh. pose proof Hok as (Hth & Hin & _). destruct (Hin t Hh) as [acts Ht].
  destruct (Hth t acts Ht) as (owns & flag & Hacts & Ho & _).
  destruct (thread_can_step t (mutex s) acts owns flag Hacts Ho) as [r Hr].
  { rewrite (proj2 Ho Hh). done. }
  pose proof (system_step_thread s t acts r Ht Hr) as Hs.
  destruct (system_step_ok s _ Hok Hs) as (s' & E & _). rewrite E in Hs. by exists s'.
Qed.

Lemma system_goes_on s t acts :
  system_ok s → threads s !! t = Some acts → acts ≠ [] → needs_signal acts = false →
  ∃ s', system_step s (Ret s').
Proof.
  intros Hok Ht Hne Hb. destruct (holder (mu_ (mutex s))) as [u|] eqn:Hu; [by eapply holder_goes_on|].
  pose proof Hok as (Hth & _). destruct (Hth t acts Ht) as (owns & flag & Hacts & Ho & _).
  destruct (thread_can_step t (mutex s) acts owns flag Hacts Ho) as [r Hr]; [by destruct owns|].
  pose proof (system_step_thread s t acts r Ht Hr) as Hs.
  destruct (system_step_ok s _ Hok Hs) as (s' & E & _). rewrite E in Hs. by exists s'.
Qed.

(** ** Properties *)

(** C9: threads that use a mutex in bracketed sections, with waits inside them,
    and signals anywhere, in any interleaving.  No call aborts, though a timed
    wait is refused for an invalid deadline: [TimedWait] makes a valid one, which
    is the time it is given.  [AssertHeld] never fails in a section; an unfinished
    thread that does not hold the mutex is in a wait, about to lock it or about
    to signal, so that at most one is inside a section; when no one holds the
    mutex, [locked_] is clear.  As long as some thread is neither finished nor in
    a wait without a deadline, the system can go on: the wrappers introduce no
    deadlock. *)
Theorem mutex_discipline clients s :
  map_Forall (λ _ ops, disciplined false ops = true) clients →
  reachable (start clients) s →
  (∀ f, ¬ system_step s (Fault f)) ∧
  (∀ t acts, threads s !! t = Some acts → acts ≠ [] →
     holder (mu_ (mutex s)) ≠ Some t →
     is_blocked acts = true ∨ head acts ∈ Some <$> [PthreadLock; Signal; Broadcast]) ∧
  (holder (mu_ (mutex s)) = None → locked_ (mutex s) = false) ∧
  (∀ t acts, threads s !! t = Some acts → acts ≠ [] → needs_signal acts = false →
     ∃ s', system_step s (Ret s')) ∧
  (∀ us, 0 ≤ us < 2 ^ 64 → 0 ≤ tv_nsec (abs_time us) < 1000000000 ∧
     tv_sec (abs_time us) * 1000000000 + tv_nsec (abs_time us) = us * 1000).
Proof.
  intros Hd Hr. pose proof (reachable_ok _ _ (start_ok _ Hd) Hr) as Hok.
  pose proof Hok as (Hth & Hin & Hfree).
  split; [|split; [|split; [done|split; [|apply abs_time_exact]]]].
  - intros f Hs. destruct (system_step_ok s _ Hok Hs) as (? & ? & _). done.
  - intros t acts Ht Hne Hh. destruct (Hth t acts Ht) as (owns & flag & Hacts & Ho & _).
    destruct owns; [by destruct Hh; apply Ho|]. clear -Hacts Hne.
    inversion Hacts as [held ops Hops|?|?|?|?|?|?|?|?]; subst; [|by left..].
    right. destruct ops as [|[] ops]; try done; repeat constructor.
  - intros t acts Ht Hne Hb. by apply (system_goes_on s t acts).
Qed.
End port.

(** A mutex whose state is its holder. *)
#[global] Instance SimplePthread : Pthread := {|
  mutex_t := option tid;
  mutex_init := None;
  holder m := m;
  ETIMEDOUT := 110;
  EINVAL := 22;
  pthread_lock t m r m' := m = None ∧ r = 0 ∧ m' = Some t;
  pthread_unlock t m r m' := m = Some t ∧ r = 0 ∧ m' = None;
  wait_enter t d m m' := m = Some t ∧ m' = None ∧ ∀ ts, d = Some ts → valid_deadline ts;
  timedwait_refused t ts m r := m = Some t ∧ ¬ valid_deadline ts ∧ r = 22;
  wait_return t d m r m' := m = None ∧ m' = Some t ∧ (r = 0 ∨ r = 110 ∧ d ≠ None);
  pthread_cond_signal t r := r = 0;
  pthread_cond_broadcast t r := r = 0;
|}.

#[global] Instance SimplePthread_laws : PthreadLaws.
Proof. split; cbn; naive_solver. Qed.

Lemma mutex_discipline_witness :
  let clients : gmap tid (list client_op) :=
    {[ 0%nat := [CLock; CAssertHeld; CTimedWait 5; CUnlock]; 1%nat := [CLock; CWait; CUnlock] ]} in
  map_Forall (λ _ ops, disciplined false ops = true) clients ∧
  ∃ s, reachable (start clients) s ∧ holder (mu_ (mutex s)) = Some 0%nat ∧
       ∀ f, ¬ system_step s (Fault f).
Proof.
  set (clients := {[ 0%nat := [CLock; CAssertHeld; CTimedWait 5; CUnlock];
                     1%nat := [CLock; CWait; CUnlock] ]} : gmap tid (list client_op)).
  assert (map_Forall (λ _ ops, disciplined false ops = true) clients) as Hd by by_decide.
  split; [exact Hd|].
  assert (∃ acts, system_step (start clients)
    (Ret (mkSystem (@mkMutex SimplePthread (Some 0%nat) false) (<[0%nat := acts]> (threads (start clients))))))
    as [acts Hs].
  { eexists. apply (system_step_thread (start clients) 0%nat (program [CLock; CAssertHeld; CTimedWait 5; CUnlock])
      (Ret (@mkMutex SimplePthread (Some 0%nat) false, _))); [reflexivity|].
    apply (@step_lock SimplePthread 0%nat None 0 (Some 0%nat)). split_and!; reflexivity. }
  eexists. split; [exact (reachable_step _ _ _ (reachable_start _) Hs)|]. split; [reflexivity|].
  exact (proj1 (mutex_discipline clients _ Hd (reachable_step _ _ _ (reachable_start _) Hs))).
Defined.
