(* ===== verification/RWMutex.v ===== *)
(** * The readers-writer lock (port/port_posix.h, port/port_posix.cc)

    [RWMutex] wraps the rwlock of pthread: every method is one call, and a
    result other than 0 or ETIMEDOUT aborts.  Threads interleave call by call.

    The rwlock is the class [PthreadRwlock], with what POSIX says of the calls
    as laws: a read lock can be refused with EAGAIN when there are too many.
    The theorem is about any number of threads that access shared data in
    sections of the lock. *)
From S2P Require Import Prelude Port.

Inductive lock_mode : Set := LRead | LWrite.

#[global] Instance lock_mode_eq_dec : EqDecision lock_mode.
Proof. solve_decision. Defined.

(** [holders] are the threads that have the lock, and how. *)
Class PthreadRwlock `{Pthread} := {
  rwlock_t : Type;
  rwlock_init : rwlock_t;
  holders : rwlock_t → gmap tid lock_mode;
  EAGAIN : Z;
  pthread_rwlock_rdlock : tid → rwlock_t → Z → rwlock_t → Prop;
  pthread_rwlock_wrlock : tid → rwlock_t → Z → rwlock_t → Prop;
  pthread_rwlock_unlock : tid → rwlock_t → Z → rwlock_t → Prop;
}.

Class PthreadRwlockLaws `{PthreadRwlock} : Prop := {
  rwlock_init_free : holders rwlock_init = ∅;
  EAGAIN_error : EAGAIN ≠ 0 ∧ EAGAIN ≠ ETIMEDOUT;
  rdlock_law t m r m' : holders m !! t = None → pthread_rwlock_rdlock t m r m' →
    (r = 0 ∧ map_Forall (λ _ l, l = LRead) (holders m) ∧ holders m' = <[t := LRead]> (holders m)) ∨
    (r = EAGAIN ∧ m' = m);
  wrlock_law t m r m' : holders m !! t = None → pthread_rwlock_wrlock t m r m' →
    r = 0 ∧ holders m = ∅ ∧ holders m' = {[t := LWrite]};
  rwunlock_law t m r m' : is_Some (holders m !! t) → pthread_rwlock_unlock t m r m' →
    r = 0 ∧ holders m' = delete t (holders m);
  rdlock_free t m : holders m = ∅ → ∃ r m', pthread_rwlock_rdlock t m r m';
  wrlock_free t m : holders m = ∅ → ∃ r m', pthread_rwlock_wrlock t m r m';
  rwunlock_own t m : is_Some (holders m !! t) → ∃ r m', pthread_rwlock_unlock t m r m';
}.

Section rwmutex.
Context `{PthreadRwlock}.

(** What a thread does with the lock and the data it guards. *)
Inductive rw_op : Set :=
  | ReadLock | WriteLock | ReadUnlock | WriteUnlock
  | ReadData | WriteData (v : Z).

(** A [RWMutex], the data, and what the threads still have to do. *)
Record RWSystem := mkRWSystem {
  rw_mu_ : rwlock_t;
  rw_data : Z;
  rw_threads : gmap tid (list rw_op);
}.

(** The four methods. *)
Inductive rw_method (t : tid) (m : rwlock_t) : rw_op → outcome rwlock_t → Prop :=
  | RWMutex_ReadLock r m' : pthread_rwlock_rdlock t m r m' →
      rw_method t m ReadLock (_ ← PthreadCall r; Ret m')
  | RWMutex_WriteLock r m' : pthread_rwlock_wrlock t m r m' →
      rw_method t m WriteLock (_ ← PthreadCall r; Ret m')
  | RWMutex_ReadUnlock r m' : pthread_rwlock_unlock t m r m' →
      rw_method t m ReadUnlock (_ ← PthreadCall r; Ret m')
  | RWMutex_WriteUnlock r m' : pthread_rwlock_unlock t m r m' →
      rw_method t m WriteUnlock (_ ← PthreadCall r; Ret m').

(** The constructor and the destructor, for the result of their calls. *)
Definition RWMutex_ctor (init : Z) : outcome rwlock_t := _ ← PthreadCall init; Ret rwlock_init.
Definition RWMutex_dtor (destroy : Z) : outcome unit := _ ← PthreadCall destroy; Ret tt.

Inductive rw_step : RWSystem → outcome RWSystem → Prop :=
  | rw_step_method s t op ops r : rw_threads s !! t = Some (op :: ops) → rw_method t (rw_mu_ s) op r →
      rw_step s (m ← r; Ret (mkRWSystem m (rw_data s) (<[t := ops]> (rw_threads s))))
  | rw_step_read s t ops : rw_threads s !! t = Some (ReadData :: ops) →
      rw_step s (Ret (mkRWSystem (rw_mu_ s) (rw_data s) (<[t := ops]> (rw_threads s))))
  | rw_step_write s t v ops : rw_threads s !! t = Some (WriteData v :: ops) →
      rw_step s (Ret (mkRWSystem (rw_mu_ s) v (<[t := ops]> (rw_threads s)))).

Inductive rw_reachable (s0 : RWSystem) : RWSystem → Prop :=
  | rw_reachable_start : rw_reachable s0 s0
  | rw_reachable_step s s' : rw_reachable s0 s → rw_step s (Ret s') → rw_reachable s0 s'.

(** Accesses happen in sections, reads in either kind, writes in those of
    writers; [held] is how the thread has the lock. *)
Fixpoint rw_disciplined (held : option lock_mode) (ops : list rw_op) : Prop :=
  match ops with
  | [] => held = None
  | ReadLock :: ops => held = None ∧ rw_disciplined (Some LRead) ops
  | WriteLock :: ops => held = None ∧ rw_disciplined (Some LWrite) ops
  | ReadUnlock :: ops => held = Some LRead ∧ rw_disciplined None ops
  | WriteUnlock :: ops => held = Some LWrite ∧ rw_disciplined None ops
  | ReadData :: ops => held ≠ None ∧ rw_disciplined held ops
  | WriteData _ :: ops => held = Some LWrite ∧ rw_disciplined held ops
  end.

Definition rw_start (data : Z) (clients : gmap tid (list rw_op)) : RWSystem :=
  mkRWSystem rwlock_init data clients.

(** ** Lemmas *)

Context `{!PthreadRwlockLaws}.

Record rw_ok (s : RWSystem) : Prop := {
  rw_ok_threads t ops : rw_threads s !! t = Some ops → rw_disciplined (holders (rw_mu_ s) !! t) ops;
  rw_ok_holders t : is_Some (holders (rw_mu_ s) !! t) → is_Some (rw_threads s !! t);
  rw_ok_writer t : holders (rw_mu_ s) !! t = Some LWrite → holders (rw_mu_ s) = {[t := LWrite]};
}.

(** A method, called where the discipline allows it: how the holders change. *)
Lemma rw_method_ok t m op ops r :
  rw_disciplined (holders m !! t) (op :: ops) → rw_method t m op r →
  (r = Fault Abort ∧ op = ReadLock) ∨
  ∃ m', r = Ret m' ∧ rw_disciplined (holders m' !! t) ops ∧
    (∀ u, u ≠ t → holders m' !! u = holders m !! u) ∧
    (∀ u, holders m' !! u = Some LWrite → holders m' = {[u := LWrite]} ∨
       (holders m !! u = Some LWrite ∧ ∃ l, holders m !! t = Some l ∧ holders m' = delete t (holders m))).
Proof.
  assert (PthreadCall 0 = Ret 0) as E0 by (apply PthreadCall_ok; by left).
  intros Hd Hm. destruct Hm as [r m' Hr|r m' Hr|r m' Hr|r m' Hr]; cbn in Hd; destruct Hd as [Hh Hd].
  - destruct (rdlock_law t m r m' Hh Hr) as [(-> & Hall & Hm')|[-> ->]].
    + right. exists m'. rewrite E0, Hm', lookup_insert_eq. split; [done|]. split; [done|].
      split; [intros u Hu; by rewrite lookup_insert_ne|].
      intros u [[_ ?]|[_ Hu]]%lookup_insert_Some; [done|]. by specialize (Hall u _ Hu).
    + left. split; [|done]. destruct EAGAIN_error. unfold PthreadCall.
      by rewrite !(proj2 (Z.eqb_neq _ _)) by done.
  - destruct (wrlock_law t m r m' Hh Hr) as (-> & He & Hm'). right. exists m'.
    rewrite E0, Hm', lookup_singleton_eq, He. split; [done|]. split; [done|].
    split; [intros u Hu; by rewrite lookup_singleton_ne, lookup_empty|].
    intros u [<- _]%lookup_singleton_Some. by left.
  - destruct (rwunlock_law t m r m' (ex_intro _ _ Hh) Hr) as (-> & Hm'). right. exists m'.
    rewrite E0, Hm', lookup_delete_eq. split; [done|]. split; [done|].
    split; [intros u Hu; by rewrite lookup_delete_ne|].
    intros u [_ Hu]%lookup_delete_Some. right. split; [done|]. by exists LRead.
  - destruct (rwunlock_law t m r m' (ex_intro _ _ Hh) Hr) as (-> & Hm'). right. exists m'.
    rewrite E0, Hm', lookup_delete_eq. split; [done|]. split; [done|].
    split; [intros u Hu; by rewrite lookup_delete_ne|].
    intros u [_ Hu]%lookup_delete_Some. right. split; [done|]. by exists LWrite.
Qed.

(** Accesses keep the lock. *)
Lemma rw_access_ok s t op ops data :
  rw_ok s → rw_threads s !! t = Some (op :: ops) → rw_disciplined (holders (rw_mu_ s) !! t) ops →
  rw_ok (mkRWSystem (rw_mu_ s) data (<[t := ops]> (rw_threads s))).
Proof.
  intros [Hth Hho Hwr] Ht Hd. split; cbn; [| |done].
  - intros u ops' [[<- <-]|[_ Hu]]%lookup_insert_Some; [done|by apply Hth].
  - intros u Hu. apply lookup_insert_is_Some'. right. by apply Hho.
Qed.

Lemma rw_step_ok s r :
  rw_ok s → rw_step s r →
  (r = Fault Abort ∧ ∃ t ops, rw_threads s !! t = Some (ReadLock :: ops)) ∨ ∃ s', r = Ret s' ∧ rw_ok s'.
Proof.
  intros Hok Hs. pose proof Hok as [Hth Hho Hwr].
  destruct Hs as [s t op ops r Ht Hm|s t ops Ht|s t v ops Ht]; pose proof (Hth t _ Ht) as Hd.
  2,3: right; eexists; split; [reflexivity|]; eapply rw_access_ok; [done|done|apply Hd].
  destruct (rw_method_ok _ _ _ _ _ Hd Hm) as [[-> ->]|(m' & -> & Hd' & Hne & Hw)]; [left; by eauto|].
  right. eexists. split; [reflexivity|]. split; cbn.
  - intros u ops' [[<- <-]|[Hu Hops]]%lookup_insert_Some; [done|].
    rewrite Hne by done. by apply Hth.
  - intros u Hu. apply lookup_insert_is_Some. destruct (decide (t = u)) as [->|Hn]; [by left|].
    right. split; [done|]. rewrite Hne in Hu by done. by apply Hho.
  - intros u Hu. destruct (Hw u Hu) as [?|(Hold & l & Hl & Hdel)]; [done|].
    apply Hwr in Hold as Hall. rewrite Hdel, Hall in Hu |- *.
    apply lookup_delete_Some in Hu as [Htu _]. rewrite delete_singleton_ne by done. done.
Qed.

Lemma rw_reachable_ok clients data s :
  map_Forall (λ _ ops, rw_disciplined None ops) clients → rw_reachable (rw_start data clients) s → rw_ok s.
Proof.
  intros Hd Hr. induction Hr as [|s s' _ IH Hs].
  - split; cbn; rewrite rwlock_init_free; intros t; rewrite lookup_empty; [|by intros []|done].
    intros ops Ht. by apply (Hd t).
  - destruct (rw_step_ok _ _ IH Hs) as [[? _]|(? & [= <-] & ?)]; done.
Qed.

(** A thread with the lock can go on; any thread can when no one has it. *)
Lemma rw_can_step s t op ops :
  rw_ok s → rw_threads s !! t = Some (op :: ops) →
  is_Some (holders (rw_mu_ s) !! t) ∨ holders (rw_mu_ s) = ∅ → ∃ r, rw_step s r.
Proof.
  intros [Hth _ _] Ht Hgo. pose proof (Hth t _ Ht) as Hd.
  destruct op; cbn in Hd; destruct Hd as [Hh Hd];
    try (eexists; (by eapply rw_step_read) || (by eapply rw_step_write)).
  - rewrite Hh in Hgo. destruct Hgo as [[]|Hgo]; [done|].
    destruct (rdlock_free t _ Hgo) as (r & m' & ?). eexists. eapply rw_step_method; [done|].
    by apply RWMutex_ReadLock.
  - rewrite Hh in Hgo. destruct Hgo as [[]|Hgo]; [done|].
    destruct (wrlock_free t _ Hgo) as (r & m' & ?). eexists. eapply rw_step_method; [done|].
    by apply RWMutex_WriteLock.
  - destruct (rwunlock_own t (rw_mu_ s)) as (r & m' & ?); [by rewrite Hh|].
    eexists. eapply rw_step_method; [done|]. by apply RWMutex_ReadUnlock.
  - destruct (rwunlock_own t (rw_mu_ s)) as (r & m' & ?); [by rewrite Hh|].
    eexists. eapply rw_step_method; [done|]. by apply RWMutex_WriteUnlock.
Qed.

Lemma rw_goes_on s t op ops :
  rw_ok s → rw_threads s !! t = Some (op :: ops) → ∃ r, rw_step s r.
Proof.
  intros Hok Ht. pose proof Hok as [Hth Hho _]. destruct (decide (holders (rw_mu_ s) = ∅)) as [He|He].
  - eapply rw_can_step; [done|exact Ht|by right].
  - apply map_choose in He as (u & l & Hu). destruct (Hho u (ex_intro _ _ Hu)) as [[|op' ops'] Hu'].
    + pose proof (Hth u _ Hu') as Hn. cbn in Hn. congruence.
    + eapply rw_can_step; [done|exact Hu'|left; by exists l].
Qed.

(** ** Properties *)

(** C11: threads that access shared data in sections of a [RWMutex], in any
    interleaving.  While one writes, no other is in a section, so that the data
    has no race and does not change while a thread has the lock for reading;
    the only call that can abort is a read lock that the system refuses; and as
    long as some thread is not finished, some thread can go on. *)
Theorem rwmutex_sections clients data s :
  map_Forall (λ _ ops, rw_disciplined None ops) clients → rw_reachable (rw_start data clients) s →
  (∀ t u v ops op ops', t ≠ u → rw_threads s !! t = Some (WriteData v :: ops) →
     rw_threads s !! u = Some (op :: ops') → op = ReadLock ∨ op = WriteLock) ∧
  (∀ s' u, rw_step s (Ret s') → holders (rw_mu_ s) !! u = Some LRead → rw_data s' = rw_data s) ∧
  (∀ f, rw_step s (Fault f) → f = Abort ∧ ∃ t ops, rw_threads s !! t = Some (ReadLock :: ops)) ∧
  ((∃ t op ops, rw_threads s !! t = Some (op :: ops)) → ∃ r, rw_step s r).
Proof.
  intros Hd Hr. pose proof (rw_reachable_ok _ _ _ Hd Hr) as Hok. pose proof Hok as [Hth Hho Hwr].
  split_and!.
  - intros t u v ops op ops' Hne Ht Hu. pose proof (Hth t _ Ht) as [Hw _].
    pose proof (Hth u _ Hu) as Hdu. apply Hwr in Hw. rewrite Hw, lookup_singleton_ne in Hdu by done.
    destruct op; cbn in Hdu; destruct Hdu as [? _]; by auto.
  - intros s' u Hs Hu. remember (Ret s') as r eqn:E. destruct Hs as [s t op ops r Ht Hm|s t ops Ht|s t v ops Ht].
    + destruct r; [|done]. injection E as <-. done.
    + by injection E as <-.
    + pose proof (Hth t _ Ht) as [Hw _]. apply Hwr in Hw as Hall. rewrite Hall in Hu.
      apply lookup_singleton_Some in Hu as [_ ?]. done.
  - intros f Hs. destruct (rw_step_ok _ _ Hok Hs) as [[[= ->] ?]|(? & ? & _)]; done.
  - intros (t & op & ops & Ht). by eapply rw_goes_on.
Qed.
End rwmutex.

(** A lock whose state is its holders; it admits eight readers. *)
#[global] Instance SimpleRwlock : PthreadRwlock := {|
  rwlock_t := gmap tid lock_mode;
  rwlock_init := ∅;
  holders m := m;
  EAGAIN := 11;
  pthread_rwlock_rdlock t m r m' := map_Forall (λ _ l, l = LRead) m ∧
    if decide (size m < 8)%nat then r = 0 ∧ m' = <[t := LRead]> m else r = 11 ∧ m' = m;
  pthread_rwlock_wrlock t m r m' := m = ∅ ∧ r = 0 ∧ m' = {[t := LWrite]};
  pthread_rwlock_unlock t m r m' := is_Some (m !! t) ∧ r = 0 ∧ m' = delete t m;
|}.

#[global] Instance SimpleRwlock_laws : PthreadRwlockLaws.
Proof.
  split; cbn; try naive_solver.
  - intros t m r m' _ [Hall Hr]. case_decide; naive_solver.
  - intros t m ->. exists 0, {[t := LRead]}. split; [apply map_Forall_empty|done].
Qed.

Lemma rwmutex_sections_witness :
  let clients : gmap tid (list rw_op) :=
    {[ 0%nat := [WriteLock; WriteData 5; WriteUnlock]; 1%nat := [ReadLock; ReadData; ReadUnlock] ]} in
  map_Forall (λ _ ops, rw_disciplined None ops) clients ∧
  ∃ s, rw_reachable (rw_start 0 clients) s ∧ holders (rw_mu_ s) = {[ 0%nat := LWrite ]} ∧
       ∃ r, rw_step s r.
Proof.
  set (clients := {[ 0%nat := [WriteLock; WriteData 5; WriteUnlock];
                     1%nat := [ReadLock; ReadData; ReadUnlock] ]} : gmap tid (list rw_op)).
  assert (map_Forall (λ _ ops, rw_disciplined None ops) clients) as Hd.
  { unfold clients. apply map_Forall_insert_2; [cbn; done|]. apply map_Forall_singleton. cbn. done. }
  split; [exact Hd|].
  assert (rw_step (rw_start 0 clients) (Ret (mkRWSystem ({[ 0%nat := LWrite ]} : rwlock_t) 0
    (<[0%nat := [WriteData 5; WriteUnlock]]> clients)))) as Hs.
  { apply (rw_step_method (rw_start 0 clients) 0%nat WriteLock [WriteData 5; WriteUnlock]
      (Ret ({[ 0%nat := LWrite ]} : rwlock_t))); [reflexivity|].
    apply (RWMutex_WriteLock 0%nat (∅ : rwlock_t) 0 ({[ 0%nat := LWrite ]} : rwlock_t)).
    split; [reflexivity|]. split; reflexivity. }
  eexists. split; [exact (rw_reachable_step _ _ _ (rw_reachable_start _) Hs)|]. split; [reflexivity|].
  apply (rwmutex_sections clients 0 _ Hd (rw_reachable_step _ _ _ (rw_reachable_start _) Hs)).
  exists 0%nat, (WriteData 5), [WriteUnlock]. reflexivity.
Defined.
