(* ===== verification/LockRuns.v ===== *)
(** * Runs of threads with locks

    Threads that use the locks of Port and RWMutex in bracketed sections run
    straight-line programs, so every run is finite; with the progress that the
    wrappers keep, it ends only where nothing is left to do. *)
From S2P Require Import Prelude Runs Port RWMutex.

(** ** Mutexes and condition variables *)

Section mutex_runs.
Context `{PthreadLaws}.

(** What an action can still cost: a wait begins, ends, sets the flag and looks
    at its result. *)
Definition weight (a : action) : nat :=
  match a with CondWait _ => 4 | Blocked _ => 3 | _ => 1 end.
Definition work (acts : list action) : nat := sum_list_with weight acts.
Definition system_work (s : system) : nat := map_total work (threads s).

Definition goes (s s' : system) : Prop := system_step s (Ret s').

(** Every thread is finished or in a wait without a deadline. *)
Definition quiescent (s : system) : Prop :=
  map_Forall (λ _ acts, acts = [] ∨ needs_signal acts = true) (threads s).

#[export] Instance quiescent_dec s : Decision (quiescent s).
Proof.
  apply map_Forall_dec. intros _ acts. destruct acts; [left; by left|].
  destruct (needs_signal (a :: acts)) eqn:E; [left; by right|right; intros [?|?]; done].
Defined.

Lemma thread_step_work t m acts m' acts' :
  thread_step t m acts (Ret (m', acts')) → (work acts' < work acts)%nat.
Proof.
  intros Hs. remember (Ret (m', acts')) as r eqn:E. unfold work.
  destruct Hs; invert_run; cbn [sum_list_with weight]; try lia.
Qed.

Lemma goes_work s s' : goes s s' → (system_work s' < system_work s)%nat.
Proof.
  unfold goes. intros Hs. remember (Ret s') as r eqn:E. destruct Hs as [s t acts r Ht Hr].
  destruct r as [[m acts']|]; [|done]. injection E as <-.
  apply thread_step_work in Hr. unfold system_work. cbn [threads].
  pose proof (map_total_update work t acts acts' (threads s) Ht). lia.
Qed.

Lemma run_reachable s0 n s s' : reachable s0 s → nsteps goes n s s' → reachable s0 s'.
Proof. intros Hr Hn. by apply (run_invariant goes (reachable s0) n s s' (reachable_step s0)). Qed.

Lemma not_quiescent s :
  ¬ quiescent s → ∃ t acts, threads s !! t = Some acts ∧ acts ≠ [] ∧ needs_signal acts = false.
Proof.
  intros Hq. apply map_not_Forall in Hq; [|intros _ acts].
  - destruct Hq as (t & acts & Ht & Hacts). exists t, acts. split; [done|].
    destruct acts; [naive_solver|]. split; [done|]. apply not_true_is_false. naive_solver.
  - destruct acts; [left; by left|]. destruct (needs_signal (a :: acts)) eqn:E; [left; by right|].
    right. intros [?|?]; done.
Qed.

(** *** Programs without waits *)

Definition is_wait (op : client_op) : bool :=
  match op with CWait | CTimedWait _ => true | _ => false end.

Definition never_waits (acts : list action) : Prop :=
  Forall (λ a, match a with CondWait _ | Blocked _ => False | _ => True end) acts.

Lemma program_never_waits ops : existsb is_wait ops = false → never_waits (program ops).
Proof.
  induction ops as [|op ops IH]; [constructor|]. cbn [existsb]. rewrite orb_false_iff. intros [Hop Hops].
  unfold never_waits, program. rewrite bind_cons, Forall_app. split; [|by apply IH].
  destruct op; try done; repeat constructor.
Qed.

(** The threads stay those of the start, and do not begin to wait. *)
Definition waitless (clients : gmap tid (list client_op)) (s : system) : Prop :=
  dom (threads s) = dom clients ∧ map_Forall (λ _, never_waits) (threads s).

Lemma waitless_step clients s s' : waitless clients s → goes s s' → waitless clients s'.
Proof.
  unfold goes. intros [Hdom Hall] Hs. remember (Ret s') as r eqn:E. destruct Hs as [s t acts r Ht Hr].
  destruct r as [[m acts']|]; [|done]. injection E as <-. unfold waitless. cbn [threads].
  split; [by rewrite dom_insert_lookup_L by done|]. apply map_Forall_insert_2; [|done].
  pose proof (Hall t acts Ht) as Hacts. cbv beta in Hacts.
  remember (Ret (m, acts')) as r eqn:E.
  destruct Hr; invert_run; inversion Hacts; subst; done.
Qed.

(** ** Properties *)

(** Runs of threads that use a mutex in bracketed sections with waits.  Every
    run is finite: each step uses up work, and a run is no longer than the work
    of the programs.  From every state some run leads to one in which all threads
    are finished or in a wait without a deadline; where no step is left this is
    so, and no one holds the mutex.  Without waits all threads are then finished. *)
Theorem mutex_runs_end clients s :
  map_Forall (λ _ ops, disciplined false ops = true) clients → reachable (start clients) s →
  (∀ n s', nsteps goes n s s' → (n + system_work s' ≤ system_work s)%nat) ∧
  (∃ n s', nsteps goes n s s' ∧ quiescent s') ∧
  ((∀ s', ¬ goes s s') → quiescent s ∧ holder (mu_ (mutex s)) = None) ∧
  (map_Forall (λ _ ops, existsb is_wait ops = false) clients → quiescent s →
     threads s = (λ _, []) <$> clients).
Proof.
  intros Hd Hr. pose proof (reachable_ok _ _ (start_ok _ Hd) Hr) as Hok.
  assert (∀ s, system_ok s → ¬ quiescent s → ∃ s', goes s s') as Hgo.
  { intros u Hu (t & acts & ? & ? & ?)%not_quiescent. by eapply system_goes_on. }
  split_and!.
  - intros n s'. apply run_length, goes_work.
  - apply (run_to_end goes system_work system_ok quiescent s goes_work); [|done|done].
    intros x y Hx Hs. by destruct (system_step_ok x _ Hx Hs) as (? & [= <-] & ?).
  - intros Hstuck. split.
    + destruct (decide (quiescent s)) as [|Hq]; [done|]. destruct (Hgo s Hok Hq) as [s' ?]. by destruct (Hstuck s').
    + destruct (holder _) as [t|] eqn:Hh; [|done].
      destruct (holder_goes_on s t Hok Hh) as [s' ?]. by destruct (Hstuck s').
  - intros Hw Hq. assert (waitless clients s) as [Hdom Hall].
    { clear -Hr Hw. induction Hr as [|s s' _ IH Hs]; [|by apply (waitless_step _ s)].
      split; cbn; [apply dom_fmap_L|]. intros t acts. rewrite lookup_fmap, fmap_Some.
      intros (ops & Hops & ->). apply program_never_waits. by apply (Hw t). }
    apply map_eq. intros t. rewrite lookup_fmap. destruct (clients !! t) as [ops|] eqn:Hops; cbn.
    + assert (is_Some (threads s !! t)) as [acts Ht] by (apply elem_of_dom; rewrite Hdom; by apply elem_of_dom_2 in Hops).
      rewrite Ht. f_equal. pose proof (Hall t acts Ht) as Hacts. destruct (Hq t acts Ht) as [|Hb]; [done|].
      destruct acts as [|[] acts]; try done. by inversion Hacts.
    + apply not_elem_of_dom. rewrite Hdom. by apply not_elem_of_dom.
Qed.
End mutex_runs.

Lemma mutex_runs_end_witness :
  let clients : gmap tid (list client_op) :=
    {[ 0%nat := [CLock; CAssertHeld; CUnlock]; 1%nat := [CLock; CSignal; CUnlock] ]} in
  map_Forall (λ _ ops, disciplined false ops = true) clients ∧
  system_work (start clients) = 10%nat ∧
  ∃ n s, nsteps goes n (start clients) s ∧ quiescent s.
Proof.
  set (clients := {[ 0%nat := [CLock; CAssertHeld; CUnlock];
                     1%nat := [CLock; CSignal; CUnlock] ]} : gmap tid (list client_op)).
  assert (map_Forall (λ _ ops, disciplined false ops = true) clients) as Hd by by_decide.
  split; [exact Hd|]. split; [reflexivity|].
  exact (proj1 (proj2 (mutex_runs_end clients _ Hd (reachable_start _)))).
Defined.

(** ** Readers-writer locks *)

Section rw_runs.
Context `{PthreadRwlockLaws}.

Definition rw_goes (s s' : RWSystem) : Prop := rw_step s (Ret s').
(** The calls and accesses that are left. *)
Definition rw_work (s : RWSystem) : nat := map_total length (rw_threads s).

Lemma rw_goes_work s s' : rw_goes s s' → rw_work s = S (rw_work s').
Proof.
  unfold rw_goes. intros Hs. remember (Ret s') as r eqn:E.
  assert (∀ t op ops, rw_threads s !! t = Some (op :: ops) →
    map_total length (rw_threads s) = S (map_total length (<[t := ops]> (rw_threads s)))) as Hw.
  { intros t op ops Ht. pose proof (map_total_update length t _ ops _ Ht). cbn in *. lia. }
  unfold rw_work. destruct Hs as [s t op ops r Ht Hm|s t ops Ht|s t v ops Ht].
  - destruct r; [|done]. injection E as <-. by eapply Hw.
  - injection E as <-. by eapply Hw.
  - injection E as <-. by eapply Hw.
Qed.

Lemma rw_run_work n s s' : nsteps rw_goes n s s' → (n + rw_work s')%nat = rw_work s.
Proof. induction 1 as [u|n u v w Huv _ IH]; [done|]. rewrite (rw_goes_work u v Huv). lia. Qed.

(** Every step is one call or access of one thread: a run has as many steps as
    calls and accesses are done.  Where no step is left, all are, and no thread
    has the lock. *)
Theorem rwmutex_runs_end clients data s :
  map_Forall (λ _ ops, rw_disciplined None ops) clients → rw_reachable (rw_start data clients) s →
  (∀ n s', nsteps rw_goes n s s' → (n + rw_work s')%nat = rw_work s) ∧
  ((∀ r, ¬ rw_step s r) → map_Forall (λ _ ops, ops = []) (rw_threads s) ∧ holders (rw_mu_ s) = ∅).
Proof.
  intros Hd Hr. pose proof (rw_reachable_ok _ _ _ Hd Hr) as Hok. pose proof Hok as [Hth Hho _].
  split; [intros n s'; apply rw_run_work|]. intros Hstuck.
  assert (map_Forall (λ _ ops, ops = []) (rw_threads s)) as Hall.
  { intros t [|op ops] Ht; [done|]. destruct (rw_goes_on s t op ops Hok Ht) as [r Hs].
    by destruct (Hstuck r). }
  split; [done|]. apply map_eq. intros t. rewrite lookup_empty.
  destruct (holders (rw_mu_ s) !! t) as [l|] eqn:Hl; [|done].
  destruct (Hho t (ex_intro _ _ Hl)) as [ops Ht]. pose proof (Hth t ops Ht) as Hx.
  rewrite (Hall t ops Ht), Hl in Hx. done.
Qed.

End rw_runs.

Lemma rwmutex_runs_end_witness :
  let clients : gmap tid (list rw_op) := {[ 1%nat := [ReadLock; ReadData; ReadUnlock] ]} in
  map_Forall (λ _ ops, rw_disciplined None ops) clients ∧
  ∀ n s', nsteps rw_goes n (rw_start 0 clients) s' → (n + rw_work s')%nat = 3%nat.
Proof.
  set (clients := {[ 1%nat := [ReadLock; ReadData; ReadUnlock] ]} : gmap tid (list rw_op)).
  assert (map_Forall (λ _ ops, rw_disciplined None ops) clients) as Hd
    by (apply map_Forall_singleton; cbn; done).
  split; [exact Hd|]. exact (proj1 (rwmutex_runs_end clients 0 _ Hd (rw_reachable_start _))).
Defined.
